(* ===== verification/_CoqProject ===== *)
-Q . S2P
Prelude.v
Golang.v
Telemetry.v
Main.v
Netip.v
Regexp.v
Model.v
Ignore.v
Cgroup.v
Resolver.v
Decode.v
Probe.v
Sockets.v
Loader.v
Dedup.v
DnsCache.v
Wire.v
Aggregator.v
Sender.v
Collector.v
Enrich.v
Emit.v
Render.v
Processor.v
Calls.v
Delivery.v
Kube.v
Endpoints.v
Controller.v
Transform.v
SharedInformer.v
Informers.v
Atomic.v
Handlers.v
Interleave.v
Converge.v
Cells.v
Owners.v
Settle.v
Origin.v
Istio.v
IstioRun.v
Mesh.v
Serving.v
Config.v
System.v
Flushing.v
Node.v
Typing.v
Startup.v
Lifecycle.v
Joint.v
KafkaTest.v
