(* ===== verification/Prelude.v ===== *)
(** * Network sniffer: verification library (root)

    The program has two halves.  A collector on every node reads raw connection
    and DNS records from an eBPF probe it loads into the kernel, drops node-local noise, attaches what only
    the node knows (the caller's pod UID, the destination's DNS name), folds
    repeated connections into flow records and ships batches of them.  A central
    processor receives the batches, resolves both ends against a cache of
    Kubernetes and Istio state kept current by informers, filters and deduplicates
    the resulting service calls and emits each as one structured record.

    ** Files, in dependency order, and the code they model

    - [Prelude]: result values, bytes, metric counters, map iteration order,
      reachability, shared lemmas and automation.
    - [Golang], [Netip], [Regexp]: the parts of the Go language and standard
      library the sources use: wrapping integers, [time], [strings], [strconv];
      [net/netip] addresses with parsing and printing; the fragment of [regexp]
      the two patterns of the program need.
    - [Telemetry] (internal/telemetry/telemetry.go), [Main]
      (cmd/sniffer/main_linux.go, main_other.go): the server of the health
      endpoints, the command line and the exit status.
    - [Model] (internal/model/model.go): events, workloads, service calls,
      protocol names, orientation and the node-local filters.
    - [Ignore] (internal/ignore/ignore.go): glob patterns and the matcher.
    - [Cgroup] (internal/resolver/cgroup.go, pid.go): pod UIDs of processes.
    - [Resolver] (internal/resolver/resolver.go): the cache of three indexes and
      the walk to a top-level owner.  [Store], [UIDStore], [PortStore] and
      [OwnerLookup] are classes as they are interfaces in Go; [StoreLaws] and
      [PortStoreLaws] are what clients rely on and the cache provides.
    - [Decode] (internal/decode/decode.go, dns.go): the two record decoders.
    - [Probe], [Sockets] (bpf/sniffer.c): the three kernel programs, and the
      connection programs among the kernel's sockets; [Loader]
      (internal/bpf/loader_linux.go, loader_other.go): loading, attaching, reading
      and closing them, over the class [BpfLib] of the library's calls.
    - [Dedup] (internal/dedup/dedup.go), [DnsCache]
      (internal/dnscache/dnscache.go): the two time-bounded maps.
    - [Wire] (api/sniffer/v1/processor.pb.go): the messages, field for field.
    - [Aggregator], [Sender], [Collector] (internal/collector/aggregate.go,
      sender.go, collector.go, metrics.go): the node-local half; [Flushing]
      (collector.go, sender.go): its two flushers an operation at a time.
    - [Enrich] (internal/enrich/enrich.go), [Emit] (internal/emit/emit.go,
      multi.go, kafka.go), [Render] (emit.go, the JSON text of a record),
      [Processor] (internal/processor/pipeline.go, server.go, metrics.go): the
      central half; [Calls] (enrich.go, pipeline.go, server.go): concurrent
      [Report] calls an operation at a time, and [Serving] among the handlers; [Delivery] (sender.go, server.go): a
      sender, the network and the pipeline together.
    - [Kube], [Endpoints], [Controller], [Transform], [SharedInformer],
      [Informers], [Istio], [IstioRun] (internal/resolver/endpoints.go,
      k8s_linux.go, endpoints_linux.go, transform_linux.go, istio.go,
      istio_linux.go): API objects, the handlers that write the cache, the
      transforms that trim objects before storage, one informer as documented,
      and the runs of the two controllers among their informers; [Mesh] (the
      same files): the two on one cache.
    - [Atomic], [Handlers], [Interleave], [Converge], [Cells], [Owners], [Settle],
      [Origin]
      (k8s_linux.go, endpoints_linux.go, endpoints.go): the lister calls, lookups
      and writes as operations and programs of them; the handlers as such
      programs; the controller with the programs of different informers
      interleaved among the writes of others; the argument that a part of the
      cache with one writer converges, through the class [SingleWriter]; its
      instances for namespaces, node addresses and ports, and for the owner of a
      pod, found by a walk among the other handlers; the runs to a rest; and where
      the names in the index come from, whoever shares an address.
    - [Config] (internal/config/config.go), [System], [Node] and [Typing]
      (cmd/sniffer/collector_linux.go), [Startup] and [Lifecycle]
      (cmd/sniffer/processor_linux.go, internal/emit/kafka.go): configuration and
      start-up, the collector's loops run together, its whole process from start
      to exit with the type of its state, and the processor's goroutines from
      start to exit; [Joint] (processor_linux.go, k8s_linux.go,
      istio_linux.go): the processor with its two controllers.
    - [KafkaTest] (internal/kafkatest/kafkatest.go): the broker of the
      integration tests.

    ** Reading the model

    An operation that mutates its receiver is a function from the old state to its
    result and the new state, under the source's name where it is free
    ([cacheLookupIP] is [Cache.LookupIP], [EvIsLoopback] is
    [ConnectionEvent.IsLoopback], [NewCollector] and [NewSender] are the
    constructors).  A Go [(value, error)] is a [result], a comma-ok pair or a nil
    pointer an [option].  Addresses, ports and counters are integers with their
    wrap-around written out; time is nanoseconds, with the saturation of [Time.Sub].
    Ranging over a map takes its order from the class [RangeOrder]: theorems hold
    for every order.  Every state shared between goroutines is guarded by a mutex
    or a channel, so concurrent executions are sequences of atomic operations:
    [sys_step] (Sender) is a step relation whose steps are the individual selects
    and calls, with any number of concurrent [Enqueue] calls; [cop] (System)
    interleaves the collector's loops a whole [handle], [handleDNS] or tick at a
    time; [pop] (Processor) interleaves records, sweeps and cache updates;
    [istep] (Informers) and [rstep] (IstioRun) interleave the controllers' runs
    with their informers, [istep] a handler and [rstep] an operation at a time,
    as [fstep] (Interleave) does, of which [work] are the program's own, and
    [estep], which adds the writes of others; [mstep] (Mesh) is [fstep] and [rstep]
    over one cache, and [jstep] (Joint) [lstep], [fstep] and [rstep]; [xstep]
    (Flushing) interleaves the two flushers with the delivery loop, and [vstep]
    (Calls) concurrent [Report] calls with sweeps and cache writes, each an
    operation at a time, which [sstep] (Serving) runs with [mstep]; [nstep] (Delivery)
    is [sys_step] with the requests on the network and the records of the
    pipeline; [tstep] (Telemetry) the server of the health endpoints with its
    requests; [lstep] (Lifecycle) interleaves the
    processor's goroutines with any number of Report calls, a record at a time;
    [dstep] (Node) interleaves the collector's goroutines, the delivery loop a
    select or call at a time, over the state of the kernel [Loader] opened;
    [cb_step] (Startup) interleaves calls of the Kafka error callback an atomic
    operation at a time; [kstep] (Sockets) interleaves the connection programs
    with the allocation, reuse and release of sockets and with evictions.  Of
    client-go's informers, gRPC's server and the kernel these relations assume
    what their documentation says.  The operating system, the Kafka client, the
    YAML parser, the eBPF library and the DNS message parser are arguments; the
    last two come with the laws of their documentation as the classes
    [BpfLibLaws] and [DNSParserLaws], which [SimKernel] and [FixedParser]
    instantiate.

    ** What is shown

    - Kernel to collector: the probe's records are true of the sockets they were
      taken from ([probe_records_truthful]), no entry outlives its connect
      ([probe_entries_live]), the two ends of a connection become one call
      ([two_ends_one_call]), DNS payloads are copied whole ([dns_ingress_refines]);
      the loader gives back what it took, but for programs and maps its generated
      close function failed on ([loader_lifecycle]).
    - End to end: what a collector counts as sent is judged by the processor, and
      its edges are in the output, whatever the network loses, delays or repeats
      ([delivered_reach_output]); a collector that starts never gets stuck and accounts for every
      event ([collector_never_stuck]); whatever its goroutines do, accepted events
      reach the sender's batches and enrich to their own edges in the processor
      ([process_accounts], [wire_preserves_edges]), its state stays well typed
      ([collector_state_typed]), it can always finish ([process_can_exit]) and its
      exit code and open handles are explained ([exit_explained]).
    - Processor: it refines a declarative pipeline ([Processor_refines_spec]), the
      two captures of a connection give one edge ([two_sided_capture_once]), no
      record fails a batch ([Report_accounts]), identities have the documented
      precedence ([Enrich_contract]); concurrent calls count every record once,
      send every granted edge once and name it after what the cache held during
      the lookups ([concurrent_calls_account]), and keep the window
      ([concurrent_window]).
    - Collector: one result per event and record ([handle_counts_once],
      [handleDNS_feeds_cache]), fresh pod UIDs ([podUID_fresh]), exact flow
      summaries ([Add_summarises], [Drain_conserves]), bounded batches
      ([flush_batches]), nothing lost or doubled between the two flushers
      ([flushers_conserve]).
    - Output: a record is one line of JSON that reads back as its fields
      ([Encode_reads_back]); the error callback counts every failure and logs at
      most once a second ([errors_counted_rarely_logged]).
    - Sender: bounded queue, every record accounted for, in-order delivery without
      duplication, one log line per outage, the backoff schedule.
    - Time-bounded maps: both refine specifications without a map or a sweep
      ([Dedup_refines_window], [DnsCache_refines_ideal]).
    - Cluster state: the cache refines the log of its writes; pods, nodes,
      Services, EndpointSlices and ServiceEntries index and unindex what they
      should ([pod_lifecycle], [cluster_ips_follow_endpoints],
      [service_entry_lifecycle]), lookups racing a re-index see no gap
      ([reindexPorts_gapless]), trimming changes no resolution
      ([trim_preserves_resolution]), the owner walk terminates.
    - Interleaved handlers: whole handlers are a special case of the operations
      ([handlers_refine_calls]); from every state the handlers' work ends, and
      where it ends pod UIDs, addresses of one holder and ports say what the
      informers hold, a pod's exact top-level owner among it as long as the owners
      on the way are of the initial LIST and stay ([index_settles]), whatever
      addresses Istio's controller writes meanwhile; so do the edges of the
      processor that reads the cache the two controllers share, at rest
      ([edges_follow_cluster]).  None of this is said of ClusterIPs, where it does
      not hold ([cluster_ip_lost_update]).  At every moment an edge
      names only what some object names at its addresses ([edges_never_invent]),
      and so does every edge emitted by concurrent calls
      ([emitted_never_invented]).
    - Processes: ownership informers sync before any pod is handled and no pod is
      lost ([two_phase_start], [pod_uids_indexed]), the start-up pass maps every
      Service ([startup_pass_maps_services]); a processor handles calls only
      between the sync of the Kubernetes informers and the closing of Kafka
      ([serves_only_when_warm]), emits what the
      declarative pipeline prescribes over its whole run
      ([run_emits_as_specified]) and can always finish ([shutdown_completes]);
      the VIPs of stored ServiceEntries resolve, and only to hosts that entries
      name ([service_entries_resolve]); the health endpoints say what the readiness
      flag says, and their server ends only with a cause ([Serve_contract]).
    - Text and bytes: decoders against the probe's layout, pod UIDs, globs,
      protocol names, the dedup key.
    - Start-up: what configurations load and that they can be honoured.

    Some theorems show behaviour the sources do not intend: the controller can
    report itself synced, and every handler have caught up, with a Service that
    does not resolve ([synced_with_unmapped_service]), deleting a
    host-network pod evicts its node ([host_network_delete_evicts_node]), an
    updated ServiceEntry keeps its dropped VIPs ([service_entry_lifecycle]), a
    deleted one takes away the VIP another shares ([shared_vip_lost]), two handlers
    that synchronise one Service at the same time can leave its ClusterIP with
    the workload of the older state ([cluster_ip_lost_update]), a process whose
    shutdown overtakes its start sets its readiness again after it has closed Kafka
    ([ready_after_close]), nothing waits for Istio's informer before records are
    accepted ([ready_before_istio]), the address index
    follows the last pod event about an address and not the pods that hold it
    ([pod_addresses_last_event]), the server of the health endpoints returns with
    requests unanswered ([Serve_returns_early]), a caller
    whose entry the kernel evicted is reported the wrong way round
    ([lost_entry_reverses_call]), and "**/*" passes the guard against catch-all ignore patterns
    ([catch_all_slips_through]).

    ** Bounds and fuel

    [Enqueue] has fuel 2: without a concurrent caller the second iteration finds
    the room the first made ([Enqueue_keeps_newest] proves it enough for every
    positive capacity, and that none is enough for capacity zero).  [flush] has
    one unit per record and one more, enough when [MaxBatch] is positive, which
    the start-up check guarantees; [Panic] and [OutOfFuel] are results of their
    own, and [flush_batches] says when they occur.  [DecodeDNS] has 2^16: a
    message cannot declare more answers, and [DecodeDNS_correct] relates the
    result to the loop without fuel.  The owner walk has the bound of the code,
    ten.  [cut] (Node) has one unit per record, as [flush].  Parsers of addresses,
    of patterns and of JSON are fuelled by the length of their input.

    ** Not modelled

    Logging and the registration of metrics (the counters themselves are
    modelled) and the metrics endpoint's text; the Kafka protocol; gRPC transport
    and the generated accessors; flag parsing (the flags are arguments); what the
    kernel does with a packet or a socket beyond the steps of [kstep]; the
    integration tests that use kafkatest, and the deployment files.
    [Lifecycle], [Joint] and [Delivery] take a record of a call as one step, which
    [Calls] refines.  [Owners] says nothing of an address several objects claim, or
    of a ClusterIP, at rest, where the code itself keeps no promise
    ([pod_addresses_last_event], [shared_vip_lost], [cluster_ip_lost_update]);
    [Origin] says what it can be.  An informer's delete notification carries the
    object as stored, or that in a tombstone, and for Istio's only the object.
    Prometheus counters are unbounded integers, not floats, and the sender's
    depth gauge is set in the same step as the push or the dequeue.  Closing a
    handle of the kernel closes it even when it reports an error.

    ** Plan

    Left: [Node] with the finer steps of [Flushing]. *)

From Stdlib Require Export ZArith Lia.
From Stdlib Require Export Init.Byte Strings.Ascii Strings.String.
From stdpp Require Export base gmap strings list fin_maps sets sorting pretty.
#[export] Set Default Goal Selector "!".

(** ** Scope and error values *)

Declare Scope sniffer_scope.
Delimit Scope sniffer_scope with sniffer.
Open Scope Z_scope.

(** Go's [(value, error)] pair: exactly one side is meaningful. *)
Inductive result (E A : Type) : Type :=
| Ok (a : A)
| Err (e : E).
Arguments Ok {E A} a.
Arguments Err {E A} e.

#[export] Instance result_ret {E} : MRet (result E) := fun A a => Ok a.
#[export] Instance result_bind {E} : MBind (result E) :=
  fun A B f r => match r with Ok a => f a | Err e => Err e end.

Definition is_ok {E A} (r : result E A) : bool :=
  match r with Ok _ => true | Err _ => false end.


(** ** Bytes *)

#[export] Instance byte_eq_dec : EqDecision byte.
Proof. exact Byte.byte_eq_dec. Defined.

#[export] Instance byte_countable : Countable byte.
Proof.
  refine (inj_countable Byte.to_N Byte.of_N _).
  intros b. apply Byte.of_to_N.
Defined.

(** A byte as an integer, and back with Go's truncating conversion. *)
Definition byteZ (b : byte) : Z := Z.of_N (Byte.to_N b).
Definition byte_of_Z (z : Z) : byte :=
  default x00 (Byte.of_N (Z.to_N (z `mod` 256))).

(** Big- and little-endian unsigned integers of a byte slice, and their
    fixed-width encodings. *)
Fixpoint le_Z (l : list byte) : Z :=
  match l with
  | [] => 0
  | b :: l => byteZ b + 256 * le_Z l
  end.
Fixpoint le_bytes (n : nat) (z : Z) : list byte :=
  match n with
  | O => []
  | S n => byte_of_Z z :: le_bytes n (z / 256)
  end.
Definition be_Z (l : list byte) : Z := le_Z (rev l).
Definition be_bytes (n : nat) (z : Z) : list byte := rev (le_bytes n z).

(** ** Metrics: a Prometheus counter vector with one label. *)

Definition counter_inc (l : string) (m : gmap string N) : gmap string N :=
  partial_alter (fun o => Some (default 0%N o + 1)%N) l m.
Definition count (l : string) (m : gmap string N) : N := default 0%N (m !! l).
Definition counter_total (m : gmap string N) : N :=
  map_fold (fun _ v acc => (v + acc)%N) 0%N m.

(** [m ⊕ l] counts one more occurrence of the label [l]; [m ⟦ l ⟧] reads it. *)
Notation "m ⊕ l" := (counter_inc l m) (at level 50, left associativity) : sniffer_scope.
Notation "m ⟦ l ⟧" := (count l m) (at level 1, format "m ⟦ l ⟧") : sniffer_scope.
Open Scope sniffer_scope.

(** ** Iteration over a Go map

    [range m] visits every entry exactly once, in an order the language does
    not specify.  Code that ranges over a map takes the order as an instance of
    this class; its theorems hold for every instance. *)
Class RangeOrder (K V : Type) `{Countable K} := {
  range_map : gmap K V -> list (K * V);
  range_map_perm m : range_map m ≡ₚ map_to_list m
}.

(** The order of [map_to_list] is one such order; it is not declared as an
    instance so that no theorem picks it silently. *)
Definition canonical_order {K V} `{Countable K} : RangeOrder K V :=
  {| range_map := map_to_list; range_map_perm m := reflexivity _ |}.

(** Deleting while ranging, as the sweeps do: every entry visited whose value is
    expired is deleted from the map and counted. *)
Definition sweep_step {K V} `{Countable K} (expired : V -> bool)
    (s : nat * gmap K V) (kv : K * V) : nat * gmap K V :=
  if expired kv.2 then (S s.1, delete kv.1 s.2) else s.
Definition sweep_map {K V} `{RangeOrder K V} (expired : V -> bool) (m : gmap K V)
    : nat * gmap K V :=
  foldl (sweep_step expired) (0%nat, m) (range_map m).

(** ** Lists *)

(** The last [n] elements of a list. *)
Definition lastn {A} (n : nat) (l : list A) : list A := drop (length l - n) l.

(** Number of elements in a list of batches. *)
Definition total_length {A} (ls : list (list A)) : nat := sum_list_with length ls.

(** Reflexive-transitive closure of a step relation, growing on the right so
    that rule induction meets the last step. *)
Inductive reachable {S : Type} (init : S -> Prop) (step : S -> S -> Prop) : S -> Prop :=
| reach_init s : init s -> reachable init step s
| reach_step s s' : reachable init step s -> step s s' -> reachable init step s'.

(** ** Automation *)

Create HintDb sniffer.
Create Rewrite HintDb sniffer.

(** Case analysis on the matches and decisions of an unfolded operation,
    closing the branches the context refutes. *)
Ltac go_cases :=
  repeat (case_match || case_decide || case_bool_decide); simplify_eq/=; try done.

Ltac split_and_lia := repeat split; try lia.

(** ** Generic lemmas *)

Lemma reachable_invariant {S} (init : S -> Prop) (step : S -> S -> Prop) (P : S -> Prop) :
  (forall s, init s -> P s) ->
  (forall s s', P s -> step s s' -> P s') ->
  forall s, reachable init step s -> P s.
Proof. intros Hi Hs s Hr. induction Hr; eauto. Qed.

Lemma reachable_rtc {S} (init : S -> Prop) (step : S -> S -> Prop) x y :
  reachable init step x -> rtc step x y -> reachable init step y.
Proof. intros Hx Hr. induction Hr; [done|]. apply IHHr. by eapply reach_step. Qed.

Lemma byteZ_range b : 0 <= byteZ b < 256.
Proof.
  unfold byteZ. pose proof (Byte.to_N_bounded b). lia.
Qed.

Lemma byteZ_of_Z z : byteZ (byte_of_Z z) = z `mod` 256.
Proof.
  unfold byteZ, byte_of_Z.
  assert (0 <= z `mod` 256 < 256) as Hr by (apply Z.mod_pos_bound; lia).
  destruct (Byte.of_N (Z.to_N (z `mod` 256))) as [b|] eqn:E; simpl.
  - apply Byte.to_of_N in E. rewrite E. lia.
  - apply Byte.of_N_None_iff in E. lia.
Qed.

Lemma byteZ_inj b1 b2 : byteZ b1 = byteZ b2 -> b1 = b2.
Proof.
  unfold byteZ. intros H%N2Z.inj.
  apply (f_equal Byte.of_N) in H. rewrite !Byte.of_to_N in H. by simplify_eq.
Qed.

Lemma byte_of_byteZ b : byte_of_Z (byteZ b) = b.
Proof. apply byteZ_inj. rewrite byteZ_of_Z. apply Z.mod_small, byteZ_range. Qed.

Lemma length_le_bytes n z : length (le_bytes n z) = n.
Proof. revert z. induction n as [|n IH]; intros z; simpl; [done|by rewrite IH]. Qed.

Lemma length_be_bytes n z : length (be_bytes n z) = n.
Proof. unfold be_bytes. by rewrite length_rev, length_le_bytes. Qed.

Lemma le_Z_le_bytes n z : le_Z (le_bytes n z) = z `mod` 256 ^ Z.of_nat n.
Proof.
  revert z. induction n as [|n IH]; intros z.
  - cbn. by rewrite Z.mod_1_r.
  - cbn [le_bytes le_Z].
    rewrite byteZ_of_Z, IH, Nat2Z.inj_succ, Z.pow_succ_r, Z.rem_mul_r by lia. lia.
Qed.

Lemma le_bytes_le_Z l : le_bytes (length l) (le_Z l) = l.
Proof.
  induction l as [|b l IH]; [done|]. cbn [length le_bytes le_Z].
  pose proof (byteZ_range b) as Hb.
  replace ((byteZ b + 256 * le_Z l) / 256) with (le_Z l)
    by (rewrite Z.mul_comm, Z.div_add, Z.div_small; lia).
  rewrite IH. f_equal. apply byteZ_inj. rewrite byteZ_of_Z.
  rewrite Z.mul_comm, Z.mod_add, Z.mod_small; lia.
Qed.

Lemma le_Z_range l : 0 <= le_Z l < 256 ^ Z.of_nat (length l).
Proof.
  rewrite <- (le_bytes_le_Z l), le_Z_le_bytes, length_le_bytes.
  apply Z.mod_pos_bound. lia.
Qed.

Lemma be_Z_range l : 0 <= be_Z l < 256 ^ Z.of_nat (length l).
Proof. unfold be_Z. rewrite <- length_rev. apply le_Z_range. Qed.

Lemma be_Z_be_bytes n z : be_Z (be_bytes n z) = z `mod` 256 ^ Z.of_nat n.
Proof. unfold be_Z, be_bytes. by rewrite rev_involutive, le_Z_le_bytes. Qed.

Lemma be_bytes_be_Z l : be_bytes (length l) (be_Z l) = l.
Proof.
  unfold be_Z, be_bytes. rewrite <- (length_rev l), le_bytes_le_Z.
  apply rev_involutive.
Qed.

Lemma be_Z_inj l1 l2 : length l1 = length l2 -> be_Z l1 = be_Z l2 -> l1 = l2.
Proof.
  intros Hl Heq. rewrite <- (be_bytes_be_Z l1), <- (be_bytes_be_Z l2). by rewrite Hl, Heq.
Qed.

Lemma le_Z_app l1 l2 : le_Z (l1 ++ l2) = le_Z l1 + 256 ^ Z.of_nat (length l1) * le_Z l2.
Proof.
  induction l1 as [|b l1 IH]; [simpl; lia|].
  cbn [app le_Z length]. rewrite IH, Nat2Z.inj_succ, Z.pow_succ_r; lia.
Qed.

Lemma be_Z_app l1 l2 : be_Z (l1 ++ l2) = be_Z l1 * 256 ^ Z.of_nat (length l2) + be_Z l2.
Proof. unfold be_Z. rewrite rev_app_distr, le_Z_app, length_rev. lia. Qed.

(** Dropping the low bytes of a big-endian number is taking a prefix. *)
Lemma be_Z_shiftr k l :
  (k <= length l)%nat ->
  Z.shiftr (be_Z l) (8 * Z.of_nat (length l - k)) = be_Z (take k l).
Proof.
  intros Hk. rewrite Z.shiftr_div_pow2, Z.pow_mul_r by lia. change (2 ^ 8) with 256.
  rewrite <- (take_drop k l) at 1. rewrite be_Z_app, length_drop.
  pose proof (be_Z_range (drop k l)) as Hr. rewrite length_drop in Hr.
  rewrite Z.add_comm, Z.div_add, Z.div_small by lia. lia.
Qed.

(** Counters. *)
Lemma count_inc_eq l m : (m ⊕ l) ⟦l⟧ = (m ⟦l⟧ + 1)%N.
Proof. unfold count, counter_inc. by rewrite lookup_partial_alter_eq. Qed.

Lemma count_inc_ne l l' m : l <> l' -> (m ⊕ l) ⟦l'⟧ = m ⟦l'⟧.
Proof. intros H. unfold count, counter_inc. by rewrite lookup_partial_alter_ne. Qed.

Lemma counter_total_inc l m : counter_total (m ⊕ l) = (counter_total m + 1)%N.
Proof.
  assert (forall k v (m : gmap string N), m !! k = None ->
    counter_total (<[k:=v]> m) = (v + counter_total m)%N) as Hins.
  { intros k v m' Hk. unfold counter_total.
    rewrite map_fold_insert_L; [done| |done]. intros. lia. }
  assert (m ⊕ l = <[l := (m ⟦l⟧ + 1)%N]> m) as ->.
  { apply map_eq. intros k. unfold counter_inc, count.
    destruct (decide (l = k)) as [->|Hne].
    - by rewrite lookup_partial_alter_eq, lookup_insert_eq.
    - by rewrite lookup_partial_alter_ne, lookup_insert_ne. }
  unfold count. destruct (m !! l) as [v|] eqn:E; simpl.
  - rewrite <- (insert_delete_id m l v E) at 2.
    rewrite <- insert_delete_eq, !Hins by apply lookup_delete_eq. lia.
  - rewrite Hins by done. lia.
Qed.

(** Suffixes of lists. *)
Lemma lastn_all {A} n (l : list A) : (length l <= n)%nat -> lastn n l = l.
Proof. intros H. unfold lastn. by replace (length l - n)%nat with 0%nat by lia. Qed.

Lemma length_lastn {A} n (l : list A) : length (lastn n l) = (n `min` length l)%nat.
Proof. unfold lastn. rewrite length_drop. lia. Qed.

Lemma lastn_drop1_snoc {A} n (x : A) l :
  length l = n -> (0 < n)%nat -> lastn n (l ++ [x]) = drop 1 l ++ [x].
Proof.
  intros Hl Hn. unfold lastn. rewrite length_app. simpl.
  replace (length l + 1 - n)%nat with 1%nat by lia.
  destruct l; simpl in *; [lia|done].
Qed.

Lemma lastn_app {A} n (l1 l2 : list A) : lastn n (lastn n l1 ++ l2) = lastn n (l1 ++ l2).
Proof.
  destruct (decide (length l1 <= n)%nat) as [Hle|Hgt]; [by rewrite (lastn_all n l1)|].
  unfold lastn at 1 3. rewrite !length_app, length_lastn. unfold lastn.
  rewrite <- (drop_app_le l1 l2 (length l1 - n)) by lia. rewrite drop_drop. f_equal. lia.
Qed.

Lemma total_length_app {A} (l1 l2 : list (list A)) :
  total_length (l1 ++ l2) = (total_length l1 + total_length l2)%nat.
Proof. unfold total_length. induction l1 as [|x l1 IH]; simpl; lia. Qed.

Lemma total_length_concat {A} (ls : list (list A)) : total_length ls = length (concat ls).
Proof. unfold total_length. induction ls; simpl; rewrite ?length_app; lia. Qed.

(** Sweeping a map with a filter that only ever removes more. *)
Lemma map_filter_lookup_case {K A} `{Countable K} (P : K * A -> Prop)
    `{forall x, Decision (P x)} (m : gmap K A) k :
  filter P m !! k = match m !! k with
                    | Some a => if decide (P (k, a)) then Some a else None
                    | None => None end.
Proof.
  destruct (m !! k) as [a|] eqn:E; [case_decide|].
  - by apply map_lookup_filter_Some.
  - apply map_lookup_filter_None. right. intros x Hx. by simplify_eq.
  - apply map_lookup_filter_None. by left.
Qed.

Lemma map_size_filter_le {K A} `{Countable K} (P : K * A -> Prop)
    `{forall x, Decision (P x)} (m : gmap K A) :
  (size (filter P m) <= size m)%nat.
Proof. apply map_subseteq_size, map_filter_subseteq. Qed.

(** A sweep keeps exactly the unexpired entries, whatever the visiting order,
    and counts those it deletes. *)
Section Sweep.
Context {K V : Type} `{RangeOrder K V} (expired : V -> bool).

Lemma sweep_fold_lookup (l : list (K * V)) n (m : gmap K V) k x :
  (foldl (sweep_step expired) (n, m) l).2 !! k = Some x <->
  m !! k = Some x /\ forall v, (k, v) ∈ l -> expired v = false.
Proof.
  revert n m. induction l as [|[k' v'] l IH]; intros n m; simpl; [set_solver|].
  unfold sweep_step at 2. simpl.
  destruct (expired v') eqn:Ev; rewrite IH; clear IH; simpl.
  - rewrite lookup_delete_Some. split.
    + intros [[Hne Hx] Hl]. split; [done|]. intros v [Heq|Hin]%elem_of_cons; [congruence|auto].
    + intros [Hx Hl]. split_and!; [|done|].
      * intros ->. specialize (Hl v'). rewrite Ev in Hl. by discriminate Hl; left.
      * intros v Hv. apply Hl. by right.
  - split; intros [Hx Hl]; (split; [done|]); intros v Hv.
    + apply elem_of_cons in Hv as [?|?]; simplify_eq; auto.
    + apply Hl. by right.
Qed.

Lemma sweep_fold_count (l : list (K * V)) n (m : gmap K V) :
  NoDup l.*1 -> (forall k v, (k, v) ∈ l -> m !! k = Some v) ->
  ((foldl (sweep_step expired) (n, m) l).1 + size (foldl (sweep_step expired) (n, m) l).2 = n + size m)%nat.
Proof.
  revert n m. induction l as [|[k v] l IH]; intros n m Hnd Hm; [done|].
  simpl in *. apply NoDup_cons in Hnd as [Hk Hnd].
  unfold sweep_step at 2 4. simpl.
  destruct (expired v) eqn:Ev; [|rewrite IH; set_solver].
  assert (m !! k = Some v) as Hkv by (apply Hm; left).
  rewrite IH; [|done|].
  - rewrite map_size_delete_Some by (by eexists).
    assert (0 < size m)%nat; [|lia].
    destruct (decide (size m = 0%nat)) as [E|]; [|lia].
    apply map_size_empty_inv in E. subst. done.
  - intros k' v' Hin. rewrite lookup_delete_ne; [apply Hm; by right|].
    intros ->. apply Hk. by apply (list_elem_of_fmap_2 fst _ (k', v')).
Qed.

Lemma sweep_map_lookup m k :
  (sweep_map expired m).2 !! k =
  match m !! k with Some v => if expired v then None else Some v | None => None end.
Proof.
  apply option_eq. intros x. unfold sweep_map. rewrite sweep_fold_lookup.
  assert (forall v, (k, v) ∈ range_map m <-> m !! k = Some v) as Hin.
  { intros v. by rewrite range_map_perm, elem_of_map_to_list. }
  split.
  - intros [Hx Hl]. rewrite Hx. by rewrite (Hl x (proj2 (Hin x) Hx)).
  - destruct (m !! k) as [v|] eqn:E; [|done]. destruct (expired v) eqn:Ev; [done|].
    intros ?; simplify_eq. split; [done|]. intros v Hv%Hin. by simplify_eq.
Qed.

Lemma sweep_map_count m :
  ((sweep_map expired m).1 + size (sweep_map expired m).2 = size m)%nat.
Proof.
  unfold sweep_map. rewrite sweep_fold_count; [done| |].
  - rewrite range_map_perm. apply NoDup_fst_map_to_list.
  - intros k v. by rewrite range_map_perm, elem_of_map_to_list.
Qed.
End Sweep.

#[export] Hint Resolve byteZ_range le_Z_range be_Z_range reach_init : sniffer.
#[export] Hint Rewrite @length_le_bytes @length_be_bytes @length_lastn
  @total_length_app count_inc_eq counter_total_inc : sniffer.
