(* ===== verification/Golang.v ===== *)
(** * Golang: the parts of the language and its standard library the program
    uses

    Fixed-width integers, [time.Time] and [time.Duration], and the functions of
    package [strings] and [strconv].  A Go string is a byte sequence, here a
    [string] of 8-bit characters.  [ToLower] and [TrimSpace] are exact on ASCII
    input, which is all Kubernetes and DNS names the program normalises
    contain; a byte above 127 is left unchanged here. *)

From S2P Require Import Prelude.

(** ** Integer conversions *)

Definition uint8 (z : Z) : Z := z `mod` 2 ^ 8.
Definition uint16 (z : Z) : Z := z `mod` 2 ^ 16.
Definition uint32 (z : Z) : Z := z `mod` 2 ^ 32.
Definition maxInt64 : Z := 2 ^ 63 - 1.
Definition minInt64 : Z := - 2 ^ 63.
Definition int64 (z : Z) : Z := (z + 2 ^ 63) `mod` 2 ^ 64 - 2 ^ 63.
Definition MaxUint16 : Z := 65535.
Definition MaxUint8 : Z := 255.

(** ** Time

    An instant is its distance in nanoseconds from the Unix epoch, a duration
    an [int64] number of nanoseconds.  [Sub] saturates, as the library
    documents; [Add] is exact on instants the library can represent. *)

Abbreviation Time := Z (only parsing).
Abbreviation Duration := Z (only parsing).

Definition Millisecond : Duration := 1000000.
Definition Second : Duration := 1000 * Millisecond.
Definition Minute : Duration := 60 * Second.

(** The zero [time.Time]: January 1 of year 1, UTC. *)
Definition zeroTime : Time := -62135596800 * Second.

Definition Sub (t u : Time) : Duration := Z.max minInt64 (Z.min maxInt64 (t - u)).
Definition Add (t : Time) (d : Duration) : Time := t + d.
Definition Before (t u : Time) : bool := t <? u.
Definition UnixNano (t : Time) : Z := int64 t.

(** ** Strings *)

Fixpoint smap (f : ascii -> ascii) (s : string) : string :=
  match s with
  | EmptyString => EmptyString
  | String c s => String (f c) (smap f s)
  end.

Fixpoint sforallb (f : ascii -> bool) (s : string) : bool :=
  match s with
  | EmptyString => true
  | String c s => f c && sforallb f s
  end.

Fixpoint srev_append (s acc : string) : string :=
  match s with
  | EmptyString => acc
  | String c s => srev_append s (String c acc)
  end.
Definition srev (s : string) : string := srev_append s EmptyString.

Definition lower (c : ascii) : ascii :=
  let n := N_of_ascii c in
  if (65 <=? n)%N && (n <=? 90)%N then ascii_of_N (n + 32) else c.
Definition ToLower (s : string) : string := smap lower s.

Definition is_space (c : ascii) : bool :=
  let n := N_of_ascii c in ((9 <=? n)%N && (n <=? 13)%N) || (n =? 32)%N.
Fixpoint trim_left (s : string) : string :=
  match s with
  | String c s' => if is_space c then trim_left s' else s
  | EmptyString => EmptyString
  end.
Definition TrimSpace (s : string) : string := srev (trim_left (srev (trim_left s))).

(** [strings.Cut] at a one-byte separator: the text before and after the first
    separator, and whether it was found. *)
Fixpoint Cut (s : string) (sep : ascii) : string * string * bool :=
  match s with
  | EmptyString => (EmptyString, EmptyString, false)
  | String c s' =>
      if decide (c = sep) then (EmptyString, s', true)
      else let '(a, b, ok) := Cut s' sep in (String c a, b, ok)
  end.

Definition contains_byte (s : string) (c : ascii) : bool :=
  negb (sforallb (fun c' => bool_decide (c' <> c)) s).

(** [strings.ReplaceAll] of one byte by one byte. *)
Definition ReplaceByte (s : string) (old new : ascii) : string :=
  smap (fun c => if decide (c = old) then new else c) s.

(** [strings.TrimSuffix] with a one-byte suffix. *)
Definition TrimSuffixByte (s : string) (c : ascii) : string :=
  match srev s with
  | String c' s' => if decide (c' = c) then srev s' else s
  | EmptyString => s
  end.

Definition string_of_bytes (l : list byte) : string :=
  string_of_list_ascii (map ascii_of_byte l).
Definition bytes_of_string (s : string) : list byte :=
  map byte_of_ascii (list_ascii_of_string s).

(** [%d] and [strconv.FormatUint(_, 10)] of an unsigned integer. *)
Definition FormatUint (z : Z) : string := pretty (Z.to_N z).

Definition is_digit_char (c : ascii) : bool :=
  let n := N_of_ascii c in (48 <=? n)%N && (n <=? 57)%N.

(** ** Lemmas *)

Lemma uint16_small z : 0 <= z < 65536 -> uint16 z = z.
Proof. apply Z.mod_small. Qed.

Lemma uint16_range z : 0 <= uint16 z < 65536.
Proof. apply Z.mod_pos_bound. lia. Qed.

Lemma uint8_small z : 0 <= z < 256 -> uint8 z = z.
Proof. apply Z.mod_small. Qed.

Lemma int64_small z : minInt64 <= z <= maxInt64 -> int64 z = z.
Proof. unfold minInt64, maxInt64, int64. intros H. rewrite Z.mod_small; lia. Qed.

(** [Sub] agrees with the mathematical difference against any threshold an
    [int64] duration can hold, so saturation never changes a comparison. *)
Lemma Sub_lt t u d : minInt64 < d <= maxInt64 -> Sub t u < d <-> t - u < d.
Proof. unfold Sub, minInt64, maxInt64. lia. Qed.

Lemma Sub_ge t u d : minInt64 < d <= maxInt64 -> Sub t u >= d <-> t - u >= d.
Proof. unfold Sub, minInt64, maxInt64. lia. Qed.

Lemma Sub_range t u : minInt64 <= Sub t u <= maxInt64.
Proof. unfold Sub, minInt64, maxInt64. lia. Qed.

(** stdpp keeps [append] folded under [simpl]; these are its equations. *)
Lemma append_cons c (a b : string) : (String c a +:+ b = String c (a +:+ b))%string.
Proof. done. Qed.

Lemma append_nil_l (b : string) : ("" +:+ b = b)%string.
Proof. done. Qed.

#[export] Hint Rewrite append_cons append_nil_l : sniffer.

Lemma append_assoc (a b c : string) : ((a +:+ b) +:+ c = a +:+ (b +:+ c))%string.
Proof. induction a as [|x a IH]; [done|]. by rewrite !append_cons, IH. Qed.

Lemma append_nil_r (a : string) : (a +:+ "" = a)%string.
Proof. induction a as [|x a IH]; [done|]. by rewrite append_cons, IH. Qed.

Lemma sforallb_app f a b : sforallb f (a +:+ b) = sforallb f a && sforallb f b.
Proof.
  induction a as [|c a IH]; [done|]. rewrite append_cons. simpl.
  by rewrite IH, andb_assoc.
Qed.

Lemma sforallb_impl (f g : ascii -> bool) s :
  (forall c, f c = true -> g c = true) -> sforallb f s = true -> sforallb g s = true.
Proof.
  intros Hfg. induction s as [|c s IH]; simpl; [done|].
  rewrite !andb_true_iff. intros [??]. auto.
Qed.

(** Text before the first separator is determined by the whole text. *)
Lemma append_sep_inj sep (a a' b b' : string) :
  contains_byte a sep = false -> contains_byte a' sep = false ->
  (a +:+ String sep b = a' +:+ String sep b')%string -> a = a' /\ b = b'.
Proof.
  unfold contains_byte. rewrite !negb_false_iff.
  revert a'. induction a as [|c a IH]; intros [|c' a']; simpl;
    rewrite ?append_cons, ?append_nil_l, ?andb_true_iff, ?bool_decide_eq_true.
  - intros _ _ Heq. by injection Heq.
  - intros _ [Hne _] Heq. injection Heq. congruence.
  - intros [Hne _] _ Heq. injection Heq. congruence.
  - intros [_ Ha] [_ Ha'] Heq. injection Heq as <- Hrest.
    destruct (IH a' Ha Ha' Hrest) as [<- <-]. done.
Qed.

Lemma Cut_app sep (a b : string) :
  contains_byte a sep = false -> Cut (a +:+ String sep b) sep = (a, b, true).
Proof.
  unfold contains_byte. rewrite negb_false_iff.
  induction a as [|c a IH]; rewrite ?append_cons, ?append_nil_l; simpl.
  - intros _. by rewrite decide_True.
  - rewrite andb_true_iff, bool_decide_eq_true. intros [Hc Ha].
    rewrite decide_False by done. by rewrite (IH Ha).
Qed.

Lemma Cut_absent sep s : contains_byte s sep = false -> Cut s sep = (s, "", false).
Proof.
  unfold contains_byte. rewrite negb_false_iff.
  induction s as [|c s IH]; simpl; [done|].
  rewrite andb_true_iff, bool_decide_eq_true. intros [Hc Hs].
  rewrite decide_False by done. by rewrite (IH Hs).
Qed.

Lemma lower_idemp c : lower (lower c) = lower c.
Proof. by destruct c as [[] [] [] [] [] [] [] []]. Qed.

Lemma smap_idemp f s : (forall c, f (f c) = f c) -> smap f (smap f s) = smap f s.
Proof. intros Hf. induction s as [|c s IH]; simpl; [done|]. by rewrite Hf, IH. Qed.

Lemma ToLower_idemp s : ToLower (ToLower s) = ToLower s.
Proof. apply smap_idemp, lower_idemp. Qed.

Lemma pretty_N_go_digits (n : N) (s : string) :
  sforallb is_digit_char s = true -> sforallb is_digit_char (pretty_N_go n s) = true.
Proof.
  revert s. induction (N.lt_wf_0 n) as [n _ IH]. intros s Hs.
  destruct (decide (n = 0)%N) as [->|Hn].
  { by rewrite pretty_N_go_0. }
  rewrite pretty_N_go_step by lia. apply IH; [apply N.div_lt; lia|].
  simpl. rewrite Hs, andb_true_r.
  assert (n `mod` 10 < 10)%N as Hd by (apply N.mod_lt; lia).
  generalize dependent (n `mod` 10)%N. intros d Hd.
  destruct d as [|d]; [done|]. do 4 (destruct d as [d|d|]; try done; try lia).
Qed.

Lemma FormatUint_digits z : sforallb is_digit_char (FormatUint z) = true.
Proof.
  unfold FormatUint, pretty, pretty_N. case_decide; [done|]. by apply pretty_N_go_digits.
Qed.

Lemma pretty_N_go_nonempty (n : N) (s : string) : s <> "" -> pretty_N_go n s <> "".
Proof.
  revert s. induction (N.lt_wf_0 n) as [n _ IH]. intros s Hs.
  destruct (decide (n = 0)%N) as [->|Hn]; [by rewrite pretty_N_go_0|].
  rewrite pretty_N_go_step by lia. apply IH; [apply N.div_lt; lia|done].
Qed.

Lemma FormatUint_nonempty z : FormatUint z <> "".
Proof.
  unfold FormatUint, pretty, pretty_N. case_decide; [done|].
  rewrite pretty_N_go_step by lia. by apply pretty_N_go_nonempty.
Qed.

Lemma FormatUint_inj z z' : 0 <= z -> 0 <= z' -> FormatUint z = FormatUint z' -> z = z'.
Proof. unfold FormatUint. intros ?? H%(inj pretty). lia. Qed.

(** No decimal number contains a character outside ['0'..'9']. *)
Lemma FormatUint_no c z : is_digit_char c = false -> contains_byte (FormatUint z) c = false.
Proof.
  intros Hc. unfold contains_byte. rewrite negb_false_iff.
  eapply sforallb_impl; [|apply FormatUint_digits].
  intros c' Hc'. apply bool_decide_eq_true. congruence.
Qed.

Lemma string_of_bytes_app l1 l2 :
  string_of_bytes (l1 ++ l2) = (string_of_bytes l1 +:+ string_of_bytes l2)%string.
Proof.
  unfold string_of_bytes. induction l1 as [|b l1 IH]; [done|]. simpl.
  by rewrite IH, append_cons.
Qed.

Lemma string_of_bytes_of_string s : string_of_bytes (bytes_of_string s) = s.
Proof.
  unfold string_of_bytes, bytes_of_string.
  induction s as [|c s IH]; simpl; [done|]. by rewrite ascii_of_byte_of_ascii, IH.
Qed.

Lemma bytes_of_string_of_bytes l : bytes_of_string (string_of_bytes l) = l.
Proof.
  unfold string_of_bytes, bytes_of_string.
  induction l as [|b l IH]; simpl; [done|]. by rewrite byte_of_ascii_of_byte, IH.
Qed.

Lemma Cut_fst_no_sep s sep : contains_byte (Cut s sep).1.1 sep = false.
Proof.
  unfold contains_byte. rewrite negb_false_iff.
  induction s as [|c s IH]; simpl; [done|]. case_decide as Hc; [done|].
  destruct (Cut s sep) as [[a b] ok]. simpl in *.
  by rewrite IH, bool_decide_eq_true_2.
Qed.

Lemma smap_srev_append f s acc : smap f (srev_append s acc) = srev_append (smap f s) (smap f acc).
Proof. revert acc. induction s as [|c s IH]; intros acc; simpl; [done|]. apply IH. Qed.

Lemma smap_srev f s : smap f (srev s) = srev (smap f s).
Proof. apply smap_srev_append. Qed.

Lemma is_space_lower c : is_space (lower c) = is_space c.
Proof. by destruct c as [[] [] [] [] [] [] [] []]. Qed.

Lemma trim_left_ToLower s : trim_left (ToLower s) = ToLower (trim_left s).
Proof.
  induction s as [|c s IH]; simpl; [done|]. rewrite is_space_lower. by case_match.
Qed.

Lemma TrimSpace_ToLower s : TrimSpace (ToLower s) = ToLower (TrimSpace s).
Proof.
  pose proof trim_left_ToLower as Ht. unfold TrimSpace, ToLower in *.
  by rewrite Ht, <- smap_srev, Ht, <- smap_srev.
Qed.

#[export] Hint Resolve uint16_range Sub_range ToLower_idemp : sniffer.
#[export] Hint Rewrite append_assoc append_nil_r string_of_bytes_of_string
  bytes_of_string_of_bytes : sniffer.
