(* ===== verification/Telemetry.v ===== *)
(** * Telemetry: the operational endpoints (internal/telemetry/telemetry.go)

    [serveHTTP] is the handler [Serve] installs, [Serve] what it returns, and
    [tstep] the goroutines of a call of [Serve]: the listener, the requests in
    progress and the goroutine that shuts the server down.  The metrics handler
    and the answer to unregistered paths are the library's, as is what [Shutdown]
    does: it closes the listener at once, and returns when the last request has
    been answered or its context has expired. *)

From S2P Require Import Prelude.
Open Scope string_scope.
Open Scope list_scope.
Open Scope Z_scope.

Definition StatusOK : Z := 200.
Definition StatusServiceUnavailable : Z := 503.

(** The status of a response.  [ready] is the readiness function's current answer,
    [None] for a nil function. *)
Definition serveHTTP (metricsHandler : Z) (notFound : string -> Z) (ready : option bool)
    (path : string) : Z :=
  if decide (path = "/metrics") then metricsHandler
  else if decide (path = "/healthz") then StatusOK
  else if decide (path = "/readyz") then
    match ready with Some false => StatusServiceUnavailable | _ => StatusOK end
  else notFound path.

(** How [ListenAndServe] ends: by [Shutdown], or with an error of its own. *)
Inductive listen_result (E : Type) := ErrServerClosed | ListenFailed (e : E).
Arguments ErrServerClosed {E}.
Arguments ListenFailed {E} e.

(** The error of [Serve]; [ctx_err] is the context's error at that moment. *)
Definition Serve {E C : Type} (wrap : E -> C) (ctx_err : option C) (r : listen_result E) : option C :=
  match r with
  | ListenFailed e => Some (wrap e)
  | ErrServerClosed => ctx_err
  end.

(** ** A call of Serve *)

Inductive serve_pc (X : Type) := ListenAndServe | Served (err : option X).
Arguments ListenAndServe {X}.
Arguments Served {X} err.
(** The goroutine that awaits the context: waiting, in [Shutdown], returned. *)
Inductive watch_pc := Waiting | ShuttingDown | WatchDone.

Section server.
Context {E X : Type} (wrap : E -> X) (Canceled : X).
Context (metricsHandler : Z) (notFound : string -> Z).

(** [ts_open] are the paths of the requests being answered, [ts_answers] the
    answers given, [ts_ready] what the readiness function would say now ([None]
    for a nil function). *)
Record server := mkServer {
  ts_main : serve_pc X;
  ts_watch : watch_pc;
  ts_ctx : bool;
  ts_ready : option bool;
  ts_open : list string;
  ts_answers : list (string * option bool * Z)
}.
Definition serve_start (ready : option bool) : server := mkServer ListenAndServe Waiting false ready [] [].
Definition server_ctx_err (s : server) : option X := if ts_ctx s then Some Canceled else None.

Inductive tstep : server -> server -> Prop :=
| t_request c r open ans path :
    tstep (mkServer ListenAndServe Waiting c r open ans)
      (mkServer ListenAndServe Waiting c r (open ++ [path]) ans)
| t_answer m w c r open1 open2 ans path :
    tstep (mkServer m w c r (open1 ++ path :: open2) ans)
      (mkServer m w c r (open1 ++ open2) (ans ++ [(path, r, serveHTTP metricsHandler notFound r path)]))
| t_ready m w c b b' open ans :
    tstep (mkServer m w c (Some b) open ans) (mkServer m w c (Some b') open ans)
| t_cancel m w c r open ans : tstep (mkServer m w c r open ans) (mkServer m w true r open ans)
(* the watching goroutine *)
| t_shutdown m r open ans :
    tstep (mkServer m Waiting true r open ans) (mkServer m ShuttingDown true r open ans)
| t_drained m c r ans :
    tstep (mkServer m ShuttingDown c r [] ans) (mkServer m WatchDone c r [] ans)
| t_expired m c r open ans :
    tstep (mkServer m ShuttingDown c r open ans) (mkServer m WatchDone c r open ans)
(* the return of ListenAndServe *)
| t_failed s e :
    ts_main s = ListenAndServe ->
    tstep s (mkServer (Served (Serve wrap (server_ctx_err s) (ListenFailed e))) (ts_watch s) (ts_ctx s)
      (ts_ready s) (ts_open s) (ts_answers s))
| t_closed s :
    ts_main s = ListenAndServe -> ts_watch s <> Waiting ->
    tstep s (mkServer (Served (Serve wrap (server_ctx_err s) ErrServerClosed)) (ts_watch s) (ts_ctx s)
      (ts_ready s) (ts_open s) (ts_answers s)).

Definition treachable (ready : option bool) : server -> Prop :=
  reachable (fun s => s = serve_start ready) tstep.

(** ** What holds of every call *)

Definition answered_as_ready (a : string * option bool * Z) : Prop :=
  let '(path, r, status) := a in
  (path = "/healthz" -> status = StatusOK) /\
  (path = "/readyz" -> (status = StatusOK <-> r <> Some false) /\
                       (status = StatusServiceUnavailable <-> r = Some false)).

Record serve_inv (ready : option bool) (s : server) : Prop := {
  si_nil : ts_ready s = None <-> ready = None;
  si_watch : ts_watch s <> Waiting -> ts_ctx s = true;
  si_main : forall err, ts_main s = Served err ->
    (exists e, err = Some (wrap e)) \/ (ts_ctx s = true /\ ts_watch s <> Waiting /\ err = Some Canceled);
  si_answers : Forall answered_as_ready (ts_answers s)
}.

Lemma serveHTTP_answers r path : answered_as_ready (path, r, serveHTTP metricsHandler notFound r path).
Proof.
  unfold serveHTTP. split; intros ->; [done|]. cbn. by destruct r as [[]|].
Qed.

Lemma serve_inv_step ready s s' : serve_inv ready s -> tstep s s' -> serve_inv ready s'.
Proof.
  intros [H1 H2 H3 H4] Hs. destruct Hs; split; cbn in *; try done;
    try (intros err He; destruct (H3 _ He) as [?|(? & ? & ?)]; [by left|by right]).
  - apply Forall_app. split; [done|]. apply Forall_singleton, serveHTTP_answers.
  - split; [done|]. intros Hr. by apply H1 in Hr.
  - intros _. by apply H2.
  - intros _. by apply H2.
  - intros err [= <-]. left. by exists e.
  - intros err [= <-]. right. unfold server_ctx_err. by rewrite H2.
Qed.

Lemma serve_inv_reachable ready s : treachable ready s -> serve_inv ready s.
Proof.
  revert s. apply (reachable_invariant _ _ (serve_inv ready)); [|intros; by eapply serve_inv_step].
  intros ? ->. by split.
Qed.

(** The requests in progress can all be answered. *)
Lemma answers_all m w c r open ans :
  exists ans', rtc tstep (mkServer m w c r open ans) (mkServer m w c r [] ans') /\
    (fun a => a.1.1) <$> ans' = ((fun a => a.1.1) <$> ans) ++ open.
Proof.
  revert ans. induction open as [|path open IH]; intros ans.
  { exists ans. by rewrite app_nil_r. }
  destruct (IH (ans ++ [(path, r, serveHTTP metricsHandler notFound r path)])) as (ans' & Hs & Ha).
  exists ans'. split; [eapply rtc_l; [apply (t_answer m w c r [])|exact Hs]|].
  by rewrite Ha, fmap_app, <-app_assoc.
Qed.

(** C28: the telemetry server of either process.  A call of [Serve] never ends without
    an error: with the listener's own, or, once the context is cancelled and the
    listener closed, with the context's.  Whatever happens to the readiness flag
    meanwhile, a liveness probe is always answered with success and a readiness
    probe with success exactly when the flag says so at that moment (a nil flag
    is always ready).  Once the context is cancelled, a call that is still
    serving can answer every request it has accepted, in order, and then
    return. *)
Theorem Serve_contract ready s (Hs : treachable ready s) :
  (forall err, ts_main s = Served err ->
     (exists e, err = Some (wrap e)) \/ (ts_ctx s = true /\ ts_watch s <> Waiting /\ err = Some Canceled)) /\
  Forall answered_as_ready (ts_answers s) /\
  (ts_ctx s = true -> ts_main s = ListenAndServe ->
   exists s', rtc tstep s s' /\ ts_main s' = Served (Some Canceled) /\ ts_open s' = [] /\
     (fun a => a.1.1) <$> ts_answers s' = ((fun a => a.1.1) <$> ts_answers s) ++ ts_open s).
Proof.
  destruct (serve_inv_reachable _ _ Hs) as [_ _ H3 H4]. split; [done|]. split; [done|].
  destruct s as [m w c r open ans]. cbn. intros -> ->.
  assert (exists w', w' <> Waiting /\ rtc tstep (mkServer ListenAndServe w true r open ans)
    (mkServer ListenAndServe w' true r open ans)) as (w' & Hw & Hr).
  { destruct w; [exists ShuttingDown; split; [done|by apply rtc_once, t_shutdown]|by eexists; split; [|apply rtc_refl]..]. }
  destruct (answers_all ListenAndServe w' true r open ans) as (ans' & Hr' & Ha).
  eexists. split; [etrans; [exact Hr|]; etrans; [exact Hr'|]; by eapply rtc_once, t_closed|].
  by split_and!.
Qed.

(** [Serve] does not wait for [Shutdown]: it returns as soon as the listener is
    closed, with requests still unanswered. *)
Lemma Serve_returns_early path :
  treachable None (mkServer (Served (Some Canceled)) ShuttingDown true None [path] []).
Proof.
  assert (treachable None (mkServer ListenAndServe Waiting false None [path] [])) as H1
    by (eapply reach_step; [by apply reach_init|apply (t_request false None [] [] path)]).
  assert (treachable None (mkServer ListenAndServe ShuttingDown true None [path] [])) as H2
    by (eapply reach_step; [eapply reach_step; [exact H1|apply t_cancel]|apply t_shutdown]).
  eapply reach_step; [exact H2|]. by apply (t_closed (mkServer ListenAndServe ShuttingDown true None [path] [])).
Qed.
End server.

Lemma Serve_contract_witness :
  let s := mkServer ListenAndServe Waiting true (Some false) ["/readyz"] [("/healthz", Some true, 200)] in
  treachable (fun e : nat => e) 0%nat 200 (fun _ => 404) (Some true) s /\
  exists s', rtc (tstep (fun e : nat => e) 0%nat 200 (fun _ => 404)) s s' /\ ts_main s' = Served (Some 0%nat) /\
    (fun a => a.1.1) <$> ts_answers s' = ["/healthz"; "/readyz"].
Proof.
  cbv zeta.
  match goal with |- treachable _ _ _ _ _ ?s /\ _ =>
    assert (treachable (fun e : nat => e) 0%nat 200 (fun _ => 404) (Some true) s) as Hs end.
  { eapply reach_step; [|apply t_cancel].
    eapply reach_step; [|apply (t_request _ _ _ _ false (Some false) [] _ "/readyz")].
    eapply reach_step; [|apply (t_ready _ _ _ _ _ _ _ true false)].
    eapply reach_step; [|apply (t_answer _ _ 200 (fun _ => 404) _ _ _ _ [] [] [] "/healthz")].
    eapply reach_step; [|apply (t_request _ _ _ _ false (Some true) [] [] "/healthz")].
    by apply reach_init. }
  split; [exact Hs|].
  destruct (Serve_contract (fun e : nat => e) 0%nat 200 (fun _ => 404) (Some true) _ Hs) as (_ & _ & Hr).
  destruct (Hr eq_refl eq_refl) as (s' & ? & ? & _ & ?). by exists s'.
Defined.
