(* ===== verification/Main.v ===== *)
(** * Main: the command line (cmd/sniffer/main_linux.go, main_other.go)

    Dispatch on the first argument and the exit status.  [is_canceled] stands for
    [errors.Is(err, context.Canceled)]. *)

From S2P Require Import Prelude.
Open Scope string_scope.
Open Scope list_scope.
Open Scope Z_scope.

Inductive command :=
| Collect (args : list string)
| Process (args : list string)
| Help
| Usage                      (* no command *)
| Unknown (name : string).

(** [args] are [os.Args[1:]]. *)
Definition parse_command (args : list string) : command :=
  match args with
  | [] => Usage
  | name :: rest =>
      if decide (name = "collector") then Collect rest
      else if decide (name = "processor") then Process rest
      else if decide (name ∈ ["-h"; "-help"; "--help"; "help"]) then Help
      else Unknown name
  end.

Section main.
Context {E : Type} (is_canceled : E -> bool).

Definition exit_status (err : option E) : Z :=
  match err with
  | None => 0
  | Some e => if is_canceled e then 0 else 1
  end.

Definition main (runCollector runProcessor : list string -> option E) (args : list string) : Z :=
  match parse_command args with
  | Collect rest => exit_status (runCollector rest)
  | Process rest => exit_status (runProcessor rest)
  | Help => 0
  | Usage | Unknown _ => 2
  end.
End main.

(** Elsewhere than on linux. *)
Definition main_other : Z := 1.

(** The status tells the outcomes apart, for every command line. *)
Lemma main_status {E} (is_canceled : E -> bool) runCollector runProcessor args :
  let code := main is_canceled runCollector runProcessor args in
  (code = 2 <-> match parse_command args with Usage | Unknown _ => True | _ => False end) /\
  (code = 1 <-> exists run rest e, run rest = Some e /\ is_canceled e = false /\
     ((args = "collector" :: rest /\ run = runCollector) \/
      (args = "processor" :: rest /\ run = runProcessor))).
Proof.
  cbv zeta. unfold main. destruct args as [|name rest]; cbn [parse_command].
  { split; split; try done. by intros (run & rest & e & _ & _ & [[? _]|[? _]]). }
  destruct (decide (name = "collector")) as [->|Hc].
  { unfold exit_status. split.
    - destruct (runCollector rest) as [e|]; [by destruct (is_canceled e)|done].
    - split.
      + destruct (runCollector rest) as [e|] eqn:Hr; [|done]. destruct (is_canceled e) eqn:He; [done|].
        intros _. exists runCollector, rest, e. split_and!; [done|done|by left].
      + intros (run & rest' & e & Hr & He & [[Ha ->]|[Ha _]]); [|done].
        injection Ha as <-. by rewrite Hr, He. }
  destruct (decide (name = "processor")) as [->|Hp].
  { unfold exit_status. split.
    - destruct (runProcessor rest) as [e|]; [by destruct (is_canceled e)|done].
    - split.
      + destruct (runProcessor rest) as [e|] eqn:Hr; [|done]. destruct (is_canceled e) eqn:He; [done|].
        intros _. exists runProcessor, rest, e. split_and!; [done|done|by right].
      + intros (run & rest' & e & Hr & He & [[Ha _]|[Ha ->]]); [done|].
        injection Ha as <-. by rewrite Hr, He. }
  case_decide; (split; [done|]); split; try done;
    intros (run & rest' & e & _ & _ & [[Ha _]|[Ha _]]); by injection Ha.
Qed.
