(* ===== verification/Netip.v ===== *)
(** * Netip: the standard library's [netip.Addr]

    An address is the zero value, an IPv4 address, or an IPv6 address with an
    optional zone; equality of addresses (and hence their use as map keys) is
    equality of these values, as in Go.  [ParseAddr] and [AddrString] follow the
    library's algorithms, so that the resolver's parsing of Kubernetes objects
    and the naming of external peers evaluate on concrete input. *)

From S2P Require Import Prelude Golang.

Inductive Addr : Type :=
| AddrZero
| Addr4 (b0 b1 b2 b3 : byte)
| Addr6 (bs : list byte) (zone : string).

#[export] Instance Addr_eq_dec : EqDecision Addr.
Proof. solve_decision. Defined.

#[export] Instance Addr_countable : Countable Addr.
Proof.
  refine (inj_countable
    (fun a => match a with
              | AddrZero => inl ()
              | Addr4 b0 b1 b2 b3 => inr (inl (b0, b1, b2, b3))
              | Addr6 bs z => inr (inr (bs, z))
              end)
    (fun x => Some match x with
                   | inl _ => AddrZero
                   | inr (inl (b0, b1, b2, b3)) => Addr4 b0 b1 b2 b3
                   | inr (inr (bs, z)) => Addr6 bs z
                   end) _).
  by intros [].
Defined.

(** In Go the 16 bytes are a fixed-size array; here it is an invariant. *)
Definition wf_addr (a : Addr) : Prop :=
  match a with Addr6 bs _ => length bs = 16%nat | _ => True end.
#[export] Instance wf_addr_dec a : Decision (wf_addr a).
Proof. destruct a; apply _. Defined.

Definition AddrFrom4 (b : list byte) : Addr :=
  match b with [b0; b1; b2; b3] => Addr4 b0 b1 b2 b3 | _ => AddrZero end.
Definition AddrFrom16 (b : list byte) : Addr := Addr6 b "".
Definition AddrFromSlice (b : list byte) : option Addr :=
  match b with
  | [b0; b1; b2; b3] => Some (Addr4 b0 b1 b2 b3)
  | _ => if decide (length b = 16%nat) then Some (AddrFrom16 b) else None
  end.
Definition AsSlice (a : Addr) : list byte :=
  match a with
  | AddrZero => []
  | Addr4 b0 b1 b2 b3 => [b0; b1; b2; b3]
  | Addr6 bs _ => bs
  end.

Definition v4in6_prefix : list byte := replicate 10 x00 ++ [xff; xff].
Definition Is4In6 (a : Addr) : bool :=
  match a with
  | Addr6 bs _ => bool_decide (take 12 bs = v4in6_prefix)
  | _ => false
  end.
Definition Unmap (a : Addr) : Addr :=
  match a with
  | Addr6 bs _ => if Is4In6 a then AddrFrom4 (drop 12 bs) else a
  | _ => a
  end.

Definition v6u16 (bs : list byte) (i : nat) : Z := be_Z (take 2 (drop (2 * i) bs)).
Definition addr_num (a : Addr) : Z := be_Z (AsSlice a).

Definition IsLoopback (a : Addr) : bool :=
  match Unmap a with
  | Addr4 b0 _ _ _ => byteZ b0 =? 127
  | Addr6 bs _ => be_Z bs =? 1
  | AddrZero => false
  end.
Definition IsLinkLocalUnicast (a : Addr) : bool :=
  match Unmap a with
  | Addr4 b0 b1 _ _ => (byteZ b0 =? 169) && (byteZ b1 =? 254)
  | Addr6 bs _ => Z.land (v6u16 bs 0) 0xffc0 =? 0xfe80
  | AddrZero => false
  end.

Definition hasZone (a : Addr) : bool :=
  match a with Addr6 _ z => bool_decide (z <> ""%string) | _ => false end.
Definition BitLen (a : Addr) : Z :=
  match a with AddrZero => 0 | Addr4 _ _ _ _ => 32 | Addr6 _ _ => 128 end.

Record Prefix := mkPrefix { prefix_ip : Addr; prefix_bits : Z }.
Definition Contains (p : Prefix) (ip : Addr) : bool :=
  if (prefix_bits p <? 0) || hasZone ip then false
  else if (BitLen (prefix_ip p) =? 0) || (BitLen ip =? 0)
          || negb (BitLen (prefix_ip p) =? BitLen ip) then false
  else Z.shiftr (Z.lxor (addr_num ip) (addr_num (prefix_ip p)))
         (BitLen ip - prefix_bits p) =? 0.

(** ** Printing *)

Definition hex_digit (d : Z) : ascii :=
  ascii_of_N (Z.to_N (if d <? 10 then 48 + d else 87 + d)).
Definition append_hex (x : Z) : string :=
  let d n := String (hex_digit (Z.land (Z.shiftr x n) 15)) "" in
  let part lo n := if lo <=? x then d n else ""%string in
  (part 0x1000%Z 12 +:+ part 0x100%Z 8 +:+ part 0x10%Z 4 +:+ d 0)%string.

Definition hextets (bs : list byte) : list Z := (v6u16 bs) <$> seq 0 8.

Fixpoint zero_run (l : list Z) : nat :=
  match l with x :: l => if x =? 0 then S (zero_run l) else O | [] => O end.
(** The first longest run of at least two zero groups, as [start, end). *)
Fixpoint best_run (i : nat) (l : list Z) (best : nat * nat) : nat * nat :=
  match l with
  | [] => best
  | _ :: l' =>
      let n := zero_run l in
      let best := if ((2 <=? n) && (best.2 - best.1 <? n))%nat then (i, (i + n)%nat)
                  else best in
      best_run (S i) l' best
  end.

Fixpoint render6 (fuel i : nat) (run : nat * nat) (gs : list Z) : string :=
  match fuel with
  | O => ""
  | S fuel =>
      if (8 <=? i)%nat then ""
      else if (i =? run.1)%nat then
        if (8 <=? run.2)%nat then "::"
        else ("::" +:+ append_hex (nth run.2 gs 0) +:+ render6 fuel (S run.2) run gs)%string
      else ((if (0 <? i)%nat then ":" else "") +:+ append_hex (nth i gs 0)
              +:+ render6 fuel (S i) run gs)%string
  end.

Definition string4 (b0 b1 b2 b3 : byte) : string :=
  (FormatUint (byteZ b0) +:+ "." +:+ FormatUint (byteZ b1) +:+ "." +:+
   FormatUint (byteZ b2) +:+ "." +:+ FormatUint (byteZ b3))%string.

Definition AddrString (a : Addr) : string :=
  let zone z := (if decide (z = "") then "" else "%" +:+ z)%string in
  match a with
  | AddrZero => "invalid IP"
  | Addr4 b0 b1 b2 b3 => string4 b0 b1 b2 b3
  | Addr6 bs z =>
      match Unmap a with
      | Addr4 b0 b1 b2 b3 => ("::ffff:" +:+ string4 b0 b1 b2 b3 +:+ zone z)%string
      | _ => (render6 9 0 (best_run 0 (hextets bs) (255, 255)%nat) (hextets bs)
                +:+ zone z)%string
      end
  end.

(** ** Parsing *)

(** [parseIPv4Fields]: [first] and [prev_dot] stand for the index tests
    [i == 0] and [s[i-1] == '.'] of the loop. *)
Fixpoint parse_v4_fields (s : list ascii) (first prev_dot : bool)
    (val digLen : Z) (fields : list Z) : option (list Z) :=
  match s with
  | [] => if (length fields <? 3)%nat then None else Some (fields ++ [val])
  | c :: s' =>
      if is_digit_char c then
        if (digLen =? 1) && (val =? 0) then None else
        let val := val * 10 + (Z.of_N (N_of_ascii c) - 48) in
        if 255 <? val then None
        else parse_v4_fields s' false false val (digLen + 1) fields
      else if Ascii.eqb c "." then
        if first || bool_decide (s' = []) || prev_dot then None
        else if (length fields =? 3)%nat then None
        else parse_v4_fields s' false true 0 0 (fields ++ [val])
      else None
  end.

Definition parseIPv4 (s : list ascii) : option Addr :=
  fields ← parse_v4_fields s true false 0 0 []; Some (AddrFrom4 (byte_of_Z <$> fields)).

Definition hex_value (c : ascii) : option Z :=
  let n := Z.of_N (N_of_ascii c) in
  if (48 <=? n) && (n <=? 57) then Some (n - 48)
  else if (97 <=? n) && (n <=? 102) then Some (n - 87)
  else if (65 <=? n) && (n <=? 70) then Some (n - 55)
  else None.

(** One group: its value, the number of digits and the text after it; [None]
    when a fifth digit is met. *)
Fixpoint parse_group (s : list ascii) (off : nat) (acc : Z) : option (Z * nat * list ascii) :=
  match s with
  | c :: s' =>
      match hex_value c with
      | Some d => if (3 <? off)%nat then None else parse_group s' (S off) (acc * 16 + d)
      | None => Some (acc, off, s)
      end
  | [] => Some (acc, off, [])
  end.

(** The group loop of [parseIPv6]; [ip] holds the bytes written so far (its
    length is the Go index [i]) and at most eight iterations fill it. *)
Fixpoint parse_v6_groups (fuel : nat) (s : list ascii) (ip : list byte) (ell : option nat)
    : option (list byte * option nat * list ascii) :=
  match fuel with
  | O => Some (ip, ell, s)
  | S fuel =>
      match parse_group s 0 0 with
      | None => None
      | Some (acc, off, rest) =>
          if (off =? 0)%nat then None else
          match rest with
          | "."%char :: _ =>
              if bool_decide (ell = None) && negb (length ip =? 12)%nat then None
              else if (16 <? length ip + 4)%nat then None
              else fields ← parse_v4_fields s true false 0 0 [];
                   Some (ip ++ (byte_of_Z <$> fields), ell, [])
          | _ =>
              let ip := ip ++ [byte_of_Z (acc / 256); byte_of_Z acc] in
              match rest with
              | [] => Some (ip, ell, [])
              | ":"%char :: [] => None
              | ":"%char :: ":"%char :: s =>
                  if bool_decide (is_Some ell) then None
                  else let ell := Some (length ip) in
                       match s with
                       | [] => Some (ip, ell, [])
                       | _ => parse_v6_groups fuel s ip ell
                       end
              | ":"%char :: s => parse_v6_groups fuel s ip ell
              | _ => None
              end
          end
      end
  end.

Definition expand_ellipsis (ip : list byte) (ell : option nat) : option (list byte) :=
  if (length ip <? 16)%nat then
    e ← ell; Some (take e ip ++ replicate (16 - length ip) x00 ++ drop e ip)
  else match ell with Some _ => None | None => Some ip end.

Definition parse_v6_body (s : list ascii) : option (list byte) :=
  let '(s, ell) := match s with
                   | ":"%char :: ":"%char :: s => (s, Some 0%nat)
                   | _ => (s, None)
                   end in
  if bool_decide (s = [] /\ ell = Some 0%nat) then Some (replicate 16 x00) else
  res ← parse_v6_groups 8 s [] ell;
  let '(ip, ell, rest) := res in
  match rest with [] => expand_ellipsis ip ell | _ => None end.

Definition parseIPv6 (s : string) : option Addr :=
  let '(addr, zone, pct) := Cut s "%" in
  if pct && bool_decide (zone = ""%string) then None
  else bs ← parse_v6_body (list_ascii_of_string addr); Some (Addr6 bs zone).

(** The first of ['.'], [':'] and ['%'] decides the family. *)
Fixpoint addr_family (s : list ascii) : ascii :=
  match s with
  | c :: s => if Ascii.eqb c "." || Ascii.eqb c ":" || Ascii.eqb c "%" then c else addr_family s
  | [] => " "%char
  end.

Definition ParseAddr (s : string) : option Addr :=
  match addr_family (list_ascii_of_string s) with
  | "."%char => parseIPv4 (list_ascii_of_string s)
  | ":"%char => parseIPv6 s
  | _ => None
  end.

(** ** Lemmas *)

Lemma wf_AddrFrom4 b : wf_addr (AddrFrom4 b).
Proof. unfold AddrFrom4. repeat case_match; done. Qed.

Lemma wf_AddrFrom16 b : length b = 16%nat -> wf_addr (AddrFrom16 b).
Proof. done. Qed.

Lemma AddrFromSlice_inv b a :
  AddrFromSlice b = Some a ->
  (exists b0 b1 b2 b3, b = [b0; b1; b2; b3] /\ a = Addr4 b0 b1 b2 b3) \/
  (length b = 16%nat /\ a = AddrFrom16 b).
Proof.
  unfold AddrFromSlice. intros H.
  destruct b as [|b0 [|b1 [|b2 [|b3 [|b4 b]]]]]; try done; simplify_eq; [by eauto 10|].
  case_decide; by simplify_eq; auto.
Qed.

Lemma wf_AddrFromSlice b a : AddrFromSlice b = Some a -> wf_addr a.
Proof. intros [(?&?&?&?&_&->)|[? ->]]%AddrFromSlice_inv; done. Qed.

Lemma AddrFromSlice_16 b : length b = 16%nat -> AddrFromSlice b = Some (AddrFrom16 b).
Proof.
  intros Hl. unfold AddrFromSlice.
  do 5 (destruct b as [|? b]; [done|]). by rewrite decide_True.
Qed.

Lemma AddrFromSlice_Some b :
  is_Some (AddrFromSlice b) <-> length b = 4%nat \/ length b = 16%nat.
Proof.
  split.
  - intros [a [(?&?&?&?&->&_)|[? _]]%AddrFromSlice_inv]; auto.
  - intros [Hl|Hl]; [|by rewrite AddrFromSlice_16].
    destruct b as [|b0 [|b1 [|b2 [|b3 [|]]]]]; simplify_eq/=. by eauto.
Qed.

Lemma wf_Unmap a : wf_addr a -> wf_addr (Unmap a).
Proof. destruct a; simpl; [done..|]. case_bool_decide; [|done]. intros. apply wf_AddrFrom4. Qed.

Lemma Unmap_4or6 a : Unmap a = a \/ (exists b0 b1 b2 b3, Unmap a = Addr4 b0 b1 b2 b3) \/ ~ wf_addr a.
Proof.
  destruct a as [| |bs z]; simpl; [by left..|]. case_bool_decide as Hp; [|by left].
  destruct (decide (length bs = 16%nat)) as [Hl|]; [|by right; right].
  right; left. assert (length (drop 12 bs) = 4%nat) as Hd by (rewrite length_drop; lia).
  destruct (drop 12 bs) as [|b0 [|b1 [|b2 [|b3 [|]]]]]; simplify_eq/=. eauto.
Qed.

(** [Unmap] is a normal form: no address is still 4-in-6 after it. *)
Lemma Unmap_idemp a : Unmap (Unmap a) = Unmap a.
Proof.
  destruct a as [| |bs z]; simpl; [done..|]. case_bool_decide as Hp.
  - unfold AddrFrom4. repeat case_match; done.
  - simpl. by rewrite bool_decide_eq_false_2.
Qed.

Lemma Is4In6_Unmap a : Is4In6 (Unmap a) = false.
Proof.
  destruct a as [| |bs z]; simpl; [done..|]. case_bool_decide as Hp.
  - unfold AddrFrom4. repeat case_match; done.
  - simpl. by apply bool_decide_eq_false_2.
Qed.

Lemma AddrFromSlice_AsSlice a :
  wf_addr a -> a <> AddrZero ->
  AddrFromSlice (AsSlice a) = Some (match a with Addr6 bs _ => Addr6 bs "" | _ => a end).
Proof. destruct a as [| |bs z]; [done..|]. intros Hl _. by apply AddrFromSlice_16. Qed.

(** An address read from a slice and unmapped survives the wire. *)
Lemma AddrFromSlice_Unmap_AsSlice b a :
  AddrFromSlice b = Some a -> AddrFromSlice (AsSlice (Unmap a)) = Some (Unmap a).
Proof.
  intros Hb. pose proof (wf_AddrFromSlice _ _ Hb) as Hwf.
  destruct (Unmap_4or6 a) as [->|[(b0 & b1 & b2 & b3 & ->)|]]; [|done..].
  apply AddrFromSlice_inv in Hb as [(?&?&?&?&_&->)|[Hl ->]]; [done|].
  by apply AddrFromSlice_16.
Qed.

Lemma IsLoopback_Unmap a : IsLoopback (Unmap a) = IsLoopback a.
Proof. unfold IsLoopback. by rewrite Unmap_idemp. Qed.

Lemma IsLinkLocalUnicast_Unmap a : IsLinkLocalUnicast (Unmap a) = IsLinkLocalUnicast a.
Proof. unfold IsLinkLocalUnicast. by rewrite Unmap_idemp. Qed.

(** Dotted-decimal rendering determines the IPv4 address. *)
Lemma string4_inj a0 a1 a2 a3 b0 b1 b2 b3 :
  string4 a0 a1 a2 a3 = string4 b0 b1 b2 b3 -> a0 = b0 /\ a1 = b1 /\ a2 = b2 /\ a3 = b3.
Proof.
  assert (forall x y : byte, FormatUint (byteZ x) = FormatUint (byteZ y) -> x = y) as Hi.
  { intros x y H. pose proof (byteZ_range x). pose proof (byteZ_range y).
    apply FormatUint_inj in H; [|lia..]. by apply byteZ_inj. }
  assert (forall x : byte, contains_byte (FormatUint (byteZ x)) "." = false) as Hd.
  { intros x. by apply FormatUint_no. }
  unfold string4. intros H.
  apply (append_sep_inj ".") in H as [H0 H]; [|apply Hd..].
  apply (append_sep_inj ".") in H as [H1 H]; [|apply Hd..].
  apply (append_sep_inj ".") in H as [H2 H3]; [|apply Hd..].
  auto.
Qed.

#[export] Hint Resolve wf_AddrFrom4 wf_AddrFrom16 wf_Unmap : sniffer.
#[export] Hint Rewrite Unmap_idemp Is4In6_Unmap IsLoopback_Unmap IsLinkLocalUnicast_Unmap
  : sniffer.
