(* ===== verification/Regexp.v ===== *)
(** * Regexp: the part of package [regexp] the program uses

    Runes of a Go string, a syntax of regular expressions, leftmost-first
    (Perl) matching with one capture group, and the compiler for the patterns
    the ignore list generates: literals, escaped literals, ['.'], ['*'] and the
    two anchors.  Patterns outside this fragment do not compile here; the
    development proves that no generated pattern is outside it. *)

From S2P Require Import Prelude Golang.
Open Scope string_scope.
Open Scope list_scope.
Open Scope Z_scope.

(** ** Runes *)

Abbreviation rune := Z (only parsing).
Definition RuneError : rune := 0xFFFD.

Definition between (lo hi x : Z) : bool := (lo <=? x) && (x <=? hi).
Definition cont (b : Z) : bool := between 0x80 0xBF b.

(** Accepted second bytes of a three- or four-byte sequence. *)
Definition second3 (b0 b1 : Z) : bool :=
  if b0 =? 0xE0 then between 0xA0 0xBF b1
  else if b0 =? 0xED then between 0x80 0x9F b1
  else between 0xE1 0xEF b0 && cont b1.
Definition second4 (b0 b1 : Z) : bool :=
  if b0 =? 0xF0 then between 0x90 0xBF b1
  else if b0 =? 0xF4 then between 0x80 0x8F b1
  else between 0xF1 0xF3 b0 && cont b1.

(** The runes [range] yields: an invalid byte is one [RuneError]. *)
Fixpoint utf8_runes (l : list Z) : list rune :=
  match l with
  | [] => []
  | b0 :: l0 =>
      if b0 <? 0x80 then b0 :: utf8_runes l0
      else
        match l0 with
        | b1 :: l1 =>
            if between 0xC2 0xDF b0 && cont b1
            then ((b0 - 0xC0) * 64 + (b1 - 0x80)) :: utf8_runes l1
            else
              match l1 with
              | b2 :: l2 =>
                  if second3 b0 b1 && cont b2
                  then ((b0 - 0xE0) * 4096 + (b1 - 0x80) * 64 + (b2 - 0x80)) :: utf8_runes l2
                  else
                    match l2 with
                    | b3 :: l3 =>
                        if second4 b0 b1 && cont b2 && cont b3
                        then ((b0 - 0xF0) * 262144 + (b1 - 0x80) * 4096
                                + (b2 - 0x80) * 64 + (b3 - 0x80)) :: utf8_runes l3
                        else RuneError :: utf8_runes l0
                    | [] => RuneError :: utf8_runes l0
                    end
              | [] => RuneError :: utf8_runes l0
              end
        | [] => RuneError :: utf8_runes l0
        end
  end.
Definition char_code (c : ascii) : Z := Z.of_N (N_of_ascii c).
Definition runes (s : string) : list rune :=
  utf8_runes (map char_code (list_ascii_of_string s)).

(** ** Expressions *)

Inductive re : Type :=
| RClass (p : rune -> bool)
| REmpty
| RCat (a b : re)
| RAlt (a b : re)
| RStar (a : re)
| RBegin
| REnd
| RGroup (a : re).

Definition lit (c : rune) : re := RClass (fun r => r =? c).
(** ['.'] without the [s] flag: anything but a newline. *)
Definition is_dot (r : rune) : bool := negb (r =? 10).
Definition dot : re := RClass is_dot.
Fixpoint rep (n : nat) (a : re) : re :=
  match n with O => REmpty | S n => RCat a (rep n a) end.
Fixpoint lits (l : list rune) : re :=
  match l with [] => REmpty | c :: l => RCat (lit c) (lits l) end.

(** ** Matching

    A state is whether it is at the beginning of the text, the text left, and
    the capture.  [matches r st] lists the states in which [r] can end, in order
    of preference, so that its head is the leftmost-first match. *)

Record mstate := mkState { at_begin : bool; rest : list rune; capture : option (list rune) }.

Fixpoint star_iter (m : mstate -> list mstate) (n : nat) (st : mstate) : list mstate :=
  match n with
  | O => [st]
  | S n =>
      (st' ← m st; if (length (rest st') <? length (rest st))%nat
                   then star_iter m n st' else []) ++ [st]
  end.

Fixpoint matches (r : re) (st : mstate) : list mstate :=
  match r with
  | RClass p =>
      match rest st with
      | c :: s => if p c then [mkState false s (capture st)] else []
      | [] => []
      end
  | REmpty => [st]
  | RCat a b => st' ← matches a st; matches b st'
  | RAlt a b => matches a st ++ matches b st
  | RStar a => star_iter (matches a) (length (rest st)) st
  | RBegin => if at_begin st then [st] else []
  | REnd => match rest st with [] => [st] | _ => [] end
  | RGroup a =>
      (fun st' => mkState (at_begin st') (rest st')
                    (Some (take (length (rest st) - length (rest st')) (rest st))))
        <$> matches a st
  end.

(** The first position, from the left, at which [r] matches. *)
Fixpoint search (r : re) (b : bool) (s : list rune) : option mstate :=
  match matches r (mkState b s None) with
  | st :: _ => Some st
  | [] => match s with [] => None | _ :: s => search r false s end
  end.

Definition MatchString (r : re) (s : string) : bool :=
  match search r true (runes s) with Some _ => true | None => false end.

(** ** Compiling the fragment *)

Definition is_meta (c : rune) : bool :=
  existsb (Z.eqb c) (map char_code (list_ascii_of_string "\.+*?()|[]{}^$")).

(** [regexp.QuoteMeta] of one rune. *)
Definition QuoteMeta (c : rune) : list rune := if is_meta c then [char_code "\"; c] else [c].

Definition atom_of (c : rune) : option re :=
  if c =? char_code "^" then Some RBegin
  else if c =? char_code "$" then Some REnd
  else if c =? char_code "." then Some dot
  else if is_meta c then None
  else Some (lit c).

(** An atom, then an optional star, then the rest. *)
Fixpoint compile (fuel : nat) (l : list rune) : option re :=
  match fuel with
  | O => None
  | S fuel =>
      match l with
      | [] => Some REmpty
      | c :: l =>
          '(a, l) ← (if c =? char_code "\" then
                       match l with
                       | c' :: l => if is_meta c' then Some (lit c', l) else None
                       | [] => None
                       end
                     else a ← atom_of c; Some (a, l));
          match l with
          | c' :: l' =>
              if c' =? char_code "*" then r ← compile fuel l'; Some (RCat (RStar a) r)
              else r ← compile fuel l; Some (RCat a r)
          | [] => Some (RCat a REmpty)
          end
      end
  end.
Definition Compile (pattern : list rune) : option re := compile (S (length pattern)) pattern.

(** ** Lemmas *)

Lemma matches_RClass p b c s cap :
  matches (RClass p) (mkState b (c :: s) cap) = if p c then [mkState false s cap] else [].
Proof. done. Qed.

Lemma matches_RClass_nil p b cap : matches (RClass p) (mkState b [] cap) = [].
Proof. done. Qed.

Lemma matches_RCat a b st : matches (RCat a b) st = (st' ← matches a st; matches b st').
Proof. done. Qed.

(** A starred class consumes any run of its runes. *)
Lemma star_class p n b s cap st :
  (length s <= n)%nat ->
  st ∈ star_iter (matches (RClass p)) n (mkState b s cap) <->
  exists pre, s = pre ++ rest st /\ Forall (fun c => p c = true) pre /\ capture st = cap /\
    at_begin st = (if decide (pre = []) then b else false).
Proof.
  revert b s. induction n as [|n IH]; intros b s Hn.
  - destruct s; [|simpl in Hn; lia]. cbn [star_iter]. rewrite list_elem_of_singleton. split.
    + intros ->. by exists [].
    + intros ([|? ?] & Hs & _ & Hc & Hb); [|done]. destruct st. cbn in *. by subst.
  - cbn [star_iter]. rewrite elem_of_app, list_elem_of_singleton, list_elem_of_bind.
    assert (st = mkState b s cap <-> s = rest st /\ capture st = cap /\ at_begin st = b) as Hst
      by (destruct st; cbn; naive_solver).
    rewrite Hst. split.
    + intros [(st' & Hin & Hm)|(Hs & Hc & Hb)].
      * destruct s as [|c s]; [by apply elem_of_nil in Hm|]. rewrite matches_RClass in Hm.
        destruct (p c) eqn:Hp; [|by apply elem_of_nil in Hm].
        apply list_elem_of_singleton in Hm as ->. cbn [rest] in Hin.
        replace (length s <? length (c :: s))%nat with true in Hin
          by (symmetry; apply Nat.ltb_lt; simpl; lia).
        apply IH in Hin as (pre & -> & Hall & Hc & Hb); [|simpl in Hn; lia].
        exists (c :: pre). split_and!; try done; [by constructor|]. by rewrite Hb; case_decide.
      * exists []. by rewrite decide_True.
    + intros (pre & Hs & Hall & Hc & Hb). destruct pre as [|c pre]; [by right|left].
      apply Forall_cons in Hall as [Hp Hall]. exists (mkState false (pre ++ rest st) cap). split.
      * cbn [rest app]. replace (_ <? _)%nat with true
          by (symmetry; apply Nat.ltb_lt; rewrite Hs; simpl; lia).
        apply IH; [rewrite Hs in Hn; simpl in Hn; lia|].
        exists pre. rewrite Hb, (decide_False (P := c :: pre = [])) by done.
        split_and!; try done. by destruct pre.
      * rewrite Hs. cbn [app]. rewrite matches_RClass.
        rewrite Hp. by left.
Qed.

Lemma search_RBegin_false r s : search (RCat RBegin r) false s = None.
Proof. induction s as [|c s IH]; [done|]. exact IH. Qed.

(** An expression that starts with an anchor matches at the beginning or not at
    all. *)
Lemma MatchString_anchored r s :
  MatchString (RCat RBegin r) s = true <->
  exists st, st ∈ matches r (mkState true (runes s) None).
Proof.
  unfold MatchString.
  assert (search (RCat RBegin r) true (runes s) =
          head (matches r (mkState true (runes s) None))) as ->.
  { destruct (runes s) as [|c l]; cbn [search matches at_begin mbind list_bind];
      rewrite app_nil_r; destruct (matches r _); try done. apply search_RBegin_false. }
  destruct (matches r _) as [|st l]; cbn.
  - split; [done|]. intros [st Hst]. by apply elem_of_nil in Hst.
  - split; [|done]. intros _. exists st. by left.
Qed.

Lemma runes_ascii l : Forall (fun b => b < 0x80) l -> utf8_runes l = l.
Proof.
  induction l as [|b l IH]; [done|]. intros [Hb Hall]%Forall_cons. cbn [utf8_runes].
  replace (b <? 0x80) with true by lia. by rewrite IH.
Qed.

(** ** Sequences of classes *)

Definition classes (ps : list (rune -> bool)) : re := foldr (fun p r => RCat (RClass p) r) REmpty ps.

(** The runes of [s] satisfy, one by one, the classes [ps]. *)
Fixpoint sat (ps : list (rune -> bool)) (s : list rune) : bool :=
  match ps, s with
  | [], _ => true
  | p :: ps, c :: s => p c && sat ps s
  | _ :: _, [] => false
  end.

Lemma matches_classes ps b s cap :
  matches (classes ps) (mkState b s cap) =
  if sat ps s then [mkState (if decide (ps = []) then b else false) (drop (length ps) s) cap]
  else [].
Proof.
  revert b s. induction ps as [|p ps IH]; intros b s; [by rewrite decide_True|].
  cbn [classes foldr]. rewrite matches_RCat. destruct s as [|c s]; [done|].
  rewrite matches_RClass. cbn [sat]. destruct (p c); [|done].
  cbn [mbind list_bind andb]. rewrite app_nil_r. etrans; [apply IH|].
  destruct (sat ps s); [|done]. rewrite (decide_False (P := p :: ps = [])) by done.
  by case_decide.
Qed.

Lemma sat_app ps qs s t :
  length ps = length s -> sat (ps ++ qs) (s ++ t) = sat ps s && sat qs t.
Proof.
  revert s. induction ps as [|p ps IH]; intros [|c s] Hl; try done.
  cbn [app sat]. rewrite IH by (simpl in Hl; lia). by rewrite andb_assoc.
Qed.

Lemma sat_length ps s : sat ps s = true -> (length ps <= length s)%nat.
Proof.
  revert s. induction ps as [|p ps IH]; intros [|c s]; simpl; try done; [lia..|].
  rewrite andb_true_iff. intros [_ H%IH]. lia.
Qed.

Lemma sat_split ps s :
  sat ps s = true -> exists s1 s2, s = s1 ++ s2 /\ length s1 = length ps /\ sat ps s1 = true.
Proof.
  revert s. induction ps as [|p ps IH]; intros s; [by exists [], s|].
  destruct s as [|c s]; [done|]. cbn [sat]. rewrite andb_true_iff.
  intros [Hc (s1 & s2 & -> & Hl & Hs)%IH]. exists (c :: s1), s2. cbn. by rewrite Hl, Hc, Hs.
Qed.

(** A rune-wise map carries one sequence of classes into another. *)
Lemma sat_map (f : rune -> rune) ps qs s :
  Forall2 (fun p q => forall c, p c = true -> q (f c) = true) ps qs ->
  sat ps s = true -> sat qs (map f s) = true.
Proof.
  intros H. revert s. induction H as [|p q ps qs Hpq _ IH]; intros [|c s]; cbn; try done.
  rewrite !andb_true_iff. intros [Hc Hs]. auto.
Qed.

Lemma sat_replicate p n s :
  length s = n -> sat (replicate n p) s = true <-> Forall (fun c => p c = true) s.
Proof.
  revert s. induction n as [|n IH]; intros [|c s] Hl; try done. cbn [replicate sat].
  rewrite andb_true_iff, Forall_cons, IH by (simpl in Hl; lia). done.
Qed.

(** The literal text [l] is matched exactly at its occurrences. *)
Lemma sat_lits l s : sat (map (fun c r => r =? c) l) s = true <-> exists t, s = l ++ t.
Proof.
  revert s. induction l as [|c l IH]; intros s; cbn; [naive_solver|].
  destruct s as [|d s]; [split; [done|by intros [? ?]]|].
  rewrite andb_true_iff, Z.eqb_eq, IH. split.
  - by intros [-> [t ->]]; exists t.
  - intros [t [= -> ->]]. eauto.
Qed.

(** ASCII text decodes byte by byte, whatever follows it. *)
Lemma utf8_runes_ascii_app l t :
  Forall (fun b => b < 0x80) l -> utf8_runes (l ++ t) = l ++ utf8_runes t.
Proof.
  induction l as [|b l IH]; [done|]. intros [Hb Hall]%Forall_cons. cbn [utf8_runes app].
  replace (b <? 0x80) with true by lia. by rewrite IH.
Qed.

(** ASCII runes as a string. *)
Definition string_of_runes (l : list rune) : string :=
  string_of_list_ascii (map (fun r => ascii_of_N (Z.to_N r)) l).
