(* ===== verification/Model.v ===== *)
(** * Model: the domain types of package [internal/model]

    Connection events, workloads and service calls, the protocol vocabulary and
    the predicates the pipeline filters on. *)

From S2P Require Import Prelude Golang Netip.
Open Scope string_scope.
Open Scope list_scope.
Open Scope Z_scope.

(** ** Protocols *)

(** [Protocol] is a [uint8]. *)
Abbreviation Protocol := Z (only parsing).
Definition ProtocolTCP : Protocol := 6.
Definition ProtocolUDP : Protocol := 17.
Definition ProtocolSCTP : Protocol := 132.

Definition ProtocolString (p : Protocol) : string :=
  if p =? ProtocolTCP then "tcp"
  else if p =? ProtocolUDP then "udp"
  else if p =? ProtocolSCTP then "sctp"
  else "proto-" +:+ FormatUint (uint8 p).

Definition recognizedL7 : gset string :=
  {[ "http"; "http2"; "https"; "grpc"; "grpc-web"; "tcp"; "tls"; "mongo"; "mysql";
     "redis"; "udp" ]}.

Definition NormalizeL7 (appProtocol portName : string) : string :=
  let token := ToLower (TrimSpace appProtocol) in
  let token :=
    if decide (token = "") then
      let name := ToLower (TrimSpace portName) in
      let '(token, _, _) := Cut name "-" in token
    else token in
  if decide (token ∈ recognizedL7) then token else "".

(** ** Events *)

Record ConnectionEvent := mkEvent {
  SrcIP : Addr;
  DstIP : Addr;
  SrcPort : Z;
  DstPort : Z;
  EvProtocol : Protocol;
  PID : Z;
  Comm : string;
  Outbound : bool;
  SrcPodUID : string;
  DstHostname : string
}.

Record DNSAnswer := mkDNSAnswer { AnsName : string; AnsIP : Addr; AnsTTL : Z }.

Definition EvIsLoopback (e : ConnectionEvent) : bool :=
  IsLoopback (SrcIP e) || IsLoopback (DstIP e).

Definition IsSelfEdge (e : ConnectionEvent) : bool :=
  bool_decide (Unmap (SrcIP e) = Unmap (DstIP e)).

(** [netip.MustParsePrefix("fd00:ec2::/32")]. *)
Definition awsReservedPrefix : Prefix :=
  mkPrefix (default AddrZero (ParseAddr "fd00:ec2::")) 32.

Definition IsAWSReserved (e : ConnectionEvent) : bool :=
  Contains awsReservedPrefix (SrcIP e) || Contains awsReservedPrefix (DstIP e).

Definition IsLinkLocal (e : ConnectionEvent) : bool :=
  IsLinkLocalUnicast (SrcIP e) || IsLinkLocalUnicast (DstIP e).

Definition Canonical (e : ConnectionEvent) : ConnectionEvent :=
  if Outbound e then e
  else mkEvent (DstIP e) (SrcIP e) (DstPort e) (SrcPort e) (EvProtocol e) (PID e)
         (Comm e) (Outbound e) (SrcPodUID e) (DstHostname e).

(** ** Workloads and service calls *)

Record Workload := mkWorkload { WlName : string; WlNamespace : string; WlKind : string }.

#[export] Instance Workload_eq_dec : EqDecision Workload.
Proof. solve_decision. Defined.
#[export] Instance Workload_countable : Countable Workload.
Proof.
  refine (inj_countable (fun w => (WlName w, WlNamespace w, WlKind w))
            (fun '(n, ns, k) => Some (mkWorkload n ns k)) _).
  by intros [].
Defined.

Definition zeroWorkload : Workload := mkWorkload "" "" "".

Definition KindExternal : string := "external".
Definition KindServiceEntry : string := "ServiceEntry".
Definition KindService : string := "Service".
Definition KindNode : string := "node".

Definition IsExternal (w : Workload) : bool := bool_decide (WlKind w = KindExternal).

Definition IsReversedDuplicate (e : ConnectionEvent) (source : Workload) : bool :=
  negb (Outbound e) && negb (IsExternal source).

Record ServiceCall := mkServiceCall {
  Source : Workload;
  Dest : Workload;
  DestPort : Z;
  DestProtocol : Protocol;
  DestAppProtocol : string
}.

#[export] Instance ServiceCall_eq_dec : EqDecision ServiceCall.
Proof. solve_decision. Defined.

(** ** Specification: the address ranges the filters are documented to drop *)

Definition cidr (s : string) (bits : Z) : Prefix :=
  mkPrefix (default AddrZero (ParseAddr s)) bits.
Definition loopback_ranges : list Prefix := [cidr "127.0.0.0" 8; cidr "::1" 128].
Definition link_local_ranges : list Prefix := [cidr "169.254.0.0" 16; cidr "fe80::" 10].
Definition aws_ranges : list Prefix := [cidr "fd00:ec2::" 32].
Definition in_ranges (ps : list Prefix) (a : Addr) : bool :=
  existsb (fun p => Contains p a) ps.

(** The addresses the decoder produces: well formed, unmapped, without zone. *)
Definition plain_addr (a : Addr) : Prop :=
  wf_addr a /\ a <> AddrZero /\ Unmap a = a /\ hasZone a = false.

(** ** Lemmas *)

Lemma wf_Canonical_fields e :
  SrcPodUID (Canonical e) = SrcPodUID e /\ EvProtocol (Canonical e) = EvProtocol e /\
  PID (Canonical e) = PID e /\ Comm (Canonical e) = Comm e /\
  Outbound (Canonical e) = Outbound e /\ DstHostname (Canonical e) = DstHostname e.
Proof. unfold Canonical. by case_match. Qed.

Lemma EvIsLoopback_Canonical e : EvIsLoopback (Canonical e) = EvIsLoopback e.
Proof. unfold EvIsLoopback, Canonical. case_match; [done|]. apply orb_comm. Qed.

Lemma IsSelfEdge_Canonical e : IsSelfEdge (Canonical e) = IsSelfEdge e.
Proof.
  unfold IsSelfEdge, Canonical. case_match; [done|]. simpl.
  apply bool_decide_ext. naive_solver.
Qed.

Lemma IsAWSReserved_Canonical e : IsAWSReserved (Canonical e) = IsAWSReserved e.
Proof. unfold IsAWSReserved, Canonical. case_match; [done|]. apply orb_comm. Qed.

Lemma IsLinkLocal_Canonical e : IsLinkLocal (Canonical e) = IsLinkLocal e.
Proof. unfold IsLinkLocal, Canonical. case_match; [done|]. apply orb_comm. Qed.

#[export] Hint Rewrite EvIsLoopback_Canonical IsSelfEdge_Canonical IsAWSReserved_Canonical
  IsLinkLocal_Canonical : sniffer.

Lemma shiftr_lxor_eqb x y n : (Z.shiftr (Z.lxor x y) n =? 0) = (Z.shiftr x n =? Z.shiftr y n).
Proof.
  rewrite Z.shiftr_lxor. apply eq_bool_prop_intro. rewrite !Is_true_true, !Z.eqb_eq.
  apply Z.lxor_eq_0_iff.
Qed.

Lemma be_Z_4 (k : nat) b0 b1 b2 b3 :
  (k <= 4)%nat ->
  Z.shiftr (be_Z [b0; b1; b2; b3]) (32 - 8 * Z.of_nat k) = be_Z (take k [b0; b1; b2; b3]).
Proof.
  intros Hk. rewrite <- be_Z_shiftr by (simpl; lia). f_equal. simpl length. lia.
Qed.

Lemma be_Z_16 (k : nat) bs :
  length bs = 16%nat -> (k <= 16)%nat ->
  Z.shiftr (be_Z bs) (128 - 8 * Z.of_nat k) = be_Z (take k bs).
Proof. intros Hl Hk. rewrite <- be_Z_shiftr by lia. f_equal. lia. Qed.

(** Membership in a range that ends on a byte boundary is agreement on the
    leading bytes. *)
Lemma Contains4 (k : nat) p0 p1 p2 p3 b0 b1 b2 b3 :
  (k <= 4)%nat ->
  Contains (mkPrefix (Addr4 p0 p1 p2 p3) (8 * Z.of_nat k)) (Addr4 b0 b1 b2 b3) =
  bool_decide (take k [b0; b1; b2; b3] = take k [p0; p1; p2; p3]).
Proof.
  intros Hk. unfold Contains. cbn [prefix_bits prefix_ip hasZone BitLen].
  replace (8 * Z.of_nat k <? 0) with false by lia. cbn [orb negb Z.eqb].
  rewrite shiftr_lxor_eqb. unfold addr_num, AsSlice. rewrite !be_Z_4 by done.
  case_bool_decide as He; [rewrite He; apply Z.eqb_refl|]. apply Z.eqb_neq. intros Heq. apply He.
  apply be_Z_inj; [|done]. by rewrite !length_take.
Qed.

Lemma Contains6 (k : nat) ps zp bs z :
  length ps = 16%nat -> length bs = 16%nat -> (k <= 16)%nat ->
  Contains (mkPrefix (Addr6 ps zp) (8 * Z.of_nat k)) (Addr6 bs z) =
  bool_decide (z = "") && bool_decide (take k bs = take k ps).
Proof.
  intros Hp Hb Hk. unfold Contains. cbn [prefix_bits prefix_ip hasZone BitLen].
  replace (8 * Z.of_nat k <? 0) with false by lia. cbn [orb].
  case_bool_decide as Hz; [by rewrite bool_decide_eq_false_2|].
  rewrite (bool_decide_eq_true_2 (z = "")) by (by destruct (decide (z = ""))).
  cbn [orb andb negb Z.eqb]. change ((128 =? 0) || (128 =? 0) || negb (128 =? 128)) with false.
  rewrite shiftr_lxor_eqb. unfold addr_num, AsSlice. rewrite !be_Z_16 by done.
  case_bool_decide as He; [rewrite He; apply Z.eqb_refl|]. apply Z.eqb_neq. intros Heq. apply He.
  apply be_Z_inj; [|done]. by rewrite !length_take, Hp, Hb.
Qed.

Lemma Contains_family46 p0 p1 p2 p3 n bs z :
  Contains (mkPrefix (Addr4 p0 p1 p2 p3) n) (Addr6 bs z) = false.
Proof. unfold Contains. cbn. by repeat case_match. Qed.

Lemma Contains_family64 ps zp n b0 b1 b2 b3 :
  Contains (mkPrefix (Addr6 ps zp) n) (Addr4 b0 b1 b2 b3) = false.
Proof. unfold Contains. cbn. by repeat case_match. Qed.

Lemma land_high10 x :
  0 <= x < 65536 -> (Z.land x 0xffc0 =? 0xfe80) = (Z.shiftr x 6 =? 0x3fa).
Proof.
  intros Hx.
  assert (Z.land x 0xffc0 = Z.shiftl (Z.shiftr x 6) 6) as ->.
  { apply Z.bits_inj'. intros n Hn. rewrite Z.land_spec, Z.shiftl_spec by done.
    destruct (decide (n < 6)) as [Hlt|Hge].
    - rewrite (Z.testbit_neg_r _ (n - 6)) by lia.
      change 0xffc0 with (Z.shiftl (Z.ones 10) 6).
      by rewrite Z.shiftl_spec, (Z.testbit_neg_r _ (n - 6)), andb_false_r by lia.
    - rewrite Z.shiftr_spec by lia. replace (n - 6 + 6) with n by lia.
      change 0xffc0 with (Z.shiftl (Z.ones 10) 6). rewrite Z.shiftl_spec by done.
      destruct (decide (n < 16)) as [H16|H16].
      + by rewrite Z.ones_spec_low, andb_true_r by lia.
      + destruct (decide (x = 0)) as [->|Hx0]; [by rewrite Z.testbit_0_l|].
        rewrite (Z.bits_above_log2 x n); [done|lia|].
        assert (Z.log2 x < 16) by (apply Z.log2_lt_pow2; lia). lia. }
  rewrite Z.shiftl_mul_pow2 by lia. lia.
Qed.

Lemma in_loopback a : plain_addr a -> in_ranges loopback_ranges a = IsLoopback a.
Proof.
  assert (loopback_ranges =
    [mkPrefix (Addr4 x7f x00 x00 x00) (8 * Z.of_nat 1);
     mkPrefix (Addr6 (replicate 15 x00 ++ [x01]) "") (8 * Z.of_nat 16)]) as -> by done.
  intros (Hwf & Hz & Hu & Hzone). unfold IsLoopback. rewrite Hu.
  destruct a as [|b0 b1 b2 b3|bs z]; [done| |]; cbn [in_ranges existsb].
  - rewrite Contains4, Contains_family64 by lia. rewrite orb_false_r.
    apply eq_bool_prop_intro. rewrite Is_true_true, bool_decide_eq_true, Is_true_true, Z.eqb_eq.
    split; [intros H; by simplify_eq/=|]. intros H. simpl. f_equal. by apply byteZ_inj.
  - rewrite Contains6, Contains_family46 by done. cbn [orb]. simpl in Hwf, Hzone.
    rewrite bool_decide_eq_false in Hzone. rewrite (bool_decide_eq_true_2 (z = "")) by
      (by destruct (decide (z = ""))).
    rewrite orb_false_r, firstn_all2, firstn_all2 by (simpl; lia). cbn [andb].
    apply eq_bool_prop_intro. rewrite Is_true_true, bool_decide_eq_true, Is_true_true, Z.eqb_eq.
    split; [by intros ->|]. intros H. apply be_Z_inj; [done|]. by rewrite H.
Qed.

Lemma in_link_local a : plain_addr a -> in_ranges link_local_ranges a = IsLinkLocalUnicast a.
Proof.
  assert (link_local_ranges =
    [mkPrefix (Addr4 xa9 xfe x00 x00) (8 * Z.of_nat 2);
     mkPrefix (Addr6 ([xfe; x80] ++ replicate 14 x00) "") 10]) as -> by done.
  intros (Hwf & Hz & Hu & Hzone). unfold IsLinkLocalUnicast. rewrite Hu.
  destruct a as [|b0 b1 b2 b3|bs z]; [done| |]; cbn [in_ranges existsb].
  - rewrite Contains4, Contains_family64 by lia. rewrite orb_false_r.
    apply eq_bool_prop_intro.
    rewrite Is_true_true, bool_decide_eq_true, Is_true_true, andb_true_iff, !Z.eqb_eq.
    split; [intros H; by simplify_eq/=|]. intros [H0 H1]. simpl.
    f_equal; [by apply byteZ_inj|]. f_equal. by apply byteZ_inj.
  - rewrite Contains_family46. cbn [orb]. simpl in Hwf. unfold Contains.
    cbn [prefix_bits prefix_ip BitLen]. rewrite Hzone.
    change ((10 <? 0) || false) with false.
    change ((128 =? 0) || (128 =? 0) || negb (128 =? 128)) with false. cbn iota.
    rewrite shiftr_lxor_eqb, orb_false_r. unfold addr_num, AsSlice.
    change (128 - 10) with (128 - 8 * Z.of_nat 2 + 6).
    rewrite <- !Z.shiftr_shiftr, !be_Z_16 by (done || lia).
    rewrite land_high10; [done|]. unfold v6u16. simpl drop.
    pose proof (be_Z_range (take 2 bs)) as Hr. rewrite length_take, Hwf in Hr. apply Hr.
Qed.

Lemma plain_addr_Addr4 b0 b1 b2 b3 : plain_addr (Addr4 b0 b1 b2 b3).
Proof. by repeat split. Qed.

Lemma plain_addr_AddrFrom4 l : length l = 4%nat -> plain_addr (AddrFrom4 l).
Proof. by destruct l as [|b0 [|b1 [|b2 [|b3 [|]]]]]. Qed.

Lemma plain_addr_Unmap16 bs : length bs = 16%nat -> plain_addr (Unmap (AddrFrom16 bs)).
Proof.
  intros Hl. destruct (Unmap_4or6 (AddrFrom16 bs)) as [Heq|[(?&?&?&?&->)|]]; [| |done].
  - rewrite Heq. split; [done|]. by repeat split.
  - apply plain_addr_Addr4.
Qed.

(** The recognised tokens are already in normal form. *)
Lemma recognizedL7_normal t : t ∈ recognizedL7 -> TrimSpace t = t /\ ToLower t = t /\ t <> "".
Proof. unfold recognizedL7. set_unfold. intros H. destruct_or!; by subst. Qed.

Lemma NormalizeL7_fix t p : t ∈ recognizedL7 -> NormalizeL7 t p = t.
Proof.
  intros Ht. destruct (recognizedL7_normal t Ht) as (H1 & H2 & H3).
  unfold NormalizeL7. rewrite H1, H2, !(decide_False (P := t = "")) by done.
  by rewrite decide_True.
Qed.

Lemma NormalizeL7_range a p : NormalizeL7 a p = "" \/ NormalizeL7 a p ∈ recognizedL7.
Proof. unfold NormalizeL7. case_match; case_decide; auto. Qed.

Lemma NormalizeL7_lower a p : NormalizeL7 (ToLower a) (ToLower p) = NormalizeL7 a p.
Proof. unfold NormalizeL7. by rewrite !TrimSpace_ToLower, !ToLower_idemp. Qed.

Lemma NormalizeL7_precedence a p p' : TrimSpace a <> "" -> NormalizeL7 a p = NormalizeL7 a p'.
Proof.
  intros Ha. unfold NormalizeL7.
  assert (ToLower (TrimSpace a) <> "") as Hne by (by destruct (TrimSpace a)).
  by rewrite !(decide_False (P := ToLower (TrimSpace a) = "")).
Qed.

(** ** Properties *)

(** The event the probe emits on each end of one connection. *)
Definition client_half (cip sip : Addr) (cport sport : Z) (proto : Protocol) (pid : Z)
    (comm : string) : ConnectionEvent :=
  mkEvent cip sip cport sport proto pid comm true "" "".
Definition server_half (cip sip : Addr) (cport sport : Z) (proto : Protocol) : ConnectionEvent :=
  mkEvent sip cip sport cport proto 0 "" false "" "".

(** The two records the probe emits for one connection, one per end, become
    the same caller -> callee tuple after [Canonical], with the callee's
    listening port as destination port; each keeps the flag that says which end
    saw it, and every node-local filter gives the same verdict on both. *)
Lemma canonical_halves_agree cip sip cport sport proto pid comm :
  let o := Canonical (client_half cip sip cport sport proto pid comm) in
  let a := Canonical (server_half cip sip cport sport proto) in
  (SrcIP o, DstIP o, SrcPort o, DstPort o, EvProtocol o) = (cip, sip, cport, sport, proto) /\
  (SrcIP a, DstIP a, SrcPort a, DstPort a, EvProtocol a) = (cip, sip, cport, sport, proto) /\
  Outbound o = true /\ Outbound a = false /\
  EvIsLoopback o = EvIsLoopback (server_half cip sip cport sport proto) /\
  IsSelfEdge o = IsSelfEdge (server_half cip sip cport sport proto) /\
  IsAWSReserved o = IsAWSReserved (server_half cip sip cport sport proto) /\
  IsLinkLocal o = IsLinkLocal (server_half cip sip cport sport proto).
Proof.
  cbv zeta. repeat split.
  - unfold EvIsLoopback. apply orb_comm.
  - apply bool_decide_ext. simpl. naive_solver.
  - unfold IsAWSReserved. apply orb_comm.
  - unfold IsLinkLocal. apply orb_comm.
Qed.

(** On the addresses the decoder produces, the loopback, link-local and
    AWS-reserved filters drop exactly the events with an endpoint in
    127.0.0.0/8, ::1, 169.254.0.0/16, fe80::/10 or fd00:ec2::/32. *)
Lemma drop_filters_are_ranges e :
  plain_addr (SrcIP e) -> plain_addr (DstIP e) ->
  EvIsLoopback e || IsAWSReserved e || IsLinkLocal e =
  in_ranges (loopback_ranges ++ aws_ranges ++ link_local_ranges) (SrcIP e) ||
  in_ranges (loopback_ranges ++ aws_ranges ++ link_local_ranges) (DstIP e).
Proof.
  intros Hs Hd. unfold in_ranges. rewrite !existsb_app.
  fold (in_ranges loopback_ranges (SrcIP e)) (in_ranges loopback_ranges (DstIP e)).
  fold (in_ranges link_local_ranges (SrcIP e)) (in_ranges link_local_ranges (DstIP e)).
  rewrite !in_loopback, !in_link_local by done.
  unfold EvIsLoopback, IsLinkLocal, IsAWSReserved, aws_ranges. cbn [existsb].
  rewrite !orb_false_r. change (cidr "fd00:ec2::" 32) with awsReservedPrefix.
  destruct (IsLoopback (SrcIP e)), (IsLoopback (DstIP e)), (Contains _ (SrcIP e)),
    (Contains _ (DstIP e)), (IsLinkLocalUnicast (SrcIP e)); done.
Qed.

(** The metadata service is dropped, an ordinary pod pair is not. *)
Lemma drop_filters_are_ranges_witness :
  let imds := client_half (Addr4 x0a x00 x00 x05) (Addr4 xa9 xfe xa9 xfe) 40000 80 6 7 "curl" in
  plain_addr (SrcIP imds) /\ plain_addr (DstIP imds) /\
  EvIsLoopback imds || IsAWSReserved imds || IsLinkLocal imds = true.
Proof.
  cbv zeta. split; [apply plain_addr_Addr4|]. split; [apply plain_addr_Addr4|].
  rewrite drop_filters_are_ranges by apply plain_addr_Addr4. by vm_compute.
Defined.

(** [NormalizeL7] returns the empty string or a recognised token; a set
    appProtocol alone decides; the result does not depend on letter case; and a
    token it returns is a fixed point of it.  The port-name path cuts at the
    first dash, so it never yields "grpc-web". *)
Lemma NormalizeL7_correct a p :
  (NormalizeL7 a p = "" \/ NormalizeL7 a p ∈ recognizedL7) /\
  NormalizeL7 (ToLower a) (ToLower p) = NormalizeL7 a p /\
  (TrimSpace a = "" \/ forall p', NormalizeL7 a p' = NormalizeL7 a p) /\
  (NormalizeL7 a p = "" \/ forall p', NormalizeL7 (NormalizeL7 a p) p' = NormalizeL7 a p) /\
  NormalizeL7 "" p <> "grpc-web".
Proof.
  split; [apply NormalizeL7_range|]. split; [apply NormalizeL7_lower|]. split; [|split].
  - destruct (decide (TrimSpace a = "")); [by left|right].
    intros p'. by apply NormalizeL7_precedence.
  - destruct (NormalizeL7_range a p) as [?|Hr]; [by left|right].
    intros p'. by apply NormalizeL7_fix.
  - unfold NormalizeL7. change (ToLower (TrimSpace "")) with "".
    rewrite !(decide_True (P := "" = "")) by done.
    pose proof (Cut_fst_no_sep (ToLower (TrimSpace p)) "-") as Hno.
    destruct (Cut (ToLower (TrimSpace p)) "-") as [[t r] ok]. simpl in Hno.
    case_decide; [|done]. intros ->. done.
Qed.
