(* ===== verification/Ignore.v ===== *)
(** * Ignore: the ignore list (internal/ignore/ignore.go)

    [globToRegexp] writes a pattern for package [regexp] and compiles it;
    [Compile] turns the configured patterns into a [Matcher]; [ShouldIgnore] and
    [ShouldIgnoreCall] apply it.  The specification is [glob_match], the relation
    between a glob and the texts it stands for, and the theorems show that the
    route through regular expressions implements it. *)

From S2P Require Import Prelude Golang Regexp Netip Model.
Open Scope string_scope.
Open Scope list_scope.
Open Scope Z_scope.

(** ** Globs *)

Definition star_rune : rune := char_code "*".

(** What the loop of [globToRegexp] writes for each rune. *)
Definition glob_rune (r : rune) : list rune :=
  if r =? star_rune then [char_code "."; char_code "*"] else QuoteMeta r.
Definition glob_body (glob : list rune) : list rune := glob ≫= glob_rune.
Definition glob_pattern (glob : string) : list rune :=
  [char_code "^"] ++ glob_body (runes glob) ++ [char_code "$"].
Definition globToRegexp (glob : string) : option re := Regexp.Compile (glob_pattern glob).

(** ** Matcher *)

Record rule := mkRule { rns : re; rname : re; raw : string }.
Record Matcher := mkMatcher { rules : list rule }.

Inductive ignore_error :=
| MissingSeparator (p : string)
| MatchesEverything (p : string)
| BadNamespace (p : string)
| BadWorkload (p : string).

(** One round of the loop of [Compile]. *)
Definition compile_rule (p : string) : result ignore_error rule :=
  let '(ns, name, ok) := Cut p "/" in
  if negb ok then Err (MissingSeparator p)
  else if bool_decide (ns = "*" /\ name = "*") then Err (MatchesEverything p)
  else
    match globToRegexp ns with
    | None => Err (BadNamespace p)
    | Some nsRe =>
        match globToRegexp name with
        | None => Err (BadWorkload p)
        | Some nameRe => Ok (mkRule nsRe nameRe p)
        end
    end.
Fixpoint compile_rules (patterns : list string) (m : Matcher) : result ignore_error Matcher :=
  match patterns with
  | [] => Ok m
  | p :: patterns =>
      match compile_rule p with
      | Err e => Err e
      | Ok r => compile_rules patterns (mkMatcher (rules m ++ [r]))
      end
  end.
Definition Compile (patterns : list string) : result ignore_error Matcher :=
  compile_rules patterns (mkMatcher []).

Fixpoint any_rule (rs : list rule) (namespace name : string) : bool :=
  match rs with
  | [] => false
  | r :: rs =>
      if MatchString (rns r) namespace && MatchString (rname r) name then true
      else any_rule rs namespace name
  end.
(** A nil [*Matcher] is [None]. *)
Definition ShouldIgnore (m : option Matcher) (namespace name : string) : bool :=
  match m with
  | None => false
  | Some m => any_rule (rules m) namespace name
  end.
Definition ShouldIgnoreCall (m : option Matcher) (sc : ServiceCall) : bool :=
  ShouldIgnore m (WlNamespace (Source sc)) (WlName (Source sc))
  || ShouldIgnore m (WlNamespace (Dest sc)) (WlName (Dest sc)).

(** ** Specification *)

(** A ["*"] stands for any run of runes but newlines, any other rune for
    itself. *)
Inductive glob_match : list rune -> list rune -> Prop :=
| glob_nil : glob_match [] []
| glob_star pre g s :
    Forall (fun c => is_dot c = true) pre -> glob_match g s ->
    glob_match (star_rune :: g) (pre ++ s)
| glob_lit c g s :
    c <> star_rune -> glob_match g s -> glob_match (c :: g) (c :: s).

Definition glob_matches (glob text : string) : Prop := glob_match (runes glob) (runes text).

(** A pattern names a workload: its two segments match. *)
Definition pattern_matches (p namespace name : string) : Prop :=
  let '(ns, nm, _) := Cut p "/" in glob_matches ns namespace /\ glob_matches nm name.

Definition valid_pattern (p : string) : Prop :=
  let '(ns, nm, ok) := Cut p "/" in ok = true /\ ~ (ns = "*" /\ nm = "*").

(** ** The expression of a glob *)

Fixpoint glob_re (g : list rune) : re :=
  match g with
  | [] => RCat REnd REmpty
  | c :: g =>
      if c =? star_rune then RCat (RStar dot) (glob_re g) else RCat (lit c) (glob_re g)
  end.

Lemma glob_pattern_head g :
  exists c l, glob_body g ++ [char_code "$"] = c :: l /\ (c =? char_code "*") = false.
Proof.
  destruct g as [|c g]; [by eexists _, _|]. unfold glob_body. cbn [mbind list_bind].
  unfold glob_rune. destruct (c =? star_rune) eqn:Hc; [by eexists _, _|].
  unfold QuoteMeta. destruct (is_meta c); [by eexists _, _|].
  rewrite <-!app_assoc. by eexists c, _.
Qed.

Lemma compile_atom c a c' l fuel :
  (c =? char_code "\") = false -> atom_of c = Some a -> (c' =? char_code "*") = false ->
  compile (S fuel) (c :: c' :: l) = (r ← compile fuel (c' :: l); Some (RCat a r)).
Proof. intros Hc Ha Hc'. cbn [compile]. rewrite Hc, Ha. cbn [mbind option_bind]. by rewrite Hc'. Qed.

(** Every generated pattern is accepted, and stands for its glob. *)
Lemma compile_glob g fuel :
  (length (glob_body g) + 1 < fuel)%nat ->
  compile fuel (glob_body g ++ [char_code "$"]) = Some (glob_re g).
Proof.
  revert fuel. induction g as [|c g IH]; intros fuel Hf.
  - destruct fuel as [|[|fuel]]; [simpl in Hf; lia..|]. done.
  - destruct (glob_pattern_head g) as (c' & l & Hl & Hc').
    assert (glob_body (c :: g) = glob_rune c ++ glob_body g) as Hb by done.
    rewrite Hb, <-app_assoc. rewrite Hb, length_app in Hf. cbn [glob_re].
    unfold glob_rune in Hf |- *. destruct (c =? star_rune) eqn:Hc.
    + simpl in Hf. destruct fuel as [|fuel]; [lia|]. cbn [app].
      specialize (IH fuel ltac:(lia)).
      trans (r ← compile fuel (glob_body g ++ [char_code "$"]); Some (RCat (RStar dot) r));
        [done|]. by rewrite IH.
    + unfold QuoteMeta in Hf |- *. destruct (is_meta c) eqn:Hm.
      * simpl in Hf. destruct fuel as [|fuel]; [lia|]. cbn [app].
        specialize (IH fuel ltac:(lia)). rewrite Hl in IH |- *.
        cbn [compile]. change (char_code "\" =? char_code "\") with true. cbv iota.
        rewrite Hm. cbn [mbind option_bind]. by rewrite Hc', IH.
      * simpl in Hf. destruct fuel as [|fuel]; [lia|]. cbn [app].
        specialize (IH fuel ltac:(lia)). rewrite Hl in IH |- *.
        assert (forall k, is_meta k = true -> (c =? k) = false) as Hk.
        { intros k Hk. apply Z.eqb_neq. intros ->. congruence. }
        rewrite (compile_atom _ (lit c)), IH; [done|by apply Hk| |done].
        unfold atom_of. by rewrite !Hk, Hm.
Qed.

Lemma globToRegexp_eq glob : globToRegexp glob = Some (RCat RBegin (glob_re (runes glob))).
Proof.
  unfold globToRegexp, Regexp.Compile, glob_pattern. set (g := runes glob).
  destruct (glob_pattern_head g) as (c & l & Hl & Hc).
  assert (compile (S (length (glob_body g ++ [char_code "$"])))
            (glob_body g ++ [char_code "$"]) = Some (glob_re g)) as HIH.
  { apply compile_glob. rewrite length_app. simpl. lia. }
  rewrite Hl in HIH |- *. cbn [app length] in HIH |- *.
  by rewrite (compile_atom _ RBegin), HIH.
Qed.

(** Anchored matching of the expression is the relation [glob_match]. *)
Lemma glob_re_match g : forall b s,
  (exists st, st ∈ matches (glob_re g) (mkState b s None)) <-> glob_match g s.
Proof.
  induction g as [|c g IH]; intros b s; cbn [glob_re].
  - cbn. destruct s; cbn; split.
    + intros _. constructor.
    + intros _. eexists. by left.
    + intros [st Hst]. by apply elem_of_nil in Hst.
    + intros H. inversion H.
  - destruct (c =? star_rune) eqn:Hc.
    + apply Z.eqb_eq in Hc as ->. split.
      * intros [st (st' & Hin & Hm)%list_elem_of_bind].
        apply (star_class _ (length s)) in Hm; [|done].
        destruct Hm as (pre & -> & Hall & Hcap & Hbeg). constructor; [done|].
        apply (IH (at_begin st')). exists st. destruct st'. cbn in *. by subst.
      * intros H. inversion H as [|pre g' s' Hall Hg|]; subst; [|done].
        apply (IH (if decide (pre = []) then b else false)) in Hg as [st Hst].
        exists st. apply list_elem_of_bind. eexists. split; [exact Hst|].
        apply (star_class _ (length (pre ++ s'))); [done|]. by exists pre.
    + apply Z.eqb_neq in Hc. setoid_rewrite matches_RCat. unfold lit. destruct s as [|d s].
      * rewrite matches_RClass_nil. cbn [mbind list_bind]. split; [|by inversion 1].
        intros [st Hst]. by apply elem_of_nil in Hst.
      * rewrite matches_RClass. destruct (d =? c) eqn:Hd.
        -- apply Z.eqb_eq in Hd as ->. cbn [mbind list_bind]. rewrite app_nil_r, IH.
           split; [by constructor|]. by inversion 1.
        -- apply Z.eqb_neq in Hd. split; [|by inversion 1].
           intros [st Hst]. by apply elem_of_nil in Hst.
Qed.

Lemma MatchString_glob glob text re :
  globToRegexp glob = Some re -> MatchString re text = true <-> glob_matches glob text.
Proof.
  rewrite globToRegexp_eq. intros [= <-]. rewrite MatchString_anchored. apply glob_re_match.
Qed.

(** ** Compile *)

Definition compiled (r : rule) (p : string) : Prop :=
  exists ns nm, Cut p "/" = (ns, nm, true) /\ raw r = p /\
    globToRegexp ns = Some (rns r) /\ globToRegexp nm = Some (rname r).

Lemma compile_rule_spec p :
  match compile_rule p with
  | Ok r => valid_pattern p /\ compiled r p
  | Err e => ~ valid_pattern p /\
      e = if (Cut p "/").2 then MatchesEverything p else MissingSeparator p
  end.
Proof.
  unfold compile_rule, valid_pattern, compiled.
  destruct (Cut p "/") as [[ns nm] ok]. destruct ok; cbn [negb snd]; [|naive_solver].
  case_bool_decide as H; [naive_solver|].
  rewrite (globToRegexp_eq ns), (globToRegexp_eq nm). split; [done|].
  exists ns, nm. by rewrite !globToRegexp_eq.
Qed.

Lemma compile_rules_spec patterns : forall m,
  match compile_rules patterns m with
  | Ok m' => Forall valid_pattern patterns /\
      exists rs, rules m' = rules m ++ rs /\ Forall2 compiled rs patterns
  | Err e => exists pre p post, patterns = pre ++ p :: post /\ Forall valid_pattern pre /\
      ~ valid_pattern p /\ e = if (Cut p "/").2 then MatchesEverything p else MissingSeparator p
  end.
Proof.
  induction patterns as [|p ps IH]; intros m; cbn [compile_rules].
  - split; [done|]. exists []. by rewrite app_nil_r.
  - pose proof (compile_rule_spec p) as Hp. destruct (compile_rule p) as [r|e].
    + destruct Hp as [Hv Hc]. specialize (IH (mkMatcher (rules m ++ [r]))).
      destruct (compile_rules ps _) as [m'|e].
      * destruct IH as (Hvs & rs & Hm & Hf). split; [by constructor|].
        exists (r :: rs). rewrite Hm. cbn [rules]. rewrite <-app_assoc. auto.
      * destruct IH as (pre & q & post & -> & Hpre & Hq & He).
        exists (p :: pre), q, post. split_and!; [done|apply Forall_cons; auto|done|done].
    + exists [], p, ps. by destruct Hp.
Qed.

Lemma any_rule_spec rs ps namespace name :
  Forall2 compiled rs ps ->
  any_rule rs namespace name = true <-> Exists (fun p => pattern_matches p namespace name) ps.
Proof.
  induction 1 as [|r p rs ps (ns & nm & Hcut & _ & Hns & Hnm) Hall IH]; cbn [any_rule].
  - by rewrite Exists_nil.
  - rewrite Exists_cons, <-IH. unfold pattern_matches. rewrite Hcut.
    rewrite <-(MatchString_glob _ _ _ Hns), <-(MatchString_glob _ _ _ Hnm).
    destruct (MatchString (rns r) namespace), (MatchString (rname r) name); naive_solver.
Qed.

(** [Compile] accepts a list exactly when every pattern has a separator and is
    not ["*/*"], and compiles one rule per pattern in order; otherwise it
    reports the first offending pattern, with the error that fits it. *)
Lemma Compile_decides patterns :
  match Compile patterns with
  | Ok m => Forall valid_pattern patterns /\ Forall2 compiled (rules m) patterns
  | Err e => exists pre p post, patterns = pre ++ p :: post /\ Forall valid_pattern pre /\
      ~ valid_pattern p /\ e = if (Cut p "/").2 then MatchesEverything p else MissingSeparator p
  end.
Proof.
  pose proof (compile_rules_spec patterns (mkMatcher [])) as H. unfold Compile.
  destruct (compile_rules _ _); [|done]. destruct H as (Hv & rs & -> & Hf). auto.
Qed.

(** C39: a compiled ignore list drops a service call exactly when a pattern of the
    list, read as a pair of globs, matches the source or the destination
    workload. *)
Theorem ShouldIgnoreCall_correct patterns m sc (Hm : Compile patterns = Ok m) :
  ShouldIgnoreCall (Some m) sc = true <->
  exists p, p ∈ patterns /\
    (pattern_matches p (WlNamespace (Source sc)) (WlName (Source sc)) \/
     pattern_matches p (WlNamespace (Dest sc)) (WlName (Dest sc))).
Proof.
  pose proof (compile_rules_spec patterns (mkMatcher [])) as H.
  fold (Compile patterns) in H. rewrite Hm in H. destruct H as (_ & rs & Hrs & Hf).
  unfold ShouldIgnoreCall, ShouldIgnore. rewrite Hrs. cbn [rules app].
  rewrite orb_true_iff, !(any_rule_spec rs patterns) by done. rewrite !Exists_exists.
  naive_solver.
Qed.
Lemma ShouldIgnoreCall_correct_witness :
  exists m sc, Compile ["kube-system/*"; "*/vmagent-*"] = Ok m /\
    ShouldIgnoreCall (Some m) sc = true /\
    exists p, p ∈ ["kube-system/*"; "*/vmagent-*"] /\
      (pattern_matches p (WlNamespace (Source sc)) (WlName (Source sc)) \/
       pattern_matches p (WlNamespace (Dest sc)) (WlName (Dest sc))).
Proof.
  eexists (mkMatcher _), (mkServiceCall (mkWorkload "checkout" "shop" "Deployment")
    (mkWorkload "vmagent-0" "obs" "Pod") 80 ProtocolTCP "").
  assert (Hm : Compile ["kube-system/*"; "*/vmagent-*"] = Ok _) by (vm_compute; reflexivity).
  split; [exact Hm|]. refine ((fun H => conj H (proj1 (ShouldIgnoreCall_correct _ _ _ Hm) H)) _).
  vm_compute. reflexivity.
Defined.

(** The guard against catch-all patterns is syntactic: ["*/*"] is rejected, but
    ["**/*"] is accepted and ignores every workload whose names hold no newline. *)
Lemma catch_all_slips_through :
  (forall m, Compile ["*/*"] <> Ok m) /\
  exists m, Compile ["**/*"] = Ok m /\
    forall namespace name,
      Forall (fun c => is_dot c = true) (runes namespace) ->
      Forall (fun c => is_dot c = true) (runes name) ->
      ShouldIgnore (Some m) namespace name = true.
Proof.
  split; [by vm_compute|].
  destruct (Compile ["**/*"]) as [m|e] eqn:Hm; [|by vm_compute in Hm].
  exists m. split; [done|]. intros ns nm Hns Hnm.
  pose proof (compile_rules_spec ["**/*"] (mkMatcher [])) as H.
  fold (Compile ["**/*"]) in H. rewrite Hm in H. destruct H as (_ & rs & Hrs & Hf).
  unfold ShouldIgnore. rewrite Hrs. apply (any_rule_spec rs _ _ _ Hf). left.
  unfold pattern_matches, glob_matches. change (Cut "**/*" "/") with ("**", "*", true).
  cbv iota beta. change (runes "**") with [star_rune; star_rune].
  change (runes "*") with [star_rune].
  assert (forall t, Forall (fun c => is_dot c = true) t -> glob_match [star_rune] t) as Hstar.
  { intros t Ht. rewrite <-(app_nil_r t). repeat constructor. done. }
  split; [|by apply Hstar]. apply (glob_star [] [star_rune]); [constructor|by apply Hstar].
Qed.
