(* ===== verification/Cgroup.v ===== *)
(** * Cgroup: from a process to its pod (internal/resolver/cgroup.go, pid.go)

    [podUIDPattern] as an expression, [ParsePodUID] and [normalisePodUID], and
    [PodUIDForPID] over a file system that is a parameter.  The theorems say
    which texts hold a pod UID, that the result is always a canonical lower-case
    UUID, and that each of the three spellings the kubelet and the runtimes use
    is read back. *)

From S2P Require Import Prelude Golang Regexp.
Open Scope string_scope.
Open Scope list_scope.
Open Scope Z_scope.

(** ** The pattern *)

Definition is_hex (r : rune) : bool :=
  between 48 57 r || between 97 102 r || between 65 70 r.
Definition is_sep (r : rune) : bool := (r =? char_code "-") || (r =? char_code "_").

(** [[0-9a-fA-F]{8}[-_][0-9a-fA-F]{4}...]: the classes in sequence, with the
    separator class and the digit class as parameters. *)
Definition uuid_classes (sep hex : rune -> bool) : list (rune -> bool) :=
  replicate 8 hex ++ [sep] ++ replicate 4 hex ++ [sep] ++ replicate 4 hex ++ [sep] ++
  replicate 4 hex ++ [sep] ++ replicate 12 hex.
Definition compact_classes (hex : rune -> bool) : list (rune -> bool) := replicate 32 hex.
Definition pod_text : list rune := map char_code (list_ascii_of_string "pod").
Definition podUIDPattern : re :=
  RCat (classes (map (fun c r => r =? c) pod_text))
       (RGroup (RAlt (classes (uuid_classes is_sep is_hex)) (classes (compact_classes is_hex)))).

(** ** Parsing *)

Definition FindStringSubmatch (r : re) (s : string) : option string :=
  st ← search r true (runes s); string_of_runes <$> capture st.

Definition slice (lo hi : nat) (s : string) : string := substring lo (hi - lo) s.

Definition normalisePodUID (raw : string) : string :=
  let s := ToLower (ReplaceByte raw "_" "-") in
  if negb (contains_byte s "-") && (String.length s =? 32)%nat
  then (slice 0 8 s +:+ "-" +:+ slice 8 12 s +:+ "-" +:+ slice 12 16 s +:+ "-" +:+
        slice 16 20 s +:+ "-" +:+ slice 20 32 s)%string
  else s.

Definition ParsePodUID (cgroup : string) : option string :=
  match FindStringSubmatch podUIDPattern cgroup with
  | None => None
  | Some m1 => Some (normalisePodUID m1)
  end.

(** ** From a PID *)

Definition formatPID (pid : Z) : string := FormatUint pid.

(** Split at slashes: the elements of a path. *)
Fixpoint split_path (s acc : string) : list string :=
  match s with
  | EmptyString => [srev acc]
  | String c s => if decide (c = "/"%char) then srev acc :: split_path s "" else split_path s (String c acc)
  end.
Definition clean_step (rooted : bool) (stack : list string) (e : string) : list string :=
  if bool_decide (e = "" \/ e = ".") then stack
  else if bool_decide (e = "..") then
    match stack with
    | top :: stack' => if bool_decide (top = "..") then e :: stack else stack'
    | [] => if rooted then [] else [e]
    end
  else e :: stack.
Definition join_elems (l : list string) : string :=
  match l with
  | [] => ""
  | e :: l => foldl (fun a b => (a +:+ "/" +:+ b)%string) e l
  end.
(** [filepath.Clean]. *)
Definition Clean (path : string) : string :=
  let rooted := match path with String c _ => bool_decide (c = "/"%char) | _ => false end in
  let out := join_elems (rev (foldl (clean_step rooted) [] (split_path path ""))) in
  if rooted then ("/" +:+ out)%string else if bool_decide (out = "") then "." else out.
(** [filepath.Join]: empty elements are ignored. *)
Definition Join (l : list string) : string :=
  match filter (fun e => e <> "") l with
  | [] => ""
  | l => Clean (join_elems l)
  end.

Section pid.
(** [os.ReadFile]; [None] is an error. *)
Context (ReadFile : string -> option string).

Definition PodUIDForPID (root : string) (pid : Z) : option string :=
  if pid =? 0 then None
  else
    match ReadFile (Join [root; formatPID pid; "cgroup"]) with
    | None => None
    | Some raw => ParsePodUID raw
    end.
End pid.

(** ** Specification *)

(** The bodies the kubelet writes after [pod]. *)
Definition pod_body (raw : list rune) : Prop :=
  (length raw = 36%nat /\ sat (uuid_classes is_sep is_hex) raw = true) \/
  (length raw = 32%nat /\ sat (compact_classes is_hex) raw = true).

(** A canonical UUID: 8-4-4-4-12 lower-case hexadecimal digits. *)
Definition is_lower_hex (r : rune) : bool := between 48 57 r || between 97 102 r.
Definition is_dash (r : rune) : bool := r =? char_code "-".
Definition codes (s : string) : list rune := map char_code (list_ascii_of_string s).
Definition canonical_uid (u : string) : Prop :=
  String.length u = 36%nat /\ sat (uuid_classes is_dash is_lower_hex) (codes u) = true.

(** The five groups of a UUID, written with a separator. *)
Definition groups (sep : string) (l : list string) : string :=
  match l with
  | [] => ""
  | g :: l => foldl (fun a b => (a +:+ sep +:+ b)%string) g l
  end.

(** ** Lemmas *)

(** What the expression captures at one position. *)
Definition pod_here (s : list rune) : option (list rune) :=
  if sat (map (fun c r => r =? c) pod_text) s then
    let t := drop 3 s in
    if sat (uuid_classes is_sep is_hex) t then Some (take 36 t)
    else if sat (compact_classes is_hex) t then Some (take 32 t) else None
  else None.
Fixpoint first_pod (s : list rune) : option (list rune) :=
  match pod_here s with
  | Some raw => Some raw
  | None => match s with [] => None | _ :: s => first_pod s end
  end.

Lemma matches_pod b s :
  capture <$> head (matches podUIDPattern (mkState b s None)) = Some <$> pod_here s /\
  (pod_here s = None -> matches podUIDPattern (mkState b s None) = []).
Proof.
  unfold podUIDPattern, pod_here. rewrite matches_RCat, matches_classes.
  destruct (sat (map _ pod_text) s) eqn:Hpod; [|done].
  apply sat_length in Hpod. cbn [length pod_text map list_ascii_of_string] in *.
  cbn [mbind list_bind]. rewrite app_nil_r.
  change (matches (RGroup ?a) ?st) with
    ((fun st' => mkState (at_begin st') (rest st')
        (Some (take (length (rest st) - length (rest st')) (rest st)))) <$> matches a st).
  cbn [matches]. rewrite !matches_classes. cbn [rest].
  set (t := drop 3 s).
  destruct (sat (uuid_classes _ _) t) eqn:Hu.
  - apply sat_length in Hu. cbn. split; [|done]. rewrite length_drop. do 3 f_equal.
    change (length (uuid_classes is_sep is_hex)) with 36%nat in *. lia.
  - cbn [app]. destruct (sat (compact_classes _) t) eqn:Hc; [|done].
    apply sat_length in Hc. cbn. split; [|done]. rewrite length_drop. do 3 f_equal.
    change (length (compact_classes is_hex)) with 32%nat in *. lia.
Qed.

Lemma search_pod s : forall b, (st ← search podUIDPattern b s; capture st) = first_pod s.
Proof.
  induction s as [|c s IH]; intros b; cbn [search first_pod].
  - destruct (matches_pod b []) as [Hm Hnone].
    destruct (pod_here []) eqn:Hp; [by vm_compute in Hp|]. by rewrite Hnone.
  - destruct (matches_pod b (c :: s)) as [Hm Hnone].
    destruct (pod_here (c :: s)) as [raw|] eqn:Hp.
    + destruct (matches _ _) as [|st l]; [done|]. by injection Hm.
    + rewrite Hnone by done. apply IH.
Qed.

Lemma ParsePodUID_first s :
  ParsePodUID s = (fun raw => normalisePodUID (string_of_runes raw)) <$> first_pod (runes s).
Proof.
  unfold ParsePodUID, FindStringSubmatch. rewrite <-(search_pod (runes s) true).
  destruct (search _ _ _) as [st|]; [|done]. cbn. by destruct (capture st).
Qed.

Lemma pod_here_Some s raw :
  pod_here s = Some raw -> pod_body raw /\ exists post, s = pod_text ++ raw ++ post.
Proof.
  unfold pod_here. destruct (sat (map _ pod_text) s) eqn:Hpod; [|done].
  apply sat_lits in Hpod as [t ->]. change (drop 3 (pod_text ++ t)) with t.
  destruct (sat (uuid_classes _ _) t) eqn:Hu; [|destruct (sat (compact_classes _) t) eqn:Hc; [|done]].
  - intros [= <-]. apply sat_split in Hu as (s1 & s2 & -> & Hl & Hs).
    change (length (uuid_classes is_sep is_hex)) with 36%nat in Hl.
    rewrite take_app_length' by done. split; [by left|by exists s2].
  - intros [= <-]. apply sat_split in Hc as (s1 & s2 & -> & Hl & Hs).
    change (length (compact_classes is_hex)) with 32%nat in Hl.
    rewrite take_app_length' by done. split; [by right|by exists s2].
Qed.

Lemma sat_app_l ps s t : sat ps s = true -> sat ps (s ++ t) = true.
Proof.
  intros (s1 & s2 & -> & Hl & Hs)%sat_split. rewrite <-(app_nil_r ps), <-app_assoc.
  by rewrite sat_app, Hs.
Qed.

Lemma pod_here_body raw post : pod_body raw -> pod_here (pod_text ++ raw ++ post) <> None.
Proof.
  intros H. unfold pod_here.
  replace (sat (map _ pod_text) (pod_text ++ raw ++ post)) with true
    by (symmetry; apply sat_lits; eauto).
  change (drop 3 (pod_text ++ raw ++ post)) with (raw ++ post).
  destruct H as [[_ H]|[_ H]]; rewrite (sat_app_l _ _ post H); [done|].
  by destruct (sat (uuid_classes _ _) _).
Qed.

Lemma first_pod_Some s raw :
  first_pod s = Some raw -> pod_body raw /\ exists pre post, s = pre ++ pod_text ++ raw ++ post.
Proof.
  induction s as [|c s IH]; cbn [first_pod].
  - by vm_compute.
  - destruct (pod_here (c :: s)) as [r|] eqn:Hp.
    + intros [= ->]. apply pod_here_Some in Hp as [Hb [post Hs]]. split; [done|].
      by exists [], post.
    + intros [Hb (pre & post & ->)]%IH. split; [done|]. by exists (c :: pre), post.
Qed.

Lemma first_pod_None s pre raw post :
  first_pod s = None -> s = pre ++ pod_text ++ raw ++ post -> ~ pod_body raw.
Proof.
  revert pre. induction s as [|c s IH]; intros pre; cbn [first_pod].
  - intros _ H. by destruct pre.
  - destruct (pod_here (c :: s)) as [r|] eqn:Hp; [done|]. intros Hf Heq Hb.
    destruct pre as [|c' pre].
    + rewrite Heq in Hp. by apply (pod_here_body _ _ Hb) in Hp.
    + injection Heq as -> Heq. by apply (IH pre).
Qed.

(** *** Normalisation *)

Definition norm_rune (r : rune) : rune :=
  let r := if r =? char_code "_" then char_code "-" else r in
  if between 65 90 r then r + 32 else r.

Lemma char_code_of_rune r : 0 <= r < 256 -> char_code (ascii_of_N (Z.to_N r)) = r.
Proof. intros H. unfold char_code. rewrite N_ascii_embedding by lia. lia. Qed.

Lemma codes_string_of_runes l :
  Forall (fun r => 0 <= r < 128) l -> codes (string_of_runes l) = l.
Proof.
  unfold codes, string_of_runes. rewrite list_ascii_of_string_of_list_ascii.
  induction 1 as [|r l Hr _ IH]; [done|]. cbn. rewrite IH. f_equal.
  apply char_code_of_rune. lia.
Qed.

Lemma codes_norm s :
  codes (ToLower (ReplaceByte s "_" "-")) = map norm_rune (codes s).
Proof.
  unfold codes, ToLower, ReplaceByte. induction s as [|c s IH]; [done|].
  cbn. f_equal; [|exact IH]. clear IH. destruct c as [[] [] [] [] [] [] [] []]; vm_compute; done.
Qed.

Lemma sat_Forall (P : rune -> Prop) ps s :
  Forall (fun p => forall c, p c = true -> P c) ps -> length s = length ps ->
  sat ps s = true -> Forall P s.
Proof.
  intros H. revert s. induction H as [|p ps Hp _ IH]; intros [|c s]; cbn; try done.
  rewrite andb_true_iff. intros [= Hl] [Hc Hs]. constructor; auto.
Qed.

Lemma uuid_classes_Forall (P : (rune -> bool) -> Prop) sep hex :
  P sep -> P hex -> Forall P (uuid_classes sep hex).
Proof. intros Hs Hh. unfold uuid_classes. repeat constructor; done. Qed.

Lemma uuid_classes_Forall2 (R : (rune -> bool) -> (rune -> bool) -> Prop) sep hex sep' hex' :
  R sep sep' -> R hex hex' -> Forall2 R (uuid_classes sep hex) (uuid_classes sep' hex').
Proof. intros Hs Hh. unfold uuid_classes. repeat constructor; done. Qed.

Lemma is_hex_range r : is_hex r = true -> 0 <= r < 128.
Proof. unfold is_hex, between. lia. Qed.
Lemma is_sep_range r : is_sep r = true -> 0 <= r < 128.
Proof. unfold is_sep. change (char_code "-") with 45. change (char_code "_") with 95. lia. Qed.
Lemma norm_hex r : is_hex r = true -> is_lower_hex (norm_rune r) = true.
Proof.
  unfold is_hex, is_lower_hex, norm_rune, between. change (char_code "_") with 95. intros H.
  replace (r =? 95) with false by lia.
  destruct ((65 <=? r) && (r <=? 90)) eqn:Hr; lia.
Qed.
Lemma norm_sep r : is_sep r = true -> is_dash (norm_rune r) = true.
Proof.
  unfold is_sep, is_dash. rewrite orb_true_iff, !Z.eqb_eq. intros [->| ->]; by vm_compute.
Qed.

Lemma pod_body_range raw : pod_body raw -> Forall (fun r => 0 <= r < 128) raw.
Proof.
  pose proof is_hex_range. pose proof is_sep_range.
  intros [[Hl Hs]|[Hl Hs]].
  - apply (sat_Forall _ (uuid_classes is_sep is_hex)); [|done..].
    by apply uuid_classes_Forall.
  - apply (sat_Forall _ (compact_classes is_hex)); [|done..].
    by apply Forall_replicate.
Qed.

Lemma length_codes s : length (codes s) = String.length s.
Proof. unfold codes. rewrite length_map. induction s as [|c s IH]; cbn; congruence. Qed.

Lemma codes_app a b : codes (a +:+ b)%string = codes a ++ codes b.
Proof. unfold codes. induction a as [|c a IH]; [done|]. rewrite append_cons. cbn. by rewrite IH. Qed.

Lemma codes_slice lo hi s : codes (slice lo hi s) = take (hi - lo) (drop lo (codes s)).
Proof.
  unfold codes, slice. generalize (hi - lo)%nat as n. clear hi.
  revert lo. induction s as [|c s IH]; intros [|lo] [|n]; cbn; try done.
  specialize (IH 0%nat n). cbn in IH. by rewrite IH.
Qed.

Lemma contains_byte_codes s c :
  contains_byte s c = existsb (fun r => r =? char_code c) (codes s).
Proof.
  unfold contains_byte, codes. induction s as [|d s IH]; [done|]. cbn.
  rewrite negb_andb, IH. f_equal. unfold char_code.
  destruct (decide (d = c)) as [->|Hne].
  - rewrite Z.eqb_refl, bool_decide_false; [done|]. by intros [].
  - rewrite bool_decide_true by done. symmetry. apply Z.eqb_neq. intros H. apply Hne.
    apply (inj Z.of_N) in H. rewrite <-(ascii_N_embedding d), <-(ascii_N_embedding c). by rewrite H.
Qed.

Lemma existsb_not_dash l :
  Forall (fun r => is_lower_hex r = true) l -> existsb (fun r => r =? char_code "-") l = false.
Proof.
  induction 1 as [|r l Hr _ IH]; [done|]. cbn. rewrite IH, orb_false_r.
  unfold is_lower_hex, between in Hr. change (char_code "-") with 45. lia.
Qed.

Lemma compact_canonical s :
  length (codes s) = 32%nat -> Forall (fun r => is_lower_hex r = true) (codes s) ->
  canonical_uid (slice 0 8 s +:+ "-" +:+ slice 8 12 s +:+ "-" +:+ slice 12 16 s +:+ "-" +:+
        slice 16 20 s +:+ "-" +:+ slice 20 32 s)%string.
Proof.
  intros Hl Hall. unfold canonical_uid. rewrite <-length_codes.
  rewrite !codes_app, !codes_slice. change (codes "-") with [45].
  split.
  - repeat (rewrite length_app || rewrite length_take || rewrite length_drop). rewrite Hl. done.
  - assert (forall m lo hi, (hi - lo)%nat = m -> (hi <= 32)%nat -> (lo <= hi)%nat ->
      length (replicate m is_lower_hex) = length (take (hi - lo) (drop lo (codes s))) /\
      sat (replicate m is_lower_hex) (take (hi - lo) (drop lo (codes s))) = true) as Hp.
    { intros m lo hi <- ? ?.
      assert (length (take (hi - lo) (drop lo (codes s))) = hi - lo)%nat as Hlen
        by (rewrite length_take, length_drop; lia).
      rewrite length_replicate, Hlen. split; [done|]. apply sat_replicate; [done|].
      by apply Forall_take, Forall_drop. }
    unfold uuid_classes.
    destruct (Hp 8%nat 0%nat 8%nat) as [L1 S1]; [lia..|].
    destruct (Hp 4%nat 8%nat 12%nat) as [L2 S2]; [lia..|].
    destruct (Hp 4%nat 12%nat 16%nat) as [L3 S3]; [lia..|].
    destruct (Hp 4%nat 16%nat 20%nat) as [L4 S4]; [lia..|].
    destruct (Hp 12%nat 20%nat 32%nat) as [L5 S5]; [lia..|].
    rewrite sat_app, S1 by exact L1. rewrite (sat_app [is_dash]) by done.
    rewrite sat_app, S2 by exact L2. rewrite (sat_app [is_dash]) by done.
    rewrite sat_app, S3 by exact L3. rewrite (sat_app [is_dash]) by done.
    rewrite sat_app, S4 by exact L4. rewrite (sat_app [is_dash]) by done.
    rewrite S5. done.
Qed.

Lemma normalise_canonical raw :
  pod_body raw -> canonical_uid (normalisePodUID (string_of_runes raw)).
Proof.
  intros Hb. pose proof (pod_body_range _ Hb) as Hrange.
  unfold normalisePodUID. cbv zeta.
  set (s := ToLower _).
  assert (codes s = map norm_rune raw) as Hs
    by (unfold s; by rewrite codes_norm, codes_string_of_runes).
  rewrite contains_byte_codes, <-length_codes, Hs, length_map.
  destruct Hb as [[Hl Hsat]|[Hl Hsat]]; rewrite Hl.
  - rewrite andb_false_r. unfold canonical_uid. rewrite <-length_codes, Hs, length_map.
    split; [done|]. eapply sat_map; [|exact Hsat].
    apply uuid_classes_Forall2; [exact norm_sep|exact norm_hex].
  - assert (Forall (fun r => is_lower_hex r = true) (map norm_rune raw)) as Hall.
    { apply (sat_replicate _ 32%nat); [by rewrite length_map|].
      eapply sat_map; [|exact Hsat]. unfold compact_classes. apply Forall2_replicate. exact norm_hex. }
    rewrite existsb_not_dash by done. cbn [negb andb].
    change (32 =? 32)%nat with true. cbv iota.
    apply compact_canonical; rewrite Hs; [by rewrite length_map|done].
Qed.

(** *** Writing a UUID into a path *)

Definition hex_group (n : nat) (g : string) : Prop :=
  String.length g = n /\ Forall (fun r => is_hex r = true) (codes g).
Definition hex_groups (gs : list string) : Prop :=
  Forall2 hex_group [8; 4; 4; 4; 12]%nat gs.

(** No [pod] followed by a hexadecimal digit. *)
Fixpoint no_pod_hex (s : list rune) : bool :=
  match s with
  | [] => true
  | _ :: s' => negb (sat (map (fun c r => r =? c) pod_text ++ [is_hex]) s) && no_pod_hex s'
  end.

(** The path a pod's cgroup has: ASCII text before the pod segment, with no other
    pod segment in it. *)
Definition quiet_prefix (pre : string) : Prop :=
  Forall (fun r => r < 0x80) (codes pre) /\ no_pod_hex (codes pre) = true.

Lemma pod_here_needs_hex s : pod_here s <> None -> sat (map (fun c r => r =? c) pod_text ++ [is_hex]) s = true.
Proof.
  unfold pod_here. destruct (sat (map _ pod_text) s) eqn:Hpod; [|done].
  apply sat_lits in Hpod as [t ->]. change (drop 3 (pod_text ++ t)) with t. intros H.
  assert (sat [is_hex] t = true) as Ht.
  { destruct t as [|c t]; [done|]. cbn in H |- *. by destruct (is_hex c). }
  rewrite sat_app by done. by rewrite Ht.
Qed.

Lemma pod_here_before t x :
  t <> [] -> no_pod_hex t = true -> pod_here (t ++ pod_text ++ x) = None.
Proof.
  intros Hne Hn. destruct (pod_here _) eqn:Hp; [|done]. exfalso.
  assert (sat (map (fun c r => r =? c) pod_text ++ [is_hex]) (t ++ pod_text ++ x) = true) as Hs
    by (apply pod_here_needs_hex; by rewrite Hp).
  destruct t as [|a [|b [|c [|d t]]]]; [done|..];
    change pod_text with [112; 111; 100] in Hs; cbn [app map sat] in Hs;
    rewrite ?andb_true_iff, ?Z.eqb_eq in Hs.
  - by destruct Hs as (_ & ? & _).
  - by destruct Hs as (_ & _ & ? & _).
  - by destruct Hs as (_ & _ & _ & ? & _).
  - destruct Hs as (-> & -> & -> & Hd & _). cbn [no_pod_hex] in Hn.
    change pod_text with [112; 111; 100] in Hn. cbn [app map sat] in Hn. by rewrite Hd in Hn.
Qed.

Lemma first_pod_prefix t s :
  no_pod_hex t = true -> first_pod (t ++ pod_text ++ s) = first_pod (pod_text ++ s).
Proof.
  induction t as [|c t IH]; intros Hn; [done|].
  pose proof (pod_here_before (c :: t) s ltac:(done) Hn) as Hp.
  cbn [no_pod_hex] in Hn. apply andb_true_iff in Hn as [_ Hn].
  cbn [app first_pod] in *. rewrite Hp. by apply IH.
Qed.

Lemma first_pod_here raw post :
  pod_here (pod_text ++ raw ++ post) = Some raw -> first_pod (pod_text ++ raw ++ post) = Some raw.
Proof. intros H. cbn [pod_text map list_ascii_of_string app first_pod] in *. by rewrite H. Qed.

Lemma string_of_runes_codes s : string_of_runes (codes s) = s.
Proof.
  unfold string_of_runes, codes. induction s as [|c s IH]; [done|]. cbn. rewrite IH. f_equal.
  unfold char_code. by rewrite N2Z.id, ascii_N_embedding.
Qed.

Lemma slice_mid lo hi s (a b c : string) :
  s = (a +:+ b +:+ c)%string -> String.length a = lo -> String.length b = (hi - lo)%nat ->
  slice lo hi s = b.
Proof.
  intros -> <- Hb. rewrite <-(string_of_runes_codes (slice _ _ _)), codes_slice, !codes_app.
  rewrite drop_app_length' by (by rewrite length_codes).
  rewrite take_app_length' by (by rewrite length_codes). apply string_of_runes_codes.
Qed.

Lemma ReplaceByte_app a b old new :
  ReplaceByte (a +:+ b)%string old new = (ReplaceByte a old new +:+ ReplaceByte b old new)%string.
Proof. induction a as [|c a IH]; [done|]. rewrite append_cons. unfold ReplaceByte in *. cbn [smap]. by rewrite IH. Qed.
Lemma ToLower_app a b : ToLower (a +:+ b)%string = (ToLower a +:+ ToLower b)%string.
Proof. induction a as [|c a IH]; [done|]. rewrite append_cons. unfold ToLower in *. cbn [smap]. by rewrite IH. Qed.

Lemma ReplaceByte_hex g new : Forall (fun r => is_hex r = true) (codes g) -> ReplaceByte g "_" new = g.
Proof.
  unfold codes, ReplaceByte. induction g as [|c g IH]; [done|]. cbn.
  intros [Hc Hg]%Forall_cons. rewrite decide_False by (intros ->; by vm_compute in Hc).
  by rewrite IH.
Qed.

Lemma length_sapp a b : String.length (a +:+ b)%string = (String.length a + String.length b)%nat.
Proof. by rewrite <-!length_codes, codes_app, length_app. Qed.
Lemma length_ToLower s : String.length (ToLower s) = String.length s.
Proof. unfold ToLower. induction s; cbn; congruence. Qed.

Section groups.
Context (g1 g2 g3 g4 g5 : string).
Hypothesis Hgs : hex_groups [g1; g2; g3; g4; g5].

Lemma group_facts :
  hex_group 8 g1 /\ hex_group 4 g2 /\ hex_group 4 g3 /\ hex_group 4 g4 /\ hex_group 12 g5.
Proof. unfold hex_groups in Hgs. rewrite !Forall2_cons in Hgs. tauto. Qed.

Let dashed := groups "-" [g1; g2; g3; g4; g5].

Lemma group_sat n g : hex_group n g -> length (replicate n is_hex) = length (codes g) /\
  sat (replicate n is_hex) (codes g) = true.
Proof.
  intros [Hl Ha]. rewrite length_replicate, length_codes, Hl. split; [done|].
  apply sat_replicate; [by rewrite length_codes|done].
Qed.

Ltac group_sats :=
  destruct group_facts as (H1 & H2 & H3 & H4 & H5);
  destruct (group_sat _ _ H1) as [L1 S1]; destruct (group_sat _ _ H2) as [L2 S2];
  destruct (group_sat _ _ H3) as [L3 S3]; destruct (group_sat _ _ H4) as [L4 S4];
  destruct (group_sat _ _ H5) as [L5 S5];
  destruct H1 as [N1 F1], H2 as [N2 F2], H3 as [N3 F3], H4 as [N4 F4], H5 as [N5 F5].

Lemma separated_body sep post :
  sep = "-" \/ sep = "_" ->
  pod_here (pod_text ++ codes (groups sep [g1; g2; g3; g4; g5]) ++ post)
  = Some (codes (groups sep [g1; g2; g3; g4; g5])).
Proof.
  intros Hsep. group_sats. set (raw := codes _).
  assert (length raw = 36%nat) as Hlen.
  { unfold raw. rewrite length_codes. cbn [groups foldl]. rewrite !length_sapp, N1, N2, N3, N4, N5.
    by destruct Hsep as [-> | ->]. }
  assert (sat [is_sep] (codes sep) = true /\ length (codes sep) = 1%nat) as [Hs Hs1]
    by (destruct Hsep as [-> | ->]; by vm_compute).
  assert (sat (uuid_classes is_sep is_hex) raw = true) as Hsat.
  { unfold raw. cbn [groups foldl]. rewrite !codes_app, <-!app_assoc. unfold uuid_classes.
    rewrite sat_app, S1 by exact L1. rewrite (sat_app [is_sep]), Hs by done.
    rewrite sat_app, S2 by exact L2. rewrite (sat_app [is_sep]), Hs by done.
    rewrite sat_app, S3 by exact L3. rewrite (sat_app [is_sep]), Hs by done.
    rewrite sat_app, S4 by exact L4. rewrite (sat_app [is_sep]), Hs by done. by rewrite S5. }
  unfold pod_here.
  replace (sat (map _ pod_text) (pod_text ++ raw ++ post)) with true
    by (symmetry; apply sat_lits; eauto).
  change (drop 3 (pod_text ++ raw ++ post)) with (raw ++ post).
  rewrite (sat_app_l _ _ post Hsat). by rewrite take_app_length'.
Qed.

Lemma compact_body post :
  pod_here (pod_text ++ codes (groups "" [g1; g2; g3; g4; g5]) ++ post)
  = Some (codes (groups "" [g1; g2; g3; g4; g5])).
Proof.
  group_sats. set (raw := codes _).
  assert (raw = codes g1 ++ codes g2 ++ codes g3 ++ codes g4 ++ codes g5) as Hraw.
  { unfold raw. cbn [groups foldl]. rewrite !append_nil_l, !codes_app. by rewrite <-!app_assoc. }
  assert (length raw = 32%nat) as Hlen.
  { rewrite Hraw. rewrite !length_app, !length_codes. lia. }
  assert (sat (compact_classes is_hex) raw = true) as Hsat.
  { apply sat_replicate; [done|]. rewrite Hraw. by rewrite !Forall_app. }
  unfold pod_here.
  replace (sat (map _ pod_text) (pod_text ++ raw ++ post)) with true
    by (symmetry; apply sat_lits; eauto).
  change (drop 3 (pod_text ++ raw ++ post)) with (raw ++ post).
  replace (sat (uuid_classes is_sep is_hex) (raw ++ post)) with false.
  - rewrite (sat_app_l _ _ post Hsat). by rewrite take_app_length'.
  - symmetry. rewrite Hraw. unfold uuid_classes. rewrite <-!app_assoc.
    rewrite sat_app by exact L1. destruct (codes g2) as [|c l]; [done|].
    apply Forall_cons in F2 as [Hc _]. cbn [app sat].
    replace (is_sep c) with false; [by rewrite andb_false_r|].
    unfold is_hex, between, is_sep in *. change (char_code "-") with 45.
    change (char_code "_") with 95. lia.
Qed.

Lemma compact_slices :
  let s := ToLower (g1 +:+ g2 +:+ g3 +:+ g4 +:+ g5)%string in
  (slice 0 8 s +:+ "-" +:+ slice 8 12 s +:+ "-" +:+ slice 12 16 s +:+ "-" +:+
   slice 16 20 s +:+ "-" +:+ slice 20 32 s)%string = ToLower dashed.
Proof.
  group_sats. cbv zeta. rewrite !ToLower_app.
  set (h1 := ToLower g1). set (h2 := ToLower g2). set (h3 := ToLower g3).
  set (h4 := ToLower g4). set (h5 := ToLower g5).
  assert (String.length h1 = 8%nat /\ String.length h2 = 4%nat /\ String.length h3 = 4%nat /\
    String.length h4 = 4%nat /\ String.length h5 = 12%nat) as (M1 & M2 & M3 & M4 & M5)
    by (unfold h1, h2, h3, h4, h5; by rewrite !length_ToLower).
  rewrite (slice_mid 0 8 _ "" h1 (h2 +:+ h3 +:+ h4 +:+ h5)) by done.
  rewrite (slice_mid 8 12 _ h1 h2 (h3 +:+ h4 +:+ h5)) by done.
  rewrite (slice_mid 12 16 _ (h1 +:+ h2) h3 (h4 +:+ h5))
    by (rewrite ?append_assoc, ?length_sapp, ?M1, ?M2; done).
  rewrite (slice_mid 16 20 _ (h1 +:+ h2 +:+ h3) h4 h5)
    by (rewrite ?append_assoc, ?length_sapp, ?M1, ?M2, ?M3; done).
  rewrite (slice_mid 20 32 _ (h1 +:+ h2 +:+ h3 +:+ h4) h5 "")
    by (rewrite ?append_assoc, ?append_nil_r, ?length_sapp, ?M1, ?M2, ?M3, ?M4; done).
  unfold dashed. cbn [groups foldl]. rewrite !ToLower_app, !append_assoc. done.
Qed.

Lemma lower_hex_codes g :
  Forall (fun r => is_hex r = true) (codes g) ->
  Forall (fun r => is_lower_hex r = true) (codes (ToLower g)).
Proof.
  intros Hg. rewrite <-(ReplaceByte_hex g "-") by done. rewrite codes_norm.
  apply Forall_map. eapply Forall_impl; [exact Hg|]. exact norm_hex.
Qed.

Lemma normalise_groups sep :
  sep ∈ ["-"; "_"; ""] -> normalisePodUID (groups sep [g1; g2; g3; g4; g5]) = ToLower dashed.
Proof.
  intros Hsep. group_sats. unfold normalisePodUID, dashed. cbv zeta. cbn [groups foldl].
  rewrite !ReplaceByte_app, !(ReplaceByte_hex g1), !(ReplaceByte_hex g2), !(ReplaceByte_hex g3),
    !(ReplaceByte_hex g4), !(ReplaceByte_hex g5) by done.
  rewrite length_ToLower, !length_sapp, N1, N2, N3, N4, N5.
  rewrite !list_elem_of_In in Hsep. destruct Hsep as [<-|[<-|[<-|[]]]].
  - change (ReplaceByte "-" "_" "-") with "-". cbn [String.length].
    by rewrite andb_false_r.
  - change (ReplaceByte "_" "_" "-") with "-". cbn [String.length].
    by rewrite andb_false_r.
  - change (ReplaceByte "" "_" "-") with "". cbn [String.length].
    rewrite !append_nil_l, contains_byte_codes, existsb_not_dash.
    + cbn [negb andb]. change (_ =? 32)%nat with true. cbv iota.
      rewrite !append_assoc. etrans; [apply compact_slices|].
      unfold dashed. cbn [groups foldl]. by rewrite !append_assoc.
    + unfold ToLower. change (smap lower ?s) with (ToLower s). rewrite !ToLower_app, !codes_app.
      rewrite !Forall_app. split_and!; by apply lower_hex_codes.
Qed.
End groups.

Lemma runes_quiet pre body post :
  quiet_prefix pre -> Forall (fun r => 0 <= r < 128) (codes body) ->
  runes (pre +:+ "pod" +:+ body +:+ post)%string =
  codes pre ++ pod_text ++ codes body ++ runes post.
Proof.
  intros [Hpre _] Hbody. unfold runes.
  change (map char_code (list_ascii_of_string ?s)) with (codes s).
  rewrite !codes_app. rewrite utf8_runes_ascii_app by done. f_equal.
  rewrite utf8_runes_ascii_app by (by repeat constructor). f_equal.
  rewrite utf8_runes_ascii_app; [done|]. eapply Forall_impl; [exact Hbody|]. simpl. lia.
Qed.

(** *** The path of a process *)

Lemma split_path_app a b acc :
  contains_byte a "/" = false -> split_path (a +:+ b)%string acc = split_path b (srev_append a acc).
Proof.
  unfold contains_byte. rewrite negb_false_iff. revert acc.
  induction a as [|c a IH]; intros acc; [done|]. rewrite append_cons. cbn.
  rewrite andb_true_iff, bool_decide_eq_true. intros [Hc Ha].
  rewrite decide_False by done. by apply IH.
Qed.

Lemma srev_append_append a b acc : srev_append (srev_append a acc) b = srev_append acc (a +:+ b)%string.
Proof. revert acc b. induction a as [|c a IH]; intros acc b; [done|]. cbn. by rewrite IH. Qed.

Lemma srev_involutive a : srev (srev a) = a.
Proof. unfold srev. rewrite srev_append_append. cbn. apply append_nil_r. Qed.

(** An element that [Clean] keeps. *)
Lemma clean_step_keep d stack :
  d <> "" -> sforallb is_digit_char d = true -> clean_step true stack d = d :: stack.
Proof.
  intros Hne Hd. unfold clean_step. rewrite !bool_decide_false; [done| |].
  - by intros ->.
  - by intros [-> | ->].
Qed.

Lemma Join_proc z :
  Join ["/proc"; FormatUint z; "cgroup"] = ("/proc/" +:+ FormatUint z +:+ "/cgroup")%string.
Proof.
  pose proof (FormatUint_nonempty z) as Hne. pose proof (FormatUint_digits z) as Hd.
  assert (contains_byte (FormatUint z) "/" = false) as Hs by (by apply FormatUint_no).
  revert Hne Hd Hs. generalize (FormatUint z) as d. intros d Hne Hd Hs. unfold Join.
  rewrite filter_cons_True by done. rewrite filter_cons_True by done.
  change (filter (fun e => e <> "") ["cgroup"]) with ["cgroup"].
  cbn [join_elems foldl]. rewrite append_assoc. unfold Clean.
  rewrite !append_assoc.
  change ("/proc" +:+ "/" +:+ d +:+ "/" +:+ "cgroup")%string with
    (String "/" ("proc" +:+ String "/" (d +:+ "/cgroup")))%string.
  cbv iota beta. rewrite !(bool_decide_true ("/"%char = "/"%char)) by done. cbv iota.
  cbn [split_path]. rewrite decide_True by done.
  rewrite split_path_app by done. cbn [split_path]. rewrite decide_True by done.
  rewrite split_path_app by done.
  change (split_path "/cgroup" (srev_append d "")) with [srev (srev d); "cgroup"].
  rewrite srev_involutive. cbn [foldl].
  change (clean_step true [] (srev "")) with (@nil string).
  change (clean_step true [] (srev (srev_append "proc" ""))) with ["proc"].
  rewrite (clean_step_keep d) by done.
  change (clean_step true [d; "proc"] "cgroup") with ["cgroup"; d; "proc"].
  cbn [rev app join_elems foldl]. by rewrite !append_assoc.
Qed.

(** *** Properties *)

(** C40: [ParsePodUID] finds a pod segment whenever the text has one, and whatever it
    returns comes from such a segment and is a canonical lower-case UUID. *)
Theorem ParsePodUID_sound_complete cgroup :
  match ParsePodUID cgroup with
  | Some uid => canonical_uid uid /\
      exists pre raw post, runes cgroup = pre ++ pod_text ++ raw ++ post /\ pod_body raw /\
        uid = normalisePodUID (string_of_runes raw)
  | None => forall pre raw post, runes cgroup = pre ++ pod_text ++ raw ++ post -> ~ pod_body raw
  end.
Proof.
  rewrite ParsePodUID_first. destruct (first_pod (runes cgroup)) as [raw|] eqn:Hf; cbn.
  - apply first_pod_Some in Hf as [Hb (pre & post & Hs)].
    split; [by apply normalise_canonical|]. by exists pre, raw, post.
  - intros pre raw post Hs. by apply (first_pod_None _ pre raw post Hf).
Qed.

(** The three spellings of a pod UID in a cgroup path, dashed, escaped to
    underscores and compact, in either case, all read back as the same
    lower-case dashed UUID, whatever follows them. *)
Lemma ParsePodUID_roundtrip sep pre post gs
    (Hsep : sep ∈ ["-"; "_"; ""]) (Hpre : quiet_prefix pre) (Hgs : hex_groups gs) :
  ParsePodUID (pre +:+ "pod" +:+ groups sep gs +:+ post)%string = Some (ToLower (groups "-" gs)).
Proof.
  destruct gs as [|g1 [|g2 [|g3 [|g4 [|g5 [|g6 gs]]]]]]; try by apply Forall2_length in Hgs.
  assert (pod_here (pod_text ++ codes (groups sep [g1; g2; g3; g4; g5]) ++ runes post)
          = Some (codes (groups sep [g1; g2; g3; g4; g5]))) as Hhere.
  { rewrite !list_elem_of_In in Hsep. destruct Hsep as [<-|[<-|[<-|[]]]];
      [apply separated_body; auto|apply separated_body; auto|by apply compact_body]. }
  rewrite ParsePodUID_first, runes_quiet; [|done|].
  - destruct Hpre as [_ Hquiet]. rewrite first_pod_prefix, first_pod_here by done. cbn [fmap option_fmap option_map].
    by rewrite string_of_runes_codes, normalise_groups.
  - apply pod_here_Some in Hhere as [Hb _]. by apply pod_body_range.
Qed.
Lemma ParsePodUID_roundtrip_witness :
  ParsePodUID "0::/kubepods.slice/kubepods-burstable-pod0123abcd_4567_89ab_cdef_0123456789AB.slice"
  = Some "0123abcd-4567-89ab-cdef-0123456789ab".
Proof.
  apply (ParsePodUID_roundtrip "_" "0::/kubepods.slice/kubepods-burstable-" ".slice"
    ["0123abcd"; "4567"; "89ab"; "cdef"; "0123456789AB"]).
  - apply list_elem_of_In. simpl. auto.
  - split; [|vm_compute; reflexivity]. vm_compute. repeat constructor.
  - repeat constructor.
Defined.

(** A UID is looked up only for a real process: PID 0 and a process whose
    [cgroup] file cannot be read have none, and every other PID gets the one its
    file under [/proc] holds. *)
Lemma PodUIDForPID_spec ReadFile pid :
  PodUIDForPID ReadFile "/proc" pid =
  (if decide (pid = 0) then None
   else ReadFile ("/proc/" +:+ FormatUint pid +:+ "/cgroup")%string ≫= ParsePodUID).
Proof.
  unfold PodUIDForPID. case_decide as Hp; [by rewrite Hp|].
  replace (pid =? 0) with false by lia. unfold formatPID. rewrite Join_proc.
  by destruct (ReadFile _).
Qed.
