(* ===== verification/Resolver.v ===== *)
(** * Resolver: addresses to workloads (internal/resolver/resolver.go)

    The Go interfaces [Store], [UIDStore] (pid.go), [PortStore] and [OwnerLookup]
    are classes, with the laws their clients rely on; [Cache] is the store fed by
    the watch layer and implements the first three.  Its theorem is that lookups
    return the last thing written about a key, however the writes to the three
    indexes interleave; [ResolveTopOwner] is the bounded walk up the owners. *)

From S2P Require Import Prelude Golang Netip Model.
Open Scope string_scope.
Open Scope list_scope.
Open Scope Z_scope.

(** ** Interfaces *)

Class Store (T : Type) := LookupIP : T -> Addr -> option Workload.
Class UIDStore (T : Type) := LookupUID : T -> string -> option Workload.
Class PortStore (T : Type) := LookupPort : T -> Addr -> Z -> option string.
Class OwnerLookup (T : Type) := GetController : T -> string -> string -> string -> option (string * string).

(** An IPv4-mapped address names the endpoint of its IPv4 form. *)
Class StoreLaws (T : Type) `{Store T} :=
  LookupIP_Unmap : forall (s : T) ip, LookupIP s (Unmap ip) = LookupIP s ip.
Class PortStoreLaws (T : Type) `{PortStore T} := {
  LookupPort_Unmap : forall (s : T) ip p, LookupPort s (Unmap ip) p = LookupPort s ip p;
  LookupPort_declared : forall (s : T) ip p, LookupPort s ip p <> Some ""
}.

(** ** Cache *)

Record portKey := mkPortKey { pkIP : Addr; pkPort : Z }.

#[export] Instance portKey_eq_dec : EqDecision portKey.
Proof. solve_decision. Defined.
#[export] Instance portKey_countable : Countable portKey.
Proof.
  refine (inj_countable (fun k => (pkIP k, pkPort k)) (fun '(a, p) => Some (mkPortKey a p)) _).
  by intros [].
Defined.

Record Cache := mkCache {
  byIP : gmap Addr Workload;
  byUID : gmap string Workload;
  byPort : gmap portKey string
}.

Definition NewCache : Cache := mkCache ∅ ∅ ∅.

Definition cacheLookupIP (c : Cache) (ip : Addr) : option Workload := byIP c !! Unmap ip.
Definition Upsert (c : Cache) (ip : Addr) (w : Workload) : Cache :=
  mkCache (<[Unmap ip := w]> (byIP c)) (byUID c) (byPort c).
Definition Delete (c : Cache) (ip : Addr) : Cache :=
  mkCache (delete (Unmap ip) (byIP c)) (byUID c) (byPort c).
Definition UpsertUID (c : Cache) (uid : string) (w : Workload) : Cache :=
  mkCache (byIP c) (<[uid := w]> (byUID c)) (byPort c).
Definition cacheLookupUID (c : Cache) (uid : string) : option Workload := byUID c !! uid.
Definition DeleteUID (c : Cache) (uid : string) : Cache :=
  mkCache (byIP c) (delete uid (byUID c)) (byPort c).
Definition cacheLookupPort (c : Cache) (ip : Addr) (port : Z) : option string :=
  byPort c !! mkPortKey (Unmap ip) port.
Definition UpsertPort (c : Cache) (ip : Addr) (port : Z) (l7 : string) : Cache :=
  let k := mkPortKey (Unmap ip) port in
  if decide (l7 = "") then mkCache (byIP c) (byUID c) (delete k (byPort c))
  else mkCache (byIP c) (byUID c) (<[k := l7]> (byPort c)).
Definition DeletePort (c : Cache) (ip : Addr) (port : Z) : Cache :=
  mkCache (byIP c) (byUID c) (delete (mkPortKey (Unmap ip) port) (byPort c)).
Definition Len (c : Cache) : nat := size (byIP c).

#[export] Instance Cache_Store : Store Cache := cacheLookupIP.
#[export] Instance Cache_UIDStore : UIDStore Cache := cacheLookupUID.
#[export] Instance Cache_PortStore : PortStore Cache := cacheLookupPort.

(** ** Resolution *)

Definition WorkloadForIP {T} `{Store T} (store : T) (ip : Addr) : Workload :=
  match LookupIP store ip with
  | Some w => w
  | None => mkWorkload (AddrString ip) "" KindExternal
  end.

Definition maxOwnerDepth : nat := 10.

Fixpoint owner_walk {T} `{OwnerLookup T} (n : nat) (kind namespace name : string) (l : T)
    : string * string :=
  match n with
  | O => (kind, name)
  | S n =>
      match GetController l kind namespace name with
      | None => (kind, name)
      | Some (ownerKind, ownerName) => owner_walk n ownerKind namespace ownerName l
      end
  end.
Definition ResolveTopOwner {T} `{OwnerLookup T} (kind namespace name : string) (l : T) : Workload :=
  let '(kind, name) := owner_walk maxOwnerDepth kind namespace name l in
  mkWorkload name namespace kind.

(** ** Specification *)

(** The writes the watch layer issues. *)
Inductive write :=
| WUpsert (ip : Addr) (w : Workload)
| WDelete (ip : Addr)
| WUpsertUID (uid : string) (w : Workload)
| WDeleteUID (uid : string)
| WUpsertPort (ip : Addr) (port : Z) (l7 : string)
| WDeletePort (ip : Addr) (port : Z).
Definition apply_write (c : Cache) (x : write) : Cache :=
  match x with
  | WUpsert ip w => Upsert c ip w
  | WDelete ip => Delete c ip
  | WUpsertUID uid w => UpsertUID c uid w
  | WDeleteUID uid => DeleteUID c uid
  | WUpsertPort ip port l7 => UpsertPort c ip port l7
  | WDeletePort ip port => DeletePort c ip port
  end.

(** What a write says about one key of one index, if anything. *)
Definition says_ip (ip : Addr) (x : write) : option (option Workload) :=
  match x with
  | WUpsert ip' w => if decide (Unmap ip' = Unmap ip) then Some (Some w) else None
  | WDelete ip' => if decide (Unmap ip' = Unmap ip) then Some None else None
  | _ => None
  end.
Definition says_uid (uid : string) (x : write) : option (option Workload) :=
  match x with
  | WUpsertUID uid' w => if decide (uid' = uid) then Some (Some w) else None
  | WDeleteUID uid' => if decide (uid' = uid) then Some None else None
  | _ => None
  end.
Definition says_port (ip : Addr) (port : Z) (x : write) : option (option string) :=
  match x with
  | WUpsertPort ip' port' l7 =>
      if decide (Unmap ip' = Unmap ip /\ port' = port)
      then Some (if decide (l7 = "") then None else Some l7) else None
  | WDeletePort ip' port' =>
      if decide (Unmap ip' = Unmap ip /\ port' = port) then Some None else None
  | _ => None
  end.

(** The last word in a log of writes, oldest first. *)
Definition last_word {A} (says : write -> option (option A)) (log : list write) : option A :=
  default None (foldl (fun acc x => match says x with Some v => Some v | None => acc end) None log).

(** [n] steps up the owners. *)
Inductive owner_steps {T} `{OwnerLookup T} (l : T) (namespace : string)
    : nat -> string * string -> string * string -> Prop :=
| owner_zero o : owner_steps l namespace 0 o o
| owner_step n kind name o o' :
    GetController l kind namespace name = Some o ->
    owner_steps l namespace n o o' ->
    owner_steps l namespace (S n) (kind, name) o'.

(** ** Lemmas *)

#[export] Instance Cache_StoreLaws : StoreLaws Cache.
Proof. intros c ip. unfold LookupIP, Cache_Store, cacheLookupIP. by rewrite Unmap_idemp. Qed.

Lemma last_word_snoc {A} (says : write -> option (option A)) log x :
  last_word says (log ++ [x]) = match says x with Some v => v | None => last_word says log end.
Proof. unfold last_word. rewrite foldl_app. cbn. by destruct (says x). Qed.

Definition run (log : list write) : Cache := foldl apply_write NewCache log.

Lemma run_snoc log x : run (log ++ [x]) = apply_write (run log) x.
Proof. unfold run. by rewrite foldl_app. Qed.

Lemma lookup_insert_case {K A} `{Countable K} (m : gmap K A) k k' x :
  <[k := x]> m !! k' = if decide (k = k') then Some x else m !! k'.
Proof. apply lookup_insert. Qed.

Lemma lookup_delete_case {K A} `{Countable K} (m : gmap K A) k k' :
  delete k m !! k' = if decide (k = k') then None else m !! k'.
Proof. apply lookup_delete. Qed.

Lemma apply_write_ip c x ip :
  LookupIP (apply_write c x) ip =
  match says_ip ip x with Some v => v | None => LookupIP c ip end.
Proof.
  unfold LookupIP, Cache_Store, cacheLookupIP. destruct x; cbn; try done.
  - rewrite lookup_insert_case. by case_decide.
  - rewrite lookup_delete_case. by case_decide.
  - unfold UpsertPort. by case_decide.
Qed.

Lemma apply_write_uid c x uid :
  LookupUID (apply_write c x) uid =
  match says_uid uid x with Some v => v | None => LookupUID c uid end.
Proof.
  unfold LookupUID, Cache_UIDStore, cacheLookupUID. destruct x; cbn; try done.
  - rewrite lookup_insert_case. by case_decide.
  - rewrite lookup_delete_case. by case_decide.
  - unfold UpsertPort. by case_decide.
Qed.

Lemma portKey_eq ip port ip' port' :
  mkPortKey ip port = mkPortKey ip' port' <-> ip = ip' /\ port = port'.
Proof. split; [by intros [= -> ->]|by intros [-> ->]]. Qed.

Lemma apply_write_port c x ip port :
  LookupPort (apply_write c x) ip port =
  match says_port ip port x with Some v => v | None => LookupPort c ip port end.
Proof.
  unfold LookupPort, Cache_PortStore, cacheLookupPort. destruct x; cbn; try done.
  - unfold UpsertPort. cbv zeta. case_decide; cbn;
      rewrite ?lookup_delete_case, ?lookup_insert_case;
      rewrite !(decide_ext _ _ _ _ (portKey_eq _ _ _ _)); by case_decide.
  - rewrite lookup_delete_case, (decide_ext _ _ _ _ (portKey_eq _ _ _ _)). by case_decide.
Qed.

(** The resolver cache refines its log: after any sequence of writes to the
    three indexes, each lookup returns what the last write about its key said,
    IPv4-mapped keys count as their IPv4 form, and no blank protocol is ever
    indexed. *)
Lemma Cache_refines_log log ip uid port :
  LookupIP (run log) ip = last_word (says_ip ip) log /\
  LookupUID (run log) uid = last_word (says_uid uid) log /\
  LookupPort (run log) ip port = last_word (says_port ip port) log /\
  LookupIP (run log) (Unmap ip) = LookupIP (run log) ip /\
  LookupPort (run log) (Unmap ip) port = LookupPort (run log) ip port /\
  LookupPort (run log) ip port <> Some "".
Proof.
  assert (forall p, LookupPort (run log) ip p = last_word (says_port ip p) log) as Hport.
  { intros p. induction log as [|x log IH] using rev_ind; [done|].
    by rewrite run_snoc, last_word_snoc, apply_write_port, IH. }
  split_and!.
  - clear Hport. induction log as [|x log IH] using rev_ind; [done|].
    by rewrite run_snoc, last_word_snoc, apply_write_ip, IH.
  - clear Hport. induction log as [|x log IH] using rev_ind; [done|].
    by rewrite run_snoc, last_word_snoc, apply_write_uid, IH.
  - apply Hport.
  - apply LookupIP_Unmap.
  - unfold LookupPort, Cache_PortStore, cacheLookupPort. by rewrite Unmap_idemp.
  - rewrite Hport. clear Hport. induction log as [|x log IH] using rev_ind; [done|].
    rewrite last_word_snoc. destruct x; cbn; repeat case_decide; naive_solver.
Qed.

(** [ResolveTopOwner] ends on the object a bounded number of owners up: either
    it has no controller, or exactly [maxOwnerDepth] steps were taken, so cyclic
    ownership terminates; the namespace is the starting object's. *)
Lemma ResolveTopOwner_spec {T} `{OwnerLookup T} kind namespace name (l : T) :
  let w := ResolveTopOwner kind namespace name l in
  WlNamespace w = namespace /\
  exists n, (n <= maxOwnerDepth)%nat /\
    owner_steps l namespace n (kind, name) (WlKind w, WlName w) /\
    (GetController l (WlKind w) namespace (WlName w) = None \/ n = maxOwnerDepth).
Proof.
  cbv zeta. unfold ResolveTopOwner. generalize maxOwnerDepth as m. intros m.
  revert kind name. induction m as [|m IH]; intros kind name; cbn [owner_walk].
  - split; [done|]. exists 0%nat. split_and!; [done|constructor|by right].
  - destruct (GetController l kind namespace name) as [[k n]|] eqn:Ho.
    + specialize (IH k n). destruct (owner_walk m k namespace n l) as [k' n'].
      destruct IH as (_ & j & Hj & Hs & Hend). split; [done|]. exists (S j).
      split_and!; [lia|by econstructor|]. destruct Hend as [? | ->]; auto.
    + split; [done|]. exists 0%nat. split_and!; [lia|constructor|by left].
Qed.
