(* ===== verification/Decode.v ===== *)
(** * Decode: package [internal/decode]

    [Decode] turns the probe's 59-byte connection record into an event,
    [DecodeDNS] turns a captured DNS message into address answers.  The C side's
    record ([struct conn_event] of bpf/sniffer.c) and its packed layout are
    modelled as well, so that the contract between the two is a round trip.
    The DNS message parser is a third-party package: it is the class
    [DNSParser], with the documented behaviour the loop relies on stated by
    [DNSParserLaws]. *)

From stdpp Require Import vector.
From S2P Require Import Prelude Golang Netip Model.
Open Scope string_scope.
Open Scope list_scope.
Open Scope Z_scope.

(** ** Connection records *)

Definition EventSize : nat := 59.

Definition familyIPv4 : Z := 2.
Definition familyIPv6 : Z := 10.

Definition offSaddr : nat := 0.
Definition offDaddr : nat := 16.
Definition offSport : nat := 32.
Definition offDport : nat := 34.
Definition offFamily : nat := 36.
Definition offProtocol : nat := 37.
Definition offPID : nat := 38.
Definition offComm : nat := 42.
Definition commLen : nat := 16.
Definition offOutbound : nat := 58.

Inductive DecodeError (P : Type) : Type :=
| ErrShortEvent
| ErrUnknownFamily
| ErrNotDNSAnswer
| ErrBadDNSLength
| ErrParser (e : P).
Arguments ErrShortEvent {P}.
Arguments ErrUnknownFamily {P}.
Arguments ErrNotDNSAnswer {P}.
Arguments ErrBadDNSLength {P}.
Arguments ErrParser {P} e.

(** [b[off:off+n]] and [b[off]]; the length check of [Decode] makes every use
    in range. *)
Definition slice (off n : nat) (b : list byte) : list byte := take n (drop off b).
Definition byte_at (off : nat) (b : list byte) : byte := nth off b x00.

Definition decodeAddr {P} (raw : list byte) (family : Z) : result (DecodeError P) Addr :=
  if family =? familyIPv4 then Ok (AddrFrom4 (take 4 raw))
  else if family =? familyIPv6 then Ok (Unmap (AddrFrom16 (take 16 raw)))
  else Err ErrUnknownFamily.

Fixpoint decodeComm (raw : list byte) : string :=
  match raw with
  | [] => ""
  | c :: raw => if decide (c = x00) then "" else String (ascii_of_byte c) (decodeComm raw)
  end.

Definition Decode {P} (b : list byte) : result (DecodeError P) ConnectionEvent :=
  if (length b <? EventSize)%nat then Err ErrShortEvent
  else
    let family := byteZ (byte_at offFamily b) in
    src ← decodeAddr (slice offSaddr 16 b) family;
    dst ← decodeAddr (slice offDaddr 16 b) family;
    mret (mkEvent src dst
      (be_Z (slice offSport 2 b)) (be_Z (slice offDport 2 b))
      (byteZ (byte_at offProtocol b)) (le_Z (slice offPID 4 b))
      (decodeComm (slice offComm commLen b))
      (bool_decide (byte_at offOutbound b <> x00)) "" "").

(** The record of the C side, and the bytes its packed layout puts in the ring
    buffer: addresses as given, ports in network order, pid in little-endian
    host order. *)
Record conn_event := mkConnEvent {
  ce_saddr : list byte;
  ce_daddr : list byte;
  ce_sport : Z;
  ce_dport : Z;
  ce_family : Z;
  ce_protocol : Z;
  ce_pid : Z;
  ce_comm : list byte;
  ce_outbound : bool
}.

Definition conn_event_bytes (e : conn_event) : list byte :=
  ce_saddr e ++ ce_daddr e ++ be_bytes 2 (ce_sport e) ++ be_bytes 2 (ce_dport e) ++
  [byte_of_Z (ce_family e); byte_of_Z (ce_protocol e)] ++ le_bytes 4 (ce_pid e) ++
  ce_comm e ++ [if ce_outbound e then x01 else x00].

(** The field widths of the C struct. *)
Record wf_conn_event (e : conn_event) : Prop := {
  wce_saddr : length (ce_saddr e) = 16%nat;
  wce_daddr : length (ce_daddr e) = 16%nat;
  wce_comm : length (ce_comm e) = 16%nat;
  wce_sport : 0 <= ce_sport e < 2 ^ 16;
  wce_dport : 0 <= ce_dport e < 2 ^ 16;
  wce_family : 0 <= ce_family e < 2 ^ 8;
  wce_protocol : 0 <= ce_protocol e < 2 ^ 8;
  wce_pid : 0 <= ce_pid e < 2 ^ 32
}.

(** ** DNS records *)

Definition dnsOffPayload : nat := 2.
Definition dnsMaxPayload : nat := 512.
Definition DNSEventSize : nat := dnsOffPayload + dnsMaxPayload.

Record DNSHeader := mkDNSHeader { Response : bool; RCode : Z }.
Record ResourceHeader := mkResourceHeader { RHType : Z; RHTTL : Z }.

Definition RCodeSuccess : Z := 0.
Definition TypeA : Z := 1.
Definition TypeAAAA : Z := 28.

(** [dnsmessage.Parser]: a cursor over a message.  A failed call ends every
    use of the cursor, so only successful calls return one. *)
Class DNSParser := {
  parser : Type;
  parse_error : Type;
  parser_Start : list byte -> result parse_error (DNSHeader * parser);
  parser_AllQuestions : parser -> result parse_error (list string * parser);
  parser_AnswerHeader : parser -> result parse_error (ResourceHeader * parser);
  parser_AResource : parser -> result parse_error (vec byte 4 * parser);
  parser_AAAAResource : parser -> result parse_error (vec byte 16 * parser);
  parser_SkipAnswer : parser -> result parse_error parser
}.

(** Documented behaviour: the answer section holds as many records as the
    16-bit ANCOUNT field says, [AnswerHeader] fails with [ErrSectionDone] after
    the last, and reading or skipping a record moves past it. *)
Class DNSParserLaws `{DNSParser} := {
  remaining : parser -> nat;
  remaining_Start msg h p : parser_Start msg = Ok (h, p) -> Z.of_nat (remaining p) < 2 ^ 16;
  remaining_AllQuestions p qs p' :
    parser_AllQuestions p = Ok (qs, p') -> remaining p' = remaining p;
  remaining_AnswerHeader p h p' :
    parser_AnswerHeader p = Ok (h, p') -> (0 < remaining p)%nat /\ remaining p' = remaining p;
  remaining_AResource p r p' :
    parser_AResource p = Ok (r, p') -> (remaining p' < remaining p)%nat;
  remaining_AAAAResource p r p' :
    parser_AAAAResource p = Ok (r, p') -> (remaining p' < remaining p)%nat;
  remaining_SkipAnswer p p' :
    parser_SkipAnswer p = Ok p' -> (remaining p' < remaining p)%nat
}.

Definition normalizeName (n : string) : string := ToLower (TrimSuffixByte n ".").

Section DecodeDNS.
Context `{DNSParser}.

(** One iteration of the answer loop: stop with what was parsed, or go on with
    the cursor past the record and the answer it holds, if any. *)
Definition answer_step (name : string) (p : parser) : option (option DNSAnswer * parser) :=
  match parser_AnswerHeader p with
  | Err _ => None
  | Ok (rh, p) =>
      if RHType rh =? TypeA then
        match parser_AResource p with
        | Err _ => None
        | Ok (r, p) =>
            Some (Some (mkDNSAnswer name (AddrFrom4 (vec_to_list r)) (RHTTL rh)), p)
        end
      else if RHType rh =? TypeAAAA then
        match parser_AAAAResource p with
        | Err _ => None
        | Ok (r, p) =>
            Some (Some (mkDNSAnswer name (Unmap (AddrFrom16 (vec_to_list r))) (RHTTL rh)), p)
        end
      else match parser_SkipAnswer p with Err _ => None | Ok p => Some (None, p) end
  end.

Fixpoint answer_loop (fuel : nat) (name : string) (p : parser) (out : list DNSAnswer)
    : list DNSAnswer :=
  match fuel with
  | O => out
  | S fuel =>
      match answer_step name p with
      | None => out
      | Some (None, p) => answer_loop fuel name p out
      | Some (Some a, p) => answer_loop fuel name p (out ++ [a])
      end
  end.

(** Enough for every message: ANCOUNT has 16 bits. *)
Definition answer_fuel : nat := Z.to_nat (2 ^ 16).

(** The message itself, once the record's envelope is off. *)
Definition decode_message (msg : list byte)
    : result (DecodeError parse_error) (list DNSAnswer) :=
  match parser_Start msg with
  | Err e => Err (ErrParser e)
  | Ok (h, p) =>
      if negb (Response h) || negb (RCode h =? RCodeSuccess) then Err ErrNotDNSAnswer
      else
        match parser_AllQuestions p with
        | Err e => Err (ErrParser e)
        | Ok ([q], p) =>
            let name := normalizeName q in
            if decide (name = "") then Err ErrNotDNSAnswer
            else Ok (answer_loop answer_fuel name p [])
        | Ok (_, _) => Err ErrNotDNSAnswer
        end
  end.

Definition DecodeDNS (b : list byte) : result (DecodeError parse_error) (list DNSAnswer) :=
  if (length b <? DNSEventSize)%nat then Err ErrShortEvent
  else
    let n := le_Z (take dnsOffPayload b) in
    if (n =? 0) || (Z.of_nat dnsMaxPayload <? n) then Err ErrBadDNSLength
    else decode_message (slice dnsOffPayload (Z.to_nat n) b).

(** The answer loop without fuel, as the code runs it. *)
Inductive answers_run (name : string) : parser -> list DNSAnswer -> Prop :=
| run_stop p : answer_step name p = None -> answers_run name p []
| run_skip p p' out :
    answer_step name p = Some (None, p') -> answers_run name p' out -> answers_run name p out
| run_answer p p' a out :
    answer_step name p = Some (Some a, p') -> answers_run name p' out ->
    answers_run name p (a :: out).

End DecodeDNS.

(** ** Lemmas: slices of a concatenation *)

Lemma slice_skip off n l1 l2 k :
  length l1 = k -> (k <= off)%nat -> slice off n (l1 ++ l2) = slice (off - k) n l2.
Proof. intros <- H. unfold slice. by rewrite drop_app_ge. Qed.

Lemma slice_here n l1 l2 : length l1 = n -> slice 0 n (l1 ++ l2) = l1.
Proof. intros <-. unfold slice. by rewrite drop_0, take_app_length. Qed.

Lemma byte_at_skip off l1 l2 k :
  length l1 = k -> (k <= off)%nat -> byte_at off (l1 ++ l2) = byte_at (off - k) l2.
Proof. intros <- H. unfold byte_at. rewrite app_nth2; [done|lia]. Qed.

Lemma length_slice off n b : (off + n <= length b)%nat -> length (slice off n b) = n.
Proof. intros H. unfold slice. rewrite length_take, length_drop. lia. Qed.

(** Walk to the field at a constant offset, given the widths in context. *)
Ltac seek :=
  repeat first
    [ rewrite slice_here by (rewrite ?length_be_bytes, ?length_le_bytes; done)
    | erewrite slice_skip by first
        [ rewrite ?length_be_bytes, ?length_le_bytes; eassumption || reflexivity
        | vm_compute; lia ]
    | erewrite byte_at_skip by first
        [ rewrite ?length_be_bytes, ?length_le_bytes; eassumption || reflexivity
        | vm_compute; lia ] ]; try reflexivity.

Lemma decodeAddr_plain {P} raw family a :
  length raw = 16%nat -> decodeAddr (P:=P) raw family = Ok a -> plain_addr a.
Proof.
  intros Hl. unfold decodeAddr. intros H. repeat case_match; simplify_eq.
  - apply plain_addr_AddrFrom4. by rewrite length_take, Hl.
  - apply plain_addr_Unmap16. by rewrite length_take, Hl.
Qed.

Lemma decodeAddr_ok_iff {P} raw family :
  is_ok (decodeAddr (P:=P) raw family) = bool_decide (family = 2 \/ family = 10).
Proof.
  unfold decodeAddr, familyIPv4, familyIPv6.
  repeat case_match; symmetry;
    first [apply bool_decide_eq_true_2|apply bool_decide_eq_false_2]; lia.
Qed.

Lemma decodeComm_no_nul raw : contains_byte (decodeComm raw) "000" = false.
Proof.
  unfold contains_byte. rewrite negb_false_iff.
  induction raw as [|c raw IH]; simpl; [done|]. case_decide as Hc; [done|]. simpl.
  rewrite IH, andb_true_r, bool_decide_eq_true. intros H0. apply Hc.
  apply (f_equal byte_of_ascii) in H0. by rewrite byte_of_ascii_of_byte in H0.
Qed.

Lemma decodeComm_length raw : (String.length (decodeComm raw) <= length raw)%nat.
Proof. induction raw as [|c raw IH]; simpl; [done|]. case_decide; simpl; lia. Qed.

(** A NUL-padded name decodes to itself. *)
Lemma decodeComm_padded s n :
  contains_byte s "000" = false ->
  decodeComm (bytes_of_string s ++ replicate n x00) = s.
Proof.
  unfold contains_byte. rewrite negb_false_iff.
  induction s as [|c s IH]; simpl.
  - intros _. by destruct n.
  - rewrite andb_true_iff, bool_decide_eq_true. intros [Hc Hs].
    rewrite decide_False.
    + rewrite ascii_of_byte_of_ascii. f_equal. exact (IH Hs).
    + intros H0. apply Hc. apply (f_equal ascii_of_byte) in H0.
      by rewrite ascii_of_byte_of_ascii in H0.
Qed.

Lemma length_conn_event_bytes e :
  wf_conn_event e -> length (conn_event_bytes e) = EventSize.
Proof.
  intros []. unfold conn_event_bytes.
  rewrite !length_app, !length_be_bytes, length_le_bytes, wce_saddr0, wce_daddr0, wce_comm0.
  done.
Qed.

(** Where the layout puts each field. *)
Section Layout.
Context (e : conn_event) (tail : list byte) (Hwf : wf_conn_event e).

#[local] Ltac find_field :=
  destruct Hwf; unfold conn_event_bytes; rewrite <- ?app_assoc; seek.

Lemma field_saddr : slice offSaddr 16 (conn_event_bytes e ++ tail) = ce_saddr e.
Proof. find_field. Qed.
Lemma field_daddr : slice offDaddr 16 (conn_event_bytes e ++ tail) = ce_daddr e.
Proof. find_field. Qed.
Lemma field_sport : slice offSport 2 (conn_event_bytes e ++ tail) = be_bytes 2 (ce_sport e).
Proof. find_field. Qed.
Lemma field_dport : slice offDport 2 (conn_event_bytes e ++ tail) = be_bytes 2 (ce_dport e).
Proof. find_field. Qed.
Lemma field_family : byte_at offFamily (conn_event_bytes e ++ tail) = byte_of_Z (ce_family e).
Proof. find_field. Qed.
Lemma field_protocol :
  byte_at offProtocol (conn_event_bytes e ++ tail) = byte_of_Z (ce_protocol e).
Proof. find_field. Qed.
Lemma field_pid : slice offPID 4 (conn_event_bytes e ++ tail) = le_bytes 4 (ce_pid e).
Proof. find_field. Qed.
Lemma field_comm : slice offComm commLen (conn_event_bytes e ++ tail) = ce_comm e.
Proof. find_field. Qed.
Lemma field_outbound :
  byte_at offOutbound (conn_event_bytes e ++ tail) = if ce_outbound e then x01 else x00.
Proof. find_field. Qed.
End Layout.

(** ** Lemmas: the DNS answer loop *)

Lemma normalizeName_lower n : ToLower (normalizeName n) = normalizeName n.
Proof. apply ToLower_idemp. Qed.

Section DNSLoop.
Context `{DNSParserLaws}.

Lemma answer_step_remaining name p o p' :
  answer_step name p = Some (o, p') -> (remaining p' < remaining p)%nat.
Proof.
  unfold answer_step. intros Hs.
  destruct (parser_AnswerHeader p) as [[rh p1]|] eqn:Hh; [|done].
  apply remaining_AnswerHeader in Hh as [Hpos Heq]. rewrite <- Heq.
  repeat case_match; simplify_eq.
  - by eapply remaining_AResource.
  - by eapply remaining_AAAAResource.
  - by eapply remaining_SkipAnswer.
Qed.

Lemma answer_step_answer name p a p' :
  answer_step name p = Some (Some a, p') -> AnsName a = name /\ plain_addr (AnsIP a).
Proof.
  unfold answer_step. intros Hs. repeat case_match; simplify_eq; simpl; split; try done.
  - apply plain_addr_AddrFrom4, length_vec_to_list.
  - apply plain_addr_Unmap16, length_vec_to_list.
Qed.

(** The accumulator only ever grows at its end. *)
Lemma answer_loop_acc fuel name p out :
  answer_loop fuel name p out = out ++ answer_loop fuel name p [].
Proof.
  revert p out. induction fuel as [|fuel IH]; intros p out; simpl; [by rewrite app_nil_r|].
  destruct (answer_step name p) as [[[a|] p']|]; [| |by rewrite app_nil_r].
  - rewrite IH, (IH p' [a]). by rewrite <- app_assoc.
  - apply IH.
Qed.

(** With fuel for the remaining records the loop runs to its own end. *)
Lemma answer_loop_runs fuel name p :
  (remaining p < fuel)%nat -> answers_run name p (answer_loop fuel name p []).
Proof.
  revert p. induction fuel as [|fuel IH]; intros p Hf; [lia|]. simpl.
  destruct (answer_step name p) as [[[a|] p']|] eqn:E.
  - rewrite answer_loop_acc. eapply run_answer; [done|]. apply IH.
    apply answer_step_remaining in E. lia.
  - eapply run_skip; [done|]. apply IH. apply answer_step_remaining in E. lia.
  - by apply run_stop.
Qed.

Lemma answers_run_det name p out1 out2 :
  answers_run name p out1 -> answers_run name p out2 -> out1 = out2.
Proof.
  intros Hrun. revert out2.
  induction Hrun as [p Hs|p p' out Hs _ IH|p p' a out Hs _ IH]; intros out2 Hr;
    inv Hr; simplify_eq; [done| |f_equal]; auto.
Qed.

Lemma answers_run_answers name p out :
  answers_run name p out ->
  Forall (fun a => AnsName a = name /\ plain_addr (AnsIP a)) out /\
  (length out <= remaining p)%nat.
Proof.
  induction 1 as [p|p p' out Hs _ [IH1 IH2]|p p' a out Hs _ [IH1 IH2]].
  - split; [constructor|simpl; lia].
  - split; [done|]. apply answer_step_remaining in Hs. lia.
  - split; [constructor; [by eapply answer_step_answer|done]|].
    apply answer_step_remaining in Hs. simpl. lia.
Qed.
End DNSLoop.

(** ** Properties *)

(** C20: the Go decoder reads back every field of the record the C side lays out,
    whatever follows it in the buffer: addresses and ports in network order,
    pid in little-endian host order, the name up to its NUL padding.  Only the
    address family can make it fail. *)
Theorem Decode_conn_event {P} e tail :
  wf_conn_event e ->
  Decode (P:=P) (conn_event_bytes e ++ tail) =
    (src ← decodeAddr (ce_saddr e) (ce_family e);
     dst ← decodeAddr (ce_daddr e) (ce_family e);
     mret (mkEvent src dst (ce_sport e) (ce_dport e) (ce_protocol e) (ce_pid e)
             (decodeComm (ce_comm e)) (ce_outbound e) "" "")).
Proof.
  intros Hwf. unfold Decode. rewrite length_app, length_conn_event_bytes by done.
  replace (EventSize + length tail <? EventSize)%nat with false
    by (symmetry; apply Nat.ltb_ge; lia).
  rewrite field_saddr, field_daddr, field_sport, field_dport, field_family, field_protocol,
    field_pid, field_comm, field_outbound by done.
  destruct Hwf. rewrite !be_Z_be_bytes, le_Z_le_bytes, !byteZ_of_Z, !Z.mod_small by done.
  by destruct (ce_outbound e).
Qed.

Definition sample_conn_event : conn_event :=
  mkConnEvent ([x0a; x00; x00; x05] ++ replicate 12 x00)
    ([x0a; x00; x00; x09] ++ replicate 12 x00) 40000 8080 2 6 4242
    (bytes_of_string "curl" ++ replicate 12 x00) true.

Lemma Decode_conn_event_witness :
  Decode (P:=unit) (conn_event_bytes sample_conn_event ++ []) =
  Ok (mkEvent (Addr4 x0a x00 x00 x05) (Addr4 x0a x00 x00 x09) 40000 8080 6 4242 "curl" true "" "").
Proof.
  rewrite (Decode_conn_event sample_conn_event []); [by vm_compute|].
  constructor; simpl; lia || done.
Defined.

(** [Decode] is total.  It fails exactly on a buffer shorter than the record
    or an unknown family, and every event it returns has unmapped addresses,
    16-bit ports, an 8-bit protocol, a 32-bit pid and a NUL-free name, with no
    pod UID or hostname yet. *)
Lemma Decode_cases {P} b :
  match Decode (P:=P) b with
  | Ok e =>
      (EventSize <= length b)%nat /\ plain_addr (SrcIP e) /\ plain_addr (DstIP e) /\
      0 <= SrcPort e < 2 ^ 16 /\ 0 <= DstPort e < 2 ^ 16 /\ 0 <= EvProtocol e < 2 ^ 8 /\
      0 <= PID e < 2 ^ 32 /\ contains_byte (Comm e) "000" = false /\
      (String.length (Comm e) <= 16)%nat /\ SrcPodUID e = "" /\ DstHostname e = ""
  | Err ErrShortEvent => (length b < EventSize)%nat
  | Err ErrUnknownFamily =>
      (EventSize <= length b)%nat /\ byteZ (byte_at offFamily b) <> 2 /\
      byteZ (byte_at offFamily b) <> 10
  | Err _ => False
  end.
Proof.
  unfold Decode. destruct (Nat.ltb_spec (length b) EventSize) as [Hs|Hl]; [done|].
  unfold EventSize in Hl.
  assert (forall off n, (off + n <= 59)%nat -> length (slice off n b) = n) as Hsl
    by (intros; apply length_slice; lia).
  pose proof (decodeAddr_ok_iff (P:=P) (slice offSaddr 16 b) (byteZ (byte_at offFamily b))) as Hf.
  pose proof (decodeAddr_ok_iff (P:=P) (slice offDaddr 16 b) (byteZ (byte_at offFamily b))) as Hf'.
  destruct (decodeAddr (slice offSaddr 16 b) _) as [src|err] eqn:Hsrc; cbn [mbind result_bind].
  - destruct (decodeAddr (slice offDaddr 16 b) _) as [dst|err] eqn:Hdst; cbn [mbind result_bind].
    2: { rewrite <- Hf' in Hf. done. }
    cbn [mret result_ret SrcIP DstIP SrcPort DstPort EvProtocol PID Comm SrcPodUID DstHostname].
    apply decodeAddr_plain in Hsrc; [|by apply Hsl; vm_compute; lia].
    apply decodeAddr_plain in Hdst; [|by apply Hsl; vm_compute; lia].
    pose proof (be_Z_range (slice offSport 2 b)) as H1. rewrite Hsl in H1 by (vm_compute; lia).
    pose proof (be_Z_range (slice offDport 2 b)) as H2. rewrite Hsl in H2 by (vm_compute; lia).
    pose proof (le_Z_range (slice offPID 4 b)) as H3. rewrite Hsl in H3 by (vm_compute; lia).
    pose proof (decodeComm_length (slice offComm commLen b)) as H4.
    rewrite Hsl in H4 by (vm_compute; lia). unfold commLen in H4.
    split_and!; try done; try lia; try apply byteZ_range; apply decodeComm_no_nul.
  - symmetry in Hf. apply bool_decide_eq_false in Hf.
    unfold decodeAddr, familyIPv4, familyIPv6 in Hsrc. repeat case_match; simplify_eq.
    split; [done|]. lia.
Qed.

Definition dns_length (b : list byte) : Z := le_Z (take dnsOffPayload b).
Definition dns_payload (b : list byte) : list byte :=
  slice dnsOffPayload (Z.to_nat (dns_length b)) b.

Lemma decode_message_cases `{DNSParserLaws} msg :
  match decode_message msg with
  | Ok out =>
      exists h p q p',
        parser_Start msg = Ok (h, p) /\ Response h = true /\ RCode h = 0 /\
        parser_AllQuestions p = Ok ([q], p') /\ normalizeName q <> "" /\
        answers_run (normalizeName q) p' out /\
        Forall (fun a => AnsName a = normalizeName q /\ plain_addr (AnsIP a)) out /\
        Z.of_nat (length out) < 2 ^ 16
  | Err ErrNotDNSAnswer =>
      exists h p, parser_Start msg = Ok (h, p) /\
        (Response h = false \/ RCode h <> 0 \/
         exists qs p', parser_AllQuestions p = Ok (qs, p') /\
           (length qs <> 1%nat \/ exists q, qs = [q] /\ normalizeName q = ""))
  | Err (ErrParser e) =>
      parser_Start msg = Err e \/
      exists h p, parser_Start msg = Ok (h, p) /\ parser_AllQuestions p = Err e
  | Err _ => False
  end.
Proof.
  unfold decode_message. destruct (parser_Start msg) as [[h p]|e] eqn:Hst; [|by left].
  unfold RCodeSuccess.
  destruct (negb (Response h) || negb (RCode h =? 0)) eqn:Hh.
  { exists h, p. split; [done|]. destruct (Response h); [right; left; lia|by left]. }
  apply orb_false_iff in Hh as [Hr Hc].
  destruct (parser_AllQuestions p) as [[qs p']|e] eqn:Hq; [|by eauto].
  destruct qs as [|q [|q2 qs]]; [by exists h, p; eauto 10| |by exists h, p; eauto 10].
  case_decide as Hname; [by exists h, p; eauto 12|].
  assert (remaining p' < answer_fuel)%nat as Hrem.
  { rewrite (remaining_AllQuestions _ _ _ Hq). apply remaining_Start in Hst.
    unfold answer_fuel. lia. }
  pose proof (answer_loop_runs answer_fuel (normalizeName q) p' Hrem) as Hrun.
  pose proof (answers_run_answers _ _ _ Hrun) as [Hall Hlen].
  exists h, p, q, p'. split_and!; try done; [by destruct (Response h)|lia|].
  unfold answer_fuel in Hrem. lia.
Qed.

(** C21: [DecodeDNS] terminates on every message and says precisely what it found.
    On success the message was a response with code 0 and one non-empty
    question; the answers are those of the unbounded answer loop, each under the
    normalised question name with an unmapped address, fewer than 2^16 of them.
    Each error has its documented cause. *)
Theorem DecodeDNS_correct `{DNSParserLaws} b :
  match DecodeDNS b with
  | Ok out =>
      (DNSEventSize <= length b)%nat /\ 1 <= dns_length b <= 512 /\
      exists h p q p',
        parser_Start (dns_payload b) = Ok (h, p) /\ Response h = true /\ RCode h = 0 /\
        parser_AllQuestions p = Ok ([q], p') /\ normalizeName q <> "" /\
        answers_run (normalizeName q) p' out /\
        Forall (fun a => AnsName a = normalizeName q /\ plain_addr (AnsIP a)) out /\
        Z.of_nat (length out) < 2 ^ 16
  | Err ErrShortEvent => (length b < DNSEventSize)%nat
  | Err ErrBadDNSLength => dns_length b = 0 \/ 512 < dns_length b
  | Err ErrNotDNSAnswer =>
      exists h p, parser_Start (dns_payload b) = Ok (h, p) /\
        (Response h = false \/ RCode h <> 0 \/
         exists qs p', parser_AllQuestions p = Ok (qs, p') /\
           (length qs <> 1%nat \/ exists q, qs = [q] /\ normalizeName q = ""))
  | Err (ErrParser e) =>
      parser_Start (dns_payload b) = Err e \/
      exists h p, parser_Start (dns_payload b) = Ok (h, p) /\ parser_AllQuestions p = Err e
  | Err ErrUnknownFamily => False
  end.
Proof.
  unfold DecodeDNS. destruct (Nat.ltb_spec (length b) DNSEventSize) as [Hs|Hl]; [done|].
  fold (dns_length b). pose proof (le_Z_range (take dnsOffPayload b)) as Hn.
  fold (dns_length b) in Hn. change (Z.of_nat dnsMaxPayload) with 512.
  destruct ((dns_length b =? 0) || (512 <? dns_length b)) eqn:Hb; [lia|].
  fold (dns_payload b). pose proof (decode_message_cases (dns_payload b)) as Hm.
  destruct (decode_message (dns_payload b)) as [out|[]]; try done.
  split; [done|]. split; [lia|done].
Qed.

(** A message already split into records: one parser with the stated laws. *)
Inductive resource := RA (v : vec byte 4) | RAAAA (v : vec byte 16) | ROther.

Definition FixedParser (h : DNSHeader) (qs : list string)
    (answers : list (ResourceHeader * resource)) : DNSParser := {|
  parser := list (ResourceHeader * resource);
  parse_error := unit;
  parser_Start _ := Ok (h, answers);
  parser_AllQuestions p := Ok (qs, p);
  parser_AnswerHeader p := match p with (rh, _) :: _ => Ok (rh, p) | [] => Err tt end;
  parser_AResource p := match p with (_, RA v) :: p => Ok (v, p) | _ => Err tt end;
  parser_AAAAResource p := match p with (_, RAAAA v) :: p => Ok (v, p) | _ => Err tt end;
  parser_SkipAnswer p := match p with _ :: p => Ok p | [] => Err tt end
|}.

Lemma FixedParserLaws h qs answers :
  Z.of_nat (length answers) < 2 ^ 16 -> @DNSParserLaws (FixedParser h qs answers).
Proof.
  intros Hl. refine {| remaining := length : @parser (FixedParser h qs answers) -> nat |};
    cbn; intros; repeat case_match; simplify_eq; cbn; first [done|lia|split; [lia|done]].
Defined.

(** A CNAME followed by an A and a 4-in-6 AAAA record. *)
Definition sample_dns_answers : list (ResourceHeader * resource) :=
    [(mkResourceHeader 5 300, ROther);
     (mkResourceHeader 1 60, RA [# x36; xbb; x01; x02]);
     (mkResourceHeader 28 60, RAAAA [# x00; x00; x00; x00; x00; x00; x00; x00; x00; x00;
                                       xff; xff; x36; xbb; x01; x03])].
Definition sample_dns_parser : DNSParser :=
  FixedParser (mkDNSHeader true 0) ["API.Stripe.com."] sample_dns_answers.
Definition sample_dns_record : list byte := [x20; x00] ++ replicate 512 x00.

Lemma DecodeDNS_correct_witness :
  @DecodeDNS sample_dns_parser sample_dns_record =
    Ok [mkDNSAnswer "api.stripe.com" (Addr4 x36 xbb x01 x02) 60;
        mkDNSAnswer "api.stripe.com" (Addr4 x36 xbb x01 x03) 60] /\
  exists p, @answers_run sample_dns_parser "api.stripe.com" p
    [mkDNSAnswer "api.stripe.com" (Addr4 x36 xbb x01 x02) 60;
     mkDNSAnswer "api.stripe.com" (Addr4 x36 xbb x01 x03) 60].
Proof.
  assert (@DecodeDNS sample_dns_parser sample_dns_record =
    Ok [mkDNSAnswer "api.stripe.com" (Addr4 x36 xbb x01 x02) 60;
        mkDNSAnswer "api.stripe.com" (Addr4 x36 xbb x01 x03) 60]) as Hd by (by vm_compute).
  split; [exact Hd|].
  pose proof (@DecodeDNS_correct sample_dns_parser
    (FixedParserLaws _ _ sample_dns_answers eq_refl) sample_dns_record) as Hc.
  rewrite Hd in Hc. destruct Hc as (_ & _ & h & p & q & p' & Hst & _ & _ & Hq & _ & Hrun & _).
  exists p'. vm_compute in Hq. injection Hq as <- _. exact Hrun.
Defined.
