(* ===== verification/Probe.v ===== *)
(** * Probe: the eBPF programs (bpf/sniffer.c)

    The three programs as functions on the maps they share.  A record is raw
    memory: a reservation hands out bytes with whatever they held before, and
    every assignment to a field of a packed struct is a [store] at its offset.
    What the kernel decides is an argument: the memory of a reservation or its
    failure, what an update leaves of the LRU map, whether a load from a packet
    succeeds.  [record_written] and [dns_ingress_refines] relate the bytes to the
    records the decoders of [Decode] read. *)

From S2P Require Import Prelude Golang Netip Model Decode.
Open Scope string_scope.
Open Scope list_scope.
Open Scope Z_scope.

Definition AF_INET : Z := 2.
Definition AF_INET6 : Z := 10.
Definition TCP_ESTABLISHED : Z := 1.
Definition TCP_CLOSE : Z := 7.
Definition IPPROTO_UDP_NUM : Z := 17.
Definition DNS_PORT : Z := 53.
Definition DNS_MAX_PAYLOAD : Z := 512.
Definition DNS_HEADER_LEN : Z := 12.

(** ** Memory *)

(** A packed struct is the list of its fields' sizes. *)
Definition sizeof (fields : list nat) : nat := sum_list fields.
Definition offsetof (fields : list nat) (i : nat) : nat := sum_list (take i fields).

Definition store (off : nat) (bs m : list byte) : list byte :=
  take off m ++ bs ++ drop (off + length bs) m.

(** The programs are compiled for a little-endian machine. *)
Definition htons (z : Z) : Z :=
  Z.lor (Z.shiftl (Z.land z 255) 8) (Z.shiftr (Z.land z 65280) 8).

Definition conn_event_fields : list nat := [16; 16; 2; 2; 1; 1; 4; 16; 1]%nat.
Abbreviation conn_field := (offsetof conn_event_fields).
Definition dns_event_fields : list nat := [2; 512]%nat.
Abbreviation dns_field := (offsetof dns_event_fields).

(** ** Maps *)

Record pid_info := mkPidInfo { pi_pid : Z; pi_comm : list byte }.

Definition max_entries : nat := Z.to_nat 65536.

Record probe := mkProbe {
  pid_by_sock : gmap Z pid_info;
  events : list (list byte);
  dns_events : list (list byte)
}.
Definition NewProbe : probe := mkProbe ∅ [] [].

Definition set_pid_by_sock (m : gmap Z pid_info) (s : probe) : probe :=
  mkProbe m (events s) (dns_events s).
Definition submit (e : list byte) (s : probe) : probe :=
  mkProbe (pid_by_sock s) (events s ++ [e]) (dns_events s).
Definition submit_dns (e : list byte) (s : probe) : probe :=
  mkProbe (pid_by_sock s) (events s) (dns_events s ++ [e]).

(** ** Connections *)

(** [update] is what bpf_map_update_elem leaves of the map. *)
Definition handle_tcp_connect (update : Z -> pid_info -> gmap Z pid_info -> gmap Z pid_info)
    (pid_tgid : Z) (comm : list byte) (sk : Z) (s : probe) : probe :=
  let info := mkPidInfo (uint32 (Z.shiftr pid_tgid 32)) comm in
  set_pid_by_sock (update sk info (pid_by_sock s)) s.

(** The tracepoint's context. *)
Record set_state_ctx := mkCtx {
  skaddr : Z;
  newstate : Z;
  family : Z;
  protocol : Z;
  sport : Z;
  dport : Z;
  saddr : list byte;
  daddr : list byte;
  saddr_v6 : list byte;
  daddr_v6 : list byte
}.

Definition write_addrs (ctx : set_state_ctx) (e : list byte) : list byte :=
  if family ctx =? AF_INET then
    let e := store (conn_field 4) [byte_of_Z AF_INET] e in
    let e := store (conn_field 0) (take 4 (saddr ctx)) e in
    store (conn_field 1) (take 4 (daddr ctx)) e
  else
    let e := store (conn_field 4) [byte_of_Z AF_INET6] e in
    let e := store (conn_field 0) (take 16 (saddr_v6 ctx)) e in
    store (conn_field 1) (take 16 (daddr_v6 ctx)) e.

Definition write_ports (ctx : set_state_ctx) (e : list byte) : list byte :=
  let e := store (conn_field 2) (le_bytes 2 (htons (sport ctx))) e in
  let e := store (conn_field 3) (le_bytes 2 (htons (dport ctx))) e in
  store (conn_field 5) [byte_of_Z (uint8 (protocol ctx))] e.

Definition write_owner (have_info : option pid_info) (e : list byte) : list byte :=
  match have_info with
  | None => e
  | Some info =>
      let e := store (conn_field 6) (le_bytes 4 (pi_pid info)) e in
      let e := store (conn_field 7) (pi_comm info) e in
      store (conn_field 8) [x01] e
  end.

(** [reserve] is the memory bpf_ringbuf_reserve returns, or its failure. *)
Definition handle_set_state (reserve : option (list byte)) (ctx : set_state_ctx) (s : probe)
    : probe :=
  let sk := skaddr ctx in
  if newstate ctx =? TCP_CLOSE then set_pid_by_sock (delete sk (pid_by_sock s)) s
  else if negb (newstate ctx =? TCP_ESTABLISHED) then s
  else
    let have_info := pid_by_sock s !! sk in
    let s := set_pid_by_sock (delete sk (pid_by_sock s)) s in
    if negb (family ctx =? AF_INET) && negb (family ctx =? AF_INET6) then s
    else match reserve with
      | None => s
      | Some e =>
          let e := store 0 (replicate (sizeof conn_event_fields) x00) e in
          submit (write_owner have_info (write_ports ctx (write_addrs ctx e))) s
      end.

(** ** DNS responses *)

(** A packet from its network header on, as the helper reads it. *)
Class SkbHelpers := skb_load_bytes : list byte -> Z -> Z -> option (list byte).
Class SkbHelpersLaws `{SkbHelpers} := {
  load_bytes skb off n bs : skb_load_bytes skb off n = Some bs ->
    0 <= off /\ off + n <= Z.of_nat (length skb) /\
    bs = slice (Z.to_nat off) (Z.to_nat n) skb
}.

Section dns_ingress.
Context `{SkbHelpers}.

(** The offset of the transport header of an IP packet that carries UDP. *)
Definition udp_offset (skb : list byte) : option Z :=
  match skb_load_bytes skb 0 1 with
  | Some [vihl] =>
      if Z.shiftr (byteZ vihl) 4 =? 4 then
        let l4off := Z.land (byteZ vihl) 15 * 4 in
        if l4off <? 20 then None
        else match skb_load_bytes skb 9 1 with
          | Some [proto] => if byteZ proto =? IPPROTO_UDP_NUM then Some l4off else None
          | _ => None
          end
      else if Z.shiftr (byteZ vihl) 4 =? 6 then
        match skb_load_bytes skb 6 1 with
        | Some [proto] => if byteZ proto =? IPPROTO_UDP_NUM then Some 40 else None
        | _ => None
        end
      else None
  | _ => None
  end.

(** The verdict, always 1, and the maps. *)
Definition handle_dns_ingress (reserve : option (list byte)) (skb : list byte) (s : probe)
    : Z * probe :=
  match udp_offset skb with
  | None => (1, s)
  | Some l4off =>
      match skb_load_bytes skb l4off 2 with
      | None => (1, s)
      | Some port =>
          if negb (le_Z port =? htons DNS_PORT) then (1, s)
          else
            let off := uint32 (l4off + 8) in
            let skb_len := uint32 (Z.of_nat (length skb)) in
            if skb_len <=? off then (1, s)
            else
              let len := uint32 (skb_len - off) in
              let len := if DNS_MAX_PAYLOAD <? len then DNS_MAX_PAYLOAD else len in
              if len <? DNS_HEADER_LEN then (1, s)
              else match reserve with
                | None => (1, s)
                | Some e =>
                    let n := Z.land len 1023 in
                    if (n =? 0) || (DNS_MAX_PAYLOAD <? n) then (1, s)
                    else match skb_load_bytes skb off n with
                      | None => (1, s)
                      | Some payload =>
                          let e := store (dns_field 1) payload e in
                          let e := store (dns_field 0) (le_bytes 2 (uint16 n)) e in
                          (1, submit_dns e s)
                      end
                end
      end
  end.
End dns_ingress.

(** ** Lemmas: memory *)

Lemma store_skip off bs l1 l2 k :
  length l1 = k -> (k <= off)%nat -> store off bs (l1 ++ l2) = l1 ++ store (off - k) bs l2.
Proof.
  intros <- Hk. unfold store.
  rewrite take_app_ge, drop_app_ge by lia. rewrite <- app_assoc.
  by replace (off + length bs - length l1)%nat with (off - length l1 + length bs)%nat by lia.
Qed.

Lemma store_here bs l1 l2 : length bs = length l1 -> store 0 bs (l1 ++ l2) = bs ++ l2.
Proof. intros Hl. unfold store. rewrite take_0, Hl, Nat.add_0_l. cbn [app]. by rewrite drop_app_length. Qed.

Lemma store_at off bs l1 l2 :
  off = 0%nat -> length bs = length l1 -> store off bs (l1 ++ l2) = bs ++ l2.
Proof. intros ->. apply store_here. Qed.

Lemma store_all bs m : length bs = length m -> store 0 bs m = bs.
Proof. intros Hl. rewrite <- (app_nil_r m), store_here by done. apply app_nil_r. Qed.

Lemma store_end off bs m : off = 0%nat -> length bs = length m -> store off bs m = bs.
Proof. intros ->. apply store_all. Qed.

Lemma length_store off bs m :
  (off + length bs <= length m)%nat -> length (store off bs m) = length m.
Proof. intros H. unfold store. rewrite !length_app, length_take, length_drop. lia. Qed.

Lemma htons_bytes z : htons z = z mod 256 * 256 + (z / 256) mod 256.
Proof.
  assert (htons z = Z.lor (z mod 256 * 256) ((z / 256) mod 256)) as ->.
  { unfold htons. rewrite Z.shiftl_mul_pow2, Z.shiftr_land, Z.shiftr_div_pow2 by lia.
    change (Z.shiftr 65280 8) with (Z.ones 8). change 255 with (Z.ones 8).
    by rewrite !Z.land_ones. }
  assert (Z.land (z mod 256 * 256) ((z / 256) mod 256) = 0) as Hl.
  { change 256 with (2 ^ 8). apply Z.bits_inj'. intros i Hi. rewrite Z.land_spec, Z.bits_0.
    destruct (Z.ltb_spec i 8).
    - by rewrite Z.mul_pow2_bits_low.
    - by rewrite (Z.mod_pow2_bits_high _ 8), andb_false_r by lia. }
  rewrite <- (Z.add_lor_land (z mod 256 * 256)), Hl. lia.
Qed.

(** Host-order ports swapped by [htons] and stored little-endian are in network
    order. *)
Lemma le_bytes_htons z : le_bytes 2 (htons z) = be_bytes 2 z.
Proof.
  rewrite htons_bytes. unfold be_bytes. cbn [le_bytes rev app].
  f_equal; [|f_equal]; apply byteZ_inj; rewrite !byteZ_of_Z.
  - rewrite Z.add_comm, Z.mod_add by lia. by rewrite Z.mod_mod.
  - rewrite Z.div_add_l, (Z.div_small (_ mod _)) by (lia || (apply Z.mod_pos_bound; lia)).
    by rewrite Z.add_0_r, Z.mod_mod.
Qed.

(** Write past the fields before the offset, then over a chunk of the value's
    own size. *)
Ltac field_sizes :=
  first [eassumption | reflexivity
        | rewrite ?length_be_bytes, ?length_le_bytes, ?length_replicate; done].
Ltac write_field :=
  repeat (erewrite store_skip by first [field_sizes | vm_compute; lia]);
  first [rewrite store_at by first [reflexivity | field_sizes]
        | rewrite store_end by first [reflexivity | field_sizes]].

(** A reservation has the size asked for. *)
Definition wf_reserve (fields : list nat) (r : option (list byte)) : Prop :=
  forall e, r = Some e -> length e = sizeof fields.

(** ** Lemmas: the connection record *)

(** The widths of the tracepoint's and of the map value's fields. *)
Record wf_ctx (ctx : set_state_ctx) : Prop := {
  wc_saddr : length (saddr ctx) = 4%nat;
  wc_daddr : length (daddr ctx) = 4%nat;
  wc_saddr_v6 : length (saddr_v6 ctx) = 16%nat;
  wc_daddr_v6 : length (daddr_v6 ctx) = 16%nat;
  wc_sport : 0 <= sport ctx < 2 ^ 16;
  wc_dport : 0 <= dport ctx < 2 ^ 16
}.
Definition wf_info (i : pid_info) : Prop :=
  0 <= pi_pid i < 2 ^ 32 /\ length (pi_comm i) = 16%nat.
Definition wf_owner (o : option pid_info) : Prop :=
  match o with Some i => wf_info i | None => True end.

Definition no_comm : list byte := replicate 16 x00.

(** The record the program means to send. *)
Definition report (ctx : set_state_ctx) (owner : option pid_info) : conn_event :=
  let v4 := family ctx =? AF_INET in
  mkConnEvent
    (if v4 then saddr ctx ++ replicate 12 x00 else saddr_v6 ctx)
    (if v4 then daddr ctx ++ replicate 12 x00 else daddr_v6 ctx)
    (sport ctx) (dport ctx) (if v4 then AF_INET else AF_INET6) (uint8 (protocol ctx))
    (from_option pi_pid 0 owner) (from_option pi_comm no_comm owner)
    (match owner with Some _ => true | None => false end).

Lemma wf_report ctx owner : wf_ctx ctx -> wf_owner owner -> wf_conn_event (report ctx owner).
Proof.
  intros [] Ho. pose proof (Z.mod_pos_bound (protocol ctx) (2 ^ 8) ltac:(lia)).
  split; unfold report; cbn [ce_saddr ce_daddr ce_comm ce_sport ce_dport ce_family ce_protocol ce_pid];
    try done.
  - destruct (family ctx =? AF_INET); rewrite ?length_app, ?length_replicate; lia.
  - destruct (family ctx =? AF_INET); rewrite ?length_app, ?length_replicate; lia.
  - destruct owner as [i|]; [apply Ho|done].
  - by destruct (family ctx =? AF_INET).
  - destruct owner as [i|]; [apply Ho|cbn; lia].
Qed.

(** Zeroed memory, field by field. *)
Lemma zeroed_event :
  replicate (sizeof conn_event_fields) x00 =
  replicate 16 x00 ++ replicate 16 x00 ++ replicate 2 x00 ++ replicate 2 x00 ++
  [x00] ++ [x00] ++ replicate 4 x00 ++ replicate 16 x00 ++ [x00].
Proof. reflexivity. Qed.

(** A prefix written over a zeroed field. *)
Lemma store_padded off bs l1 k n l2 :
  length l1 = k -> (k <= off)%nat -> (length bs <= n)%nat -> (off - k)%nat = 0%nat ->
  store off bs (l1 ++ replicate n x00 ++ l2) =
  l1 ++ (bs ++ replicate (n - length bs) x00) ++ l2.
Proof.
  intros Hl Hk Hn Ho. rewrite (store_skip _ _ _ _ k), Ho by done. f_equal.
  replace n with (length bs + (n - length bs))%nat at 1 by lia.
  rewrite replicate_add, <- app_assoc, store_here by (by rewrite length_replicate).
  by rewrite app_assoc.
Qed.

Lemma write_addrs_zeroed ctx rest e :
  wf_ctx ctx -> e = replicate 16 x00 ++ replicate 16 x00 ++ replicate 2 x00 ++ replicate 2 x00 ++
    [x00] ++ rest ->
  write_addrs ctx e =
  ce_saddr (report ctx None) ++ ce_daddr (report ctx None) ++ replicate 2 x00 ++ replicate 2 x00 ++
    [byte_of_Z (ce_family (report ctx None))] ++ rest.
Proof.
  intros [] ->. unfold write_addrs. cbn [report ce_saddr ce_daddr ce_family].
  assert (forall fam (a b : list byte),
    (length a <= 16)%nat -> (length b <= 16)%nat ->
    store (conn_field 1) b (store (conn_field 0) a (store (conn_field 4) [fam]
      (replicate 16 x00 ++ replicate 16 x00 ++ replicate 2 x00 ++ replicate 2 x00 ++ [x00] ++ rest))) =
    (a ++ replicate (16 - length a) x00) ++ (b ++ replicate (16 - length b) x00) ++
      replicate 2 x00 ++ replicate 2 x00 ++ [fam] ++ rest) as Hw.
  { intros fam a b Ha Hb.
    assert (store (conn_field 4) [fam] (replicate 16 x00 ++ replicate 16 x00 ++
      replicate 2 x00 ++ replicate 2 x00 ++ [x00] ++ rest) =
      replicate 16 x00 ++ replicate 16 x00 ++ replicate 2 x00 ++ replicate 2 x00 ++ [fam] ++ rest)
      as -> by (by write_field).
    pose proof (store_padded (conn_field 0) a [] 0 16) as H0. cbn [app] in H0.
    rewrite H0 by first [done | vm_compute; lia].
    rewrite (store_padded (conn_field 1) b _ 16 16); try done.
    rewrite length_app, length_replicate. lia. }
  rewrite !take_ge by lia. destruct (family ctx =? AF_INET); rewrite Hw by lia.
  - by rewrite wc_saddr0, wc_daddr0.
  - rewrite wc_saddr_v7, wc_daddr_v7. cbn [Nat.sub replicate]. by rewrite !app_nil_r.
Qed.

Lemma write_ports_at ctx a d s p f q rest :
  length a = 16%nat -> length d = 16%nat -> length s = 2%nat -> length p = 2%nat ->
  write_ports ctx (a ++ d ++ s ++ p ++ [f] ++ [q] ++ rest) =
  a ++ d ++ be_bytes 2 (sport ctx) ++ be_bytes 2 (dport ctx) ++ [f] ++
    [byte_of_Z (uint8 (protocol ctx))] ++ rest.
Proof.
  intros. unfold write_ports. rewrite !le_bytes_htons. by do 3 write_field.
Qed.

Lemma write_owner_at owner a d s p f q :
  length a = 16%nat -> length d = 16%nat -> length s = 2%nat -> length p = 2%nat -> wf_owner owner ->
  write_owner owner (a ++ d ++ s ++ p ++ [f] ++ [q] ++ replicate 4 x00 ++ replicate 16 x00 ++ [x00]) =
  a ++ d ++ s ++ p ++ [f] ++ [q] ++ le_bytes 4 (from_option pi_pid 0 owner) ++
    from_option pi_comm no_comm owner ++ [if bool_decide (is_Some owner) then x01 else x00].
Proof.
  intros ???? Ho. destruct owner as [i|]; [|done]. destruct Ho as [_ Hc]. cbn [write_owner].
  do 2 write_field. by write_field.
Qed.

(** The memory submitted is the packed layout of the record meant. *)
Lemma record_written ctx owner e :
  wf_ctx ctx -> wf_owner owner -> length e = sizeof conn_event_fields ->
  write_owner owner (write_ports ctx (write_addrs ctx
    (store 0 (replicate (sizeof conn_event_fields) x00) e))) = conn_event_bytes (report ctx owner).
Proof.
  intros Hctx Ho He. rewrite store_all by (by rewrite length_replicate).
  pose proof (wf_report ctx None Hctx I) as Hr.
  rewrite zeroed_event, (write_addrs_zeroed _ _ _ Hctx eq_refl).
  rewrite write_ports_at, write_owner_at by first [done | apply Hr].
  by destruct owner.
Qed.

Lemma handle_set_state_established e ctx s :
  wf_ctx ctx -> wf_owner (pid_by_sock s !! skaddr ctx) -> newstate ctx = TCP_ESTABLISHED ->
  family ctx = AF_INET \/ family ctx = AF_INET6 -> length e = sizeof conn_event_fields ->
  handle_set_state (Some e) ctx s =
  submit (conn_event_bytes (report ctx (pid_by_sock s !! skaddr ctx)))
    (set_pid_by_sock (delete (skaddr ctx) (pid_by_sock s)) s).
Proof.
  intros Hctx Ho Hn Hf He. unfold handle_set_state. rewrite Hn. cbn [Z.eqb TCP_ESTABLISHED TCP_CLOSE negb].
  assert (negb (family ctx =? AF_INET) && negb (family ctx =? AF_INET6) = false) as ->
    by (unfold AF_INET, AF_INET6 in *; lia).
  by rewrite record_written.
Qed.

(** ** Lemmas: what the records decode to *)

Definition local_addr (ctx : set_state_ctx) : Addr :=
  if family ctx =? AF_INET then AddrFrom4 (saddr ctx) else Unmap (AddrFrom16 (saddr_v6 ctx)).
Definition remote_addr (ctx : set_state_ctx) : Addr :=
  if family ctx =? AF_INET then AddrFrom4 (daddr ctx) else Unmap (AddrFrom16 (daddr_v6 ctx)).

(** A connection seen from the end that called connect, or from the other. *)
Definition half (ctx : set_state_ctx) (owner : option pid_info) : ConnectionEvent :=
  match owner with
  | Some i => client_half (local_addr ctx) (remote_addr ctx) (sport ctx) (dport ctx)
                (uint8 (protocol ctx)) (pi_pid i) (decodeComm (pi_comm i))
  | None => server_half (remote_addr ctx) (local_addr ctx) (dport ctx) (sport ctx)
              (uint8 (protocol ctx))
  end.

Lemma decode_report {P} ctx owner :
  wf_ctx ctx -> wf_owner owner ->
  Decode (P:=P) (conn_event_bytes (report ctx owner)) = Ok (half ctx owner).
Proof.
  intros Hctx Ho. rewrite <- (app_nil_r (conn_event_bytes _)).
  rewrite Decode_conn_event by (by apply wf_report). destruct Hctx.
  unfold report, half, local_addr, remote_addr, client_half, server_half.
  cbn [ce_saddr ce_daddr ce_family ce_sport ce_dport ce_protocol ce_pid ce_comm ce_outbound].
  destruct (family ctx =? AF_INET); unfold decodeAddr;
    cbn [Z.eqb AF_INET AF_INET6 familyIPv4 familyIPv6 Pos.eqb mbind result_bind].
  - rewrite !take_app_length' by lia. by destruct owner.
  - rewrite !take_ge by lia. by destruct owner.
Qed.

(** ** Lemmas: the DNS record *)

(** An IP header, options included, that announces UDP. *)
Definition ip_udp (hdr : list byte) : Prop :=
  let vihl := byteZ (byte_at 0 hdr) in
  (Z.shiftr vihl 4 = 4 /\ Z.of_nat (length hdr) = Z.land vihl 15 * 4 /\ (20 <= length hdr)%nat /\
   byteZ (byte_at 9 hdr) = IPPROTO_UDP_NUM) \/
  (Z.shiftr vihl 4 = 6 /\ length hdr = 40%nat /\ byteZ (byte_at 6 hdr) = IPPROTO_UDP_NUM).

(** A packet from the DNS port, and what it carries. *)
Definition dns_response (skb payload : list byte) : Prop :=
  exists hdr udp, skb = hdr ++ udp ++ payload /\ ip_udp hdr /\ length udp = 8%nat /\
    be_Z (take 2 udp) = DNS_PORT.

Definition dns_record (msg e : list byte) : list byte :=
  le_bytes 2 (Z.of_nat (length msg)) ++ msg ++ drop (2 + length msg) e.

Lemma slice_byte off b : (off < length b)%nat -> slice off 1 b = [byte_at off b].
Proof.
  intros H. unfold slice, byte_at. destruct (lookup_lt_is_Some_2 b off H) as [x Hx].
  rewrite (drop_S b x off Hx). cbn. by rewrite (nth_lookup_Some _ _ _ _ Hx).
Qed.

Lemma byte_at_app off l1 l2 : (off < length l1)%nat -> byte_at off (l1 ++ l2) = byte_at off l1.
Proof. apply app_nth1. Qed.

Lemma byte_at_take off n l : (off < n)%nat -> byte_at off (take n l) = byte_at off l.
Proof.
  intros H. destruct (decide (n <= length l)%nat) as [Hn|Hn].
  - rewrite <- (take_drop n l) at 2. rewrite byte_at_app; [done|]. rewrite length_take. lia.
  - by rewrite take_ge by lia.
Qed.

Lemma le_Z_swapped l : length l = 2%nat -> le_Z l = htons (be_Z l).
Proof.
  intros Hl. rewrite <- (be_bytes_be_Z l) at 1. rewrite Hl, <- le_bytes_htons, le_Z_le_bytes.
  apply Z.mod_small. rewrite htons_bytes.
  pose proof (Z.mod_pos_bound (be_Z l) 256 ltac:(lia)).
  pose proof (Z.mod_pos_bound (be_Z l / 256) 256 ltac:(lia)). cbn. lia.
Qed.

Lemma from_dns_port l : length l = 2%nat -> (le_Z l =? htons DNS_PORT) = (be_Z l =? DNS_PORT).
Proof.
  intros Hl. rewrite le_Z_swapped by done. pose proof (be_Z_range l) as Hr. rewrite Hl in Hr.
  change (256 ^ Z.of_nat 2) with 65536 in Hr. rewrite !htons_bytes.
  apply eq_bool_prop_intro. rewrite !Is_true_true, !Z.eqb_eq. unfold DNS_PORT.
  split; [|by intros ->]. intros He. change (53 mod 256 * 256 + _) with 13568 in He.
  pose proof (Z.mod_pos_bound (be_Z l) 256 ltac:(lia)).
  rewrite (Z.mod_small (be_Z l / 256)) in He; [|split; [apply Z.div_pos|apply Z.div_lt_upper_bound]; lia].
  pose proof (Z.div_mod (be_Z l) 256 ltac:(lia)). lia.
Qed.

Section dns_lemmas.
Context `{SkbHelpersLaws}.

Lemma load_one skb off bs :
  skb_load_bytes skb off 1 = Some bs ->
  0 <= off < Z.of_nat (length skb) /\ bs = [byte_at (Z.to_nat off) skb].
Proof.
  intros (H1 & H2 & ->)%load_bytes. split; [lia|]. change (Z.to_nat 1) with 1%nat.
  apply slice_byte. lia.
Qed.

Lemma udp_offset_sound skb o :
  udp_offset skb = Some o ->
  20 <= o <= 60 /\ (o <= Z.of_nat (length skb) -> ip_udp (take (Z.to_nat o) skb)).
Proof.
  unfold udp_offset. destruct (skb_load_bytes skb 0 1) as [bs|] eqn:E0; [|done].
  apply load_one in E0 as [_ ->]. change (Z.to_nat 0) with 0%nat.
  set (v := byte_at 0 skb). pose proof (byteZ_range v) as Hv.
  assert (0 <= Z.land (byteZ v) 15 < 16) as Hl.
  { change 15 with (Z.ones 4). rewrite Z.land_ones by lia. apply Z.mod_pos_bound. lia. }
  destruct (Z.eqb_spec (Z.shiftr (byteZ v) 4) 4) as [H4|_].
  - destruct (Z.ltb_spec (Z.land (byteZ v) 15 * 4) 20); [done|].
    destruct (skb_load_bytes skb 9 1) as [ps|] eqn:E9; [|done]. apply load_one in E9 as [_ ->].
    destruct (Z.eqb_spec (byteZ (byte_at (Z.to_nat 9) skb)) IPPROTO_UDP_NUM) as [Hp|]; [|done].
    intros [= <-]. split; [lia|]. intros Hle. left.
    rewrite !byte_at_take, length_take by lia. fold v. split_and!; [done|lia|lia|done].
  - destruct (Z.eqb_spec (Z.shiftr (byteZ v) 4) 6) as [H6|_]; [|done].
    destruct (skb_load_bytes skb 6 1) as [ps|] eqn:E6; [|done]. apply load_one in E6 as [_ ->].
    destruct (Z.eqb_spec (byteZ (byte_at (Z.to_nat 6) skb)) IPPROTO_UDP_NUM) as [Hp|]; [|done].
    intros [= <-]. split; [lia|]. intros Hle. right.
    rewrite !byte_at_take, length_take by lia. fold v. split_and!; [done|lia|done].
Qed.

(** A load that does not fail on bytes the packet has. *)
Definition loads (skb : list byte) : Prop :=
  forall off n, 0 <= off -> 0 < n -> off + n <= Z.of_nat (length skb) ->
  is_Some (skb_load_bytes skb off n).

Lemma loads_one skb off :
  loads skb -> (off < length skb)%nat ->
  skb_load_bytes skb (Z.of_nat off) 1 = Some [byte_at off skb].
Proof.
  intros Hl Ho. destruct (Hl (Z.of_nat off) 1) as [bs Hb]; [lia..|]. rewrite Hb.
  apply load_one in Hb as [_ ->]. by rewrite Nat2Z.id.
Qed.

Lemma udp_offset_complete hdr rest :
  loads (hdr ++ rest) -> ip_udp hdr -> udp_offset (hdr ++ rest) = Some (Z.of_nat (length hdr)).
Proof.
  intros Hl Hip. assert (20 <= length hdr)%nat as Hlen by (destruct Hip as [(_ & _ & ? & _)|(_ & ? & _)]; lia).
  assert (forall off, (off < 20)%nat ->
    skb_load_bytes (hdr ++ rest) (Z.of_nat off) 1 = Some [byte_at off hdr]) as Hb.
  { intros off Ho. rewrite loads_one by (rewrite ?length_app; done || lia).
    by rewrite byte_at_app by lia. }
  unfold udp_offset.
  pose proof (Hb 0%nat ltac:(lia) : skb_load_bytes _ 0 1 = _) as ->.
  pose proof (Hb 9%nat ltac:(lia) : skb_load_bytes _ 9 1 = _) as ->.
  pose proof (Hb 6%nat ltac:(lia) : skb_load_bytes _ 6 1 = _) as ->.
  destruct Hip as [(H4 & Hw & _ & Hp)|(H6 & Hw & Hp)].
  - rewrite H4, Hp, <- Hw. cbn [Z.eqb Pos.eqb IPPROTO_UDP_NUM].
    destruct (Z.ltb_spec (Z.of_nat (length hdr)) 20); [lia|done].
  - by rewrite H6, Hp, Hw.
Qed.

Lemma dns_record_written msg e :
  length e = sizeof dns_event_fields -> (length msg <= 512)%nat ->
  store (dns_field 0) (le_bytes 2 (uint16 (Z.of_nat (length msg)))) (store (dns_field 1) msg e) =
  dns_record msg e.
Proof.
  intros He Hm. change (sizeof dns_event_fields) with 514%nat in He.
  change (dns_field 0) with 0%nat. change (dns_field 1) with 2%nat. unfold dns_record, uint16.
  rewrite Z.mod_small by lia. unfold store at 2.
  assert (length (take 2 e) = 2%nat) as Ht by (rewrite length_take; lia).
  by rewrite store_here by (by rewrite length_le_bytes).
Qed.

(** The copied length is that of the truncated payload; the mask leaves it. *)
Lemma copied_length (payload : list byte) :
  let n := Z.of_nat (length (take 512 payload)) in
  (if DNS_MAX_PAYLOAD <? Z.of_nat (length payload) then DNS_MAX_PAYLOAD
   else Z.of_nat (length payload)) = n /\
  Z.land n 1023 = n /\ (DNS_MAX_PAYLOAD <? n) = false /\ slice 0 (Z.to_nat n) payload = take 512 payload.
Proof.
  cbv zeta. rewrite length_take. change 1023 with (Z.ones 10). rewrite Z.land_ones by lia.
  unfold DNS_MAX_PAYLOAD. split_and!.
  - destruct (Z.ltb_spec 512 (Z.of_nat (length payload))); lia.
  - apply Z.mod_small. lia.
  - apply Z.ltb_ge. lia.
  - unfold slice. rewrite drop_0, Nat2Z.id.
    destruct (decide (512 <= length payload)%nat); [f_equal; lia|by rewrite !take_ge by lia].
Qed.

(** The program on a packet whose transport header starts at [l4off]. *)
Lemma dns_at_offset hdr udp payload reserve s :
  Z.of_nat (length (hdr ++ udp ++ payload)) < 2 ^ 32 ->
  wf_reserve dns_event_fields reserve -> length udp = 8%nat ->
  udp_offset (hdr ++ udp ++ payload) = Some (Z.of_nat (length hdr)) ->
  skb_load_bytes (hdr ++ udp ++ payload) (Z.of_nat (length hdr)) 2 = Some (take 2 udp) ->
  let msg := take 512 payload in
  handle_dns_ingress reserve (hdr ++ udp ++ payload) s =
  (1, match reserve with
      | Some e =>
          if (be_Z (take 2 udp) =? DNS_PORT) && (12 <=? length payload)%nat &&
             bool_decide (is_Some (skb_load_bytes (hdr ++ udp ++ payload)
               (Z.of_nat (length hdr) + 8) (Z.of_nat (length msg))))
          then submit_dns (dns_record msg e) s else s
      | None => s
      end).
Proof.
  intros Hskb Hres Hu Hoff Hport msg. unfold handle_dns_ingress. rewrite Hoff, Hport.
  rewrite !length_app, Hu in Hskb.
  rewrite from_dns_port by (rewrite length_take; lia).
  destruct (be_Z (take 2 udp) =? DNS_PORT); cbn [negb andb]; [|by destruct reserve].
  unfold uint32. rewrite !length_app, Hu.
  rewrite (Z.mod_small (_ + 8)), (Z.mod_small (Z.of_nat _)) by lia.
  replace (Z.of_nat (length hdr + (8 + length payload)) - (Z.of_nat (length hdr) + 8))
    with (Z.of_nat (length payload)) by lia.
  rewrite (Z.mod_small (Z.of_nat (length payload))) by lia.
  destruct (copied_length payload) as (-> & Hmask & Hmax & Hslice). fold msg in Hmask, Hmax, Hslice |- *.
  assert (length msg = 512 `min` length payload)%nat as Hm by apply length_take. unfold DNS_HEADER_LEN.
  destruct (Nat.leb_spec 12 (length payload)) as [H12|H12].
  2: { destruct (Z.leb_spec (Z.of_nat (length hdr + (8 + length payload))) (Z.of_nat (length hdr) + 8));
       destruct (Z.ltb_spec (Z.of_nat (length msg)) 12); try lia; by destruct reserve. }
  destruct (Z.leb_spec (Z.of_nat (length hdr + (8 + length payload))) (Z.of_nat (length hdr) + 8)); [lia|].
  destruct (Z.ltb_spec (Z.of_nat (length msg)) 12); [lia|]. destruct reserve as [e|]; [|done].
  rewrite Hmask, Hmax. destruct (Z.eqb_spec (Z.of_nat (length msg)) 0); [lia|]. cbn [orb andb].
  destruct (skb_load_bytes _ _ (Z.of_nat (length msg))) as [pl|] eqn:Epl; [|done].
  rewrite bool_decide_eq_true_2 by done. apply load_bytes in Epl as (_ & _ & ->).
  rewrite (slice_skip _ _ hdr _ (length hdr)), (slice_skip _ _ udp payload 8) by lia.
  replace (Z.to_nat (Z.of_nat (length hdr) + 8) - length hdr - 8)%nat with 0%nat by lia.
  rewrite Hslice, dns_record_written by (first [by apply Hres | lia]). done.
Qed.
End dns_lemmas.

(** Everything the program loads is in front of the payload it copies. *)
Lemma dns_ingress_cases `{SkbHelpersLaws} reserve skb s :
  Z.of_nat (length skb) < 2 ^ 32 -> wf_reserve dns_event_fields reserve ->
  handle_dns_ingress reserve skb s = (1, s) \/
  exists payload e, reserve = Some e /\ dns_response skb payload /\ (12 <= length payload)%nat /\
    handle_dns_ingress reserve skb s = (1, submit_dns (dns_record (take 512 payload) e) s).
Proof.
  intros Hskb Hres. destruct (udp_offset skb) as [o|] eqn:Eo.
  2: { left. unfold handle_dns_ingress. by rewrite Eo. }
  destruct (skb_load_bytes skb o 2) as [port|] eqn:Ep.
  2: { left. unfold handle_dns_ingress. by rewrite Eo, Ep. }
  pose proof (udp_offset_sound _ _ Eo) as [Ho Hip].
  pose proof (load_bytes _ _ _ _ Ep) as (_ & Hlen & Hport).
  set (hdr := take (Z.to_nat o) skb). set (rest := drop (Z.to_nat o) skb).
  assert (Z.of_nat (length hdr) = o) as Hhdr by (unfold hdr; rewrite length_take; lia).
  destruct (decide (8 <= length rest)%nat) as [H8|H8].
  - assert (skb = hdr ++ take 8 rest ++ drop 8 rest) as Hsk by (unfold hdr, rest; by rewrite !take_drop).
    assert (port = take 2 (take 8 rest)) as Hp.
    { rewrite Hport. unfold slice. fold rest. rewrite take_take. by rewrite Nat.min_l by lia. }
    rewrite <- Hhdr in Eo, Ep. rewrite Hsk in Hskb, Eo, Ep |- *.
    rewrite (dns_at_offset hdr (take 8 rest) (drop 8 rest) reserve s);
      [|done|done|rewrite length_take; lia|done|by rewrite Ep, Hp].
    destruct reserve as [e|]; [|by left].
    destruct (Z.eqb_spec (be_Z (take 2 (take 8 rest))) DNS_PORT) as [Hd|]; [|by left].
    destruct (Nat.leb_spec 12 (length (drop 8 rest))) as [H12|]; [|by left].
    destruct (bool_decide _); [|by left]. right. exists (drop 8 rest), e.
    split_and!; try done. exists hdr, (take 8 rest). split_and!; try done.
    + apply Hip. lia.
    + rewrite length_take. lia.
  - left. unfold handle_dns_ingress. rewrite Eo, Ep. destruct (negb _); [done|].
    unfold rest in H8. rewrite length_drop in H8. unfold uint32. rewrite !Z.mod_small by lia.
    destruct (Z.leb_spec (Z.of_nat (length skb)) (o + 8)); [done|lia].
Qed.

Lemma dns_record_decodes `{DNSParser} msg e :
  (1 <= length msg <= 512)%nat -> length e = sizeof dns_event_fields ->
  DecodeDNS (dns_record msg e) = decode_message msg.
Proof.
  intros Hm He. change (sizeof dns_event_fields) with 514%nat in He. unfold DecodeDNS, dns_record.
  rewrite !length_app, length_le_bytes, length_drop, He.
  destruct (Nat.ltb_spec (2 + (length msg + (514 - (2 + length msg)))) DNSEventSize) as [Hl|_];
    [unfold DNSEventSize, dnsOffPayload, dnsMaxPayload in Hl; lia|].
  change dnsOffPayload with 2%nat. change (Z.of_nat dnsMaxPayload) with 512.
  rewrite take_app_length' by (by rewrite length_le_bytes).
  rewrite le_Z_le_bytes, Z.mod_small by (cbn; lia).
  destruct ((Z.of_nat (length msg) =? 0) || (512 <? Z.of_nat (length msg))) eqn:Hb; [lia|].
  rewrite Nat2Z.id. rewrite (slice_skip _ _ _ _ 2) by (rewrite ?length_le_bytes; lia).
  by rewrite slice_here.
Qed.

(** ** Properties *)

(** C30: the ingress program passes every packet, changes nothing or sends one
    record, and a record it sends is of a UDP packet from port 53 and holds the
    first 512 bytes of what the packet carries; the decoder never rejects the
    record, it parses exactly that message.  When the ring has room and no load
    fails, every such packet of twelve bytes or more is sent. *)
Theorem dns_ingress_refines `{SkbHelpersLaws, DNSParser} reserve skb s
    (Hskb : Z.of_nat (length skb) < 2 ^ 32) (Hres : wf_reserve dns_event_fields reserve) :
  let '(verdict, s') := handle_dns_ingress reserve skb s in
  verdict = 1 /\
  (s' = s \/
   exists payload e, reserve = Some e /\ dns_response skb payload /\ (12 <= length payload)%nat /\
     s' = submit_dns (dns_record (take 512 payload) e) s /\
     DecodeDNS (dns_record (take 512 payload) e) = decode_message (take 512 payload)) /\
  (forall payload e, reserve = Some e -> loads skb -> dns_response skb payload ->
     (12 <= length payload)%nat -> s' = submit_dns (dns_record (take 512 payload) e) s).
Proof.
  destruct (handle_dns_ingress reserve skb s) as [v s'] eqn:Eh. split; [|split].
  - by destruct (dns_ingress_cases reserve skb s Hskb Hres) as [Hc|(? & ? & _ & _ & _ & Hc)];
      rewrite Eh in Hc; injection Hc.
  - destruct (dns_ingress_cases reserve skb s Hskb Hres) as [Hc|(pl & e & Hre & Hd & Hl & Hc)];
      rewrite Eh in Hc; injection Hc as _ ->; [by left|]. right. exists pl, e. split_and!; try done.
    apply dns_record_decodes; [rewrite length_take; lia|by apply Hres].
  - intros pl e -> Hload (hdr & udp & -> & Hip & Hu & Hport) Hl.
    assert (skb_load_bytes (hdr ++ udp ++ pl) (Z.of_nat (length hdr)) 2 = Some (take 2 udp)) as Hp.
    { destruct (Hload (Z.of_nat (length hdr)) 2) as [bs Hb]; [lia..|rewrite !length_app; lia|].
      rewrite Hb. apply load_bytes in Hb as (_ & _ & ->).
      rewrite (slice_skip _ _ hdr _ (length hdr)), Nat2Z.id, Nat.sub_diag by lia.
      unfold slice. rewrite drop_0, take_app_le by lia. done. }
    rewrite (dns_at_offset hdr udp pl (Some e) s) in Eh; [|done..|by apply udp_offset_complete|exact Hp].
    rewrite Hport in Eh. cbn [Z.eqb DNS_PORT Pos.eqb andb] in Eh.
    destruct (Nat.leb_spec 12 (length pl)); [|lia].
    rewrite bool_decide_eq_true_2 in Eh; [by injection Eh|].
    apply Hload; rewrite ?length_app, ?length_take; lia.
Qed.

(** ** Witness *)

Definition garbage (fields : list nat) : option (list byte) := Some (replicate (sizeof fields) xa5).
Lemma garbage_ok fields : wf_reserve fields (garbage fields).
Proof. intros e [= <-]. apply length_replicate. Qed.

Definition plain_load : SkbHelpers := fun skb off n =>
  if (0 <=? off) && (off + n <=? Z.of_nat (length skb))
  then Some (slice (Z.to_nat off) (Z.to_nat n) skb) else None.

Lemma plain_load_laws : @SkbHelpersLaws plain_load.
Proof.
  constructor. intros skb off n bs. unfold skb_load_bytes, plain_load.
  destruct (Z.leb_spec 0 off); [|done]. destruct (Z.leb_spec (off + n) (Z.of_nat (length skb))); [|done].
  by intros [= <-].
Defined.

(** An IPv4 header, a UDP header from port 53, a message of twelve bytes. *)
Definition dns_packet : list byte :=
  [x45] ++ replicate 8 x00 ++ [x11] ++ replicate 10 x00 ++ [x00; x35] ++ replicate 6 x00 ++ replicate 12 x07.

Lemma dns_ingress_refines_witness :
  @handle_dns_ingress plain_load (garbage dns_event_fields) dns_packet NewProbe =
    (1, submit_dns (dns_record (replicate 12 x07) (replicate 514 xa5)) NewProbe).
Proof.
  pose proof (@dns_ingress_refines plain_load plain_load_laws sample_dns_parser
    (garbage dns_event_fields) dns_packet NewProbe ltac:(vm_compute; reflexivity) (garbage_ok _)) as H.
  destruct (@handle_dns_ingress plain_load (garbage dns_event_fields) dns_packet NewProbe) as [v s'].
  destruct H as (-> & _ & H). rewrite (H (replicate 12 x07) (replicate 514 xa5)); [reflexivity|reflexivity| | |cbn; lia].
  - intros off n H1 H2 H3. unfold skb_load_bytes, plain_load.
    rewrite (proj2 (Z.leb_le 0 off) H1), (proj2 (Z.leb_le _ _) H3). by eexists.
  - exists ([x45] ++ replicate 8 x00 ++ [x11] ++ replicate 10 x00), ([x00; x35] ++ replicate 6 x00).
    split_and!; [reflexivity| |reflexivity|vm_compute; reflexivity].
    left. split_and!; [reflexivity|reflexivity|cbn; lia|reflexivity].
Defined.
