(* ===== verification/Sockets.v ===== *)
(** * Sockets: the connection probe among the kernel's sockets (bpf/sniffer.c)

    [kstep] interleaves the two connection programs of [Probe] with the life of
    the kernel's sockets, whose addresses are reused.  It takes from the kernel
    that tcp_connect runs on a socket without a connection, that a socket reaches
    ESTABLISHED once per connection, and that a socket still connecting is not
    freed without passing TCP_CLOSE; a socket that was established may be, as
    one that ends in TIME_WAIT is.  A program is one step: the kernel runs those
    of one socket under its lock, and those of different sockets touch different
    entries. *)

From S2P Require Import Prelude Golang Netip Model Decode Probe.
Open Scope string_scope.
Open Scope list_scope.
Open Scope Z_scope.

(** ** The kernel's sockets *)

(** A socket without a connection; connecting, by whom, and whether its entry
    is still in the LRU map; or established at some time. *)
Inductive sock :=
| Unconnected
| Connecting (owner : pid_info) (kept : bool)
| Established.

(** A record that was sent, with the socket's history as a ghost. *)
Record sent := mkSent {
  se_ctx : set_state_ctx;
  se_sock : sock;
  se_bytes : list byte
}.

Record world := mkWorld {
  socks : gmap Z sock;
  wprobe : probe;
  history : list sent
}.
Definition boot : world := mkWorld ∅ NewProbe [].

Definition set_sock (a : Z) (k : sock) (w : world) : world :=
  mkWorld (<[a := k]> (socks w)) (wprobe w) (history w).
Definition set_wprobe (s : probe) (w : world) : world := mkWorld (socks w) s (history w).
Definition log_sent (x : list sent) (w : world) : world :=
  mkWorld (socks w) (wprobe w) (history w ++ x).

(** What the tracepoint appended to the ring. *)
Definition appended (s s' : probe) : list (list byte) := drop (length (events s)) (events s').

Definition forget (k : sock) : sock :=
  match k with Connecting owner _ => Connecting owner false | _ => k end.

(** A successful update has room in the map; the LRU makes it by an eviction. *)
Definition has_room (a : Z) (m : gmap Z pid_info) : Prop :=
  is_Some (m !! a) \/ (size m < max_entries)%nat.
Definition update_elem (a : Z) (i : pid_info) (m : gmap Z pid_info) : gmap Z pid_info := <[a := i]> m.
Definition update_fails (a : Z) (i : pid_info) (m : gmap Z pid_info) : gmap Z pid_info := m.

(** A transition of the socket at [skaddr ctx], traced. *)
Definition traced (reserve : option (list byte)) (ctx : set_state_ctx) (k : sock) (w : world) : world :=
  let s := handle_set_state reserve ctx (wprobe w) in
  log_sent (mkSent ctx k <$> appended (wprobe w) s) (set_wprobe s w).

Inductive kstep : world -> world -> Prop :=
| k_alloc a w : socks w !! a = None -> kstep w (set_sock a Unconnected w)
| k_connect a pid_tgid comm w :
    socks w !! a = Some Unconnected -> length comm = 16%nat -> has_room a (pid_by_sock (wprobe w)) ->
    kstep w (set_sock a (Connecting (mkPidInfo (uint32 (Z.shiftr pid_tgid 32)) comm) true)
      (set_wprobe (handle_tcp_connect update_elem pid_tgid comm a (wprobe w)) w))
| k_connect_unmapped a pid_tgid comm w :
    socks w !! a = Some Unconnected -> length comm = 16%nat ->
    kstep w (set_sock a (Connecting (mkPidInfo (uint32 (Z.shiftr pid_tgid 32)) comm) false)
      (set_wprobe (handle_tcp_connect update_fails pid_tgid comm a (wprobe w)) w))
| k_established a k ctx reserve w :
    socks w !! a = Some k -> k <> Established -> wf_ctx ctx -> skaddr ctx = a ->
    newstate ctx = TCP_ESTABLISHED -> wf_reserve conn_event_fields reserve ->
    kstep w (set_sock a Established (traced reserve ctx k w))
| k_other k ctx reserve w :
    socks w !! skaddr ctx = Some k -> newstate ctx <> TCP_ESTABLISHED -> newstate ctx <> TCP_CLOSE ->
    kstep w (traced reserve ctx k w)
| k_close a k ctx reserve w :
    socks w !! a = Some k -> skaddr ctx = a -> newstate ctx = TCP_CLOSE ->
    kstep w (set_sock a Unconnected (traced reserve ctx k w))
| k_free a k w :
    socks w !! a = Some k -> k = Unconnected \/ k = Established ->
    kstep w (mkWorld (delete a (socks w)) (wprobe w) (history w))
| k_evict a w :
    kstep w (mkWorld (alter forget a (socks w))
      (set_pid_by_sock (delete a (pid_by_sock (wprobe w))) (wprobe w)) (history w)).

Definition kreachable : world -> Prop := reachable (fun w => w = boot) kstep.

(** Whom the record of a socket names. *)
Definition known_owner (k : sock) : option pid_info :=
  match k with Connecting owner true => Some owner | _ => None end.

(** ** Invariants *)

Definition sock_ok (k : sock) : Prop :=
  match k with Connecting owner _ => wf_info owner | _ => True end.
Definition sent_ok (r : sent) : Prop :=
  se_bytes r = conn_event_bytes (report (se_ctx r) (known_owner (se_sock r))) /\
  wf_ctx (se_ctx r) /\ sock_ok (se_sock r) /\ se_sock r <> Established.

Record world_ok (w : world) : Prop := {
  w_entries : forall a, pid_by_sock (wprobe w) !! a = socks w !! a ≫= known_owner;
  w_socks : map_Forall (fun _ => sock_ok) (socks w);
  w_size : (size (pid_by_sock (wprobe w)) <= max_entries)%nat;
  w_history : Forall sent_ok (history w)
}.

Lemma wf_known_owner k : sock_ok k -> wf_owner (known_owner k).
Proof. by destruct k as [|? []|]. Qed.

Lemma appended_submit e s m : appended s (submit e (set_pid_by_sock m s)) = [e].
Proof. unfold appended. cbn. apply drop_app_length. Qed.

Lemma appended_none s m : appended s (set_pid_by_sock m s) = [].
Proof. unfold appended. cbn. apply drop_all. Qed.

(** The map after a traced transition, and what it sends. *)
Lemma traced_cases reserve ctx s :
  wf_reserve conn_event_fields reserve ->
  wf_ctx ctx -> wf_owner (pid_by_sock s !! skaddr ctx) ->
  newstate ctx = TCP_ESTABLISHED ->
  let s' := handle_set_state reserve ctx s in
  pid_by_sock s' = delete (skaddr ctx) (pid_by_sock s) /\
  (appended s s' = [] \/
   appended s s' = [conn_event_bytes (report ctx (pid_by_sock s !! skaddr ctx))]).
Proof.
  intros Hres Hctx Ho Hn. cbv zeta.
  destruct (decide (family ctx = AF_INET \/ family ctx = AF_INET6)) as [Hf|Hf].
  - destruct reserve as [e|].
    + rewrite handle_set_state_established by auto. split; [done|]. right. apply appended_submit.
    + unfold handle_set_state. rewrite Hn. cbn [Z.eqb TCP_ESTABLISHED TCP_CLOSE negb].
      assert (negb (family ctx =? AF_INET) && negb (family ctx =? AF_INET6) = false) as ->
        by (unfold AF_INET, AF_INET6 in *; lia).
      split; [done|]. left. apply appended_none.
  - unfold handle_set_state. rewrite Hn. cbn [Z.eqb TCP_ESTABLISHED TCP_CLOSE negb].
    assert (negb (family ctx =? AF_INET) && negb (family ctx =? AF_INET6) = true) as ->
      by (unfold AF_INET, AF_INET6 in *; lia).
    split; [done|]. left. apply appended_none.
Qed.

Lemma untraced reserve ctx k w :
  newstate ctx <> TCP_ESTABLISHED -> newstate ctx <> TCP_CLOSE -> traced reserve ctx k w = w.
Proof.
  intros H1 H2. unfold traced, handle_set_state, TCP_ESTABLISHED, TCP_CLOSE in *.
  destruct (Z.eqb_spec (newstate ctx) 7); [done|]. destruct (Z.eqb_spec (newstate ctx) 1); [done|].
  cbn [negb]. unfold appended. rewrite drop_all. destruct w. unfold log_sent. cbn. by rewrite app_nil_r.
Qed.

Lemma traced_close reserve ctx k w :
  newstate ctx = TCP_CLOSE ->
  traced reserve ctx k w =
  set_wprobe (set_pid_by_sock (delete (skaddr ctx) (pid_by_sock (wprobe w))) (wprobe w)) w.
Proof.
  intros H. unfold traced.
  assert (handle_set_state reserve ctx (wprobe w) =
    set_pid_by_sock (delete (skaddr ctx) (pid_by_sock (wprobe w))) (wprobe w)) as ->
    by (unfold handle_set_state; by rewrite H).
  cbv zeta. rewrite appended_none. unfold log_sent. cbn. by rewrite app_nil_r.
Qed.

(** Changing one socket and its entry alike keeps the map exact. *)
Lemma entries_change a k (m m' : gmap Z pid_info) (ss : gmap Z sock) :
  (forall b, m !! b = ss !! b ≫= known_owner) ->
  m' !! a = known_owner k -> (forall b, b <> a -> m' !! b = m !! b) ->
  forall b, m' !! b = <[a := k]> ss !! b ≫= known_owner.
Proof.
  intros Hm Ha Hb b. destruct (decide (b = a)) as [->|Hne].
  - by rewrite Ha, lookup_insert_eq.
  - by rewrite Hb, Hm, lookup_insert_ne.
Qed.

Lemma world_ok_boot : world_ok boot.
Proof.
  split; [done|by intros ? ?|cbn; rewrite map_size_empty; lia|by apply Forall_nil].
Qed.

Lemma size_delete_le a (m : gmap Z pid_info) : (size (delete a m) <= size m)%nat.
Proof. apply map_subseteq_size, delete_subseteq. Qed.

Lemma size_update a i (m : gmap Z pid_info) :
  has_room a m -> (size m <= max_entries)%nat -> (size (<[a := i]> m) <= max_entries)%nat.
Proof.
  intros Hroom Hs. rewrite map_size_insert. destruct (m !! a) eqn:E; [done|].
  destruct Hroom as [[? Hi]|]; [by rewrite E in Hi|lia].
Qed.

Lemma wf_new_info pid_tgid comm :
  length comm = 16%nat -> wf_info (mkPidInfo (uint32 (Z.shiftr pid_tgid 32)) comm).
Proof. intros H. split; [|done]. apply Z.mod_pos_bound. lia. Qed.

Lemma world_ok_step w w' : world_ok w -> kstep w w' -> world_ok w'.
Proof.
  intros [He Hs Hz Hh] Hk. destruct Hk as [a w Ha|a pt comm w Ha Hc Hroom|a pt comm w Ha Hc
    |a k ctx res w Ha Hne Hctx Hsk Hn Hres|k ctx res w Ha Hn1 Hn2|a k ctx res w Ha Hsk Hn|a k w Ha Hk|a w].
  - split; cbn; [|by apply map_Forall_insert_2|done|done].
    apply (entries_change _ _ (pid_by_sock (wprobe w))); [done| |done]. by rewrite He, Ha.
  - split; cbn; [|by apply map_Forall_insert_2; [apply wf_new_info|]|by apply size_update|done].
    apply (entries_change _ _ (pid_by_sock (wprobe w))); [done|apply lookup_insert_eq|].
    intros b Hb. by apply lookup_insert_ne.
  - split; cbn; [|by apply map_Forall_insert_2; [apply wf_new_info|]|done|done].
    apply (entries_change _ _ (pid_by_sock (wprobe w))); [done| |done]. by rewrite He, Ha.
  - assert (pid_by_sock (wprobe w) !! skaddr ctx = known_owner k) as Hown by (by rewrite Hsk, He, Ha).
    assert (sock_ok k) as Hwk by (by apply (Hs a)).
    destruct (traced_cases res ctx (wprobe w)) as [Hp Happ]; [done|done|by rewrite Hown; apply wf_known_owner|done|].
    rewrite Hown in Happ. split; cbn [socks wprobe history set_sock traced log_sent set_wprobe].
    + rewrite Hp, Hsk. apply (entries_change _ _ (pid_by_sock (wprobe w))); [done|apply lookup_delete_eq|].
      intros b Hb. by apply lookup_delete_ne.
    + by apply map_Forall_insert_2.
    + rewrite Hp. etrans; [apply size_delete_le|done].
    + apply Forall_app. split; [done|]. destruct Happ as [->| ->]; [by apply Forall_nil|]. by apply Forall_singleton.
  - by rewrite untraced.
  - rewrite traced_close by done. split; cbn; [|by apply map_Forall_insert_2| |done].
    + rewrite Hsk. apply (entries_change _ _ (pid_by_sock (wprobe w))); [done|apply lookup_delete_eq|].
      intros b Hb. by apply lookup_delete_ne.
    + etrans; [apply size_delete_le|done].
  - split; cbn; [|by apply map_Forall_delete|done|done].
    intros b. rewrite He. destruct (decide (b = a)) as [->|Hb].
    + rewrite lookup_delete_eq, Ha. by destruct Hk as [->| ->].
    + by rewrite lookup_delete_ne.
  - split; cbn; [| |etrans; [apply size_delete_le|done]|done].
    + intros b. destruct (decide (b = a)) as [->|Hb].
      * rewrite lookup_delete_eq, lookup_alter_eq. by destruct (socks w !! a) as [[|? []|]|].
      * by rewrite lookup_delete_ne, lookup_alter_ne, He.
    + intros b k Hb. apply lookup_alter_Some in Hb as [(<- & k' & Hk & ->)|[_ Hb]]; [|by apply (Hs b)].
      specialize (Hs a k' Hk). by destruct k'.
Qed.

Lemma world_ok_reachable w : kreachable w -> world_ok w.
Proof.
  apply reachable_invariant; [by intros ? ->; apply world_ok_boot|]. intros. by eapply world_ok_step.
Qed.

Lemma decode_sent {P} r : sent_ok r ->
  Decode (P:=P) (se_bytes r) = Ok (half (se_ctx r) (known_owner (se_sock r))).
Proof.
  intros (-> & Hctx & Hk & _). apply decode_report; [done|]. by apply wf_known_owner.
Qed.

(** ** Properties *)

(** C23: the LRU map holds the entry of every socket that is connecting and was
    not evicted, and nothing else: whatever the sockets do and however their
    addresses are reused, an entry never outlives the connect it belongs to, so
    an accepted socket never finds one.  The map stays within its capacity. *)
Theorem probe_entries_live w (Hw : kreachable w) :
  (forall a i, pid_by_sock (wprobe w) !! a = Some i <-> socks w !! a = Some (Connecting i true)) /\
  (size (pid_by_sock (wprobe w)) <= max_entries)%nat.
Proof.
  destruct (world_ok_reachable w Hw) as [He _ Hz _]. split; [|done].
  intros a i. rewrite He. destruct (socks w !! a) as [[|o []|]|]; cbn; split; intros H; simplify_eq; done.
Qed.

(** C22: every record the probe ever sent decodes, and decodes to the half of the
    connection it saw: the caller's, with the pid and name captured in
    tcp_connect, exactly if its socket had called connect and its entry was not
    evicted; otherwise the accepting half, without an owner: the record of a
    caller whose entry was evicted or refused is that of an accepted socket. *)
Theorem probe_records_truthful {P} w r (Hw : kreachable w) (Hr : r ∈ history w) :
  let ctx := se_ctx r in
  let proto := uint8 (protocol ctx) in
  exists ev, Decode (P:=P) (se_bytes r) = Ok ev /\
    match se_sock r with
    | Connecting i true =>
        ev = client_half (local_addr ctx) (remote_addr ctx) (sport ctx) (dport ctx) proto
               (pi_pid i) (decodeComm (pi_comm i))
    | _ => ev = server_half (remote_addr ctx) (local_addr ctx) (dport ctx) (sport ctx) proto
    end.
Proof.
  cbv zeta. destruct (world_ok_reachable w Hw) as [_ _ _ Hh].
  rewrite Forall_forall in Hh. eexists. split; [by apply decode_sent, Hh|].
  by destruct (se_sock r) as [|i []|].
Qed.

(** Losing the entry therefore turns the call around: [Canonical] takes the
    caller for the callee and its ephemeral port for the service's, and the edge
    is then dropped if the real callee is in the cluster and reported backwards
    if it is external. *)
Lemma lost_entry_reverses_call {P} w r owner :
  kreachable w -> r ∈ history w -> se_sock r = Connecting owner false ->
  exists ev, Decode (P:=P) (se_bytes r) = Ok ev /\
    SrcIP (Canonical ev) = remote_addr (se_ctx r) /\ DstIP (Canonical ev) = local_addr (se_ctx r) /\
    DstPort (Canonical ev) = sport (se_ctx r) /\ Outbound ev = false.
Proof.
  intros Hw Hr Hs. destruct (world_ok_reachable w Hw) as [_ _ _ Hh]. rewrite Forall_forall in Hh.
  eexists. split; [by apply decode_sent, Hh|]. by rewrite Hs.
Qed.

(** C24: the records of the two ends of one connection, captured on any two nodes,
    decode to events that [Canonical] turns into the same caller -> callee tuple
    with the callee's port as destination; the flag tells the ends apart, and
    every node-local filter treats them alike.  The ends may disagree on the
    address family, as when a dual-stack socket accepts an IPv4 connection. *)
Theorem two_ends_one_call {P} w1 w2 r1 r2 owner
    (Hw1 : kreachable w1) (Hw2 : kreachable w2) (Hr1 : r1 ∈ history w1) (Hr2 : r2 ∈ history w2)
    (Hcaller : se_sock r1 = Connecting owner true) (Hcallee : se_sock r2 = Unconnected)
    (Hlocal : local_addr (se_ctx r2) = remote_addr (se_ctx r1))
    (Hremote : remote_addr (se_ctx r2) = local_addr (se_ctx r1))
    (Hsport : sport (se_ctx r2) = dport (se_ctx r1)) (Hdport : dport (se_ctx r2) = sport (se_ctx r1))
    (Hproto : protocol (se_ctx r2) = protocol (se_ctx r1)) :
  exists e1 e2, Decode (P:=P) (se_bytes r1) = Ok e1 /\ Decode (P:=P) (se_bytes r2) = Ok e2 /\
    let o := Canonical e1 in
    let a := Canonical e2 in
    (SrcIP o, DstIP o, SrcPort o, DstPort o, EvProtocol o) =
      (SrcIP a, DstIP a, SrcPort a, DstPort a, EvProtocol a) /\
    SrcIP o = local_addr (se_ctx r1) /\ DstPort o = dport (se_ctx r1) /\
    Outbound o = true /\ PID o = pi_pid owner /\ Outbound a = false /\ PID a = 0 /\
    EvIsLoopback o = EvIsLoopback a /\ IsSelfEdge o = IsSelfEdge a /\
    IsAWSReserved o = IsAWSReserved a /\ IsLinkLocal o = IsLinkLocal a.
Proof.
  destruct (world_ok_reachable w1 Hw1) as [_ _ _ Hh1]. destruct (world_ok_reachable w2 Hw2) as [_ _ _ Hh2].
  rewrite Forall_forall in Hh1, Hh2. do 2 eexists. split; [by apply decode_sent, Hh1|].
  split; [by apply decode_sent, Hh2|]. rewrite Hcaller, Hcallee. cbn [known_owner half].
  rewrite Hlocal, Hremote, Hsport, Hdport, Hproto. cbv zeta.
  destruct (canonical_halves_agree (local_addr (se_ctx r1)) (remote_addr (se_ctx r1)) (sport (se_ctx r1))
    (dport (se_ctx r1)) (uint8 (protocol (se_ctx r1))) (pi_pid owner) (decodeComm (pi_comm owner)))
    as (_ & _ & _ & _ & H1 & H2 & H3 & H4).
  rewrite H1, H2, H3, H4, EvIsLoopback_Canonical, IsSelfEdge_Canonical, IsAWSReserved_Canonical,
    IsLinkLocal_Canonical.
  by split_and!.
Qed.

(** ** Witnesses *)

Definition curl_comm : list byte := bytes_of_string "curl" ++ replicate 12 x00.
Definition curl_tgid : Z := 4242 * 2 ^ 32 + 4243.
Definition curl : pid_info := mkPidInfo 4242 curl_comm.

Definition ip_caller : list byte := [x0a; x00; x00; x05].
Definition ip_callee : list byte := [x0a; x00; x00; x09].
Definition mapped (ip : list byte) : list byte := replicate 10 x00 ++ [xff; xff] ++ ip.
Definition ctx_client : set_state_ctx :=
  mkCtx 100 TCP_ESTABLISHED AF_INET 6 40000 8080 ip_caller ip_callee (mapped ip_caller) (mapped ip_callee).
(** A dual-stack listener: the same connection reported as IPv6. *)
Definition ctx_server (sk : Z) : set_state_ctx :=
  mkCtx sk TCP_ESTABLISHED AF_INET6 6 8080 40000 (replicate 4 x00) (replicate 4 x00)
    (mapped ip_callee) (mapped ip_caller).

(** curl connects; its socket ends in TIME_WAIT and is freed without a
    TCP_CLOSE; an accepted connection reuses its address. *)
Definition w_connecting : world :=
  let w := set_sock 100 Unconnected boot in
  set_sock 100 (Connecting curl true)
    (set_wprobe (handle_tcp_connect update_elem curl_tgid curl_comm 100 (wprobe w)) w).
Definition w_connected : world :=
  set_sock 100 Established (traced (garbage conn_event_fields) ctx_client (Connecting curl true) w_connecting).
Definition w_reused : world :=
  let w := mkWorld (delete 100 (socks w_connected)) (wprobe w_connected) (history w_connected) in
  let w := set_sock 100 Unconnected w in
  set_sock 100 Established (traced (garbage conn_event_fields) (ctx_server 100) Unconnected w).

Lemma reach_connecting : kreachable w_connecting.
Proof.
  eapply reach_step; [eapply reach_step; [by apply reach_init|by apply (k_alloc 100)]|].
  apply (k_connect 100 curl_tgid curl_comm); [done|done|]. right.
  cbn [wprobe set_sock boot NewProbe pid_by_sock]. rewrite map_size_empty. unfold max_entries. lia.
Qed.

Lemma reach_connected : kreachable w_connected.
Proof.
  eapply reach_step; [apply reach_connecting|].
  apply k_established; [done|done|split; cbn; done || lia|done|done|apply garbage_ok].
Qed.

Lemma reach_reused : kreachable w_reused.
Proof.
  eapply reach_step; [eapply reach_step; [eapply reach_step; [apply reach_connected|]|]|].
  - by apply (k_free 100 Established); [|right].
  - by apply (k_alloc 100).
  - apply k_established; [done|done|split; cbn; done || lia|done|done|apply garbage_ok].
Qed.

Lemma reused_history :
  exists b1 b2, history w_reused =
    [mkSent ctx_client (Connecting curl true) b1; mkSent (ctx_server 100) Unconnected b2].
Proof. do 2 eexists. vm_compute. reflexivity. Qed.

Lemma probe_entries_live_witness :
  pid_by_sock (wprobe w_connecting) !! 100 = Some curl /\ pid_by_sock (wprobe w_reused) !! 100 = None.
Proof.
  split.
  - by apply (probe_entries_live w_connecting reach_connecting).
  - destruct (pid_by_sock (wprobe w_reused) !! 100) as [i|] eqn:E; [|done].
    by apply (probe_entries_live w_reused reach_reused) in E.
Defined.

Lemma probe_records_truthful_witness :
  exists b1 b2, history w_reused =
    [mkSent ctx_client (Connecting curl true) b1; mkSent (ctx_server 100) Unconnected b2] /\
  Decode (P:=unit) b1 =
    Ok (client_half (Addr4 x0a x00 x00 x05) (Addr4 x0a x00 x00 x09) 40000 8080 6 4242 "curl") /\
  Decode (P:=unit) b2 = Ok (server_half (Addr4 x0a x00 x00 x05) (Addr4 x0a x00 x00 x09) 40000 8080 6).
Proof.
  destruct reused_history as (b1 & b2 & Hh). exists b1, b2. split; [exact Hh|]. split.
  - destruct (probe_records_truthful (P:=unit) w_reused (mkSent ctx_client (Connecting curl true) b1)
      reach_reused) as (ev & Hd & Hev); [rewrite Hh; left|].
    cbn [se_bytes se_sock se_ctx] in *. rewrite Hd, Hev. vm_compute. reflexivity.
  - destruct (probe_records_truthful (P:=unit) w_reused (mkSent (ctx_server 100) Unconnected b2)
      reach_reused) as (ev & Hd & Hev); [rewrite Hh; right; left|].
    cbn [se_bytes se_sock se_ctx] in *. rewrite Hd, Hev. vm_compute. reflexivity.
Defined.

Lemma two_ends_one_call_witness :
  exists b1 b2 e1 e2, Decode (P:=unit) b1 = Ok e1 /\ Decode (P:=unit) b2 = Ok e2 /\
    SrcIP (Canonical e1) = SrcIP (Canonical e2) /\ DstPort (Canonical e2) = 8080.
Proof.
  destruct reused_history as (b1 & b2 & Hh). exists b1, b2.
  destruct (two_ends_one_call (P:=unit) w_reused w_reused (mkSent ctx_client (Connecting curl true) b1)
    (mkSent (ctx_server 100) Unconnected b2) curl reach_reused reach_reused
    ltac:(rewrite Hh; left) ltac:(rewrite Hh; right; left) eq_refl eq_refl eq_refl eq_refl eq_refl eq_refl eq_refl)
    as (e1 & e2 & H1 & H2 & Ht & _ & Hp & _).
  exists e1, e2. split; [exact H1|]. split; [exact H2|]. injection Ht as Hs _ _ Hdp _.
  split; [exact Hs|]. rewrite <- Hdp. exact Hp.
Defined.
