(* ===== verification/Loader.v ===== *)
(** * Loader: the eBPF objects a collector owns (internal/bpf/loader_linux.go, bpf.go, loader_other.go)

    [New] and [AttachDNS] acquire kernel objects step by step and give back what
    they hold when a step fails; [Close] gives back everything.  The kernel and
    the library that talks to it are the class [BpfLib]; what its documentation
    says of which handles a call leaves open is [BpfLibLaws].  The generated
    functions [loadSniffer] and [_SnifferClose] are part of that class.  A
    [_SnifferClose] that fails may leave some of its programs and maps open;
    [loader_lifecycle] says what holds then and what if it never does
    ([clean_close]). *)

From S2P Require Import Prelude.
Open Scope string_scope.
Open Scope list_scope.
Open Scope Z_scope.

(** A file descriptor of a program, a map, a link or a reader. *)
Abbreviation handle := Z (only parsing).

(** What a ring-buffer read fails with. *)
Inductive ring_error (E : Type) := RingClosed | RingFailed (e : E).
Arguments RingClosed {E}.
Arguments RingFailed {E} e.

Class BpfLib (K E : Type) := {
  collection_spec : Type;
  RemoveMemlock : K -> option E * K;
  loadSniffer : result E collection_spec;
  LoadAndAssign : collection_spec -> list string -> K -> result E (list handle) * K;
  link_Tracepoint : string -> string -> option handle -> K -> result E handle * K;
  link_AttachTracing : option handle -> K -> result E handle * K;
  link_AttachCgroup : string -> option handle -> K -> result E handle * K;
  ringbuf_NewReader : option handle -> K -> result E handle * K;
  ringbuf_Read : handle -> K -> result (ring_error E) (list byte) * K;
  handle_Close : handle -> K -> option E * K;
  SnifferClose : list (option handle) -> K -> option E * K
}.

Section loader.
Context {K E : Type} `{BpfLib K E}.

(** ** Data *)

Inductive LoaderError :=
| ErrMemlock (e : E)
| ErrSpec (e : E)
| ErrLoadObjects (e : E)
| ErrAttachTracepoint (e : E)
| ErrAttachFentry (e : E)
| ErrOpenRingbuf (e : E)
| ErrLoadDNSObjects (e : E)
| ErrAttachCgroup (path : string) (e : E)
| ErrOpenDNSRingbuf (e : E).

Inductive ReadError := ErrClosed | ErrReadRingbuf (e : E).

Record connObjects := mkConnObjects {
  HandleSetState : option handle;
  HandleTcpConnect : option handle;
  Events : option handle
}.
Record dnsObjects := mkDnsObjects {
  HandleDnsIngress : option handle;
  DnsEvents : option handle
}.

Record Loader := mkLoader {
  spec : collection_spec;
  objs : connObjects;
  links : list handle;
  reader : option handle;
  dnsObjs : dnsObjects;
  dnsReader : option handle
}.
Definition set_links (ls : list handle) (l : Loader) : Loader :=
  mkLoader (spec l) (objs l) ls (reader l) (dnsObjs l) (dnsReader l).
Definition set_reader (r : handle) (l : Loader) : Loader :=
  mkLoader (spec l) (objs l) (links l) (Some r) (dnsObjs l) (dnsReader l).

(** ** Operations *)

Definition connClose (o : connObjects) (k : K) : option E * K :=
  SnifferClose [HandleSetState o; HandleTcpConnect o; Events o] k.
Definition dnsClose (o : dnsObjects) (k : K) : option E * K :=
  SnifferClose [HandleDnsIngress o; DnsEvents o] k.

(** [errors.Join]: nil if every error is. *)
Definition Join (errs : list (option E)) : option (list E) :=
  match omap id errs with [] => None | es => Some es end.

(** The closing of one handle, its error appended to those so far. *)
Definition close_one (s : list (option E) * K) (h : handle) : list (option E) * K :=
  let '(e, k) := handle_Close h s.2 in (s.1 ++ [e], k).

Definition Close (l : Loader) (k : K) : option (list E) * K :=
  let s := ([], k) in
  let s := match reader l with Some r => close_one s r | None => s end in
  let s := match dnsReader l with Some r => close_one s r | None => s end in
  let '(errs, k) := foldl close_one s (links l) in
  let '(e1, k) := connClose (objs l) k in
  let '(e2, k) := dnsClose (dnsObjs l) k in
  (Join (errs ++ [e1; e2]), k).

(** [LoadAndAssign] fills the fields of the struct in the order of their tags. *)
Definition load_conn (s : collection_spec) (k : K) : result E connObjects * K :=
  let '(r, k) := LoadAndAssign s ["handle_set_state"; "handle_tcp_connect"; "events"] k in
  (hs ← r; mret (mkConnObjects (hs !! 0%nat) (hs !! 1%nat) (hs !! 2%nat)), k).
Definition load_dns (s : collection_spec) (k : K) : result E dnsObjects * K :=
  let '(r, k) := LoadAndAssign s ["handle_dns_ingress"; "dns_events"] k in
  (hs ← r; mret (mkDnsObjects (hs !! 0%nat) (hs !! 1%nat)), k).

Definition New (k : K) : result LoaderError Loader * K :=
  let '(err, k) := RemoveMemlock k in
  match err with
  | Some e => (Err (ErrMemlock e), k)
  | None =>
  match loadSniffer with
  | Err e => (Err (ErrSpec e), k)
  | Ok s =>
  let '(r, k) := load_conn s k in
  match r with
  | Err e => (Err (ErrLoadObjects e), k)
  | Ok o =>
  let l := mkLoader s o [] None (mkDnsObjects None None) None in
  let '(r, k) := link_Tracepoint "sock" "inet_sock_set_state" (HandleSetState (objs l)) k in
  match r with
  | Err e => (Err (ErrAttachTracepoint e), (Close l k).2)
  | Ok tp =>
  let l := set_links (links l ++ [tp]) l in
  let '(r, k) := link_AttachTracing (HandleTcpConnect (objs l)) k in
  match r with
  | Err e => (Err (ErrAttachFentry e), (Close l k).2)
  | Ok fe =>
  let l := set_links (links l ++ [fe]) l in
  let '(r, k) := ringbuf_NewReader (Events (objs l)) k in
  match r with
  | Err e => (Err (ErrOpenRingbuf e), (Close l k).2)
  | Ok rd => (Ok (set_reader rd l), k)
  end end end end end end.

(** The receiver's new value comes with the error. *)
Definition AttachDNS (cgroupPath : string) (l : Loader) (k : K) : option LoaderError * Loader * K :=
  let '(r, k) := load_dns (spec l) k in
  match r with
  | Err e => (Some (ErrLoadDNSObjects e), l, k)
  | Ok o =>
  let '(r, k) := link_AttachCgroup cgroupPath (HandleDnsIngress o) k in
  match r with
  | Err e => (Some (ErrAttachCgroup cgroupPath e), l, (dnsClose o k).2)
  | Ok cg =>
  let '(r, k) := ringbuf_NewReader (DnsEvents o) k in
  match r with
  | Err e =>
      let '(_, k) := handle_Close cg k in
      (Some (ErrOpenDNSRingbuf e), l, (dnsClose o k).2)
  | Ok rd =>
      (None, mkLoader (spec l) (objs l) (links l ++ [cg]) (reader l) o (Some rd), k)
  end end end.

Definition read (r : handle) (k : K) : result ReadError (list byte) * K :=
  match ringbuf_Read r k with
  | (Err RingClosed, k) => (Err ErrClosed, k)
  | (Err (RingFailed e), k) => (Err (ErrReadRingbuf e), k)
  | (Ok raw, k) => (Ok raw, k)
  end.

(** A loader [New] returned has a reader; on a nil one the code panics. *)
Definition Read (l : Loader) (k : K) : option (result ReadError (list byte) * K) :=
  match reader l with Some r => Some (read r k) | None => None end.
Definition ReadDNS (l : Loader) (k : K) : result ReadError (list byte) * K :=
  match dnsReader l with None => (Err ErrClosed, k) | Some r => read r k end.

(** ** A loader's life in the collector *)

(** The start of the collector: DNS capture is tried if asked for, and its
    failure only logged (cmd/sniffer/collector_linux.go). *)
Definition open_loader (dns : option string) (k : K) : result LoaderError Loader * K :=
  match New k with
  | (Err e, k) => (Err e, k)
  | (Ok l, k) =>
      match dns with
      | None => (Ok l, k)
      | Some path => let '(_, l, k) := AttachDNS path l k in (Ok l, k)
      end
  end.

(** The calls its goroutines make, in the order they happen. *)
Inductive lop := LRead | LReadDNS | LClose.
Definition lcall (l : Loader) (k : K) (o : lop) : K :=
  match o with
  | LRead => match Read l k with Some (_, k) => k | None => k end
  | LReadDNS => (ReadDNS l k).2
  | LClose => (Close l k).2
  end.
Definition is_close (o : lop) : bool := match o with LClose => true | _ => false end.
End loader.

(** ** Other platforms *)

Module Other.
Inductive Error := ErrUnsupported.
Inductive Loader := mkLoader.
Definition New : result Error Loader := Err ErrUnsupported.
Definition AttachDNS (l : Loader) (path : string) : option Error := Some ErrUnsupported.
Definition Read (l : Loader) : result Error (list byte) := Err ErrUnsupported.
Definition ReadDNS (l : Loader) : result Error (list byte) := Err ErrUnsupported.
Definition Close (l : Loader) : option Error := None.
End Other.

(** ** What the library documents *)

(** [opened k] are the handles open in [k].  A call that fails leaves nothing
    open; a handle it returns is new; closing a handle closes it whatever it
    reports.  The generated [_SnifferClose] closes the objects it is given, all of
    them when it reports no error, and some of them when it does: it stops at the
    first failure. *)
Class BpfLibLaws (K E : Type) `{BpfLib K E} := {
  opened : K -> gset handle;
  acquires (k : K) (r : result E handle) (k' : K) : Prop :=
    match r with
    | Ok h => (h ∉ opened k) /\ opened k' = {[h]} ∪ opened k
    | Err _ => opened k' = opened k
    end;
  opened_memlock k : opened (RemoveMemlock k).2 = opened k;
  opened_load s names k :
    let '(r, k') := LoadAndAssign s names k in
    match r with
    | Ok hs => length hs = length names /\ list_to_set hs ## opened k /\
               opened k' = list_to_set hs ∪ opened k
    | Err _ => opened k' = opened k
    end;
  opened_tracepoint g n p k : let '(r, k') := link_Tracepoint g n p k in acquires k r k';
  opened_tracing p k : let '(r, k') := link_AttachTracing p k in acquires k r k';
  opened_cgroup path p k : let '(r, k') := link_AttachCgroup path p k in acquires k r k';
  opened_reader m k : let '(r, k') := ringbuf_NewReader m k in acquires k r k';
  opened_close h k : opened (handle_Close h k).2 = opened k ∖ {[h]};
  opened_sniffer_close hs k :
    (SnifferClose hs k).1 = None ->
    opened (SnifferClose hs k).2 = opened k ∖ list_to_set (omap id hs);
  opened_sniffer_some hs k :
    opened k ∖ list_to_set (omap id hs) ⊆ opened (SnifferClose hs k).2 ⊆ opened k;
  opened_read r k : opened (ringbuf_Read r k).2 = opened k;
  read_closed r k : (r ∉ opened k) <-> (ringbuf_Read r k).1 = Err RingClosed
}.

Section laws.
Context {K E : Type} `{BpfLibLaws K E}.
Implicit Types (l : Loader) (k : K).

(** [_SnifferClose] never reports an error. *)
Definition clean_close : Prop := forall hs k, (SnifferClose (E:=E) hs k).1 = None.

(** ** Lemmas: what is owned *)

Definition conn_handles (o : connObjects) : gset handle :=
  list_to_set (omap id [HandleSetState o; HandleTcpConnect o; Events o]).
Definition dns_handles (o : dnsObjects) : gset handle :=
  list_to_set (omap id [HandleDnsIngress o; DnsEvents o]).
(** Its programs and maps, and its links and readers. *)
Definition objects l : gset handle := conn_handles (objs l) ∪ dns_handles (dnsObjs l).
Definition files l : gset handle :=
  list_to_set (links l) ∪ list_to_set (omap id [reader l; dnsReader l]).
Definition owned l : gset handle := objects l ∪ files l.

Lemma opened_close_one s h : opened (close_one s h).2 = opened s.2 ∖ {[h]}.
Proof.
  unfold close_one. pose proof (opened_close h s.2) as Ho.
  by destruct (handle_Close h s.2).
Qed.

Lemma opened_close_all hs s :
  opened (foldl close_one s hs).2 = opened s.2 ∖ list_to_set hs.
Proof.
  revert s. induction hs as [|h hs IH]; intros s; cbn [foldl]; [set_solver|].
  rewrite IH, opened_close_one. set_solver.
Qed.

(** Sets of open handles through one close after another. *)
Lemma diff_twice (a b c d e : gset handle) : a ∖ b ⊆ c -> c ∖ d ⊆ e -> a ∖ (b ∪ d) ⊆ e.
Proof. intros H1 H2 h [Ha Hn]%elem_of_difference. apply H2, elem_of_difference. split; [apply H1|]; set_solver. Qed.
Lemma diff_of (a b c d : gset handle) : a = b ∖ c -> a ∖ d = b ∖ (d ∪ c).
Proof. intros ->. by rewrite difference_difference_l_L, (union_comm_L c). Qed.

Lemma opened_conn_close o k :
  opened k ∖ conn_handles o ⊆ opened (connClose o k).2 ⊆ opened k /\
  ((connClose o k).1 = None -> opened (connClose o k).2 = opened k ∖ conn_handles o).
Proof. split; [apply opened_sniffer_some|apply opened_sniffer_close]. Qed.
Lemma opened_dns_close o k :
  opened k ∖ dns_handles o ⊆ opened (dnsClose o k).2 ⊆ opened k /\
  ((dnsClose o k).1 = None -> opened (dnsClose o k).2 = opened k ∖ dns_handles o).
Proof. split; [apply opened_sniffer_some|apply opened_sniffer_close]. Qed.

Lemma Join_None errs : Join (E:=E) errs = None -> forall e, e ∈ errs -> e = None.
Proof.
  unfold Join. intros He e Hin. destruct (omap id errs) eqn:Ho; [|done]. destruct e as [e|]; [|done].
  assert (e ∈ omap id errs) as Hx by (apply list_elem_of_omap; by exists (Some e)). rewrite Ho in Hx.
  by apply elem_of_nil in Hx.
Qed.

(** [Close] closes the links and readers, and of the objects all unless it reports
    an error. *)
Lemma opened_Close_cases l k :
  opened k ∖ owned l ⊆ opened (Close l k).2 ⊆ opened k ∖ files l /\
  ((Close l k).1 = None \/ clean_close -> opened (Close l k).2 = opened k ∖ owned l).
Proof.
  unfold Close.
  set (s1 := match reader l with Some r => _ | None => _ end).
  set (s2 := match dnsReader l with Some r => _ | None => _ end).
  assert (opened s2.2 = opened k ∖ list_to_set (omap id [reader l; dnsReader l])) as Hs.
  { unfold s2, s1. destruct (reader l), (dnsReader l); cbn [omap list_omap id];
      rewrite ?opened_close_one; set_solver. }
  pose proof (opened_close_all (links l) s2) as Hl.
  destruct (foldl close_one s2 (links l)) as [errs k1]. cbn [snd] in Hl.
  assert (opened k1 = opened k ∖ files l) as Hk by (rewrite Hl, Hs; unfold files; set_solver). clear Hs Hl s1 s2.
  pose proof (opened_conn_close (objs l) k1) as [Hc1 Hc]. unfold clean_close.
  pose proof (fun Hcl : clean_close => Hcl [HandleSetState (objs l); HandleTcpConnect (objs l); Events (objs l)] k1) as Hn1.
  change (SnifferClose _ k1) with (connClose (objs l) k1) in Hn1. destruct (connClose (objs l) k1) as [e1 k2].
  pose proof (opened_dns_close (dnsObjs l) k2) as [Hd1 Hd].
  pose proof (fun Hcl : clean_close => Hcl [HandleDnsIngress (dnsObjs l); DnsEvents (dnsObjs l)] k2) as Hn2.
  change (SnifferClose _ k2) with (dnsClose (dnsObjs l) k2) in Hn2. destruct (dnsClose (dnsObjs l) k2) as [e2 k3].
  cbn [fst snd] in *. unfold owned, objects. rewrite <-(diff_of _ _ _ _ Hk), <-Hk.
  split; [destruct Hc1, Hd1; split; [by eapply diff_twice|by etrans]|]. intros Hn.
  assert (e1 = None /\ e2 = None) as [-> ->].
  { destruct Hn as [Hj|Hcl]; [|by split; [apply Hn1|apply Hn2]].
    split; apply (Join_None _ Hj); rewrite elem_of_app; right; [by left|by right; left]. }
  by rewrite Hd, Hc, difference_difference_l_L by done.
Qed.

(** A loader that holds exactly its own handles beyond those of [k0]. *)
Definition holds (k0 : K) l k : Prop :=
  opened k = owned l ∪ opened k0 /\ owned l ## opened k0 /\ objects l ## files l.

Lemma Close_restores k0 l k :
  holds k0 l k ->
  opened k0 ⊆ opened (Close l k).2 ⊆ objects l ∪ opened k0 /\
  (clean_close -> opened (Close l k).2 = opened k0).
Proof.
  intros (Ho & Hd & _). destruct (opened_Close_cases l k) as [[H1 H2] H3].
  assert (opened k ∖ owned l = opened k0) as He by (rewrite Ho; clear -Hd; set_solver). rewrite He in H1, H3.
  split; [split; [done|]|by auto]. etrans; [exact H2|]. rewrite Ho. unfold owned. clear. set_solver.
Qed.

Lemma load_conn_opens s k :
  match load_conn s k with
  | (Ok o, k') => opened k' = conn_handles o ∪ opened k /\ conn_handles o ## opened k /\
      is_Some (HandleSetState o) /\ is_Some (HandleTcpConnect o) /\ is_Some (Events o)
  | (Err _, k') => opened k' = opened k
  end.
Proof.
  unfold load_conn. pose proof (opened_load s ["handle_set_state"; "handle_tcp_connect"; "events"] k) as Hl.
  destruct (LoadAndAssign s _ k) as [[hs|e] k']; cbn; [|done]. destruct Hl as (Hn & Hd & Ho).
  destruct hs as [|a [|b [|c [|]]]]; done.
Qed.

Lemma load_dns_opens s k :
  match load_dns s k with
  | (Ok o, k') => opened k' = dns_handles o ∪ opened k /\ dns_handles o ## opened k /\
      is_Some (HandleDnsIngress o) /\ is_Some (DnsEvents o)
  | (Err _, k') => opened k' = opened k
  end.
Proof.
  unfold load_dns. pose proof (opened_load s ["handle_dns_ingress"; "dns_events"] k) as Hl.
  destruct (LoadAndAssign s _ k) as [[hs|e] k']; cbn; [|done]. destruct Hl as (Hn & Hd & Ho).
  destruct hs as [|a [|b [|]]]; done.
Qed.

(** The objects a start loads. *)
Definition New_objects k : gset handle :=
  match loadSniffer with
  | Ok s => match (load_conn s (RemoveMemlock k).2).1 with Ok o => conn_handles o | Err _ => ∅ end
  | Err _ => ∅
  end.
Definition DNS_objects l k : gset handle :=
  match (load_dns (spec l) k).1 with Ok o => dns_handles o | Err _ => ∅ end.
Definition started_objects (dns : option string) k0 : gset handle :=
  New_objects k0 ∪ match dns, New k0 with Some _, (Ok l, k) => DNS_objects l k | _, _ => ∅ end.

(** Taking over a handle a call has just returned. *)
Lemma holds_link k0 l k h k' :
  holds k0 l k -> acquires k (Ok h) k' -> holds k0 (set_links (links l ++ [h]) l) k'.
Proof.
  intros (Ho & Hd & Hf) [Hn Ho']. unfold holds, owned, objects, files in *.
  cbn [set_links objs links reader dnsObjs dnsReader].
  rewrite Ho', Ho, list_to_set_app_L in *. split_and!; set_solver.
Qed.
Lemma holds_reader k0 l k h k' :
  reader l = None -> holds k0 l k -> acquires k (Ok h) k' -> holds k0 (set_reader h l) k'.
Proof.
  intros Hr (Ho & Hd & Hf) [Hn Ho']. unfold holds, owned, objects, files in *. rewrite Hr in *.
  cbn [set_reader objs links reader dnsObjs dnsReader].
  rewrite Ho', Ho in *. destruct (dnsReader l); cbn [omap list_omap id] in *; split_and!; set_solver.
Qed.
Lemma holds_failed k0 l k (e : E) k' : holds k0 l k -> acquires k (Err e) k' -> holds k0 l k'.
Proof. intros [Ho Hd] Hk. by split; [rewrite Hk|]. Qed.

(** What [New] returns: everything in place but DNS capture. *)
Definition newly l : Prop :=
  is_Some (reader l) /\ dnsReader l = None /\ dnsObjs l = mkDnsObjects None None.

(** A call that failed left at most the objects [os] behind, and none of them if
    [_SnifferClose] reported no error. *)
Definition gave_back (os : gset handle) k0 k : Prop :=
  opened k0 ⊆ opened k ⊆ os ∪ opened k0 /\ (clean_close -> opened k = opened k0).
Lemma gave_back_same os k0 k : opened k = opened k0 -> gave_back os k0 k.
Proof. intros He. unfold gave_back. rewrite He. split; [split; set_solver|done]. Qed.

Lemma New_holds k :
  match New k with
  | (Ok l, k') => holds k l k' /\ newly l /\ objects l = New_objects k
  | (Err _, k') => gave_back (New_objects k) k k'
  end.
Proof.
  unfold New, New_objects. pose proof (opened_memlock k) as Hm.
  destruct (RemoveMemlock k) as [[e|] k1]; [by apply gave_back_same|].
  cbn [snd] in *. destruct loadSniffer as [s|e]; [|by apply gave_back_same].
  pose proof (load_conn_opens s k1) as Hl.
  destruct (load_conn s k1) as [[o|e] k2]; [|by apply gave_back_same; rewrite Hl].
  destruct Hl as (Ho & Hd & _). rewrite Hm in Ho, Hd. cbn [fst].
  assert (forall ls rd, objects (mkLoader s o ls rd (mkDnsObjects None None) None) = conn_handles o) as Hob.
  { intros ls rd. unfold objects, dns_handles. cbn. set_solver. }
  assert (holds k (mkLoader s o [] None (mkDnsObjects None None) None) k2) as Hl0.
  { unfold holds, owned. rewrite Hob, Ho. unfold files. cbn. split_and!; set_solver. }
  cbv zeta. set (l0 := mkLoader _ _ _ _ _ _) in *.
  pose proof (opened_tracepoint "sock" "inet_sock_set_state" (HandleSetState (objs l0)) k2) as Ht.
  destruct (link_Tracepoint _ _ _ k2) as [[tp|e] k3].
  2: { rewrite <-(Hob [] None). by apply Close_restores, (holds_failed k l0 k2 e). }
  pose proof (holds_link k l0 k2 tp k3 Hl0 Ht) as Hl1. set (l1 := set_links _ l0) in *.
  pose proof (opened_tracing (HandleTcpConnect (objs l1)) k3) as Hf.
  destruct (link_AttachTracing _ k3) as [[fe|e] k4].
  2: { rewrite <-(Hob (links l1) None). by apply (Close_restores k l1), (holds_failed k l1 k3 e). }
  pose proof (holds_link k l1 k3 fe k4 Hl1 Hf) as Hl2. set (l2 := set_links _ l1) in *.
  pose proof (opened_reader (Events (objs l2)) k4) as Hr.
  destruct (ringbuf_NewReader _ k4) as [[rd|e] k5].
  2: { rewrite <-(Hob (links l2) None). by apply (Close_restores k l2), (holds_failed k l2 k4 e). }
  split; [by apply (holds_reader k l2 k4)|]. split; [by split_and!|]. apply Hob.
Qed.

Lemma AttachDNS_holds k0 path l k :
  holds k0 l k -> newly l ->
  match AttachDNS path l k with
  | (Some _, l', k') => l' = l /\ gave_back (DNS_objects l k) k k'
  | (None, l', k') => holds k0 l' k' /\ reader l' = reader l /\ objs l' = objs l /\ is_Some (dnsReader l') /\
      owned l ⊆ owned l' /\ objects l' = objects l ∪ DNS_objects l k
  end.
Proof.
  intros (Ho & Hd & Hf) (Hr & Hdr & Hdo). unfold AttachDNS, DNS_objects.
  pose proof (load_dns_opens (spec l) k) as Hl.
  destruct (load_dns (spec l) k) as [[o|e] k1]; [|by split; [|apply gave_back_same]].
  destruct Hl as (Ho1 & Hd1 & _). cbn [fst].
  pose proof (opened_cgroup path (HandleDnsIngress o) k1) as Hc.
  destruct (link_AttachCgroup path _ k1) as [[cg|e] k2]; cbn [acquires] in Hc.
  2: { split; [done|]. pose proof (opened_dns_close o k2) as [H1 H2]. rewrite Hc, Ho1 in *. split; [set_solver|].
    intros Hcl. rewrite H2 by apply Hcl. set_solver. }
  destruct Hc as [Hcn Hco]. pose proof (opened_reader (DnsEvents o) k2) as Hn.
  destruct (ringbuf_NewReader _ k2) as [[rd|e] k3]; cbn [acquires] in Hn.
  - destruct Hn as [Hrn Hro]. set (l' := mkLoader _ _ _ _ _ _).
    assert (objects l' = objects l ∪ dns_handles o) as Hob.
    { unfold objects, l'. rewrite Hdo. cbn [objs dnsObjs].
      assert (dns_handles (mkDnsObjects None None) = ∅) as -> by done. set_solver. }
    assert (files l' = files l ∪ {[cg]} ∪ {[rd]}) as Hfi.
    { unfold files, l'. rewrite Hdr. cbn [links reader dnsReader]. rewrite list_to_set_app_L.
      destruct (reader l); cbn [omap list_omap id]; set_solver. }
    unfold owned in *. rewrite Hob, Hfi. rewrite Ho in Hd1. rewrite Ho1, Ho in Hcn. rewrite Hco, Ho1, Ho in Hrn.
    split; [|split_and!; [done|done|done|set_solver|done]].
    unfold holds, owned. rewrite Hob, Hfi, Hro, Hco, Ho1, Ho. clear -Hd Hd1 Hcn Hrn Hf. split_and!; set_solver.
  - pose proof (opened_close cg k3) as Hcl. destruct (handle_Close cg k3) as [e' k4]. cbn [snd] in Hcl.
    split; [done|]. pose proof (opened_dns_close o k4) as [H1 H2]. rewrite Hcl, Hn, Hco, Ho1 in *.
    split; [|intros Hc; rewrite H2 by apply Hc].
    + clear -H1 Hcn Hd1. set_solver.
    + clear -Hcn Hd1. set_solver.
Qed.

Lemma opened_read_go r k : opened (read r k).2 = opened k.
Proof.
  unfold read. pose proof (opened_read r k) as Ho. by destruct (ringbuf_Read r k) as [[|[|]] k'].
Qed.

Lemma read_closed_go r k : (read r k).1 = Err ErrClosed <-> r ∉ opened k.
Proof.
  unfold read. rewrite (read_closed r k).
  destruct (ringbuf_Read r k) as [[|[|]] k']; cbn; split; done.
Qed.

(** Calls leave the handles as they are until the first [Close]. *)
Lemma opened_calls ops l k :
  let k' := foldl (lcall l) k ops in
  if existsb is_close ops
  then opened k ∖ owned l ⊆ opened k' ⊆ opened k ∖ files l /\ (clean_close -> opened k' = opened k ∖ owned l)
  else opened k' = opened k.
Proof.
  cbv zeta. revert k. induction ops as [|o ops IH]; intros k; [done|]. cbn [foldl existsb].
  specialize (IH (lcall l k o)). destruct (is_close o) eqn:Hc; cbn [orb].
  - destruct o; try done. cbn [lcall] in *. destruct (opened_Close_cases l k) as [H1 H2].
    destruct (existsb is_close ops); [|by rewrite IH; auto].
    destruct IH as [H3 H4]. split; [clear H2 H4; unfold owned in *; set_solver|].
    intros Hcl. rewrite H4, H2 by auto. set_solver.
  - assert (opened (lcall l k o) = opened k) as Hk; [|by rewrite Hk in IH].
    destruct o; try done; cbn [lcall].
    + unfold Read. destruct (reader l) as [r|]; [|done]. pose proof (opened_read_go r k). by destruct (read r k).
    + unfold ReadDNS. destruct (dnsReader l) as [r|]; [apply opened_read_go|done].
Qed.

(** A loader in use: it holds its handles and has a reader; beside them at most
    objects of a failed [AttachDNS] are open. *)
Lemma open_loader_keeps dns k0 :
  match open_loader dns k0 with
  | (Ok l, k) => exists k1, holds k0 l k1 /\ gave_back (started_objects dns k0) k1 k /\
      objects l ⊆ started_objects dns k0 /\ is_Some (reader l) /\ (dns = None -> dnsReader l = None)
  | (Err _, k) => gave_back (started_objects dns k0) k0 k
  end.
Proof.
  unfold open_loader, started_objects. pose proof (New_holds k0) as Hn. destruct (New k0) as [[l|e] k].
  2: { destruct Hn as [H1 H2]. split; [destruct dns; set_solver|done]. }
  destruct Hn as (Hh & Hf & Hob). destruct dns as [path|].
  2: { exists k. split; [done|]. split; [by apply gave_back_same|]. split; [set_solver|].
    by destruct Hf as (? & ? & _). }
  pose proof (AttachDNS_holds k0 path l k Hh Hf) as Ha.
  destruct (AttachDNS path l k) as [[[e|] l'] k'].
  - destruct Ha as [-> [H1 H2]]. exists k. split; [done|]. split; [split; [set_solver|done]|].
    split; [set_solver|]. by split; [apply Hf|].
  - destruct Ha as (Hh' & Hr & _ & _ & _ & Hob'). exists k'. split; [done|]. split; [by apply gave_back_same|].
    split; [set_solver|]. split; [rewrite Hr; apply Hf|done].
Qed.

Lemma files_reader l r : reader l = Some r -> r ∈ files l.
Proof. unfold files. intros ->. cbn. set_solver. Qed.
Lemma files_dnsReader l r : dnsReader l = Some r -> r ∈ files l.
Proof. unfold files. intros ->. destruct (reader l); cbn; set_solver. Qed.
Lemma owned_reader l r : reader l = Some r -> r ∈ owned l.
Proof. intros Hr. by apply elem_of_union_r, files_reader. Qed.
Lemma owned_dnsReader l r : dnsReader l = Some r -> r ∈ owned l.
Proof. intros Hr. by apply elem_of_union_r, files_dnsReader. Qed.

(** ** When [_SnifferClose] reports no error *)

Section clean.
Context (Hclean : clean_close).

Lemma opened_Close l k : opened (Close l k).2 = opened k ∖ owned l.
Proof. apply opened_Close_cases. by right. Qed.

Lemma open_loader_holds dns k0 :
  match open_loader dns k0 with
  | (Ok l, k) => holds k0 l k /\ is_Some (reader l) /\ (dns = None -> dnsReader l = None)
  | (Err _, k) => opened k = opened k0
  end.
Proof.
  pose proof (open_loader_keeps dns k0) as Ho. destruct (open_loader dns k0) as [[l|e] k]; [|by apply Ho].
  destruct Ho as (k1 & (H1 & H2 & H3) & [_ Hk] & _ & Hr & Hdns). split; [|done].
  split_and!; [by rewrite Hk|done|done].
Qed.
End clean.

(** ** Properties *)

(** C29: the collector's loader gives back what it took.  Whatever fails in [New], in
    [AttachDNS] or in closing, the handles open before the start stay open and
    nothing else is left but, where the generated [_SnifferClose] reported an
    error, some of the programs and maps this start loaded; until [Close] is called
    every handle of the loader is open; from the first [Close] on, however often it
    is called, none of its links and readers is; a [Close] that reports no error
    leaves nothing of the loader open.  [Read] reports [ErrClosed] from the first
    [Close] on and not before; [ReadDNS] likewise, and from the start when DNS
    capture is not attached.  If [_SnifferClose] never reports an error, a failed
    start, and a [Close], leave exactly the handles open before [New]. *)
Theorem loader_lifecycle dns ops k0 :
  match open_loader dns k0 with
  | (Err _, k) =>
      opened k0 ⊆ opened k ⊆ started_objects dns k0 ∪ opened k0 /\ (clean_close -> opened k = opened k0)
  | (Ok l, k) =>
      let k' := foldl (lcall l) k ops in
      let closed := existsb is_close ops in
      owned l ## opened k0 /\ (dns = None -> dnsReader l = None) /\
      opened k0 ⊆ opened k' ⊆ (if closed then ∅ else files l) ∪ started_objects dns k0 ∪ opened k0 /\
      (if closed then files l ## opened k' else owned l ⊆ opened k') /\
      ((Close l k').1 = None -> owned l ## opened (Close l k').2) /\
      (exists r k'', Read l k' = Some (r, k'') /\ (r = Err ErrClosed <-> closed = true)) /\
      ((ReadDNS l k').1 = Err ErrClosed <-> closed = true \/ dnsReader l = None) /\
      (clean_close -> opened k' = if closed then opened k0 else owned l ∪ opened k0)
  end.
Proof.
  pose proof (open_loader_keeps dns k0) as Ho. destruct (open_loader dns k0) as [[l|e] k]; [|exact Ho].
  destruct Ho as (k1 & (Hk & Hd & Hf) & [[Hlo Hhi] Hcl] & Hob & [rd Hr] & Hdns). cbv zeta.
  pose proof (opened_calls ops l k) as Hops. cbv zeta in Hops. set (k' := foldl (lcall l) k ops) in *.
  rewrite Hk in Hlo, Hhi, Hcl.
  assert (if existsb is_close ops then files l ## opened k' else owned l ⊆ opened k') as Hfiles.
  { destruct (existsb is_close ops); [destruct Hops as [[_ Hops] _]; clear -Hops; set_solver|rewrite Hops; clear -Hlo; set_solver]. }
  assert (forall r, r ∈ files l -> (r ∉ opened k' <-> existsb is_close ops = true)) as Hread.
  { intros r Hin. clear -Hfiles Hin. unfold owned in Hfiles. destruct (existsb is_close ops); set_solver. }
  split; [done|]. split; [done|]. split; [|split; [done|split; [|split; [|split]]]].
  - assert (opened k ∖ owned l ⊆ opened k' /\ opened k' ⊆ opened k) as [H1 H2].
    { destruct (existsb is_close ops); [destruct Hops as [[H1 H2] _]|rewrite Hops]; (split; [done || set_solver|]); [set_solver|done]. }
    split; [etrans; [|exact H1]; clear -Hd Hlo; set_solver|].
    assert (opened k' ⊆ files l ∪ started_objects dns k0 ∪ opened k0) as Hup.
    { etrans; [exact H2|]. etrans; [exact Hhi|]. unfold owned. clear -Hob. set_solver. }
    clear -Hup Hfiles. destruct (existsb is_close ops); [set_solver|done].
  - intros Hn. destruct (opened_Close_cases l k') as [_ He]. rewrite He by auto. set_solver.
  - unfold Read. rewrite Hr. destruct (read rd _) as [r k''] eqn:Er. exists r, k''. split; [done|].
    rewrite <- (Hread rd) by (by apply files_reader). rewrite <- read_closed_go, Er. done.
  - unfold ReadDNS. destruct (dnsReader l) as [r|] eqn:Hdr; [|by split; [right|]].
    rewrite read_closed_go, (Hread r) by (by apply files_dnsReader). split; [by left|]. by intros [|].
  - intros Hclean. specialize (Hcl Hclean). destruct (existsb is_close ops); [|by rewrite Hops].
    destruct Hops as [_ Hops]. rewrite Hops, Hcl by done. clear -Hd. set_solver.
Qed.

(** A failed [AttachDNS] leaves the loader and the open handles as they were,
    so connection capture goes on; a successful one adds a DNS reader and
    touches nothing of connection capture. *)
Lemma AttachDNS_optional k0 path l k (Hnew : New k0 = (Ok l, k)) :
  match AttachDNS path l k with
  | (Some _, l', k') =>
      l' = l /\ opened k ⊆ opened k' /\ (clean_close -> opened k' = opened k) /\ (ReadDNS l' k').1 = Err ErrClosed
  | (None, l', k') =>
      opened k ⊆ opened k' /\ reader l' = reader l /\ objs l' = objs l /\
      (ReadDNS l' k').1 <> Err ErrClosed
  end.
Proof.
  pose proof (New_holds k0) as Hn. rewrite Hnew in Hn. destruct Hn as (Hh & Hf & _).
  pose proof (AttachDNS_holds k0 path l k Hh Hf) as Ha.
  destruct (AttachDNS path l k) as [[[e|] l'] k'].
  - destruct Ha as [-> [[Ho _] Hcl]]. split_and!; [done..|]. destruct Hf as (_ & Hd & _). unfold ReadDNS. by rewrite Hd.
  - destruct Ha as ((Hk & Hd & _) & Hr & Hobj & [r Hdr] & Hsub & _). split_and!; [|done|done|].
    + destruct Hh as [Hk0 _]. rewrite Hk, Hk0. set_solver.
    + unfold ReadDNS. rewrite Hdr, read_closed_go. rewrite Hk.
      pose proof (owned_dnsReader l' r Hdr). set_solver.
Qed.
End laws.

(** ** Witnesses *)

(** A kernel that fails the calls its script says; an open reader always has the
    record [payload]. *)
Module SimKernel.
Definition K : Type := gset handle * list bool.
Definition decide_next (k : K) : bool * K :=
  match k.2 with [] => (true, k) | b :: bs => (b, (k.1, bs)) end.
(** A handle above all open ones. *)
Definition next (s : gset handle) : handle := 1 + foldr Z.max 0 (elements s).
Definition acquire (k : K) : result string handle * K :=
  let '(ok, k) := decide_next k in
  if ok then let h := next k.1 in (Ok h, ({[h]} ∪ k.1, k.2)) else (Err "refused", k).
Definition load (names : list string) (k : K) : result string (list handle) * K :=
  let '(ok, k) := decide_next k in
  if ok then let hs := seqZ (next k.1) (Z.of_nat (length names)) in (Ok hs, (list_to_set hs ∪ k.1, k.2))
  else (Err "invalid program", k).

Definition lib_with (close : list (option handle) -> K -> option string * K) (payload : list byte) : BpfLib K string := {|
  collection_spec := unit;
  RemoveMemlock k := (None, k);
  loadSniffer := Ok tt;
  LoadAndAssign _ names k := load names k;
  link_Tracepoint _ _ _ k := acquire k;
  link_AttachTracing _ k := acquire k;
  link_AttachCgroup _ _ k := acquire k;
  ringbuf_NewReader _ k := acquire k;
  ringbuf_Read r k := if decide (r ∈ k.1) then (Ok payload, k) else (Err RingClosed, k);
  handle_Close h k := (None, (k.1 ∖ {[h]}, k.2));
  SnifferClose hs k := close hs k
|}.
(** All of the objects are closed; or the first that is there fails to, and is. *)
Definition close_all (hs : list (option handle)) (k : K) : option string * K :=
  (None, (k.1 ∖ list_to_set (omap id hs), k.2)).
Definition close_first (hs : list (option handle)) (k : K) : option string * K :=
  match omap id hs with [] => (None, k) | h :: _ => (Some "busy", (k.1 ∖ {[h]}, k.2)) end.
Definition lib : list byte -> BpfLib K string := lib_with close_all.

Lemma next_above s h : h ∈ s -> h < next s.
Proof.
  unfold next. rewrite <- elem_of_elements. induction (elements s) as [|x l IH]; [by intros ?%elem_of_nil|].
  cbn. intros [->|Hin]%elem_of_cons; [lia|]. specialize (IH Hin). lia.
Qed.

Lemma decide_next_open k : (decide_next k).2.1 = k.1.
Proof. by destruct k as [? []]. Qed.

Lemma acquire_spec k :
  let '(r, k') := acquire k in
  match r with Ok h => (h ∉ k.1) /\ k'.1 = {[h]} ∪ k.1 | Err _ => k'.1 = k.1 end.
Proof.
  unfold acquire. pose proof (decide_next_open k) as Ho. destruct (decide_next k) as [[] k1]; [|done].
  cbn in *. rewrite <- Ho. split; [|done]. intros Hin%next_above. lia.
Qed.

Definition laws_with close payload
    (Hnone : forall hs k, (close hs k).1 = None -> (close hs k).2.1 = k.1 ∖ list_to_set (omap id hs))
    (Hsome : forall hs k, k.1 ∖ list_to_set (omap id hs) ⊆ (close hs k).2.1 ⊆ k.1) :
  @BpfLibLaws K string (lib_with close payload).
Proof.
  refine (@Build_BpfLibLaws K string (lib_with close payload) (fun k : K => k.1) _ _ _ _ _ _ _ _ _ _ _); try done.
  - intros s names k. cbn. unfold load. pose proof (decide_next_open k) as Ho.
    destruct (decide_next k) as [[] k1]; [|done]. cbn in *. rewrite <- Ho.
    split_and!; [rewrite length_seqZ; lia| |done].
    intros h Hh%elem_of_list_to_set%elem_of_seqZ Hin%next_above. lia.
  - intros. apply acquire_spec.
  - intros. apply acquire_spec.
  - intros. apply acquire_spec.
  - intros. apply acquire_spec.
  - intros r k. cbn. by case_decide.
  - intros r k. cbn. by case_decide.
Defined.
Definition laws (payload : list byte) : @BpfLibLaws K string (lib payload).
Proof. apply laws_with; [done|]. intros hs k. cbn. split; set_solver. Defined.
Definition laws_first (payload : list byte) : @BpfLibLaws K string (lib_with close_first payload).
Proof.
  apply laws_with; intros hs k; unfold close_first; destruct (omap id hs); cbn; try done; try (intros _); set_solver.
Defined.

Lemma clean payload hs (k : K) : (@SnifferClose K string (lib payload) hs k).1 = None.
Proof. done. Qed.

Lemma read_open payload r (k : K) :
  r ∈ k.1 -> @read K string (lib payload) r k = (Ok payload, k).
Proof. intros Hr. unfold read. cbn. by rewrite decide_True. Qed.
End SimKernel.

Section witnesses.
#[local] Hint Extern 0 (BpfLib SimKernel.K _) => exact (SimKernel.lib []) : typeclass_instances.
#[local] Hint Extern 0 (BpfLibLaws SimKernel.K _) => exact (SimKernel.laws []) : typeclass_instances.

(** Nothing is open, and the calls of the script fail. *)
Definition sim (script : list bool) : SimKernel.K := ({[77]}, script).
(** The fentry program cannot be attached. *)
Definition no_fentry : SimKernel.K := sim [true; true; false].
(** The cgroup cannot be attached to. *)
Definition no_cgroup : SimKernel.K := sim [true; true; true; true; true; false].

Definition fentry_error (r : result (@LoaderError string) (@Loader SimKernel.K string _)) : string :=
  match r with Err (ErrAttachFentry e) => e | _ => "" end.
Definition dns_attached (r : result (@LoaderError string) (@Loader SimKernel.K string _)) : bool :=
  match r with Ok l => bool_decide (is_Some (dnsReader l)) | Err _ => true end.

(** With a [_SnifferClose] that fails, [Close] leaves objects open, and says so. *)
Lemma close_can_leave_objects :
  match @open_loader SimKernel.K string (SimKernel.lib_with SimKernel.close_first []) None (sim []) with
  | (Ok l, k) =>
      (@Close SimKernel.K string (SimKernel.lib_with SimKernel.close_first []) l k).1 = Some ["busy"] /\
      elements (opened (BpfLibLaws:=SimKernel.laws_first [])
        (@Close SimKernel.K string (SimKernel.lib_with SimKernel.close_first []) l k).2) = [79; 77; 80]
  | (Err _, _) => False
  end.
Proof. split; vm_compute; reflexivity. Qed.

Lemma loader_lifecycle_witness :
  (fentry_error (New (E:=string) no_fentry).1 = "refused" /\
   (open_loader (E:=string) None no_fentry).2.1 = {[77]}) /\
  (exists l k, open_loader (E:=string) (Some "/sys/fs/cgroup") no_cgroup = (Ok l, k) /\
     (exists r k', Read l k = Some (r, k') /\ r <> Err ErrClosed) /\ (ReadDNS l k).1 = Err ErrClosed /\
     (foldl (lcall l) k [LRead; LClose; LReadDNS; LClose]).1 = {[77]}).
Proof.
  split.
  - assert (is_ok (open_loader (E:=string) None no_fentry).1 = false) as He by (vm_compute; reflexivity).
    split; [vm_compute; reflexivity|].
    pose proof (loader_lifecycle None [] no_fentry) as H.
    destruct (open_loader None no_fentry) as [[l|e] k]; [discriminate He|]. exact (proj2 H (SimKernel.clean [])).
  - assert (dns_attached (open_loader (E:=string) (Some "/sys/fs/cgroup") no_cgroup).1 = false) as He
      by (vm_compute; reflexivity).
    pose proof (loader_lifecycle (Some "/sys/fs/cgroup") [] no_cgroup) as H0.
    pose proof (loader_lifecycle (Some "/sys/fs/cgroup")
      [LRead; LClose; LReadDNS; LClose] no_cgroup) as H1.
    destruct (open_loader (Some "/sys/fs/cgroup") no_cgroup) as [[l|e] k]; [|discriminate He].
    destruct H0 as (_ & _ & _ & _ & _ & (r & k1 & Hr & Hc) & Hd & _). destruct H1 as (_ & _ & _ & _ & _ & _ & _ & H1).
    exists l, k. split; [reflexivity|]. split; [|split; [|exact (H1 (SimKernel.clean []))]].
    + exists r, k1. split; [exact Hr|]. intros Hn. by apply Hc in Hn.
    + apply Hd. right. apply bool_decide_eq_false in He. apply eq_None_not_Some. exact He.
Defined.

Definition cgroup_error (r : option (@LoaderError string)) : string :=
  match r with Some (ErrAttachCgroup _ e) => e | _ => "" end.

Lemma AttachDNS_optional_witness :
  match New (E:=string) no_cgroup with
  | (Ok l, k) =>
      let '(err, l', k') := AttachDNS (E:=string) "/sys/fs/cgroup" l k in
      cgroup_error err = "refused" /\ l' = l /\ k'.1 = k.1
  | (Err _, _) => False
  end.
Proof.
  assert (is_ok (New (E:=string) no_cgroup).1 = true) as He by (vm_compute; reflexivity).
  assert (match New (E:=string) no_cgroup with
    | (Ok l, k) => cgroup_error (AttachDNS (E:=string) "/sys/fs/cgroup" l k).1.1
    | (Err _, _) => ""
    end = "refused") as Ha by (vm_compute; reflexivity).
  destruct (New no_cgroup) as [[l|e] k] eqn:E; [|discriminate He].
  pose proof (AttachDNS_optional no_cgroup "/sys/fs/cgroup" l k E) as H.
  destruct (AttachDNS "/sys/fs/cgroup" l k) as [[[e|] l'] k']; [|discriminate Ha].
  destruct H as (H1 & _ & H2 & _). split; [exact Ha|]. split; [exact H1|]. exact (H2 (SimKernel.clean [])).
Defined.
End witnesses.
