(* ===== verification/Dedup.v ===== *)
(** * Dedup: package [internal/dedup]

    The window-based suppression of repeated edges, its sweep, and the
    declarative specification it refines: a call is allowed exactly when no
    call with the same key was allowed less than a window earlier. *)

From S2P Require Import Prelude Golang Netip Model.
Open Scope string_scope.
Open Scope list_scope.
Open Scope Z_scope.

Record Deduper := mkDeduper { window : Duration; seen : gmap string Time }.

Definition New (window : Duration) : Deduper := mkDeduper window ∅.

Definition key (sc : ServiceCall) : string :=
  WlNamespace (Source sc) +:+ "/" +:+ WlName (Source sc) +:+ "|" +:+
  WlNamespace (Dest sc) +:+ "/" +:+ WlName (Dest sc) +:+ "|" +:+
  FormatUint (DestPort sc) +:+ "|" +:+ FormatUint (DestProtocol sc).

Definition Allow (sc : ServiceCall) (now : Time) (d : Deduper) : bool * Deduper :=
  if window d <=? 0 then (true, d)
  else
    let k := key sc in
    match seen d !! k with
    | Some last =>
        if Sub now last <? window d then (false, d)
        else (true, mkDeduper (window d) (<[k := now]> (seen d)))
    | None => (true, mkDeduper (window d) (<[k := now]> (seen d)))
    end.

Definition Sweep {RO : RangeOrder string Time} (now : Time) (d : Deduper) : nat * Deduper :=
  if window d <=? 0 then (0%nat, d)
  else
    let '(n, seen') := sweep_map (fun last => window d <=? Sub now last) (seen d) in
    (n, mkDeduper (window d) seen').

(** ** Specification *)

Inductive op := OpAllow (sc : ServiceCall) (now : Time) | OpSweep (now : Time).
Definition op_time (o : op) : Time := match o with OpAllow _ t | OpSweep t => t end.

(** The answers of a deduper to a sequence of operations, one per [OpAllow]. *)
Fixpoint run {RO : RangeOrder string Time} (d : Deduper) (ops : list op) : list bool :=
  match ops with
  | [] => []
  | OpAllow sc now :: ops => let '(ok, d) := Allow sc now d in ok :: run d ops
  | OpSweep now :: ops => run (Sweep now d).2 ops
  end.

(** The specification keeps every call ever allowed and never sweeps. *)
Definition recently (w : Duration) (emitted : list (string * Time)) (k : string) (now : Time)
    : bool :=
  existsb (fun '(k', t) => bool_decide (k' = k) && (now - t <? w)) emitted.
Fixpoint spec_run (w : Duration) (emitted : list (string * Time)) (ops : list op) : list bool :=
  match ops with
  | [] => []
  | OpAllow sc now :: ops =>
      if recently w emitted (key sc) now then false :: spec_run w emitted ops
      else true :: spec_run w ((key sc, now) :: emitted) ops
  | OpSweep _ :: ops => spec_run w emitted ops
  end.

(** Clock readings never decrease along a run that starts at [now]. *)
Fixpoint monotone_from (now : Time) (ops : list op) : Prop :=
  match ops with
  | [] => True
  | o :: ops => now <= op_time o /\ monotone_from (op_time o) ops
  end.

(** Names that cannot be confused by the key's separators. *)
Definition separable (w : Workload) : Prop :=
  contains_byte (WlNamespace w) "/" = false /\ contains_byte (WlName w) "|" = false.

(** ** The simulation *)

(** What the seen map knows about the emissions so far: the latest emission of
    a key, or nothing when every emission of the key has left the window. *)
Definition knows (w : Duration) (seen : gmap string Time) (emitted : list (string * Time))
    (now : Time) : Prop :=
  (forall k t, (k, t) ∈ emitted -> t <= now) /\
  forall k, match seen !! k with
            | Some t => (k, t) ∈ emitted /\ forall t', (k, t') ∈ emitted -> t' <= t
            | None => forall t', (k, t') ∈ emitted -> w <= now - t'
            end.

Lemma recently_true w emitted k now :
  recently w emitted k now = true <-> exists t, (k, t) ∈ emitted /\ now - t < w.
Proof.
  unfold recently. rewrite existsb_exists. split.
  - intros ([k' t] & Hin%list_elem_of_In & Ht). apply andb_true_iff in Ht as [Hk Ht].
    apply bool_decide_eq_true in Hk as ->. exists t. split; [done|lia].
  - intros (t & Hin & Ht). exists (k, t). split; [by apply list_elem_of_In|].
    rewrite bool_decide_eq_true_2 by done. simpl. lia.
Qed.

Lemma recently_false w emitted k now :
  recently w emitted k now = false <-> forall t, (k, t) ∈ emitted -> w <= now - t.
Proof.
  rewrite <- not_true_iff_false, recently_true. split.
  - intros Hn t Hin. destruct (decide (w <= now - t)); [done|].
    exfalso. apply Hn. exists t. split; [done|lia].
  - intros Hall (t & Hin & Ht). specialize (Hall t Hin). lia.
Qed.

Lemma knows_later w seen emitted now now' :
  now <= now' -> knows w seen emitted now -> knows w seen emitted now'.
Proof.
  intros Hle [Ht Hk]. split; [intros k t Hin; specialize (Ht k t Hin); lia|].
  intros k. specialize (Hk k). destruct (seen !! k); [done|].
  intros t' Hin. specialize (Hk t' Hin). lia.
Qed.

Lemma knows_emit w seen emitted now k :
  knows w seen emitted now -> knows w (<[k := now]> seen) ((k, now) :: emitted) now.
Proof.
  intros [Ht Hk]. split.
  - intros k' t [Heq|Hin]%elem_of_cons; [simplify_eq; lia|eauto].
  - intros k'. destruct (decide (k' = k)) as [->|Hne].
    + rewrite lookup_insert_eq. split; [left|].
      intros t' [Heq|Hin]%elem_of_cons; [simplify_eq; lia|eauto].
    + rewrite lookup_insert_ne by done. specialize (Hk k').
      assert (forall t', (k', t') ∈ (k, now) :: emitted <-> (k', t') ∈ emitted) as Hin.
      { intros t'. rewrite elem_of_cons. naive_solver. }
      destruct (seen !! k') as [t|]; [|intros t'; rewrite Hin; apply Hk].
      rewrite Hin. split; [apply Hk|]. intros t'. rewrite Hin. apply Hk.
Qed.

Section Refinement.
Context {RO : RangeOrder string Time} (w : Duration) (Hw : 0 < w <= maxInt64).

Lemma Sub_ltb t u : (Sub t u <? w) = (t - u <? w).
Proof.
  pose proof (Sub_lt t u w) as Hs. unfold minInt64 in Hs.
  apply eq_bool_prop_intro. rewrite !Is_true_true, !Z.ltb_lt. apply Hs. lia.
Qed.

Lemma Allow_simulates sc now seen emitted :
  knows w seen emitted now ->
  let '(ok, d) := Allow sc now (mkDeduper w seen) in
  ok = negb (recently w emitted (key sc) now) /\ window d = w /\
  knows w (Dedup.seen d) (if ok then (key sc, now) :: emitted else emitted) now.
Proof.
  intros HK. unfold Allow. cbn [window Dedup.seen].
  replace (w <=? 0) with false by lia.
  pose proof (proj2 HK (key sc)) as Hk.
  destruct (seen !! key sc) as [last|] eqn:E.
  - destruct Hk as [Hin Hmax]. rewrite Sub_ltb. destruct (now - last <? w) eqn:Hlt; cbn.
    + rewrite (proj2 (recently_true w emitted (key sc) now)); [done|].
      exists last. split; [done|lia].
    + rewrite (proj2 (recently_false w emitted (key sc) now)).
      * split_and!; [done..|]. by apply knows_emit.
      * intros t Ht. specialize (Hmax t Ht). lia.
  - cbn. rewrite (proj2 (recently_false w emitted (key sc) now) Hk).
    split_and!; [done..|]. by apply knows_emit.
Qed.

Lemma Sweep_simulates now seen emitted :
  knows w seen emitted now ->
  let '(_, d) := Sweep now (mkDeduper w seen) in
  window d = w /\ knows w (Dedup.seen d) emitted now.
Proof.
  intros [Ht Hk]. unfold Sweep. cbn [window Dedup.seen].
  replace (w <=? 0) with false by lia.
  destruct (sweep_map _ seen) as [n seen'] eqn:Es. cbn. split; [done|].
  split; [done|]. intros k.
  pose proof (sweep_map_lookup (fun last => w <=? Sub now last) seen k) as Hl.
  rewrite Es in Hl. cbn [snd] in Hl. rewrite Hl. specialize (Hk k).
  destruct (seen !! k) as [t|]; [|done].
  destruct (w <=? Sub now t) eqn:Hexp; [|done].
  destruct Hk as [_ Hmax]. intros t' Hin. specialize (Hmax t' Hin).
  pose proof (Sub_ltb now t). lia.
Qed.

Lemma run_simulates ops now seen emitted :
  monotone_from now ops -> knows w seen emitted now ->
  run (mkDeduper w seen) ops = spec_run w emitted ops.
Proof.
  revert now seen emitted. induction ops as [|[sc t|t] ops IH]; intros now seen emitted;
    [done|..]; intros [Hle Hmono] HK; apply (knows_later _ _ _ _ t Hle) in HK; cbn [run spec_run].
  - pose proof (Allow_simulates sc t seen emitted HK) as Hs.
    destruct (Allow sc t (mkDeduper w seen)) as [ok [w' seen']]. cbn in Hs.
    destruct Hs as (-> & -> & HK').
    destruct (recently w emitted (key sc) t); cbn in *; f_equal; by apply (IH t).
  - pose proof (Sweep_simulates t seen emitted HK) as Hs.
    destruct (Sweep t (mkDeduper w seen)) as [n [w' seen']]. cbn in Hs.
    destruct Hs as [-> HK']. by apply (IH t).
Qed.
End Refinement.

Lemma key_inj_aux sc1 sc2 :
  separable (Source sc1) -> separable (Dest sc1) ->
  separable (Source sc2) -> separable (Dest sc2) ->
  0 <= DestPort sc1 -> 0 <= DestPort sc2 -> 0 <= DestProtocol sc1 -> 0 <= DestProtocol sc2 ->
  key sc1 = key sc2 ->
  WlNamespace (Source sc1) = WlNamespace (Source sc2) /\
  WlName (Source sc1) = WlName (Source sc2) /\
  WlNamespace (Dest sc1) = WlNamespace (Dest sc2) /\
  WlName (Dest sc1) = WlName (Dest sc2) /\
  DestPort sc1 = DestPort sc2 /\ DestProtocol sc1 = DestProtocol sc2.
Proof.
  intros [Hs1 Hs1'] [Hd1 Hd1'] [Hs2 Hs2'] [Hd2 Hd2'] ???? Hkey. unfold key in Hkey.
  apply (append_sep_inj "/") in Hkey as [? Hkey]; [|done..].
  apply (append_sep_inj "|") in Hkey as [? Hkey]; [|done..].
  apply (append_sep_inj "/") in Hkey as [? Hkey]; [|done..].
  apply (append_sep_inj "|") in Hkey as [? Hkey]; [|done..].
  apply (append_sep_inj "|") in Hkey as [? Hkey]; [|by apply FormatUint_no..].
  split_and!; try done; by apply FormatUint_inj.
Qed.

(** ** Properties *)

(** C13: refinement.  Along any run of [Allow] and [Sweep] on a non-decreasing
    clock, a fresh deduper answers exactly as the specification: a call is
    allowed if and only if no call with the same key was allowed less than a
    window before.  In particular emissions of one edge are a window apart, no
    call is suppressed without a recent emission, and sweeping changes no
    answer, whatever order the map is ranged in. *)
Theorem Dedup_refines_window {RO : RangeOrder string Time} w start ops :
  0 < w <= maxInt64 -> monotone_from start ops ->
  run (New w) ops = spec_run w [] ops.
Proof.
  intros Hw Hmono. apply (run_simulates w Hw ops start); [done|].
  split; [set_solver|]. intros k. rewrite lookup_empty. set_solver.
Qed.

Definition sample_call (port : Z) : ServiceCall :=
  mkServiceCall (mkWorkload "web" "shop" "Deployment") (mkWorkload "api" "shop" "Deployment")
    port ProtocolTCP "http".

Definition sample_ops : list op :=
  [OpAllow (sample_call 80) 0; OpAllow (sample_call 80) (29 * Second); OpSweep (29 * Second);
   OpAllow (sample_call 81) (29 * Second); OpSweep (30 * Second);
   OpAllow (sample_call 80) (30 * Second); OpAllow (sample_call 81) (58 * Second)].

Lemma Dedup_refines_window_witness :
  monotone_from 0 sample_ops /\
  run (RO:=canonical_order) (New (30 * Second)) sample_ops = spec_run (30 * Second) [] sample_ops /\
  spec_run (30 * Second) [] sample_ops = [true; false; true; true; false].
Proof.
  assert (monotone_from 0 sample_ops) as Hm by (cbn; unfold Second, Millisecond; lia).
  split; [exact Hm|]. split; [|by vm_compute].
  apply (Dedup_refines_window (RO:=canonical_order) _ 0);
    [unfold Second, Millisecond, maxInt64; lia|exact Hm].
Defined.

(** A non-positive window disables suppression: every call is allowed and no
    operation changes or counts anything. *)
Lemma Dedup_disabled {RO : RangeOrder string Time} d sc now :
  window d <= 0 -> Allow sc now d = (true, d) /\ Sweep now d = (0%nat, d).
Proof.
  intros Hw. unfold Allow, Sweep. by replace (window d <=? 0) with true by lia.
Qed.

Lemma Dedup_disabled_witness :
  Allow (sample_call 80) 5 (New 0) = (true, New 0) /\
  Sweep (RO:=canonical_order) 5 (New 0) = (0%nat, New 0).
Proof. apply (Dedup_disabled (RO:=canonical_order)). cbn. lia. Defined.

(** [Sweep] evicts exactly the entries a full window old, returns how many it
    evicted, and so bounds the map by the keys allowed within the last window. *)
Lemma Sweep_evicts {RO : RangeOrder string Time} d now :
  0 < window d ->
  let '(n, d') := Sweep now d in
  window d' = window d /\ (n + size (seen d') = size (seen d))%nat /\
  forall k, seen d' !! k =
    match seen d !! k with
    | Some last => if window d <=? Sub now last then None else Some last
    | None => None
    end.
Proof.
  intros Hw. unfold Sweep. replace (window d <=? 0) with false by lia.
  pose proof (sweep_map_count (fun last => window d <=? Sub now last) (seen d)) as Hc.
  pose proof (sweep_map_lookup (fun last => window d <=? Sub now last) (seen d)) as Hl.
  destruct (sweep_map _ (seen d)) as [n m]. cbn in *. auto.
Qed.

Lemma Sweep_evicts_witness :
  let d := mkDeduper 10 (<["a" := 0]> {["b" := 7]}) in
  Sweep (RO:=canonical_order) 10 d = (1%nat, mkDeduper 10 {["b" := 7]}) /\
  (1 + 1 = 2)%nat.
Proof.
  cbv zeta. split; [by vm_compute|].
  pose proof (Sweep_evicts (RO:=canonical_order) (mkDeduper 10 (<["a" := 0]> {["b" := 7]})) 10
    ltac:(cbn; lia)) as Hs.
  vm_compute in Hs. apply Hs.
Defined.

(** The key identifies an edge by source, destination, port and protocol:
    when namespaces hold no "/" and names no "|", calls with equal keys agree on
    all six fields.  Without that premise distinct edges can share a key. *)
Lemma key_identifies_edge :
  (forall sc1 sc2,
     separable (Source sc1) -> separable (Dest sc1) ->
     separable (Source sc2) -> separable (Dest sc2) ->
     0 <= DestPort sc1 -> 0 <= DestPort sc2 ->
     0 <= DestProtocol sc1 -> 0 <= DestProtocol sc2 ->
     key sc1 = key sc2 ->
     WlNamespace (Source sc1) = WlNamespace (Source sc2) /\
     WlName (Source sc1) = WlName (Source sc2) /\
     WlNamespace (Dest sc1) = WlNamespace (Dest sc2) /\
     WlName (Dest sc1) = WlName (Dest sc2) /\
     DestPort sc1 = DestPort sc2 /\ DestProtocol sc1 = DestProtocol sc2) /\
  (exists sc1 sc2, key sc1 = key sc2 /\ WlName (Dest sc1) <> WlName (Dest sc2)).
Proof.
  split; [apply key_inj_aux|].
  exists (mkServiceCall (mkWorkload "b|c/d" "a" "") (mkWorkload "f" "e" "") 80 6 ""),
         (mkServiceCall (mkWorkload "b" "a" "") (mkWorkload "d|e/f" "c" "") 80 6 "").
  by vm_compute.
Qed.
