(* ===== verification/DnsCache.v ===== *)
(** * DnsCache: package [internal/dnscache]

    The bounded IP -> hostname cache fed by observed DNS answers, and the ideal
    cache it refines: one that forgets an entry the moment it expires and holds
    at most [max] live entries. *)

From S2P Require Import Prelude Golang Netip.
Open Scope string_scope.
Open Scope list_scope.
Open Scope Z_scope.

Definition MinTTL : Duration := Minute.
Definition MaxTTL : Duration := 30 * Minute.

Record entry := mkEntry { name : string; expires : Time }.
Record Cache := mkCache { max : Z; entries : gmap Addr entry }.

Definition New (maxEntries : Z) : Cache := mkCache maxEntries ∅.

Definition expired (now : Time) (e : entry) : bool := negb (Before now (expires e)).

Definition sweepLocked {RO : RangeOrder Addr entry} (now : Time) (c : Cache) : Cache :=
  mkCache (max c) (sweep_map (expired now) (entries c)).2.

Definition clampTTL (ttl : Duration) : Duration := Z.min (Z.max ttl MinTTL) MaxTTL.

Definition store (ip : Addr) (e : entry) (c : Cache) : Cache :=
  mkCache (max c) (<[ip := e]> (entries c)).

Definition Len (c : Cache) : nat := size (entries c).

Definition Put {RO : RangeOrder Addr entry} (ip : Addr) (nm : string) (ttl : Duration)
    (now : Time) (c : Cache) : bool * Cache :=
  let ttl := clampTTL ttl in
  let ip := Unmap ip in
  let e := mkEntry nm (Add now ttl) in
  if bool_decide (entries c !! ip = None) && (max c <=? Z.of_nat (Len c)) then
    let c := sweepLocked now c in
    if max c <=? Z.of_nat (Len c) then (false, c) else (true, store ip e c)
  else (true, store ip e c).

Definition Lookup (ip : Addr) (now : Time) (c : Cache) : option string :=
  match entries c !! Unmap ip with
  | Some e => if negb (Before now (expires e)) then None else Some (name e)
  | None => None
  end.

Definition Sweep {RO : RangeOrder Addr entry} (now : Time) (c : Cache) : nat * Cache :=
  let c := sweepLocked now c in (Len c, c).

(** ** Specification: the ideal cache *)

Definition live (now : Time) (m : gmap Addr entry) : gmap Addr entry :=
  filter (fun '(_, e) => now < expires e) m.

Inductive op :=
| OpPut (ip : Addr) (nm : string) (ttl : Duration) (now : Time)
| OpLookup (ip : Addr) (now : Time)
| OpSweep (now : Time).
Inductive answer := APut (ok : bool) | ALookup (r : option string) | ASweep (left : nat).

Definition op_time (o : op) : Time :=
  match o with OpPut _ _ _ t | OpLookup _ t | OpSweep t => t end.
Fixpoint monotone_from (now : Time) (ops : list op) : Prop :=
  match ops with [] => True | o :: ops => now <= op_time o /\ monotone_from (op_time o) ops end.

Definition step {RO : RangeOrder Addr entry} (o : op) (c : Cache) : answer * Cache :=
  match o with
  | OpPut ip nm ttl now => let '(ok, c) := Put ip nm ttl now c in (APut ok, c)
  | OpLookup ip now => (ALookup (Lookup ip now c), c)
  | OpSweep now => let '(n, c) := Sweep now c in (ASweep n, c)
  end.

Definition ideal_step (maxEntries : Z) (o : op) (m : gmap Addr entry)
    : answer * gmap Addr entry :=
  let m := live (op_time o) m in
  match o with
  | OpPut ip nm ttl now =>
      if bool_decide (is_Some (m !! Unmap ip)) || (Z.of_nat (size m) <? maxEntries)
      then (APut true, <[Unmap ip := mkEntry nm (now + clampTTL ttl)]> m)
      else (APut false, m)
  | OpLookup ip _ => (ALookup (name <$> m !! Unmap ip), m)
  | OpSweep _ => (ASweep (size m), m)
  end.

Fixpoint run {RO : RangeOrder Addr entry} (c : Cache) (ops : list op) : list answer :=
  match ops with [] => [] | o :: ops => let '(a, c) := step o c in a :: run c ops end.
Fixpoint ideal_run (maxEntries : Z) (m : gmap Addr entry) (ops : list op) : list answer :=
  match ops with
  | [] => []
  | o :: ops => let '(a, m) := ideal_step maxEntries o m in a :: ideal_run maxEntries m ops
  end.

(** ** Lemmas *)

Lemma live_lookup now m ip :
  live now m !! ip = match m !! ip with
                     | Some e => if decide (now < expires e) then Some e else None
                     | None => None end.
Proof. unfold live. rewrite map_filter_lookup_case. by destruct (m !! ip). Qed.

Lemma live_live now now' m : now <= now' -> live now' (live now m) = live now' m.
Proof.
  intros Hle. apply map_eq. intros ip. rewrite !live_lookup.
  destruct (m !! ip) as [e|]; [|done].
  repeat case_decide; try done; lia.
Qed.

Lemma live_size now m : (size (live now m) <= size m)%nat.
Proof. apply map_size_filter_le. Qed.

Lemma live_insert now m ip e :
  now < expires e -> live now (<[ip := e]> m) = <[ip := e]> (live now m).
Proof.
  intros He. apply map_eq. intros ip'. rewrite live_lookup.
  destruct (decide (ip = ip')) as [->|Hne].
  - rewrite !lookup_insert_eq. by rewrite decide_True.
  - rewrite !lookup_insert_ne by done. by rewrite live_lookup.
Qed.

Lemma clampTTL_range ttl : MinTTL <= clampTTL ttl <= MaxTTL.
Proof. unfold clampTTL, MinTTL, MaxTTL, Minute, Second, Millisecond. lia. Qed.

Lemma clampTTL_pos ttl : 0 < clampTTL ttl.
Proof. pose proof (clampTTL_range ttl). unfold MinTTL, Minute, Second, Millisecond in *. lia. Qed.

Lemma Lookup_live ip now c : Lookup ip now c = name <$> live now (entries c) !! Unmap ip.
Proof.
  unfold Lookup, Before. rewrite live_lookup. destruct (entries c !! Unmap ip) as [e|]; [|done].
  case_decide; destruct (Z.ltb_spec now (expires e)); done || lia.
Qed.

Section Simulation.
Context {RO : RangeOrder Addr entry}.

Lemma sweepLocked_live now c : entries (sweepLocked now c) = live now (entries c).
Proof.
  apply map_eq. intros ip. unfold sweepLocked. cbn [entries].
  rewrite sweep_map_lookup, live_lookup. destruct (entries c !! ip) as [e|]; [|done].
  unfold expired, Before. case_decide; destruct (Z.ltb_spec now (expires e)); done || lia.
Qed.

Definition wf_cache (c : Cache) : Prop := Z.of_nat (size (entries c)) <= max c.

(** A size bound survives inserting a key that is held or fits. *)
Lemma size_insert_le (m : gmap Addr entry) ip e n :
  Z.of_nat (size m) <= n -> is_Some (m !! ip) \/ Z.of_nat (size m) < n ->
  Z.of_nat (size (<[ip := e]> m)) <= n.
Proof.
  intros Hle Hor. destruct (m !! ip) as [e'|] eqn:E.
  - rewrite map_size_insert_Some; [done|by eexists].
  - rewrite map_size_insert_None by done.
    destruct Hor as [[? ?]|]; [congruence|lia].
Qed.

(** [Put], described on the live entries alone. *)
Lemma Put_live ip nm ttl now c :
  wf_cache c ->
  let '(ok, c') := Put ip nm ttl now c in
  wf_cache c' /\ max c' = max c /\
  ok = bool_decide (is_Some (live now (entries c) !! Unmap ip))
       || (Z.of_nat (size (live now (entries c))) <? max c) /\
  live now (entries c') =
    if ok then <[Unmap ip := mkEntry nm (now + clampTTL ttl)]> (live now (entries c))
    else live now (entries c).
Proof.
  intros Hwf. unfold Put, wf_cache in *.
  assert (now < now + clampTTL ttl) as Hexp by (pose proof (clampTTL_pos ttl); lia).
  set (e := mkEntry nm (Add now (clampTTL ttl))).
  pose proof (live_size now (entries c)) as Hls.
  destruct (bool_decide (entries c !! Unmap ip = None) && (max c <=? Z.of_nat (Len c))) eqn:Hfull.
  - apply andb_true_iff in Hfull as [Hnone Hfull]. apply bool_decide_eq_true in Hnone.
    assert (live now (entries c) !! Unmap ip = None) as Hlnone
      by (rewrite live_lookup; by rewrite Hnone).
    rewrite bool_decide_eq_false_2 by (rewrite Hlnone; by intros [? ?]). cbn [orb].
    unfold Len. rewrite sweepLocked_live. cbn [max sweepLocked].
    destruct (max c <=? Z.of_nat (size (live now (entries c)))) eqn:Hmax.
    + rewrite sweepLocked_live, live_live by lia. split_and!; try done; cbn; lia.
    + cbn [max entries store]. rewrite sweepLocked_live, live_insert, live_live by (done || lia).
      cbn [sweepLocked max]. split_and!; try done; [|lia].
      apply size_insert_le; [lia|right; lia].
  - cbn [max entries store]. rewrite live_insert by done.
    assert (is_Some (entries c !! Unmap ip) \/ Z.of_nat (size (entries c)) < max c) as Hor.
    { apply andb_false_iff in Hfull as [Hf|Hf]; [left|right; unfold Len in Hf; lia].
      apply bool_decide_eq_false in Hf. by destruct (entries c !! Unmap ip). }
    split_and!; [by apply size_insert_le|done| |done].
    symmetry. apply orb_true_iff.
    destruct (live now (entries c) !! Unmap ip) as [e'|] eqn:El.
    { left. by apply bool_decide_eq_true_2. }
    right. destruct Hor as [[e' He']|]; [|lia].
    (* held but expired: dropping it leaves room *)
    assert (size (live now (entries c)) < size (entries c))%nat; [|lia].
    apply map_subset_size. split; [apply map_filter_subseteq|]. intros Hsub.
    pose proof (lookup_weaken _ _ _ _ He' Hsub) as Hc. by rewrite El in Hc.
Qed.

Lemma Sweep_live now c :
  wf_cache c ->
  let '(n, c') := Sweep now c in
  wf_cache c' /\ max c' = max c /\ entries c' = live now (entries c) /\
  n = size (live now (entries c)).
Proof.
  intros Hwf. unfold Sweep, wf_cache, Len in *. rewrite sweepLocked_live. cbn.
  pose proof (live_size now (entries c)). split_and!; try done. lia.
Qed.

Lemma step_simulates o c m now :
  now <= op_time o -> wf_cache c -> live now (entries c) = live now m ->
  let '(a, c') := step o c in
  let '(a', m') := ideal_step (max c) o m in
  a = a' /\ wf_cache c' /\ max c' = max c /\
  live (op_time o) (entries c') = live (op_time o) m'.
Proof.
  intros Hle Hwf Heq.
  assert (live (op_time o) (entries c) = live (op_time o) m) as Hl.
  { rewrite <- (live_live now _ (entries c)), Heq, live_live by done. done. }
  destruct o as [ip nm ttl t|ip t|t]; cbn [op_time] in *; unfold step, ideal_step; cbn [op_time].
  - pose proof (Put_live ip nm ttl t c Hwf) as Hp. rewrite <- Hl.
    destruct (Put ip nm ttl t c) as [ok c']. destruct Hp as (Hwf' & Hmax & Hok & Hlive).
    assert (t < t + clampTTL ttl) as Hexp by (pose proof (clampTTL_pos ttl); lia).
    rewrite <- Hok. destruct ok; split_and!; try done; rewrite Hlive.
    + rewrite live_insert, live_live by (done || lia). done.
    + by rewrite live_live.
  - rewrite Lookup_live, Hl. split_and!; try done. by rewrite live_live.
  - pose proof (Sweep_live t c Hwf) as Hs. destruct (Sweep t c) as [n c'].
    destruct Hs as (Hwf' & Hmax & Hent & ->). rewrite Hent, Hl. split_and!; try done.
Qed.

Lemma runs_agree ops now c m :
  monotone_from now ops -> wf_cache c -> live now (entries c) = live now m ->
  run c ops = ideal_run (max c) m ops.
Proof.
  revert now c m. induction ops as [|o ops IH]; intros now c m; [done|].
  intros [Hle Hmono] Hwf Heq. cbn [run ideal_run].
  pose proof (step_simulates o c m now Hle Hwf Heq) as Hs.
  destruct (step o c) as [a c']. destruct (ideal_step (max c) o m) as [a' m'].
  destruct Hs as (-> & Hwf' & <- & Heq'). f_equal. by apply (IH (op_time o)).
Qed.
End Simulation.

#[export] Hint Resolve clampTTL_range clampTTL_pos live_size : sniffer.
#[export] Hint Rewrite @sweepLocked_live Lookup_live : sniffer.

(** ** Properties *)

(** C16: refinement.  Along any run on a non-decreasing clock, the lazily swept
    cache answers every [Put], [Lookup] and [Sweep] exactly as the ideal cache
    that forgets an entry the instant it expires: a [Put] is refused only when
    [max] other addresses are live, a [Lookup] returns the latest name put for
    the address while its clamped lifetime lasts, and [Sweep] reports the number
    of live entries. *)
Theorem DnsCache_refines_ideal {RO : RangeOrder Addr entry} maxEntries start ops :
  0 <= maxEntries -> monotone_from start ops ->
  run (New maxEntries) ops = ideal_run maxEntries ∅ ops.
Proof. intros Hmax Hmono. by apply (runs_agree ops start (New maxEntries) ∅). Qed.

Definition ip1 : Addr := Addr4 x36 xbb x01 x02.
Definition ip2 : Addr := Addr4 x36 xbb x01 x03.
(** [ip1] in its 4-in-6 form. *)
Definition ip1_mapped : Addr := Addr6 (v4in6_prefix ++ [x36; xbb; x01; x02]) "".

Definition sample_ops : list op :=
  [OpPut ip1 "api.stripe.com" Second 0; OpPut ip2 "cdn.example.com" Second Second;
   OpLookup ip1_mapped (30 * Second); OpLookup ip1 Minute;
   OpPut ip2 "cdn.example.com" (3600 * Second) Minute; OpSweep (10 * Minute);
   OpLookup ip2 (31 * Minute)].

Lemma DnsCache_refines_ideal_witness :
  run (RO:=canonical_order) (New 1) sample_ops = ideal_run 1 ∅ sample_ops /\
  ideal_run 1 ∅ sample_ops =
    [APut true; APut false; ALookup (Some "api.stripe.com"); ALookup None; APut true;
     ASweep 1; ALookup None].
Proof.
  split; [|by vm_compute]. apply (DnsCache_refines_ideal (RO:=canonical_order) 1 0); [lia|].
  cbn. unfold Minute, Second, Millisecond. lia.
Defined.

(** The cache never holds more than [max] addresses, whatever the sequence of
    operations and clock readings. *)
Lemma DnsCache_bounded {RO : RangeOrder Addr entry} maxEntries c :
  0 <= maxEntries ->
  reachable (fun c => c = New maxEntries) (fun c c' => exists o, c' = (step o c).2) c ->
  max c = maxEntries /\ Z.of_nat (Len c) <= maxEntries.
Proof.
  intros Hmax Hr. unfold Len.
  enough (max c = maxEntries /\ wf_cache c) as [Hm Hwf] by (unfold wf_cache in Hwf; lia).
  revert c Hr. apply reachable_invariant; [intros ? ->; by split|].
  intros c c' [Hm Hwf] [[ip nm ttl t|ip t|t] ->]; unfold step.
  - pose proof (Put_live ip nm ttl t c Hwf) as Hp. destruct (Put ip nm ttl t c). cbn.
    destruct Hp as (?&?&_). split; congruence || done.
  - done.
  - pose proof (Sweep_live t c Hwf) as Hs. destruct (Sweep t c). cbn.
    destruct Hs as (?&?&_). split; congruence || done.
Qed.

Lemma DnsCache_bounded_witness :
  let c := (step (RO:=canonical_order) (OpPut ip1 "a" 0 0) (New 1)).2 in
  max c = 1 /\ Z.of_nat (Len c) <= 1.
Proof.
  apply (DnsCache_bounded (RO:=canonical_order)); [lia|].
  eapply reach_step; [by apply reach_init|]. by eexists.
Defined.

(** An accepted [Put] names the address, in either of its forms, for its TTL
    clamped to between one and thirty minutes, and leaves every other address's
    lookups unchanged from that instant on; a refused one changes no lookup.  An
    address already held is always accepted. *)
Lemma Put_then_Lookup {RO : RangeOrder Addr entry} ip nm ttl now c :
  Z.of_nat (Len c) <= max c ->
  let '(ok, c') := Put ip nm ttl now c in
  (is_Some (entries c !! Unmap ip) -> ok = true) /\
  MinTTL <= clampTTL ttl <= MaxTTL /\
  forall ip' now', now <= now' ->
    Lookup ip' now' c' =
    if ok && bool_decide (Unmap ip' = Unmap ip)
    then (if now' <? now + clampTTL ttl then Some nm else None)
    else Lookup ip' now' c.
Proof.
  intros Hwf. pose proof (Put_live ip nm ttl now c Hwf) as Hp.
  assert (is_Some (entries c !! Unmap ip) -> (Put ip nm ttl now c).1 = true) as Hheld.
  { intros [e He]. unfold Put. by rewrite bool_decide_eq_false_2 by congruence. }
  destruct (Put ip nm ttl now c) as [ok c'].
  destruct Hp as (_ & _ & _ & Hlive). split; [done|]. split; [apply clampTTL_range|].
  intros ip' now' Hle. rewrite !Lookup_live.
  rewrite <- (live_live now now' (entries c')), Hlive by done.
  destruct ok; cbn [andb]; [|by rewrite live_live].
  case_bool_decide as Heq.
  - rewrite live_lookup, Heq, lookup_insert_eq. cbn.
    case_decide; destruct (Z.ltb_spec now' (now + clampTTL ttl)); done || lia.
  - rewrite live_lookup, lookup_insert_ne by done. rewrite <- live_lookup.
    by rewrite live_live.
Qed.

Lemma Put_then_Lookup_witness :
  let '(ok, c') := Put (RO:=canonical_order) ip1_mapped "a" Second 0 (New 2) in
  ok = true /\ Lookup ip1 (59 * Second) c' = Some "a" /\ Lookup ip1 Minute c' = None.
Proof.
  pose proof (Put_then_Lookup (RO:=canonical_order) ip1_mapped "a" Second 0 (New 2)
    ltac:(vm_compute; discriminate)) as Hp.
  assert ((Put (RO:=canonical_order) ip1_mapped "a" Second 0 (New 2)).1 = true) as Hok
    by (by vm_compute).
  destruct (Put _ _ _ _ _) as [ok c']. cbn in Hok. subst ok.
  destruct Hp as (_ & _ & Hl). split; [done|].
  split; (rewrite Hl; [by vm_compute|unfold Minute, Second, Millisecond; lia]).
Defined.
