(* ===== verification/Wire.v ===== *)
(** * Wire: the messages of [api/sniffer/v1]

    The flow record and the report request as the generated Go structs hold
    them: addresses as byte slices, the numeric fields at their protobuf
    widths. *)

From S2P Require Import Prelude Golang.

Record FlowRecord := mkFlowRecord {
  SrcIp : list byte;
  DstIp : list byte;
  FrDstPort : Z;
  FrProtocol : Z;
  FrOutbound : bool;
  SrcPodUid : string;
  FrComm : string;
  Count : Z;
  FirstSeenUnixNano : Z;
  LastSeenUnixNano : Z;
  FrDstHostname : string
}.

#[export] Instance FlowRecord_eq_dec : EqDecision FlowRecord.
Proof. solve_decision. Defined.

Record ReportRequest := mkReportRequest { NodeName : string; Records : list FlowRecord }.
