(* ===== verification/Aggregator.v ===== *)
(** * Aggregator: internal/collector/aggregate.go

    Folding canonical events into one flow per key, and draining the flows as
    wire records.  A flow lives behind a pointer that never leaves the map, so
    updating it in place is updating the map's value. *)

From S2P Require Import Prelude Golang Netip Model Wire.
Open Scope string_scope.
Open Scope list_scope.
Open Scope Z_scope.

Record flowKey := mkFlowKey {
  fk_src : Addr;
  fk_dst : Addr;
  fk_dstPort : Z;
  fk_proto : Z;
  fk_outbound : bool;
  fk_podUID : string
}.

#[export] Instance flowKey_eq_dec : EqDecision flowKey.
Proof. solve_decision. Defined.
#[export] Instance flowKey_countable : Countable flowKey.
Proof.
  refine (inj_countable
    (fun k => (fk_src k, fk_dst k, fk_dstPort k, fk_proto k, fk_outbound k, fk_podUID k))
    (fun '(s, d, p, pr, o, u) => Some (mkFlowKey s d p pr o u)) _).
  by intros [].
Defined.

Record flow := mkFlow {
  fl_comm : string;
  fl_hostname : string;
  fl_count : Z;
  fl_first : Time;
  fl_last : Time
}.

Record Aggregator := mkAggregator { flows : gmap flowKey flow }.

Definition NewAggregator : Aggregator := mkAggregator ∅.

Definition event_key (ev : ConnectionEvent) : flowKey :=
  mkFlowKey (SrcIP ev) (DstIP ev) (DstPort ev) (EvProtocol ev) (Outbound ev) (SrcPodUID ev).

(** The body of [Add] after the lookup: [f] is the held flow or a fresh one. *)
Definition touch (f : flow) (ev : ConnectionEvent) (now : Time) : flow :=
  mkFlow (if decide (fl_comm f = "") then Comm ev else fl_comm f)
         (if decide (fl_hostname f = "") then DstHostname ev else fl_hostname f)
         (uint32 (fl_count f + 1)) (fl_first f) now.

Definition Add (ev : ConnectionEvent) (now : Time) (a : Aggregator) : nat * Aggregator :=
  let k := event_key ev in
  let f := match flows a !! k with Some f => f | None => mkFlow "" "" 0 now zeroTime end in
  let a := mkAggregator (<[k := touch f ev now]> (flows a)) in
  (size (flows a), a).

Definition to_record (kf : flowKey * flow) : FlowRecord :=
  let '(k, f) := kf in
  mkFlowRecord (AsSlice (fk_src k)) (AsSlice (fk_dst k)) (uint32 (fk_dstPort k))
    (uint32 (fk_proto k)) (fk_outbound k) (fk_podUID k) (fl_comm f) (fl_count f)
    (UnixNano (fl_first f)) (UnixNano (fl_last f)) (fl_hostname f).

Definition Drain {RO : RangeOrder flowKey flow} (a : Aggregator) : list FlowRecord * Aggregator :=
  (to_record <$> range_map (flows a), NewAggregator).

(** ** Specification: a flow is a summary of the observations with its key *)

Abbreviation observation := (ConnectionEvent * Time)%type (only parsing).

Definition add_all (obs : list observation) (a : Aggregator) : Aggregator :=
  foldl (fun a '(ev, now) => (Add ev now a).2) a obs.

Definition with_key (k : flowKey) (obs : list observation) : list observation :=
  filter (fun '(ev, _) => event_key ev = k) obs.

(** The first non-empty string of a list, or the empty string. *)
Fixpoint first_nonempty (l : list string) : string :=
  match l with
  | [] => ""
  | s :: l => if decide (s = "") then first_nonempty l else s
  end.

(** What a non-empty list of observations of one key amounts to. *)
Definition summary (obs : list observation) : option flow :=
  match obs with
  | [] => None
  | (ev, t) :: rest =>
      Some (mkFlow (first_nonempty (map (fun o => Comm o.1) obs))
                   (first_nonempty (map (fun o => DstHostname o.1) obs))
                   (uint32 (Z.of_nat (length obs)))
                   t
                   (List.last (map snd obs) t))
  end.

(** ** Lemmas *)

Lemma first_nonempty_snoc l s :
  first_nonempty (l ++ [s]) = if decide (first_nonempty l = "") then s else first_nonempty l.
Proof.
  induction l as [|x l IH]; simpl; [by destruct (decide (s = "")) as [->|]|].
  destruct (decide (x = "")) as [->|Hx]; [done|]. by rewrite decide_False.
Qed.

Lemma uint32_succ z : uint32 (uint32 z + 1) = uint32 (z + 1).
Proof. unfold uint32. by rewrite Zplus_mod_idemp_l. Qed.

Lemma summary_snoc obs ev now :
  summary (obs ++ [(ev, now)]) =
  Some (touch (default (mkFlow "" "" 0 now zeroTime) (summary obs)) ev now).
Proof.
  destruct obs as [|[ev0 t0] obs].
  - unfold summary, touch. cbn [app map fl_comm fl_hostname first_nonempty default].
    cbn. repeat f_equal; by case_decide.
  - unfold summary. rewrite <- app_comm_cons. cbn [default from_option id].
    unfold touch. f_equal.
    cbn [fl_comm fl_hostname fl_count fl_first fl_last].
    rewrite (app_comm_cons obs). f_equal.
    + rewrite map_app. apply first_nonempty_snoc.
    + rewrite map_app. apply first_nonempty_snoc.
    + rewrite uint32_succ, length_app. f_equal. simpl length. lia.
    + rewrite map_app. apply last_last.
Qed.

Lemma with_key_app k obs1 obs2 : with_key k (obs1 ++ obs2) = with_key k obs1 ++ with_key k obs2.
Proof. apply filter_app. Qed.

Lemma add_all_app obs1 obs2 a : add_all (obs1 ++ obs2) a = add_all obs2 (add_all obs1 a).
Proof. apply foldl_app. Qed.

Lemma add_all_flows obs k : flows (add_all obs NewAggregator) !! k = summary (with_key k obs).
Proof.
  induction obs as [|[ev now] obs IH] using rev_ind; [apply lookup_empty|].
  rewrite add_all_app, with_key_app. cbn [add_all foldl Add flows snd].
  unfold with_key at 2. rewrite filter_cons, filter_nil.
  destruct (decide (event_key ev = k)) as [<-|Hne].
  - rewrite lookup_insert_eq, summary_snoc. fold (add_all obs NewAggregator). rewrite IH.
    by destruct (summary _).
  - by rewrite lookup_insert_ne, app_nil_r.
Qed.

Lemma summary_count obs f :
  summary obs = Some f -> fl_count f = uint32 (Z.of_nat (length obs)).
Proof. destruct obs as [|[ev t] obs]; [done|]. intros Heq. by injection Heq as <-. Qed.

Lemma summary_None obs : summary obs = None <-> obs = [].
Proof. by destruct obs as [|[ev t] obs]. Qed.

(** Total of the counts of drained records. *)
Definition total_count (rs : list FlowRecord) : Z := foldr (fun r n => Count r + n) 0 rs.

Lemma total_count_perm rs1 rs2 : rs1 ≡ₚ rs2 -> total_count rs1 = total_count rs2.
Proof. unfold total_count. induction 1; simpl; lia. Qed.

Definition flow_total (m : gmap flowKey flow) : Z :=
  total_count (to_record <$> map_to_list m).

Lemma flow_total_insert_new m k f :
  m !! k = None -> flow_total (<[k := f]> m) = fl_count f + flow_total m.
Proof.
  intros Hk. unfold flow_total.
  rewrite (total_count_perm _ (to_record <$> (k, f) :: map_to_list m)); [done|].
  by rewrite map_to_list_insert.
Qed.

Lemma flow_total_update m k f f' :
  m !! k = Some f -> flow_total (<[k := f']> m) + fl_count f = flow_total m + fl_count f'.
Proof.
  intros Hk. rewrite <- (insert_delete_id m k f Hk) at 2. rewrite <- insert_delete_eq.
  rewrite !flow_total_insert_new by apply lookup_delete_eq. lia.
Qed.

(** Every observation is counted once, as long as no flow overflows. *)
Lemma add_all_total obs :
  Z.of_nat (length obs) < 2 ^ 32 ->
  flow_total (flows (add_all obs NewAggregator)) = Z.of_nat (length obs).
Proof.
  induction obs as [|[ev now] obs IH] using rev_ind; [done|].
  rewrite length_app. simpl length. intros Hlt. rewrite add_all_app.
  cbn [add_all foldl Add flows snd]. fold (add_all obs NewAggregator).
  pose proof (add_all_flows obs (event_key ev)) as Hk.
  destruct (flows (add_all obs NewAggregator) !! event_key ev) as [f|] eqn:E.
  - symmetry in Hk. apply summary_count in Hk.
    pose proof (flow_total_update _ _ _ (touch f ev now) E) as Hu.
    assert (length (with_key (event_key ev) obs) <= length obs)%nat
      by apply length_filter.
    cbn [touch fl_count] in Hu. rewrite Hk, uint32_succ in Hu. unfold uint32 in Hu.
    rewrite !Z.mod_small in Hu by lia. rewrite IH in Hu by lia. lia.
  - rewrite flow_total_insert_new, IH by (done || lia). cbn [touch fl_count].
    change (uint32 (0 + 1)) with 1. lia.
Qed.

(** ** Properties *)

(** After any sequence of [Add]s the aggregator holds one flow per key seen,
    and that flow summarises exactly the observations with the key: their number
    modulo 2^32, the first and last time, the first non-empty command name and
    the first non-empty hostname.  [Add] returns the number of flows held. *)
Lemma Add_summarises obs ev now :
  let '(n, a) := Add ev now (add_all obs NewAggregator) in
  n = size (flows a) /\
  forall k, flows a !! k = summary (with_key k (obs ++ [(ev, now)])).
Proof.
  assert ((Add ev now (add_all obs NewAggregator)).2 =
          add_all (obs ++ [(ev, now)]) NewAggregator) as Ha by (by rewrite add_all_app).
  destruct (Add ev now (add_all obs NewAggregator)) as [n a] eqn:E. cbn in Ha. subst a.
  split; [by injection E as <- <-|]. apply add_all_flows.
Qed.

(** [Drain] returns one record per flow, in some order, and leaves the
    aggregator empty, so no observation is reported twice; the counts of the
    drained records add up to the number of observations while that number is
    below 2^32, so none is lost either. *)
Lemma Drain_conserves {RO : RangeOrder flowKey flow} obs :
  Z.of_nat (length obs) < 2 ^ 32 ->
  let '(out, a) := Drain (add_all obs NewAggregator) in
  a = NewAggregator /\
  out ≡ₚ to_record <$> map_to_list (flows (add_all obs NewAggregator)) /\
  total_count out = Z.of_nat (length obs).
Proof.
  intros Hlt. unfold Drain. split; [done|].
  assert (to_record <$> range_map (flows (add_all obs NewAggregator)) ≡ₚ
          to_record <$> map_to_list (flows (add_all obs NewAggregator))) as Hp
    by (by rewrite range_map_perm).
  split; [done|]. rewrite (total_count_perm _ _ Hp). by apply add_all_total.
Qed.

Definition sample_event (cport : Z) (dport : Z) : ConnectionEvent :=
  mkEvent (Addr4 x0a x00 x00 x05) (Addr4 x0a x00 x00 x09) cport dport ProtocolTCP 7 "curl"
    true "uid-1" "".
Definition sample_obs : list observation :=
  [(sample_event 40000 80, 1); (sample_event 40001 80, 2); (sample_event 40002 443, 3)].

Lemma Drain_conserves_witness :
  let '(out, a) := Drain (RO:=canonical_order) (add_all sample_obs NewAggregator) in
  a = NewAggregator /\ length out = 2%nat /\ total_count out = 3.
Proof.
  pose proof (Drain_conserves (RO:=canonical_order) sample_obs ltac:(cbn; lia)) as Hd.
  assert (length (Drain (RO:=canonical_order) (add_all sample_obs NewAggregator)).1 = 2%nat) as Hl
    by (by vm_compute).
  destruct (Drain (add_all sample_obs NewAggregator)) as [out a]. destruct Hd as (Ha & _ & Ht).
  by split_and!.
Defined.
