(* ===== verification/Sender.v ===== *)
(** * Sender: internal/collector/sender.go

    The bounded, oldest-first-evicting queue between the collector and the
    processor, and the delivery loop with exponential backoff.  Channel
    operations are atomic; between them other goroutines run.  [Enqueue] is
    given twice: as the function its caller observes when no other goroutine
    interferes, and, in the step relation, one channel operation at a time, with
    any number of concurrent callers, the delivery loop and cancellation. *)

From S2P Require Import Prelude Golang Wire.
Open Scope string_scope.
Open Scope list_scope.
Open Scope Z_scope.

Definition minBackoff : Duration := 100 * Millisecond.
Definition maxBackoff : Duration := 10 * Second.

Abbreviation batch := (list FlowRecord) (only parsing).

Inductive SenderLog := ReportFailed | ReachableAgain.

(** The sender's share of the collector's metrics. *)
Record SenderMetrics := mkSenderMetrics {
  RecordsSent : Z;
  RecordsDropped : Z;
  ReportErrors : Z;
  QueueDepth : Z
}.

Record Sender := mkSender {
  node : string;
  queue : list batch;
  queue_cap : nat;
  timeout : Duration;
  sender_log : list SenderLog;
  sm : SenderMetrics;
  failing : bool
}.

Definition NewSender (node : string) (queueSize : nat) (timeout : Duration) : Sender :=
  mkSender node [] queueSize timeout [] (mkSenderMetrics 0 0 0 0) false.

(** ** Field updates *)

Definition set_queue (q : list batch) (s : Sender) : Sender :=
  mkSender (node s) q (queue_cap s) (timeout s) (sender_log s) (sm s) (failing s).
Definition set_metrics (m : SenderMetrics) (s : Sender) : Sender :=
  mkSender (node s) (queue s) (queue_cap s) (timeout s) (sender_log s) m (failing s).
Definition set_failing (b : bool) (l : SenderLog) (s : Sender) : Sender :=
  mkSender (node s) (queue s) (queue_cap s) (timeout s) (sender_log s ++ [l]) (sm s) b.

Definition add_sent (n : nat) (s : Sender) : Sender :=
  set_metrics (mkSenderMetrics (RecordsSent (sm s) + Z.of_nat n) (RecordsDropped (sm s))
                 (ReportErrors (sm s)) (QueueDepth (sm s))) s.
Definition add_dropped (n : nat) (s : Sender) : Sender :=
  set_metrics (mkSenderMetrics (RecordsSent (sm s)) (RecordsDropped (sm s) + Z.of_nat n)
                 (ReportErrors (sm s)) (QueueDepth (sm s))) s.
Definition inc_errors (s : Sender) : Sender :=
  set_metrics (mkSenderMetrics (RecordsSent (sm s)) (RecordsDropped (sm s))
                 (ReportErrors (sm s) + 1) (QueueDepth (sm s))) s.
Definition set_depth (s : Sender) : Sender :=
  set_metrics (mkSenderMetrics (RecordsSent (sm s)) (RecordsDropped (sm s))
                 (ReportErrors (sm s)) (Z.of_nat (length (queue s)))) s.

(** ** Enqueue *)

(** [select { case s.queue <- batch: ...; default: }]; [None] is the default
    branch.  (An unbuffered channel never accepts here; the command line rejects
    a non-positive queue size.) *)
Definition try_send (b : batch) (s : Sender) : option Sender :=
  if (length (queue s) <? queue_cap s)%nat
  then Some (set_depth (set_queue (queue s ++ [b]) s))
  else None.

(** [select { case old := <-s.queue: ...; default: }]. *)
Definition evict (s : Sender) : Sender :=
  match queue s with
  | old :: q => add_dropped (length old) (set_queue q s)
  | [] => s
  end.

Fixpoint enqueue_loop (fuel : nat) (b : batch) (s : Sender) : option Sender :=
  match fuel with
  | O => None
  | S fuel =>
      match try_send b s with
      | Some s => Some s
      | None => enqueue_loop fuel b (evict s)
      end
  end.

(** Two iterations: push, or evict one batch and push. *)
Definition enqueue_fuel : nat := 2.
Definition Enqueue (b : batch) (s : Sender) : option Sender :=
  if decide (b = []) then Some s else enqueue_loop enqueue_fuel b s.

(** ** Delivery *)

(** How one iteration of the loop in [send] ends. *)
Inductive verdict := Delivered | GaveUp | Backoff | Cancelled.

Definition send_attempt (err ctx_done : bool) (b : batch) (s : Sender) : verdict * Sender :=
  if negb err then
    let s := add_sent (length b) s in
    (Delivered, if failing s then set_failing false ReachableAgain s else s)
  else if ctx_done then (Cancelled, s)
  else
    let s := inc_errors s in
    let s := if negb (failing s) then set_failing true ReportFailed s else s in
    if (length (queue s) =? queue_cap s)%nat then (GaveUp, add_dropped (length b) s)
    else (Backoff, s).

Definition next_backoff (backoff : Duration) : Duration := Z.min (backoff * 2) maxBackoff.

(** [case batch := <-s.queue] of [Run]. *)
Definition dequeue (s : Sender) : option (batch * Sender) :=
  match queue s with
  | b :: q => Some (b, set_depth (set_queue q s))
  | [] => None
  end.

(** ** The concurrent system *)

(** Where [Run] is: waiting for a batch, in a Report call, in the backoff timer,
    or returned (with the batch it was sending, if any). *)
Inductive phase :=
| Idle
| Sending (b : batch) (backoff : Duration)
| Sleeping (b : batch) (backoff : Duration)
| Stopped (b : option batch).

(** A pending [Enqueue] call, before its first or its second select. *)
Inductive pc := AtSend | AtEvict.

Record system := mkSystem {
  sys_sender : Sender;
  sys_phase : phase;
  sys_callers : list (batch * pc);
  sys_done : bool;             (* ctx is cancelled *)
  sys_pushed : list batch;     (* ghost: every batch ever put on the queue, in order *)
  sys_delivered : list batch   (* ghost: every batch a Report call accepted, in order *)
}.

Definition sys_init (s : Sender) : system := mkSystem s Idle [] false [] [].

Definition after (v : verdict) (b : batch) (backoff : Duration) : phase :=
  match v with
  | Delivered | GaveUp => Idle
  | Backoff => Sleeping b backoff
  | Cancelled => Stopped (Some b)
  end.

Inductive sys_step : system -> system -> Prop :=
| step_call s ph cs d pu de b :
    b <> [] ->
    sys_step (mkSystem s ph cs d pu de) (mkSystem s ph (cs ++ [(b, AtSend)]) d pu de)
| step_push s s' ph cs1 cs2 d pu de b :
    try_send b s = Some s' ->
    sys_step (mkSystem s ph (cs1 ++ (b, AtSend) :: cs2) d pu de)
             (mkSystem s' ph (cs1 ++ cs2) d (pu ++ [b]) de)
| step_full s ph cs1 cs2 d pu de b :
    try_send b s = None ->
    sys_step (mkSystem s ph (cs1 ++ (b, AtSend) :: cs2) d pu de)
             (mkSystem s ph (cs1 ++ (b, AtEvict) :: cs2) d pu de)
| step_evict s ph cs1 cs2 d pu de b :
    sys_step (mkSystem s ph (cs1 ++ (b, AtEvict) :: cs2) d pu de)
             (mkSystem (evict s) ph (cs1 ++ (b, AtSend) :: cs2) d pu de)
| step_recv s s' cs d pu de b :
    dequeue s = Some (b, s') ->
    sys_step (mkSystem s Idle cs d pu de) (mkSystem s' (Sending b minBackoff) cs d pu de)
| step_report s s' cs d pu de b backoff err v :
    send_attempt err d b s = (v, s') ->
    sys_step (mkSystem s (Sending b backoff) cs d pu de)
             (mkSystem s' (after v b backoff) cs d pu
                (match v with Delivered => de ++ [b] | _ => de end))
| step_wake s cs d pu de b backoff :
    sys_step (mkSystem s (Sleeping b backoff) cs d pu de)
             (mkSystem s (Sending b (next_backoff backoff)) cs d pu de)
| step_cancel s ph cs d pu de :
    sys_step (mkSystem s ph cs d pu de) (mkSystem s ph cs true pu de)
| step_stop_idle s cs pu de :
    sys_step (mkSystem s Idle cs true pu de) (mkSystem s (Stopped None) cs true pu de)
| step_stop_sleeping s cs pu de b backoff :
    sys_step (mkSystem s (Sleeping b backoff) cs true pu de)
             (mkSystem s (Stopped (Some b)) cs true pu de).

(** The batch [Run] holds. *)
Definition in_flight (ph : phase) : list batch :=
  match ph with
  | Sending b _ | Sleeping b _ | Stopped (Some b) => [b]
  | Idle | Stopped None => []
  end.

(** ** Invariants *)

(** The queue is bounded and every record ever queued is accounted for. *)
Definition accounted (cap : nat) (x : system) : Prop :=
  queue_cap (sys_sender x) = cap /\
  (length (queue (sys_sender x)) <= cap)%nat /\
  Z.of_nat (total_length (sys_pushed x)) =
    RecordsSent (sm (sys_sender x)) + RecordsDropped (sm (sys_sender x)) +
    Z.of_nat (total_length (queue (sys_sender x))) +
    Z.of_nat (total_length (in_flight (sys_phase x))) /\
  RecordsSent (sm (sys_sender x)) = Z.of_nat (total_length (sys_delivered x)).

(** Delivered batches, then the one in flight, then the queue: a subsequence of
    what was pushed. *)
Definition in_order (x : system) : Prop :=
  (sys_delivered x ++ in_flight (sys_phase x) ++ queue (sys_sender x))
    `sublist_of` sys_pushed x.

(** Outages are logged once on entry and once on recovery. *)
Definition outages_logged (s : Sender) : Prop :=
  exists n, sender_log s = concat (replicate n [ReportFailed; ReachableAgain]) ++
                           (if failing s then [ReportFailed] else []).

Definition backoff_of (ph : phase) : option Duration :=
  match ph with Sending _ d | Sleeping _ d => Some d | _ => None end.
Definition backoff_ok (x : system) : Prop :=
  forall d, backoff_of (sys_phase x) = Some d ->
    exists k : nat, d = Z.min (minBackoff * 2 ^ Z.of_nat k) maxBackoff.

(** ** Lemmas: single operations *)

Lemma total_length_snoc {A} (ls : list (list A)) l :
  total_length (ls ++ [l]) = (total_length ls + length l)%nat.
Proof. rewrite total_length_app. unfold total_length. simpl. lia. Qed.

Lemma total_length_cons {A} (ls : list (list A)) l :
  total_length (l :: ls) = (length l + total_length ls)%nat.
Proof. done. Qed.

Lemma total_length_nil {A} : total_length (@nil (list A)) = 0%nat.
Proof. done. Qed.

#[export] Hint Rewrite @total_length_snoc @total_length_cons @total_length_nil : sniffer.

Lemma try_send_Some b s s' :
  try_send b s = Some s' ->
  (length (queue s) < queue_cap s)%nat /\ s' = set_depth (set_queue (queue s ++ [b]) s).
Proof.
  unfold try_send. destruct (Nat.ltb_spec (length (queue s)) (queue_cap s)); [|done].
  intros Hs. by injection Hs as <-.
Qed.

Lemma try_send_None b s : try_send b s = None -> (queue_cap s <= length (queue s))%nat.
Proof. unfold try_send. by destruct (Nat.ltb_spec (length (queue s)) (queue_cap s)). Qed.

Lemma evict_queue s : queue (evict s) = drop 1 (queue s).
Proof. unfold evict. by destruct (queue s) eqn:E; rewrite ?E. Qed.

Lemma evict_frame s :
  queue_cap (evict s) = queue_cap s /\ sender_log (evict s) = sender_log s /\
  failing (evict s) = failing s /\ RecordsSent (sm (evict s)) = RecordsSent (sm s) /\
  node (evict s) = node s /\ ReportErrors (sm (evict s)) = ReportErrors (sm s).
Proof. unfold evict. by destruct (queue s). Qed.

(** Evicting moves records from the queue to the dropped counter. *)
Lemma evict_accounted s :
  RecordsDropped (sm (evict s)) + Z.of_nat (total_length (queue (evict s))) =
  RecordsDropped (sm s) + Z.of_nat (total_length (queue s)).
Proof.
  unfold evict. destruct (queue s) as [|old q] eqn:E; [by rewrite E|].
  cbn [queue sm RecordsDropped add_dropped set_metrics set_queue].
  rewrite total_length_cons. lia.
Qed.

Lemma send_attempt_frame err d b s v s' :
  send_attempt err d b s = (v, s') ->
  queue s' = queue s /\ queue_cap s' = queue_cap s /\ node s' = node s.
Proof. unfold send_attempt. intros H. repeat case_match; by injection H as <- <-. Qed.

Lemma send_attempt_counts err d b s v s' :
  send_attempt err d b s = (v, s') ->
  let delivered := match v with Delivered => Z.of_nat (length b) | _ => 0 end in
  let dropped := match v with GaveUp => Z.of_nat (length b) | _ => 0 end in
  RecordsSent (sm s') = RecordsSent (sm s) + delivered /\
  RecordsDropped (sm s') = RecordsDropped (sm s) + dropped.
Proof. unfold send_attempt. intros H. repeat case_match; simplify_eq; cbn; lia. Qed.

Lemma outages_logged_enter s :
  outages_logged s -> failing s = false -> outages_logged (set_failing true ReportFailed s).
Proof.
  intros [n Hn] Hf. exists n. cbn. rewrite Hn, Hf. by rewrite app_nil_r.
Qed.

Lemma outages_logged_leave s :
  outages_logged s -> failing s = true -> outages_logged (set_failing false ReachableAgain s).
Proof.
  intros [n Hn] Hf. exists (S n). cbn [sender_log failing set_failing]. rewrite Hn, Hf.
  rewrite replicate_S_end, concat_app. cbn. by rewrite app_nil_r, <- app_assoc.
Qed.

(** Only the two flag changes touch the log. *)
Lemma outages_logged_metrics m s : outages_logged s -> outages_logged (set_metrics m s).
Proof. done. Qed.
Lemma outages_logged_queue q s : outages_logged s -> outages_logged (set_queue q s).
Proof. done. Qed.

#[export] Hint Resolve outages_logged_enter outages_logged_leave outages_logged_metrics
  outages_logged_queue : sniffer.

Lemma outages_logged_attempt err d b s v s' :
  outages_logged s -> send_attempt err d b s = (v, s') -> outages_logged s'.
Proof.
  intros Hs H. unfold send_attempt in H.
  repeat case_match; injection H as <- <-;
    unfold add_sent, add_dropped, inc_errors; auto 6 with sniffer.
  all: repeat apply outages_logged_metrics.
  all: first [apply outages_logged_leave|apply outages_logged_enter]; try done.
  all: match goal with Hf : negb (failing _) = true |- _ => by apply negb_true_iff in Hf end.
Qed.

Lemma next_backoff_iter k :
  next_backoff (Z.min (minBackoff * 2 ^ Z.of_nat k) maxBackoff) =
  Z.min (minBackoff * 2 ^ Z.of_nat (S k)) maxBackoff.
Proof.
  unfold next_backoff. rewrite Nat2Z.inj_succ, Z.pow_succ_r by lia.
  unfold maxBackoff, minBackoff, Second, Millisecond. lia.
Qed.

(** ** Lemmas: every step preserves the invariants *)

Lemma accounted_step cap x y : sys_step x y -> accounted cap x -> accounted cap y.
Proof.
  intros Hs (Hcap & Hlen & Hpu & Hde).
  inv Hs; cbn [sys_sender sys_phase sys_pushed sys_delivered in_flight] in *;
    unfold accounted; cbn [sys_sender sys_phase sys_pushed sys_delivered in_flight].
  - done.
  - match goal with H : try_send _ _ = Some _ |- _ => apply try_send_Some in H as [Hlt ->] end.
    cbn [set_depth set_metrics set_queue queue queue_cap sm RecordsSent RecordsDropped].
    rewrite length_app, !total_length_snoc. cbn [length]. split_and!; lia || done.
  - done.
  - pose proof (evict_frame s) as (-> & _ & _ & -> & _ & _). pose proof (evict_accounted s) as He.
    rewrite evict_queue, length_drop in *. split_and!; lia || done.
  - unfold dequeue in *. destruct (queue s) as [|b' q] eqn:E; [done|].
    match goal with H : Some _ = Some _ |- _ => injection H as -> <- end.
    cbn [set_depth set_metrics set_queue queue queue_cap sm RecordsSent RecordsDropped length] in *.
    rewrite total_length_cons in *. rewrite total_length_nil in *.
    split_and!; lia || done.
  - match goal with H : send_attempt _ _ _ _ = _ |- _ =>
      pose proof (send_attempt_counts _ _ _ _ _ _ H) as [Hcs Hcd];
      apply send_attempt_frame in H as (-> & -> & _) end.
    rewrite Hcs, Hcd. rewrite total_length_cons, total_length_nil in Hpu.
    destruct v; cbn [after in_flight];
      rewrite ?total_length_snoc, ?total_length_cons, ?total_length_nil; split_and!; lia || done.
  - done.
  - done.
  - done.
  - done.
Qed.

Lemma in_order_step x y : sys_step x y -> in_order x -> in_order y.
Proof.
  intros Hs Ho. unfold in_order in *.
  inv Hs; cbn [sys_sender sys_phase sys_pushed sys_delivered in_flight] in *; try done.
  - match goal with H : try_send _ _ = Some _ |- _ => apply try_send_Some in H as [_ ->] end.
    cbn [set_depth set_metrics set_queue queue]. rewrite !app_assoc.
    apply sublist_app; [|done]. by rewrite <- app_assoc.
  - rewrite evict_queue. etransitivity; [|exact Ho].
    apply sublist_app; [done|]. apply sublist_app; [done|]. apply sublist_drop.
  - unfold dequeue in *. destruct (queue s) as [|b' q] eqn:E; [done|].
    match goal with H : Some _ = Some _ |- _ => injection H as -> <- end. exact Ho.
  - match goal with H : send_attempt _ _ _ _ = _ |- _ =>
      apply send_attempt_frame in H as (-> & _ & _) end.
    destruct v; cbn [after in_flight app] in *; [by rewrite <- app_assoc| |done|done].
    etransitivity; [|exact Ho]. apply sublist_app; [done|]. by apply sublist_cons.
Qed.

Lemma outages_logged_step x y :
  sys_step x y -> outages_logged (sys_sender x) -> outages_logged (sys_sender y).
Proof.
  intros Hs Ho. inv Hs; cbn [sys_sender] in *; try done.
  - match goal with H : try_send _ _ = Some _ |- _ => apply try_send_Some in H as [_ ->] end.
    done.
  - unfold evict. by destruct (queue s).
  - unfold dequeue in *. destruct (queue s) as [|b' q]; [done|].
    by match goal with H : Some _ = Some _ |- _ => injection H as -> <- end.
  - by eapply outages_logged_attempt.
Qed.

Lemma backoff_ok_step x y : sys_step x y -> backoff_ok x -> backoff_ok y.
Proof.
  intros Hs Hb. unfold backoff_ok in *. inv Hs; cbn [sys_phase backoff_of] in *; try done.
  - intros d' Hd. injection Hd as <-. exists 0%nat.
    by unfold minBackoff, maxBackoff, Second, Millisecond.
  - destruct v; cbn [after backoff_of]; done || exact Hb.
  - intros d' Hd. injection Hd as <-. destruct (Hb _ eq_refl) as [k ->].
    exists (S k). apply next_backoff_iter.
Qed.

(** States reachable from a fresh sender. *)
Definition sys_reachable (nd : string) (cap : nat) (tmo : Duration) : system -> Prop :=
  reachable (fun x => x = sys_init (NewSender nd cap tmo)) sys_step.

Lemma sys_reachable_inv nd cap tmo x (P : system -> Prop) :
  P (sys_init (NewSender nd cap tmo)) ->
  (forall x y, sys_step x y -> P x -> P y) ->
  sys_reachable nd cap tmo x -> P x.
Proof.
  intros Hi Hs. apply reachable_invariant; [by intros ? ->|]. intros s s' Hp Hst.
  by apply (Hs s).
Qed.

(** The whole loop, run without interference. *)
Lemma enqueue_loop_spec b s :
  (0 < queue_cap s)%nat -> (length (queue s) <= queue_cap s)%nat ->
  exists s', enqueue_loop enqueue_fuel b s = Some s' /\
    queue s' = lastn (queue_cap s) (queue s ++ [b]) /\ queue_cap s' = queue_cap s /\
    RecordsSent (sm s') = RecordsSent (sm s) /\
    RecordsDropped (sm s') + Z.of_nat (total_length (queue s')) =
      RecordsDropped (sm s) + Z.of_nat (total_length (queue s)) + Z.of_nat (length b) /\
    QueueDepth (sm s') = Z.of_nat (length (queue s')) /\
    failing s' = failing s /\ sender_log s' = sender_log s /\ node s' = node s.
Proof.
  intros Hpos Hlen. cbn [enqueue_loop enqueue_fuel].
  destruct (try_send b s) as [s'|] eqn:E.
  - apply try_send_Some in E as [Hlt ->]. eexists. split; [done|].
    cbn [set_depth set_metrics set_queue queue queue_cap sm RecordsSent RecordsDropped QueueDepth].
    rewrite total_length_snoc, lastn_all by (rewrite length_app; simpl; lia).
    split_and!; done || lia.
  - apply try_send_None in E. pose proof (evict_frame s) as (Hc & Hl & Hf & Hr & Hn & _).
    pose proof (evict_accounted s) as Ha. unfold try_send.
    rewrite Hc, evict_queue, length_drop.
    replace (length (queue s) - 1 <? queue_cap s)%nat with true by (symmetry; apply Nat.ltb_lt; lia).
    eexists. split; [done|].
    cbn [set_depth set_metrics set_queue queue queue_cap sm RecordsSent RecordsDropped QueueDepth
         failing sender_log node].
    rewrite lastn_drop1_snoc, total_length_snoc by lia. rewrite evict_queue in Ha.
    split_and!; done || lia.
Qed.

Lemma enqueue_loop_diverges fuel b s :
  queue_cap s = 0%nat -> enqueue_loop fuel b s = None.
Proof.
  revert s. induction fuel as [|fuel IH]; intros s Hc; [done|]. cbn [enqueue_loop].
  unfold try_send. rewrite Hc. replace (_ <? 0)%nat with false by (by destruct (length (queue s))).
  apply IH. by rewrite (proj1 (evict_frame s)).
Qed.

(** ** Properties *)

(** C36: with a positive capacity [Enqueue] terminates within two iterations and
    leaves the newest [cap] batches queued, oldest first; every record it evicts
    is counted as dropped and nothing else changes.  An empty batch is ignored.
    With capacity zero the loop would never end, whatever the fuel. *)
Theorem Enqueue_keeps_newest b s :
  (length (queue s) <= queue_cap s)%nat ->
  ((0 < queue_cap s)%nat ->
   exists s', Enqueue b s = Some s' /\
     queue s' = (if decide (b = []) then queue s else lastn (queue_cap s) (queue s ++ [b])) /\
     queue_cap s' = queue_cap s /\ RecordsSent (sm s') = RecordsSent (sm s) /\
     RecordsDropped (sm s') + Z.of_nat (total_length (queue s')) =
       RecordsDropped (sm s) + Z.of_nat (total_length (queue s)) + Z.of_nat (length b) /\
     failing s' = failing s /\ sender_log s' = sender_log s) /\
  (queue_cap s = 0%nat -> forall fuel, enqueue_loop fuel b s = None).
Proof.
  intros Hlen. split; [|intros Hc fuel; by apply enqueue_loop_diverges].
  intros Hpos. unfold Enqueue. case_decide as Hb.
  - subst b. exists s. split_and!; done || (simpl; lia).
  - destruct (enqueue_loop_spec b s Hpos Hlen) as (s' & He & Hq & Hc & Hr & Hd & _ & Hf & Hl & _).
    exists s'. split_and!; done.
Qed.

Definition sample_record (n : Z) : FlowRecord :=
  mkFlowRecord [x0a; x00; x00; x05] [x0a; x00; x00; x09] 80 6 true "" "curl" n 0 0 "".
Definition b1 : batch := [sample_record 1].
Definition b2 : batch := [sample_record 2; sample_record 3].

Lemma Enqueue_keeps_newest_witness :
  exists s', Enqueue b2 (set_queue [b1] (NewSender "n1" 1 0)) = Some s' /\
    queue s' = [b2] /\ RecordsDropped (sm s') = 1.
Proof.
  destruct (Enqueue_keeps_newest b2 (set_queue [b1] (NewSender "n1" 1 0)) ltac:(cbn; lia)) as [He _].
  destruct (He ltac:(cbn; lia)) as (s' & Hs' & Hq & _ & _ & Hd & _).
  exists s'. split; [exact Hs'|]. change (queue s' = [b2]) in Hq. split; [exact Hq|].
  rewrite Hq in Hd. change (RecordsDropped (sm s') + 2 = 0 + 1 + 2) in Hd. lia.
Defined.

(** C11: whatever the interleaving of concurrent [Enqueue] calls, deliveries,
    failures, timer expiries and cancellation, the queue never exceeds its
    capacity, and every record that was ever put on it is counted as sent,
    counted as dropped, still queued, or in the batch being sent; the records
    counted as sent are those of the batches a Report call accepted. *)
Theorem sender_accounts_for_every_record nd cap tmo x :
  sys_reachable nd cap tmo x ->
  (length (queue (sys_sender x)) <= cap)%nat /\
  Z.of_nat (total_length (sys_pushed x)) =
    RecordsSent (sm (sys_sender x)) + RecordsDropped (sm (sys_sender x)) +
    Z.of_nat (total_length (queue (sys_sender x))) +
    Z.of_nat (total_length (in_flight (sys_phase x))) /\
  RecordsSent (sm (sys_sender x)) = Z.of_nat (total_length (sys_delivered x)).
Proof.
  intros Hr. enough (accounted cap x) as (_ & H) by exact H. revert Hr.
  apply sys_reachable_inv; [|apply accounted_step]. split_and!; cbn; lia || done.
Qed.

(** One batch: queued, taken, failed once, retried and delivered. *)
Definition sample_end : system :=
  mkSystem (mkSender "n1" [] 1 0 [ReportFailed; ReachableAgain] (mkSenderMetrics 1 0 1 0) false)
    Idle [] false [b1] [b1].

Definition sample_waiting : system :=
  mkSystem (mkSender "n1" [] 1 0 [] (mkSenderMetrics 0 0 0 0) false)
    (Sending b1 minBackoff) [] false [b1] [].
Definition sample_failed (ph : phase) : system :=
  mkSystem (mkSender "n1" [] 1 0 [ReportFailed] (mkSenderMetrics 0 0 1 0) true) ph [] false [b1] [].

Lemma sample_waiting_reachable : sys_reachable "n1" 1 0 sample_waiting.
Proof.
  assert (sys_reachable "n1" 1 0
    (mkSystem (NewSender "n1" 1 0) Idle [(b1, AtSend)] false [] [])) as Hcall.
  { eapply reach_step; [by apply reach_init|]. by apply (step_call _ _ [] _ _ _ b1). }
  assert (sys_reachable "n1" 1 0
    (mkSystem (mkSender "n1" [b1] 1 0 [] (mkSenderMetrics 0 0 0 1) false) Idle [] false [b1] []))
    as Hpush.
  { eapply reach_step; [exact Hcall|]. by apply (step_push _ _ _ [] [] _ [] _ b1). }
  eapply reach_step; [exact Hpush|]. by apply step_recv.
Qed.

Lemma sample_end_reachable : sys_reachable "n1" 1 0 sample_end.
Proof.
  assert (sys_reachable "n1" 1 0 (sample_failed (Sleeping b1 minBackoff))) as Hfail.
  { eapply reach_step; [exact sample_waiting_reachable|].
    by apply (step_report _ _ _ _ _ [] b1 _ true Backoff). }
  assert (sys_reachable "n1" 1 0 (sample_failed (Sending b1 (next_backoff minBackoff)))) as Hwake.
  { eapply reach_step; [exact Hfail|]. apply step_wake. }
  eapply reach_step; [exact Hwake|].
  by apply (step_report _ _ _ _ _ [] b1 _ false Delivered).
Qed.

Lemma sender_accounts_for_every_record_witness :
  Z.of_nat (total_length (sys_pushed sample_end)) =
    RecordsSent (sm (sys_sender sample_end)) + RecordsDropped (sm (sys_sender sample_end)) +
    Z.of_nat (total_length (queue (sys_sender sample_end))) +
    Z.of_nat (total_length (in_flight (sys_phase sample_end))).
Proof.
  apply (sender_accounts_for_every_record "n1" 1 0 sample_end sample_end_reachable).
Defined.

(** C12: delivery is in order and without duplication: the batches accepted by the
    processor, then the one in flight, then the queue, form a subsequence of the
    batches pushed.  What is missing from it was dropped, and the freshest data
    survives an outage. *)
Theorem sender_delivers_in_order nd cap tmo x :
  sys_reachable nd cap tmo x ->
  (sys_delivered x ++ in_flight (sys_phase x) ++ queue (sys_sender x))
    `sublist_of` sys_pushed x.
Proof. apply (sys_reachable_inv _ _ _ _ in_order); [constructor|apply in_order_step]. Qed.

Lemma sender_delivers_in_order_witness :
  (sys_delivered sample_end ++ in_flight (sys_phase sample_end) ++ queue (sys_sender sample_end))
    `sublist_of` [b1].
Proof. apply (sender_delivers_in_order "n1" 1 0 sample_end sample_end_reachable). Defined.

(** An outage is logged once on entry and once on recovery: the log strictly
    alternates, starting with a failure, and [failing] says whether the last
    entry was a failure. *)
Lemma sender_logs_outages_once nd cap tmo x :
  sys_reachable nd cap tmo x ->
  exists n, sender_log (sys_sender x) =
    concat (replicate n [ReportFailed; ReachableAgain]) ++
    (if failing (sys_sender x) then [ReportFailed] else []).
Proof.
  apply (sys_reachable_inv _ _ _ _ (fun x => outages_logged (sys_sender x))).
  - by exists 0%nat.
  - apply outages_logged_step.
Qed.

Lemma sender_logs_outages_once_witness :
  exists n, [ReportFailed; ReachableAgain] =
    concat (replicate n [ReportFailed; ReachableAgain]) ++ [].
Proof. exact (sender_logs_outages_once "n1" 1 0 sample_end sample_end_reachable). Defined.

(** The wait before a retry is always 100 ms doubled some number of times and
    capped at 10 s, and the wait after it is never shorter. *)
Lemma sender_backoff_schedule nd cap tmo x :
  sys_reachable nd cap tmo x ->
  forall d, backoff_of (sys_phase x) = Some d ->
    (exists k : nat, d = Z.min (minBackoff * 2 ^ Z.of_nat k) maxBackoff) /\
    minBackoff <= d <= maxBackoff /\ d <= next_backoff d <= maxBackoff.
Proof.
  intros Hr d Hd.
  assert (backoff_ok x) as Hok.
  { revert Hr. apply (sys_reachable_inv _ _ _ _ backoff_ok); [done|apply backoff_ok_step]. }
  destruct (Hok d Hd) as [k ->]. split; [by exists k|].
  assert (1 <= 2 ^ Z.of_nat k) by (pose proof (Z.pow_pos_nonneg 2 (Z.of_nat k)); lia).
  unfold next_backoff, minBackoff, maxBackoff, Second, Millisecond. lia.
Qed.

Lemma sender_backoff_schedule_witness : minBackoff <= minBackoff <= maxBackoff.
Proof.
  apply (sender_backoff_schedule "n1" 1 0 sample_waiting sample_waiting_reachable minBackoff
    eq_refl).
Defined.
