(* ===== verification/Collector.v ===== *)
(** * Collector: the node-local pipeline (internal/collector/collector.go)

    [handle] takes one raw event from decode to the aggregator, [handleDNS] feeds
    the hostname cache, [podUID] is the short-lived PID cache, [flush] cuts the
    drained flows into batches for the sender, [Run], [RunDNS] and the two arms
    of [flushLoop] compose them.  Calls that may not return have an [outcome]: a
    panic and a loop that runs out of fuel are told apart from a result. *)

From S2P Require Import Prelude Golang Netip Model Decode DnsCache Wire Aggregator Sender Cgroup.
Open Scope string_scope.
Open Scope list_scope.
Open Scope Z_scope.

Inductive outcome (A : Type) : Type := Done (a : A) | Panic | OutOfFuel.
Arguments Done {A} a.
Arguments Panic {A}.
Arguments OutOfFuel {A}.

(** ** State *)

Definition pidCacheTTL : Duration := 10 * Second.

(** The DNS cache of the Go [Config] is a shared pointer: here it is part of the
    collector's state, [None] for nil. *)
Record Config := mkConfig {
  ProcRoot : string;
  FlushInterval : Duration;
  MaxBatch : Z
}.

Definition resultAccepted : string := "accepted".
Definition resultFiltered : string := "filtered".
Definition resultDecodeError : string := "decode_error".
Definition resultReadError : string := "read_error".
Definition resultCached : string := "cached".
Definition resultCacheFull : string := "cache_full".
Definition resultNotAnswer : string := "not_answer".

(** The instruments [collector.go] writes; the sender's are in [SenderMetrics]. *)
Record Metrics := mkMetrics {
  Events : gmap string N;
  DNSAnswers : gmap string N;
  DNSCacheEntries : Z
}.
Definition NewMetrics : Metrics := mkMetrics ∅ ∅ 0.

Record Collector := mkCollector {
  cfg : Config;
  dns : option Cache;
  agg : Aggregator;
  sender : Sender;
  cm : Metrics;
  pidUIDs : gmap Z string;
  pidUIDsSince : Time
}.

Definition NewCollector (cf : Config) (d : option Cache) (s : Sender) : Collector :=
  mkCollector cf d NewAggregator s NewMetrics ∅ zeroTime.

Definition set_dns (d : option Cache) (c : Collector) : Collector :=
  mkCollector (cfg c) d (agg c) (sender c) (cm c) (pidUIDs c) (pidUIDsSince c).
Definition set_agg (a : Aggregator) (c : Collector) : Collector :=
  mkCollector (cfg c) (dns c) a (sender c) (cm c) (pidUIDs c) (pidUIDsSince c).
Definition set_sender (s : Sender) (c : Collector) : Collector :=
  mkCollector (cfg c) (dns c) (agg c) s (cm c) (pidUIDs c) (pidUIDsSince c).
Definition set_pids (m : gmap Z string) (since : Time) (c : Collector) : Collector :=
  mkCollector (cfg c) (dns c) (agg c) (sender c) (cm c) m since.
Definition set_cm (m : Metrics) (c : Collector) : Collector :=
  mkCollector (cfg c) (dns c) (agg c) (sender c) m (pidUIDs c) (pidUIDsSince c).
Definition count_event (l : string) (c : Collector) : Collector :=
  set_cm (mkMetrics (Events (cm c) ⊕ l) (DNSAnswers (cm c)) (DNSCacheEntries (cm c))) c.
Definition count_dns (l : string) (c : Collector) : Collector :=
  set_cm (mkMetrics (Events (cm c)) (DNSAnswers (cm c) ⊕ l) (DNSCacheEntries (cm c))) c.
Definition set_cache_entries (n : nat) (c : Collector) : Collector :=
  set_cm (mkMetrics (Events (cm c)) (DNSAnswers (cm c)) (Z.of_nat n)) c.

Section collector.
Context {ROF : RangeOrder flowKey flow} {ROE : RangeOrder Addr entry}.
Context {DP : DNSParser}.

(** ** Operations *)

(** [fs] is the procfs at the time of the call. *)
Definition podUID (fs : string -> option string) (pid : Z) (now : Time) (c : Collector)
    : string * Collector :=
  if pid =? 0 then ("", c)
  else
    let c := if pidCacheTTL <=? Sub now (pidUIDsSince c) then set_pids ∅ now c else c in
    match pidUIDs c !! pid with
    | Some uid => (uid, c)
    | None =>
        let uid := default "" (PodUIDForPID fs (ProcRoot (cfg c)) pid) in
        (uid, set_pids (<[pid := uid]> (pidUIDs c)) (pidUIDsSince c) c)
    end.

(** The loop of [flush]: a slice bound of [MaxBatch < 0] panics, and
    [MaxBatch = 0] makes no progress. *)
Fixpoint flush_loop (fuel : nat) (records : list FlowRecord) (c : Collector) : outcome Collector :=
  match fuel with
  | O => OutOfFuel
  | S fuel =>
      match records with
      | [] => Done c
      | _ =>
          let n := Z.min (Z.of_nat (length records)) (MaxBatch (cfg c)) in
          if n <? 0 then Panic
          else
            match Enqueue (take (Z.to_nat n) records) (sender c) with
            | None => OutOfFuel
            | Some s => flush_loop fuel (drop (Z.to_nat n) records) (set_sender s c)
            end
      end
  end.
Definition flush (c : Collector) : outcome Collector :=
  let '(records, a) := Drain (agg c) in
  flush_loop (S (length records)) records (set_agg a c).

Definition node_local (ev : ConnectionEvent) : bool :=
  EvIsLoopback ev || IsSelfEdge ev || IsAWSReserved ev || IsLinkLocal ev.

Definition set_podUID (uid : string) (ev : ConnectionEvent) : ConnectionEvent :=
  mkEvent (SrcIP ev) (DstIP ev) (SrcPort ev) (DstPort ev) (EvProtocol ev) (PID ev) (Comm ev)
    (Outbound ev) uid (DstHostname ev).
Definition set_hostname (h : string) (ev : ConnectionEvent) : ConnectionEvent :=
  mkEvent (SrcIP ev) (DstIP ev) (SrcPort ev) (DstPort ev) (EvProtocol ev) (PID ev) (Comm ev)
    (Outbound ev) (SrcPodUID ev) h.

(** The node-local identities attached to an outbound event. *)
Definition attach (fs : string -> option string) (ev : ConnectionEvent) (now : Time) (c : Collector)
    : ConnectionEvent * Collector :=
  if Outbound ev then
    let '(uid, c) := podUID fs (PID ev) now c in
    let ev := set_podUID uid ev in
    match dns c with
    | Some d => (set_hostname (default "" (DnsCache.Lookup (DstIP ev) now d)) ev, c)
    | None => (ev, c)
    end
  else (ev, c).

Definition handle (fs : string -> option string) (raw : list byte) (now : Time) (c : Collector)
    : outcome Collector :=
  match Decode (P:=Empty_set) raw with
  | Err _ => Done (count_event resultDecodeError c)
  | Ok ev =>
      let ev := Canonical ev in
      if node_local ev then Done (count_event resultFiltered c)
      else
        let '(ev, c) := attach fs ev now c in
        let c := count_event resultAccepted c in
        let '(n, a) := Aggregator.Add ev now (agg c) in
        let c := set_agg a c in
        if MaxBatch (cfg c) <=? Z.of_nat n then flush c else Done c
  end.

(** [c.cfg.DNS.Put] on one answer; [RunDNS] returns at once when there is no
    cache, so that case is never reached. *)
Definition put_answer (now : Time) (c : Collector) (a : DNSAnswer) : Collector :=
  match dns c with
  | None => c
  | Some d =>
      let '(ok, d) := DnsCache.Put (AnsIP a) (AnsName a) (int64 (AnsTTL a * Second)) now d in
      count_dns (if ok : bool then resultCached else resultCacheFull) (set_dns (Some d) c)
  end.
Definition handleDNS (raw : list byte) (now : Time) (c : Collector) : Collector :=
  match DecodeDNS raw with
  | Err ErrNotDNSAnswer => count_dns resultNotAnswer c
  | Err _ => count_dns resultDecodeError c
  | Ok answers => foldl (put_answer now) c answers
  end.

(** One tick of [flushLoop]. *)
Definition tick (now : Time) (c : Collector) : outcome Collector :=
  match flush c with
  | Done c =>
      match dns c with
      | Some d => let '(n, d) := DnsCache.Sweep now d in Done (set_cache_entries n (set_dns (Some d) c))
      | None => Done c
      end
  | o => o
  end.

(** What one [Read] returns: an event with the procfs and the clock at that
    moment, an error, or [bpf.ErrClosed]. *)
Inductive read :=
| ReadEvent (fs : string -> option string) (raw : list byte) (now : Time)
| ReadFailed
| ReadClosed.
(** The loop of [Run] over the reads of its source; [None] while the source has
    not been closed. *)
Fixpoint Run (src : list read) (c : Collector) : option (outcome Collector) :=
  match src with
  | [] => None
  | ReadClosed :: _ => Some (Done c)
  | ReadFailed :: src => Run src (count_event resultReadError c)
  | ReadEvent fs raw now :: src =>
      match handle fs raw now c with
      | Done c => Run src c
      | o => Some o
      end
  end.

Inductive dns_read := DNSRecord (raw : list byte) (now : Time) | DNSReadFailed | DNSClosed.
Fixpoint dns_loop (src : list dns_read) (c : Collector) : option Collector :=
  match src with
  | [] => None
  | DNSClosed :: _ => Some c
  | DNSReadFailed :: src => dns_loop src (count_dns resultReadError c)
  | DNSRecord raw now :: src => dns_loop src (handleDNS raw now c)
  end.
Definition RunDNS (src : list dns_read) (c : Collector) : option Collector :=
  match dns c with None => Some c | Some _ => dns_loop src c end.
End collector.

(** ** Flushing *)

Section flush.
Context {ROF : RangeOrder flowKey flow}.

(** A sender that [Enqueue] returns on. *)
Definition ready (s : Sender) : Prop :=
  (0 < queue_cap s)%nat /\ (length (queue s) <= queue_cap s)%nat.

(** What the sender's books say of the records it holds or has dropped. *)
Definition held (s : Sender) : Z :=
  RecordsDropped (sm s) + Z.of_nat (total_length (queue s)).

Lemma Enqueue_ready b s :
  ready s -> b <> [] ->
  exists s', Enqueue b s = Some s' /\ ready s' /\ queue_cap s' = queue_cap s /\
    queue s' = lastn (queue_cap s) (queue s ++ [b]) /\
    held s' = held s + Z.of_nat (length b) /\ RecordsSent (sm s') = RecordsSent (sm s).
Proof.
  intros [Hcap Hlen] Hb. destruct (enqueue_loop_spec b s Hcap Hlen)
    as (s' & Hs & Hq & Hc & Hsent & Hheld & _). exists s'. unfold Enqueue.
  rewrite decide_False by done. split; [done|]. split.
  { split; rewrite Hc; [done|]. rewrite Hq, length_lastn. lia. }
  split_and!; [done|done|unfold held; lia|done].
Qed.

Lemma flush_loop_spec records : forall fuel c,
  0 < MaxBatch (cfg c) -> ready (sender c) -> (length records < fuel)%nat ->
  exists batches s',
    flush_loop fuel records c = Done (set_sender s' c) /\
    concat batches = records /\
    Forall (fun b => 0 < Z.of_nat (length b) <= MaxBatch (cfg c)) batches /\
    ready s' /\ queue_cap s' = queue_cap (sender c) /\
    queue s' = lastn (queue_cap (sender c)) (queue (sender c) ++ batches) /\
    held s' = held (sender c) + Z.of_nat (length records) /\
    RecordsSent (sm s') = RecordsSent (sm (sender c)).
Proof.
  induction records as [records IH] using (induction_ltof1 _ (@length _)); unfold ltof in IH.
  intros fuel c Hmax Hr Hf. destruct fuel as [|fuel]; [lia|].
  destruct records as [|r rs].
  { exists [], (sender c). cbn. split; [by destruct c|]. split; [done|]. split; [done|].
    split; [exact Hr|]. split; [done|]. rewrite app_nil_r, lastn_all by apply Hr.
    split; [done|]. split; [lia|done]. }
  cbn [flush_loop]. set (n := Z.to_nat (Z.min (Z.of_nat (length (r :: rs))) (MaxBatch (cfg c)))).
  assert (0 < n)%nat as Hn by (unfold n; simpl length; lia).
  assert (n <= length (r :: rs))%nat as Hn' by (unfold n; lia).
  replace (Z.min _ _ <? 0) with false by lia. fold n.
  assert (length (take n (r :: rs)) = n) as Hlt by (apply length_take_le; lia).
  destruct (Enqueue_ready (take n (r :: rs)) (sender c)) as (s1 & -> & Hr1 & Hc1 & Hq1 & Hh1 & Hs1);
    [done|by intros H; rewrite H in Hlt; simpl in Hlt; lia|].
  destruct (IH (drop n (r :: rs))) with (fuel := fuel) (c := set_sender s1 c)
    as (bs & s2 & -> & Hb & Hall & Hr2 & Hc2 & Hq2 & Hh2 & Hs2);
    [rewrite length_drop; simpl; lia|done|done|rewrite length_drop; simpl in *; lia|].
  exists (take n (r :: rs) :: bs), s2. cbn [sender set_sender cfg] in *. split; [done|].
  split; [cbn [concat]; rewrite Hb; apply take_drop|].
  split; [constructor; [rewrite Hlt; unfold n in *; lia|done]|].
  split; [exact Hr2|]. split; [congruence|].
  split; [by rewrite Hq2, Hc1, Hq1, lastn_app, <-app_assoc|].
  split; [rewrite Hh2, Hh1, Hlt, length_drop; lia|congruence].
Qed.

Lemma flush_loop_stuck fuel r rs c :
  MaxBatch (cfg c) = 0 -> flush_loop fuel (r :: rs) c = OutOfFuel.
Proof.
  intros Hm. revert c Hm. induction fuel as [|fuel IH]; intros c Hm; [done|].
  cbn [flush_loop]. rewrite Hm. replace (Z.min _ 0) with 0 by lia.
  change (0 <? 0) with false. cbn [Z.to_nat take]. unfold Enqueue. rewrite decide_True by done.
  cbn [drop]. by apply IH.
Qed.

(** [flush] empties the aggregator into the sender: with a positive batch size
    and queue it returns, the drained records are cut, in order, into non-empty
    batches of at most [MaxBatch] and appended to the queue, which keeps the
    newest batches, and every record is either queued or counted as dropped.
    With [MaxBatch = 0] a non-empty aggregator makes it loop for ever, with
    [MaxBatch < 0] it panics. *)
Lemma flush_batches c (Hready : ready (sender c)) :
  let records := (Drain (agg c)).1 in
  (0 < MaxBatch (cfg c) ->
   exists batches c',
     flush c = Done c' /\ agg c' = NewAggregator /\ concat batches = records /\
     Forall (fun b => 0 < Z.of_nat (length b) <= MaxBatch (cfg c)) batches /\
     queue (sender c') = lastn (queue_cap (sender c)) (queue (sender c) ++ batches) /\
     held (sender c') = held (sender c) + Z.of_nat (length records)) /\
  (MaxBatch (cfg c) = 0 -> records <> [] ->
   forall fuel, flush_loop fuel records (set_agg NewAggregator c) = OutOfFuel) /\
  (MaxBatch (cfg c) < 0 -> records <> [] -> flush c = Panic).
Proof.
  cbv zeta. unfold flush, Drain. cbn [fst]. set (records := to_record <$> _). split_and!.
  - intros Hmax.
    destruct (flush_loop_spec records (S (length records)) (set_agg NewAggregator c))
      as (bs & s' & -> & Hb & Hall & _ & _ & Hq & Hh & _); [done|done|lia|].
    exists bs, (set_sender s' (set_agg NewAggregator c)). by split_and!.
  - intros Hm Hne fuel. destruct records as [|r rs]; [done|]. by apply flush_loop_stuck.
  - intros Hm Hne. destruct records as [|r rs]; [done|]. cbn [flush_loop cfg set_agg].
    by replace (Z.min _ _ <? 0) with true by (simpl; lia).
Qed.
End flush.

(** ** The PID cache *)

(** A lookup: its PID, its time and the procfs it saw. *)
Record pid_lookup := mkPidLookup { pl_pid : Z; pl_now : Time; pl_fs : string -> option string }.
Definition procfs_uid (root : string) (l : pid_lookup) : string :=
  default "" (PodUIDForPID (pl_fs l) root (pl_pid l)).

Fixpoint run_pids (ls : list pid_lookup) (c : Collector) : Collector :=
  match ls with
  | [] => c
  | l :: ls => run_pids ls (podUID (pl_fs l) (pl_pid l) (pl_now l) c).2
  end.
Fixpoint times_from (now : Time) (ls : list pid_lookup) : Prop :=
  match ls with [] => True | l :: ls => now <= pl_now l /\ times_from (pl_now l) ls end.

(** Every cached UID was read from procfs no earlier than the last clearing. *)
Definition pids_ok (past : list pid_lookup) (c : Collector) : Prop :=
  forall pid uid, pidUIDs c !! pid = Some uid ->
    exists l, l ∈ past /\ pl_pid l = pid /\ uid = procfs_uid (ProcRoot (cfg c)) l /\
      pidUIDsSince c <= pl_now l.

Lemma podUID_step past c l :
  pids_ok past c -> pl_pid l <> 0 -> pidUIDsSince c <= pl_now l ->
  let '(uid, c') := podUID (pl_fs l) (pl_pid l) (pl_now l) c in
  cfg c' = cfg c /\ pids_ok (past ++ [l]) c' /\ pidUIDsSince c' <= pl_now l /\
  exists l', l' ∈ past ++ [l] /\ pl_pid l' = pl_pid l /\
    uid = procfs_uid (ProcRoot (cfg c)) l' /\
    (l' = l \/ pl_now l - pl_now l' < pidCacheTTL).
Proof.
  intros Hok Hpid Htime. unfold podUID. replace (pl_pid l =? 0) with false by lia.
  assert (forall l', l' ∈ past -> l' ∈ past ++ [l]) as Hin by set_solver.
  assert (l ∈ past ++ [l]) as Hl by set_solver.
  set (c1 := if _ <=? _ then _ else _).
  assert (cfg c1 = cfg c /\ pids_ok past c1 /\ pidUIDsSince c1 <= pl_now l /\
    (pidUIDs c1 = ∅ \/ pl_now l - pidUIDsSince c1 < pidCacheTTL))
    as (Hcfg & Hok1 & Hsince1 & Hage).
  { unfold c1. destruct (Z.leb_spec pidCacheTTL (Sub (pl_now l) (pidUIDsSince c))) as [Hle|Hgt].
    - split_and!; [done| |done|by left]. intros ? ? H. cbn in H. by rewrite lookup_empty in H.
    - split_and!; [done|done|done|]. right. apply Sub_lt; [|done].
      unfold pidCacheTTL, minInt64, maxInt64, Second, Millisecond. lia. }
  destruct (pidUIDs c1 !! pl_pid l) as [uid|] eqn:Hu.
  - destruct (Hok1 _ _ Hu) as (l' & Hl' & Hp & -> & Hsince). rewrite Hcfg.
    split; [done|]. split; [|split; [done|]].
    + intros pid uid H. destruct (Hok1 _ _ H) as (l2 & ? & ?). exists l2. rewrite Hcfg in *. auto.
    + exists l'. split_and!; auto. right. destruct Hage as [He|Hage]; [|lia].
      by rewrite He, lookup_empty in Hu.
  - cbn [cfg set_pids pidUIDs pidUIDsSince]. split; [done|]. split; [|split; [done|]].
    + intros pid uid. cbn. rewrite lookup_insert. case_decide as Hd.
      * intros [= <-]. exists l. by split_and!.
      * intros H. destruct (Hok1 _ _ H) as (l2 & ? & ?). exists l2. auto.
    + exists l. rewrite Hcfg. split_and!; auto.
Qed.

Lemma last_cons {A} (x : A) l d : List.last (x :: l) d = List.last l x.
Proof.
  revert x d. induction l as [|y l IH]; intros x d; [done|].
  change (List.last (y :: l) d = List.last (y :: l) x). by rewrite !IH.
Qed.

Lemma run_pids_ok ls : forall past now c,
  pids_ok past c -> pidUIDsSince c <= now -> times_from now ls ->
  Forall (fun l => pl_pid l <> 0) ls ->
  cfg (run_pids ls c) = cfg c /\ pids_ok (past ++ ls) (run_pids ls c) /\
  pidUIDsSince (run_pids ls c) <= List.last (map pl_now ls) now.
Proof.
  induction ls as [|l ls IH]; intros past now c Hok Hs Ht Hp; cbn [run_pids].
  - by rewrite app_nil_r.
  - destruct Ht as [Hnow Ht]. apply Forall_cons in Hp as [Hpid Hp].
    pose proof (podUID_step past c l Hok Hpid ltac:(lia)) as Hstep.
    destruct (podUID _ _ _ _) as [uid c']. destruct Hstep as (Hcfg & Hok' & Hs' & _).
    destruct (IH (past ++ [l]) (pl_now l) c') as (H1 & H2 & H3); [done..|].
    cbn [snd]. rewrite H1, Hcfg. rewrite <-app_assoc in H2. split_and!; [done|done|].
    etrans; [exact H3|]. cbn [map]. rewrite last_cons. lia.
Qed.

(** C37: the PID cache never serves a stale owner: over any run of lookups with a
    clock that does not go back, the UID returned for a process is what procfs
    said of it at this lookup or at one less than [pidCacheTTL] earlier; PID 0
    has none and touches nothing. *)
Theorem podUID_fresh cf d s ls l
    (Htimes : times_from zeroTime (ls ++ [l])) (Hpids : Forall (fun l => pl_pid l <> 0) ls) :
  let '(uid, c') := podUID (pl_fs l) (pl_pid l) (pl_now l) (run_pids ls (NewCollector cf d s)) in
  (pl_pid l = 0 -> uid = "" /\ c' = run_pids ls (NewCollector cf d s)) /\
  (pl_pid l <> 0 ->
   exists l', l' ∈ ls ++ [l] /\ pl_pid l' = pl_pid l /\ uid = procfs_uid (ProcRoot cf) l' /\
     (l' = l \/ pl_now l - pl_now l' < pidCacheTTL)).
Proof.
  assert (forall now, times_from now (ls ++ [l]) ->
    times_from now ls /\ List.last (map pl_now ls) now <= pl_now l) as Hsplit.
  { clear. induction ls as [|l' ls IH]; intros now; cbn; [tauto|].
    intros [H1 H2]. destruct (IH _ H2) as [H3 H4]. split_and!; [done..|].
    by change (match map pl_now ls with [] => pl_now l' | _ => List.last (map pl_now ls) now end)
      with (List.last (pl_now l' :: map pl_now ls) now); rewrite last_cons. }
  destruct (Hsplit _ Htimes) as [Hts Hlast].
  destruct (run_pids_ok ls [] zeroTime (NewCollector cf d s)) as (Hcfg & Hok & Hsince);
    [|done..|].
  { intros ? ? H. cbn in H. by rewrite lookup_empty in H. }
  set (c := run_pids ls _) in *. destruct (decide (pl_pid l = 0)) as [H0|H0].
  - unfold podUID. rewrite H0. by split.
  - pose proof (podUID_step ls c l Hok H0 ltac:(cbn in Hsince; lia)) as Hstep.
    destruct (podUID _ _ _ _) as [uid c']. split; [done|]. intros _.
    destruct Hstep as (_ & _ & _ & Hl). by rewrite Hcfg in Hl.
Qed.

(** ** One event *)

Section handle.
Context {ROF : RangeOrder flowKey flow}.

(** Orientation does not change which events are node-local. *)
Lemma node_local_Canonical ev : node_local (Canonical ev) = node_local ev.
Proof.
  unfold Canonical. destruct (Outbound ev); [done|].
  unfold node_local, EvIsLoopback, IsSelfEdge, IsAWSReserved, IsLinkLocal. cbn.
  rewrite (orb_comm (IsLoopback _)), (orb_comm (Contains _ _)), (orb_comm (IsLinkLocalUnicast _)).
  rewrite (bool_decide_ext (Unmap (DstIP ev) = _) (Unmap (SrcIP ev) = Unmap (DstIP ev))) by done.
  done.
Qed.

Lemma podUID_frame fs pid now c :
  let '(_, c') := podUID fs pid now c in
  cfg c' = cfg c /\ dns c' = dns c /\ agg c' = agg c /\ sender c' = sender c /\ cm c' = cm c.
Proof. unfold podUID. go_cases. Qed.

Lemma attach_frame fs ev now c :
  let '(ev', c') := attach fs ev now c in
  cfg c' = cfg c /\ dns c' = dns c /\ agg c' = agg c /\ sender c' = sender c /\ cm c' = cm c.
Proof.
  unfold attach. destruct (Outbound ev); [|done].
  pose proof (podUID_frame fs (PID ev) now c) as Hp. destruct (podUID _ _ _ _) as [uid c'].
  destruct Hp as (?&?&?&?&?).
  destruct (dns c') eqn:Hd; split_and!; congruence.
Qed.

(** The event an accepted record contributes: oriented from caller to callee, with
    the identities only this node knows. *)
Definition observed (ev : ConnectionEvent) (uid host : string) : ConnectionEvent :=
  set_hostname host (set_podUID uid (Canonical ev)).

Lemma attach_observed fs ev now c :
  SrcPodUID ev = "" -> DstHostname ev = "" ->
  (attach fs (Canonical ev) now c).1 =
  if Outbound ev
  then observed ev (podUID fs (PID ev) now c).1
         (default "" (dns c ≫= DnsCache.Lookup (DstIP ev) now))
  else observed ev "" "".
Proof.
  intros Hu Hh. unfold attach, observed, Canonical. destruct (Outbound ev) eqn:Ho.
  - cbn. rewrite ?Ho. pose proof (podUID_frame fs (PID ev) now c) as Hp.
    destruct (podUID _ _ _ _) as [uid c']. destruct Hp as (_ & -> & _).
    destruct (dns c) as [d|]; cbn; [done|]. unfold set_hostname, set_podUID. by rewrite Hh.
  - cbn. destruct ev; cbn in *. by subst.
Qed.

Lemma Decode_identities {P} raw ev :
  Decode (P:=P) raw = Ok ev -> SrcPodUID ev = "" /\ DstHostname ev = "".
Proof.
  unfold Decode. destruct (_ <? _)%nat; [done|].
  destruct (decodeAddr (P:=P) (Decode.slice offSaddr 16 raw) _); cbn [mbind result_bind]; [|done].
  destruct (decodeAddr (P:=P) (Decode.slice offDaddr 16 raw) _); cbn [mbind result_bind]; [|done]. by intros [= <-].
Qed.

Lemma length_Drain a : length (Drain a).1 = size (flows a).
Proof.
  unfold Drain. cbn [fst]. rewrite length_fmap, <-length_map_to_list.
  by rewrite (range_map_perm (flows a)).
Qed.

(** [handle] returns on every input and counts it under exactly one result:
    undecodable, filtered (a node-local address at either end), or accepted.
    Only an accepted event changes anything else: it joins the aggregator as one
    observation, oriented from caller to callee, carrying the caller's pod UID
    and the destination's hostname when outbound and neither when not; when the
    flows reach [MaxBatch] they are all handed to the sender. *)
Lemma handle_counts_once fs raw now c (Hmax : 0 < MaxBatch (cfg c)) (Hready : ready (sender c)) :
  match Decode (P:=Empty_set) raw with
  | Err _ => handle fs raw now c = Done (count_event resultDecodeError c)
  | Ok ev =>
      if node_local ev then handle fs raw now c = Done (count_event resultFiltered c)
      else
        exists c', handle fs raw now c = Done c' /\
          Events (cm c') = Events (cm c) ⊕ resultAccepted /\
          DNSAnswers (cm c') = DNSAnswers (cm c) /\ dns c' = dns c /\
          let ev' :=
            if Outbound ev
            then observed ev (podUID fs (PID ev) now c).1
                   (default "" (dns c ≫= DnsCache.Lookup (DstIP ev) now))
            else observed ev "" "" in
          let a := (Aggregator.Add ev' now (agg c)).2 in
          if Z.of_nat (size (flows a)) <? MaxBatch (cfg c)
          then agg c' = a /\ sender c' = sender c
          else agg c' = NewAggregator /\
               held (sender c') = held (sender c) + Z.of_nat (size (flows a))
  end.
Proof.
  unfold handle. destruct (Decode raw) as [ev|e] eqn:Hdec; [|done].
  rewrite node_local_Canonical. destruct (node_local ev); [done|].
  destruct (Decode_identities _ _ Hdec) as [Hu Hh].
  pose proof (attach_frame fs (Canonical ev) now c) as Hf.
  rewrite <-(attach_observed fs ev now c Hu Hh).
  destruct (attach fs (Canonical ev) now c) as [ev' c1]. cbn [fst] in *.
  destruct Hf as (Hcfg & Hdns & Hagg & Hsend & Hcm).
  cbn [agg count_event set_cm]. rewrite Hagg.
  set (c2 := count_event resultAccepted c1).
  destruct (Aggregator.Add ev' now (agg c)) as [n a] eqn:Hadd.
  assert (n = size (flows a)) as -> by (unfold Aggregator.Add in Hadd; by injection Hadd as <- <-).
  cbn [snd set_agg cfg]. change (cfg c2) with (cfg c1). rewrite Hcfg.
  rewrite Z.leb_antisym. destruct (_ <? _); cbn [negb].
  - eexists. split; [done|]. cbn. by rewrite Hcm.
  - destruct (flush_loop_spec (Drain a).1 (S (length (Drain a).1))
      (set_agg NewAggregator (set_agg a c2))) as (bs & s' & Hfl & _ & _ & _ & _ & _ & Hh' & _);
      [cbn; by rewrite Hcfg|cbn; by rewrite Hsend|lia|].
    unfold flush. cbn [agg set_agg]. unfold Drain at 1. 
    change (to_record <$> range_map (flows a)) with (Drain a).1. rewrite Hfl.
    eexists. split; [done|]. cbn in *. rewrite Hcm, Hdns, Hh', Hsend.
    split_and!; try done.
    by rewrite <-(length_Drain a).
Qed.
End handle.

(** ** One DNS record *)

Section dns.
Context {ROE : RangeOrder Addr entry}.

Lemma put_answer_spec now c d a :
  dns c = Some d -> wf_cache d ->
  exists (ok : bool) d',
    put_answer now c a =
      count_dns (if ok then resultCached else resultCacheFull) (set_dns (Some d') c) /\
    wf_cache d' /\
    live now (entries d') =
      if ok then <[Unmap (AnsIP a) :=
                     mkEntry (AnsName a) (now + clampTTL (int64 (AnsTTL a * Second)))]>
                   (live now (entries d))
      else live now (entries d).
Proof.
  intros Hd Hwf. unfold put_answer. rewrite Hd.
  pose proof (Put_live (AnsIP a) (AnsName a) (int64 (AnsTTL a * Second)) now d Hwf) as Hp.
  destruct (DnsCache.Put _ _ _ _ _) as [ok d']. destruct Hp as (Hwf' & _ & _ & Hl).
  exists ok, d'. by split_and!.
Qed.

(** A live entry good for at least [MinTTL], naming [ip] after one of [answers]. *)
Definition named_by (answers : list DNSAnswer) (now : Time) (d : Cache) (ip : Addr) : Prop :=
  exists e b, live now (entries d) !! Unmap ip = Some e /\ now + MinTTL <= expires e /\
    b ∈ answers /\ Unmap (AnsIP b) = Unmap ip /\ name e = AnsName b.

Lemma put_answers_spec answers now c d :
  dns c = Some d -> wf_cache d ->
  exists d' cached full,
    let c' := foldl (put_answer now) c answers in
    dns c' = Some d' /\ wf_cache d' /\ agg c' = agg c /\ sender c' = sender c /\
    Events (cm c') = Events (cm c) /\
    (cached + full = N.of_nat (length answers))%N /\
    (DNSAnswers (cm c'))⟦resultCached⟧ = ((DNSAnswers (cm c))⟦resultCached⟧ + cached)%N /\
    (DNSAnswers (cm c'))⟦resultCacheFull⟧ = ((DNSAnswers (cm c))⟦resultCacheFull⟧ + full)%N /\
    counter_total (DNSAnswers (cm c')) =
      (counter_total (DNSAnswers (cm c)) + N.of_nat (length answers))%N /\
    (full = 0%N -> forall a, a ∈ answers -> named_by answers now d' (AnsIP a)).
Proof.
  intros Hd Hwf. induction answers as [|a answers IH] using rev_ind.
  - exists d, 0%N, 0%N. cbn. rewrite !N.add_0_r. split_and!; try done.
    intros _ a Ha. by apply elem_of_nil in Ha.
  - destruct IH as (d1 & ca & fu & Hd1 & Hwf1 & Hagg & Hs & He & Hn & Hca & Hfu & Htot & Hnamed).
    rewrite foldl_app. cbn [foldl].
    set (c1 := foldl (put_answer now) c answers) in *.
    destruct (put_answer_spec now c1 d1 a Hd1 Hwf1) as (ok & d2 & -> & Hwf2 & Hl).
    exists d2, (ca + if ok then 1 else 0)%N, (fu + if ok then 0 else 1)%N. cbn.
    rewrite length_app, counter_total_inc, Htot. cbn [length].
    destruct ok.
    + rewrite count_inc_eq, (count_inc_ne resultCached resultCacheFull) by done.
      split_and!; try done; try lia.
      intros Hf x [Hx|Hx]%elem_of_app.
      * destruct (decide (Unmap (AnsIP a) = Unmap (AnsIP x))) as [Heq|Hne].
        -- eexists _, a. rewrite Hl, <-Heq, lookup_insert_eq. split; [done|]. cbn.
           pose proof (clampTTL_range (int64 (AnsTTL a * Second))).
           split_and!; [lia|set_solver|done|done].
        -- destruct (Hnamed ltac:(lia) x Hx) as (e & b & Hle & Hexp & Hb & Hbx & Hne').
           exists e, b. rewrite Hl, lookup_insert_ne by done. split_and!; try done. set_solver.
      * apply list_elem_of_singleton in Hx as ->.
        eexists _, a. rewrite Hl, lookup_insert_eq. split; [done|]. cbn.
        pose proof (clampTTL_range (int64 (AnsTTL a * Second))).
        split_and!; [lia|set_solver|done|done].
    + rewrite count_inc_eq, (count_inc_ne resultCacheFull resultCached) by done.
      split_and!; try done; try lia.
Qed.

Context {DP : DNSParser}.

(** Every DNS record is accounted for: a non-answer or an undecodable record is
    counted once and leaves the cache alone, and every address of an answer is
    counted as cached or as refused by a full cache.  When none is refused, each
    address answered resolves, from then on and for at least [MinTTL], to the
    name of an answer of this record for it. *)
Lemma handleDNS_feeds_cache raw now c d (Hd : dns c = Some d)
    (Hwf : Z.of_nat (Len d) <= DnsCache.max d) :
  match DecodeDNS raw with
  | Err e =>
      handleDNS raw now c =
      count_dns (match e with ErrNotDNSAnswer => resultNotAnswer | _ => resultDecodeError end) c
  | Ok answers =>
      exists d' cached full,
        let c' := handleDNS raw now c in
        dns c' = Some d' /\ Events (cm c') = Events (cm c) /\
        (cached + full = N.of_nat (length answers))%N /\
        (DNSAnswers (cm c'))⟦resultCached⟧ = ((DNSAnswers (cm c))⟦resultCached⟧ + cached)%N /\
        (DNSAnswers (cm c'))⟦resultCacheFull⟧ = ((DNSAnswers (cm c))⟦resultCacheFull⟧ + full)%N /\
        counter_total (DNSAnswers (cm c')) =
          (counter_total (DNSAnswers (cm c)) + N.of_nat (length answers))%N /\
        (full = 0%N -> forall a now', a ∈ answers -> now <= now' < now + MinTTL ->
           exists b, b ∈ answers /\ Unmap (AnsIP b) = Unmap (AnsIP a) /\
             DnsCache.Lookup (AnsIP a) now' d' = Some (AnsName b))
  end.
Proof.
  unfold handleDNS. destruct (DecodeDNS raw) as [answers|[]]; try done.
  destruct (put_answers_spec answers now c d Hd Hwf)
    as (d' & ca & fu & Hd' & _ & _ & _ & He & Hn & Hca & Hfu & Htot & Hnamed).
  exists d', ca, fu. split_and!; try done.
  intros H0 a now' Ha Hnow. destruct (Hnamed H0 a Ha) as (e & b & Hle & Hexp & Hb & Hbx & Hne).
  exists b. split_and!; try done. rewrite Lookup_live.
  rewrite <-(live_live now now' (entries d')) by lia. rewrite live_lookup, Hle.
  rewrite decide_True by lia. cbn. by rewrite Hne.
Qed.
End dns.

(** ** Witnesses *)

Definition sample_sender : Sender := NewSender "n1" 2 Second.
Definition sample_config : Config := mkConfig "/proc" Second 2.
Definition sample_collector : Collector := NewCollector sample_config (Some (DnsCache.New 4)) sample_sender.
Definition sample_procfs (path : string) : option string :=
  if decide (path = "/proc/42/cgroup")
  then Some "0::/kubepods/pod01234567-89ab-cdef-0123-456789abcdef" else None.

Lemma flush_batches_witness :
  let c := set_agg (add_all sample_obs NewAggregator) sample_collector in
  exists batches c',
    flush (ROF:=canonical_order) c = Done c' /\ agg c' = NewAggregator /\
    concat batches = (Drain (RO:=canonical_order) (agg c)).1 /\
    held (sender c') = held (sender c) + 2.
Proof.
  cbv zeta.
  destruct (flush_batches (ROF:=canonical_order)
    (set_agg (add_all sample_obs NewAggregator) sample_collector)) as (H & _ & _).
  { split; cbn; lia. }
  destruct H as (bs & c' & ? & ? & ? & _ & _ & Hh); [cbn; lia|].
  exists bs, c'. by split_and!.
Defined.

Lemma podUID_fresh_witness :
  let l1 := mkPidLookup 42 0 sample_procfs in
  let l2 := mkPidLookup 42 (9 * Second) (fun _ => None) in
  (podUID (pl_fs l2) 42 (9 * Second) (run_pids [l1] sample_collector)).1
    = "01234567-89ab-cdef-0123-456789abcdef" /\
  exists l', l' ∈ [l1; l2] /\ pl_pid l' = 42 /\
    "01234567-89ab-cdef-0123-456789abcdef" = procfs_uid "/proc" l' /\
    (l' = l2 \/ 9 * Second - pl_now l' < pidCacheTTL).
Proof.
  cbv zeta. set (l1 := mkPidLookup 42 0 sample_procfs).
  set (l2 := mkPidLookup 42 (9 * Second) (fun _ => None)).
  pose proof (podUID_fresh sample_config (Some (DnsCache.New 4)) sample_sender [l1] l2) as H.
  assert ((podUID (pl_fs l2) 42 (9 * Second) (run_pids [l1] sample_collector)).1
    = "01234567-89ab-cdef-0123-456789abcdef") as Hu by (vm_compute; reflexivity).
  split; [exact Hu|].
  change (run_pids [l1] (NewCollector sample_config (Some (DnsCache.New 4)) sample_sender))
    with (run_pids [l1] sample_collector) in H.
  change (pl_pid l2) with 42 in H. change (pl_now l2) with (9 * Second) in H.
  destruct (podUID (pl_fs l2) 42 (9 * Second) (run_pids [l1] sample_collector)) as [uid c'].
  cbn [fst] in Hu. subst uid. apply H; [|by repeat constructor|done].
  cbn. unfold zeroTime, Second, Millisecond. lia.
Defined.

Lemma handle_counts_once_witness :
  exists c', handle (ROF:=canonical_order) sample_procfs
      (conn_event_bytes sample_conn_event) 0 sample_collector = Done c' /\
    (Events (cm c'))⟦resultAccepted⟧ = 1%N /\ size (flows (agg c')) = 1%nat.
Proof.
  pose proof (handle_counts_once (ROF:=canonical_order) sample_procfs
    (conn_event_bytes sample_conn_event) 0 sample_collector) as H.
  assert (Decode (P:=Empty_set) (conn_event_bytes sample_conn_event) =
    Ok (mkEvent (Addr4 x0a x00 x00 x05) (Addr4 x0a x00 x00 x09) 40000 8080 6 4242 "curl" true "" ""))
    as Hev by (vm_compute; reflexivity).
  rewrite Hev in H. set (ev := mkEvent _ _ _ _ _ _ _ _ _ _) in *.
  assert (node_local ev = false) as Hloc by (vm_compute; reflexivity). rewrite Hloc in H.
  destruct H as (c' & Hc' & He & _ & _ & Ha); [cbn; lia|split; cbn; lia|].
  exists c'. split; [exact Hc'|]. split; [by rewrite He|]. cbv zeta in Ha.
  match type of Ha with if ?b then _ else _ =>
    replace b with true in Ha by (vm_compute; reflexivity) end.
  destruct Ha as [-> _]. vm_compute. reflexivity.
Defined.

Lemma handleDNS_feeds_cache_witness :
  exists d',
    dns (handleDNS (ROE:=canonical_order) (DP:=sample_dns_parser) sample_dns_record 0 sample_collector)
      = Some d' /\
    exists b, AnsName b = "api.stripe.com" /\
      DnsCache.Lookup (Addr4 x36 xbb x01 x02) (59 * Second) d' = Some (AnsName b).
Proof.
  pose proof (handleDNS_feeds_cache (ROE:=canonical_order) (DP:=sample_dns_parser)
    sample_dns_record 0 sample_collector (DnsCache.New 4) eq_refl) as H.
  assert (@DecodeDNS sample_dns_parser sample_dns_record =
    Ok [mkDNSAnswer "api.stripe.com" (Addr4 x36 xbb x01 x02) 60;
        mkDNSAnswer "api.stripe.com" (Addr4 x36 xbb x01 x03) 60]) as Hdec by (vm_compute; reflexivity).
  rewrite Hdec in H. destruct H as (d' & ca & fu & Hd' & _ & Hsum & _ & Hfull & _ & Hn);
    [vm_compute; discriminate|].
  exists d'. split; [exact Hd'|].
  assert (fu = 0%N) as Hfu.
  { match type of Hfull with ?l = _ =>
      assert (l = 0%N) as H0 by (vm_compute; reflexivity); rewrite H0 in Hfull end.
    cbn in Hfull. lia. }
  destruct (Hn Hfu (mkDNSAnswer "api.stripe.com" (Addr4 x36 xbb x01 x02) 60) (59 * Second))
    as (b & Hb & _ & Hl).
  - by left.
  - unfold MinTTL, Minute, Second, Millisecond. lia.
  - exists b. split; [|exact Hl]. apply list_elem_of_In in Hb. by destruct Hb as [<-|[<-|[]]].
Defined.
