(* ===== verification/Enrich.v ===== *)
(** * Enrich: joining an event with the resolver (internal/enrich/enrich.go)

    [Enrich] takes its stores through the resolver's interfaces; a nil store is
    [None].  The theorem is the contract its comment states: which identity
    wins, and that the result is always named. *)

From S2P Require Import Prelude Golang Netip Model Resolver.
Open Scope string_scope.
Open Scope list_scope.
Open Scope Z_scope.

Definition set_name (n : string) (w : Workload) : Workload :=
  mkWorkload n (WlNamespace w) (WlKind w).

Definition Enrich {T U P} `{Store T, UIDStore U, PortStore P} (ev : ConnectionEvent)
    (store : T) (uids : option U) (ports : option P) : ServiceCall :=
  let source := WorkloadForIP store (SrcIP ev) in
  let source :=
    match uids with
    | Some uids =>
        if bool_decide (SrcPodUID ev <> "")
           && (bool_decide (WlKind source = KindNode) || IsExternal source)
        then match LookupUID uids (SrcPodUID ev) with Some w => w | None => source end
        else source
    | None => source
    end in
  let l7 :=
    match ports with
    | Some ports => default "" (LookupPort ports (DstIP ev) (DstPort ev))
    | None => ""
    end in
  let dest := WorkloadForIP store (DstIP ev) in
  let dest :=
    if IsExternal dest && bool_decide (DstHostname ev <> "")
    then set_name (DstHostname ev) dest else dest in
  mkServiceCall source dest (DstPort ev) (EvProtocol ev) l7.

(** ** Specification *)

(** A workload that names more than an address: neither a node nor an external
    peer. *)
Definition concrete (w : Workload) : Prop := WlKind w <> KindNode /\ WlKind w <> KindExternal.

(** Stores that name every workload they hold. *)
Definition names_workloads {T U} `{Store T, UIDStore U} (store : T) (uids : option U) : Prop :=
  (forall ip w, LookupIP store ip = Some w -> WlName w <> "") /\
  (forall us uid w, uids = Some us -> LookupUID us uid = Some w -> WlName w <> "").

(** ** Lemmas *)

Lemma append_nonempty_l (a b : string) : a <> "" -> (a +:+ b)%string <> "".
Proof. by destruct a. Qed.
Lemma append_nonempty_r (a b : string) : b <> "" -> (a +:+ b)%string <> "".
Proof. intros Hb. by destruct a. Qed.

Lemma AddrString_nonempty a : AddrString a <> "".
Proof.
  assert (forall b0 b1 b2 b3, string4 b0 b1 b2 b3 <> "") as H4.
  { intros. apply append_nonempty_l, FormatUint_nonempty. }
  assert (forall x, append_hex x <> "") as Hh.
  { intros x. unfold append_hex. do 3 apply append_nonempty_r. done. }
  destruct a as [|b0 b1 b2 b3|bs z]; [done|apply H4|]. unfold AddrString.
  destruct (Unmap (Addr6 bs z)); [|done|]; apply append_nonempty_l;
    generalize (best_run 0 (hextets bs) (255, 255)%nat); intros run;
    cbn [render6]; change (8 <=? 0)%nat with false; cbv iota;
    destruct (0 =? run.1)%nat; [by destruct (8 <=? run.2)%nat| |by destruct (8 <=? run.2)%nat|];
    apply append_nonempty_r, append_nonempty_l, Hh.
Qed.

Lemma WorkloadForIP_name {T} `{Store T} (store : T) ip :
  (forall w, LookupIP store ip = Some w -> WlName w <> "") ->
  WlName (WorkloadForIP store ip) <> "".
Proof.
  intros Hn. unfold WorkloadForIP. destruct (LookupIP store ip); [by apply Hn|].
  apply AddrString_nonempty.
Qed.

Lemma IsExternal_true w : IsExternal w = true <-> WlKind w = KindExternal.
Proof. apply bool_decide_eq_true. Qed.

Lemma concrete_not w :
  concrete w -> bool_decide (WlKind w = KindNode) || IsExternal w = false.
Proof. intros [Hn He]. unfold IsExternal. by rewrite !bool_decide_false. Qed.

Lemma not_concrete w :
  ~ concrete w -> bool_decide (WlKind w = KindNode) || IsExternal w = true.
Proof.
  unfold concrete, IsExternal. intros Hc. repeat case_bool_decide; tauto.
Qed.

(** One edge at a time: what the two lookups of the source, and the one of the
    destination, make of it. *)
Section edges.
Context {T U P} `{Store T, UIDStore U, PortStore P} (ev : ConnectionEvent) (store : T) (us : U) (ps : option P).
Abbreviation edge := (Enrich ev store (Some us) ps).

Lemma Enrich_source_pod w :
  SrcPodUID ev <> "" -> LookupUID us (SrcPodUID ev) = Some w ->
  LookupIP store (SrcIP ev) = Some w \/ ~ concrete (WorkloadForIP store (SrcIP ev)) -> Source edge = w.
Proof.
  intros Hu Hw Hc. unfold Enrich. cbn [Source]. rewrite bool_decide_true, Hw by done. cbn [andb].
  destruct Hc as [Hip|Hn]; [unfold WorkloadForIP; rewrite Hip; by case_match|by rewrite not_concrete].
Qed.
Lemma Enrich_source_unknown :
  LookupIP store (SrcIP ev) = None -> SrcPodUID ev = "" ->
  Source edge = mkWorkload (AddrString (SrcIP ev)) "" KindExternal.
Proof. intros Hip Hu. unfold Enrich, WorkloadForIP. cbn [Source]. by rewrite Hip, Hu. Qed.

Lemma Enrich_dest_known w : LookupIP store (DstIP ev) = Some w -> WlKind w <> KindExternal -> Dest edge = w.
Proof.
  intros Hip Hk. unfold Enrich, WorkloadForIP. cbn [Dest]. rewrite Hip. unfold IsExternal.
  by rewrite bool_decide_false.
Qed.
(** What an unknown destination is called: its host name, or its address. *)
Definition outside : Workload :=
  mkWorkload (if decide (DstHostname ev = "") then AddrString (DstIP ev) else DstHostname ev) "" KindExternal.
Lemma Enrich_dest_unknown : LookupIP store (DstIP ev) = None -> Dest edge = outside.
Proof.
  intros Hip. unfold Enrich, WorkloadForIP, outside. cbn [Dest]. rewrite Hip. cbn.
  by case_decide; case_bool_decide.
Qed.
End edges.

(** ** Property *)

(** [Enrich] gives every edge the identities its contract promises: a concrete
    workload known for the source address is never displaced by the pod UID; a
    source known only as a node or not at all becomes the pod the UID names when
    there is one, and stays what the address gives otherwise; a destination with
    any cluster identity keeps it; an external destination is named after the
    hostname when one is known, and after its address otherwise, and stays
    external; the port, the protocol and the declared application protocol are
    those of the destination endpoint; and no workload is left unnamed. *)
Lemma Enrich_contract {T U P} `{Store T, UIDStore U, PortStore P} ev (store : T)
    (uids : option U) (ports : option P) (Hnames : names_workloads store uids) :
  let sc := Enrich ev store uids ports in
  (forall w, LookupIP store (SrcIP ev) = Some w -> concrete w -> Source sc = w) /\
  (~ concrete (WorkloadForIP store (SrcIP ev)) ->
   Source sc = default (WorkloadForIP store (SrcIP ev))
     (us ← uids; if decide (SrcPodUID ev = "") then None else LookupUID us (SrcPodUID ev))) /\
  (forall w, LookupIP store (DstIP ev) = Some w -> WlKind w <> KindExternal -> Dest sc = w) /\
  (LookupIP store (DstIP ev) = None ->
   Dest sc = mkWorkload (if decide (DstHostname ev = "") then AddrString (DstIP ev)
                         else DstHostname ev) "" KindExternal) /\
  DestPort sc = DstPort ev /\ DestProtocol sc = EvProtocol ev /\
  DestAppProtocol sc = default "" (ps ← ports; LookupPort ps (DstIP ev) (DstPort ev)) /\
  WlName (Source sc) <> "" /\ WlName (Dest sc) <> "".
Proof.
  destruct Hnames as [Hip Huid]. cbv zeta. unfold Enrich.
  cbn [Source Dest DestPort DestProtocol DestAppProtocol].
  assert (forall ip, WlName (WorkloadForIP store ip) <> "") as Hname
    by (intros ip; apply WorkloadForIP_name; intros w; apply Hip).
  split_and!; try done.
  - intros w Hw Hc. unfold WorkloadForIP. rewrite Hw, (concrete_not w Hc), andb_false_r.
    by destruct uids.
  - intros Hc. rewrite (not_concrete _ Hc), andb_true_r. destruct uids as [us|]; [|done]. cbn.
    case_decide; case_bool_decide; try done.
  - intros w Hw Hk. unfold WorkloadForIP. rewrite Hw. unfold IsExternal.
    by rewrite bool_decide_false.
  - intros Hnone. unfold WorkloadForIP. rewrite Hnone. cbn.
    by case_decide; case_bool_decide.
  - by destruct ports.
  - destruct uids as [us|]; [|done]. case_match; [|done].
    destruct (LookupUID us (SrcPodUID ev)) eqn:Hl; [|done]. by apply (Huid us _ _ eq_refl Hl).
  - case_match eqn:Hc; [|done]. apply andb_true_iff in Hc as [_ Hc].
    by apply bool_decide_eq_true in Hc.
Qed.

Definition sample_node : Workload := mkWorkload "ip-100-90-106-4" "" KindNode.
Definition sample_exporter : Workload := mkWorkload "node-exporter" "monitoring" "DaemonSet".
Definition sample_cache : Cache :=
  UpsertUID (Upsert NewCache (Addr4 x64 x5a x6a x04) sample_node) "uid-1" sample_exporter.
Definition sample_ev : ConnectionEvent :=
  mkEvent (Addr4 x64 x5a x6a x04) (Addr4 x36 xbb x01 x02) 0 443 ProtocolTCP 7 "curl" true "uid-1"
    "api.stripe.com".

Lemma Enrich_contract_witness :
  let sc := Enrich sample_ev sample_cache (Some sample_cache) (Some sample_cache) in
  Source sc = sample_exporter /\ Dest sc = mkWorkload "api.stripe.com" "" KindExternal /\
  WlName (Source sc) <> "".
Proof.
  cbv zeta.
  destruct (Enrich_contract sample_ev sample_cache (Some sample_cache) (Some sample_cache))
    as (_ & Hs & _ & Hd & _ & _ & _ & Hn & _).
  { split.
    - intros ip w. unfold LookupIP, Cache_Store, cacheLookupIP. cbn.
      rewrite lookup_insert. case_decide; [by intros [= <-]|by rewrite lookup_empty].
    - intros us uid w [= <-]. unfold LookupUID, Cache_UIDStore, cacheLookupUID. cbn.
      rewrite lookup_insert. case_decide; [by intros [= <-]|by rewrite lookup_empty]. }
  split; [rewrite Hs; [by vm_compute|]|].
  - intros [Hk _]. by vm_compute in Hk.
  - split; [rewrite Hd; by vm_compute|exact Hn].
Defined.
