(* ===== verification/Emit.v ===== *)
(** * Emit: the output record and the sinks (internal/emit)

    [attrs] is the record every sink writes, as the list of named attributes that
    [emit.go] hands to [log/slog], whose text is in Render.v; [Multi] is multi.go; the key of a Kafka record
    and the reason reported for a failed one are those of kafka.go, whose client
    is outside this repository.  A sink acts on a world [W] of outputs. *)

From S2P Require Import Prelude Golang Netip Model.
Open Scope string_scope.
Open Scope list_scope.
Open Scope Z_scope.

(** ** The record *)

Definition FieldSourceWorkload : string := "source_workload".
Definition FieldSourceNamespace : string := "source_namespace".
Definition FieldDestWorkload : string := "dest_workload".
Definition FieldDestNamespace : string := "dest_namespace".
Definition FieldDestPort : string := "dest_port".
Definition FieldDestProtocol : string := "dest_protocol".
Definition FieldDestAppProtocol : string := "dest_app_protocol".

Inductive attr := AString (k v : string) | AInt (k : string) (v : Z).
Definition attr_name (a : attr) : string := match a with AString k _ | AInt k _ => k end.

Definition appProtocol (sc : ServiceCall) : string :=
  if decide (DestAppProtocol sc <> "") then DestAppProtocol sc
  else ProtocolString (DestProtocol sc).

Definition attrs (sc : ServiceCall) : list attr :=
  [AString FieldSourceWorkload (WlName (Source sc));
   AString FieldSourceNamespace (WlNamespace (Source sc));
   AString FieldDestWorkload (WlName (Dest sc));
   AString FieldDestNamespace (WlNamespace (Dest sc));
   AInt FieldDestPort (DestPort sc);
   AString FieldDestProtocol (ProtocolString (DestProtocol sc));
   AString FieldDestAppProtocol (appProtocol sc)].

(** ** Sinks *)

Section sinks.
Context {W : Type}.
Definition Sink : Type := ServiceCall -> W -> W.

Definition multi (sinks : list Sink) : Sink := fun sc w => foldl (fun w s => s sc w) w sinks.
Definition Multi (sinks : list Sink) : Sink :=
  match sinks with
  | [s] => s
  | _ => multi sinks
  end.
End sinks.
Arguments Sink W : clear implicits.

(** The logger writes one record per edge. *)
Definition Logger_Emit : Sink (list (list attr)) := fun sc out => out ++ [attrs sc].

(** ** Kafka *)

Definition ReasonBufferFull : string := "buffer_full".
Definition ReasonProduce : string := "produce".
Definition kafkaMaxBuffered : Z := 10000.

Definition kafka_key (sc : ServiceCall) : string :=
  (WlNamespace (Source sc) +:+ "/" +:+ WlName (Source sc))%string.

(** What the client reports of one record: accepted, the buffer was full, or any
    other error. *)
Inductive produce_result := Produced | ErrMaxBuffered | ErrProduce.
Definition produce_reason (r : produce_result) : option string :=
  match r with
  | Produced => None
  | ErrMaxBuffered => Some ReasonBufferFull
  | ErrProduce => Some ReasonProduce
  end.

(** The Kafka sink over its client: [TryProduce] takes the key and the record, and
    the error callback counts the reason of a failure. *)
Definition Kafka_Emit {C} (TryProduce : string -> list attr -> C -> produce_result * C)
    : Sink (C * gmap string N) :=
  fun sc '(cl, errs) =>
    let '(r, cl) := TryProduce (kafka_key sc) (attrs sc) cl in
    (cl, match produce_reason r with Some reason => errs ⊕ reason | None => errs end).

(** ** Properties *)

Lemma ProtocolString_nonempty p : ProtocolString p <> "".
Proof. unfold ProtocolString. by repeat case_match. Qed.

(** The emitted record has the seven contract fields once each, in order, with
    the edge's own values, and its application protocol is never empty: the
    declared one, or the transport's name. *)
Lemma attrs_contract sc :
  map attr_name (attrs sc) =
    [FieldSourceWorkload; FieldSourceNamespace; FieldDestWorkload; FieldDestNamespace;
     FieldDestPort; FieldDestProtocol; FieldDestAppProtocol] /\
  NoDup (map attr_name (attrs sc)) /\
  (forall v, AString FieldDestAppProtocol v ∈ attrs sc ->
     v <> "" /\ (DestAppProtocol sc <> "" -> v = DestAppProtocol sc) /\
     (DestAppProtocol sc = "" -> v = ProtocolString (DestProtocol sc))) /\
  forall sc', attrs sc = attrs sc' ->
    WlName (Source sc) = WlName (Source sc') /\
    WlNamespace (Source sc) = WlNamespace (Source sc') /\
    WlName (Dest sc) = WlName (Dest sc') /\ WlNamespace (Dest sc) = WlNamespace (Dest sc') /\
    DestPort sc = DestPort sc'.
Proof.
  split; [done|]. split; [by apply (bool_decide_unpack _); vm_compute|]. split.
  - intros v Hv%list_elem_of_In. cbn in Hv.
    repeat (destruct Hv as [Hv|Hv]; [try done|]); [|done].
    injection Hv as <-. unfold appProtocol. case_decide as Hd.
    + by split_and!.
    + rewrite Hd. split_and!; try done. apply ProtocolString_nonempty.
  - intros sc' Heq. by injection Heq as -> -> -> -> -> _ _.
Qed.

(** [Multi] forwards every edge to every sink once and in order, however many
    sinks there are, and what one sink does to its own output does not depend
    on the others. *)
Lemma Multi_forwards {W} (sinks : list (Sink W)) sc w :
  Multi sinks sc w = foldl (fun w s => s sc w) w sinks /\
  forall (s : Sink W) (V : Type) (view : W -> V) pre post,
    sinks = pre ++ s :: post ->
    (forall s' w', s' ∈ pre ++ post -> view (s' sc w') = view w') ->
    (forall w1 w2, view w1 = view w2 -> view (s sc w1) = view (s sc w2)) ->
    view (Multi sinks sc w) = view (s sc w).
Proof.
  assert (Multi sinks sc w = foldl (fun w s => s sc w) w sinks) as HM
    by (destruct sinks as [|s [|s2 sinks]]; done).
  split; [done|]. intros s V view pre post Hs Hframe Hlocal. rewrite HM. subst sinks. clear HM.
  assert (forall l w, (forall s' w', s' ∈ l -> view (s' sc w') = view w') ->
    view (foldl (fun w s => s sc w) w l) = view w) as Hl.
  { clear. induction l as [|s l IH]; intros w Hl; [done|]. cbn. rewrite IH.
    - apply Hl. by left.
    - intros s' w' Hs'. apply Hl. by right. }
  rewrite foldl_app. cbn. rewrite Hl.
  - apply Hlocal, Hl. intros s' w' Hs'. apply Hframe, elem_of_app. by left.
  - intros s' w' Hs'. apply Hframe, elem_of_app. by right.
Qed.

Lemma Multi_forwards_witness :
  let l1 : Sink (list (list attr) * nat) := fun sc w => (Logger_Emit sc w.1, w.2) in
  let l2 : Sink (list (list attr) * nat) := fun _ w => (w.1, S w.2) in
  let sc := mkServiceCall (mkWorkload "a" "n" "Pod") (mkWorkload "b" "n" "Pod") 80 ProtocolTCP "" in
  (Multi [l1; l2] sc ([], 0%nat)).1 = [attrs sc].
Proof.
  cbv zeta. set (l1 := fun sc w => (Logger_Emit sc w.1, w.2)).
  set (l2 := fun (_ : ServiceCall) (w : list (list attr) * nat) => (w.1, S w.2)).
  set (sc := mkServiceCall _ _ _ _ _).
  destruct (Multi_forwards [l1; l2] sc ([], 0%nat)) as [_ H].
  change (fst (Multi [l1; l2] sc ([], 0%nat)) = [attrs sc]).
  etrans; [apply (H l1 _ fst [] [l2]); [done| |]|done].
  - intros s' w' Hs. apply list_elem_of_In in Hs. by destruct Hs as [<-|[]].
  - intros [] [] Hv. cbn in *. by rewrite Hv.
Defined.
