(* ===== verification/Render.v ===== *)
(** * Render: the JSON text of an edge (internal/emit/emit.go, Logger.Log and Encode)

    [New] puts [log/slog]'s JSON handler under the logger, and [Encode] runs the
    same logger into a buffer, so both sinks write what that handler renders: one
    object per line, the strings escaped byte by byte.  A text is the list of its
    bytes.  The reader is that of JSON for objects of strings and numbers. *)

From S2P Require Import Prelude Golang Netip Model Regexp Emit.
Open Scope string_scope.
Open Scope list_scope.
Open Scope Z_scope.

Abbreviation text := (list Z) (only parsing).
Definition text_of (s : string) : text := map char_code (list_ascii_of_string s).
Definition quote : Z := 34.
Definition backslash : Z := 92.
Definition newline : Z := 10.

(** ** UTF-8, as [utf8.DecodeRuneInString] cuts a string *)

Inductive piece :=
| PByte (b : Z)            (* below 0x80 *)
| PRune (bs : list Z)      (* the bytes of a longer rune *)
| PInvalid (b : Z).        (* a byte that starts no rune *)
Fixpoint pieces (l : text) : list piece :=
  match l with
  | [] => []
  | b0 :: l0 =>
      if b0 <? 0x80 then PByte b0 :: pieces l0
      else
        match l0 with
        | b1 :: l1 =>
            if between 0xC2 0xDF b0 && cont b1 then PRune [b0; b1] :: pieces l1
            else
              match l1 with
              | b2 :: l2 =>
                  if second3 b0 b1 && cont b2 then PRune [b0; b1; b2] :: pieces l2
                  else
                    match l2 with
                    | b3 :: l3 =>
                        if second4 b0 b1 && cont b2 && cont b3
                        then PRune [b0; b1; b2; b3] :: pieces l3
                        else PInvalid b0 :: pieces l0
                    | [] => PInvalid b0 :: pieces l0
                    end
              | [] => PInvalid b0 :: pieces l0
              end
        | [] => PInvalid b0 :: pieces l0
        end
  end.
Definition source (p : piece) : list Z :=
  match p with PByte b | PInvalid b => [b] | PRune bs => bs end.
(** What the piece stands for once an invalid byte is replaced. *)
Definition meaning (p : piece) : list Z :=
  match p with PByte b => [b] | PRune bs => bs | PInvalid _ => [0xEF; 0xBF; 0xBD] end.
Definition sanitize (l : text) : text := pieces l ≫= meaning.
Definition valid_utf8 (l : text) : bool :=
  forallb (fun p => match p with PInvalid _ => false | _ => true end) (pieces l).

(** ** The handler *)

Definition hex (n : Z) : Z := if n <? 10 then 48 + n else 87 + n.
(** [safeSet] of encoding/json. *)
Definition safe (b : Z) : bool := (32 <=? b) && (b <? 128) && negb (b =? quote) && negb (b =? backslash).

Definition escape (p : piece) : text :=
  match p with
  | PByte b =>
      if safe b then [b]
      else backslash ::
        (if (b =? backslash) || (b =? quote) then [b]
         else if b =? 10 then text_of "n"
         else if b =? 13 then text_of "r"
         else if b =? 9 then text_of "t"
         else text_of "u00" ++ [hex (Z.shiftr b 4); hex (Z.land b 15)])
  | PRune bs =>
      if decide (bs = [0xE2; 0x80; 0xA8]) then text_of "\u2028"
      else if decide (bs = [0xE2; 0x80; 0xA9]) then text_of "\u2029"
      else bs
  | PInvalid _ => text_of "\ufffd"
  end.
Definition appendEscapedJSONString (s : string) : text := pieces (text_of s) ≫= escape.
Definition quoted (t : text) : text := [quote] ++ t ++ [quote].

Definition render_attr (a : attr) : text :=
  match a with
  | AString k v => quoted (appendEscapedJSONString k) ++ text_of ":" ++ quoted (appendEscapedJSONString v)
  | AInt k v => quoted (appendEscapedJSONString k) ++ text_of ":" ++ text_of (FormatUint v)
  end.
Fixpoint separated (l : list text) : text :=
  match l with [] => [] | [t] => t | t :: l => t ++ text_of "," ++ separated l end.

Definition Message : string := "service_call".
(** A record at level INFO; the time is written without escaping. *)
Definition render (now : text) (l : list attr) : text :=
  text_of "{" ++
  separated ((quoted (text_of "time") ++ text_of ":" ++ quoted now) ::
             render_attr (AString "level" "INFO") :: render_attr (AString "msg" Message) ::
             map render_attr l) ++
  text_of "}".

(** [Log] and [Encode] at the time whose text is [now]. *)
Definition Log (now : text) (sc : ServiceCall) : text := render now (attrs sc) ++ [newline].
Definition TrimNewline (t : text) : text :=
  match rev t with b :: t' => if b =? newline then rev t' else t | [] => t end.
Definition Encode (now : text) (sc : ServiceCall) : text := TrimNewline (Log now sc).

(** ** A reader of JSON *)

Definition unhex (c : Z) : option Z :=
  if between 48 57 c then Some (c - 48)
  else if between 97 102 c then Some (c - 87)
  else if between 65 70 c then Some (c - 55) else None.
(** UTF-8 of a code point below 0x10000. *)
Definition utf8 (r : Z) : text :=
  if r <? 0x80 then [r]
  else if r <? 0x800 then [0xC0 + r / 64; 0x80 + r mod 64]
  else [0xE0 + r / 4096; 0x80 + r / 64 mod 64; 0x80 + r mod 64].
Definition unescape (e : Z) : option Z :=
  if (e =? quote) || (e =? backslash) || (e =? 47) then Some e
  else if e =? 98 then Some 8 else if e =? 102 then Some 12
  else if e =? 110 then Some 10 else if e =? 114 then Some 13 else if e =? 116 then Some 9 else None.

(** The rest of a string and what follows its closing quote. *)
Fixpoint parse_string (l : text) : option (text * text) :=
  match l with
  | [] => None
  | c :: l1 =>
      if c =? quote then Some ([], l1)
      else if c =? backslash then
        match l1 with
        | e :: l2 =>
            if e =? 117 then
              match l2 with
              | h1 :: h2 :: h3 :: h4 :: l3 =>
                  match unhex h1, unhex h2, unhex h3, unhex h4 with
                  | Some d1, Some d2, Some d3, Some d4 =>
                      '(s, r) ← parse_string l3;
                      Some (utf8 (((d1 * 16 + d2) * 16 + d3) * 16 + d4) ++ s, r)
                  | _, _, _, _ => None
                  end
              | _ => None
              end
            else match unescape e with
                 | Some b => '(s, r) ← parse_string l2; Some (b :: s, r)
                 | None => None
                 end
        | [] => None
        end
      else if c <? 32 then None
      else '(s, r) ← parse_string l1; Some (c :: s, r)
  end.

Inductive json := JString (s : text) | JNumber (digits : text).
Definition is_digit (c : Z) : bool := between 48 57 c.
Fixpoint span_digits (l : text) : text * text :=
  match l with
  | c :: l' => if is_digit c then let '(d, r) := span_digits l' in (c :: d, r) else ([], l)
  | [] => ([], [])
  end.
Definition parse_value (l : text) : option (json * text) :=
  match l with
  | [] => None
  | c :: l' =>
      if c =? quote then '(s, r) ← parse_string l'; Some (JString s, r)
      else if is_digit c then let '(d, r) := span_digits l in Some (JNumber d, r) else None
  end.
(** Each member takes at least one byte: the length is enough fuel. *)
Fixpoint parse_members (fuel : nat) (l : text) : option (list (text * json) * text) :=
  match fuel, l with
  | S fuel, c :: l1 =>
      if c =? quote then
        '(k, l2) ← parse_string l1;
        match l2 with
        | c2 :: l3 =>
            if c2 =? 58 then
              '(v, l4) ← parse_value l3;
              match l4 with
              | c4 :: l5 =>
                  if c4 =? 44 then '(ms, r) ← parse_members fuel l5; Some ((k, v) :: ms, r)
                  else if c4 =? 125 then Some ([(k, v)], l5) else None
              | [] => None
              end
            else None
        | [] => None
        end
      else None
  | _, _ => None
  end.
Definition parse_object (l : text) : option (list (text * json)) :=
  match l with
  | c :: l1 =>
      if c =? 123 then '(ms, r) ← parse_members (length l1) l1; if decide (r = []) then Some ms else None
      else None
  | [] => None
  end.

(** ** Cutting and escaping *)

Lemma char_code_range c : 0 <= char_code c < 256.
Proof. unfold char_code. pose proof (N_ascii_bounded c). lia. Qed.
Lemma text_of_bytes s : Forall (fun b => 0 <= b < 256) (text_of s).
Proof. apply Forall_forall. intros b Hb. apply list_elem_of_fmap in Hb as (c & -> & _). apply char_code_range. Qed.
Lemma text_of_app (a b : string) : text_of (a +:+ b) = text_of a ++ text_of b.
Proof. unfold text_of. induction a as [|c a IH]; [done|]. rewrite append_cons. cbn [list_ascii_of_string map app]. by rewrite IH. Qed.

Definition wf_piece (p : piece) : Prop :=
  match p with
  | PByte b => 0 <= b < 128
  | PRune bs => Forall (fun b => 128 <= b) bs
  | PInvalid _ => True
  end.

Lemma second3_range b0 b1 : second3 b0 b1 = true -> 128 <= b1.
Proof. unfold second3, between, cont, between. destruct (b0 =? 0xE0); [lia|]. destruct (b0 =? 0xED); lia. Qed.
Lemma second4_range b0 b1 : second4 b0 b1 = true -> 128 <= b1.
Proof. unfold second4, between, cont, between. destruct (b0 =? 0xF0); [lia|]. destruct (b0 =? 0xF4); lia. Qed.

Lemma pieces_cons b0 l0 :
  0 <= b0 -> exists p l, pieces (b0 :: l0) = p :: pieces l /\ b0 :: l0 = source p ++ l /\ wf_piece p /\
    (length l <= length l0)%nat.
Proof.
  intros Hb. cbn [pieces]. destruct (Z.ltb_spec b0 0x80) as [Hlt|Hge].
  { exists (PByte b0), l0. by split_and!; cbn; [| |lia|]. }
  assert (forall b, cont b = true -> 128 <= b) as Hc by (unfold cont, between; intros; lia).
  assert (exists p l, PInvalid b0 :: pieces l0 = p :: pieces l /\ b0 :: l0 = source p ++ l /\ wf_piece p /\
    (length l <= length l0)%nat) as Hinv by (by exists (PInvalid b0), l0).
  destruct l0 as [|b1 l1]; [done|].
  destruct (between 0xC2 0xDF b0 && cont b1) eqn:H2.
  { apply andb_true_iff in H2 as [_ H2%Hc]. exists (PRune [b0; b1]), l1.
    split_and!; [done|done|by repeat constructor|cbn; lia]. }
  destruct l1 as [|b2 l2]; [done|].
  destruct (second3 b0 b1 && cont b2) eqn:H3.
  { apply andb_true_iff in H3 as [H3 H4%Hc]. exists (PRune [b0; b1; b2]), l2.
    apply second3_range in H3.
    split_and!; [done|done|by repeat constructor|cbn; lia]. }
  destruct l2 as [|b3 l3]; [done|].
  destruct (second4 b0 b1 && cont b2 && cont b3) eqn:H4; [|done].
  apply andb_true_iff in H4 as [[H4 H5%Hc]%andb_true_iff H6%Hc]. exists (PRune [b0; b1; b2; b3]), l3.
  apply second4_range in H4.
  split_and!; [done|done|by repeat constructor|cbn; lia].
Qed.

Lemma pieces_spec l :
  Forall (fun b => 0 <= b < 256) l -> Forall wf_piece (pieces l) /\ pieces l ≫= source = l.
Proof.
  induction l as [l IH] using (induction_ltof1 _ (@length _)); unfold ltof in IH. intros Hl.
  destruct l as [|b0 l0]; [done|]. pose proof Hl as [Hb _]%Forall_cons.
  destruct (pieces_cons b0 l0) as (p & l & -> & Heq & Hp & Hlen); [lia|].
  assert (Forall (fun b => 0 <= b < 256) l) as Hl' by (rewrite Heq in Hl; by apply Forall_app in Hl as [_ ?]).
  destruct (IH l) as [IH1 IH2]; [cbn; lia|done|]. split; [by constructor|]. cbn. by rewrite IH2.
Qed.

(** A valid text is its own meaning. *)
Lemma sanitize_valid l : Forall (fun b => 0 <= b < 256) l -> valid_utf8 l = true -> sanitize l = l.
Proof.
  intros Hl Hv. destruct (pieces_spec l Hl) as [_ Hs]. unfold sanitize, valid_utf8 in *. rewrite <- Hs at 2. clear Hs.
  induction (pieces l) as [|p ps IH]; [done|]. cbn in *. apply andb_true_iff in Hv as [Hp Hps].
  rewrite (IH Hps). by destruct p.
Qed.

(** The bytes below 0x80 that are escaped. *)
Definition unsafe_bytes : list Z := seqZ 0 32 ++ [quote; backslash].
Lemma unsafe_byte b : 0 <= b < 128 -> safe b = false -> b ∈ unsafe_bytes.
Proof.
  intros Hb Hs. unfold unsafe_bytes, quote, backslash. apply elem_of_app.
  destruct (decide (b < 32)); [left; apply elem_of_seqZ; lia|]. right.
  unfold safe, quote, backslash in Hs. apply list_elem_of_In. cbn. lia.
Qed.

Definition pushes_back (t : text) (p : text) : Prop :=
  forall rest, parse_string (t ++ rest) = '(s, r) ← parse_string rest; Some (p ++ s, r).

Lemma plain_byte b rest :
  32 <= b -> b <> quote -> b <> backslash ->
  parse_string (b :: rest) = '(s, r) ← parse_string rest; Some (b :: s, r).
Proof.
  intros H1 H2 H3. cbn [parse_string]. rewrite (proj2 (Z.eqb_neq b quote)), (proj2 (Z.eqb_neq b backslash)) by done.
  by replace (b <? 32) with false by lia.
Qed.

Lemma escape_pushes p : wf_piece p -> pushes_back (escape p) (meaning p).
Proof.
  intros Hp rest. destruct p as [b|bs|b]; cbn [wf_piece] in Hp.
  - destruct (safe b) eqn:Hs.
    + cbn [escape meaning]. rewrite Hs. apply plain_byte; unfold safe in Hs; lia.
    + pose proof (unsafe_byte b Hp Hs) as Hin. clear Hp Hs. revert rest.
      assert (Forall (fun b => forall rest, parse_string (escape (PByte b) ++ rest) =
        '(s, r) ← parse_string rest; Some (meaning (PByte b) ++ s, r)) unsafe_bytes) as Hall.
      { unfold unsafe_bytes. repeat constructor. }
      rewrite Forall_forall in Hall. by apply Hall.
  - cbn [escape meaning]. case_decide; [by subst|]. case_decide; [by subst|].
    clear H H0. induction Hp as [|b bs Hb Hbs IH]; [cbn [app]; by destruct (parse_string rest) as [[]|]|].
    rewrite <- app_comm_cons, plain_byte by (unfold quote, backslash; lia). rewrite IH.
    by destruct (parse_string rest) as [[]|].
  - done.
Qed.

Lemma parse_escaped ps rest :
  Forall wf_piece ps -> parse_string ((ps ≫= escape) ++ quote :: rest) = Some (ps ≫= meaning, rest).
Proof.
  induction 1 as [|p ps Hp _ IH]; [done|]. cbn. rewrite <- app_assoc, escape_pushes by done. by rewrite IH.
Qed.

Lemma parse_quoted s rest :
  parse_string (appendEscapedJSONString s ++ quote :: rest) = Some (sanitize (text_of s), rest).
Proof. apply parse_escaped, pieces_spec, text_of_bytes. Qed.

(** No control byte is left, so no line break either. *)
Definition printable (t : text) : Prop := Forall (fun b => 32 <= b) t.
Lemma escape_printable p : wf_piece p -> printable (escape p).
Proof.
  intros Hp. destruct p as [b|bs|b]; cbn [wf_piece] in Hp.
  - destruct (safe b) eqn:Hs.
    + cbn [escape]. rewrite Hs. constructor; [unfold safe in Hs; lia|constructor].
    + pose proof (unsafe_byte b Hp Hs) as Hin. clear Hp Hs. revert b Hin. apply Forall_forall.
      unfold unsafe_bytes. repeat constructor; by vm_compute.
  - cbn [escape]. unfold printable. repeat case_decide; [by repeat constructor..|].
    eapply Forall_impl; [exact Hp|]. cbn. lia.
  - by repeat constructor.
Qed.

Lemma appendEscaped_printable s : printable (appendEscapedJSONString s).
Proof.
  unfold appendEscapedJSONString. pose proof (proj1 (pieces_spec _ (text_of_bytes s))) as Hw.
  induction Hw as [|p ps Hp _ IH]; [constructor|]. cbn. apply Forall_app. by split; [apply escape_printable|].
Qed.

(** ** Members *)

(** What may follow a member. *)
Definition ends (rest : text) : Prop := match rest with c :: _ => c = 44 \/ c = 125 | [] => False end.
(** The text of a member and what it reads as. *)
Definition member (t : text) (kv : text * json) : Prop :=
  printable t /\ exists t', t = quote :: t' /\ forall rest, ends rest -> exists l,
    parse_string (t' ++ rest) = Some (kv.1, 58 :: l) /\ parse_value l = Some (kv.2, rest).

Lemma printable_app a b : printable (a ++ b) <-> printable a /\ printable b.
Proof. apply Forall_app. Qed.

Lemma member_string k v :
  member (render_attr (AString k v)) (sanitize (text_of k), JString (sanitize (text_of v))).
Proof.
  pose proof (appendEscaped_printable k) as Hk. pose proof (appendEscaped_printable v) as Hv. split.
  { cbn [render_attr]. unfold quoted. rewrite !printable_app. split_and!; by repeat constructor. }
  eexists. split; [reflexivity|]. intros rest _. exists (quote :: appendEscapedJSONString v ++ quote :: rest).
  cbn [fst snd]. split.
  - unfold quoted. change (text_of ":") with [58]. rewrite <- !app_assoc. cbn [app]. apply (parse_quoted k).
  - cbn [parse_value]. rewrite Z.eqb_refl, parse_quoted. done.
Qed.

Lemma text_digits s : sforallb is_digit_char s = true -> Forall (fun c => is_digit c = true) (text_of s).
Proof.
  induction s as [|c s IH]; [constructor|]. cbn [sforallb]. intros [Hc Hs]%andb_true_iff.
  constructor; [|by apply IH]. clear -Hc. unfold is_digit, between, char_code. unfold is_digit_char in Hc. cbv zeta in Hc.
  apply andb_true_iff in Hc as [H1%N.leb_le H2%N.leb_le]. apply andb_true_iff. split; apply Z.leb_le; lia.
Qed.

Lemma span_digits_ends t rest :
  Forall (fun c => is_digit c = true) t -> ends rest -> span_digits (t ++ rest) = (t, rest).
Proof.
  intros Ht Hr. induction Ht as [|c t Hc _ IH].
  - destruct rest as [|c rest]; [done|]. cbn. destruct Hr as [->| ->]; done.
  - cbn [app span_digits]. by rewrite Hc, IH.
Qed.

Lemma member_number k z : member (render_attr (AInt k z)) (sanitize (text_of k), JNumber (text_of (FormatUint z))).
Proof.
  pose proof (appendEscaped_printable k) as Hk.
  pose proof (text_digits _ (FormatUint_digits z)) as Hd. split.
  { cbn [render_attr]. unfold quoted. rewrite !printable_app. split_and!; try by repeat constructor.
    eapply Forall_impl; [exact Hd|]. unfold is_digit, between. lia. }
  eexists. split; [reflexivity|]. intros rest Hr. exists (text_of (FormatUint z) ++ rest). cbn [fst snd]. split.
  - unfold quoted. change (text_of ":") with [58]. rewrite <- !app_assoc. cbn [app]. apply (parse_quoted k).
  - destruct (FormatUint z) as [|c s] eqn:Hz; [by destruct (FormatUint_nonempty z)|].
    pose proof Hd as [Hc _]%Forall_cons. cbn [text_of list_ascii_of_string map app parse_value] in *.
    rewrite Hc. replace (char_code c =? quote) with false by (unfold is_digit, between, quote in *; lia).
    fold (text_of s) in *. change (char_code c :: text_of s ++ rest) with ((char_code c :: text_of s) ++ rest).
    by rewrite span_digits_ends.
Qed.

(** The time is written as it is. *)
Lemma parse_safe t rest :
  Forall (fun b => safe b = true) t -> parse_string (t ++ quote :: rest) = Some (t, rest).
Proof.
  induction 1 as [|b t Hb _ IH]; [done|]. rewrite <- app_comm_cons, plain_byte by (unfold safe in Hb; lia).
  by rewrite IH.
Qed.
Lemma member_time now :
  Forall (fun b => safe b = true) now ->
  member (quoted (text_of "time") ++ text_of ":" ++ quoted now) (text_of "time", JString now).
Proof.
  intros Hn. split.
  { unfold quoted. rewrite !printable_app. split_and!; try by repeat constructor.
    eapply Forall_impl; [exact Hn|]. unfold safe. lia. }
  eexists. split; [reflexivity|]. intros rest _. exists (quote :: now ++ quote :: rest). cbn [fst snd]. split.
  - unfold quoted. change (text_of ":") with [58]. rewrite <- !app_assoc. cbn [app].
    apply (parse_safe (text_of "time")). by repeat constructor.
  - cbn [parse_value]. by rewrite Z.eqb_refl, parse_safe.
Qed.

Lemma parse_members_separated ts kvs :
  Forall2 member ts kvs -> ts <> [] -> forall fuel rest, (length ts <= fuel)%nat ->
  parse_members fuel (separated ts ++ 125 :: rest) = Some (kvs, rest).
Proof.
  induction 1 as [|t kv ts kvs (_ & t' & -> & Ht) Hts IH]; [done|]. intros _ fuel rest Hf.
  destruct fuel as [|fuel]; [cbn in Hf; lia|]. destruct ts as [|t2 ts].
  - apply Forall2_nil_inv_l in Hts as ->. cbn [separated app parse_members]. rewrite Z.eqb_refl.
    destruct (Ht (125 :: rest)) as (l & Hp & Hv); [by right|]. rewrite Hp. cbn. rewrite Hv. by destruct kv.
  - change (separated ((quote :: t') :: t2 :: ts)) with (quote :: t' ++ 44 :: separated (t2 :: ts)).
    cbn [app parse_members]. rewrite Z.eqb_refl, <- app_assoc.
    destruct (Ht ((44 :: separated (t2 :: ts)) ++ 125 :: rest)) as (l & Hp & Hv); [by left|].
    rewrite Hp. cbn [mbind option_bind]. rewrite Z.eqb_refl, Hv. cbn [mbind option_bind app].
    rewrite Z.eqb_refl, IH; [by destruct kv|done|cbn in *; lia].
Qed.

Lemma separated_printable ts kvs : Forall2 member ts kvs -> printable (separated ts).
Proof.
  induction 1 as [|t kv ts kvs [Ht _] _ IH]; [constructor|]. destruct ts as [|t2 ts]; [exact Ht|].
  change (separated (t :: t2 :: ts)) with (t ++ text_of "," ++ separated (t2 :: ts)).
  rewrite !printable_app. split_and!; [done|by repeat constructor|done].
Qed.

Lemma length_separated ts kvs : Forall2 member ts kvs -> (length ts <= length (separated ts))%nat.
Proof.
  induction 1 as [|t kv ts kvs (_ & t' & -> & _) _ IH]; [done|]. destruct ts as [|t2 ts]; [cbn; lia|].
  change (separated ((quote :: t') :: t2 :: ts)) with ((quote :: t') ++ text_of "," ++ separated (t2 :: ts)).
  rewrite !length_app. cbn in *. lia.
Qed.

(** What an attribute reads back as. *)
Definition read_back (a : attr) : text * json :=
  match a with
  | AString k v => (sanitize (text_of k), JString (sanitize (text_of v)))
  | AInt k v => (sanitize (text_of k), JNumber (text_of (FormatUint v)))
  end.

Lemma members now l :
  Forall (fun b => safe b = true) now ->
  Forall2 member ((quoted (text_of "time") ++ text_of ":" ++ quoted now) ::
      render_attr (AString "level" "INFO") :: render_attr (AString "msg" Message) :: map render_attr l)
    ((text_of "time", JString now) :: map read_back (AString "level" "INFO" :: AString "msg" Message :: l)).
Proof.
  intros Hn. constructor; [by apply member_time|]. cbn [map].
  constructor; [apply member_string|]. constructor; [apply member_string|].
  induction l as [|[k v|k v] l IH]; constructor; try done; [apply member_string|apply member_number].
Qed.

Lemma render_reads now l :
  Forall (fun b => safe b = true) now ->
  printable (render now l) /\
  parse_object (render now l) =
    Some ((text_of "time", JString now) :: map read_back (AString "level" "INFO" :: AString "msg" Message :: l)).
Proof.
  intros Hn. pose proof (members now l Hn) as Hm. split.
  - unfold render. rewrite !printable_app. split_and!; [by repeat constructor| |by repeat constructor].
    by eapply separated_printable.
  - unfold render. change (text_of "{") with [123]. change (text_of "}") with [125].
    cbn [app parse_object]. rewrite (parse_members_separated _ _ Hm); [done|done|].
    rewrite length_app. etrans; [by eapply length_separated|]. lia.
Qed.

Lemma text_of_inj a b : text_of a = text_of b -> a = b.
Proof.
  revert b. induction a as [|c a IH]; intros [|d b] H; try done. cbn in H. injection H as Hc Hab.
  f_equal; [|by apply IH]. unfold char_code in Hc. apply N2Z.inj in Hc.
  by rewrite <- (ascii_N_embedding c), Hc, ascii_N_embedding.
Qed.

(** An attribute's value is a valid string, or a number a [uint16] holds. *)
Definition attr_valid (a : attr) : Prop :=
  match a with AString _ v => valid_utf8 (text_of v) = true | AInt _ v => 0 <= v < 2 ^ 16 end.
Definition as_is (a : attr) : text * json :=
  match a with
  | AString k v => (text_of k, JString (text_of v))
  | AInt k v => (text_of k, JNumber (text_of (FormatUint v)))
  end.

Lemma read_back_valid sc : Forall attr_valid (attrs sc) -> map read_back (attrs sc) = map as_is (attrs sc).
Proof.
  assert (Forall (fun a => sanitize (text_of (attr_name a)) = text_of (attr_name a)) (attrs sc)) as Hk
    by (repeat constructor).
  intros Hv. induction (attrs sc) as [|a l IH]; [done|]. apply Forall_cons in Hk as [Ha Hk], Hv as [Hva Hv].
  cbn [map]. rewrite IH by done. f_equal. destruct a as [k v|k v]; cbn [attr_name read_back as_is attr_valid] in *;
    rewrite Ha; [|done]. by rewrite sanitize_valid by (done || apply text_of_bytes).
Qed.

Lemma as_is_inj a b : attr_valid a -> attr_valid b -> as_is a = as_is b -> a = b.
Proof.
  destruct a as [k v|k v], b as [k' v'|k' v']; cbn; try done.
  - by intros _ _ [= ->%text_of_inj ->%text_of_inj].
  - intros Hv Hv' [= ->%text_of_inj Hz%text_of_inj]. f_equal. apply FormatUint_inj; [lia..|done].
Qed.

Lemma map_as_is_inj l l' :
  Forall attr_valid l -> Forall attr_valid l' -> map as_is l = map as_is l' -> l = l'.
Proof.
  intros Hl. revert l'. induction Hl as [|a l Ha _ IH]; intros [|b l'] Hl' H; try done.
  apply Forall_cons in Hl' as [Hb Hl']. cbn [map] in H. injection H as Hab Hll.
  by rewrite (as_is_inj a b Ha Hb Hab), (IH l' Hl' Hll).
Qed.

Lemma TrimNewline_snoc t : TrimNewline (t ++ [newline]) = t.
Proof. unfold TrimNewline. rewrite rev_app_distr. cbn. apply rev_involutive. Qed.

(** ** Property *)

(** C31: whatever the names of an edge hold (quotes, line breaks, control or
    invalid bytes), what the sinks write is one line, ended by the only line
    break in it, and a JSON object whose members are the time, the level, the
    message and the seven fields of the contract in order, each reading back as
    its value with invalid bytes replaced; the Kafka record is that line without
    its end.  When every name is valid UTF-8 they read back unchanged, so two
    edges with different attributes are rendered differently. *)
Theorem Encode_reads_back now sc (Hnow : Forall (fun b => safe b = true) now) :
  let t := Encode now sc in
  let head := [(text_of "time", JString now); (text_of "level", JString (text_of "INFO"));
               (text_of "msg", JString (text_of Message))] in
  Log now sc = t ++ [newline] /\ ~ (newline ∈ t) /\
  parse_object t = Some (head ++ map read_back (attrs sc)) /\
  (Forall attr_valid (attrs sc) -> parse_object t = Some (head ++ map as_is (attrs sc)) /\
     forall sc', Forall attr_valid (attrs sc') -> Encode now sc' = t -> attrs sc' = attrs sc).
Proof.
  cbv zeta. assert (forall sc, Encode now sc = render now (attrs sc)) as He by (intros; apply TrimNewline_snoc).
  assert (forall sc, parse_object (Encode now sc) = Some ([(text_of "time", JString now);
    (text_of "level", JString (text_of "INFO")); (text_of "msg", JString (text_of Message))] ++
    map read_back (attrs sc))) as Hr.
  { intros s. rewrite He. by apply render_reads. }
  split; [by rewrite He|]. split.
  { rewrite He. intros Hin. destruct (render_reads now (attrs sc) Hnow) as [Hp _].
    unfold printable in Hp. rewrite Forall_forall in Hp. specialize (Hp newline Hin). unfold newline in Hp. lia. }
  split; [apply Hr|]. intros Hv. rewrite Hr, read_back_valid by done. split; [done|].
  intros sc' Hv' Heq. pose proof (Hr sc') as Hr'. rewrite Heq, Hr, !read_back_valid in Hr' by done.
  apply map_as_is_inj; [done..|]. apply (f_equal (fun o => drop 3 (default [] o))) in Hr'. symmetry. exact Hr'.
Qed.

(** ** Witness *)

(** A workload named to forge a field: a quote, a line break and a broken byte. *)
Definition forged : ServiceCall :=
  mkServiceCall (mkWorkload (string_of_list_ascii (map (fun n => ascii_of_N n) [34; 44; 10; 92; 255]%N)) "n" "Pod")
    (mkWorkload "b" "n" "Pod") 80 ProtocolTCP "".
Definition midnight : text := text_of "2026-01-01T00:00:00Z".

Lemma Encode_reads_back_witness :
  ~ (newline ∈ Encode midnight forged) /\
  parse_object (Encode midnight forged) ≫= (fun ms => (ms !! 3%nat)) =
    Some (text_of "source_workload", JString [34; 44; 10; 92; 0xEF; 0xBF; 0xBD]).
Proof.
  destruct (Encode_reads_back midnight forged) as (_ & Hn & Hp & _); [by repeat constructor|].
  split; [exact Hn|]. rewrite Hp. vm_compute. reflexivity.
Defined.
