(* ===== verification/Processor.v ===== *)
(** * Processor: the central pipeline (internal/processor)

    [toEvent] and [Report] are server.go, [Handle] is pipeline.go, the counters
    are metrics.go.  The pipeline is generic in its cache, through the
    resolver's interfaces, and in its sink.  The specification is a declarative
    pipeline that remembers everything it emitted; the implementation, with its
    swept window of keys, refines it. *)

From S2P Require Import Prelude Golang Netip Model Ignore Dedup Resolver Enrich Emit Wire Aggregator Decode.
Open Scope string_scope.
Open Scope list_scope.
Open Scope Z_scope.

(** ** State *)

Definition resultInvalid : string := "invalid".
Definition resultReversedDuplicate : string := "reversed_duplicate".
Definition resultIgnored : string := "ignored".
Definition resultDuplicate : string := "duplicate".
Definition resultEmitted : string := "emitted".

(** The counter of emit errors belongs to the Kafka callback ([Startup]). *)
Record Metrics := mkMetrics { MRecords : gmap string N; Batches : Z }.
Definition NewMetrics : Metrics := mkMetrics ∅ 0.

(** [world] is what the sink has written so far. *)
Record Pipeline (T W : Type) := mkPipeline {
  cache : T;
  matcher : option Matcher;
  deduper : Deduper;
  out : Sink W;
  world : W;
  pm : Metrics
}.
Arguments mkPipeline {T W}.
Arguments cache {T W}.
Arguments matcher {T W}.
Arguments deduper {T W}.
Arguments out {T W}.
Arguments world {T W}.
Arguments pm {T W}.

Section pipeline.
Context {T W : Type} `{Store T, UIDStore T, PortStore T}.

Definition NewPipeline (c : T) (m : option Matcher) (d : Deduper) (o : Sink W) (w : W) : Pipeline T W :=
  mkPipeline c m d o w NewMetrics.

Definition count_record (l : string) (p : Pipeline T W) : Pipeline T W :=
  mkPipeline (cache p) (matcher p) (deduper p) (out p) (world p)
    (mkMetrics (MRecords (pm p) ⊕ l) (Batches (pm p))).
Definition set_deduper (d : Deduper) (p : Pipeline T W) : Pipeline T W :=
  mkPipeline (cache p) (matcher p) d (out p) (world p) (pm p).
Definition set_cache (c : T) (p : Pipeline T W) : Pipeline T W :=
  mkPipeline c (matcher p) (deduper p) (out p) (world p) (pm p).
Definition inc_batches (p : Pipeline T W) : Pipeline T W :=
  mkPipeline (cache p) (matcher p) (deduper p) (out p) (world p)
    (mkMetrics (MRecords (pm p)) (Batches (pm p) + 1)).
Definition emit (sc : ServiceCall) (p : Pipeline T W) : Pipeline T W :=
  mkPipeline (cache p) (matcher p) (deduper p) (out p) (out p sc (world p)) (pm p).

(** ** Operations *)

(** [now] is what [p.now()] returns during the call. *)
Definition Handle (ev : ConnectionEvent) (now : Time) (p : Pipeline T W) : Pipeline T W :=
  let sc := Enrich ev (cache p) (Some (cache p)) (Some (cache p)) in
  if IsReversedDuplicate ev (Source sc) then count_record resultReversedDuplicate p
  else if ShouldIgnoreCall (matcher p) sc then count_record resultIgnored p
  else
    let '(ok, d) := Dedup.Allow sc now (deduper p) in
    let p := set_deduper d p in
    if negb ok then count_record resultDuplicate p
    else emit sc (count_record resultEmitted p).
End pipeline.

Definition toEvent (r : FlowRecord) : option ConnectionEvent :=
  match AddrFromSlice (SrcIp r) with
  | None => None
  | Some src =>
      match AddrFromSlice (DstIp r) with
      | None => None
      | Some dst =>
          if (MaxUint16 <? FrDstPort r) || (MaxUint8 <? FrProtocol r) then None
          else Some (mkEvent (Unmap src) (Unmap dst) 0 (uint16 (FrDstPort r))
                       (uint8 (FrProtocol r)) 0 (FrComm r) (FrOutbound r) (SrcPodUid r)
                       (FrDstHostname r))
      end
  end.

Section server.
Context {T W : Type} `{Store T, UIDStore T, PortStore T}.

Definition handle_record (r : FlowRecord) (now : Time) (p : Pipeline T W) : Pipeline T W :=
  match toEvent r with
  | None => count_record resultInvalid p
  | Some ev => Handle ev now p
  end.
Fixpoint handle_records (clock : nat -> Time) (i : nat) (rs : list FlowRecord) (p : Pipeline T W)
    : Pipeline T W :=
  match rs with
  | [] => p
  | r :: rs => handle_records clock (S i) rs (handle_record r (clock i) p)
  end.
(** [clock i] is the time at which the [i]th record is handled; the error is
    always nil. *)
Definition Report (clock : nat -> Time) (req : ReportRequest) (p : Pipeline T W)
    : option unit * Pipeline T W :=
  (None, handle_records clock 0 (Records req) (inc_batches p)).
End server.

(** ** Specification *)

Section spec.
Context {T W : Type} `{Store T, UIDStore T, PortStore T} {RO : RangeOrder string Time}.

(** What happens at a processor: a record, a sweep of the deduper, an update of
    the cache by the watch layer. *)
Inductive pop :=
| PRecord (r : FlowRecord) (now : Time)
| PSweep (now : Time)
| PCache (c : T).
Definition pstep (o : pop) (p : Pipeline T W) : Pipeline T W :=
  match o with
  | PRecord r now => handle_record r now p
  | PSweep now => set_deduper (Dedup.Sweep now (deduper p)).2 p
  | PCache c => set_cache c p
  end.
Definition prun (ops : list pop) (p : Pipeline T W) : Pipeline T W := foldl (fun p o => pstep o p) p ops.

Fixpoint clock_from (now : Time) (ops : list pop) : Prop :=
  match ops with
  | [] => True
  | (PRecord _ t | PSweep t) :: ops => now <= t /\ clock_from t ops
  | PCache _ :: ops => clock_from now ops
  end.

(** The label of a record and the edge it stands for, given every edge emitted
    before it. *)
Definition judge (w : Duration) (m : option Matcher) (c : T) (emitted : list (ServiceCall * Time))
    (r : FlowRecord) (now : Time) : string * option ServiceCall :=
  match toEvent r with
  | None => (resultInvalid, None)
  | Some ev =>
      let sc := Enrich ev c (Some c) (Some c) in
      if IsReversedDuplicate ev (Source sc) then (resultReversedDuplicate, None)
      else if ShouldIgnoreCall m sc then (resultIgnored, None)
      else if existsb (fun '(sc', t) => bool_decide (Dedup.key sc' = Dedup.key sc) && (now - t <? w)) emitted
           then (resultDuplicate, None)
           else (resultEmitted, Some sc)
  end.

(** The declarative pipeline: labels and emissions, oldest first. *)
Fixpoint spec_run (w : Duration) (m : option Matcher) (c : T) (emitted : list (ServiceCall * Time))
    (ops : list pop) : list string * list ServiceCall :=
  match ops with
  | [] => ([], [])
  | PSweep _ :: ops => spec_run w m c emitted ops
  | PCache c :: ops => spec_run w m c emitted ops
  | PRecord r now :: ops =>
      let '(l, e) := judge w m c emitted r now in
      let emitted := match e with Some sc => (sc, now) :: emitted | None => emitted end in
      let '(ls, es) := spec_run w m c emitted ops in
      (l :: ls, match e with Some sc => sc :: es | None => es end)
  end.
End spec.
Arguments pop T : clear implicits.

(** ** Refinement *)

Section refinement.
Context {T W : Type} `{Store T, UIDStore T, PortStore T} {RO : RangeOrder string Time}.
Context (w : Duration) (Hw : 0 < w <= maxInt64).

Definition keyed (emitted : list (ServiceCall * Time)) : list (string * Time) :=
  map (fun '(sc, t) => (Dedup.key sc, t)) emitted.

Lemma recently_keyed emitted k now :
  recently w (keyed emitted) k now =
  existsb (fun '(sc, t) => bool_decide (Dedup.key sc = k) && (now - t <? w)) emitted.
Proof. unfold recently, keyed. induction emitted as [|[sc t] l IH]; cbn; [done|]. by rewrite IH. Qed.

Definition tracks (p : Pipeline T W) (emitted : list (ServiceCall * Time)) (now : Time) : Prop :=
  window (deduper p) = w /\ Dedup.knows w (seen (deduper p)) (keyed emitted) now.

Lemma tracks_deduper p d emitted now :
  window d = w -> Dedup.knows w (seen d) (keyed emitted) now ->
  tracks (set_deduper d p) emitted now.
Proof. by split. Qed.

Lemma Deduper_eta d : window d = w -> d = mkDeduper w (seen d).
Proof. destruct d. by intros <-. Qed.

(** One record does to the implementation what [judge] says. *)
Lemma handle_record_judge r now p emitted :
  tracks p emitted now ->
  let '(l, e) := judge w (matcher p) (cache p) emitted r now in
  let p' := handle_record r now p in
  tracks p' (match e with Some sc => (sc, now) :: emitted | None => emitted end) now /\
  cache p' = cache p /\ matcher p' = matcher p /\ out p' = out p /\
  MRecords (pm p') = MRecords (pm p) ⊕ l /\ Batches (pm p') = Batches (pm p) /\
  world p' = match e with Some sc => out p sc (world p) | None => world p end.
Proof.
  intros [Hwin HK]. unfold judge, handle_record.
  destruct (toEvent r) as [ev|]; [|split; [by split|by split_and!]].
  unfold Handle. set (sc := Enrich _ _ _ _).
  destruct (IsReversedDuplicate ev (Source sc)); [split; [by split|by split_and!]|].
  destruct (ShouldIgnoreCall (matcher p) sc); [split; [by split|by split_and!]|].
  pose proof (Allow_simulates w Hw sc now (seen (deduper p)) (keyed emitted) HK) as Ha.
  rewrite <-(Deduper_eta _ Hwin), recently_keyed in Ha.
  destruct (Dedup.Allow sc now (deduper p)) as [ok d]. destruct Ha as (-> & Hd & HK').
  destruct (existsb _ emitted); cbn [negb] in *; (split; [by split|by split_and!]).
Qed.

Lemma Sweep_tracks now p emitted :
  tracks p emitted now -> tracks (set_deduper (Dedup.Sweep now (deduper p)).2 p) emitted now.
Proof.
  intros [Hwin HK].
  pose proof (Sweep_simulates w Hw now (seen (deduper p)) (keyed emitted) HK) as Hs.
  rewrite <-(Deduper_eta _ Hwin) in Hs. destruct (Dedup.Sweep _ _) as [n d]. destruct Hs. by split.
Qed.

Lemma prun_spec ops : forall now p emitted,
  clock_from now ops -> tracks p emitted now ->
  let '(ls, es) := spec_run w (matcher p) (cache p) emitted ops in
  world (prun ops p) = foldl (fun x sc => out p sc x) (world p) es /\
  MRecords (pm (prun ops p)) = foldl (fun m l => m ⊕ l) (MRecords (pm p)) ls.
Proof.
  induction ops as [|[r t|t|c] ops IH]; intros now p emitted Hclk Ht; [done|..];
    cbn [spec_run prun foldl pstep].
  - destruct Hclk as [Hle Hclk]. destruct Ht as [Hwin HK].
    pose proof (handle_record_judge r t p emitted
      (conj Hwin (knows_later _ _ _ _ _ Hle HK))) as Hj.
    destruct (judge _ _ _ _ _ _) as [l e]. destruct Hj as (Ht & Hc & Hm & Ho & Hr & _ & Hwd).
    specialize (IH t _ _ Hclk Ht). rewrite Hc, Hm, Ho, Hr, Hwd in IH.
    destruct (spec_run _ _ _ _ ops) as [ls es]. destruct IH as [IHw IHm].
    by destruct e.
  - destruct Hclk as [Hle Hclk]. destruct Ht as [Hwin HK].
    apply (IH t (set_deduper (Dedup.Sweep t (deduper p)).2 p) emitted Hclk). apply Sweep_tracks. split; [done|]. by apply (knows_later _ _ _ now).
  - by apply (IH now (set_cache c p)).
Qed.

Lemma New_tracks (c : T) m (o : Sink W) x now : tracks (NewPipeline c m (Dedup.New w) o x) [] now.
Proof. split; [done|]. split; [set_solver|]. intros k. cbn. rewrite lookup_empty. set_solver. Qed.
End refinement.

(** ** Histories *)

Section history.
Context {T W : Type} `{Store T, UIDStore T, PortStore T} {RO : RangeOrder string Time}.

(** Two pipelines that differ at most in the batches they counted. *)
Definition same (p q : Pipeline T W) : Prop :=
  cache p = cache q /\ matcher p = matcher q /\ deduper p = deduper q /\ out p = out q /\
  world p = world q /\ MRecords (pm p) = MRecords (pm q).

Lemma same_pstep o p q : same p q -> same (pstep o p) (pstep o q).
Proof.
  intros (E1 & E2 & E3 & E4 & E5 & E6). destruct o as [r now|now|c]; cbn [pstep].
  - unfold handle_record, Handle. rewrite !E1, !E2, !E3.
    destruct (toEvent r) as [ev|]; [|by split_and!; cbn; rewrite ?E6].
    destruct (IsReversedDuplicate _ _); [by split_and!; cbn; rewrite ?E6|].
    destruct (ShouldIgnoreCall _ _); [by split_and!; cbn; rewrite ?E6|].
    destruct (Dedup.Allow _ _ _) as [[] d]; split_and!; cbn; by rewrite ?E4, ?E5, ?E6.
  - by split_and!; cbn; rewrite ?E3.
  - by split_and!.
Qed.

Definition latest (t0 : Time) (ops : list (pop T)) : Time :=
  foldl (fun t o => match o with PRecord _ t' | PSweep t' => t' | PCache _ => t end) t0 ops.

Lemma clock_from_snoc t0 ops o :
  clock_from t0 ops -> match o with PRecord _ t | PSweep t => latest t0 ops <= t | PCache _ => True end ->
  clock_from t0 (ops ++ [o]).
Proof.
  revert t0. induction ops as [|o' ops IH]; intros t0 Hc Ho; [by destruct o|].
  destruct o'; cbn in *; [destruct Hc; split..|]; auto.
Qed.
End history.

(** C1: the processor refines the declarative pipeline.  Along any sequence of
    records, deduper sweeps and cache updates on a non-decreasing clock, it
    counts each record under the label the specification gives it, and its sink
    receives exactly the specified edges, once each and in order: a record is
    emitted if and only if it is well-formed, not the accepted side of an
    in-cluster connection, not ignored, and no edge with its key was emitted
    less than a window before. *)
Theorem Processor_refines_spec {T W} `{Store T, UIDStore T, PortStore T} {RO : RangeOrder string Time}
    w start (c : T) m (o : Sink W) (x : W) (ops : list (pop T))
    (Hw : 0 < w <= maxInt64) (Hclk : clock_from start ops) :
  let p := prun ops (NewPipeline c m (Dedup.New w) o x) in
  let '(labels, edges) := spec_run w m c [] ops in
  world p = foldl (fun x sc => o sc x) x edges /\
  MRecords (pm p) = foldl (fun m l => m ⊕ l) ∅ labels.
Proof.
  cbv zeta. apply (prun_spec w Hw ops start (NewPipeline c m (Dedup.New w) o x) [] Hclk).
  by apply New_tracks.
Qed.

(** ** Accounting *)

Section accounting.
Context {T W : Type} `{Store T, UIDStore T, PortStore T}.

Definition emits (p : Pipeline T W) (r : FlowRecord) (sc : ServiceCall) : Prop :=
  exists ev, toEvent r = Some ev /\ sc = Enrich ev (cache p) (Some (cache p)) (Some (cache p)) /\
    IsReversedDuplicate ev (Source sc) = false /\ ShouldIgnoreCall (matcher p) sc = false.

(** Every record gets one label, and exactly the emitted ones reach the sink. *)
Lemma handle_record_effects r now p :
  exists l es,
    let p' := handle_record r now p in
    cache p' = cache p /\ matcher p' = matcher p /\ out p' = out p /\
    Batches (pm p') = Batches (pm p) /\ MRecords (pm p') = MRecords (pm p) ⊕ l /\
    (l = resultInvalid <-> toEvent r = None) /\
    world p' = foldl (fun x sc => out p sc x) (world p) es /\
    es = (if decide (l = resultEmitted) then es else []) /\
    (l = resultEmitted -> length es = 1%nat) /\
    forall sc, sc ∈ es -> emits p r sc.
Proof.
  unfold handle_record. destruct (toEvent r) as [ev|] eqn:He.
  2: { exists resultInvalid, []. split_and!; try done. intros sc Hs. by apply elem_of_nil in Hs. }
  unfold Handle. set (sc := Enrich _ _ _ _).
  destruct (IsReversedDuplicate ev (Source sc)) eqn:Hr.
  { exists resultReversedDuplicate, []. split_and!; try done. intros ? Hs. by apply elem_of_nil in Hs. }
  destruct (ShouldIgnoreCall (matcher p) sc) eqn:Hi.
  { exists resultIgnored, []. split_and!; try done. intros ? Hs. by apply elem_of_nil in Hs. }
  destruct (Dedup.Allow sc now (deduper p)) as [ok d]. destruct ok; cbn [negb].
  - exists resultEmitted, [sc]. split_and!; try done.
    intros sc' ->%list_elem_of_singleton. by exists ev.
  - exists resultDuplicate, []. split_and!; try done. intros ? Hs. by apply elem_of_nil in Hs.
Qed.

Lemma handle_records_effects rs : forall clock i p,
  exists edges,
    let p' := handle_records clock i rs p in
    Batches (pm p') = Batches (pm p) /\
    counter_total (MRecords (pm p')) = (counter_total (MRecords (pm p)) + N.of_nat (length rs))%N /\
    (MRecords (pm p'))⟦resultInvalid⟧ =
      ((MRecords (pm p))⟦resultInvalid⟧ + N.of_nat (length (filter (fun r => toEvent r = None) rs)))%N /\
    (MRecords (pm p'))⟦resultEmitted⟧ = ((MRecords (pm p))⟦resultEmitted⟧ + N.of_nat (length edges))%N /\
    world p' = foldl (fun x sc => out p sc x) (world p) edges /\
    forall sc, sc ∈ edges -> exists r, r ∈ rs /\ emits p r sc.
Proof.
  induction rs as [|r rs IH]; intros clock i p; cbn [handle_records].
  - exists []. cbn. rewrite !N.add_0_r. split_and!; try done. intros ? Hs. by apply elem_of_nil in Hs.
  - destruct (handle_record_effects r (clock i) p)
      as (l & es & Hc & Hm & Ho & Hb & Hr & Hinv & Hw & Hes & Hlen & Hem).
    destruct (IH clock (S i) (handle_record r (clock i) p))
      as (edges & IHb & IHt & IHi & IHe & IHw & IHem).
    exists (es ++ edges). rewrite IHb, IHt, IHi, IHe, IHw, Hr, Ho, Hw, Hb.
    rewrite counter_total_inc, filter_cons, length_app, foldl_app. split_and!.
    + done.
    + cbn [length]. lia.
    + destruct (decide (toEvent r = None)) as [Hd|Hd].
      * apply Hinv in Hd as ->. rewrite count_inc_eq. cbn [length]. lia.
      * rewrite count_inc_ne; [done|]. intros ->. by apply Hd, Hinv.
    + destruct (decide (l = resultEmitted)) as [->|Hne].
      * rewrite count_inc_eq, Hlen by done. lia.
      * rewrite count_inc_ne by done. subst es. cbn [length]. lia.
    + done.
    + intros sc [Hs|Hs]%elem_of_app.
      * exists r. split; [by left|auto].
      * destruct (IHem sc Hs) as (r' & Hr' & ev & He & Hsc & Hrev & Hign). exists r'.
        split; [by right|]. exists ev. rewrite Hc in Hsc. rewrite Hm in Hign. by split_and!.
Qed.
End accounting.

(** [Report] never fails and accounts for its whole batch: every record is
    counted under exactly one result, the malformed ones as invalid, and the
    sink receives one edge per record counted as emitted, each the enrichment of
    a well-formed record of the batch that is neither a reversed duplicate nor
    ignored. *)
Lemma Report_accounts {T W} `{Store T, UIDStore T, PortStore T} clock req (p : Pipeline T W) :
  let '(err, p') := Report clock req p in
  err = None /\ Batches (pm p') = Batches (pm p) + 1 /\
  counter_total (MRecords (pm p')) =
    (counter_total (MRecords (pm p)) + N.of_nat (length (Records req)))%N /\
  (MRecords (pm p'))⟦resultInvalid⟧ =
    ((MRecords (pm p))⟦resultInvalid⟧ +
     N.of_nat (length (filter (fun r => toEvent r = None) (Records req))))%N /\
  exists edges,
    (MRecords (pm p'))⟦resultEmitted⟧ = ((MRecords (pm p))⟦resultEmitted⟧ + N.of_nat (length edges))%N /\
    world p' = foldl (fun x sc => out p sc x) (world p) edges /\
    forall sc, sc ∈ edges -> exists r, r ∈ Records req /\ emits p r sc.
Proof.
  unfold Report.
  destruct (handle_records_effects (Records req) clock 0 (inc_batches p))
    as (edges & Hb & Ht & Hi & He & Hw & Hem).
  split_and!; [done|by rewrite Hb|by rewrite Ht|by rewrite Hi|].
  exists edges. by split_and!.
Qed.

(** The two captures of one in-cluster connection yield one edge: the accepted
    side is only counted, whichever side comes first, and leaves emissions and
    suppression exactly as the caller's side alone would; the accepted side of
    a connection from outside the cluster is never dropped as reversed. *)
Lemma two_sided_capture_once {T W} `{Store T, UIDStore T, PortStore T} (p : Pipeline T W)
    evo evi t1 t2
    (Ho : Outbound evo = true) (Hi : Outbound evi = false) (Hsrc : SrcIP evi = SrcIP evo)
    (Huid : SrcPodUID evi = "") :
  (IsExternal (WorkloadForIP (cache p) (SrcIP evo)) = false ->
   Handle evi t1 p = count_record resultReversedDuplicate p /\
   world (Handle evi t2 (Handle evo t1 p)) = world (Handle evo t1 p) /\
   deduper (Handle evi t2 (Handle evo t1 p)) = deduper (Handle evo t1 p) /\
   world (Handle evo t1 (Handle evi t2 p)) = world (Handle evo t1 p) /\
   deduper (Handle evo t1 (Handle evi t2 p)) = deduper (Handle evo t1 p)) /\
  (LookupIP (cache p) (SrcIP evo) = None ->
   let sc := Enrich evi (cache p) (Some (cache p)) (Some (cache p)) in
   WlKind (Source sc) = KindExternal /\
   (ShouldIgnoreCall (matcher p) sc = false -> (Dedup.Allow sc t1 (deduper p)).1 = true ->
    world (Handle evi t1 p) = out p sc (world p))).
Proof.
  assert (forall q : Pipeline T W, cache q = cache p ->
    IsExternal (WorkloadForIP (cache p) (SrcIP evo)) = false ->
    forall t, Handle evi t q = count_record resultReversedDuplicate q) as Hrev.
  { intros q Hq Hin t. unfold Handle, Enrich. rewrite Huid, Hsrc, Hq. cbn [Source].
    unfold IsReversedDuplicate. rewrite Hi. change (bool_decide ("" <> "")) with false.
    cbn [andb]. by rewrite Hin. }
  assert (forall q : Pipeline T W, cache (Handle evo t1 q) = cache q) as Hcache.
  { intros q. unfold Handle. repeat case_match; done. }
  split.
  - intros Hin. rewrite (Hrev p eq_refl Hin t1), (Hrev p eq_refl Hin t2),
      (Hrev (Handle evo t1 p) (Hcache p) Hin t2). split; [done|].
    split; [done|]. split; [done|].
    unfold Handle. cbn [cache matcher deduper count_record].
    set (sc := Enrich evo _ _ _).
    destruct (IsReversedDuplicate evo (Source sc)); [done|].
    destruct (ShouldIgnoreCall (matcher p) sc); [done|].
    destruct (Dedup.Allow sc t1 (deduper p)) as [[] d]; done.
  - intros Hnone. cbv zeta. set (sc := Enrich _ _ _ _).
    assert (Source sc = mkWorkload (AddrString (SrcIP evo)) "" KindExternal) as Hs.
    { unfold sc, Enrich. cbn [Source]. rewrite Huid, Hsrc.
      change (bool_decide ("" <> "")) with false. cbn [andb].
      unfold WorkloadForIP. by rewrite Hnone. }
    split; [by rewrite Hs|]. intros Hign Hok. unfold Handle. fold sc.
    unfold IsReversedDuplicate. rewrite Hs. rewrite Hign.
    change (IsExternal (mkWorkload _ _ KindExternal)) with true. rewrite andb_false_r.
    destruct (Dedup.Allow sc t1 (deduper p)) as [ok d]. cbn in Hok. by subst ok.
Qed.

(** ** Across the wire *)

(** Addresses and widths that the wire format carries. *)
Definition on_wire (ev : ConnectionEvent) : Prop :=
  plain_addr (SrcIP ev) /\ plain_addr (DstIP ev) /\
  0 <= DstPort ev < 2 ^ 16 /\ 0 <= EvProtocol ev < 2 ^ 8.

Lemma plain_addr_wire a : plain_addr a -> AddrFromSlice (AsSlice a) = Some a.
Proof.
  intros (Hwf & Hnz & _ & Hz). rewrite AddrFromSlice_AsSlice by done.
  destruct a as [| |bs z]; [done..|]. cbn in Hz. destruct z; [done|]. done.
Qed.

Lemma toEvent_to_record ev f :
  on_wire ev ->
  toEvent (to_record (event_key ev, f)) =
  Some (mkEvent (SrcIP ev) (DstIP ev) 0 (DstPort ev) (EvProtocol ev) 0 (fl_comm f) (Outbound ev)
          (SrcPodUID ev) (fl_hostname f)).
Proof.
  intros (Hs & Hd & Hport & Hproto). unfold toEvent, to_record, event_key.
  cbn [SrcIp DstIp FrDstPort FrProtocol FrOutbound SrcPodUid FrComm FrDstHostname
       fk_src fk_dst fk_dstPort fk_proto fk_outbound fk_podUID].
  rewrite !plain_addr_wire by done.
  assert (uint32 (DstPort ev) = DstPort ev) as -> by (apply Z.mod_small; lia).
  assert (uint32 (EvProtocol ev) = EvProtocol ev) as -> by (apply Z.mod_small; lia).
  replace (MaxUint16 <? DstPort ev) with false by (unfold MaxUint16; lia).
  replace (MaxUint8 <? EvProtocol ev) with false by (unfold MaxUint8; lia).
  cbn [orb]. destruct Hs as (_ & _ & -> & _), Hd as (_ & _ & -> & _).
  by rewrite uint16_small, uint8_small.
Qed.

(** Enrichment ignores what the wire does not carry. *)
Lemma Enrich_wire {T} `{Store T, UIDStore T, PortStore T} (c : T) ev sport pid comm :
  Enrich (mkEvent (SrcIP ev) (DstIP ev) sport (DstPort ev) (EvProtocol ev) pid comm (Outbound ev)
            (SrcPodUID ev) (DstHostname ev)) c (Some c) (Some c) =
  Enrich ev c (Some c) (Some c).
Proof. done. Qed.

Definition with_hostname (h : string) (ev : ConnectionEvent) : ConnectionEvent :=
  mkEvent (SrcIP ev) (DstIP ev) (SrcPort ev) (DstPort ev) (EvProtocol ev) (PID ev) (Comm ev)
    (Outbound ev) (SrcPodUID ev) h.

Lemma with_key_elem k obs ev t :
  (ev, t) ∈ with_key k obs <-> event_key ev = k /\ (ev, t) ∈ obs.
Proof. unfold with_key. by rewrite list_elem_of_filter. Qed.

Lemma summary_hostname obs f :
  summary obs = Some f -> fl_hostname f = first_nonempty (map (fun o => DstHostname o.1) obs).
Proof. destruct obs as [|[ev t] obs]; [done|]. by intros [= <-]. Qed.

Lemma elem_of_Drain {RO : RangeOrder flowKey flow} a r :
  r ∈ (Drain a).1 <-> exists k f, flows a !! k = Some f /\ r = to_record (k, f).
Proof.
  unfold Drain. cbn [fst]. rewrite list_elem_of_fmap. split.
  - intros ([k f] & -> & Hin). rewrite (range_map_perm (flows a)) in Hin.
    apply elem_of_map_to_list in Hin. eauto.
  - intros (k & f & Hk & ->). exists (k, f). split; [done|].
    rewrite (range_map_perm (flows a)). by apply elem_of_map_to_list.
Qed.

(** Records and observations correspond across the wire. *)
Lemma drained_carries {T} `{Store T, UIDStore T, PortStore T}
    {RO : RangeOrder flowKey flow} (c : T) obs
    (Hobs : forall ev t, (ev, t) ∈ obs -> on_wire ev) :
  let rs := (Drain (add_all obs NewAggregator)).1 in
  let carries r ev :=
    exists ev', toEvent r = Some ev' /\ Outbound ev' = Outbound ev /\
      Enrich ev' c (Some c) (Some c) =
      Enrich (with_hostname
                (first_nonempty (map (fun o => DstHostname o.1) (with_key (event_key ev) obs))) ev)
        c (Some c) (Some c) in
  (forall r, r ∈ rs -> exists ev t, (ev, t) ∈ obs /\ carries r ev) /\
  (forall ev t, (ev, t) ∈ obs -> exists r, r ∈ rs /\ carries r ev).
Proof.
  cbv zeta.
  assert (forall ev t f, (ev, t) ∈ obs -> summary (with_key (event_key ev) obs) = Some f ->
    exists ev', toEvent (to_record (event_key ev, f)) = Some ev' /\ Outbound ev' = Outbound ev /\
      Enrich ev' c (Some c) (Some c) =
      Enrich (with_hostname
                (first_nonempty (map (fun o => DstHostname o.1) (with_key (event_key ev) obs))) ev)
        c (Some c) (Some c)) as Hcarry.
  { intros ev t f Hin Hf. eexists. rewrite (toEvent_to_record ev f) by eauto.
    split; [done|]. split; [done|]. by rewrite (summary_hostname _ _ Hf). }
  split.
  - intros r (k & f & Hk & ->)%elem_of_Drain. rewrite add_all_flows in Hk.
    destruct (with_key k obs) as [|[ev t] l] eqn:Hw; [done|].
    assert (event_key ev = k /\ (ev, t) ∈ obs) as [<- Hin]
      by (apply with_key_elem; rewrite Hw; by left).
    exists ev, t. split; [done|]. apply (Hcarry ev t); [done|]. by rewrite Hw.
  - intros ev t Hin. destruct (summary (with_key (event_key ev) obs)) as [f|] eqn:Hf.
    + exists (to_record (event_key ev, f)). split; [|by apply (Hcarry ev t)].
      apply elem_of_Drain. exists (event_key ev), f. by rewrite add_all_flows.
    + apply summary_None in Hf.
      assert ((ev, t) ∈ with_key (event_key ev) obs) as Hk by (by apply with_key_elem).
      rewrite Hf in Hk. by apply elem_of_nil in Hk.
Qed.

(** The hand-off from collector to processor loses and invents nothing.  Over
    any observations on the wire's domain, every drained record is accepted by
    [toEvent] and enriches exactly as an observation it aggregates does, with
    the first hostname any of them carried; and every observation is aggregated
    into such a record. *)
Lemma wire_preserves_edges {T} `{Store T, UIDStore T, PortStore T}
    {RO : RangeOrder flowKey flow} (c : T) obs
    (Hobs : forall ev t, (ev, t) ∈ obs -> on_wire ev) :
  let rs := (Drain (add_all obs NewAggregator)).1 in
  let carries r ev :=
    exists ev', toEvent r = Some ev' /\ Outbound ev' = Outbound ev /\
      Enrich ev' c (Some c) (Some c) =
      Enrich (with_hostname
                (first_nonempty (map (fun o => DstHostname o.1) (with_key (event_key ev) obs))) ev)
        c (Some c) (Some c) in
  (forall r, r ∈ rs -> exists ev t, (ev, t) ∈ obs /\ carries r ev) /\
  (forall ev t, (ev, t) ∈ obs -> exists r, r ∈ rs /\ carries r ev).
Proof. exact (drained_carries c obs Hobs). Qed.

(** ** Witnesses *)

Definition front_ip : Addr := Addr4 x0a x00 x00 x01.
Definition back_ip : Addr := Addr4 x0a x00 x00 x02.
Definition front : Workload := mkWorkload "frontend" "shop" "Deployment".
Definition back : Workload := mkWorkload "checkout" "shop" "Deployment".
Definition shop_cache : Cache := Upsert (Upsert NewCache front_ip front) back_ip back.
Definition list_sink : Sink (list ServiceCall) := fun sc out => out ++ [sc].
Definition shop_record (outbound : bool) : FlowRecord :=
  mkFlowRecord [x0a; x00; x00; x01] [x0a; x00; x00; x02] 8080 6 outbound "" "" 1 0 0 "".
Definition bad_record : FlowRecord := mkFlowRecord [x0a] [] 8080 6 true "" "" 1 0 0 "".
Definition shop_ops : list (pop Cache) :=
  [PRecord (shop_record true) 0; PRecord (shop_record false) 1; PRecord bad_record 2;
   PRecord (shop_record true) 29; PSweep 30; PRecord (shop_record true) 30].
Definition shop_edge : ServiceCall := mkServiceCall front back 8080 6 "".
Definition shop_event (outbound : bool) : ConnectionEvent :=
  mkEvent front_ip back_ip 0 8080 6 0 "" outbound "" "".

Lemma Processor_refines_spec_witness :
  let p := prun (RO:=canonical_order) shop_ops
             (NewPipeline shop_cache None (Dedup.New 30) list_sink []) in
  spec_run 30 None shop_cache [] shop_ops =
    (["emitted"; "reversed_duplicate"; "invalid"; "duplicate"; "emitted"], [shop_edge; shop_edge]) /\
  world p = [shop_edge; shop_edge] /\ (MRecords (pm p))⟦"emitted"⟧ = 2%N.
Proof.
  cbv zeta.
  pose proof (Processor_refines_spec (RO:=canonical_order) 30 0 shop_cache None list_sink [] shop_ops)
    as H.
  assert (spec_run 30 None shop_cache [] shop_ops =
    (["emitted"; "reversed_duplicate"; "invalid"; "duplicate"; "emitted"], [shop_edge; shop_edge]))
    as Hs by (vm_compute; reflexivity).
  cbv zeta in H. rewrite Hs in H.
  destruct H as [Hw Hm]; [unfold maxInt64; lia|cbn; lia|].
  split; [exact Hs|]. split; [by rewrite Hw|]. by rewrite Hm.
Defined.

Lemma two_sided_capture_once_witness :
  let p := NewPipeline shop_cache None (Dedup.New 30) list_sink [] in
  world (Handle (shop_event false) 1 (Handle (shop_event true) 0 p)) = [shop_edge] /\
  world (Handle (shop_event true) 0 (Handle (shop_event false) 1 p)) = [shop_edge].
Proof.
  cbv zeta. set (p := NewPipeline _ _ _ _ _).
  destruct (two_sided_capture_once p (shop_event true) (shop_event false) 0 1
    eq_refl eq_refl eq_refl eq_refl) as [H _].
  destruct H as (_ & H1 & _ & H2 & _); [by vm_compute|].
  assert (world (Handle (shop_event true) 0 p) = [shop_edge]) as Hw by (vm_compute; reflexivity).
  split; [by rewrite H1|by rewrite H2].
Defined.

Lemma wire_preserves_edges_witness :
  let rs := (Drain (RO:=canonical_order)
               (add_all [(shop_event true, 5)] NewAggregator)).1 in
  exists r, r ∈ rs /\ exists ev', toEvent r = Some ev' /\
    Enrich ev' shop_cache (Some shop_cache) (Some shop_cache) = shop_edge.
Proof.
  cbv zeta.
  destruct (wire_preserves_edges (RO:=canonical_order) shop_cache [(shop_event true, 5)]) as [_ H].
  { intros ev t Hin. apply list_elem_of_singleton in Hin. injection Hin as -> _.
    repeat split; by vm_compute. }
  destruct (H (shop_event true) 5) as (r & Hr & ev' & He & _ & Hen); [by left|].
  exists r. split; [exact Hr|]. exists ev'. split; [exact He|]. rewrite Hen. by vm_compute.
Defined.
