(* ===== verification/Calls.v ===== *)
(** * Calls: concurrent Report calls an operation at a time (internal/processor, internal/enrich)

    gRPC runs every [Report] in a goroutine of its own, so any number of records
    are in [Handle] at once, and the watch layer writes the cache between the
    lookups of one record.  Processor.v takes a record as one step; here a call is
    the atomic operations it is made of: each lookup of [Enrich] under the
    cache's lock, the reading of the clock, [Allow] under the deduper's lock, the
    counter and the sink.  A call that is not interrupted does what
    [handle_record] says ([record_alone]). *)

From S2P Require Import Prelude Golang Netip Model Ignore Dedup Resolver Enrich Emit Wire Processor.
Open Scope string_scope.
Open Scope list_scope.
Open Scope Z_scope.

(** ** Enrich, a lookup at a time *)

Inductive lookup := ByIP (ip : Addr) | ByUID (uid : string) | ByPort (ip : Addr) (port : Z).
Definition answer (q : lookup) : Type :=
  match q with ByIP _ | ByUID _ => option Workload | ByPort _ _ => option string end.
Inductive reader := Found (sc : ServiceCall) | Ask (q : lookup) (k : answer q -> reader).

(** [WorkloadForIP] on what the store answered. *)
Definition peer (ip : Addr) (r : option Workload) : Workload :=
  default (mkWorkload (AddrString ip) "" KindExternal) r.

Definition enrich_dest (ev : ConnectionEvent) (source : Workload) : reader :=
  Ask (ByPort (DstIP ev) (DstPort ev)) (fun l7 =>
  Ask (ByIP (DstIP ev)) (fun d =>
    let dest := peer (DstIP ev) d in
    let dest := if IsExternal dest && bool_decide (DstHostname ev <> "") then set_name (DstHostname ev) dest else dest in
    Found (mkServiceCall source dest (DstPort ev) (EvProtocol ev) (default "" l7)))).
Definition Enrich_prog (ev : ConnectionEvent) : reader :=
  Ask (ByIP (SrcIP ev)) (fun r =>
    let source := peer (SrcIP ev) r in
    if bool_decide (SrcPodUID ev <> "") && (bool_decide (WlKind source = KindNode) || IsExternal source)
    then Ask (ByUID (SrcPodUID ev)) (fun w => enrich_dest ev (default source w))
    else enrich_dest ev source).

Section reader.
Context {T : Type} `{Store T, UIDStore T, PortStore T}.

Definition look (c : T) (q : lookup) : answer q :=
  match q with
  | ByIP ip => LookupIP c ip
  | ByUID uid => LookupUID c uid
  | ByPort ip port => LookupPort c ip port
  end.

(** The reader after lookups in these caches, one after another. *)
Fixpoint ask_all (cs : list T) (p : reader) : reader :=
  match cs, p with
  | c :: cs, Ask q k => ask_all cs (k (look c q))
  | _, _ => p
  end.

(** The edge of an event whose caller was looked up by address in [c1] and by pod
    UID in [c2], and whose destination port and address were in [c3] and [c4]. *)
Definition mixed (ev : ConnectionEvent) (c1 c2 c3 c4 : T) : ServiceCall :=
  let sc := Enrich ev c1 (Some c2) (Some c3) in
  mkServiceCall (Source sc) (Dest (Enrich ev c4 (Some c4) (Some c4))) (DestPort sc) (DestProtocol sc)
    (DestAppProtocol sc).

Lemma mixed_same ev c : mixed ev c c c c = Enrich ev c (Some c) (Some c).
Proof. done. Qed.

Lemma ask_all_Found cs sc : ask_all cs (Found sc) = Found sc.
Proof. by destruct cs. Qed.

Lemma ask_all_snoc cs c q k p :
  ask_all cs p = Ask q k -> ask_all (cs ++ [c]) p = k (look c q).
Proof.
  revert p. induction cs as [|c' cs IH]; intros p; [cbn; by intros ->|].
  destruct p as [sc|q' k']; [done|]. apply IH.
Qed.

(** A record's lookups are three or four, and what they find is a [mixed] edge of
    the caches they were made in. *)
Lemma Enrich_prog_found ev cs sc :
  ask_all cs (Enrich_prog ev) = Found sc ->
  exists c1 c2 c3 c4 cs', sc = mixed ev c1 c2 c3 c4 /\
    (cs = [c1; c2; c3; c4] ++ cs' \/ (c1 = c2 /\ cs = [c2; c3; c4] ++ cs')).
Proof.
  destruct cs as [|c1 cs]; [done|]. cbn [ask_all Enrich_prog look answer].
  change (peer (SrcIP ev) (LookupIP c1 (SrcIP ev))) with (WorkloadForIP c1 (SrcIP ev)).
  destruct (_ && _) eqn:Hu.
  - destruct cs as [|c2 cs]; [done|]. destruct cs as [|c3 cs]; [done|]. destruct cs as [|c4 cs]; [done|].
    cbn [ask_all enrich_dest look answer]. rewrite ask_all_Found. intros [= <-]. exists c1, c2, c3, c4, cs.
    split; [|by left]. unfold mixed, Enrich. cbn [Source Dest DestPort DestProtocol DestAppProtocol].
    rewrite Hu. by destruct (LookupUID c2 (SrcPodUID ev)).
  - destruct cs as [|c3 cs]; [done|]. destruct cs as [|c4 cs]; [done|].
    cbn [ask_all enrich_dest look answer]. rewrite ask_all_Found. intros [= <-]. exists c1, c1, c3, c4, cs.
    split; [|by right]. unfold mixed, Enrich. cbn [Source Dest DestPort DestProtocol DestAppProtocol].
    by rewrite Hu.
Qed.

(** In a cache that stays as it is, the lookups find [Enrich]'s edge. *)
Fixpoint read_all (c : T) (p : reader) : ServiceCall :=
  match p with Found sc => sc | Ask q k => read_all c (k (look c q)) end.
Lemma Enrich_prog_alone c ev : read_all c (Enrich_prog ev) = Enrich ev c (Some c) (Some c).
Proof.
  unfold Enrich_prog, Enrich. cbn [read_all look answer].
  change (peer (SrcIP ev) (LookupIP c (SrcIP ev))) with (WorkloadForIP c (SrcIP ev)).
  destruct (_ && _); [|done]. cbn. by destruct (LookupUID c (SrcPodUID ev)).
Qed.
End reader.

(** ** The server *)

(** Why a record is dropped before the deduper sees it. *)
Definition filtered (m : option Matcher) (ev : ConnectionEvent) (sc : ServiceCall) : option string :=
  if IsReversedDuplicate ev (Source sc) then Some resultReversedDuplicate
  else if ShouldIgnoreCall m sc then Some resultIgnored else None.

Section server.
Context {T W : Type} `{Store T, UIDStore T, PortStore T} {RO : RangeOrder string Time}.
(** What the watch layer does to the cache. *)
Context (changes : T -> T -> Prop) (mt : option Matcher) (sink : Sink W).

(** Where a call is: between two records, in the lookups of one (the caches of
    those done so far are a ghost), before [Allow] with the time it read, before
    a counter, before the sink. *)
Inductive call_pc :=
| NextRecord
| Reading (ev : ConnectionEvent) (cs : list T) (p : reader)
| Allowing (sc : ServiceCall) (now : Time)
| Counting (l : string) (o : option ServiceCall)
| Emitting (sc : ServiceCall).
Record rpc := mkRpc { rpc_rest : list FlowRecord; rpc_at : call_pc }.

(** An edge [Allow] granted: the time given to it and the time it was. *)
Record grant := mkGrant { gr_edge : ServiceCall; gr_now : Time; gr_at : Time }.

(** [sv_received], [sv_found], [sv_granted] and [sv_emitted] are ghosts: the
    records of all calls, the lookups that were completed, the edges granted and
    those that reached the sink. *)
Record serving := mkServing {
  sv_cache : T;
  sv_deduper : Deduper;
  sv_records : gmap string N;
  sv_batches : Z;
  sv_world : W;
  sv_calls : list rpc;
  sv_clock : Time;
  sv_received : list FlowRecord;
  sv_found : list (ConnectionEvent * list T * ServiceCall);
  sv_granted : list grant;
  sv_emitted : list ServiceCall
}.
Definition NewServing (p : Pipeline T W) (start : Time) : serving :=
  mkServing (cache p) (deduper p) (MRecords (pm p)) (Batches (pm p)) (world p) [] start [] [] [] [].

(** Every step but those of the clock and of other goroutines is one operation of
    one call, [mkRpc rs at]. *)
Inductive vstep : serving -> serving -> Prop :=
| v_report c d r b w cs t n fd gr em req :
    vstep (mkServing c d r b w cs t n fd gr em)
      (mkServing c d r (b + 1) w (cs ++ [mkRpc (Records req) NextRecord]) t
         (n ++ Records req) fd gr em)
| v_take c d r b w cs1 cs2 t n fd gr em rec rs :
    vstep (mkServing c d r b w (cs1 ++ mkRpc (rec :: rs) NextRecord :: cs2) t n fd gr em)
      (mkServing c d r b w (cs1 ++ mkRpc rs (match toEvent rec with
         | None => Counting resultInvalid None
         | Some ev => Reading ev [] (Enrich_prog ev) end) :: cs2) t n fd gr em)
| v_look c d r b w cs1 cs2 t n fd gr em rs ev seen q k :
    vstep (mkServing c d r b w (cs1 ++ mkRpc rs (Reading ev seen (Ask q k)) :: cs2) t n fd gr em)
      (mkServing c d r b w (cs1 ++ mkRpc rs (Reading ev (seen ++ [c]) (k (look c q))) :: cs2) t n fd gr em)
(* the filters, and the reading of the clock *)
| v_filter c d r b w cs1 cs2 t n fd gr em rs ev seen sc :
    vstep (mkServing c d r b w (cs1 ++ mkRpc rs (Reading ev seen (Found sc)) :: cs2) t n fd gr em)
      (mkServing c d r b w (cs1 ++ mkRpc rs (match filtered mt ev sc with
         | Some l => Counting l None
         | None => Allowing sc t end) :: cs2) t n (fd ++ [(ev, seen, sc)]) gr em)
| v_allow c d r b w cs1 cs2 t n fd gr em rs sc now ok d' :
    Dedup.Allow sc now d = (ok, d') ->
    vstep (mkServing c d r b w (cs1 ++ mkRpc rs (Allowing sc now) :: cs2) t n fd gr em)
      (mkServing c d' r b w (cs1 ++ mkRpc rs (if ok then Counting resultEmitted (Some sc)
                                              else Counting resultDuplicate None) :: cs2) t n fd
         (if ok then gr ++ [mkGrant sc now t] else gr) em)
| v_count c d r b w cs1 cs2 t n fd gr em rs l o :
    vstep (mkServing c d r b w (cs1 ++ mkRpc rs (Counting l o) :: cs2) t n fd gr em)
      (mkServing c d (r ⊕ l) b w (cs1 ++ mkRpc rs (match o with
         | Some sc => Emitting sc | None => NextRecord end) :: cs2) t n fd gr em)
| v_emit c d r b w cs1 cs2 t n fd gr em rs sc :
    vstep (mkServing c d r b w (cs1 ++ mkRpc rs (Emitting sc) :: cs2) t n fd gr em)
      (mkServing c d r b (sink sc w) (cs1 ++ mkRpc rs NextRecord :: cs2) t n fd gr (em ++ [sc]))
| v_return c d r b w cs1 cs2 t n fd gr em :
    vstep (mkServing c d r b w (cs1 ++ mkRpc [] NextRecord :: cs2) t n fd gr em)
      (mkServing c d r b w (cs1 ++ cs2) t n fd gr em)
| v_clock c d r b w cs t t' n fd gr em :
    t <= t' -> vstep (mkServing c d r b w cs t n fd gr em) (mkServing c d r b w cs t' n fd gr em)
| v_sweep c d r b w cs t n fd gr em now :
    now <= t ->
    vstep (mkServing c d r b w cs t n fd gr em) (mkServing c (Dedup.Sweep now d).2 r b w cs t n fd gr em)
| v_cache c c' d r b w cs t n fd gr em :
    changes c c' -> vstep (mkServing c d r b w cs t n fd gr em) (mkServing c' d r b w cs t n fd gr em).

Definition vreachable (p : Pipeline T W) (start : Time) : serving -> Prop :=
  reachable (fun s => s = NewServing p start) vstep.

(** ** Accounts *)

(** The records a call still has to count, and the edge it still has to send. *)
Definition to_count (pc : call_pc) : nat := match pc with NextRecord | Emitting _ => 0 | _ => 1 end.
Definition uncounted (k : rpc) : nat := length (rpc_rest k) + to_count (rpc_at k).
Definition to_send (pc : call_pc) : list ServiceCall :=
  match pc with Counting _ (Some sc) | Emitting sc => [sc] | _ => [] end.
Definition unsent (k : rpc) : list ServiceCall := to_send (rpc_at k).
(** Only an edge that goes to the sink is counted as emitted. *)
Definition label_ok (pc : call_pc) : Prop :=
  match pc with Counting l o => l = resultEmitted <-> is_Some o | _ => True end.
Definition labelled (k : rpc) : Prop := label_ok (rpc_at k).

Lemma uncounted_mk rs pc : uncounted (mkRpc rs pc) = (length rs + to_count pc)%nat.
Proof. done. Qed.
Lemma unsent_mk rs pc : unsent (mkRpc rs pc) = to_send pc.
Proof. done. Qed.
Lemma labelled_mk rs pc : labelled (mkRpc rs pc) <-> label_ok pc.
Proof. done. Qed.

Record accounts (p : Pipeline T W) (s : serving) : Prop := {
  ac_records : (counter_total (sv_records s) + N.of_nat (sum_list_with uncounted (sv_calls s)) =
    counter_total (MRecords (pm p)) + N.of_nat (length (sv_received s)))%N;
  ac_granted : (gr_edge <$> sv_granted s) ≡ₚ sv_emitted s ++ (sv_calls s ≫= unsent);
  ac_world : sv_world s = foldl (fun x sc => sink sc x) (world p) (sv_emitted s);
  ac_labels : Forall labelled (sv_calls s)
}.

Lemma filtered_label ev sc l : filtered mt ev sc = Some l -> l <> resultEmitted.
Proof. unfold filtered. repeat case_match; intros [= <-]; done. Qed.

Lemma accounts_step p s s' : accounts p s -> vstep s s' -> accounts p s'.
Proof.
  intros [A1 A2 A3 A4] Hs. destruct Hs; try (by split);
    try destruct (toEvent rec); try destruct (filtered mt ev sc) as [l|] eqn:Hf; try destruct ok;
    try destruct o;
    (split; cbn [sv_records sv_calls sv_received sv_granted sv_emitted sv_world] in *;
    rewrite ?sum_list_with_app, ?length_app, ?bind_app, ?bind_cons, ?Forall_app, ?Forall_cons in *;
    cbn [sum_list_with] in *;
    rewrite ?uncounted_mk, ?unsent_mk, ?labelled_mk, ?counter_total_inc in *;
    cbn [to_count to_send label_ok length app mbind list_bind] in *;
    try done; try lia; try naive_solver lia).
  - by rewrite app_nil_r.
  - apply filtered_label in Hf. split_and!; [apply A4| |apply A4]. split; [done|by intros [? ?]].
  - rewrite fmap_app, A2. cbn [fmap list_fmap gr_edge].
    by rewrite (Permutation_app_comm _ [sc]), <-!Permutation_middle.
  - split_and!; [apply A4|by eauto|apply A4].
  - rewrite A2, <-(app_assoc em). cbn [app]. by rewrite <-!Permutation_middle.
  - by rewrite foldl_snoc, A3.
Qed.

Lemma accounts_reachable p start s : vreachable p start s -> accounts p s.
Proof.
  revert s. apply (reachable_invariant _ _ (accounts p)); [|intros; by eapply accounts_step].
  intros ? ->. split; [cbn; lia|done..].
Qed.

(** ** What the edges say *)

(** The cache held these values one after another, and then [c]. *)
Fixpoint successive (cs : list T) (c : T) : Prop :=
  match cs with [] => True | c1 :: cs => rtc changes c1 (hd c cs) /\ successive cs c end.

Lemma successive_snoc cs c : successive cs c -> successive (cs ++ [c]) c.
Proof.
  induction cs as [|c1 cs IH]; cbn; [by split; [apply rtc_refl|]|]. intros [H1' H2']. split; [|by apply IH].
  by destruct cs.
Qed.
Lemma successive_change cs c c' : changes c c' -> successive cs c -> successive cs c'.
Proof.
  intros Hc. induction cs as [|c1 cs IH]; [done|]. cbn. intros [H1' H2']. split; [|by apply IH].
  destruct cs; [|done]. cbn in *. by eapply rtc_r.
Qed.

(** A completed lookup of [sc] for [ev]. *)
Definition looked_up (c : T) (f : ConnectionEvent * list T * ServiceCall) : Prop :=
  let '(ev, cs, sc) := f in ask_all cs (Enrich_prog ev) = Found sc /\ successive cs c.
Definition passed (fd : list (ConnectionEvent * list T * ServiceCall)) (sc : ServiceCall) : Prop :=
  exists ev cs, (ev, cs, sc) ∈ fd /\ filtered mt ev sc = None.
Definition reading_ok (c : T) (fd : list (ConnectionEvent * list T * ServiceCall)) (t : Time) (k : rpc) : Prop :=
  match rpc_at k with
  | Reading ev cs p => ask_all cs (Enrich_prog ev) = p /\ successive cs c
  | Allowing sc now => passed fd sc /\ now <= t
  | _ => True
  end.
Definition granted_ok (fd : list (ConnectionEvent * list T * ServiceCall)) (t : Time) (g : grant) : Prop :=
  passed fd (gr_edge g) /\ gr_now g <= gr_at g <= t.

Record identified (s : serving) : Prop := {
  id_calls : Forall (reading_ok (sv_cache s) (sv_found s) (sv_clock s)) (sv_calls s);
  id_found : Forall (looked_up (sv_cache s)) (sv_found s);
  id_granted : Forall (granted_ok (sv_found s) (sv_clock s)) (sv_granted s)
}.

Lemma passed_more fd f sc : passed fd sc -> passed (fd ++ [f]) sc.
Proof. intros (ev & cs & Hin & Hf). exists ev, cs. split; [by apply elem_of_app; left|done]. Qed.
Lemma reading_ok_found c fd f t k : reading_ok c fd t k -> reading_ok c (fd ++ [f]) t k.
Proof. unfold reading_ok. destruct (rpc_at k); try done. intros [? ?]. split; [by apply passed_more|done]. Qed.
Lemma reading_ok_change c c' fd t k : changes c c' -> reading_ok c fd t k -> reading_ok c' fd t k.
Proof.
  intros Hc. unfold reading_ok. destruct (rpc_at k); try done. intros [? ?].
  split; [done|by eapply successive_change].
Qed.
Lemma reading_ok_later c fd t t' k : t <= t' -> reading_ok c fd t k -> reading_ok c fd t' k.
Proof. intros Hc. unfold reading_ok. destruct (rpc_at k); try done. intros [? ?]. split; [done|lia]. Qed.
Lemma granted_ok_found fd f t g : granted_ok fd t g -> granted_ok (fd ++ [f]) t g.
Proof. intros [? ?]. split; [by apply passed_more|done]. Qed.
Lemma granted_ok_later fd t t' g : t <= t' -> granted_ok fd t g -> granted_ok fd t' g.
Proof. intros ? [? ?]. split; [done|lia]. Qed.
Lemma looked_up_change c c' f : changes c c' -> looked_up c f -> looked_up c' f.
Proof. destruct f as [[ev cs] sc]. intros ? [? ?]. split; [done|by eapply successive_change]. Qed.

(** A call moves on to [pc]; nothing it knows is lost. *)
Lemma identified_call c fd t cs1 k k' cs2 :
  Forall (reading_ok c fd t) (cs1 ++ k :: cs2) -> reading_ok c fd t k' ->
  Forall (reading_ok c fd t) (cs1 ++ k' :: cs2).
Proof. rewrite !Forall_app, !Forall_cons. tauto. Qed.

Lemma identified_step s s' : identified s -> vstep s s' -> identified s'.
Proof.
  intros [I1 I2 I3] Hs. destruct Hs; split;
    cbn [sv_cache sv_calls sv_found sv_granted sv_clock] in *; try done;
    try (eapply identified_call; [exact I1|]; try done).
  - apply Forall_app. split; [done|]. by apply Forall_singleton.
  - by destruct (toEvent rec).
  - rewrite Forall_app, Forall_cons in I1. destruct I1 as (_ & [Ha Hs] & _).
    split; [by apply ask_all_snoc|by apply successive_snoc].
  - apply (identified_call _ _ _ _ (mkRpc rs (Reading ev seen (Found sc)))).
    + eapply Forall_impl; [exact I1|]. intros k. apply reading_ok_found.
    + destruct (filtered mt ev sc) as [l|] eqn:Hf; [done|]. split; [|done].
      exists ev, seen. split; [|done]. apply elem_of_app. right. by apply list_elem_of_singleton.
  - rewrite Forall_app, Forall_cons in I1. apply Forall_app. split; [done|]. apply Forall_singleton, I1.
  - eapply Forall_impl; [exact I3|]. intros g. apply granted_ok_found.
  - by destruct ok.
  - destruct ok; [|done]. rewrite Forall_app, Forall_cons in I1. apply Forall_app. split; [done|].
    apply Forall_singleton. destruct I1 as (_ & [Hp Hn] & _). split; [done|cbn; lia].
  - by destruct o.
  - rewrite Forall_app, Forall_cons in I1. apply Forall_app. tauto.
  - eapply Forall_impl; [exact I1|]. intros k. by apply reading_ok_later.
  - eapply Forall_impl; [exact I3|]. intros g. by apply granted_ok_later.
  - eapply Forall_impl; [exact I1|]. intros k. by apply reading_ok_change.
  - eapply Forall_impl; [exact I2|]. intros f. by apply looked_up_change.
Qed.

Lemma identified_reachable p start s : vreachable p start s -> identified s.
Proof.
  revert s. apply (reachable_invariant _ _ identified); [|intros; by eapply identified_step].
  intros ? ->. by split.
Qed.

(** ** The window *)

Section window.
Context (w : Duration) (Hw : 0 < w <= maxInt64).

Definition same_key (sc sc' : ServiceCall) : Prop := Dedup.key sc = Dedup.key sc'.
(** From the reading of the clock for the first to the grant of the second. *)
Definition spaced (grs : list grant) : Prop :=
  forall i j g g', (i < j)%nat -> grs !! i = Some g -> grs !! j = Some g' ->
    same_key (gr_edge g) (gr_edge g') -> gr_now g + w <= gr_at g'.
(** What the deduper still knows of a grant: its time, or that its window has
    passed. *)
Definition known (seen : gmap string Time) (t : Time) (g : grant) : Prop :=
  (exists u, seen !! Dedup.key (gr_edge g) = Some u /\ gr_now g <= u) \/ gr_now g + w <= t.
Definition sourced (grs : list grant) (seen : gmap string Time) : Prop :=
  forall k u, seen !! k = Some u -> exists g, g ∈ grs /\ Dedup.key (gr_edge g) = k /\ gr_now g = u.

Record windowed (s : serving) : Prop := {
  wd_window : window (sv_deduper s) = w;
  wd_known : Forall (known (seen (sv_deduper s)) (sv_clock s)) (sv_granted s);
  wd_sourced : sourced (sv_granted s) (seen (sv_deduper s));
  wd_spaced : spaced (sv_granted s);
  wd_times : Forall (fun k => match rpc_at k with Allowing _ now => now <= sv_clock s | _ => True end) (sv_calls s)
}.

Lemma spaced_snoc grs g' :
  spaced grs -> Forall (fun g => same_key (gr_edge g) (gr_edge g') -> gr_now g + w <= gr_at g') grs ->
  spaced (grs ++ [g']).
Proof.
  intros Hs Hall i j g g'' Hij Hi Hj.
  apply lookup_snoc_Some in Hj as [[Hlj Hj]|[-> <-]].
  - rewrite lookup_app_l in Hi by lia. by apply (Hs i j).
  - rewrite lookup_app_l in Hi by lia. rewrite Forall_lookup in Hall. by apply (Hall i).
Qed.

(** What [Allow] answers and leaves. *)
Lemma Allow_cases sc now d :
  window d = w ->
  let '(ok, d') := Dedup.Allow sc now d in
  window d' = w /\
  if ok then seen d' = <[Dedup.key sc := now]> (seen d) /\
             forall u, seen d !! Dedup.key sc = Some u -> u + w <= now
  else d' = d /\ exists u, seen d !! Dedup.key sc = Some u /\ now < u + w.
Proof.
  intros Hd. unfold Dedup.Allow. rewrite Hd. replace (w <=? 0) with false by lia.
  destruct (seen d !! Dedup.key sc) as [u|] eqn:Hu; [|by split_and!].
  rewrite Sub_ltb by done. destruct (Z.ltb_spec (now - u) w).
  - split; [done|]. split; [done|]. exists u. split; [done|lia].
  - split_and!; [done..|]. intros ? [= <-]. lia.
Qed.

Lemma Sweep_cases now d :
  window d = w ->
  window (Dedup.Sweep now d).2 = w /\
  forall k, seen (Dedup.Sweep now d).2 !! k = seen d !! k \/
    (seen (Dedup.Sweep now d).2 !! k = None /\ exists u, seen d !! k = Some u /\ u + w <= now).
Proof.
  intros Hd. unfold Dedup.Sweep. rewrite Hd. replace (w <=? 0) with false by lia.
  pose proof (sweep_map_lookup (fun last => w <=? Sub now last) (seen d)) as Hl.
  destruct (sweep_map _ (seen d)) as [n seen'] eqn:Es. cbn in *. split; [done|].
  intros k. rewrite Hl. destruct (seen d !! k) as [u|]; [|by left].
  destruct (w <=? Sub now u) eqn:He; [|by left]. right. split; [done|]. exists u. split; [done|].
  pose proof (Sub_ltb w Hw now u). lia.
Qed.

Lemma known_later seen t t' g : t <= t' -> known seen t g -> known seen t' g.
Proof. intros Ht [?|?]; [by left|right; lia]. Qed.

(** After a grant for [sc] at [t], on a clock read at [now]. *)
Lemma known_granted m t sc now g :
  now <= t -> (forall u, m !! Dedup.key sc = Some u -> u + w <= now) -> known m t g ->
  known (<[Dedup.key sc := now]> m) t g /\ (same_key (gr_edge g) sc -> gr_now g + w <= t).
Proof.
  intros Ht Hu Hk.
  assert (same_key (gr_edge g) sc -> gr_now g + w <= t) as Hsp.
  { intros He. destruct Hk as [(u & Hm & Hle)|?]; [|done]. rewrite He in Hm. specialize (Hu u Hm). lia. }
  split; [|done]. destruct (decide (Dedup.key (gr_edge g) = Dedup.key sc)) as [He|Hne]; [right; by apply Hsp|].
  destruct Hk as [(u & Hm & Hle)|?]; [|by right]. left. exists u. by rewrite lookup_insert_ne.
Qed.

Lemma windowed_step s s' : windowed s -> vstep s s' -> windowed s'.
Proof.
  intros [W1 W2 W3 W4 W5] Hs.
  destruct Hs; try (split; cbn in *; try done; rewrite ?Forall_app, ?Forall_cons in *; cbn [rpc_at] in *;
    repeat case_match; naive_solver lia).
  - split; cbn in *; try done. apply Forall_app. split; [done|]. by apply Forall_singleton.
  - pose proof (Allow_cases sc now d W1) as Ha. cbn in *. rewrite H2 in Ha. destruct Ha as [Hd Ha].
    rewrite Forall_app, Forall_cons in W5. destruct W5 as (W5 & Hn & W6). cbn [rpc_at] in Hn.
    destruct ok; [destruct Ha as [Hs Hu]|destruct Ha as [-> _]].
    + assert (Forall (fun g => known (seen d') t g /\ (same_key (gr_edge g) sc -> gr_now g + w <= t)) gr) as Hall.
      { eapply Forall_impl; [exact W2|]. intros g Hg. rewrite Hs. by apply known_granted. }
      split; cbn; [done| | | |].
      * apply Forall_app. split; [eapply Forall_impl; [exact Hall|]; by intros g [? _]|].
        apply Forall_singleton. left. exists now. by rewrite Hs, lookup_insert_eq.
      * intros k u. rewrite Hs, lookup_insert. case_decide as Hk.
        -- intros [= <-]. exists (mkGrant sc now t). split; [|done]. apply elem_of_app. right. by left.
        -- intros Hu'. destruct (W3 k u Hu') as (g & Hg & ?). exists g. split; [by apply elem_of_app; left|done].
      * apply spaced_snoc; [done|]. eapply Forall_impl; [exact Hall|]. by intros g [_ ?].
      * by rewrite Forall_app, Forall_cons.
    + split; cbn; try done. by rewrite Forall_app, Forall_cons.
  - split; cbn in *; try done.
    + eapply Forall_impl; [exact W2|]. intros g. by apply known_later.
    + eapply Forall_impl; [exact W5|]. cbn. intros k. case_match; done || lia.
  - cbn in *. destruct (Sweep_cases now d W1) as [Hd Hl]. split; cbn; try done.
    + eapply Forall_impl; [exact W2|]. intros g [(u & Hu & Hle)|?]; [|by right].
      destruct (Hl (Dedup.key (gr_edge g))) as [He|(_ & u' & Hu' & Hex)].
      * left. exists u. by rewrite He.
      * right. rewrite Hu in Hu'. injection Hu' as <-. lia.
    + intros k u Hu. destruct (Hl k) as [He|[He _]]; rewrite He in Hu; [by apply W3|done].
Qed.

Lemma windowed_reachable (c : T) (x : W) start s :
  vreachable (NewPipeline c mt (Dedup.New w) sink x) start s -> windowed s.
Proof.
  revert s. apply (reachable_invariant _ _ windowed); [|intros; by eapply windowed_step].
  intros ? ->. split; cbn; try done.
Qed.
End window.

(** ** A record that is not interrupted *)

Lemma looks_alone c d r b w cs1 cs2 t n fd gr em rs ev p : forall seen,
  exists seen', rtc vstep
    (mkServing c d r b w (cs1 ++ mkRpc rs (Reading ev seen p) :: cs2) t n fd gr em)
    (mkServing c d r b w (cs1 ++ mkRpc rs (Reading ev seen' (Found (read_all c p))) :: cs2) t n fd gr em).
Proof.
  induction p as [sc|q k IH]; intros seen; [exists seen; apply rtc_refl|].
  destruct (IH (look c q) (seen ++ [c])) as (seen' & Hs). exists seen'.
  eapply rtc_l; [apply v_look|exact Hs].
Qed.

Lemma record_alone c d r b w cs1 cs2 t n fd gr em rec rs :
  let p' := handle_record rec t (mkPipeline c mt d sink w (mkMetrics r b)) in
  exists fd' gr' em', rtc vstep
    (mkServing c d r b w (cs1 ++ mkRpc (rec :: rs) NextRecord :: cs2) t n fd gr em)
    (mkServing c (deduper p') (MRecords (pm p')) b (world p') (cs1 ++ mkRpc rs NextRecord :: cs2) t n fd' gr' em').
Proof.
  cbv zeta. unfold handle_record. pose proof (v_take c d r b w cs1 cs2 t n fd gr em rec rs) as Ht.
  destruct (toEvent rec) as [ev|].
  2: { exists fd, gr, em. eapply rtc_l; [exact Ht|]. apply rtc_once.
       apply (v_count c d r b w cs1 cs2 t n fd gr em rs resultInvalid None). }
  destruct (looks_alone c d r b w cs1 cs2 t n fd gr em rs ev (Enrich_prog ev) []) as (seen & Hl).
  rewrite Enrich_prog_alone in Hl. unfold Handle. cbn [cache matcher deduper].
  set (sc := Enrich ev c (Some c) (Some c)) in *.
  pose proof (v_filter c d r b w cs1 cs2 t n fd gr em rs ev seen sc) as Hf. unfold filtered in Hf.
  destruct (IsReversedDuplicate ev (Source sc)); [|destruct (ShouldIgnoreCall mt sc)].
  1, 2: eexists _, gr, em; eapply rtc_l; [exact Ht|]; etrans; [exact Hl|]; eapply rtc_l; [exact Hf|];
    apply rtc_once; apply (v_count c d r b w cs1 cs2 t n _ gr em rs _ None).
  destruct (Dedup.Allow sc t d) as [ok d'] eqn:Ha.
  pose proof (v_allow c d r b w cs1 cs2 t n (fd ++ [(ev, seen, sc)]) gr em rs sc t ok d' Ha) as Hg.
  destruct ok; cbn [negb].
  - eexists _, _, (em ++ [sc]). eapply rtc_l; [exact Ht|]. etrans; [exact Hl|]. eapply rtc_l; [exact Hf|].
    eapply rtc_l; [exact Hg|]. eapply rtc_l; [apply (v_count c d' r b w cs1 cs2 t n _ _ em rs resultEmitted (Some sc))|].
    apply rtc_once. apply (v_emit c d' _ b w).
  - eexists _, _, em. eapply rtc_l; [exact Ht|]. etrans; [exact Hl|]. eapply rtc_l; [exact Hf|].
    eapply rtc_l; [exact Hg|]. apply rtc_once. apply (v_count c d' r b w cs1 cs2 t n _ _ em rs _ None).
Qed.

(** ** Whose edges they are *)

(** A call handles records that were received, and a lookup is of one of them. *)
Definition event_of (received : list FlowRecord) (ev : ConnectionEvent) : Prop :=
  exists rec, rec ∈ received /\ toEvent rec = Some ev.
Definition call_from (received : list FlowRecord) (k : rpc) : Prop :=
  Forall (fun rec => rec ∈ received) (rpc_rest k) /\
  match rpc_at k with Reading ev _ _ => event_of received ev | _ => True end.
Definition found_from (received : list FlowRecord) (f : ConnectionEvent * list T * ServiceCall) : Prop :=
  event_of received f.1.1.
Record received_only (s : serving) : Prop := {
  sr_calls : Forall (call_from (sv_received s)) (sv_calls s);
  sr_found : Forall (found_from (sv_received s)) (sv_found s)
}.

Lemma event_of_more n n' ev : event_of n ev -> event_of (n ++ n') ev.
Proof. intros (rec & Hin & He). exists rec. split; [apply elem_of_app; by left|done]. Qed.
Lemma call_from_more n n' k : call_from n k -> call_from (n ++ n') k.
Proof.
  intros [Hr Ha]. split.
  - eapply Forall_impl; [exact Hr|]. intros rec Hin. apply elem_of_app. by left.
  - destruct (rpc_at k); try done. by apply event_of_more.
Qed.
Lemma call_from_call n cs1 k k' cs2 :
  Forall (call_from n) (cs1 ++ k :: cs2) -> (call_from n k -> call_from n k') ->
  Forall (call_from n) (cs1 ++ k' :: cs2).
Proof. rewrite !Forall_app, !Forall_cons. tauto. Qed.

Lemma received_only_step s s' : received_only s -> vstep s s' -> received_only s'.
Proof.
  intros [S1 S2] Hs. destruct Hs; split; cbn [sv_received sv_calls sv_found] in *; try done;
    try (eapply call_from_call; [exact S1|]; intros [Hr Ha]; split; try done; cbn in * ).
  - apply Forall_app. split.
    + eapply Forall_impl; [exact S1|]. intros k. apply call_from_more.
    + apply Forall_singleton. split; [|done]. apply Forall_forall. intros rec Hin. apply elem_of_app. by right.
  - eapply Forall_impl; [exact S2|]. intros f. apply event_of_more.
  - by apply Forall_cons in Hr as [_ Hr].
  - apply Forall_cons in Hr as [Hin _]. destruct (toEvent rec) as [ev|] eqn:He; [|done]. by exists rec.
  - by destruct (filtered mt ev sc).
  - apply Forall_app. split; [done|]. apply Forall_singleton.
    rewrite Forall_app, Forall_cons in S1. by destruct S1 as (_ & [_ Ha] & _).
  - by destruct ok.
  - by destruct o.
  - rewrite Forall_app, Forall_cons in S1. apply Forall_app. tauto.
Qed.

Lemma received_only_reachable p start s : vreachable p start s -> received_only s.
Proof.
  apply reachable_invariant; [|apply received_only_step]. intros ? ->. by split.
Qed.

(** An edge at the sink is that of a record received, with every identity from a
    value the cache held. *)
Lemma emitted_identified p start s sc :
  vreachable p start s -> sc ∈ sv_emitted s -> exists ev c1 c2 c3 c4,
    event_of (sv_received s) ev /\ sc = mixed ev c1 c2 c3 c4 /\ filtered mt ev sc = None /\
    rtc changes c1 c2 /\ rtc changes c2 c3 /\ rtc changes c3 c4 /\ rtc changes c4 (sv_cache s).
Proof.
  intros Hs Hsc. destruct (accounts_reachable _ _ _ Hs) as [_ A2 _ _]. destruct (identified_reachable _ _ _ Hs) as [_ I2 I3].
  assert (sc ∈ gr_edge <$> sv_granted s) as (g & -> & Hg)%list_elem_of_fmap
    by (rewrite A2; apply elem_of_app; by left).
  rewrite Forall_forall in I2. rewrite Forall_forall in I3. destruct (I3 g Hg) as [(ev & cs & Hin & Hf) _].
  destruct (I2 _ Hin) as [Ha Hsu].
  destruct (Enrich_prog_found _ _ _ Ha) as (c1 & c2 & c3 & c4 & cs' & Hm & Hcs).
  pose proof (sr_found _ (received_only_reachable _ _ _ Hs)) as Hsrc. rewrite Forall_forall in Hsrc. specialize (Hsrc _ Hin).
  exists ev, c1, c2, c3, c4. split; [exact Hsrc|]. split; [done|]. split; [done|].
  assert (forall c4, successive (c4 :: cs') (sv_cache s) -> rtc changes c4 (sv_cache s)) as Hlast.
  { clear. induction cs' as [|c5 cs' IH]; cbn; [by intros ? [? _]|]. intros c4 [Hr Hs]. etrans; [exact Hr|]. by apply IH. }
  destruct Hcs as [->|[-> ->]]; cbn in Hsu.
  - destruct Hsu as (? & ? & ? & Hr). split_and!; try done. by apply Hlast.
  - destruct Hsu as (? & ? & Hr). split_and!; try done. by apply Hlast.
Qed.

(** ** Properties *)

(** C6: concurrent [Report] calls.  However many calls run at once, operation by
    operation, with the watch layer's writes and the deduper's sweeps between any
    two of them: every record received has been counted under exactly one label
    or is still in a call; every edge the deduper granted reaches the sink
    exactly once, or is in a call on its way there; and each edge that reached
    it is that of a record received and got every identity from a value the cache held during that record's
    lookups, in their order, passing the filters with them.  With a cache that
    does not change these values are one, and the edge [Enrich]'s. *)
Theorem concurrent_calls_account (p : Pipeline T W) start s (Hs : vreachable p start s) :
  (counter_total (sv_records s) + N.of_nat (sum_list_with uncounted (sv_calls s)) =
     counter_total (MRecords (pm p)) + N.of_nat (length (sv_received s)))%N /\
  (gr_edge <$> sv_granted s) ≡ₚ sv_emitted s ++ (sv_calls s ≫= unsent) /\
  sv_world s = foldl (fun x sc => sink sc x) (world p) (sv_emitted s) /\
  forall sc, sc ∈ sv_emitted s -> exists ev c1 c2 c3 c4,
    event_of (sv_received s) ev /\ sc = mixed ev c1 c2 c3 c4 /\ filtered mt ev sc = None /\
    rtc changes c1 c2 /\ rtc changes c2 c3 /\ rtc changes c3 c4 /\ rtc changes c4 (sv_cache s).
Proof.
  destruct (accounts_reachable _ _ _ Hs) as [A1 A2 A3 _]. split_and!; [done..|]. intros sc. by apply (emitted_identified p start).
Qed.

(** C14: the deduper's window under concurrency.  Whatever the order in which calls
    reach the deduper, and however late with respect to the clock they read
    before and to the sweeps between them: from the time at which the clock was
    read for an edge that was granted to the time at which the next edge with
    its key is granted, at least a window passes; and an edge is only ever
    refused for one with its key that was granted less than a window before the
    time it is offered with. *)
Theorem concurrent_window w (c : T) (x : W) start s (Hw : 0 < w <= maxInt64)
    (Hs : vreachable (NewPipeline c mt (Dedup.New w) sink x) start s) :
  (forall i j g g', (i < j)%nat -> sv_granted s !! i = Some g -> sv_granted s !! j = Some g' ->
     Dedup.key (gr_edge g) = Dedup.key (gr_edge g') -> gr_now g + w <= gr_at g') /\
  (forall g, g ∈ sv_granted s -> gr_now g <= gr_at g <= sv_clock s) /\
  (forall sc now, (Dedup.Allow sc now (sv_deduper s)).1 = false ->
     exists g, g ∈ sv_granted s /\ Dedup.key (gr_edge g) = Dedup.key sc /\ now < gr_now g + w).
Proof.
  destruct (windowed_reachable w Hw _ _ _ _ Hs) as [W1 _ W3 W4 _].
  destruct (identified_reachable _ _ _ Hs) as [_ _ I3]. split_and!; [exact W4| |].
  - intros g Hg. rewrite Forall_forall in I3. by destruct (I3 g Hg).
  - intros sc now Ha. pose proof (Allow_cases w Hw sc now (sv_deduper s) W1) as Hc.
    destruct (Dedup.Allow sc now (sv_deduper s)) as [ok d']. cbn in Ha. subst ok.
    destruct Hc as (_ & _ & u & Hu & Hlt). destruct (W3 _ _ Hu) as (g & Hg & Hk & <-). by exists g.
Qed.
End server.

(** ** Witnesses *)

Section run.
#[local] Instance call_times : RangeOrder string Time := canonical_order.

Definition any_change (c c' : Resolver.Cache) : Prop := exists x, c' = apply_write c x.
Definition busy_pipeline : Pipeline Resolver.Cache (list ServiceCall) :=
  NewPipeline shop_cache None (Dedup.New 30) list_sink [].
(** The destination is replaced while a record is looked up. *)
Definition moved_back : Workload := mkWorkload "payments" "shop" "Deployment".
Definition busy_serving : Type := @serving Resolver.Cache (list ServiceCall).
Definition busy (s : busy_serving) : Prop := vreachable any_change None list_sink busy_pipeline 0 s.

Lemma busy_then s s' : busy s -> vstep any_change None list_sink s s' -> busy s'.
Proof. apply reach_step. Qed.

(** The next step of the call after those of [cs1]. *)
Ltac go_on H cs1 :=
  eapply busy_then in H;
  [|first [ eapply (v_take _ _ _ _ _ _ _ _ cs1) | eapply (v_look _ _ _ _ _ _ _ _ cs1)
          | eapply (v_filter _ _ _ _ _ _ _ _ cs1) | eapply (v_allow _ _ _ _ _ _ _ _ cs1); vm_compute; reflexivity
          | eapply (v_count _ _ _ _ _ _ _ _ cs1) | eapply (v_emit _ _ _ _ _ _ _ _ cs1) ]];
  cbn [app] in H.

Definition one_record : ReportRequest := mkReportRequest "n1" [shop_record true].

Lemma busy_run :
  exists s, busy s /\ length (sv_granted s) = 2%nat /\ sv_emitted s = [mkServiceCall front moved_back 8080 6 ""].
Proof.
  pose proof (reach_init _ (vstep any_change None list_sink) _ eq_refl : busy _) as H.
  do 3 (eapply busy_then in H; [|apply (v_report _ _ _ _ _ _ _ _ _ _ _ _ _ _ one_record)]; cbn in H).
  do 2 go_on H uconstr:([]).
  eapply busy_then in H; [|apply v_cache; exists (WUpsert back_ip moved_back); reflexivity].
  do 6 go_on H uconstr:([]).
  do 6 go_on H uconstr:([_]).
  eapply busy_then in H; [|apply v_clock with (t' := 31); vm_compute; discriminate].
  do 6 go_on H uconstr:([_; _]).
  eexists. split; [exact H|]. split; vm_compute; reflexivity.
Qed.

Lemma concurrent_calls_account_witness :
  exists s, busy s /\ exists ev c1 c2 c3 c4, mkServiceCall front moved_back 8080 6 "" = mixed ev c1 c2 c3 c4 /\
    rtc any_change c3 c4 /\ rtc any_change c4 (sv_cache s).
Proof.
  destruct busy_run as (s & Hs & _ & He). exists s. split; [exact Hs|].
  destruct (concurrent_calls_account any_change None list_sink busy_pipeline 0 s Hs) as (_ & _ & _ & H).
  destruct (H (mkServiceCall front moved_back 8080 6 "")) as (ev & c1 & c2 & c3 & c4 & _ & ? & _ & _ & _ & ? & ?).
  { rewrite He. by left. }
  by exists ev, c1, c2, c3, c4.
Defined.

Lemma concurrent_window_witness :
  exists s, busy s /\ exists g g', sv_granted s = [g; g'] /\
    (Dedup.key (gr_edge g) = Dedup.key (gr_edge g') -> gr_now g + 30 <= gr_at g').
Proof.
  destruct busy_run as (s & Hs & Hg & _). exists s. split; [exact Hs|].
  destruct (concurrent_window any_change None list_sink 30 shop_cache [] 0 s ltac:(unfold maxInt64; lia) Hs) as (H & _).
  destruct (sv_granted s) as [|g [|g' [|]]]; try done. exists g, g'. split; [reflexivity|].
  apply (H 0%nat 1%nat g g'); [lia|reflexivity|reflexivity].
Defined.
End run.
