(* ===== verification/Delivery.v ===== *)
(** * Delivery: from a collector's queue to the processor's output (internal/collector/sender.go, internal/processor)

    A collector's sender and the processor it reports to, with the network
    between them.  [Report] is a remote call: the request may be lost, handled
    and its reply lost, or handled after the sender has given up and sent the
    batch again.  [nstep] runs the sender of Sender.v, the requests in flight and
    the pipeline of Processor.v together, a record at a time; the records of
    other collectors, the sweeps and the cache's updates come in between.  What a
    sender counts as sent has been judged by the pipeline, and every edge it
    calls for is in the output ([delivered_reach_output]). *)

From S2P Require Import Prelude Golang Netip Model Ignore Dedup Resolver Enrich Emit Wire Sender Processor.
Open Scope string_scope.
Open Scope list_scope.
Open Scope Z_scope.

Section delivery.
Context {T W : Type} `{Store T, UIDStore T, PortStore T} {RO : RangeOrder string Time}.

(** A request at the processor: the call it belongs to, its batch and the records
    still to handle. *)
Record request := mkRequest { rq_id : nat; rq_batch : batch; rq_rest : list FlowRecord }.

(** [nw_call] is the call the sender is waiting for, [nw_wire] the requests on
    their way, [nw_next] the number of calls so far.  [nw_hist] is a ghost: what
    happened to the pipeline; so is [nw_handled]: the requests that were handled
    to the end. *)
Record network := mkNetwork {
  nw_sender : system;
  nw_call : option nat;
  nw_next : nat;
  nw_wire : list (nat * batch);
  nw_requests : list request;
  nw_handled : list (nat * batch);
  nw_pipeline : Pipeline T W;
  nw_hist : list (pop T);
  nw_clock : Time
}.
Definition NewNetwork (s : Sender) (p : Pipeline T W) (start : Time) : network :=
  mkNetwork (sys_init s) None 0 [] [] [] p [] start.

(** A step of the sender that is not the end of a [Report] call. *)
Definition between_calls (x y : system) : Prop :=
  match sys_phase x with Sending _ _ => sys_phase y = sys_phase x | _ => True end.
Definition op_clock (t : Time) (o : pop T) : Time :=
  match o with PRecord _ t' | PSweep t' => t' | PCache _ => t end.

Inductive nstep : network -> network -> Prop :=
| n_local x y k n wi rq ha p h t :
    sys_step x y -> between_calls x y ->
    nstep (mkNetwork x k n wi rq ha p h t) (mkNetwork y k n wi rq ha p h t)
| n_call x n wi rq ha p h t b backoff :
    sys_phase x = Sending b backoff ->
    nstep (mkNetwork x None n wi rq ha p h t) (mkNetwork x (Some n) (S n) (wi ++ [(n, b)]) rq ha p h t)
(* the network and the server *)
| n_lose x k n wi1 wi2 rq ha p h t m :
    nstep (mkNetwork x k n (wi1 ++ m :: wi2) rq ha p h t) (mkNetwork x k n (wi1 ++ wi2) rq ha p h t)
| n_accept x k n wi1 wi2 rq ha p h t i b :
    nstep (mkNetwork x k n (wi1 ++ (i, b) :: wi2) rq ha p h t)
      (mkNetwork x k n (wi1 ++ wi2) (rq ++ [mkRequest i b b]) ha (inc_batches p) h t)
| n_record x k n wi rq1 rq2 ha p h t i b r rs now :
    t <= now ->
    nstep (mkNetwork x k n wi (rq1 ++ mkRequest i b (r :: rs) :: rq2) ha p h t)
      (mkNetwork x k n wi (rq1 ++ mkRequest i b rs :: rq2) ha
         (Processor.pstep (PRecord r now) p) (h ++ [PRecord r now]) now)
| n_handled x k n wi rq1 rq2 ha p h t i b :
    nstep (mkNetwork x k n wi (rq1 ++ mkRequest i b [] :: rq2) ha p h t)
      (mkNetwork x k n wi (rq1 ++ rq2) (ha ++ [(i, b)]) p h t)
| n_other x k n wi rq ha p h t o :
    t <= op_clock t o ->
    nstep (mkNetwork x k n wi rq ha p h t)
      (mkNetwork x k n wi rq ha (Processor.pstep o p) (h ++ [o]) (op_clock t o))
(* the end of a call: its reply arrived, or it failed *)
| n_reply s s' cs d pu de i n wi rq ha p h t b b' backoff v :
    (i, b') ∈ ha -> send_attempt false d b s = (v, s') ->
    nstep (mkNetwork (mkSystem s (Sending b backoff) cs d pu de) (Some i) n wi rq ha p h t)
      (mkNetwork (mkSystem s' (after v b backoff) cs d pu (de ++ [b])) None n wi rq ha p h t)
| n_fail s s' cs d pu de i n wi rq ha p h t b backoff v :
    send_attempt true d b s = (v, s') ->
    nstep (mkNetwork (mkSystem s (Sending b backoff) cs d pu de) (Some i) n wi rq ha p h t)
      (mkNetwork (mkSystem s' (after v b backoff) cs d pu de) None n wi rq ha p h t).

Definition nreachable (s : Sender) (p : Pipeline T W) (start : Time) : network -> Prop :=
  reachable (fun x => x = NewNetwork s p start) nstep.

(** ** The sender's part *)

(** The sender runs as Sender.v says. *)
Lemma nstep_sends x y : nstep x y -> nw_sender y = nw_sender x \/ sys_step (nw_sender x) (nw_sender y).
Proof.
  intros Hs. destruct Hs as [| | | | | | |s s' cs d pu de i n wi rq ha p h t b b' backoff v Hi Ha
    |s s' cs d pu de i n wi rq ha p h t b backoff v Ha]; cbn [nw_sender]; auto.
  - right. assert (v = Delivered) as -> by (by injection Ha as <- _).
    apply (step_report s s' cs d pu de b backoff false Delivered Ha).
  - right. pose proof (step_report s s' cs d pu de b backoff true v Ha) as Hr.
    assert (v <> Delivered) as Hv by (unfold send_attempt in Ha; repeat case_match; by simplify_eq).
    by destruct v.
Qed.

Lemma network_sends nd cap tmo p start x :
  nreachable (NewSender nd cap tmo) p start x -> sys_reachable nd cap tmo (nw_sender x).
Proof.
  revert x. apply (reachable_invariant _ _ (fun x => sys_reachable nd cap tmo (nw_sender x))).
  - intros ? ->. by apply reach_init.
  - intros x y Hx Hs. destruct (nstep_sends x y Hs) as [->|Hy]; [done|by eapply reach_step].
Qed.

(** ** Calls and their batches *)

(** Everything the processor's side holds of call [i] is about batch [b]. *)
Definition about (i : nat) (b : batch) (x : network) : Prop :=
  (forall b', (i, b') ∈ nw_wire x -> b' = b) /\
  (forall q, q ∈ nw_requests x -> rq_id q = i -> rq_batch q = b) /\
  (forall b', (i, b') ∈ nw_handled x -> b' = b).
Definition fresh_ids (x : network) : Prop :=
  (forall m, m ∈ nw_wire x -> (m.1 < nw_next x)%nat) /\
  (forall q, q ∈ nw_requests x -> (rq_id q < nw_next x)%nat) /\
  (forall m, m ∈ nw_handled x -> (m.1 < nw_next x)%nat).

Record matched (x : network) : Prop := {
  mt_ids : fresh_ids x;
  mt_call : forall i, nw_call x = Some i -> exists b backoff, sys_phase (nw_sender x) = Sending b backoff /\ about i b x;
  mt_delivered : forall b, b ∈ sys_delivered (nw_sender x) -> exists i, (i, b) ∈ nw_handled x
}.

(** The step changes neither the calls nor what is known of any of them. *)
Lemma matched_network x y :
  matched x -> nw_sender y = nw_sender x -> nw_call y = nw_call x -> nw_next y = nw_next x ->
  (forall m, m ∈ nw_wire y -> m ∈ nw_wire x) ->
  (forall q, q ∈ nw_requests y -> (rq_id q, rq_batch q) ∈ nw_wire x \/
     exists q', q' ∈ nw_requests x /\ rq_id q = rq_id q' /\ rq_batch q = rq_batch q') ->
  (forall m, m ∈ nw_handled y -> m ∈ nw_handled x \/
     exists q, q ∈ nw_requests x /\ m = (rq_id q, rq_batch q)) ->
  (forall m, m ∈ nw_handled x -> m ∈ nw_handled y) -> matched y.
Proof.
  intros [(F1 & F2 & F3) Hcall Hdel] Hsnd Hk Hn Hw Hr Hh Hh'. split.
  - unfold fresh_ids. rewrite Hn. split_and!.
    + intros m Hm. by apply F1, Hw.
    + intros q Hq. destruct (Hr q Hq) as [Hm|(q' & Hq' & -> & _)]; [apply (F1 _ Hm)|by apply F2].
    + intros m Hm. destruct (Hh m Hm) as [?|(q & Hq & ->)]; [by apply F3|by apply F2].
  - rewrite Hsnd, Hk. intros i Hi. destruct (Hcall i Hi) as (b & backoff & Hp & A1 & A2 & A3).
    exists b, backoff. split; [done|]. split_and!.
    + intros b' Hm. by apply A1, Hw.
    + intros q Hq <-. destruct (Hr q Hq) as [Hm|(q' & Hq' & He & ->)]; [by apply A1|by apply A2].
    + intros b' Hm. destruct (Hh _ Hm) as [?|(q & Hq & [= -> ->])]; [by apply A3|by apply A2].
  - rewrite Hsnd. intros b Hb. destruct (Hdel b Hb) as (i & Hi). exists i. by apply Hh'.
Qed.

(** Only the end of a call delivers. *)
Lemma between_calls_delivered x y : sys_step x y -> between_calls x y -> sys_delivered y = sys_delivered x.
Proof.
  intros Hs Hb. destruct Hs; try done. unfold between_calls in Hb. cbn in *. by destruct v.
Qed.

Lemma matched_step x y : matched x -> nstep x y -> matched y.
Proof.
  intros Hm Hs. pose proof Hm as [HF Hcall Hdel].
  destruct Hs as [x y k n wi rq ha p h t Hs Hb|x n wi rq ha p h t b backoff Hp| | | | | |
    s s' cs d pu de i n wi rq ha p h t b b' backoff v Hi Ha|s s' cs d pu de i n wi rq ha p h t b backoff v Ha].
  - split; cbn in *; [done| |by rewrite (between_calls_delivered x y)].
    intros i Hi. destruct (Hcall i Hi) as (b & backoff & Hp & Hab). exists b, backoff. split; [|done].
    unfold between_calls in Hb. by rewrite Hp in Hb.
  - destruct HF as (F1 & F2 & F3). cbn in F1, F2, F3, Hdel. split; cbn; [|intros i [= <-]|done].
    + unfold fresh_ids. cbn. split_and!; [|intros q Hq; specialize (F2 q Hq); lia|intros m Hq; specialize (F3 m Hq); lia].
      intros m [Hq| ->%list_elem_of_singleton]%elem_of_app; [specialize (F1 m Hq); lia|cbn; lia].
    + exists b, backoff. split; [done|]. unfold about. cbn. split_and!.
      * intros b' [Hq|[= ->]%list_elem_of_singleton]%elem_of_app; [specialize (F1 _ Hq); cbn in F1; lia|done].
      * intros q Hq He. specialize (F2 q Hq). lia.
      * intros b' Hq. specialize (F3 _ Hq). cbn in F3. lia.
  - apply (matched_network _ _ Hm); try done; cbn; set_solver.
  - apply (matched_network _ _ Hm); try done; cbn; set_solver.
  - apply (matched_network _ _ Hm); try done; cbn; set_solver.
  - apply (matched_network _ _ Hm); try done; cbn; set_solver.
  - by apply (matched_network _ _ Hm); try done; cbn; eauto 10.
  - split; cbn in *; [done|done|]. intros b1 [Hb1|Hb1]%elem_of_app; [by apply Hdel|].
    apply list_elem_of_singleton in Hb1 as ->. destruct (Hcall i eq_refl) as (b0 & backoff0 & [= <- <-] & _ & _ & A3).
    exists i. by rewrite <-(A3 b' Hi).
  - by split.
Qed.

Lemma matched_reachable s p start x : nreachable s p start x -> matched x.
Proof.
  revert x. apply (reachable_invariant _ _ matched); [|intros; by eapply matched_step].
  intros ? ->. split; cbn; [|done|by intros b Hb%elem_of_nil].
  unfold fresh_ids. cbn. split_and!; by intros ? ?%elem_of_nil.
Qed.

(** ** The pipeline's part *)

Definition happened (h : list (pop T)) (r : FlowRecord) : Prop := exists t, PRecord r t ∈ h.

Record judged (p0 : Pipeline T W) (start : Time) (x : network) : Prop := {
  jd_requests q : q ∈ nw_requests x ->
    exists past, rq_batch q = past ++ rq_rest q /\ Forall (happened (nw_hist x)) past;
  jd_handled m : m ∈ nw_handled x -> Forall (happened (nw_hist x)) m.2;
  jd_run : same (nw_pipeline x) (prun (nw_hist x) p0);
  jd_clock : clock_from start (nw_hist x) /\ latest start (nw_hist x) <= nw_clock x
}.

Lemma happened_more h o rs : Forall (happened h) rs -> Forall (happened (h ++ [o])) rs.
Proof.
  intros Hf. eapply Forall_impl; [exact Hf|]. intros r (t & Ht). exists t. apply elem_of_app. by left.
Qed.

(** Something happens to the pipeline. *)
Lemma judged_op (p0 : Pipeline T W) start h t o (p : Pipeline T W) :
  same p (prun h p0) -> clock_from start h /\ latest start h <= t -> t <= op_clock t o ->
  same (Processor.pstep o p) (prun (h ++ [o]) p0) /\
  clock_from start (h ++ [o]) /\ latest start (h ++ [o]) <= op_clock t o.
Proof.
  intros Hs [Hc Hl] Ho. split; [unfold prun; rewrite foldl_snoc; by apply same_pstep|].
  split; [apply clock_from_snoc; [done|]; destruct o; cbn in *; lia|].
  unfold latest. rewrite foldl_snoc. destruct o; cbn in *; [lia..|]. by fold (latest start h).
Qed.

Lemma judged_step p0 start x y : judged p0 start x -> nstep x y -> judged p0 start y.
Proof.
  intros [J1 J2 J3 J4] Hs.
  destruct Hs as [| | |x k n wi1 wi2 rq ha p h t i b|x k n wi rq1 rq2 ha p h t i b r rs now Hn
    |x k n wi rq1 rq2 ha p h t i b|x k n wi rq ha p h t o Ho| |]; cbn in *; try (by split).
  - split; cbn; [|done|done|done]. intros q [Hq| ->%list_elem_of_singleton]%elem_of_app; [by apply J1|].
    by exists [].
  - destruct (judged_op p0 start h t (PRecord r now) p J3 J4 Hn) as [Hsame Hclk].
    split; cbn; [|intros m Hm; by apply happened_more, J2|done|done].
    assert (forall q, q ∈ rq1 ++ rq2 -> exists past, rq_batch q = past ++ rq_rest q /\
      Forall (happened (h ++ [PRecord r now])) past) as Hothers.
    { intros q Hq. destruct (J1 q) as (past & He & Hp); [set_solver|]. exists past. split; [done|by apply happened_more]. }
    intros q [Hq|[->|Hq]%elem_of_cons]%elem_of_app; [apply Hothers; set_solver| |apply Hothers; set_solver].
    destruct (J1 (mkRequest i b (r :: rs))) as (past & He & Hp); [set_solver|]. cbn in *.
    exists (past ++ [r]). rewrite <-app_assoc. split; [done|]. apply Forall_app. split; [by apply happened_more|].
    apply Forall_singleton. exists now. apply elem_of_app. right. by apply list_elem_of_singleton.
  - split; cbn; [intros q Hq; apply J1; set_solver| |done|done].
    intros m [Hm| ->%list_elem_of_singleton]%elem_of_app; [by apply J2|].
    destruct (J1 (mkRequest i b [])) as (past & He & Hp); [set_solver|]. cbn in *. by rewrite He, app_nil_r.
  - destruct (judged_op p0 start h t o p J3 J4 Ho) as [Hsame Hclk].
    split; cbn; [|intros m Hm; by apply happened_more, J2|done|done].
    intros q Hq. destruct (J1 q Hq) as (past & He & Hp). exists past. split; [done|by apply happened_more].
Qed.

Lemma judged_reachable s p0 start x : nreachable s p0 start x -> judged p0 start x.
Proof.
  revert x. apply (reachable_invariant _ _ (judged p0 start)); [|intros; by eapply judged_step].
  intros ? ->. split; cbn; [by intros q ?%elem_of_nil|by intros m ?%elem_of_nil|by split_and!|by split].
Qed.

(** ** What a record calls for *)

Section output.
Context (w : Duration) (Hw : 0 < w <= maxInt64) (m : option Matcher).

(** The cache and the edges emitted so far, newest first, by the declarative
    pipeline. *)
Definition spec_state (st : T * list (ServiceCall * Time)) (o : pop T) : T * list (ServiceCall * Time) :=
  match o with
  | PSweep _ => st
  | PCache c => (c, st.2)
  | PRecord r now =>
      (st.1, match (judge w m st.1 st.2 r now).2 with Some sc => (sc, now) :: st.2 | None => st.2 end)
  end.
Definition emissions (c : T) (h : list (pop T)) : T * list (ServiceCall * Time) := foldl spec_state (c, []) h.

Lemma spec_run_emissions h : forall c em,
  reverse ((foldl spec_state (c, em) h).2.*1) = reverse (em.*1) ++ (spec_run w m c em h).2.
Proof.
  induction h as [|[r now|now|c'] h IH]; intros c em; cbn [foldl spec_run spec_state fst snd];
    [by rewrite app_nil_r| |by rewrite IH..].
  destruct (judge w m c em r now) as [l e] eqn:Hj. cbn [snd]. rewrite IH.
  destruct (spec_run w m c _ h) as [ls es] eqn:Hr. destruct e as [sc|]; cbn [snd]; [|done].
  cbn [fmap list_fmap fst]. by rewrite reverse_cons, <-app_assoc.
Qed.

Lemma emissions_snoc c h o : emissions c (h ++ [o]) = spec_state (emissions c h) o.
Proof. unfold emissions. by rewrite foldl_snoc. Qed.

Lemma emissions_grow c h h' e : e ∈ (emissions c h).2 -> e ∈ (emissions c (h ++ h')).2.
Proof.
  intros He. induction h' as [|o h' IH] using rev_ind; [by rewrite app_nil_r|].
  rewrite app_assoc, emissions_snoc. destruct o; cbn; [|done..]. case_match; [by right|done].
Qed.

Lemma emissions_times c start h e : clock_from start h -> e ∈ (emissions c h).2 -> e.2 <= latest start h.
Proof.
  induction h as [|o h IH] using rev_ind; [by intros _ ?%elem_of_nil|]. intros Hc.
  assert (clock_from start h /\ latest start h <= latest start (h ++ [o])) as [Hc' Hl].
  { clear IH. revert start Hc. induction h as [|o' h IH]; intros start Hc; cbn in *.
    - destruct o; cbn in *; split; auto; lia.
    - destruct o'; cbn in *; [destruct Hc as [? Hc]; destruct (IH _ Hc); by split..|by apply IH]. }
  rewrite emissions_snoc. destruct o as [r now|now|c']; cbn [spec_state snd]; try (intros He; specialize (IH Hc' He); lia).
  assert (latest start (h ++ [PRecord r now]) = now) as Hn by (unfold latest; by rewrite foldl_snoc).
  case_match; [intros [->|He]%elem_of_cons; [cbn; lia|]|intros He]; specialize (IH Hc' He); lia.
Qed.

(** What the pipeline owes a record handled at [t] with the cache [c]: nothing if
    it is malformed or filtered, and else an edge with its key, emitted at [t] or
    less than a window before. *)
Definition answered (c : T) (em : list (ServiceCall * Time)) (r : FlowRecord) (t : Time) : Prop :=
  match toEvent r with
  | None => True
  | Some ev =>
      let sc := Enrich ev c (Some c) (Some c) in
      IsReversedDuplicate ev (Source sc) = true \/ ShouldIgnoreCall m sc = true \/
      exists sc' t', (sc', t') ∈ em /\ Dedup.key sc' = Dedup.key sc /\ t' <= t < t' + w
  end.

Lemma record_answered c start h r t :
  clock_from start (h ++ [PRecord r t]) ->
  answered (emissions c h).1 (emissions c (h ++ [PRecord r t])).2 r t.
Proof.
  intros Hc. pose proof (emissions_times c start (h ++ [PRecord r t])) as Ht.
  assert (latest start (h ++ [PRecord r t]) = t) as Hl by (unfold latest; by rewrite foldl_snoc).
  rewrite Hl in Ht. unfold answered. destruct (toEvent r) as [ev|] eqn:He; [|done]. cbv zeta.
  set (c1 := (emissions c h).1) in *. set (sc := Enrich ev c1 (Some c1) (Some c1)).
  destruct (IsReversedDuplicate ev (Source sc)) eqn:Hr; [by left|].
  destruct (ShouldIgnoreCall m sc) eqn:Hi; [by right; left|]. right. right.
  rewrite emissions_snoc in *. cbn [spec_state snd] in *. fold c1 in Ht |- *.
  unfold judge in *. rewrite He in *. fold sc in Ht |- *. rewrite Hr, Hi in *.
  destruct (existsb _ (emissions c h).2) eqn:Hx; cbn [snd] in *.
  - apply existsb_exists in Hx as ([sc' t'] & Hin & Hk). apply list_elem_of_In in Hin.
    apply andb_true_iff in Hk as [Hk Hlt]. apply bool_decide_eq_true in Hk.
    exists sc', t'. specialize (Ht (sc', t') Hc Hin). cbn in Ht. split_and!; [done|done|done|lia].
  - exists sc, t. split_and!; [by left|done|lia|lia].
Qed.
End output.

(** C4: from a collector to the output.  Whatever the network does with a
    collector's calls, losing requests and replies or delaying a request past
    the attempt that made it, and whatever other collectors send meanwhile: each
    record of a batch the sender counts as delivered has been handled by the
    processor's pipeline, at some time with the cache of that time; unless it
    was malformed, the accepted side of an in-cluster connection or ignored, an
    edge with its key was emitted at that time or less than a window before; and
    the sink has received exactly the emitted edges, in order. *)
Theorem delivered_reach_output w m (c : T) (o : Sink W) (x0 : W) nd cap tmo start x
    (Hw : 0 < w <= maxInt64)
    (Hx : nreachable (NewSender nd cap tmo) (NewPipeline c m (Dedup.New w) o x0) start x) :
  RecordsSent (sm (sys_sender (nw_sender x))) = Z.of_nat (total_length (sys_delivered (nw_sender x))) /\
  (forall b r, b ∈ sys_delivered (nw_sender x) -> r ∈ b ->
     exists h1 t h2, nw_hist x = h1 ++ PRecord r t :: h2 /\
       answered w m (emissions w m c h1).1 (emissions w m c (h1 ++ [PRecord r t])).2 r t) /\
  world (nw_pipeline x) = foldl (fun y sc => o sc y) x0 (reverse ((emissions w m c (nw_hist x)).2.*1)) /\
  forall h1 h2 e, nw_hist x = h1 ++ h2 -> e ∈ (emissions w m c h1).2 -> e ∈ (emissions w m c (nw_hist x)).2.
Proof.
  destruct (judged_reachable _ _ _ _ Hx) as [_ J2 J3 [J4 _]]. destruct (matched_reachable _ _ _ _ Hx) as [_ _ M3].
  split_and!.
  - apply network_sends in Hx. revert Hx. generalize (nw_sender x). clear. intros y Hy.
    assert (accounted cap y) as (_ & _ & _ & Ha); [|exact Ha].
    revert Hy. apply sys_reachable_inv; [|apply accounted_step]. split_and!; cbn; lia || done.
  - intros b r Hb Hr. destruct (M3 b Hb) as (i & Hi). specialize (J2 _ Hi). rewrite Forall_forall in J2.
    destruct (J2 r Hr) as (t & Ht). apply list_elem_of_split in Ht as (h1 & h2 & Hh). exists h1, t, h2.
    split; [done|]. apply (record_answered w ltac:(lia) m c start).
    rewrite Hh in J4. clear -J4. revert start J4. induction h1 as [|o h1 IH]; intros start; cbn.
    + intros [? _]. by split.
    + destruct o; cbn; [intros [? ?]; split; auto..|by auto].
  - destruct J3 as (_ & _ & _ & _ & -> & _).
    pose proof (prun_spec w Hw (nw_hist x) start (NewPipeline c m (Dedup.New w) o x0) [] J4
      ltac:(by apply New_tracks)) as Hsp.
    cbn [cache matcher NewPipeline out world] in Hsp.
    pose proof (spec_run_emissions w m (nw_hist x) c []) as He. cbn [fmap list_fmap reverse app] in He.
    unfold emissions. rewrite He. cbn [reverse rev_append app].
    destruct (spec_run w m c [] (nw_hist x)) as [ls es]. by destruct Hsp as [-> _].
  - intros h1 h2 e -> He. by apply emissions_grow.
Qed.
End delivery.

(** ** Witness *)

(** The reply to the first attempt is lost: the batch is handled twice, counted as
    sent once, and its edge is in the output once. *)
Section run.
#[local] Instance delivery_times : RangeOrder string Time := canonical_order.

Definition one_batch : batch := [shop_record true].
Definition shop_network : Type := @network Resolver.Cache (list ServiceCall).
Definition shop_pipeline : Pipeline Resolver.Cache (list ServiceCall) :=
  NewPipeline shop_cache None (Dedup.New 30) list_sink [].
Definition retried (x : shop_network) : Prop :=
  nreachable (NewSender "n1" 1 0) shop_pipeline 0 x.

Lemma retried_then x y : retried x -> nstep x y -> retried y.
Proof. apply reach_step. Qed.

(** A call whose request arrives and is handled. *)
Ltac attempt H :=
  eapply retried_then in H; [|eapply n_call; reflexivity];
  eapply retried_then in H; [|eapply (n_accept _ _ _ [] [])];
  eapply retried_then in H; [|eapply (n_record _ _ _ _ [] []) with (now := 5); vm_compute; discriminate];
  eapply retried_then in H; [|eapply (n_handled _ _ _ _ [] [])].

Lemma sample_retry :
  exists x, retried x /\ sys_delivered (nw_sender x) = [one_batch] /\ length (nw_handled x) = 2%nat /\
    world (nw_pipeline x) = [shop_edge].
Proof.
  pose proof (reach_init _ nstep _ eq_refl : retried _) as H.
  eapply retried_then in H; [|eapply n_local; [eapply (step_call _ _ _ _ _ _ one_batch); done|exact I]].
  eapply retried_then in H; [|eapply n_local; [eapply (step_push _ _ _ [] []); reflexivity|exact I]].
  eapply retried_then in H; [|eapply n_local; [eapply step_recv; reflexivity|exact I]].
  attempt H. eapply retried_then in H; [|eapply n_fail; vm_compute; reflexivity].
  eapply retried_then in H; [|eapply n_local; [eapply step_wake|exact I]].
  attempt H. eapply retried_then in H; [|eapply n_reply with (b' := one_batch); [by apply elem_of_app; right; left|reflexivity]].
  eexists. split; [exact H|]. split_and!; vm_compute; reflexivity.
Qed.

Lemma delivered_reach_output_witness :
  exists x, retried x /\ sys_delivered (nw_sender x) = [one_batch] /\
    exists h1 t h2, nw_hist x = h1 ++ PRecord (shop_record true) t :: h2 /\
      answered 30 None (emissions 30 None shop_cache h1).1
        (emissions 30 None shop_cache (h1 ++ [PRecord (shop_record true) t])).2 (shop_record true) t.
Proof.
  destruct sample_retry as (x & Hx & Hd & _). exists x. split; [exact Hx|]. split; [exact Hd|].
  destruct (delivered_reach_output 30 None shop_cache list_sink [] "n1" 1 0 0 x ltac:(unfold maxInt64; lia) Hx)
    as (_ & H & _).
  apply (H one_batch); [rewrite Hd|]; by left.
Defined.
End run.
