(* ===== verification/Kube.v ===== *)
(** * Kube: the Kubernetes objects the resolver reads

    The API types of k8s.io, cut to the fields that code under src/ names; every
    other field of an object is the opaque [rest] it carries.  A pointer field
    is an option.  [object] is what an informer hands to a handler: an object of
    a known type, the tombstone of a missed delete, or anything else. *)

From S2P Require Import Prelude Golang.
Open Scope string_scope.
Open Scope list_scope.
Open Scope Z_scope.

Record OwnerReference := mkOwnerRef {
  or_Kind : string;
  or_Name : string;
  or_Controller : option bool
}.

Record ServicePort := mkServicePort {
  sp_Name : string;
  sp_AppProtocol : option string;
  sp_Port : Z
}.
Record EndpointPort := mkEndpointPort {
  ep_Name : option string;
  ep_AppProtocol : option string;
  ep_Port : option Z
}.
Record NodeAddress := mkNodeAddress { na_Type : string; na_Address : string }.
Definition NodeInternalIP : string := "InternalIP".
Definition ClusterIPNone : string := "None".

(** ** The unstructured content of a custom resource *)

Inductive any :=
| AStr (s : string)
| AList (l : list any)
| AMap (m : gmap string any)
| AOther.

Section objects.
(** The fields no code reads, and the value trimming leaves in their place. *)
Context {Rest : Type}.

Record Pod := mkPod {
  pod_Namespace : string;
  pod_Name : string;
  pod_UID : string;
  pod_OwnerReferences : list OwnerReference;
  pod_HostNetwork : bool;
  pod_PodIP : string;
  pod_PodIPs : list string;
  pod_rest : Rest
}.
Record ReplicaSet := mkReplicaSet {
  rs_Namespace : string;
  rs_Name : string;
  rs_OwnerReferences : list OwnerReference;
  rs_rest : Rest
}.
Record Job := mkJob {
  job_Namespace : string;
  job_Name : string;
  job_OwnerReferences : list OwnerReference;
  job_rest : Rest
}.
Record Node := mkNode {
  node_Name : string;
  node_Addresses : list NodeAddress;
  node_rest : Rest
}.
Record Service := mkService {
  svc_Namespace : string;
  svc_Name : string;
  svc_ClusterIP : string;
  svc_ClusterIPs : list string;
  svc_Ports : list ServicePort;
  svc_rest : Rest
}.
Record Endpoint := mkEndpoint { end_Addresses : list string; end_rest : Rest }.
Record EndpointSlice := mkEndpointSlice {
  es_Namespace : string;
  es_Name : string;
  es_Labels : gmap string string;
  es_Ports : list EndpointPort;
  es_Endpoints : list Endpoint;
  es_rest : Rest
}.

Inductive object :=
| OPod (p : Pod)
| OReplicaSet (r : ReplicaSet)
| OJob (j : Job)
| ONode (n : Node)
| OService (s : Service)
| OEndpointSlice (e : EndpointSlice)
| OUnstructured (m : gmap string any)
| OTombstone (inner : object)
| OUnknown.
End objects.
Arguments Pod : clear implicits.
Arguments ReplicaSet : clear implicits.
Arguments Job : clear implicits.
Arguments Node : clear implicits.
Arguments Service : clear implicits.
Arguments Endpoint : clear implicits.
Arguments EndpointSlice : clear implicits.
Arguments object : clear implicits.
