(* ===== verification/Endpoints.v ===== *)
(** * Endpoints: what Services and EndpointSlices expose (internal/resolver/endpoints.go)

    The (endpoint, application protocol) entries of a Service and of an
    EndpointSlice, and the workload a Service's ClusterIP stands for.  A nil
    pointer is [None].  The specification of [serviceWorkload] is the set of the
    pod workloads behind the Service. *)

From S2P Require Import Prelude Golang Netip Model Kube Resolver.
Open Scope string_scope.
Open Scope list_scope.
Open Scope Z_scope.

Record portEntry := mkPortEntry { pe_ip : Addr; pe_port : Z; pe_l7 : string }.

Definition derefString (s : option string) : string := default "" s.

Section endpoints.
Context {Rest : Type}.

Definition clusterIPs (svc : Service Rest) : list Addr :=
  let raw := svc_ClusterIPs svc in
  let raw := if bool_decide (raw = []) && bool_decide (svc_ClusterIP svc <> "")
             then [svc_ClusterIP svc] else raw in
  s ← raw;
  if bool_decide (s = "" \/ s = ClusterIPNone) then []
  else match ParseAddr s with Some a => [a] | None => [] end.

Definition serviceEntries (svc : option (Service Rest)) : list portEntry :=
  match svc with
  | None => []
  | Some svc =>
      let ips := clusterIPs svc in
      if decide (ips = []) then []
      else
        p ← svc_Ports svc;
        let l7 := NormalizeL7 (derefString (sp_AppProtocol p)) (sp_Name p) in
        if decide (l7 = "") then []
        else (fun ip => mkPortEntry ip (uint16 (sp_Port p)) l7) <$> ips
  end.

Definition parsed (addrs : list string) : list Addr :=
  addr ← addrs; match ParseAddr addr with Some a => [a] | None => [] end.

Definition endpointSliceEntries (es : option (EndpointSlice Rest)) : list portEntry :=
  match es with
  | None => []
  | Some es =>
      p ← es_Ports es;
      match ep_Port p with
      | None => []
      | Some port =>
          let l7 := NormalizeL7 (derefString (ep_AppProtocol p)) (derefString (ep_Name p)) in
          if decide (l7 = "") then []
          else
            ep ← es_Endpoints es;
            (fun a => mkPortEntry a (uint16 port) l7) <$> parsed (end_Addresses ep)
      end
  end.

Definition isPodWorkload (w : Workload) : bool :=
  negb (bool_decide (WlKind w ∈ [KindExternal; KindNode; KindService; KindServiceEntry])).

(** The state of the loop of [serviceWorkload]: [first] when found, and whether a
    second workload was seen. *)
Definition wl_step {T} `{Store T} (store : T) (s : option Workload * bool) (addr : string)
    : option Workload * bool :=
  match ParseAddr addr with
  | None => s
  | Some ip =>
      match LookupIP store ip with
      | None => s
      | Some wl =>
          if negb (isPodWorkload wl) then s
          else
            match s with
            | (None, multiple) => (Some wl, multiple)
            | (Some first, multiple) => (Some first, if decide (wl <> first) then true else multiple)
            end
      end
  end.
Definition slice_step {T} `{Store T} (store : T) (s : option Workload * bool)
    (es : option (EndpointSlice Rest)) : option Workload * bool :=
  match es with
  | None => s
  | Some es => foldl (fun s ep => foldl (wl_step store) s (end_Addresses ep)) s (es_Endpoints es)
  end.
Definition serviceWorkload {T} `{Store T} (svc : option (Service Rest))
    (slices : list (option (EndpointSlice Rest))) (store : T) : option Workload :=
  match svc with
  | None => None
  | Some svc =>
      match foldl (slice_step store) (None, false) slices with
      | (None, _) => None
      | (Some _, true) => Some (mkWorkload (svc_Name svc) (svc_Namespace svc) KindService)
      | (Some first, false) => Some first
      end
  end.

(** ** Specification *)

(** Every endpoint address of the slices. *)
Definition slice_addrs (slices : list (option (EndpointSlice Rest))) : list string :=
  es ← slices;
  match es with None => [] | Some es => ep ← es_Endpoints es; end_Addresses ep end.

(** The pod workload an address resolves to. *)
Definition pod_behind {T} `{Store T} (store : T) (addr : string) : option Workload :=
  ip ← ParseAddr addr;
  wl ← LookupIP store ip;
  if isPodWorkload wl then Some wl else None.
Definition backing {T} `{Store T} (store : T) (slices : list (option (EndpointSlice Rest)))
    : gset Workload :=
  list_to_set (omap (pod_behind store) (slice_addrs slices)).

(** ** Lemmas *)

Section workload.
Context {T} `{Store T} (store : T).

Lemma slice_steps slices s :
  foldl (slice_step store) s slices = foldl (wl_step store) s (slice_addrs slices).
Proof.
  revert s. induction slices as [|[es|] slices IH]; intros s; cbn; [done| |by rewrite IH].
  unfold slice_addrs in *. cbn. rewrite IH, foldl_app. f_equal.
  clear IH. revert s. induction (es_Endpoints es) as [|ep eps IH]; intros s; cbn; [done|].
  by rewrite foldl_app, IH.
Qed.

Lemma wl_step_pod s addr :
  wl_step store s addr =
  match pod_behind store addr with
  | None => s
  | Some wl =>
      match s with
      | (None, m) => (Some wl, m)
      | (Some first, m) => (Some first, if decide (wl <> first) then true else m)
      end
  end.
Proof.
  unfold wl_step, pod_behind. destruct (ParseAddr addr) as [ip|]; cbn; [|done].
  destruct (LookupIP store ip) as [wl|]; cbn; [|done]. by destruct (isPodWorkload wl).
Qed.

Lemma wl_steps addrs : forall first m,
  foldl (wl_step store) (Some first, m) addrs =
  (Some first, m || bool_decide (Exists (fun w => w <> first) (omap (pod_behind store) addrs))).
Proof.
  induction addrs as [|a addrs IH]; intros first m; cbn [foldl omap list_omap].
  - rewrite bool_decide_false by (by intros ?%Exists_nil). by rewrite orb_false_r.
  - rewrite wl_step_pod. destruct (pod_behind store a) as [wl|]; [|apply IH].
    rewrite IH. f_equal. destruct (decide (wl <> first)) as [Hne|Heq].
    + rewrite (bool_decide_true (Exists _ (wl :: _))) by (by left). by rewrite orb_true_r.
    + f_equal. apply bool_decide_ext. rewrite Exists_cons. naive_solver.
Qed.
End workload.
End endpoints.

(** [serviceWorkload] depends only on the set of distinct pod workloads behind
    the Service: none leaves the ClusterIP unmapped, one is the answer, and
    several give the Service's own identity; the order of slices, endpoints and
    addresses, duplicates, unknown addresses and node or external identities
    make no difference. *)
Lemma serviceWorkload_by_set {Rest T} `{Store T} (svc : Service Rest) slices (store : T) :
  let S := backing store slices in
  (S = ∅ -> serviceWorkload (Some svc) slices store = None) /\
  (forall w, S = {[ w ]} -> serviceWorkload (Some svc) slices store = Some w) /\
  ((1 < size S)%nat -> serviceWorkload (Some svc) slices store =
     Some (mkWorkload (svc_Name svc) (svc_Namespace svc) KindService)).
Proof.
  cbv zeta. unfold serviceWorkload. rewrite slice_steps. unfold backing.
  assert (forall addrs, foldl (wl_step store) (None, false) addrs =
    match omap (pod_behind store) addrs with
    | [] => (None, false)
    | w :: ws => (Some w, bool_decide (Exists (fun w' => w' <> w) ws))
    end) as Hfold.
  { induction addrs as [|a addrs IH]; [done|]. cbn [foldl omap list_omap]. rewrite wl_step_pod.
    destruct (pod_behind store a) as [w|]; [|exact IH]. by rewrite wl_steps. }
  rewrite Hfold. destruct (omap (pod_behind store) (slice_addrs slices)) as [|w ws]; cbn.
  { split_and!; [done| |by rewrite size_empty; lia].
    intros w Hw. exfalso. assert (w ∈ (∅ : gset Workload)) by (rewrite Hw; set_solver). set_solver. }
  split_and!.
  - intros He. exfalso. set_solver.
  - intros w' Hw. assert (w = w') as <- by set_solver.
    rewrite bool_decide_false; [done|]. rewrite Exists_exists. intros (x & Hx & Hne).
    apply Hne. assert (x ∈ ({[w]} ∪ list_to_set ws : gset Workload)) by set_solver. set_solver.
  - intros Hsz. rewrite bool_decide_true; [done|].
    destruct (decide (Exists (fun w' => w' <> w) ws)) as [|Hno]; [done|exfalso].
    assert (list_to_set ws ⊆ ({[w]} : gset Workload)) as Hsub.
    { intros x Hx%elem_of_list_to_set. destruct (decide (x = w)) as [->|Hne]; [set_solver|].
      exfalso. apply Hno, Exists_exists. eauto. }
    assert (({[w]} ∪ list_to_set ws : gset Workload) = {[w]}) as Heq by set_solver.
    rewrite Heq, size_singleton in Hsz. lia.
Qed.

(** ** Witness *)

Definition ip_a : Addr := Addr4 x0a x00 x00 x01.
Definition ip_b : Addr := Addr4 x0a x00 x00 x02.
Definition wl_a : Workload := mkWorkload "stable" "shop" "Deployment".
Definition wl_b : Workload := mkWorkload "canary" "shop" "Deployment".
Definition two_pods : Cache := Upsert (Upsert NewCache ip_a wl_a) ip_b wl_b.
Definition sample_service : Service unit :=
  mkService "shop" "checkout" "172.20.0.10" [] [mkServicePort "http-web" None 80] tt.
Definition sample_slice (addrs : list string) : EndpointSlice unit :=
  mkEndpointSlice "shop" "checkout-x" {[ "kubernetes.io/service-name" := "checkout" ]}
    [mkEndpointPort (Some "http-web") None (Some 8080)] [mkEndpoint addrs tt] tt.

Lemma serviceWorkload_by_set_witness :
  serviceWorkload (Some sample_service) [Some (sample_slice ["10.0.0.1"; "10.0.0.1"; "bad"])] two_pods
    = Some wl_a /\
  serviceWorkload (Some sample_service) [Some (sample_slice ["10.0.0.2"]); Some (sample_slice ["10.0.0.1"])]
    two_pods = Some (mkWorkload "checkout" "shop" KindService).
Proof.
  split.
  - apply (serviceWorkload_by_set sample_service). apply set_eq. intros x.
    unfold backing. rewrite elem_of_list_to_set.
    assert (omap (pod_behind two_pods) (slice_addrs [Some (sample_slice ["10.0.0.1"; "10.0.0.1"; "bad"])])
      = [wl_a; wl_a]) as -> by (vm_compute; reflexivity). set_solver.
  - apply (serviceWorkload_by_set sample_service). vm_compute. lia.
Defined.
