(* ===== verification/Controller.v ===== *)
(** * Controller: the watch handlers (internal/resolver/k8s_linux.go, endpoints_linux.go)

    Each handler is a function on the resolver [Cache], given what the informer
    stores hold when it runs: client-go's listers are the fields of [Listers],
    where [None] is an error of the call.  The handlers of pods, nodes, Services
    and EndpointSlices are in the order of the source. *)

From S2P Require Import Prelude Golang Netip Model Kube Resolver Endpoints.
Open Scope string_scope.
Open Scope list_scope.
Open Scope Z_scope.

Record Listers (Rest : Type) := mkListers {
  l_Pod : string -> string -> option (Pod Rest);
  l_ReplicaSet : string -> string -> option (ReplicaSet Rest);
  l_Job : string -> string -> option (Job Rest);
  l_Service : string -> string -> option (Service Rest);
  l_Services : option (list (Service Rest));
  (** the slices of a namespace whose service-name label is the given one *)
  l_EndpointSlices : string -> string -> option (list (EndpointSlice Rest))
}.
Arguments mkListers {Rest}.
Arguments l_Pod {Rest}.
Arguments l_ReplicaSet {Rest}.
Arguments l_Job {Rest}.
Arguments l_Service {Rest}.
Arguments l_Services {Rest}.
Arguments l_EndpointSlices {Rest}.

(** ** Owners *)

Fixpoint controllerOf (refs : list OwnerReference) : option (string * string) :=
  match refs with
  | [] => None
  | r :: refs =>
      match or_Controller r with
      | Some true => Some (or_Kind r, or_Name r)
      | _ => controllerOf refs
      end
  end.

Section controller.
Context {Rest : Type}.

Definition listerGetController (l : Listers Rest) (kind namespace name : string)
    : option (string * string) :=
  if decide (kind = "Pod") then
    match l_Pod l namespace name with None => None | Some p => controllerOf (pod_OwnerReferences p) end
  else if decide (kind = "ReplicaSet") then
    match l_ReplicaSet l namespace name with
    | None => None | Some r => controllerOf (rs_OwnerReferences r) end
  else if decide (kind = "Job") then
    match l_Job l namespace name with None => None | Some j => controllerOf (job_OwnerReferences j) end
  else None.
#[export] Instance listerOwnerLookup : OwnerLookup (Listers Rest) := listerGetController.

(** ** Addresses of objects *)

Definition nodeInternalIPs (n : Node Rest) : list Addr :=
  a ← node_Addresses n;
  if bool_decide (na_Type a <> NodeInternalIP) then []
  else match ParseAddr (na_Address a) with Some ip => [ip] | None => [] end.

Definition podIPs (p : Pod Rest) : list Addr :=
  let out := parsed (pod_PodIPs p) in
  if bool_decide (out = []) && bool_decide (pod_PodIP p <> "")
  then match ParseAddr (pod_PodIP p) with Some a => [a] | None => [] end
  else out.

Definition podWorkload (l : Listers Rest) (p : Pod Rest) : Workload :=
  ResolveTopOwner "Pod" (pod_Namespace p) (pod_Name p) l.

(** ** Type assertions *)

Definition asPod (o : object Rest) : option (Pod Rest) :=
  match o with OPod p => Some p | _ => None end.
Definition asNode (o : object Rest) : option (Node Rest) :=
  match o with ONode n => Some n | _ => None end.
Definition asService (o : object Rest) : option (Service Rest) :=
  match o with OService s => Some s | _ => None end.
Definition asEndpointSlice (o : object Rest) : option (EndpointSlice Rest) :=
  match o with OEndpointSlice e => Some e | _ => None end.
(** A deleted object, possibly in the tombstone of a missed delete. *)
Definition unwrap {A} (as_ : object Rest -> option A) (o : object Rest) : option A :=
  match as_ o with
  | Some a => Some a
  | None => match o with OTombstone o => as_ o | _ => None end
  end.

(** ** Pods and nodes *)

Definition onPod (l : Listers Rest) (o : object Rest) (c : Cache) : Cache :=
  match asPod o with
  | None => c
  | Some pod =>
      let wl := podWorkload l pod in
      let c := if decide (pod_UID pod <> "") then UpsertUID c (pod_UID pod) wl else c in
      if pod_HostNetwork pod then c
      else foldl (fun c ip => Upsert c ip wl) c (podIPs pod)
  end.

Definition onPodDelete (o : object Rest) (c : Cache) : Cache :=
  match unwrap asPod o with
  | None => c
  | Some pod =>
      let c := foldl Delete c (podIPs pod) in
      if decide (pod_UID pod <> "") then DeleteUID c (pod_UID pod) else c
  end.

Definition onNode (o : object Rest) (c : Cache) : Cache :=
  match asNode o with
  | None => c
  | Some node =>
      foldl (fun c ip => Upsert c ip (mkWorkload (node_Name node) "" KindNode)) c (nodeInternalIPs node)
  end.

Definition onNodeDelete (o : object Rest) (c : Cache) : Cache :=
  match unwrap asNode o with
  | None => c
  | Some node => foldl Delete c (nodeInternalIPs node)
  end.

(** ** Port index *)

Definition indexPorts (entries : list portEntry) (c : Cache) : Cache :=
  foldl (fun c e => UpsertPort c (pe_ip e) (pe_port e) (pe_l7 e)) c entries.
Definition deletePorts (entries : list portEntry) (c : Cache) : Cache :=
  foldl (fun c e => DeletePort c (pe_ip e) (pe_port e)) c entries.
Definition entryKey (e : portEntry) : portKey := mkPortKey (Unmap (pe_ip e)) (pe_port e).
Definition reindexPorts (old updated : list portEntry) (c : Cache) : Cache :=
  let c := indexPorts updated c in
  let kept : gset portKey := list_to_set (entryKey <$> updated) in
  foldl (fun c e => if decide (entryKey e ∈ kept) then c else DeletePort c (pe_ip e) (pe_port e)) c old.

(** ** Services and EndpointSlices *)

Definition endpointSliceServiceNameLabel : string := "kubernetes.io/service-name".

Definition syncServiceClusterIPs (l : Listers Rest) (svc : option (Service Rest)) (c : Cache) : Cache :=
  match svc with
  | None => c
  | Some svc =>
      let ips := clusterIPs svc in
      if decide (ips = []) then c
      else
        match l_EndpointSlices l (svc_Namespace svc) (svc_Name svc) with
        | None => c
        | Some slices =>
            let wl := serviceWorkload (Some svc) (Some <$> slices) c in
            foldl (fun c ip => match wl with Some w => Upsert c ip w | None => Delete c ip end) c ips
        end
  end.

Definition serviceName (es : EndpointSlice Rest) : string :=
  default "" (es_Labels es !! endpointSliceServiceNameLabel).

Definition syncServiceForSlice (l : Listers Rest) (es : option (EndpointSlice Rest)) (c : Cache) : Cache :=
  match es with
  | None => c
  | Some es =>
      if decide (serviceName es = "") then c
      else
        match l_Service l (es_Namespace es) (serviceName es) with
        | None => c
        | Some svc => syncServiceClusterIPs l (Some svc) c
        end
  end.

Definition reindexAllClusterIPs (l : Listers Rest) (c : Cache) : Cache :=
  match l_Services l with
  | None => c
  | Some svcs => foldl (fun c svc => syncServiceClusterIPs l (Some svc) c) c svcs
  end.

Definition onService (l : Listers Rest) (o : object Rest) (c : Cache) : Cache :=
  match asService o with
  | None => c
  | Some svc => syncServiceClusterIPs l (Some svc) (indexPorts (serviceEntries (Some svc)) c)
  end.

Definition onServiceUpdate (l : Listers Rest) (old o : object Rest) (c : Cache) : Cache :=
  let oldSvc := asService old in
  let newSvc := asService o in
  let c := reindexPorts (serviceEntries oldSvc) (serviceEntries newSvc) c in
  match newSvc with
  | None => c
  | Some svc =>
      let c :=
        match oldSvc with
        | None => c
        | Some oldSvc =>
            let kept : gset Addr := list_to_set (Unmap <$> clusterIPs svc) in
            foldl (fun c ip => if decide (Unmap ip ∈ kept) then c else Delete c ip) c (clusterIPs oldSvc)
        end in
      syncServiceClusterIPs l (Some svc) c
  end.

Definition onServiceDelete (o : object Rest) (c : Cache) : Cache :=
  match unwrap asService o with
  | None => c
  | Some svc => foldl Delete (deletePorts (serviceEntries (Some svc)) c) (clusterIPs svc)
  end.

Definition onEndpointSlice (l : Listers Rest) (o : object Rest) (c : Cache) : Cache :=
  match asEndpointSlice o with
  | None => c
  | Some es => syncServiceForSlice l (Some es) (indexPorts (endpointSliceEntries (Some es)) c)
  end.

Definition onEndpointSliceUpdate (l : Listers Rest) (old o : object Rest) (c : Cache) : Cache :=
  let oldES := asEndpointSlice old in
  let newES := asEndpointSlice o in
  let c := reindexPorts (endpointSliceEntries oldES) (endpointSliceEntries newES) c in
  let c := syncServiceForSlice l newES c in
  match oldES, newES with
  | Some a, Some b =>
      if decide (serviceName a <> serviceName b) then syncServiceForSlice l oldES c else c
  | _, _ => c
  end.

Definition onEndpointSliceDelete (l : Listers Rest) (o : object Rest) (c : Cache) : Cache :=
  match unwrap asEndpointSlice o with
  | None => c
  | Some es => syncServiceForSlice l (Some es) (deletePorts (endpointSliceEntries (Some es)) c)
  end.
End controller.

(** ** Lemmas on the cache *)

Lemma LookupIP_Upsert c ip w ip' :
  LookupIP (Upsert c ip w) ip' = if decide (Unmap ip = Unmap ip') then Some w else LookupIP c ip'.
Proof. rewrite (apply_write_ip c (WUpsert ip w)). cbn. by case_decide. Qed.

Lemma LookupIP_Delete c ip ip' :
  LookupIP (Delete c ip) ip' = if decide (Unmap ip = Unmap ip') then None else LookupIP c ip'.
Proof. rewrite (apply_write_ip c (WDelete ip)). cbn. by case_decide. Qed.

Lemma elem_of_unmapped ip (ips : list Addr) : Unmap ip ∈ Unmap <$> ips <-> exists ip', ip' ∈ ips /\ Unmap ip' = Unmap ip.
Proof. rewrite list_elem_of_fmap. naive_solver. Qed.

(** Writing one workload at each address of a list, or deleting each. *)
Definition upsert_all (w : Workload) (ips : list Addr) (c : Cache) : Cache :=
  foldl (fun c ip => Upsert c ip w) c ips.

Lemma upsert_all_frame w ips c :
  byUID (upsert_all w ips c) = byUID c /\ byPort (upsert_all w ips c) = byPort c.
Proof. unfold upsert_all. revert c. induction ips as [|i ips IH]; intros c; [done|]. cbn. by rewrite !(proj1 (IH _)), !(proj2 (IH _)). Qed.

Lemma upsert_all_ip w ips c ip :
  LookupIP (upsert_all w ips c) ip =
  if decide (Unmap ip ∈ Unmap <$> ips) then Some w else LookupIP c ip.
Proof.
  unfold upsert_all. revert c. induction ips as [|i ips IH]; intros c; cbn.
  - by rewrite decide_False by (by intros ?%elem_of_nil).
  - rewrite IH, LookupIP_Upsert. destruct (decide (Unmap ip ∈ Unmap <$> ips)) as [Hin|Hn].
    + by rewrite decide_True by (by right).
    + destruct (decide (Unmap i = Unmap ip)) as [He|Hne].
      * rewrite decide_True; [done|]. rewrite He. by left.
      * rewrite decide_False; [done|]. intros [?|?]%elem_of_cons; [by apply Hne|done].
Qed.

Lemma delete_all_frame ips c :
  byUID (foldl Delete c ips) = byUID c /\ byPort (foldl Delete c ips) = byPort c.
Proof. revert c. induction ips as [|i ips IH]; intros c; [done|]. cbn. by rewrite !(proj1 (IH _)), !(proj2 (IH _)). Qed.

Lemma delete_all_ip ips c ip :
  LookupIP (foldl Delete c ips) ip =
  if decide (Unmap ip ∈ Unmap <$> ips) then None else LookupIP c ip.
Proof.
  revert c. induction ips as [|i ips IH]; intros c; cbn.
  - by rewrite decide_False by (by intros ?%elem_of_nil).
  - rewrite IH, LookupIP_Delete. destruct (decide (Unmap ip ∈ Unmap <$> ips)) as [Hin|Hn].
    + by rewrite decide_True by (by right).
    + destruct (decide (Unmap i = Unmap ip)) as [He|Hne].
      * rewrite decide_True; [done|]. rewrite He. by left.
      * rewrite decide_False; [done|]. intros [?|?]%elem_of_cons; [by apply Hne|done].
Qed.

Lemma LookupIP_byIP c c' ip : byIP c' = byIP c -> LookupIP c' ip = LookupIP c ip.
Proof. unfold LookupIP, Cache_Store, cacheLookupIP. by intros ->. Qed.

Section handlers.
Context {Rest : Type}.
Implicit Types (l : Listers Rest) (pod : Pod Rest) (node : Node Rest).

(** ** Owners *)

(** Kinds without a lister are top-level. *)
Definition top_level (kind : string) : Prop := kind <> "Pod" /\ kind <> "ReplicaSet" /\ kind <> "Job".

Lemma top_level_no_controller l kind ns name :
  top_level kind -> GetController l kind ns name = None.
Proof. intros (Hp & Hr & Hj). unfold GetController, listerOwnerLookup, listerGetController. by rewrite !decide_False. Qed.

Lemma owner_walk_stop l n kind ns name :
  GetController l kind ns name = None -> owner_walk n kind ns name l = (kind, name).
Proof. intros Hn. destruct n as [|n]; [done|]. cbn. by rewrite Hn. Qed.

Lemma ResolveTopOwner_pod l pod :
  l_Pod l (pod_Namespace pod) (pod_Name pod) = Some pod ->
  podWorkload l pod =
  match controllerOf (pod_OwnerReferences pod) with
  | None => mkWorkload (pod_Name pod) (pod_Namespace pod) "Pod"
  | Some (k, n) => let '(k, n) := owner_walk 9 k (pod_Namespace pod) n l in
                   mkWorkload n (pod_Namespace pod) k
  end.
Proof.
  intros Hp. unfold podWorkload, ResolveTopOwner, maxOwnerDepth.
  change (owner_walk 10 ?k ?ns ?n ?l) with
    (match GetController l k ns n with None => (k, n) | Some (k', n') => owner_walk 9 k' ns n' l end).
  unfold GetController at 1, listerOwnerLookup at 1, listerGetController.
  rewrite decide_True by done. rewrite Hp. by destruct (controllerOf _) as [[k n]|].
Qed.
End handlers.

(** A pod known to the informers is attributed to its top-level workload: itself
    when nothing controls it, a top-level controller directly, and the owner of
    its ReplicaSet or Job when those are known; a ReplicaSet missing from its
    informer leaves the intermediate name, the race the two-phase start avoids. *)
Lemma pod_resolves_to_top_level {Rest} (l : Listers Rest) pod
    (Hpod : l_Pod l (pod_Namespace pod) (pod_Name pod) = Some pod) :
  (controllerOf (pod_OwnerReferences pod) = None ->
   podWorkload l pod = mkWorkload (pod_Name pod) (pod_Namespace pod) "Pod") /\
  (forall k n, controllerOf (pod_OwnerReferences pod) = Some (k, n) -> top_level k ->
   podWorkload l pod = mkWorkload n (pod_Namespace pod) k) /\
  (forall r rs k n, controllerOf (pod_OwnerReferences pod) = Some ("ReplicaSet", r) ->
   l_ReplicaSet l (pod_Namespace pod) r = Some rs ->
   controllerOf (rs_OwnerReferences rs) = Some (k, n) -> top_level k ->
   podWorkload l pod = mkWorkload n (pod_Namespace pod) k) /\
  (forall j job k n, controllerOf (pod_OwnerReferences pod) = Some ("Job", j) ->
   l_Job l (pod_Namespace pod) j = Some job ->
   controllerOf (job_OwnerReferences job) = Some (k, n) -> top_level k ->
   podWorkload l pod = mkWorkload n (pod_Namespace pod) k) /\
  (forall r, controllerOf (pod_OwnerReferences pod) = Some ("ReplicaSet", r) ->
   l_ReplicaSet l (pod_Namespace pod) r = None ->
   podWorkload l pod = mkWorkload r (pod_Namespace pod) "ReplicaSet").
Proof.
  rewrite (ResolveTopOwner_pod l pod Hpod).
  assert (forall m k ns n, owner_walk (S m) k ns n l =
    match GetController l k ns n with None => (k, n) | Some (k', n') => owner_walk m k' ns n' l end)
    as Hstep by done.
  split_and!.
  - by intros ->.
  - intros k n -> Hk. by rewrite owner_walk_stop by (by apply top_level_no_controller).
  - intros r rs k n -> Hrs Hc Hk. rewrite Hstep.
    unfold GetController at 1, listerOwnerLookup at 1, listerGetController.
    rewrite decide_False, decide_True, Hrs, Hc by done.
    by rewrite owner_walk_stop by (by apply top_level_no_controller).
  - intros j job k n -> Hj Hc Hk. rewrite Hstep.
    unfold GetController at 1, listerOwnerLookup at 1, listerGetController.
    rewrite !decide_False, decide_True, Hj, Hc by done.
    by rewrite owner_walk_stop by (by apply top_level_no_controller).
  - intros r -> Hrs. rewrite owner_walk_stop; [done|].
    unfold GetController, listerOwnerLookup, listerGetController.
    by rewrite decide_False, decide_True, Hrs.
Qed.

(** [onPod] followed by [onPodDelete] on the same pod: while it lives, every
    address of a pod with its own network resolves to its workload and no other
    address changes, a host-network pod leaves the address index alone, and
    either is found by UID; once deleted, none of its addresses nor its UID
    resolves. *)
Lemma pod_lifecycle {Rest} (l : Listers Rest) (pod : Pod Rest) c ip (Huid : pod_UID pod <> "") :
  let c1 := onPod l (OPod pod) c in
  let c2 := onPodDelete (OPod pod) c1 in
  LookupUID c1 (pod_UID pod) = Some (podWorkload l pod) /\
  LookupUID c2 (pod_UID pod) = None /\
  LookupIP c1 ip =
    (if decide (pod_HostNetwork pod = false /\ Unmap ip ∈ Unmap <$> podIPs pod)
     then Some (podWorkload l pod) else LookupIP c ip) /\
  LookupIP c2 ip = (if decide (Unmap ip ∈ Unmap <$> podIPs pod) then None else LookupIP c ip) /\
  onPodDelete (OTombstone (OPod pod)) c1 = c2.
Proof.
  cbv zeta. unfold onPod, onPodDelete. cbn [asPod unwrap]. rewrite !decide_True by done.
  set (wl := podWorkload l pod). set (cu := UpsertUID c (pod_UID pod) wl).
  change (foldl (fun c ip => Upsert c ip wl) cu (podIPs pod)) with (upsert_all wl (podIPs pod) cu).
  set (c1 := if pod_HostNetwork pod then cu else _).
  assert (byUID c1 = byUID cu) as Hu.
  { unfold c1. destruct (pod_HostNetwork pod); [done|]. apply upsert_all_frame. }
  assert (LookupIP c1 ip = if decide (pod_HostNetwork pod = false /\ Unmap ip ∈ Unmap <$> podIPs pod)
     then Some wl else LookupIP c ip) as Hip.
  { unfold c1. destruct (pod_HostNetwork pod).
    - by rewrite decide_False by (by intros [? _]).
    - rewrite upsert_all_ip. case_decide as Hin; [by rewrite decide_True|].
      by rewrite decide_False by (by intros [_ ?]). }
  split_and!; [| | exact Hip | |done].
  - unfold LookupUID, Cache_UIDStore, cacheLookupUID. rewrite Hu. apply lookup_insert_eq.
  - apply lookup_delete_eq.
  - etrans; [by apply (LookupIP_byIP (foldl Delete c1 (podIPs pod)))|].
    rewrite delete_all_ip, Hip. destruct (decide (Unmap ip ∈ _)) as [Hin|Hin]; [done|].
    by rewrite decide_False by (by intros [_ ?]).
Qed.

Lemma onPod_ip {Rest} (l : Listers Rest) (p : Pod Rest) c ip :
  LookupIP (onPod l (OPod p) c) ip =
  if decide (pod_HostNetwork p = false /\ Unmap ip ∈ Unmap <$> podIPs p) then Some (podWorkload l p)
  else LookupIP c ip.
Proof.
  unfold onPod. cbn [asPod]. set (c1 := if decide _ then _ else c).
  assert (LookupIP c1 ip = LookupIP c ip) as Hc by (unfold c1; by case_decide).
  destruct (pod_HostNetwork p).
  - rewrite decide_False; [exact Hc|by intros [? _]].
  - etrans; [apply (upsert_all_ip (podWorkload l p))|]. rewrite Hc. repeat case_decide; naive_solver.
Qed.

Lemma onPodDelete_ip {Rest} (o : object Rest) c ip :
  LookupIP (onPodDelete o c) ip =
  match unwrap asPod o with
  | Some p => if decide (Unmap ip ∈ Unmap <$> podIPs p) then None else LookupIP c ip
  | None => LookupIP c ip
  end.
Proof.
  unfold onPodDelete. destruct (unwrap asPod o) as [p|]; [|done]. rewrite <-delete_all_ip.
  apply LookupIP_byIP. by case_decide.
Qed.

(** The address index follows pod events, not pods.  Where two pods report one
    address, as a finished pod and the pod its address went to do, the address
    belongs to whichever had the last event, a resync included, and the deletion
    of either removes it; and an address a pod no longer reports is never
    removed, not even when the pod is. *)
Lemma pod_addresses_last_event {Rest} (l : Listers Rest) (p q : Pod Rest) c ip
    (Hp : pod_HostNetwork p = false) (Hin : Unmap ip ∈ Unmap <$> podIPs p) :
  LookupIP (onPod l (OPod p) (onPod l (OPod q) c)) ip = Some (podWorkload l p) /\
  LookupIP (onPodDelete (OPod p) (onPod l (OPod q) c)) ip = None /\
  (Unmap ip ∉ Unmap <$> podIPs q ->
   LookupIP (onPodDelete (OPod q) (onPod l (OPod q) (onPod l (OPod p) c))) ip = Some (podWorkload l p)).
Proof.
  split_and!.
  - by rewrite onPod_ip, decide_True.
  - rewrite onPodDelete_ip. cbn [unwrap asPod]. by rewrite decide_True.
  - intros Hq. rewrite onPodDelete_ip. cbn [unwrap asPod]. rewrite decide_False by done.
    rewrite onPod_ip, decide_False by (by intros [_ ?]). by rewrite onPod_ip, decide_True.
Qed.

(** Deleting a host-network pod removes its node from the index: such a pod
    reports the node's address as its own, [onPod] leaves that address alone,
    but [onPodDelete] deletes it, so traffic of the node resolves to an external
    peer until the next node event although the node is still there. *)
Lemma host_network_delete_evicts_node {Rest} (l : Listers Rest) (pod : Pod Rest) (node : Node Rest) c ip
    (Hhost : pod_HostNetwork pod = true) (Hpod : ip ∈ podIPs pod) (Hnode : ip ∈ nodeInternalIPs node) :
  let c1 := onPod l (OPod pod) (onNode (ONode node) c) in
  LookupIP c1 ip = Some (mkWorkload (node_Name node) "" KindNode) /\
  LookupIP (onPodDelete (OPod pod) c1) ip = None /\
  WlKind (WorkloadForIP (onPodDelete (OPod pod) c1) ip) = KindExternal.
Proof.
  cbv zeta.
  assert (LookupIP (onNode (ONode node) c) ip = Some (mkWorkload (node_Name node) "" KindNode)) as Hn.
  { unfold onNode. cbn [asNode]. change (foldl _ c ?ips) with (upsert_all (mkWorkload (node_Name node) "" KindNode) ips c).
    rewrite upsert_all_ip, decide_True; [done|]. apply list_elem_of_fmap. eauto. }
  assert (byIP (onPod l (OPod pod) (onNode (ONode node) c)) = byIP (onNode (ONode node) c)) as Hb.
  { unfold onPod. cbn [asPod]. rewrite Hhost. by case_decide. }
  set (c1 := onPod _ _ _) in *.
  assert (LookupIP (onPodDelete (OPod pod) c1) ip = None) as Hd.
  { unfold onPodDelete. cbn [asPod unwrap].
    etrans; [apply (LookupIP_byIP (foldl Delete c1 (podIPs pod))); by case_decide|].
    rewrite delete_all_ip, decide_True; [done|]. apply list_elem_of_fmap. eauto. }
  split_and!; [|exact Hd|].
  - by rewrite (LookupIP_byIP _ _ ip Hb).
  - unfold WorkloadForIP. by rewrite Hd.
Qed.

(** ** The port index *)

Definition entry_write (e : portEntry) : write := WUpsertPort (pe_ip e) (pe_port e) (pe_l7 e).
Definition entry_delete (e : portEntry) : write := WDeletePort (pe_ip e) (pe_port e).

(** The writes [reindexPorts] makes, in the order a concurrent lookup sees them. *)
Definition reindex_writes (old updated : list portEntry) : list write :=
  (entry_write <$> updated) ++
  (entry_delete <$> filter (fun e => entryKey e ∉ entryKey <$> updated) old).

Lemma indexPorts_writes entries c : indexPorts entries c = foldl apply_write c (entry_write <$> entries).
Proof. unfold indexPorts. revert c. induction entries as [|e es IH]; intros c; [done|]. cbn. apply IH. Qed.

Lemma deletePorts_writes entries c : deletePorts entries c = foldl apply_write c (entry_delete <$> entries).
Proof. unfold deletePorts. revert c. induction entries as [|e es IH]; intros c; [done|]. cbn. apply IH. Qed.

Lemma reindexPorts_writes old updated c :
  reindexPorts old updated c = foldl apply_write c (reindex_writes old updated).
Proof.
  unfold reindexPorts, reindex_writes. rewrite foldl_app, <-indexPorts_writes.
  generalize (indexPorts updated c) as c'. clear c.
  induction old as [|e old IH]; intros c; [done|]. cbn [foldl]. rewrite filter_cons, IH.
  destruct (decide (entryKey e ∈ _)) as [Hin|Hn] eqn:Hd; clear Hd.
  - rewrite elem_of_list_to_set in Hin. by rewrite decide_False by (intros Hno; by apply Hno).
  - rewrite elem_of_list_to_set in Hn. by rewrite decide_True.
Qed.

(** What the last entry of a list says of an endpoint. *)
Definition entry_at (ip : Addr) (port : Z) (e : portEntry) : bool :=
  bool_decide (Unmap (pe_ip e) = Unmap ip /\ pe_port e = port).
Definition declared (entries : list portEntry) (ip : Addr) (port : Z) : option string :=
  foldl (fun acc e => if entry_at ip port e then Some (pe_l7 e) else acc) None entries.

Lemma declared_snoc es e ip port :
  declared (es ++ [e]) ip port = if entry_at ip port e then Some (pe_l7 e) else declared es ip port.
Proof. unfold declared. by rewrite foldl_app. Qed.

Lemma declared_key es ip port :
  is_Some (declared es ip port) <-> mkPortKey (Unmap ip) port ∈ entryKey <$> es.
Proof.
  induction es as [|e es IH] using rev_ind; cbn.
  - split; [by intros []|by intros ?%elem_of_nil].
  - rewrite declared_snoc, fmap_app, elem_of_app, <-IH. unfold entry_at. cbn.
    rewrite list_elem_of_singleton. case_bool_decide as He.
    + destruct He as [He <-]. split; [|by eauto]. right. unfold entryKey. by rewrite He.
    + split; [by left|]. intros [?|Heq]; [done|]. unfold entryKey in Heq. injection Heq as H1 H2. naive_solver.
Qed.

Definition l7s_declared (es : list portEntry) : Prop := Forall (fun e => pe_l7 e <> "") es.

Lemma serviceEntries_l7s {Rest} (svc : option (Service Rest)) : l7s_declared (serviceEntries svc).
Proof.
  unfold l7s_declared. rewrite Forall_forall. intros e He. unfold serviceEntries in He.
  destruct svc as [svc|]; [|by apply elem_of_nil in He]. case_decide; [by apply elem_of_nil in He|].
  apply list_elem_of_bind in He as (p & He & _). case_decide; [by apply elem_of_nil in He|].
  by apply list_elem_of_fmap in He as (ip & -> & _).
Qed.

Lemma endpointSliceEntries_l7s {Rest} (es : option (EndpointSlice Rest)) : l7s_declared (endpointSliceEntries es).
Proof.
  unfold l7s_declared. rewrite Forall_forall. intros e He. unfold endpointSliceEntries in He.
  destruct es as [es|]; [|by apply elem_of_nil in He]. apply list_elem_of_bind in He as (p & He & _).
  destruct (ep_Port p); [|by apply elem_of_nil in He]. case_decide; [by apply elem_of_nil in He|].
  apply list_elem_of_bind in He as (ep & He & _). by apply list_elem_of_fmap in He as (ip & -> & _).
Qed.

Lemma indexPorts_lookup es c ip port :
  l7s_declared es ->
  LookupPort (indexPorts es c) ip port =
  match declared es ip port with Some l7 => Some l7 | None => LookupPort c ip port end.
Proof.
  unfold l7s_declared. induction es as [|e es IH] using rev_ind; [done|].
  rewrite Forall_app, Forall_singleton. intros [Hes He].
  rewrite declared_snoc. unfold indexPorts. rewrite foldl_app. cbn.
  change (UpsertPort ?x (pe_ip e) (pe_port e) (pe_l7 e)) with (apply_write x (entry_write e)).
  rewrite apply_write_port. cbn. unfold entry_at.
  destruct (decide _) as [Hd|Hd].
  - rewrite bool_decide_true by done. by rewrite decide_False.
  - rewrite bool_decide_false by done. by apply IH.
Qed.

Lemma foldl_delete_lookup (es : list portEntry) c ip port :
  LookupPort (foldl apply_write c (entry_delete <$> es)) ip port =
  if decide (mkPortKey (Unmap ip) port ∈ entryKey <$> es) then None else LookupPort c ip port.
Proof.
  revert c. induction es as [|e es IH]; intros c; cbn [fmap list_fmap foldl].
  - by rewrite decide_False by (by intros ?%elem_of_nil).
  - rewrite IH, apply_write_port. cbn.
    destruct (decide (mkPortKey (Unmap ip) port ∈ entryKey <$> es)) as [Hin|Hn].
    + by rewrite decide_True by (by right).
    + destruct (decide (Unmap (pe_ip e) = Unmap ip /\ pe_port e = port)) as [[He Hp]|Hne].
      * rewrite decide_True; [done|]. unfold entryKey at 1. rewrite He, Hp. by left.
      * rewrite decide_False; [done|]. intros [Heq|?]%elem_of_cons; [|done].
        unfold entryKey in Heq. injection Heq as H1 H2. naive_solver.
Qed.

Lemma reindexPorts_lookup old updated c ip port :
  l7s_declared updated ->
  LookupPort (reindexPorts old updated c) ip port =
  match declared updated ip port with
  | Some l7 => Some l7
  | None => match declared old ip port with Some _ => None | None => LookupPort c ip port end
  end.
Proof.
  intros Hl7. rewrite reindexPorts_writes. unfold reindex_writes.
  rewrite foldl_app, foldl_delete_lookup, <-indexPorts_writes, indexPorts_lookup by done.
  destruct (declared updated ip port) as [l7|] eqn:Hu.
  - rewrite decide_False; [done|]. rewrite list_elem_of_fmap.
    intros (e & Hk & [Hno _]%list_elem_of_filter). apply Hno. rewrite <-Hk. apply declared_key. by eexists.
  - assert (mkPortKey (Unmap ip) port ∉ entryKey <$> updated) as Hnu.
    { rewrite <-declared_key, Hu. by intros []. }
    destruct (declared old ip port) as [l7|] eqn:Ho.
    + rewrite decide_True; [done|].
      assert (mkPortKey (Unmap ip) port ∈ entryKey <$> old) as Hin by (apply declared_key; by eexists).
      apply list_elem_of_fmap in Hin as (e & Hk & He). apply list_elem_of_fmap.
      exists e. split; [done|]. apply list_elem_of_filter. by rewrite <-Hk.
    + rewrite decide_False; [done|]. rewrite list_elem_of_fmap.
      intros (e & Hk & [_ He]%list_elem_of_filter).
      assert (is_Some (declared old ip port)) as Hs
        by (apply declared_key, list_elem_of_fmap; eauto).
      rewrite Ho in Hs. by destruct Hs.
Qed.

Lemma deletePorts_lookup es c ip port :
  LookupPort (deletePorts es c) ip port =
  match declared es ip port with Some _ => None | None => LookupPort c ip port end.
Proof.
  rewrite deletePorts_writes, foldl_delete_lookup. pose proof (declared_key es ip port) as Hd.
  destruct (declared es ip port); case_decide as Hk; try done.
  - exfalso. apply Hk, Hd. by eexists.
  - apply Hd in Hk. by destruct Hk.
Qed.

(** C34: [reindexPorts] leaves the index with exactly the new revision's protocols,
    nothing for an endpoint only the old one had, and everything else as it was;
    and a lookup racing it never finds a gap: after any prefix of its writes, an
    endpoint that was indexed and is in the new revision still resolves. *)
Theorem reindexPorts_gapless old updated c ip port (Hl7 : l7s_declared updated) :
  LookupPort (reindexPorts old updated c) ip port =
    match declared updated ip port with
    | Some l7 => Some l7
    | None => match declared old ip port with Some _ => None | None => LookupPort c ip port end
    end /\
  forall seen rest,
    reindex_writes old updated = seen ++ rest ->
    is_Some (declared updated ip port) -> is_Some (LookupPort c ip port) ->
    is_Some (LookupPort (foldl apply_write c seen) ip port).
Proof.
  split; [by apply reindexPorts_lookup|]. intros seen rest Hsplit Hdecl Hsome.
  assert (forall x, x ∈ seen -> says_port ip port x <> Some None) as Hsafe.
  { intros x Hx. assert (x ∈ reindex_writes old updated) as Hin
      by (rewrite Hsplit; apply elem_of_app; by left).
    unfold reindex_writes in Hin. rewrite elem_of_app, !list_elem_of_fmap in Hin.
    destruct Hin as [(e & -> & He)|(e & -> & [Hno _]%list_elem_of_filter)]; cbn; case_decide as Hd; try done.
    - unfold l7s_declared in Hl7. rewrite Forall_forall in Hl7. by rewrite decide_False by (by apply Hl7).
    - exfalso. apply Hno. apply declared_key in Hdecl. unfold entryKey at 1.
      by destruct Hd as [-> ->]. }
  clear Hsplit. revert c Hsome. induction seen as [|x seen IH]; intros c Hsome; [done|]. cbn.
  apply IH.
  - intros y Hy. apply Hsafe. by right.
  - rewrite apply_write_port. specialize (Hsafe x ltac:(by left)).
    destruct (says_port ip port x) as [[l7|]|]; [by eexists|done|done].
Qed.

(** ** ClusterIPs *)

Section cluster_ips.
Context {Rest : Type}.
Implicit Types (l : Listers Rest) (svc : Service Rest).

Definition ips_of (svc : Service Rest) (ip : Addr) : Prop := Unmap ip ∈ Unmap <$> clusterIPs svc.
#[export] Instance ips_of_dec svc ip : Decision (ips_of svc ip).
Proof. unfold ips_of. apply _. Defined.

(** No backing endpoint has one of the Service's own ClusterIPs. *)
Definition endpoints_apart (svc : Service Rest) (slices : list (EndpointSlice Rest)) : Prop :=
  forall addr ip, addr ∈ slice_addrs (Some <$> slices) -> ParseAddr addr = Some ip -> ~ ips_of svc ip.

Lemma pod_behind_ext {T} `{Store T} (s1 s2 : T) addrs :
  (forall addr ip, addr ∈ addrs -> ParseAddr addr = Some ip -> LookupIP s1 ip = LookupIP s2 ip) ->
  forall s, foldl (wl_step s1) s addrs = foldl (wl_step s2) s addrs.
Proof.
  induction addrs as [|a addrs IH]; intros Hext s; [done|]. cbn.
  assert (wl_step s1 s a = wl_step s2 s a) as ->.
  { unfold wl_step. destruct (ParseAddr a) as [ip|] eqn:Hp; [|done].
    by rewrite (Hext a ip ltac:(by left) Hp). }
  apply IH. intros addr ip Hin. apply Hext. by right.
Qed.

Lemma serviceWorkload_ext (c1 c2 : Cache) svc slices :
  (forall addr ip, addr ∈ slice_addrs slices -> ParseAddr addr = Some ip ->
     LookupIP c1 ip = LookupIP c2 ip) ->
  serviceWorkload (Some svc) slices c1 = serviceWorkload (Some svc) slices c2.
Proof. intros Hext. unfold serviceWorkload. rewrite !slice_steps. by rewrite (pod_behind_ext c1 c2). Qed.

Lemma sync_lookup l svc slices c ip :
  l_EndpointSlices l (svc_Namespace svc) (svc_Name svc) = Some slices ->
  LookupIP (syncServiceClusterIPs l (Some svc) c) ip =
  if decide (ips_of svc ip) then serviceWorkload (Some svc) (Some <$> slices) c else LookupIP c ip.
Proof.
  intros Hsl. unfold syncServiceClusterIPs. destruct (decide (clusterIPs svc = [])) as [Hnil|_].
  - rewrite decide_False; [done|]. unfold ips_of. rewrite Hnil. by intros ?%elem_of_nil.
  - rewrite Hsl. destruct (serviceWorkload _ _ c) as [w|].
    + etrans; [apply (upsert_all_ip w)|]. unfold ips_of. by repeat case_decide.
    + etrans; [apply delete_all_ip|]. unfold ips_of. by repeat case_decide.
Qed.
End cluster_ips.

(** C19: a Service's ClusterIPs follow its endpoints: after a sync each resolves to
    the workload its current slices stand for, or to nothing, and no other
    address changes; repeating the sync changes no lookup, so the events that
    trigger it may come in any order and number.  An update drops the ClusterIPs
    the new revision no longer has, and a delete drops them all. *)
Theorem cluster_ips_follow_endpoints {Rest} (l : Listers Rest) (svc : Service Rest) slices c
    (Hslices : l_EndpointSlices l (svc_Namespace svc) (svc_Name svc) = Some slices)
    (Hapart : endpoints_apart svc slices) :
  let c1 := syncServiceClusterIPs l (Some svc) c in
  (forall ip, LookupIP c1 ip =
     if decide (ips_of svc ip) then serviceWorkload (Some svc) (Some <$> slices) c else LookupIP c ip) /\
  (forall ip, LookupIP (syncServiceClusterIPs l (Some svc) c1) ip = LookupIP c1 ip) /\
  (forall (old : Service Rest) ip, ips_of old ip -> ~ ips_of svc ip ->
     LookupIP (onServiceUpdate l (OService old) (OService svc) c) ip = None) /\
  (forall ip, LookupIP (onServiceDelete (OService svc) c) ip =
     if decide (ips_of svc ip) then None else LookupIP c ip).
Proof.
  cbv zeta. split_and!.
  - intros ip. by apply sync_lookup.
  - intros ip. rewrite !(sync_lookup l svc slices) by done. case_decide as Hin; [|done].
    apply serviceWorkload_ext. intros addr ip' Haddr Hp. rewrite (sync_lookup l svc slices) by done.
    by rewrite decide_False by (by apply (Hapart addr)).
  - intros old ip Hold Hnew. unfold onServiceUpdate. cbn [asService].
    rewrite (sync_lookup l svc slices), decide_False by done.
    set (c1 := reindexPorts _ _ c).
    revert Hold. unfold ips_of at 1. generalize (clusterIPs old) as ips. intros ips.
    generalize c1. clear c1. induction ips as [|i ips IH]; intros c1 Hold;
      [by apply elem_of_nil in Hold|]. cbn [foldl].
    destruct (decide (Unmap ip ∈ Unmap <$> ips)) as [Hrest|Hno]; [by apply IH|].
    cbn in Hold. apply elem_of_cons in Hold as [Heq|]; [|done]. rewrite <-Heq.
    rewrite decide_False by (by rewrite elem_of_list_to_set).
    assert (forall c2, LookupIP c2 ip = None ->
      LookupIP (foldl (fun c ip => if decide (Unmap ip ∈ (list_to_set (Unmap <$> clusterIPs svc) : gset Addr))
                                   then c else Delete c ip) c2 ips) ip = None) as Hkeep.
    { clear. induction ips as [|j ips IH]; intros c2 Hc2; [done|]. cbn. apply IH.
      case_decide; [done|]. rewrite LookupIP_Delete. by case_decide. }
    apply Hkeep. rewrite LookupIP_Delete. by rewrite decide_True.
  - intros ip. unfold onServiceDelete. cbn [asService unwrap]. rewrite delete_all_ip.
    unfold ips_of. repeat case_decide; try done. apply LookupIP_byIP.
    rewrite deletePorts_writes. clear. generalize (serviceEntries (Some svc)) as es. intros es.
    revert c. induction es as [|e es IH]; intros c; [done|]. cbn. by rewrite IH.
Qed.

(** ** Witnesses *)

Definition owned_by (k n : string) : list OwnerReference := [mkOwnerRef k n (Some true)].
Definition web_pod : Pod unit :=
  mkPod "shop" "web-5f7c9-abcde" "uid-web" (owned_by "ReplicaSet" "web-5f7c9") false "" ["10.0.0.1"] tt.
Definition agent_pod : Pod unit :=
  mkPod "mon" "agent-x2x9q" "uid-agent" (owned_by "DaemonSet" "agent") true "100.90.106.4" [] tt.
Definition web_rs : ReplicaSet unit := mkReplicaSet "shop" "web-5f7c9" (owned_by "Deployment" "web") tt.
Definition node_4 : Node unit :=
  mkNode "ip-100-90-106-4" [mkNodeAddress "Hostname" "ip-100-90-106-4"; mkNodeAddress "InternalIP" "100.90.106.4"] tt.
Definition sample_listers : Listers unit :=
  mkListers (fun _ n => if decide (n = "web-5f7c9-abcde") then Some web_pod else None)
    (fun _ n => if decide (n = "web-5f7c9") then Some web_rs else None) (fun _ _ => None)
    (fun _ n => if decide (n = "checkout") then Some sample_service else None) (Some [sample_service])
    (fun _ n => Some (if decide (n = "checkout") then [sample_slice ["10.0.0.1"]] else [])).
Definition node_ip : Addr := Addr4 x64 x5a x6a x04.
Definition service_ip : Addr := Addr4 xac x14 x00 x0a.

Lemma pod_resolves_to_top_level_witness :
  podWorkload sample_listers web_pod = mkWorkload "web" "shop" "Deployment".
Proof.
  destruct (pod_resolves_to_top_level sample_listers web_pod eq_refl) as (_ & _ & H & _).
  apply (H "web-5f7c9" web_rs "Deployment" "web"); [done..|]. by repeat split.
Defined.

Lemma pod_lifecycle_witness :
  let c1 := onPod sample_listers (OPod web_pod) NewCache in
  LookupIP c1 ip_a = Some (mkWorkload "web" "shop" "Deployment") /\
  LookupIP (onPodDelete (OPod web_pod) c1) ip_a = None.
Proof.
  cbv zeta.
  destruct (pod_lifecycle sample_listers web_pod NewCache ip_a) as (_ & _ & H1 & H2 & _); [done|].
  split.
  - rewrite H1. vm_compute. reflexivity.
  - rewrite H2. vm_compute. reflexivity.
Defined.

Lemma host_network_delete_evicts_node_witness :
  let c1 := onPod sample_listers (OPod agent_pod) (onNode (ONode node_4) NewCache) in
  LookupIP c1 node_ip = Some (mkWorkload "ip-100-90-106-4" "" KindNode) /\
  LookupIP (onPodDelete (OPod agent_pod) c1) node_ip = None.
Proof.
  cbv zeta.
  destruct (host_network_delete_evicts_node sample_listers agent_pod node_4 NewCache node_ip)
    as (H1 & H2 & _); [done|apply list_elem_of_In; vm_compute; auto|apply list_elem_of_In; vm_compute; auto|].
  by split.
Defined.

Lemma reindexPorts_gapless_witness :
  let e := mkPortEntry ip_a 80 "http" in
  let e' := mkPortEntry ip_a 80 "grpc" in
  let gone := mkPortEntry ip_b 80 "http" in
  let c := indexPorts [e; gone] NewCache in
  LookupPort (reindexPorts [e; gone] [e'] c) ip_a 80 = Some "grpc" /\
  LookupPort (reindexPorts [e; gone] [e'] c) ip_b 80 = None.
Proof.
  cbv zeta. set (c := indexPorts _ _).
  destruct (reindexPorts_gapless [mkPortEntry ip_a 80 "http"; mkPortEntry ip_b 80 "http"]
    [mkPortEntry ip_a 80 "grpc"] c ip_a 80) as [H1 _]; [by repeat constructor|].
  destruct (reindexPorts_gapless [mkPortEntry ip_a 80 "http"; mkPortEntry ip_b 80 "http"]
    [mkPortEntry ip_a 80 "grpc"] c ip_b 80) as [H2 _]; [by repeat constructor|].
  split; [rewrite H1|rewrite H2]; vm_compute; reflexivity.
Defined.

Lemma cluster_ips_follow_endpoints_witness :
  let c1 := syncServiceClusterIPs sample_listers (Some sample_service) two_pods in
  LookupIP c1 service_ip = Some wl_a /\
  LookupIP (onServiceDelete (OService sample_service) two_pods) service_ip = None.
Proof.
  cbv zeta.
  destruct (cluster_ips_follow_endpoints sample_listers sample_service [sample_slice ["10.0.0.1"]] two_pods)
    as (H1 & _ & _ & H4).
  - vm_compute. reflexivity.
  - intros addr ip Haddr Hp Hin. apply list_elem_of_In in Haddr. destruct Haddr as [<-|[]].
    assert (ParseAddr "10.0.0.1" = Some ip_a) as Ha by (vm_compute; reflexivity).
    rewrite Ha in Hp. injection Hp as <-. apply list_elem_of_In in Hin. vm_compute in Hin.
    destruct Hin as [Hin|[]]. discriminate Hin.
  - split; [rewrite H1|rewrite H4]; vm_compute; reflexivity.
Defined.
