(* ===== verification/Transform.v ===== *)
(** * Transform: trimming watched objects (internal/resolver/transform_linux.go)

    [trimObject] drops, before an object is stored, every field the resolver does
    not read.  Its contract is an equivalence: on trimmed objects and trimmed
    listers every handler does exactly what it does on the full ones. *)

From S2P Require Import Prelude Golang Netip Model Kube Resolver Endpoints Controller.
Open Scope string_scope.
Open Scope list_scope.
Open Scope Z_scope.

Section transform.
Context {Rest : Type} (zeroRest : Rest).

Definition trimSliceLabels (labels : gmap string string) : gmap string string :=
  match labels !! endpointSliceServiceNameLabel with
  | None => ∅
  | Some name => {[ endpointSliceServiceNameLabel := name ]}
  end.

Definition trimEndpoints (eps : list (Endpoint Rest)) : list (Endpoint Rest) :=
  (fun ep => mkEndpoint (end_Addresses ep) zeroRest) <$> eps.

Definition trimPod (o : Pod Rest) : Pod Rest :=
  mkPod (pod_Namespace o) (pod_Name o) (pod_UID o) (pod_OwnerReferences o) (pod_HostNetwork o)
    (pod_PodIP o) (pod_PodIPs o) zeroRest.
Definition trimReplicaSet (o : ReplicaSet Rest) : ReplicaSet Rest :=
  mkReplicaSet (rs_Namespace o) (rs_Name o) (rs_OwnerReferences o) zeroRest.
Definition trimJob (o : Job Rest) : Job Rest :=
  mkJob (job_Namespace o) (job_Name o) (job_OwnerReferences o) zeroRest.
Definition trimNode (o : Node Rest) : Node Rest :=
  mkNode (node_Name o) (node_Addresses o) zeroRest.
Definition trimService (o : Service Rest) : Service Rest :=
  mkService (svc_Namespace o) (svc_Name o) (svc_ClusterIP o) (svc_ClusterIPs o) (svc_Ports o) zeroRest.
Definition trimEndpointSlice (o : EndpointSlice Rest) : EndpointSlice Rest :=
  mkEndpointSlice (es_Namespace o) (es_Name o) (trimSliceLabels (es_Labels o)) (es_Ports o)
    (trimEndpoints (es_Endpoints o)) zeroRest.

(** The error of the transform is always nil. *)
Definition trimObject (o : object Rest) : object Rest :=
  match o with
  | OPod o => OPod (trimPod o)
  | OReplicaSet o => OReplicaSet (trimReplicaSet o)
  | OJob o => OJob (trimJob o)
  | ONode o => ONode (trimNode o)
  | OService o => OService (trimService o)
  | OEndpointSlice o => OEndpointSlice (trimEndpointSlice o)
  | o => o
  end.

(** Listers over stores of trimmed objects. *)
Definition trimListers (l : Listers Rest) : Listers Rest :=
  mkListers (Rest:=Rest) (fun ns n => option_map trimPod (l_Pod l ns n))
    (fun ns n => option_map trimReplicaSet (l_ReplicaSet l ns n))
    (fun ns n => option_map trimJob (l_Job l ns n))
    (fun ns n => option_map trimService (l_Service l ns n))
    (option_map (map trimService) (l_Services l))
    (fun ns n => option_map (map trimEndpointSlice) (l_EndpointSlices l ns n)).

(** ** Lemmas *)

Lemma GetController_trim l kind ns name :
  GetController (trimListers l) kind ns name = GetController l kind ns name.
Proof.
  unfold GetController, listerOwnerLookup, listerGetController. cbn.
  repeat case_decide; [..|done].
  - by destruct (l_Pod l ns name).
  - by destruct (l_ReplicaSet l ns name).
  - by destruct (l_Job l ns name).
Qed.

Lemma owner_walk_trim l n kind ns name :
  owner_walk n kind ns name (trimListers l) = owner_walk n kind ns name l.
Proof.
  revert kind name. induction n as [|n IH]; intros kind name; [done|]. cbn.
  rewrite GetController_trim. by destruct (GetController l kind ns name) as [[k m]|].
Qed.

Lemma podWorkload_trim l pod : podWorkload (trimListers l) (trimPod pod) = podWorkload l pod.
Proof. unfold podWorkload, ResolveTopOwner. by rewrite owner_walk_trim. Qed.

Lemma serviceName_trim es : serviceName (trimEndpointSlice es) = serviceName es.
Proof.
  unfold serviceName. cbn. unfold trimSliceLabels.
  destruct (es_Labels es !! _) as [n|]; [|by rewrite lookup_empty]. by rewrite lookup_singleton_eq.
Qed.

Lemma endpoints_bind {A} (f : list string -> list A) (eps : list (Endpoint Rest)) :
  (ep ← trimEndpoints eps; f (end_Addresses ep)) = (ep ← eps; f (end_Addresses ep)).
Proof. induction eps as [|ep eps IH]; [done|]. cbn. f_equal. exact IH. Qed.

Lemma endpointSliceEntries_trim es :
  endpointSliceEntries (trimEndpointSlice <$> es) = endpointSliceEntries es.
Proof.
  destruct es as [es|]; [|done]. cbn. induction (es_Ports es) as [|p ps IH]; [done|].
  cbn. f_equal; [|exact IH]. destruct (ep_Port p) as [port|]; [|done].
  case_decide; [done|]. apply (endpoints_bind (fun addrs => (fun a => mkPortEntry a (uint16 port) _) <$> parsed addrs)).
Qed.

Lemma slice_addrs_trim slices :
  slice_addrs (Some <$> map trimEndpointSlice slices) = slice_addrs (Some <$> slices).
Proof.
  unfold slice_addrs. induction slices as [|es slices IH]; [done|]. cbn. f_equal; [|exact IH].
  apply (endpoints_bind id).
Qed.

Lemma serviceWorkload_trim svc slices (c : Cache) :
  serviceWorkload (Some (trimService svc)) (Some <$> map trimEndpointSlice slices) c =
  serviceWorkload (Some svc) (Some <$> slices) c.
Proof. unfold serviceWorkload. by rewrite !slice_steps, slice_addrs_trim. Qed.

Lemma sync_trim l svc c :
  syncServiceClusterIPs (trimListers l) (Some (trimService svc)) c = syncServiceClusterIPs l (Some svc) c.
Proof.
  unfold syncServiceClusterIPs. change (clusterIPs (trimService svc)) with (clusterIPs svc).
  case_decide; [done|]. cbn [l_EndpointSlices trimListers svc_Namespace svc_Name trimService].
  destruct (l_EndpointSlices l _ _) as [slices|]; [|done]. cbn [option_map].
  by rewrite serviceWorkload_trim.
Qed.

Lemma sync_slice_trim_lister l es c :
  syncServiceForSlice (trimListers l) es c = syncServiceForSlice l es c.
Proof.
  destruct es as [es|]; [|done]. cbn [syncServiceForSlice]. case_decide; [done|]. cbn.
  destruct (l_Service l _ _) as [svc|]; [|done]. apply sync_trim.
Qed.

Lemma sync_slice_trim l es c :
  syncServiceForSlice (trimListers l) (trimEndpointSlice <$> es) c = syncServiceForSlice l es c.
Proof.
  rewrite sync_slice_trim_lister. destruct es as [es|]; [|done].
  cbn [fmap option_fmap option_map syncServiceForSlice]. by rewrite serviceName_trim.
Qed.

Lemma asService_trim o : asService (trimObject o) = trimService <$> asService o.
Proof. by destruct o. Qed.
Lemma asEndpointSlice_trim o : asEndpointSlice (trimObject o) = trimEndpointSlice <$> asEndpointSlice o.
Proof. by destruct o. Qed.
Lemma serviceEntries_trim svc : serviceEntries (trimService <$> svc) = serviceEntries svc.
Proof. by destruct svc. Qed.

Lemma onEndpointSliceUpdate_trim l old o c :
  onEndpointSliceUpdate (trimListers l) (trimObject old) (trimObject o) c =
  onEndpointSliceUpdate l old o c.
Proof.
  unfold onEndpointSliceUpdate. rewrite !asEndpointSlice_trim, !endpointSliceEntries_trim.
  destruct (asEndpointSlice old) as [a|], (asEndpointSlice o) as [b|];
    cbn [fmap option_fmap option_map]; rewrite ?serviceName_trim;
    rewrite ?(sync_slice_trim l (Some b)), ?(sync_slice_trim l (Some a)), ?(sync_slice_trim l None); try done.
Qed.
End transform.

(** C38: trimming changes no resolution: on a trimmed object, with every informer
    store trimmed, each add, update and delete handler and the startup pass
    leave the cache exactly as on the full objects; trimming again changes
    nothing. *)
Theorem trim_preserves_resolution {Rest} (zeroRest : Rest) (l : Listers Rest) old o c :
  let t := trimObject zeroRest in
  let tl := trimListers zeroRest l in
  onPod tl (t o) c = onPod l o c /\ onPodDelete (t o) c = onPodDelete o c /\
  onNode (t o) c = onNode o c /\ onNodeDelete (t o) c = onNodeDelete o c /\
  onService tl (t o) c = onService l o c /\
  onServiceUpdate tl (t old) (t o) c = onServiceUpdate l old o c /\
  onServiceDelete (t o) c = onServiceDelete o c /\
  onEndpointSlice tl (t o) c = onEndpointSlice l o c /\
  onEndpointSliceUpdate tl (t old) (t o) c = onEndpointSliceUpdate l old o c /\
  onEndpointSliceDelete tl (t o) c = onEndpointSliceDelete l o c /\
  reindexAllClusterIPs tl c = reindexAllClusterIPs l c /\
  t (t o) = t o.
Proof.
  cbv zeta. split_and!.
  - destruct o; try done. unfold onPod. cbn [trimObject asPod]. by rewrite podWorkload_trim.
  - by destruct o.
  - by destruct o.
  - by destruct o.
  - unfold onService. rewrite asService_trim. destruct (asService o) as [svc|]; [|done]. apply sync_trim.
  - unfold onServiceUpdate. rewrite !asService_trim, !serviceEntries_trim.
    destruct (asService o) as [svc|]; [|done]. cbn [fmap option_fmap option_map].
    rewrite sync_trim. by destruct (asService old).
  - by destruct o.
  - unfold onEndpointSlice. rewrite asEndpointSlice_trim.
    destruct (asEndpointSlice o) as [es|]; [|done]. cbn [fmap option_fmap option_map].
    rewrite <-(endpointSliceEntries_trim zeroRest (Some es)).
    apply (sync_slice_trim zeroRest l (Some es)).
  - apply onEndpointSliceUpdate_trim.
  - unfold onEndpointSliceDelete.
    destruct o as [| | | | |es| |o|]; try done; cbn [trimObject unwrap asEndpointSlice].
    + rewrite <-(endpointSliceEntries_trim zeroRest (Some es)).
      apply (sync_slice_trim zeroRest l (Some es)).
    + destruct (asEndpointSlice o) as [es|]; [|done]. apply sync_slice_trim_lister.
  - unfold reindexAllClusterIPs. cbn [l_Services trimListers].
    destruct (l_Services l) as [svcs|]; [|done]. cbn [option_map]. revert c.
    induction svcs as [|svc svcs IH]; intros c; [done|]. cbn [map foldl]. by rewrite sync_trim, IH.
  - destruct o as [| | | | |es| | |]; try done. cbn [trimObject]. f_equal.
    unfold trimEndpointSlice. cbn. f_equal.
    + unfold trimSliceLabels. destruct (es_Labels es !! _); [|by rewrite lookup_empty].
      by rewrite lookup_singleton_eq.
    + unfold trimEndpoints. by rewrite <-list_fmap_compose.
Qed.
