(* ===== verification/SharedInformer.v ===== *)
(** * SharedInformer: one informer as client-go documents it

    The code registers handlers with client-go's shared informers and relies on
    their contract: the objects go through the transform into the store, first
    those of one LIST and then those of the watch; each change is queued for the
    handler after the store has it; the handler is called on one notification at
    a time, in order; a resync repeats the stored objects as updates; a missed
    delete arrives as a tombstone; [HasSynced] says that the objects of the LIST
    are in the store, and nothing about the handler.  Informers.v and IstioRun.v
    compose it with the handlers of the two controllers. *)

From S2P Require Import Prelude.
Open Scope list_scope.

(** An object's namespace and name. *)
Abbreviation okey := (string * string)%type (only parsing).

Section informer.
Context {Obj : Type}.

Inductive notification :=
| NAdd (o : Obj)
| NUpdate (old o : Obj)
| NDelete (o : Obj).

(** ** Informers *)

(** [pending] is what of the LIST is not stored yet, [None] before its answer;
    [listed] and [deleted] are ghosts: the keys of the LIST and those deleted
    since. *)
Record informer := mkInformer {
  inf_started : bool;
  inf_pending : option (list (okey * Obj));
  inf_store : gmap okey Obj;
  inf_queue : list notification;
  inf_listed : list okey;
  inf_deleted : gset okey
}.
Definition NewInformer : informer := mkInformer false None ∅ [] [] ∅.

Definition HasSynced (i : informer) : bool :=
  inf_started i && match inf_pending i with Some [] => true | _ => false end.

Definition inf_run (i : informer) : informer :=
  mkInformer true (inf_pending i) (inf_store i) (inf_queue i) (inf_listed i) (inf_deleted i).
Definition inf_list (lst : list (okey * Obj)) (i : informer) : informer :=
  mkInformer (inf_started i) (Some lst) (inf_store i) (inf_queue i) lst.*1 (inf_deleted i).
Definition set_pending (lst : list (okey * Obj)) (i : informer) : informer :=
  mkInformer (inf_started i) (Some lst) (inf_store i) (inf_queue i) (inf_listed i) (inf_deleted i).
(** An object of the LIST or of the watch: transformed, stored, queued. *)
Definition observe (transform : Obj -> Obj) (key : okey) (o : Obj) (i : informer) : informer :=
  let o := transform o in
  let n := match inf_store i !! key with None => NAdd o | Some old => NUpdate old o end in
  mkInformer (inf_started i) (inf_pending i) (<[key := o]> (inf_store i)) (inf_queue i ++ [n])
    (inf_listed i) (inf_deleted i).
Definition remove (key : okey) (o : Obj) (i : informer) : informer :=
  mkInformer (inf_started i) (inf_pending i) (delete key (inf_store i)) (inf_queue i ++ [NDelete o])
    (inf_listed i) ({[key]} ∪ inf_deleted i).
Definition notify (n : notification) (i : informer) : informer :=
  mkInformer (inf_started i) (inf_pending i) (inf_store i) (inf_queue i ++ [n])
    (inf_listed i) (inf_deleted i).
Definition set_inf_queue (q : list notification) (i : informer) : informer :=
  mkInformer (inf_started i) (inf_pending i) (inf_store i) q (inf_listed i) (inf_deleted i).

Definition stored `{!RangeOrder okey Obj} (i : informer) : list Obj := snd <$> range_map (inf_store i).
End informer.
Arguments notification : clear implicits.
Arguments informer : clear implicits.

(** ** Steps *)

Section steps.
Context {Obj : Type} (transform tombstone : Obj -> Obj) (wf : okey -> Obj -> Prop).
Context (wf_transform : forall key o, wf key o -> wf key (transform o)).
Implicit Types (i : informer Obj).

(** What client-go does to the informer, delivery apart. *)
Inductive igrow : informer Obj -> informer Obj -> Prop :=
| t_same i : igrow i i
| t_run i : igrow i (inf_run i)
| t_list i lst :
    inf_started i = true -> inf_pending i = None ->
    Forall (fun ko => wf ko.1 ko.2) lst -> igrow i (inf_list lst i)
| t_store i key o lst :
    inf_pending i = Some ((key, o) :: lst) ->
    igrow i (observe transform key o (set_pending lst i))
| t_watch i key o :
    HasSynced i = true -> wf key o -> igrow i (observe transform key o i)
| t_remove i key o (tomb : bool) :
    HasSynced i = true -> inf_store i !! key = Some o ->
    igrow i (remove key (if tomb then tombstone o else o) i)
| t_resync i key o : inf_store i !! key = Some o -> igrow i (notify (NUpdate o o) i).
(** What a step of the system does to the informer. *)
Inductive itrans : informer Obj -> informer Obj -> Prop :=
| t_grow i i' : igrow i i' -> itrans i i'
| t_deliver i n q : inf_queue i = n :: q -> itrans i (set_inf_queue q i).
#[local] Hint Constructors igrow itrans : core.

Lemma HasSynced_itrans i i' : itrans i i' -> HasSynced i = true -> HasSynced i' = true.
Proof.
  unfold HasSynced. intros Ht [Hst Hp]%andb_true_iff. destruct Ht as [? ? Ht|]; [destruct Ht|]; cbn; rewrite ?Hst; cbn; try done.
  - by rewrite H0 in Hp.
  - by rewrite H in Hp.
Qed.

(** An informer that was not started holds nothing; the objects it holds are of
    its kind and under their own key; a key of the LIST is stored, deleted since
    or still pending. *)
Record inf_ok (i : informer Obj) : Prop := {
  ok_idle : inf_started i = false -> inf_pending i = None /\ inf_store i = ∅ /\ inf_queue i = [];
  ok_store : map_Forall wf (inf_store i);
  ok_pending : Forall (fun ko => wf ko.1 ko.2) (default [] (inf_pending i));
  ok_listed : forall key, key ∈ inf_listed i ->
    is_Some (inf_store i !! key) \/ key ∈ inf_deleted i \/ key ∈ (default [] (inf_pending i)).*1
}.

Lemma inf_ok_new : inf_ok NewInformer.
Proof. split; [done|by intros ? ?|by apply Forall_nil|by intros ? ?%elem_of_nil]. Qed.

Lemma observe_ok key o i :
  inf_started i = true -> wf key o ->
  map_Forall wf (inf_store i) ->
  Forall (fun ko => wf ko.1 ko.2) (default [] (inf_pending i)) ->
  (forall key', key' ∈ inf_listed i -> key' = key \/ is_Some (inf_store i !! key') \/
     key' ∈ inf_deleted i \/ key' ∈ (default [] (inf_pending i)).*1) ->
  inf_ok (observe transform key o i).
Proof.
  intros Hst Hwf Hs Hp Hl. split; cbn.
  - by rewrite Hst.
  - apply map_Forall_insert_2; [by apply wf_transform|done].
  - done.
  - intros key' Hk. destruct (decide (key = key')) as [->|Hne].
    + left. by rewrite lookup_insert_eq.
    + rewrite lookup_insert_ne by done. destruct (Hl key' Hk) as [?|Hrest]; [by subst|done].
Qed.

Lemma pending_started i : inf_ok i -> inf_pending i <> None -> inf_started i = true.
Proof. intros Hok Hp. destruct (inf_started i) eqn:Hs; [done|]. by destruct (ok_idle _ Hok Hs) as [? _]. Qed.

Lemma inf_ok_itrans i i' : itrans i i' -> inf_ok i -> inf_ok i'.
Proof.
  intros Ht Hok. pose proof Hok as [Hidle Hs Hp Hl]. destruct Ht as [? ? Ht|]; [destruct Ht|].
  - done.
  - by split.
  - split; cbn; [by rewrite H|done|done|]. intros key Hk. by right; right.
  - apply observe_ok; cbn; [by apply pending_started; [|by rewrite H]|..];
      rewrite H in Hp; cbn in Hp; apply Forall_cons in Hp as [Ho Hp]; [done..|].
    intros key' Hk. specialize (Hl key' Hk). rewrite H in Hl. cbn in Hl. rewrite elem_of_cons in Hl.
    naive_solver.
  - apply andb_true_iff in H as [Hst _]. apply observe_ok; [done..|]. intros key' Hk. right. by apply Hl.
  - apply andb_true_iff in H as [Hst _]. split; cbn.
    + by rewrite Hst.
    + by apply map_Forall_delete.
    + done.
    + intros key' Hk. destruct (decide (key = key')) as [->|Hne]; [right; left; set_solver|].
      rewrite lookup_delete_ne by done. destruct (Hl key' Hk) as [?|[?|?]]; [by left|right; left; set_solver|by right; right].
  - split; cbn; try done. intros Hst. destruct (Hidle Hst) as (_ & He & _). by rewrite He in H.
  - split; cbn; try done. intros Hst. destruct (Hidle Hst) as (_ & _ & He). by rewrite He in H.
Qed.

(** ** Notifications *)

(** A notification about the object of a key. *)
Inductive note_at (key : okey) : notification Obj -> Prop :=
| note_add o : wf key o -> note_at key (NAdd o)
| note_update old o : wf key old -> wf key o -> note_at key (NUpdate old o)
| note_delete o : wf key o -> note_at key (NDelete o)
| note_tombstone o : wf key o -> note_at key (NDelete (tombstone o)).
#[local] Hint Constructors note_at : core.
Definition note_ok (n : notification Obj) : Prop := exists key, note_at key n.
Definition notes_ok (i : informer Obj) : Prop := Forall note_ok (inf_queue i).

Lemma queue_note key n i : notes_ok i -> note_at key n -> Forall note_ok (inf_queue i ++ [n]).
Proof. intros Hn Ha. apply Forall_app. split; [done|]. apply Forall_singleton. by exists key. Qed.

Lemma observe_notes key o i :
  map_Forall wf (inf_store i) -> wf key o -> notes_ok i -> notes_ok (observe transform key o i).
Proof.
  intros Hs Ho Hn. apply (queue_note key); [done|]. apply wf_transform in Ho.
  destruct (inf_store i !! key) as [old|] eqn:Hold; [|auto]. apply (Hs key) in Hold. auto.
Qed.

Lemma notes_igrow i i' : igrow i i' -> inf_ok i -> notes_ok i -> notes_ok i'.
Proof.
  intros Hg Hok Hn. pose proof (ok_store _ Hok) as Hs. destruct Hg; try done.
  - pose proof (ok_pending _ Hok) as Hp. rewrite H in Hp. apply Forall_cons in Hp as [Ho _].
    by apply observe_notes.
  - by apply observe_notes.
  - apply (queue_note key); [done|]. apply (Hs key) in H0. destruct tomb; auto.
  - apply (queue_note key); [done|]. apply (Hs key) in H. auto.
Qed.

Lemma notes_tail n q i : inf_queue i = n :: q -> notes_ok i -> note_ok n /\ notes_ok (set_inf_queue q i).
Proof. unfold notes_ok. intros ->. by rewrite Forall_cons. Qed.

Lemma itrans_started i i' : itrans i i' -> inf_started i = true -> inf_started i' = true.
Proof. destruct 1 as [? ? Ht|]; [by destruct Ht|done]. Qed.
End steps.
#[export] Hint Constructors igrow itrans : sniffer.
