(* ===== verification/Informers.v ===== *)
(** * Informers: the controller's run (internal/resolver/k8s_linux.go, NewController and Run)

    [Run] registers its handlers, starts the informers in two phases, makes one
    pass over the ClusterIPs and reports itself synced, while the informers
    deliver events to the handlers.  [istep] interleaves the two; the informers'
    steps are those of SharedInformer.v.  A handler is one step; handlers of
    different informers interleave in any order. *)

From S2P Require Import Prelude Golang Netip Model Kube Resolver Endpoints Controller Transform SharedInformer.
Open Scope string_scope.
Open Scope list_scope.
Open Scope Z_scope.

Inductive kind := KReplicaSet | KJob | KPod | KNode | KService | KSlice.
#[export] Instance kind_eq_dec : EqDecision kind.
Proof. solve_decision. Defined.

Section informers.
Context {Rest : Type} (zeroRest : Rest).
Context {RO : RangeOrder okey (object Rest)}.

(** ** The handlers Run registers *)

Definition call (l : Listers Rest) (k : kind) (n : notification (object Rest)) (c : Cache) : Cache :=
  match k, n with
  | (KReplicaSet | KJob), _ => c
  | KPod, (NAdd o | NUpdate _ o) => onPod l o c
  | KPod, NDelete o => onPodDelete o c
  | KNode, (NAdd o | NUpdate _ o) => onNode o c
  | KNode, NDelete o => onNodeDelete o c
  | KService, NAdd o => onService l o c
  | KService, NUpdate old o => onServiceUpdate l old o c
  | KService, NDelete o => onServiceDelete o c
  | KSlice, NAdd o => onEndpointSlice l o c
  | KSlice, NUpdate old o => onEndpointSliceUpdate l old o c
  | KSlice, NDelete o => onEndpointSliceDelete l o c
  end.

(** ** The listers: views of the stores *)

Definition listers_of (inf : kind -> informer (object Rest)) : Listers Rest :=
  mkListers
    (fun ns n => inf_store (inf KPod) !! (ns, n) ≫= asPod)
    (fun ns n => inf_store (inf KReplicaSet) !! (ns, n) ≫=
       fun o => match o with OReplicaSet r => Some r | _ => None end)
    (fun ns n => inf_store (inf KJob) !! (ns, n) ≫=
       fun o => match o with OJob j => Some j | _ => None end)
    (fun ns n => inf_store (inf KService) !! (ns, n) ≫= asService)
    (Some (omap asService (stored (inf KService))))
    (fun ns svc => Some (filter (fun es => es_Namespace es = ns /\
         es_Labels es !! endpointSliceServiceNameLabel = Some svc)
       (omap asEndpointSlice (stored (inf KSlice))))).

(** ** Run *)

Inductive run_pc :=
| Begin
| Phase1                          (* ReplicaSets and Jobs run; waiting for both to sync *)
| Phase2                          (* all run; waiting for the other four to sync *)
| Pass (rest : list (Service Rest)) (* in reindexAllClusterIPs *)
| Ready                           (* syncedChan is closed; waiting for ctx *)
| Returned.

Record state := mkState {
  st_inf : kind -> informer (object Rest);
  st_cache : Cache;
  st_pc : run_pc
}.
Definition NewController : state := mkState (fun _ => NewInformer) NewCache Begin.

Definition upd (k : kind) (i : informer (object Rest)) (inf : kind -> informer (object Rest)) : kind -> informer (object Rest) :=
  fun k' => if decide (k' = k) then i else inf k'.
Definition start (ks : list kind) (inf : kind -> informer (object Rest)) : kind -> informer (object Rest) :=
  fun k => if decide (k ∈ ks) then inf_run (inf k) else inf k.
Definition phase1 : list kind := [KReplicaSet; KJob].
Definition phase2 : list kind := [KPod; KNode; KService; KSlice].
Definition waits (pc : run_pc) : bool :=
  match pc with Begin | Phase1 | Phase2 | Ready => true | _ => false end.

(** ** Objects of the cluster *)

(** A UID names one pod for ever: [uid_key] is the key of that pod. *)
Context (uid_key : string -> okey).
Definition wf_object (k : kind) (key : okey) (o : object Rest) : Prop :=
  match k, o with
  | KPod, OPod p =>
      key = (pod_Namespace p, pod_Name p) /\ (pod_UID p <> "" -> uid_key (pod_UID p) = key)
  | KReplicaSet, OReplicaSet r => key = (rs_Namespace r, rs_Name r)
  | KJob, OJob j => key = (job_Namespace j, job_Name j)
  | KNode, ONode n => key = ("", node_Name n)
  | KService, OService s => key = (svc_Namespace s, svc_Name s)
  | KSlice, OEndpointSlice e => key = (es_Namespace e, es_Name e)
  | _, _ => False
  end.

(** ** Steps *)

Inductive istep : state -> state -> Prop :=
| i_phase1 inf c :
    istep (mkState inf c Begin) (mkState (start phase1 inf) c Phase1)
| i_phase2 inf c :
    Forall (fun k => HasSynced (inf k) = true) phase1 ->
    istep (mkState inf c Phase1) (mkState (start phase2 inf) c Phase2)
| i_pass inf c :
    Forall (fun k => HasSynced (inf k) = true) phase2 ->
    istep (mkState inf c Phase2) (mkState inf c (Pass (default [] (l_Services (listers_of inf)))))
| i_sync inf c svc rest :
    istep (mkState inf c (Pass (svc :: rest)))
          (mkState inf (syncServiceClusterIPs (listers_of inf) (Some svc) c) (Pass rest))
| i_ready inf c :
    istep (mkState inf c (Pass [])) (mkState inf c Ready)
| i_return inf c pc :
    waits pc = true -> istep (mkState inf c pc) (mkState inf c Returned)
| i_list inf c pc k lst :
    inf_started (inf k) = true -> inf_pending (inf k) = None ->
    Forall (fun ko => wf_object k ko.1 ko.2) lst ->
    istep (mkState inf c pc) (mkState (upd k (inf_list lst (inf k)) inf) c pc)
| i_store inf c pc k key o lst :
    inf_pending (inf k) = Some ((key, o) :: lst) ->
    istep (mkState inf c pc) (mkState (upd k (observe (trimObject zeroRest) key o (set_pending lst (inf k))) inf) c pc)
| i_watch inf c pc k key o :
    HasSynced (inf k) = true -> wf_object k key o ->
    istep (mkState inf c pc) (mkState (upd k (observe (trimObject zeroRest) key o (inf k)) inf) c pc)
| i_remove inf c pc k key o (tomb : bool) :
    HasSynced (inf k) = true -> inf_store (inf k) !! key = Some o ->
    istep (mkState inf c pc)
          (mkState (upd k (remove key (if tomb then OTombstone o else o) (inf k)) inf) c pc)
| i_resync inf c pc k key o :
    inf_store (inf k) !! key = Some o ->
    istep (mkState inf c pc) (mkState (upd k (notify (NUpdate o o) (inf k)) inf) c pc)
| i_deliver inf c pc k n q :
    inf_queue (inf k) = n :: q ->
    istep (mkState inf c pc)
          (mkState (upd k (set_inf_queue q (inf k)) inf) (call (listers_of inf) k n c) pc).

Definition ireachable : state -> Prop := reachable (fun x => x = NewController) istep.
End informers.

(** ** One informer at a time *)

Section invariants.
Context {Rest : Type} (zeroRest : Rest).
Context {RO : RangeOrder okey (object Rest)}.
Context (uid_key : string -> okey).
Implicit Types (i : informer (object Rest)) (x y : @state Rest).

Abbreviation wf k := (wf_object uid_key k) (only parsing).
Abbreviation tr := (trimObject zeroRest) (only parsing).
Abbreviation tomb := (@OTombstone Rest) (only parsing).
#[local] Hint Constructors igrow itrans : core.

Lemma upd_eq k i (inf : kind -> informer (object Rest)) : upd k i inf k = i.
Proof. unfold upd. by rewrite decide_True. Qed.
Lemma upd_ne k k' i (inf : kind -> informer (object Rest)) : k' <> k -> upd k i inf k' = inf k'.
Proof. intros ?. unfold upd. by rewrite decide_False. Qed.

Lemma istep_cases x y k :
  istep zeroRest uid_key x y ->
  (exists n q, inf_queue (st_inf x k) = n :: q /\ st_inf y k = set_inf_queue q (st_inf x k) /\
     st_cache y = call (listers_of (st_inf x)) k n (st_cache x)) \/
  (igrow tr tomb (wf k) (st_inf x k) (st_inf y k) /\
   (st_cache y = st_cache x \/
    (exists svc, st_cache y = syncServiceClusterIPs (listers_of (st_inf x)) svc (st_cache x)) \/
    exists k' n, k' <> k /\ st_cache y = call (listers_of (st_inf x)) k' n (st_cache x))).
Proof.
  intros Hs.
  assert (forall k' i' inf, igrow tr tomb (wf k') (inf k') i' -> igrow tr tomb (wf k) (inf k) (upd k' i' inf k)) as Hupd.
  { intros k' i' inf Ht. destruct (decide (k = k')) as [->|Hne]; [by rewrite upd_eq|].
    rewrite upd_ne by done. auto. }
  destruct Hs; cbn [st_inf st_cache]; try (right; split; [apply Hupd; by eauto|by auto]);
    try (right; split; [|by eauto]; unfold start; try case_decide; by auto).
  destruct (decide (k0 = k)) as [->|Hne]; [left; exists n, q; by rewrite upd_eq|].
  right. rewrite upd_ne by done. split; [by auto|]. right; right. exists k0, n. split; [by intros ->|done].
Qed.

Lemma istep_itrans x y k : istep zeroRest uid_key x y -> itrans tr tomb (wf k) (st_inf x k) (st_inf y k).
Proof. intros [(n & q & Hq & -> & _)|[Ht _]]%(istep_cases x y k); eauto. Qed.

Lemma wf_trimObject k key (o : object Rest) :
  wf_object uid_key k key o -> wf_object uid_key k key (trimObject zeroRest o).
Proof. by destruct k, o. Qed.

(** ** Phases *)

Definition phases_ok x : Prop :=
  (forall k, k ∈ phase2 -> inf_started (st_inf x k) = true ->
     Forall (fun k => HasSynced (st_inf x k) = true) phase1) /\
  (match st_pc x with Pass _ | Ready => Forall (fun k => HasSynced (st_inf x k) = true) phase2 | _ => True end).

Definition run_ok x : Prop := (forall k, inf_ok (wf k) (st_inf x k)) /\ phases_ok x.

Lemma synced_istep x y ks :
  istep zeroRest uid_key x y -> Forall (fun k => HasSynced (st_inf x k) = true) ks ->
  Forall (fun k => HasSynced (st_inf y k) = true) ks.
Proof.
  intros Hs Hks. eapply Forall_impl; [exact Hks|]. intros k. apply (HasSynced_itrans tr tomb (wf k)).
  by apply istep_itrans.
Qed.

Lemma upd_started k i k' (inf : kind -> informer (object Rest)) :
  inf_started i = inf_started (inf k) -> inf_started (upd k i inf k') = inf_started (inf k').
Proof. intros Hi. destruct (decide (k' = k)) as [->|]; [by rewrite upd_eq|by rewrite upd_ne]. Qed.

Lemma istep_started x y k :
  istep zeroRest uid_key x y -> k ∈ phase2 -> inf_started (st_inf y k) = true ->
  inf_started (st_inf x k) = true \/ Forall (fun k => HasSynced (st_inf x k) = true) phase1.
Proof.
  intros Hs Hk Hst. destruct Hs; cbn [st_inf] in *; auto;
    try (rewrite upd_started in Hst by done; by left).
  left. unfold start in Hst. rewrite decide_False in Hst; [done|].
  unfold phase1, phase2 in *. set_solver.
Qed.

Lemma run_ok_init : run_ok NewController.
Proof. split; [intros k; apply inf_ok_new|]. by split. Qed.

Lemma run_ok_step x y : run_ok x -> istep zeroRest uid_key x y -> run_ok y.
Proof.
  intros [Hok [Hph Hpc]] Hs. split; [|split].
  - intros k. by apply (inf_ok_itrans tr tomb (wf k) (wf_trimObject k) (st_inf x k)); [apply istep_itrans|].
  - intros k Hk Hst. apply (synced_istep x); [done|].
    destruct (istep_started x y k Hs Hk Hst) as [Hx|]; [|done]. by apply (Hph k).
  - pose proof (synced_istep x y phase2 Hs) as Hkeep.
    destruct Hs; cbn in *; auto; try (destruct pc; auto).
Qed.

Lemma run_ok_reachable x : ireachable zeroRest uid_key x -> run_ok x.
Proof. apply reachable_invariant; [by intros ? ->; apply run_ok_init|]. intros. by eapply run_ok_step. Qed.
End invariants.

(** ** What the handlers do to the UID index *)

Lemma foldl_frame {X Y} (g : Cache -> Y) (f : Cache -> X -> Cache) (xs : list X) c :
  (forall c x, g (f c x) = g c) -> g (foldl f c xs) = g c.
Proof. intros Hf. revert c. induction xs as [|x xs IH]; intros c; [done|]. cbn. by rewrite IH. Qed.

Section uids.
Context {Rest : Type} (zeroRest : Rest).
Context {RO : RangeOrder okey (object Rest)}.
Context (uid_key : string -> okey).
Implicit Types (i : informer (object Rest)) (x y : @state Rest) (l : Listers Rest).

Lemma indexPorts_byUID es c : byUID (indexPorts es c) = byUID c.
Proof. apply foldl_frame. intros c' e. unfold UpsertPort. by case_decide. Qed.
Lemma reindexPorts_byUID old new c : byUID (reindexPorts old new c) = byUID c.
Proof.
  unfold reindexPorts. etrans; [|apply indexPorts_byUID]. apply foldl_frame.
  intros c' e. by case_decide.
Qed.
Lemma sync_byUID l svc c : byUID (syncServiceClusterIPs l svc c) = byUID c.
Proof.
  unfold syncServiceClusterIPs. destruct svc as [svc|]; [|done]. case_decide; [done|].
  destruct (l_EndpointSlices _ _ _); [|done]. apply foldl_frame. intros c' ip. by destruct (serviceWorkload _ _ _).
Qed.
Lemma sync_slice_byUID l es c : byUID (syncServiceForSlice l es c) = byUID c.
Proof.
  unfold syncServiceForSlice. destruct es as [es|]; [|done]. case_decide; [done|].
  destruct (l_Service _ _ _); [apply sync_byUID|done].
Qed.

Lemma call_byUID l k (n : notification (object Rest)) c : k <> KPod -> byUID (call l k n c) = byUID c.
Proof.
  intros Hk. destruct k, n; try done; cbn.
  - unfold onNode. destruct (asNode o); [|done]. by apply foldl_frame.
  - unfold onNode. destruct (asNode o); [|done]. by apply foldl_frame.
  - unfold onNodeDelete. destruct (unwrap asNode o); [|done]. by apply foldl_frame.
  - unfold onService. destruct (asService o); [|done]. rewrite sync_byUID. apply indexPorts_byUID.
  - unfold onServiceUpdate. destruct (asService o) as [s|]; [|by rewrite reindexPorts_byUID].
    rewrite sync_byUID. destruct (asService old); [|by rewrite reindexPorts_byUID].
    rewrite foldl_frame by (intros; by case_decide). by rewrite reindexPorts_byUID.
  - unfold onServiceDelete. destruct (unwrap asService o); [|done].
    etrans; [apply (foldl_frame byUID)|apply (foldl_frame byUID)]; done.
  - unfold onEndpointSlice. destruct (asEndpointSlice o); [|done]. rewrite sync_slice_byUID. apply indexPorts_byUID.
  - unfold onEndpointSliceUpdate. destruct (asEndpointSlice old), (asEndpointSlice o); try case_decide;
      rewrite ?sync_slice_byUID; apply reindexPorts_byUID.
  - unfold onEndpointSliceDelete. destruct (unwrap asEndpointSlice o); [|done].
    rewrite sync_slice_byUID. by apply foldl_frame.
Qed.

(** The namespace under which a notification leaves a UID indexed. *)
Definition says_indexed (u : string) (b : option string) (n : notification (object Rest)) : option string :=
  match n with
  | NAdd o | NUpdate _ o =>
      match asPod o with
      | Some p => if decide (pod_UID p = u) then Some (pod_Namespace p) else b
      | None => b
      end
  | NDelete o =>
      match unwrap asPod o with
      | Some p => if decide (pod_UID p = u) then None else b
      | None => b
      end
  end.
Definition indexed (u : string) (c : Cache) : option string := WlNamespace <$> LookupUID c u.

Lemma indexed_byUID u c c' : byUID c' = byUID c -> indexed u c' = indexed u c.
Proof. unfold indexed, LookupUID, Cache_UIDStore, cacheLookupUID. by intros ->. Qed.

Lemma podWorkload_namespace l (p : Pod Rest) : WlNamespace (podWorkload l p) = pod_Namespace p.
Proof. unfold podWorkload, ResolveTopOwner. by destruct (owner_walk _ _ _ _ _). Qed.

Lemma onPod_indexed l o c u : u <> "" -> indexed u (onPod l o c) = says_indexed u (indexed u c) (NAdd o).
Proof.
  intros Hu. unfold onPod. cbn. destruct (asPod o) as [p|]; [|done].
  set (c1 := if decide (pod_UID p <> "") then _ else c).
  transitivity (indexed u c1).
  { apply indexed_byUID. destruct (pod_HostNetwork p); [done|]. by apply foldl_frame. }
  unfold c1, indexed, LookupUID, Cache_UIDStore, cacheLookupUID.
  destruct (decide (pod_UID p <> "")) as [Hp|Hp]; cbn.
  - case_decide as He; [subst|by rewrite lookup_insert_ne].
    rewrite lookup_insert_eq. cbn. by rewrite podWorkload_namespace.
  - rewrite decide_False; [done|]. intros He. apply Hp. by rewrite He.
Qed.

Lemma onPodDelete_indexed (o : object Rest) c u :
  u <> "" -> indexed u (onPodDelete o c) = says_indexed u (indexed u c) (NDelete o).
Proof.
  intros Hu. unfold onPodDelete. cbn. destruct (unwrap asPod o) as [p|]; [|done].
  unfold indexed, LookupUID, Cache_UIDStore, cacheLookupUID.
  destruct (decide (pod_UID p <> "")) as [Hp|Hp]; cbn.
  - rewrite (proj1 (delete_all_frame _ _)).
    case_decide as He; [subst; by rewrite lookup_delete_eq|by rewrite lookup_delete_ne].
  - rewrite (proj1 (delete_all_frame _ _)), decide_False; [done|]. intros He. apply Hp. by rewrite He.
Qed.

Lemma call_indexed l (n : notification (object Rest)) c u :
  u <> "" -> indexed u (call l KPod n c) = says_indexed u (indexed u c) n.
Proof. destruct n; cbn [call]; [by apply onPod_indexed..|by apply onPodDelete_indexed]. Qed.

(** Notifications about one pod leave the UIDs of the others alone. *)
Inductive about (o : object Rest) : notification (object Rest) -> Prop :=
| about_add : about o (NAdd o)
| about_update old : about o (NUpdate old o)
| about_delete : about o (NDelete o)
| about_tomb : about o (NDelete (OTombstone o)).

Lemma says_other (p : Pod Rest) key o' key' b n :
  wf_object uid_key KPod key (OPod p) -> wf_object uid_key KPod key' o' -> key <> key' ->
  pod_UID p <> "" -> about o' n -> says_indexed (pod_UID p) b n = b.
Proof.
  intros [_ Hp] Ho Hne Hu Hn. destruct o' as [p'| | | | | | | |]; try done. destruct Ho as [_ Hp'].
  assert (pod_UID p' <> pod_UID p) as Hd.
  { intros He. apply Hne. rewrite <-(Hp Hu), <-He. apply Hp'. by rewrite He. }
  destruct Hn; cbn; by rewrite decide_False.
Qed.

(** Once the queued notifications are handled, every stored pod is indexed. *)
Definition pods_indexed (c : Cache) (i : informer (object Rest)) : Prop :=
  forall key (p : Pod Rest), inf_store i !! key = Some (OPod p) -> pod_UID p <> "" ->
  foldl (says_indexed (pod_UID p)) (indexed (pod_UID p) c) (inf_queue i) = Some (pod_Namespace p).

Lemma observe_indexed c key o i :
  map_Forall (wf_object uid_key KPod) (inf_store i) -> wf_object uid_key KPod key o ->
  pods_indexed c i -> pods_indexed c (observe (trimObject zeroRest) key o i).
Proof.
  intros Hs Ho Hi key' p Hl Hu. cbn in *. rewrite foldl_app. cbn.
  pose proof (wf_trimObject zeroRest uid_key KPod key o Ho) as Hwf.
  destruct (decide (key = key')) as [->|Hne].
  - rewrite lookup_insert_eq in Hl. injection Hl as Hl. rewrite Hl.
    destruct (inf_store i !! key'); cbn; by rewrite decide_True.
  - rewrite lookup_insert_ne in Hl by done.
    rewrite (says_other p key' (trimObject zeroRest o) key); [by apply (Hi key')| | | | |];
      [by apply (Hs key')|done|done|done|]. destruct (inf_store i !! key); constructor.
Qed.

Lemma igrow_indexed c i i' :
  igrow (trimObject zeroRest) OTombstone (wf_object uid_key KPod) i i' -> inf_ok (wf_object uid_key KPod) i -> pods_indexed c i -> pods_indexed c i'.
Proof.
  intros Ht Hok Hi. pose proof (ok_store _ _ Hok) as Hs. destruct Ht; try done.
  - pose proof (ok_pending _ _ Hok) as Hp. rewrite H in Hp. cbn in Hp.
    apply Forall_cons in Hp as [Ho _]. by apply observe_indexed.
  - by apply observe_indexed.
  - intros key' p Hl Hu. cbn in *. rewrite foldl_app. cbn [foldl].
    destruct (decide (key = key')) as [->|Hne]; [by rewrite lookup_delete_eq in Hl|].
    rewrite lookup_delete_ne in Hl by done.
    rewrite (says_other p key' o key); [by apply (Hi key')|by apply (Hs key')|by apply (Hs key)|done|done|].
    destruct tomb; constructor.
  - intros key' p Hl Hu. cbn in *. rewrite foldl_app. cbn [foldl].
    destruct (decide (key = key')) as [->|Hne].
    + rewrite Hl in H. injection H as <-. cbn. by rewrite decide_True.
    + rewrite (says_other p key' o key); [by apply (Hi key')|by apply (Hs key')|by apply (Hs key)|done|done|].
      constructor.
Qed.

Lemma pods_indexed_byUID c c' i : byUID c' = byUID c -> pods_indexed c i -> pods_indexed c' i.
Proof. intros Hc Hi key p Hl Hu. rewrite (indexed_byUID _ c c' Hc). by apply (Hi key). Qed.

Lemma pods_indexed_step x y :
  run_ok uid_key x -> pods_indexed (st_cache x) (st_inf x KPod) -> istep zeroRest uid_key x y ->
  pods_indexed (st_cache y) (st_inf y KPod).
Proof.
  intros [Hok _] Hi Hs.
  destruct (istep_cases zeroRest uid_key x y KPod Hs) as [(n & q & Hq & -> & ->)|[Ht Hc]].
  - intros key p Hl Hu. cbn [inf_store inf_queue set_inf_queue] in *. rewrite call_indexed by done.
    specialize (Hi key p Hl Hu). by rewrite Hq in Hi.
  - apply (igrow_indexed _ _ (st_inf y KPod)) in Hi; [|done|by apply Hok].
    destruct Hc as [->|[(svc & ->)|(k' & n & Hk & ->)]]; [done|..]; revert Hi; apply pods_indexed_byUID.
    + apply sync_byUID.
    + by apply call_byUID.
Qed.

Lemma pods_indexed_reachable x :
  ireachable zeroRest uid_key x -> pods_indexed (st_cache x) (st_inf x KPod).
Proof.
  intros Hr. enough (run_ok uid_key x /\ pods_indexed (st_cache x) (st_inf x KPod)) by tauto.
  revert x Hr. apply reachable_invariant.
  - intros ? ->. split; [apply run_ok_init|]. intros key p Hl. cbn in Hl. by rewrite lookup_empty in Hl.
  - intros x y [Hok Hi] Hs. split; [by eapply run_ok_step|by eapply pods_indexed_step].
Qed.
End uids.

(** ** The start-up pass *)

Section pass.
Context {Rest : Type} (l : Listers Rest) (slices_of : Service Rest -> list (EndpointSlice Rest)).

Lemma pass_lookup svcs c :
  (forall s, s ∈ svcs -> l_EndpointSlices l (svc_Namespace s) (svc_Name s) = Some (slices_of s)) ->
  (forall s s', s ∈ svcs -> s' ∈ svcs -> forall addr ip, addr ∈ slice_addrs (Some <$> slices_of s) ->
     ParseAddr addr = Some ip -> ~ ips_of s' ip) ->
  (forall s s' ip, s ∈ svcs -> s' ∈ svcs -> ips_of s ip -> ips_of s' ip -> s = s') ->
  let c' := foldl (fun c s => syncServiceClusterIPs l (Some s) c) c svcs in
  (forall s ip, s ∈ svcs -> ips_of s ip ->
     LookupIP c' ip = serviceWorkload (Some s) (Some <$> slices_of s) c) /\
  (forall ip, (forall s, s ∈ svcs -> ~ ips_of s ip) -> LookupIP c' ip = LookupIP c ip).
Proof.
  induction svcs as [|s svcs IH] using rev_ind; intros Hsl Hap Hdj; cbv zeta.
  { split; [by intros s ip ?%elem_of_nil|done]. }
  destruct IH as [IH1 IH2];
    [intros; apply Hsl; set_solver|intros s1 s2 ? ?; apply Hap; set_solver|intros; eapply Hdj; set_solver|].
  rewrite foldl_snoc. set (c1 := foldl _ c svcs) in *.
  assert (forall ip, LookupIP (syncServiceClusterIPs l (Some s) c1) ip =
    if decide (ips_of s ip) then serviceWorkload (Some s) (Some <$> slices_of s) c1 else LookupIP c1 ip) as Hs.
  { intros ip. apply sync_lookup. apply Hsl. set_solver. }
  assert (forall s', s' ∈ svcs ++ [s] ->
    serviceWorkload (Some s') (Some <$> slices_of s') c1 = serviceWorkload (Some s') (Some <$> slices_of s') c) as He.
  { intros s' Hs'. apply serviceWorkload_ext. intros addr ip Ha Hp. apply IH2.
    intros s2 Hs2. apply (Hap s' s2 Hs' ltac:(set_solver) addr ip Ha Hp). }
  split.
  - intros s' ip Hin Hips. rewrite Hs. case_decide as Hd.
    + rewrite (Hdj s' s ip) by set_solver. apply He. set_solver.
    + apply IH1; [|done]. apply elem_of_app in Hin as [?|Hin]; [done|].
      apply list_elem_of_singleton in Hin as ->. done.
  - intros ip Hno. rewrite Hs, decide_False by (apply Hno; set_solver). apply IH2. intros; apply Hno. set_solver.
Qed.
End pass.

(** ** Properties *)

(** C17: the two-phase start closes the ownership race: in every reachable state in
    which a pod notification is waiting, the ReplicaSet and Job informers are
    synced, so when the handler gets a stored pod controlled by a ReplicaSet of
    the initial LIST that was not deleted, it finds the ReplicaSet and indexes
    the pod's UID and own addresses under the ReplicaSet's top-level owner. *)
Theorem two_phase_start {Rest} (zeroRest : Rest) {RO : RangeOrder okey (object Rest)} uid_key
    (x : @state Rest) n q p r
    (Hx : ireachable zeroRest uid_key x)
    (Hq : inf_queue (st_inf x KPod) = n :: q)
    (Hn : n = NAdd (OPod p) \/ exists old, n = NUpdate old (OPod p))
    (Hp : inf_store (st_inf x KPod) !! (pod_Namespace p, pod_Name p) = Some (OPod p))
    (Hr : controllerOf (pod_OwnerReferences p) = Some ("ReplicaSet", r))
    (Hlisted : (pod_Namespace p, r) ∈ inf_listed (st_inf x KReplicaSet))
    (Hkept : (pod_Namespace p, r) ∉ inf_deleted (st_inf x KReplicaSet)) :
  HasSynced (st_inf x KReplicaSet) = true /\ HasSynced (st_inf x KJob) = true /\
  exists rs, inf_store (st_inf x KReplicaSet) !! (pod_Namespace p, r) = Some (OReplicaSet rs) /\
    forall k d, controllerOf (rs_OwnerReferences rs) = Some (k, d) -> top_level k ->
    let c := call (listers_of (st_inf x)) KPod n (st_cache x) in
    let w := mkWorkload d (pod_Namespace p) k in
    (pod_UID p <> "" -> LookupUID c (pod_UID p) = Some w) /\
    (pod_HostNetwork p = false -> forall ip, Unmap ip ∈ Unmap <$> podIPs p -> LookupIP c ip = Some w).
Proof.
  destruct (run_ok_reachable zeroRest uid_key x Hx) as [Hok [Hph _]].
  assert (inf_started (st_inf x KPod) = true) as Hst.
  { destruct (inf_started (st_inf x KPod)) eqn:Hs; [done|].
    destruct (ok_idle _ _ (Hok KPod) Hs) as (_ & _ & He). by rewrite He in Hq. }
  assert (Forall (fun k => HasSynced (st_inf x k) = true) phase1) as Hsy by (apply (Hph KPod); [set_solver|done]).
  apply Forall_cons in Hsy as [Hrs [Hjob _]%Forall_cons]. split_and!; [done..|].
  destruct (ok_listed _ _ (Hok KReplicaSet) _ Hlisted) as [[o Ho]|[?|Hpe]]; [|done|].
  - pose proof (ok_store _ _ (Hok KReplicaSet) _ _ Ho) as Hwf. destruct o as [|rs| | | | | | |]; try done.
    exists rs. split; [done|]. intros k d Hc Hk c w.
    assert (podWorkload (listers_of (st_inf x)) p = w) as Hw.
    { destruct (pod_resolves_to_top_level (listers_of (st_inf x)) p) as (_ & _ & H & _).
      - unfold listers_of. cbn [l_Pod]. by rewrite Hp.
      - apply (H r rs k d); [done|unfold listers_of; cbn [l_ReplicaSet]; by rewrite Ho|done|done]. }
    assert (c = onPod (listers_of (st_inf x)) (OPod p) (st_cache x)) as ->.
    { unfold c. by destruct Hn as [->|[old ->]]. }
    unfold onPod. cbn [asPod]. rewrite Hw. split.
    + intros Hu. rewrite decide_True by done. destruct (pod_HostNetwork p).
      * apply lookup_insert_eq.
      * unfold LookupUID, Cache_UIDStore, cacheLookupUID. rewrite foldl_frame by done. apply lookup_insert_eq.
    + intros -> ip Hip. etrans; [apply (upsert_all_ip w)|]. by rewrite decide_True.
  - exfalso. unfold HasSynced in Hrs. apply andb_true_iff in Hrs as [_ Hrs].
    destruct (inf_pending _) as [[|]|]; [by apply elem_of_nil in Hpe|done..].
Qed.

(** No pod is lost: in every reachable state in which the pod handler has
    caught up, every stored pod is indexed by its UID, under its own namespace. *)
Lemma pod_uids_indexed {Rest} (zeroRest : Rest) {RO : RangeOrder okey (object Rest)} uid_key
    (x : @state Rest) key p
    (Hx : ireachable zeroRest uid_key x) (Hq : inf_queue (st_inf x KPod) = [])
    (Hp : inf_store (st_inf x KPod) !! key = Some (OPod p)) (Hu : pod_UID p <> "") :
  exists w, LookupUID (st_cache x) (pod_UID p) = Some w /\ WlNamespace w = pod_Namespace p.
Proof.
  pose proof (pods_indexed_reachable zeroRest uid_key x Hx key p Hp Hu) as Hi. rewrite Hq in Hi. cbn in Hi.
  unfold indexed in Hi. destruct (LookupUID _ _) as [w|]; [|done]. injection Hi as Hi. by exists w.
Qed.

(** The pass at the end of start-up maps every Service at once: each ClusterIP
    of each Service of the lister resolves to the workload its slices stand for
    in the cache the pass found, whatever the order of the Services, and no
    other address changes. *)
Lemma startup_pass_maps_services {Rest} (l : Listers Rest) slices_of svcs c
    (Hsvcs : l_Services l = Some svcs)
    (Hslices : forall s, s ∈ svcs ->
       l_EndpointSlices l (svc_Namespace s) (svc_Name s) = Some (slices_of s))
    (Hapart : forall s s', s ∈ svcs -> s' ∈ svcs -> forall addr ip,
       addr ∈ slice_addrs (Some <$> slices_of s) -> ParseAddr addr = Some ip -> ~ ips_of s' ip)
    (Hdisjoint : forall s s' ip, s ∈ svcs -> s' ∈ svcs -> ips_of s ip -> ips_of s' ip -> s = s') :
  let c' := reindexAllClusterIPs l c in
  (forall s ip, s ∈ svcs -> ips_of s ip ->
     LookupIP c' ip = serviceWorkload (Some s) (Some <$> slices_of s) c) /\
  (forall ip, (forall s, s ∈ svcs -> ~ ips_of s ip) -> LookupIP c' ip = LookupIP c ip) /\
  byUID c' = byUID c.
Proof.
  cbv zeta. unfold reindexAllClusterIPs. rewrite Hsvcs.
  destruct (pass_lookup l slices_of svcs c Hslices Hapart Hdisjoint) as [H1 H2].
  split_and!; [exact H1|exact H2|]. apply foldl_frame. intros c' s. apply sync_byUID.
Qed.

(** ** A run *)

Section run.
#[local] Instance run_order : RangeOrder okey (object unit) := canonical_order.

Definition run_uid_key (u : string) : okey := ("shop", "web-5f7c9-abcde").
Definition pod_key : okey := ("shop", "web-5f7c9-abcde").
Definition run_rs : object unit := OReplicaSet web_rs.
Definition run_pod : object unit := OPod web_pod.
Definition run_svc : object unit := OService sample_service.
Definition run_es : object unit := OEndpointSlice (sample_slice ["10.0.0.1"]).

Definition do_list (k : kind) (lst : list (okey * object unit)) (inf : kind -> informer (object unit)) : kind -> informer (object unit) :=
  upd k (inf_list lst (inf k)) inf.
Definition do_store (k : kind) (key : okey) (o : object unit) (inf : kind -> informer (object unit)) : kind -> informer (object unit) :=
  upd k (observe (trimObject tt) key o (set_pending [] (inf k))) inf.
Definition do_call (k : kind) (inf : kind -> informer (object unit)) : kind -> informer (object unit) :=
  upd k (set_inf_queue (tail (inf_queue (inf k))) (inf k)) inf.

(** Every informer lists one object of its kind, or none; the stores fill, and
    no handler but that of ReplicaSets has run. *)
Definition inf_owners : kind -> informer (object unit) :=
  do_call KReplicaSet (do_store KReplicaSet ("shop", "web-5f7c9") run_rs
    (do_list KJob [] (do_list KReplicaSet [(("shop", "web-5f7c9"), run_rs)]
      (start phase1 (fun _ => NewInformer))))).
Definition inf_stored : kind -> informer (object unit) :=
  do_store KSlice ("shop", "checkout-x") run_es (do_store KService ("shop", "checkout") run_svc
    (do_store KPod pod_key run_pod
      (do_list KSlice [(("shop", "checkout-x"), run_es)] (do_list KService [(("shop", "checkout"), run_svc)]
        (do_list KNode [] (do_list KPod [(pod_key, run_pod)] (start phase2 inf_owners))))))).

Lemma reach_list inf c pc k lst :
  inf_started (inf k) = true -> inf_pending (inf k) = None ->
  Forall (fun ko => wf_object run_uid_key k ko.1 ko.2) lst ->
  ireachable tt run_uid_key (mkState inf c pc) -> ireachable tt run_uid_key (mkState (do_list k lst inf) c pc).
Proof. intros ??? Hr. eapply reach_step; [exact Hr|by constructor]. Qed.
Lemma reach_store inf c pc k key o :
  inf_pending (inf k) = Some [(key, o)] ->
  ireachable tt run_uid_key (mkState inf c pc) -> ireachable tt run_uid_key (mkState (do_store k key o inf) c pc).
Proof. intros ? Hr. eapply reach_step; [exact Hr|by constructor]. Qed.
Lemma reach_call inf c pc k n q :
  inf_queue (inf k) = n :: q ->
  ireachable tt run_uid_key (mkState inf c pc) ->
  ireachable tt run_uid_key (mkState (do_call k inf) (call (listers_of inf) k n c) pc).
Proof.
  intros Hq Hr. unfold do_call. rewrite Hq. cbn [tail]. eapply reach_step; [exact Hr|by apply i_deliver].
Qed.

Lemma reach_owners : ireachable tt run_uid_key (mkState inf_owners NewCache Phase1).
Proof.
  apply (reach_call _ NewCache Phase1 KReplicaSet (NAdd (trimObject tt run_rs)) []); [reflexivity|].
  apply reach_store; [reflexivity|].
  apply reach_list; [reflexivity..|by constructor|].
  apply reach_list; [reflexivity..|by repeat constructor|].
  eapply reach_step; [by apply reach_init|constructor].
Qed.

Lemma reach_stored : ireachable tt run_uid_key (mkState inf_stored NewCache Phase2).
Proof.
  do 3 (apply reach_store; [reflexivity|]).
  do 4 (apply reach_list; [reflexivity..|by repeat constructor|]).
  eapply reach_step; [apply reach_owners|]. constructor. by repeat constructor.
Qed.

(** The Service and slice handlers run, then the pass, before the pod handler. *)
Definition inf_end : kind -> informer (object unit) :=
  do_call KPod (do_call KSlice (do_call KService inf_stored)).
Definition cache_pass : Cache :=
  let c := onService (listers_of inf_stored) (trimObject tt run_svc) NewCache in
  let c := onEndpointSlice (listers_of (do_call KService inf_stored)) (trimObject tt run_es) c in
  syncServiceClusterIPs (listers_of (do_call KSlice (do_call KService inf_stored)))
    (Some (trimService tt sample_service)) c.
Definition cache_end : Cache :=
  onPod (listers_of (do_call KSlice (do_call KService inf_stored))) (trimObject tt run_pod) cache_pass.

Lemma reach_pass :
  ireachable tt run_uid_key (mkState (do_call KSlice (do_call KService inf_stored)) cache_pass Ready).
Proof.
  eapply reach_step; [|constructor]. eapply reach_step; [|constructor].
  apply (reach_step _ _ (mkState (do_call KSlice (do_call KService inf_stored))
    (onEndpointSlice (listers_of (do_call KService inf_stored)) (trimObject tt run_es)
       (onService (listers_of inf_stored) (trimObject tt run_svc) NewCache)) Phase2)).
  - apply (reach_call _ _ _ KSlice (NAdd (trimObject tt run_es)) []); [reflexivity|].
    apply (reach_call _ _ _ KService (NAdd (trimObject tt run_svc)) []); [reflexivity|].
    apply reach_stored.
  - change (Pass [trimService tt sample_service]) with
      (Pass (default [] (l_Services (listers_of (do_call KSlice (do_call KService inf_stored)))))).
    apply i_pass. by repeat constructor.
Qed.

Lemma reach_end : ireachable tt run_uid_key (mkState inf_end cache_end Ready).
Proof. apply (reach_call _ _ _ KPod (NAdd (trimObject tt run_pod)) []); [reflexivity|apply reach_pass]. Qed.
End run.

(** "synced" does not mean what its comments promise.  A run exists in which
    the controller has closed [syncedChan] and every handler has caught up,
    nothing was deleted, a Service, its slice and its pod are all from the
    initial LISTs, the pod is indexed, and yet the Service's ClusterIP does not
    resolve, although its slices stand for a workload: [HasSynced] covers the
    store and not the handler, so the pass ran before the pod was indexed, and
    nothing re-derives the ClusterIP when a pod is.  The next resync of the
    Service repairs it. *)
Lemma synced_with_unmapped_service :
  let RO : RangeOrder okey (object unit) := canonical_order in
  exists (x : @state unit) svc slices vip w,
    ireachable tt run_uid_key x /\ st_pc x = Ready /\
    (forall k, inf_queue (st_inf x k) = [] /\ inf_deleted (st_inf x k) = ∅) /\
    (svc_Namespace svc, svc_Name svc) ∈ inf_listed (st_inf x KService) /\
    l_Services (listers_of (st_inf x)) = Some [svc] /\
    l_EndpointSlices (listers_of (st_inf x)) (svc_Namespace svc) (svc_Name svc) = Some slices /\
    vip ∈ clusterIPs svc /\
    serviceWorkload (Some svc) (Some <$> slices) (st_cache x) = Some w /\
    LookupIP (st_cache x) vip = None /\
    LookupIP (call (listers_of (st_inf x)) KService (NUpdate (OService svc) (OService svc)) (st_cache x)) vip
      = Some w.
Proof.
  cbv zeta.
  exists (mkState inf_end cache_end Ready), (trimService tt sample_service),
    [trimEndpointSlice tt (sample_slice ["10.0.0.1"])], service_ip, (mkWorkload "web" "shop" "Deployment").
  cbn [st_inf st_cache st_pc]. split_and!.
  - apply reach_end.
  - done.
  - intros k. by destruct k.
  - apply list_elem_of_In. vm_compute. auto.
  - vm_compute. reflexivity.
  - vm_compute. reflexivity.
  - apply list_elem_of_In. vm_compute. auto.
  - vm_compute. reflexivity.
  - vm_compute. reflexivity.
  - vm_compute. reflexivity.
Qed.

(** ** Witnesses *)

Lemma two_phase_start_witness :
  let RO : RangeOrder okey (object unit) := canonical_order in
  LookupIP (call (listers_of inf_stored) KPod (NAdd (OPod (trimPod tt web_pod))) NewCache) ip_a
    = Some (mkWorkload "web" "shop" "Deployment").
Proof.
  cbv zeta.
  destruct (two_phase_start (RO:=canonical_order) tt run_uid_key (mkState inf_stored NewCache Phase2)
    (NAdd (OPod (trimPod tt web_pod))) [] (trimPod tt web_pod) "web-5f7c9" reach_stored
    eq_refl (or_introl eq_refl) eq_refl eq_refl) as (_ & _ & rs & Hrs & H).
  - apply list_elem_of_In. vm_compute. auto.
  - apply not_elem_of_empty.
  - assert (rs = trimReplicaSet tt web_rs) as ->.
    { apply (f_equal (fun o => match o with Some (OReplicaSet r) => r | _ => rs end)) in Hrs.
      vm_compute in Hrs. by rewrite <-Hrs. }
    apply (H "Deployment" "web"); [reflexivity|by repeat split|reflexivity|].
    apply list_elem_of_In. vm_compute. auto.
Defined.

Lemma pod_uids_indexed_witness :
  let RO : RangeOrder okey (object unit) := canonical_order in
  exists w, LookupUID cache_end "uid-web" = Some w /\ WlNamespace w = "shop".
Proof.
  cbv zeta.
  by apply (pod_uids_indexed (RO:=canonical_order) tt run_uid_key (mkState inf_end cache_end Ready)
    pod_key (trimPod tt web_pod) reach_end eq_refl eq_refl).
Defined.

Lemma startup_pass_maps_services_witness :
  LookupIP (reindexAllClusterIPs sample_listers two_pods) service_ip = Some wl_a.
Proof.
  destruct (startup_pass_maps_services sample_listers (fun _ => [sample_slice ["10.0.0.1"]]) [sample_service] two_pods)
    as (H1 & _ & _).
  - reflexivity.
  - intros s ->%list_elem_of_singleton. reflexivity.
  - intros s s' ->%list_elem_of_singleton ->%list_elem_of_singleton addr ip Ha Hp Hin.
    apply list_elem_of_In in Ha. destruct Ha as [<-|[]].
    assert (ParseAddr "10.0.0.1" = Some ip_a) as Hpa by (vm_compute; reflexivity).
    rewrite Hpa in Hp. injection Hp as <-. apply list_elem_of_In in Hin. vm_compute in Hin.
    destruct Hin as [Hin|[]]. discriminate Hin.
  - by intros s s' ip ->%list_elem_of_singleton ->%list_elem_of_singleton.
  - rewrite (H1 sample_service).
    + vm_compute. reflexivity.
    + by left.
    + apply list_elem_of_In. vm_compute. auto.
Defined.
