(* ===== verification/Atomic.v ===== *)
(** * Atomic: handlers as programs of atomic operations

    A watch handler reads the informer stores through listers and reads and
    writes the resolver's cache.  Each lister call and each method of [Cache]
    holds the lock of what it touches, so it is one atomic operation; between two
    of them any other goroutine may run.  [prog] is a handler as a tree of such
    operations, [exec] the meaning of one, [prog_run] a run without interference, and
    [wp] and [only] the two facts about a program that survive interference: what
    it leaves in a part of the cache nothing else writes, and which writes it can
    make at all. *)

From S2P Require Import Prelude Golang Netip Model Kube Resolver Endpoints Controller.
Open Scope list_scope.

Section prog.
Context {Rest : Type}.

(** ** Operations *)

(** The lister calls of the code, a lookup and a write of the cache. *)
Inductive op :=
| GetPod (namespace name : string)
| GetReplicaSet (namespace name : string)
| GetJob (namespace name : string)
| GetService (namespace name : string)
| ListServices
| ListSlices (namespace service : string)
| Lookup (ip : Addr)
| Write (x : write).

Definition reply (o : op) : Type :=
  match o with
  | GetPod _ _ => option (Pod Rest)
  | GetReplicaSet _ _ => option (ReplicaSet Rest)
  | GetJob _ _ => option (Job Rest)
  | GetService _ _ => option (Service Rest)
  | ListServices => option (list (Service Rest))
  | ListSlices _ _ => option (list (EndpointSlice Rest))
  | Lookup _ => option Workload
  | Write _ => unit
  end.

(** What an operation answers and the cache it leaves. *)
Definition ask (l : Listers Rest) (c : Cache) (o : op) : reply o :=
  match o with
  | GetPod ns n => l_Pod l ns n
  | GetReplicaSet ns n => l_ReplicaSet l ns n
  | GetJob ns n => l_Job l ns n
  | GetService ns n => l_Service l ns n
  | ListServices => l_Services l
  | ListSlices ns s => l_EndpointSlices l ns s
  | Lookup ip => LookupIP c ip
  | Write _ => tt
  end.
Definition exec (c : Cache) (o : op) : Cache :=
  match o with Write x => apply_write c x | _ => c end.

(** ** Programs *)

Inductive prog (A : Type) : Type :=
| Ret (a : A)
| Next (o : op) (k : reply o -> prog A).
Arguments Ret {A} a.
Arguments Next {A} o k.

#[export] Instance prog_ret : MRet prog := fun A a => Ret a.
#[export] Instance prog_bind : MBind prog := fun A B f =>
  fix bind p := match p with Ret a => f a | Next o k => Next o (fun r => bind (k r)) end.

Definition trigger (o : op) : prog (reply o) := Next o Ret.
Definition write_op (x : write) : prog unit := Next (Write x) (fun _ => Ret tt).
Fixpoint for_each {X} (xs : list X) (body : X -> prog unit) : prog unit :=
  match xs with
  | [] => Ret tt
  | x :: xs => body x ≫= fun _ => for_each xs body
  end.
Fixpoint fold_each {X S} (body : S -> X -> prog S) (s : S) (xs : list X) : prog S :=
  match xs with
  | [] => Ret s
  | x :: xs => body s x ≫= fun s => fold_each body s xs
  end.

(** ** Without interference *)

Section run.
Context (l : Listers Rest).

Fixpoint prog_run {A} (p : prog A) (c : Cache) : A * Cache :=
  match p with
  | Ret a => (a, c)
  | Next o k => prog_run (k (ask l c o)) (exec c o)
  end.

Lemma run_bind {A B} (p : prog A) (f : A -> prog B) c :
  prog_run (p ≫= f) c = prog_run (f (prog_run p c).1) (prog_run p c).2.
Proof. revert c. induction p as [a|o k IH]; intros c; [done|]. apply IH. Qed.

Lemma run_for_each {X} (xs : list X) (body : X -> prog unit) (f : Cache -> X -> Cache) c :
  (forall x c, (prog_run (body x) c).2 = f c x) -> (prog_run (for_each xs body) c).2 = foldl f c xs.
Proof.
  intros Hf. revert c. induction xs as [|x xs IH]; intros c; [done|].
  cbn [for_each foldl]. by rewrite run_bind, Hf.
Qed.

Lemma run_fold_each {X S} (body : S -> X -> prog S) (f : S -> X -> S) c s (xs : list X) :
  (forall s x, prog_run (body s x) c = (f s x, c)) ->
  prog_run (fold_each body s xs) c = (foldl f s xs, c).
Proof.
  intros Hf. revert s. induction xs as [|x xs IH]; intros s; [done|].
  cbn [fold_each foldl]. by rewrite run_bind, Hf.
Qed.
End run.

(** ** Under interference *)

Section logic.
(** What is known of every answer, whenever it is given. *)
Context (valid : forall o, reply o -> Prop).

(** What a program leaves behind when its writes go to a cache of its own and
    every answer is only known to be valid. *)
Fixpoint wp {A} (Q : A -> Cache -> Prop) (p : prog A) (c : Cache) : Prop :=
  match p with
  | Ret a => Q a c
  | Next o k => forall r, valid o r -> wp Q (k r) (exec c o)
  end.

Lemma wp_mono {A} (Q Q' : A -> Cache -> Prop) p c :
  (forall a c, Q a c -> Q' a c) -> wp Q p c -> wp Q' p c.
Proof. intros HQ. revert c. induction p; cbn; eauto. Qed.

Lemma wp_any {A} (Q : A -> Cache -> Prop) p c : (forall a c, Q a c) -> wp Q p c.
Proof. intros HQ. revert c. induction p; cbn; eauto. Qed.

Lemma wp_bind {A B} (Q : B -> Cache -> Prop) (p : prog A) (f : A -> prog B) c :
  wp (fun a c => wp Q (f a) c) p c -> wp Q (p ≫= f) c.
Proof. revert c. induction p as [a|o k IH]; intros c; [done|]. intros Hp r Hr. by apply IH, Hp. Qed.

Lemma wp_seq {A B} (R : Cache -> Prop) (Q : B -> Cache -> Prop) (p : prog A) (f : A -> prog B) c :
  wp (fun _ => R) p c -> (forall a c, R c -> wp Q (f a) c) -> wp Q (p ≫= f) c.
Proof. intros Hp Hf. apply wp_bind. eapply wp_mono; [|exact Hp]. auto. Qed.

Lemma wp_for_each {X} (Q : unit -> Cache -> Prop) (xs : list X) (body : X -> prog unit) (f : Cache -> X -> Cache) c :
  (forall x c, wp (fun _ c' => c' = f c x) (body x) c) ->
  Q tt (foldl f c xs) -> wp Q (for_each xs body) c.
Proof.
  intros Hb. revert c. induction xs as [|x xs IH]; intros c HQ; [done|].
  cbn [for_each]. apply (wp_seq (fun c' => c' = f c x)); [apply Hb|]. intros _ c' ->. by apply IH.
Qed.

(** The writes a program can make. *)
Section only.
Context (G : write -> Prop).
Definition only_op (o : op) : Prop := match o with Write x => G x | _ => True end.
Fixpoint only {A} (p : prog A) : Prop :=
  match p with
  | Ret _ => True
  | Next o k => only_op o /\ forall r, valid o r -> only (k r)
  end.

Lemma only_bind {A B} (p : prog A) (f : A -> prog B) :
  only p -> (forall a, only (f a)) -> only (p ≫= f).
Proof. intros Hp Hf. induction p as [a|o k IH]; [apply Hf|]. cbn in *. naive_solver. Qed.

Lemma only_for_each {X} (xs : list X) (body : X -> prog unit) :
  (forall x, x ∈ xs -> only (body x)) -> only (for_each xs body).
Proof.
  intros Hb. induction xs as [|x xs IH]; [done|]. apply only_bind; [apply Hb; by left|].
  intros _. apply IH. intros y Hy. apply Hb. by right.
Qed.

Lemma only_fold_each {X S} (body : S -> X -> prog S) s (xs : list X) :
  (forall s x, only (body s x)) -> only (fold_each body s xs).
Proof.
  intros Hb. revert s. induction xs as [|x xs IH]; intros s; [done|].
  apply only_bind; [apply Hb|]. intros s'. apply IH.
Qed.

(** The same, with what is then known of the result. *)
Fixpoint yields {A} (R : A -> Prop) (p : prog A) : Prop :=
  match p with
  | Ret a => R a
  | Next o k => only_op o /\ forall r, valid o r -> yields R (k r)
  end.

Lemma yields_bind {A B} (R : A -> Prop) (R' : B -> Prop) (p : prog A) (f : A -> prog B) :
  yields R p -> (forall a, R a -> yields R' (f a)) -> yields R' (p ≫= f).
Proof. intros Hp Hf. induction p as [a|o k IH]; [by apply Hf|]. cbn in *. naive_solver. Qed.

Lemma yields_for_each {X} (xs : list X) (body : X -> prog unit) :
  (forall x, x ∈ xs -> yields (fun _ => True) (body x)) -> yields (fun _ => True) (for_each xs body).
Proof.
  intros Hb. induction xs as [|x xs IH]; [done|]. apply (yields_bind (fun _ => True)); [apply Hb; by left|].
  intros _ _. apply IH. intros y Hy. apply Hb. by right.
Qed.

Lemma yields_fold_each {X S} (R : S -> Prop) (body : S -> X -> prog S) s (xs : list X) :
  R s -> (forall s x, R s -> x ∈ xs -> yields R (body s x)) -> yields R (fold_each body s xs).
Proof.
  revert s. induction xs as [|x xs IH]; intros s Hs Hb; [done|].
  apply (yields_bind R); [apply Hb; [done|by left]|]. intros s' Hs'. apply IH; [done|].
  intros s2 y Hs2 Hy. apply Hb; [done|by right].
Qed.
End only.

(** A program whose writes leave a part of the cache alone leaves it alone. *)
Lemma wp_only {Y A} (cell : Cache -> Y) (p : prog A) c :
  only (fun x => forall c, cell (apply_write c x) = cell c) p -> wp (fun _ c' => cell c' = cell c) p c.
Proof.
  revert c. induction p as [a|o k IH]; intros c; [done|]. intros [Ho Hk] r Hr.
  assert (cell (exec c o) = cell c) as <- by (destruct o; try done; apply Ho).
  apply IH. by apply Hk.
Qed.

Lemma only_mono {A} (G G' : write -> Prop) (p : prog A) :
  (forall x, G x -> G' x) -> only G p -> only G' p.
Proof.
  intros HG. induction p as [a|o k IH]; [done|]. intros [Ho Hk]. split; [|auto].
  destruct o; cbn in *; auto.
Qed.
End logic.
End prog.
Arguments Ret {Rest A} a.
Arguments Next {Rest A} o k.
Arguments prog : clear implicits.
#[export] Hint Resolve only_bind only_for_each only_fold_each : sniffer.
