(* ===== verification/Handlers.v ===== *)
(** * Handlers: the watch handlers an operation at a time (internal/resolver/k8s_linux.go, endpoints_linux.go, endpoints.go)

    The handlers of Controller.v as programs of Atomic.v: the same code, with its
    lister calls, lookups and writes in the order the source makes them.  Run
    without interference, each is the handler of Controller.v
    ([handlers_run_as_calls]). *)

From S2P Require Import Prelude Golang Netip Model Kube Resolver Endpoints Controller.
From S2P Require Import Transform SharedInformer Informers Atomic.
Open Scope string_scope.
Open Scope list_scope.
Open Scope Z_scope.

Section handlers.
Context {Rest : Type}.
Implicit Types (l : Listers Rest) (o : object Rest).

(** ** Owners *)

Definition GetController_prog (kind namespace name : string) : prog Rest (option (string * string)) :=
  if decide (kind = "Pod") then
    Next (GetPod namespace name) (fun r => Ret
      match r with None => None | Some p => controllerOf (pod_OwnerReferences p) end)
  else if decide (kind = "ReplicaSet") then
    Next (GetReplicaSet namespace name) (fun r => Ret
      match r with None => None | Some s => controllerOf (rs_OwnerReferences s) end)
  else if decide (kind = "Job") then
    Next (GetJob namespace name) (fun r => Ret
      match r with None => None | Some j => controllerOf (job_OwnerReferences j) end)
  else Ret None.

Fixpoint owner_walk_prog (n : nat) (kind namespace name : string) : prog Rest (string * string) :=
  match n with
  | O => Ret (kind, name)
  | S n =>
      owner ← GetController_prog kind namespace name;
      match owner with
      | None => Ret (kind, name)
      | Some (ownerKind, ownerName) => owner_walk_prog n ownerKind namespace ownerName
      end
  end.
Definition ResolveTopOwner_prog (kind namespace name : string) : prog Rest Workload :=
  o ← owner_walk_prog maxOwnerDepth kind namespace name;
  Ret (mkWorkload o.2 namespace o.1).

(** ** Pods and nodes *)

Definition onPod_prog o : prog Rest unit :=
  match asPod o with
  | None => Ret tt
  | Some pod =>
      wl ← ResolveTopOwner_prog "Pod" (pod_Namespace pod) (pod_Name pod);
      _ ← (if decide (pod_UID pod <> "") then write_op (WUpsertUID (pod_UID pod) wl) else Ret tt);
      if pod_HostNetwork pod then Ret tt
      else for_each (podIPs pod) (fun ip => write_op (WUpsert ip wl))
  end.

Definition onPodDelete_prog o : prog Rest unit :=
  match unwrap asPod o with
  | None => Ret tt
  | Some pod =>
      _ ← for_each (podIPs pod) (fun ip => write_op (WDelete ip));
      if decide (pod_UID pod <> "") then write_op (WDeleteUID (pod_UID pod)) else Ret tt
  end.

Definition onNode_prog o : prog Rest unit :=
  match asNode o with
  | None => Ret tt
  | Some node =>
      for_each (nodeInternalIPs node)
        (fun ip => write_op (WUpsert ip (mkWorkload (node_Name node) "" KindNode)))
  end.

Definition onNodeDelete_prog o : prog Rest unit :=
  match unwrap asNode o with
  | None => Ret tt
  | Some node => for_each (nodeInternalIPs node) (fun ip => write_op (WDelete ip))
  end.

(** ** The port index *)

Definition indexPorts_prog (entries : list portEntry) : prog Rest unit :=
  for_each entries (fun e => write_op (entry_write e)).
Definition deletePorts_prog (entries : list portEntry) : prog Rest unit :=
  for_each entries (fun e => write_op (entry_delete e)).
Definition reindexPorts_prog (old updated : list portEntry) : prog Rest unit :=
  _ ← indexPorts_prog updated;
  let kept : gset portKey := list_to_set (entryKey <$> updated) in
  for_each old (fun e => if decide (entryKey e ∈ kept) then Ret tt else write_op (entry_delete e)).

(** ** ClusterIPs *)

(** One address of an endpoint, in the loop of [serviceWorkload]. *)
Definition wl_step_prog (s : option Workload * bool) (addr : string)
    : prog Rest (option Workload * bool) :=
  match ParseAddr addr with
  | None => Ret s
  | Some ip => Next (Lookup ip) (fun r => Ret
      match r with
      | None => s
      | Some wl =>
          if negb (isPodWorkload wl) then s
          else
            match s with
            | (None, multiple) => (Some wl, multiple)
            | (Some first, multiple) => (Some first, if decide (wl <> first) then true else multiple)
            end
      end)
  end.
Definition slice_step_prog (s : option Workload * bool) (es : option (EndpointSlice Rest))
    : prog Rest (option Workload * bool) :=
  match es with
  | None => Ret s
  | Some es => fold_each (fun s ep => fold_each wl_step_prog s (end_Addresses ep)) s (es_Endpoints es)
  end.
Definition serviceWorkload_prog (svc : option (Service Rest)) (slices : list (option (EndpointSlice Rest)))
    : prog Rest (option Workload) :=
  match svc with
  | None => Ret None
  | Some svc =>
      s ← fold_each slice_step_prog (None, false) slices;
      Ret match s with
          | (None, _) => None
          | (Some _, true) => Some (mkWorkload (svc_Name svc) (svc_Namespace svc) KindService)
          | (Some first, false) => Some first
          end
  end.

Definition sync_write (wl : option Workload) (ip : Addr) : write :=
  match wl with Some w => WUpsert ip w | None => WDelete ip end.
Definition syncServiceClusterIPs_prog (svc : option (Service Rest)) : prog Rest unit :=
  match svc with
  | None => Ret tt
  | Some svc =>
      let ips := clusterIPs svc in
      if decide (ips = []) then Ret tt
      else Next (ListSlices (svc_Namespace svc) (svc_Name svc)) (fun r =>
        match r with
        | None => Ret tt
        | Some slices =>
            wl ← serviceWorkload_prog (Some svc) (Some <$> slices);
            for_each ips (fun ip => write_op (sync_write wl ip))
        end)
  end.

Definition syncServiceForSlice_prog (es : option (EndpointSlice Rest)) : prog Rest unit :=
  match es with
  | None => Ret tt
  | Some es =>
      if decide (serviceName es = "") then Ret tt
      else Next (GetService (es_Namespace es) (serviceName es)) (fun r =>
        match r with
        | None => Ret tt
        | Some svc => syncServiceClusterIPs_prog (Some svc)
        end)
  end.

Definition sync_each (svcs : list (Service Rest)) : prog Rest unit :=
  for_each svcs (fun svc => syncServiceClusterIPs_prog (Some svc)).
Definition reindexAllClusterIPs_prog : prog Rest unit :=
  Next ListServices (fun r => match r with None => Ret tt | Some svcs => sync_each svcs end).

(** ** Services and EndpointSlices *)

Definition onService_prog o : prog Rest unit :=
  match asService o with
  | None => Ret tt
  | Some svc =>
      _ ← indexPorts_prog (serviceEntries (Some svc));
      syncServiceClusterIPs_prog (Some svc)
  end.

Definition onServiceUpdate_prog (old o : object Rest) : prog Rest unit :=
  let oldSvc := asService old in
  let newSvc := asService o in
  _ ← reindexPorts_prog (serviceEntries oldSvc) (serviceEntries newSvc);
  match newSvc with
  | None => Ret tt
  | Some svc =>
      _ ← match oldSvc with
          | None => Ret tt
          | Some oldSvc =>
              let kept : gset Addr := list_to_set (Unmap <$> clusterIPs svc) in
              for_each (clusterIPs oldSvc)
                (fun ip => if decide (Unmap ip ∈ kept) then Ret tt else write_op (WDelete ip))
          end;
      syncServiceClusterIPs_prog (Some svc)
  end.

Definition onServiceDelete_prog o : prog Rest unit :=
  match unwrap asService o with
  | None => Ret tt
  | Some svc =>
      _ ← deletePorts_prog (serviceEntries (Some svc));
      for_each (clusterIPs svc) (fun ip => write_op (WDelete ip))
  end.

Definition onEndpointSlice_prog o : prog Rest unit :=
  match asEndpointSlice o with
  | None => Ret tt
  | Some es =>
      _ ← indexPorts_prog (endpointSliceEntries (Some es));
      syncServiceForSlice_prog (Some es)
  end.

Definition onEndpointSliceUpdate_prog (old o : object Rest) : prog Rest unit :=
  let oldES := asEndpointSlice old in
  let newES := asEndpointSlice o in
  _ ← reindexPorts_prog (endpointSliceEntries oldES) (endpointSliceEntries newES);
  _ ← syncServiceForSlice_prog newES;
  match oldES, newES with
  | Some a, Some b =>
      if decide (serviceName a <> serviceName b) then syncServiceForSlice_prog oldES else Ret tt
  | _, _ => Ret tt
  end.

Definition onEndpointSliceDelete_prog o : prog Rest unit :=
  match unwrap asEndpointSlice o with
  | None => Ret tt
  | Some es =>
      _ ← deletePorts_prog (endpointSliceEntries (Some es));
      syncServiceForSlice_prog (Some es)
  end.

(** The handler the run registers for a notification, as [call] of Informers.v. *)
Definition handler (k : kind) (n : notification (object Rest)) : prog Rest unit :=
  match k, n with
  | (KReplicaSet | KJob), _ => Ret tt
  | KPod, (NAdd o | NUpdate _ o) => onPod_prog o
  | KPod, NDelete o => onPodDelete_prog o
  | KNode, (NAdd o | NUpdate _ o) => onNode_prog o
  | KNode, NDelete o => onNodeDelete_prog o
  | KService, NAdd o => onService_prog o
  | KService, NUpdate old o => onServiceUpdate_prog old o
  | KService, NDelete o => onServiceDelete_prog o
  | KSlice, NAdd o => onEndpointSlice_prog o
  | KSlice, NUpdate old o => onEndpointSliceUpdate_prog old o
  | KSlice, NDelete o => onEndpointSliceDelete_prog o
  end.
End handlers.

(** ** Runs without interference *)

Section runs.
Context {Rest : Type} (l : Listers Rest).
Implicit Types (o : object Rest) (c : Cache).

Lemma run_GetController k ns n c :
  prog_run l (GetController_prog k ns n) c = (GetController l k ns n, c).
Proof. unfold GetController_prog, GetController, listerOwnerLookup, listerGetController. by repeat case_decide. Qed.

Lemma run_owner_walk m k ns n c :
  prog_run l (owner_walk_prog m k ns n) c = (owner_walk m k ns n l, c).
Proof.
  revert k n. induction m as [|m IH]; intros k n; [done|]. cbn [owner_walk_prog owner_walk].
  rewrite run_bind, run_GetController. cbn. by destruct (GetController l k ns n) as [[]|].
Qed.

Lemma run_ResolveTopOwner k ns n c :
  prog_run l (ResolveTopOwner_prog k ns n) c = (ResolveTopOwner k ns n l, c).
Proof.
  unfold ResolveTopOwner_prog, ResolveTopOwner. rewrite run_bind, run_owner_walk. cbn [fst snd prog_run].
  by destruct (owner_walk _ _ _ _ _).
Qed.

Lemma run_serviceWorkload svc slices c :
  prog_run l (serviceWorkload_prog svc slices) c = (serviceWorkload svc slices c, c).
Proof.
  destruct svc as [svc|]; [|done]. unfold serviceWorkload_prog, serviceWorkload. rewrite run_bind.
  rewrite (run_fold_each l _ (slice_step c)).
  - cbn [fst snd prog_run]. by destruct (foldl _ _ slices) as [[first|] []].
  - intros s [es|]; [|done]. apply run_fold_each. intros s' ep. apply run_fold_each.
    intros s'' a. unfold wl_step_prog, wl_step. by destruct (ParseAddr a).
Qed.

Lemma run_indexPorts es c : (prog_run l (indexPorts_prog es) c).2 = indexPorts es c.
Proof. by apply run_for_each. Qed.
Lemma run_deletePorts es c : (prog_run l (deletePorts_prog es) c).2 = deletePorts es c.
Proof. by apply run_for_each. Qed.
Lemma run_reindexPorts old new c : (prog_run l (reindexPorts_prog old new) c).2 = reindexPorts old new c.
Proof.
  unfold reindexPorts_prog. rewrite run_bind, run_indexPorts. apply run_for_each.
  intros e c'. by case_decide.
Qed.

Lemma run_sync svc c : (prog_run l (syncServiceClusterIPs_prog svc) c).2 = syncServiceClusterIPs l svc c.
Proof.
  unfold syncServiceClusterIPs_prog, syncServiceClusterIPs. destruct svc as [svc|]; [|done].
  case_decide; [done|]. cbn [prog_run ask exec]. destruct (l_EndpointSlices _ _ _) as [slices|]; [|done].
  rewrite run_bind, run_serviceWorkload. apply run_for_each. intros ip c'. by destruct (serviceWorkload _ _ _).
Qed.

Lemma run_sync_slice es c : (prog_run l (syncServiceForSlice_prog es) c).2 = syncServiceForSlice l es c.
Proof.
  unfold syncServiceForSlice_prog, syncServiceForSlice. destruct es as [es|]; [|done].
  case_decide; [done|]. cbn [prog_run ask exec]. destruct (l_Service _ _ _); [apply run_sync|done].
Qed.

Lemma run_reindexAll c : (prog_run l reindexAllClusterIPs_prog c).2 = reindexAllClusterIPs l c.
Proof.
  unfold reindexAllClusterIPs_prog, reindexAllClusterIPs. cbn [prog_run ask exec].
  destruct (l_Services l); [|done]. apply run_for_each. intros. apply run_sync.
Qed.

Lemma run_for_each_write {X} (xs : list X) (w : X -> write) c :
  (prog_run l (for_each xs (fun x => write_op (w x))) c).2 = foldl (fun c x => apply_write c (w x)) c xs.
Proof. by apply run_for_each. Qed.

Lemma run_onPod o c : (prog_run l (onPod_prog o) c).2 = onPod l o c.
Proof.
  unfold onPod_prog, onPod. destruct (asPod o) as [pod|]; [|done].
  rewrite run_bind, run_ResolveTopOwner. cbn [fst snd]. rewrite run_bind.
  destruct (decide (pod_UID pod <> "")); cbn [fst snd prog_run write_op ask exec];
    (destruct (pod_HostNetwork pod); [done|]); apply run_for_each_write.
Qed.

Lemma run_onPodDelete o c : (prog_run l (onPodDelete_prog o) c).2 = onPodDelete o c.
Proof.
  unfold onPodDelete_prog, onPodDelete. destruct (unwrap asPod o) as [pod|]; [|done].
  rewrite run_bind, run_for_each_write. by case_decide.
Qed.

Lemma run_onServiceUpdate old o c :
  (prog_run l (onServiceUpdate_prog old o) c).2 = onServiceUpdate l old o c.
Proof.
  unfold onServiceUpdate_prog, onServiceUpdate. cbv zeta. rewrite run_bind, run_reindexPorts.
  destruct (asService o) as [svc|]; [|done]. rewrite run_bind, run_sync. f_equal.
  destruct (asService old) as [oldSvc|]; [|done]. apply run_for_each. intros ip c'. by case_decide.
Qed.

Lemma run_onEndpointSliceUpdate old o c :
  (prog_run l (onEndpointSliceUpdate_prog old o) c).2 = onEndpointSliceUpdate l old o c.
Proof.
  unfold onEndpointSliceUpdate_prog, onEndpointSliceUpdate. cbv zeta.
  rewrite run_bind, run_reindexPorts, run_bind, run_sync_slice.
  destruct (asEndpointSlice old), (asEndpointSlice o); try done. case_decide; [apply run_sync_slice|done].
Qed.

(** Without interference a handler is the one of Controller.v. *)
Lemma run_handler k n c : (prog_run l (handler k n) c).2 = call l k n c.
Proof.
  destruct k, n; cbn [handler call]; try done; try apply run_onPod; try apply run_onPodDelete;
    try apply run_onServiceUpdate; try apply run_onEndpointSliceUpdate.
  - unfold onNode_prog, onNode. destruct (asNode o); [apply run_for_each_write|done].
  - unfold onNode_prog, onNode. destruct (asNode o); [apply run_for_each_write|done].
  - unfold onNodeDelete_prog, onNodeDelete. destruct (unwrap asNode o); [apply run_for_each_write|done].
  - unfold onService_prog, onService. destruct (asService o); [|done].
    by rewrite run_bind, run_indexPorts, run_sync.
  - unfold onServiceDelete_prog, onServiceDelete. destruct (unwrap asService o); [|done].
    rewrite run_bind, run_deletePorts. apply run_for_each_write.
  - unfold onEndpointSlice_prog, onEndpointSlice. destruct (asEndpointSlice o); [|done].
    by rewrite run_bind, run_indexPorts, run_sync_slice.
  - unfold onEndpointSliceDelete_prog, onEndpointSliceDelete. destruct (unwrap asEndpointSlice o); [|done].
    by rewrite run_bind, run_deletePorts, run_sync_slice.
Qed.
End runs.

(** ** Footprints *)

Definition write_ip (x : write) : option Addr :=
  match x with WUpsert ip _ | WDelete ip => Some ip | _ => None end.
Definition write_uid (x : write) : option string :=
  match x with WUpsertUID u _ | WDeleteUID u => Some u | _ => None end.
Definition write_port (x : write) : option (Addr * Z) :=
  match x with WUpsertPort ip p _ | WDeletePort ip p => Some (ip, p) | _ => None end.

(** The writes a handler can make because of an object it is given. *)
Inductive may_write {Rest} : kind -> object Rest -> write -> Prop :=
| mw_uid p x : write_uid x = Some (pod_UID p) -> may_write KPod (OPod p) x
| mw_pod p x ip : write_ip x = Some ip -> ip ∈ podIPs p -> may_write KPod (OPod p) x
| mw_node n x ip : write_ip x = Some ip -> ip ∈ nodeInternalIPs n -> may_write KNode (ONode n) x
| mw_service s x ip : write_ip x = Some ip -> ip ∈ clusterIPs s -> may_write KService (OService s) x
| mw_service_port s x e :
    write_port x = Some (pe_ip e, pe_port e) -> e ∈ serviceEntries (Some s) -> may_write KService (OService s) x
| mw_slice_port s x e :
    write_port x = Some (pe_ip e, pe_port e) -> e ∈ endpointSliceEntries (Some s) ->
    may_write KSlice (OEndpointSlice s) x
| mw_tombstone k o x : may_write k o x -> may_write k (OTombstone o) x.
#[export] Hint Constructors may_write : sniffer.

(** The objects a notification carries. *)
Definition carries {Obj} (n : notification Obj) (o : Obj) : Prop :=
  match n with
  | NAdd o' | NDelete o' => o = o'
  | NUpdate old o' => o = old \/ o = o'
  end.

Section footprints.
Context {Rest : Type} (valid : forall o : op, @reply Rest o -> Prop) (G : write -> Prop).
Implicit Types (o : object Rest).

(** The ClusterIPs of the Services the listers answer with. *)
Context (Hsync : forall ns n svc x ip, valid (GetService ns n) (Some svc) ->
  write_ip x = Some ip -> ip ∈ clusterIPs svc -> G x).

Lemma only_write (x : write) : G x -> only valid G (@write_op Rest x).
Proof. by intros. Qed.

Lemma only_GetController k ns n : only valid G (GetController_prog k ns n).
Proof. unfold GetController_prog. by repeat case_decide. Qed.

Lemma only_ResolveTopOwner k ns n : only valid G (ResolveTopOwner_prog k ns n).
Proof.
  apply only_bind; [|done]. generalize maxOwnerDepth as m. intros m.
  revert k n. induction m as [|m IH]; intros k n; [done|]. apply only_bind; [apply only_GetController|].
  by intros [[]|].
Qed.

Lemma only_serviceWorkload svc slices : only valid G (serviceWorkload_prog svc slices).
Proof.
  destruct svc as [svc|]; [|done]. apply only_bind; [|done]. apply only_fold_each. intros s [es|]; [|done].
  apply only_fold_each. intros s' ep. apply only_fold_each. intros s'' a. unfold wl_step_prog.
  by destruct (ParseAddr a).
Qed.

Lemma only_sync svc :
  (forall x ip, write_ip x = Some ip -> ip ∈ clusterIPs svc -> G x) ->
  only valid G (syncServiceClusterIPs_prog (Some svc)).
Proof.
  intros HG. unfold syncServiceClusterIPs_prog. case_decide; [done|]. split; [done|]. intros [slices|] _; [|done].
  apply only_bind; [apply only_serviceWorkload|]. intros wl. apply only_for_each. intros ip Hip.
  apply only_write. apply (HG _ ip); [by destruct wl|done].
Qed.

Lemma only_sync_slice es : only valid G (syncServiceForSlice_prog es).
Proof.
  destruct es as [es|]; [|done]. unfold syncServiceForSlice_prog. case_decide; [done|].
  split; [done|]. intros [svc|] Hv; [|done]. apply only_sync. intros x ip. by apply (Hsync _ _ _ _ _ Hv).
Qed.

Lemma only_ports (w : portEntry -> write) (es : list portEntry) :
  (forall e, e ∈ es -> G (w e)) -> only valid G (for_each es (fun e => @write_op Rest (w e))).
Proof. intros HG. apply only_for_each. intros e He. by apply only_write, HG. Qed.

Lemma only_reindexPorts (old new : list portEntry) :
  (forall e, e ∈ old -> G (entry_delete e)) -> (forall e, e ∈ new -> G (entry_write e)) ->
  only valid G (@reindexPorts_prog Rest old new).
Proof.
  intros Ho Hn. apply only_bind; [by apply only_ports|]. intros _. apply only_for_each.
  intros e He. case_decide; [done|]. by apply only_write, Ho.
Qed.

Lemma unwrap_cases {A} (as_ : object Rest -> option A) o a :
  unwrap as_ o = Some a -> as_ o = Some a \/ exists o', o = OTombstone o' /\ as_ o' = Some a.
Proof. unfold unwrap. destruct (as_ o) eqn:H; [by left; congruence|]. destruct o; try done. eauto. Qed.

(** What a type assertion, or the unwrapping of a tombstone, finds may be written. *)
Lemma may_unwrap k (A : Type) (as_ : object Rest -> option A) (inj : A -> object Rest) o a x :
  (forall o a, as_ o = Some a -> o = inj a) ->
  unwrap as_ o = Some a -> may_write k (inj a) x -> may_write k o x.
Proof.
  intros Hinj [H|(o' & -> & H)]%unwrap_cases Hm; apply Hinj in H as ->; [done|by constructor].
Qed.
Lemma asPod_Some o p : asPod o = Some p -> o = OPod p. Proof. by destruct o; intros [= ->]. Qed.
Lemma asNode_Some o n : asNode o = Some n -> o = ONode n. Proof. by destruct o; intros [= ->]. Qed.
Lemma asService_Some o s : asService o = Some s -> o = OService s. Proof. by destruct o; intros [= ->]. Qed.
Lemma asEndpointSlice_Some o e : asEndpointSlice o = Some e -> o = OEndpointSlice e.
Proof. by destruct o; intros [= ->]. Qed.

Lemma only_onPod o : (forall x, may_write KPod o x -> G x) -> only valid G (onPod_prog o).
Proof.
  intros HG. unfold onPod_prog. destruct (asPod o) as [p|] eqn:Hp; [|done]. apply asPod_Some in Hp as ->.
  apply only_bind; [apply only_ResolveTopOwner|]. intros wl. apply only_bind.
  - case_decide; [|done]. apply only_write, HG. by constructor.
  - intros _. destruct (pod_HostNetwork p); [done|]. apply only_for_each. intros ip Hip.
    apply only_write, HG. by eapply mw_pod.
Qed.

Lemma only_onPodDelete o : (forall x, may_write KPod o x -> G x) -> only valid G (onPodDelete_prog o).
Proof.
  intros HG. unfold onPodDelete_prog. destruct (unwrap asPod o) as [p|] eqn:Hp; [|done].
  assert (forall x, may_write KPod (OPod p) x -> G x) as HG'.
  { intros x Hx. apply HG. by eapply (may_unwrap KPod _ asPod OPod); [apply asPod_Some|..]. }
  apply only_bind.
  - apply only_for_each. intros ip Hip. apply only_write, HG'. by eapply mw_pod.
  - intros _. case_decide; [|done]. apply only_write, HG'. by constructor.
Qed.

Lemma only_onNode o : (forall x, may_write KNode o x -> G x) ->
  only valid G (onNode_prog o) /\ only valid G (onNodeDelete_prog o).
Proof.
  intros HG. split; [unfold onNode_prog; destruct (asNode o) as [n|] eqn:Hn; [|done]; apply asNode_Some in Hn as ->
    |unfold onNodeDelete_prog; destruct (unwrap asNode o) as [n|] eqn:Hn; [|done]];
    apply only_for_each; intros ip Hip; apply only_write, HG; [by eapply mw_node|].
  eapply (may_unwrap KNode _ asNode ONode); [apply asNode_Some|done|by eapply mw_node].
Qed.

Lemma only_onService o : (forall x, may_write KService o x -> G x) -> only valid G (onService_prog o).
Proof.
  intros HG. unfold onService_prog. destruct (asService o) as [s|] eqn:Hs; [|done]. apply asService_Some in Hs as ->.
  apply only_bind.
  - apply only_ports. intros e He. apply HG. by eapply mw_service_port.
  - intros _. apply only_sync. intros x ip Hx Hip. apply HG. by eapply mw_service.
Qed.

Lemma only_onServiceUpdate old o :
  (forall x, may_write KService old x -> G x) -> (forall x, may_write KService o x -> G x) ->
  only valid G (onServiceUpdate_prog old o).
Proof.
  intros Hold HG. unfold onServiceUpdate_prog. cbv zeta. apply only_bind.
  - apply only_reindexPorts; intros e He.
    + destruct (asService old) as [s|] eqn:Hs; [|by apply elem_of_nil in He]. apply asService_Some in Hs as ->.
      apply Hold. by eapply mw_service_port.
    + destruct (asService o) as [s|] eqn:Hs; [|by apply elem_of_nil in He]. apply asService_Some in Hs as ->.
      apply HG. by eapply mw_service_port.
  - intros _. destruct (asService o) as [s|] eqn:Hs; [|done]. apply asService_Some in Hs as ->. apply only_bind.
    + destruct (asService old) as [s'|] eqn:Hs; [|done]. apply asService_Some in Hs as ->.
      apply only_for_each. intros ip Hip. case_decide; [done|]. apply only_write, Hold. by eapply mw_service.
    + intros _. apply only_sync. intros x ip Hx Hip. apply HG. by eapply mw_service.
Qed.

Lemma only_onServiceDelete o : (forall x, may_write KService o x -> G x) -> only valid G (onServiceDelete_prog o).
Proof.
  intros HG. unfold onServiceDelete_prog. destruct (unwrap asService o) as [s|] eqn:Hs; [|done].
  assert (forall x, may_write KService (OService s) x -> G x) as HG'.
  { intros x Hx. apply HG. by eapply (may_unwrap KService _ asService OService); [apply asService_Some|..]. }
  apply only_bind.
  - apply only_ports. intros e He. apply HG'. by eapply mw_service_port.
  - intros _. apply only_for_each. intros ip Hip. apply only_write, HG'. by eapply mw_service.
Qed.

Lemma only_onEndpointSlice o : (forall x, may_write KSlice o x -> G x) ->
  only valid G (onEndpointSlice_prog o) /\ only valid G (onEndpointSliceDelete_prog o).
Proof.
  intros HG. split; [unfold onEndpointSlice_prog; destruct (asEndpointSlice o) as [s|] eqn:Hs; [|done];
      apply asEndpointSlice_Some in Hs as ->
    |unfold onEndpointSliceDelete_prog; destruct (unwrap asEndpointSlice o) as [s|] eqn:Hs; [|done]];
    (apply only_bind; [|intros _; apply only_sync_slice]); apply only_ports; intros e He; apply HG;
    [by eapply mw_slice_port|].
  eapply (may_unwrap KSlice _ asEndpointSlice OEndpointSlice); [apply asEndpointSlice_Some|done|by eapply mw_slice_port].
Qed.

Lemma only_onEndpointSliceUpdate old o :
  (forall x, may_write KSlice old x -> G x) -> (forall x, may_write KSlice o x -> G x) ->
  only valid G (onEndpointSliceUpdate_prog old o).
Proof.
  intros Hold HG. unfold onEndpointSliceUpdate_prog. cbv zeta. apply only_bind.
  - apply only_reindexPorts; intros e He.
    + destruct (asEndpointSlice old) as [s|] eqn:Hs; [|by apply elem_of_nil in He].
      apply asEndpointSlice_Some in Hs as ->. apply Hold. by eapply mw_slice_port.
    + destruct (asEndpointSlice o) as [s|] eqn:Hs; [|by apply elem_of_nil in He].
      apply asEndpointSlice_Some in Hs as ->. apply HG. by eapply mw_slice_port.
  - intros _. apply only_bind; [apply only_sync_slice|]. intros _.
    destruct (asEndpointSlice old), (asEndpointSlice o); try done. case_decide; [apply only_sync_slice|done].
Qed.

(** A handler writes only what the objects it is given, and the Services it
    reads, say. *)
Lemma handler_only k (n : notification (object Rest)) :
  (forall o x, carries n o -> may_write k o x -> G x) -> only valid G (handler k n).
Proof.
  intros HG. destruct k, n; cbn [handler]; try done;
    first [apply only_onPod|apply only_onPodDelete|apply only_onNode|apply only_onService
      |apply only_onServiceUpdate|apply only_onServiceDelete|apply only_onEndpointSlice
      |apply only_onEndpointSliceUpdate]; intros x; apply HG; cbn; auto.
Qed.

(** The pass writes only the ClusterIPs of Services it was answered with. *)
Lemma pass_only :
  (forall svcs, valid ListServices (Some svcs) ->
     forall svc x ip, svc ∈ svcs -> write_ip x = Some ip -> ip ∈ clusterIPs svc -> G x) ->
  only valid G (@reindexAllClusterIPs_prog Rest).
Proof.
  intros HG. split; [done|]. intros [svcs|] Hv; [|done]. apply only_for_each. intros svc Hsvc.
  apply only_sync. intros x ip. by apply (HG svcs Hv).
Qed.
End footprints.
