(* ===== verification/Interleave.v ===== *)
(** * Interleave: the controller's run an operation at a time

    client-go calls the handlers of one informer one after another, in a
    goroutine of that informer, and those of different informers, and the pass
    of [Run], at the same time.  [fstep] interleaves them an atomic operation at
    a time, with the informers' own steps in between; [istep] of Informers.v is
    the special case in which no handler is interrupted ([coarse_reachable_fine]).
    [estep] adds the [foreign] writes others make to the shared cache.
    [SingleWriter] (Converge.v) is what makes a part of the cache immune to the
    interleaving: it has one writer, and what its handlers read does not change
    their effect on it. *)

From S2P Require Import Prelude Golang Netip Model Kube Resolver Endpoints Controller.
From S2P Require Import Transform SharedInformer Informers Atomic Handlers.
From Stdlib Require Import Relations.Relation_Operators Wellfounded.Lexicographic_Product Wellfounded.Inclusion Wellfounded.Inverse_Image.
Open Scope string_scope.
Open Scope list_scope.

(** [f] with the value at [k] replaced. *)
Definition set_at {X} (k : kind) (x : X) (f : kind -> X) : kind -> X :=
  fun k' => if decide (k' = k) then x else f k'.

Lemma set_at_eq {X} k (x : X) f : set_at k x f k = x.
Proof. unfold set_at. by rewrite decide_True. Qed.
Lemma set_at_ne {X} k k' (x : X) f : k' <> k -> set_at k x f k' = f k'.
Proof. intros ?. unfold set_at. by rewrite decide_False. Qed.

Section interleave.
Context {Rest : Type} (zeroRest : Rest).
Context {RO : RangeOrder okey (object Rest)}.

(** Where [Run] is; in the pass, what is left of it. *)
Inductive fine_pc :=
| FBegin
| FPhase1
| FPhase2
| FPass (p : prog Rest unit)
| FReady
| FReturned.

(** [f_thread] is what is left of the call each informer's goroutine is in;
    [Ret tt] is a goroutine between two calls. *)
Record fstate := mkFState {
  f_inf : kind -> informer (object Rest);
  f_thread : kind -> prog Rest unit;
  f_cache : Cache;
  f_pc : fine_pc
}.
Definition NewFine : fstate := mkFState (fun _ => NewInformer) (fun _ => Ret tt) NewCache FBegin.

Definition fwaits (pc : fine_pc) : bool :=
  match pc with FBegin | FPhase1 | FPhase2 | FReady => true | _ => false end.

(** What holds of the objects of each kind, by key. *)
Context (wf : kind -> okey -> object Rest -> Prop).

(** Progress of the program's own goroutines. *)
Inductive work : fstate -> fstate -> Prop :=
| w_call inf th c pc k n q :
    th k = Ret tt -> inf_queue (inf k) = n :: q ->
    work (mkFState inf th c pc)
         (mkFState (upd k (set_inf_queue q (inf k)) inf) (set_at k (handler k n) th) c pc)
| w_op inf th c pc k o kont :
    th k = Next o kont ->
    work (mkFState inf th c pc)
         (mkFState inf (set_at k (kont (ask (listers_of inf) c o)) th) (exec c o) pc)
| w_pass_op inf th c o kont :
    work (mkFState inf th c (FPass (Next o kont)))
         (mkFState inf th (exec c o) (FPass (kont (ask (listers_of inf) c o))))
| w_ready inf th c :
    work (mkFState inf th c (FPass (Ret tt))) (mkFState inf th c FReady).

Inductive fstep : fstate -> fstate -> Prop :=
| f_work x y : work x y -> fstep x y
| f_phase1 inf th c :
    fstep (mkFState inf th c FBegin) (mkFState (start phase1 inf) th c FPhase1)
| f_phase2 inf th c :
    Forall (fun k => HasSynced (inf k) = true) phase1 ->
    fstep (mkFState inf th c FPhase1) (mkFState (start phase2 inf) th c FPhase2)
| f_pass inf th c :
    Forall (fun k => HasSynced (inf k) = true) phase2 ->
    fstep (mkFState inf th c FPhase2) (mkFState inf th c (FPass reindexAllClusterIPs_prog))
| f_return inf th c pc :
    fwaits pc = true -> fstep (mkFState inf th c pc) (mkFState inf th c FReturned)
| f_grow inf th c pc k i :
    igrow (trimObject zeroRest) OTombstone (wf k) (inf k) i -> inf_started i = inf_started (inf k) ->
    fstep (mkFState inf th c pc) (mkFState (upd k i inf) th c pc).

(** Writes of others to the shared cache. *)
Context (env : write -> Prop).
Inductive foreign : fstate -> fstate -> Prop :=
| f_foreign inf th c pc w :
    env w -> foreign (mkFState inf th c pc) (mkFState inf th (apply_write c w) pc).
Inductive estep (x y : fstate) : Prop :=
| e_own : fstep x y -> estep x y
| e_other : foreign x y -> estep x y.

Definition freachable : fstate -> Prop := reachable (fun x => x = NewFine) estep.

(** Only what is left of a call, and of the pass, can run. *)
Definition quiet (x : fstate) : Prop :=
  (forall k, f_thread x k = Ret tt /\ inf_queue (f_inf x k) = []) /\
  match f_pc x with FPass _ => False | _ => True end.

(** ** Runs of one goroutine *)

Lemma thread_runs inf th c pc k p :
  th k = p ->
  exists th', rtc fstep (mkFState inf th c pc)
                        (mkFState inf th' (prog_run (listers_of inf) p c).2 pc) /\
    th' k = Ret tt /\ forall k', k' <> k -> th' k' = th k'.
Proof.
  revert th c. induction p as [[]|o kont IH]; intros th c Hk.
  - exists th. split_and!; [apply rtc_refl|done..].
  - destruct (IH (ask (listers_of inf) c o) (set_at k (kont (ask (listers_of inf) c o)) th) (exec c o))
      as (th' & Hr & He & Hne); [apply set_at_eq|].
    exists th'. split_and!; [eapply rtc_l; [by apply f_work, w_op|exact Hr]|done|].
    intros k' Hk'. rewrite Hne by done. by apply set_at_ne.
Qed.

Lemma pass_runs {A} inf th c (p : prog Rest A) f :
  rtc fstep (mkFState inf th c (FPass (p ≫= f)))
    (mkFState inf th (prog_run (listers_of inf) p c).2 (FPass (f (prog_run (listers_of inf) p c).1))).
Proof.
  revert c. induction p as [a|o kont IH]; intros c; [apply rtc_refl|].
  eapply rtc_l; [apply f_work, w_pass_op|]. apply IH.
Qed.

Lemma freachable_step x y : freachable x -> fstep x y -> freachable y.
Proof. intros Hx Hs. eapply reach_step; [exact Hx|by apply e_own]. Qed.
Lemma freachable_rtc x y : freachable x -> rtc fstep x y -> freachable y.
Proof. intros Hx Hs. eapply reachable_rtc; [exact Hx|]. eapply rtc_subrel; [|exact Hs]. by apply e_own. Qed.
End interleave.
Arguments fine_pc : clear implicits.
Arguments fstate : clear implicits.

(** ** The coarse relation is a special case *)

Section simulation.
Context {Rest : Type} (zeroRest : Rest).
Context {RO : RangeOrder okey (object Rest)}.
Context (uid_key : string -> okey) (env : write -> Prop).
Abbreviation fine := (fstep zeroRest (wf_object uid_key)) (only parsing).

Inductive pc_sim : @run_pc Rest -> fine_pc Rest -> Prop :=
| sim_begin : pc_sim Begin FBegin
| sim_phase1 : pc_sim Phase1 FPhase1
| sim_phase2 : pc_sim Phase2 FPhase2
| sim_pass svcs : pc_sim (Pass svcs) (FPass (sync_each svcs))
| sim_ready : pc_sim Ready FReady
| sim_returned : pc_sim Returned FReturned.
#[local] Hint Constructors pc_sim : core.

(** The fine states between handlers that agree with a state of Informers.v. *)
Record fine_sim (x : @state Rest) (y : fstate Rest) : Prop := {
  sim_inf : f_inf y = st_inf x;
  sim_idle k : f_thread y k = Ret tt;
  sim_cache : f_cache y = st_cache x;
  sim_pc : pc_sim (st_pc x) (f_pc y)
}.

Lemma fine_grow x y k i :
  fine_sim x y -> igrow (trimObject zeroRest) OTombstone (wf_object uid_key k) (st_inf x k) i ->
  inf_started i = inf_started (st_inf x k) ->
  exists y', rtc fine y y' /\ fine_sim (mkState (upd k i (st_inf x)) (st_cache x) (st_pc x)) y'.
Proof.
  destruct y as [inf th c pc]. intros [Hi Ht Hc Hp] Hg Hst. cbn in *. subst inf c.
  exists (mkFState (upd k i (st_inf x)) th (st_cache x) pc). split; [apply rtc_once; by apply f_grow|].
  by split.
Qed.

Lemma listers_of_dequeue (inf : kind -> informer (object Rest)) k q :
  listers_of (upd k (set_inf_queue q (inf k)) inf) = listers_of inf.
Proof. by destruct k. Qed.

Lemma fine_step x x' y :
  fine_sim x y -> istep zeroRest uid_key x x' -> exists y', rtc fine y y' /\ fine_sim x' y'.
Proof.
  intros Hsim Hs.
  assert (forall y', fine y y' -> fine_sim x' y' -> exists y', rtc fine y y' /\ fine_sim x' y') as Hone.
  { intros y' H1 H2. exists y'. split; [by apply rtc_once|done]. }
  destruct Hs; try (eapply (fine_grow (mkState _ _ _) _ _ _ Hsim); [by eauto with sniffer|done]).
  all: destruct y as [inf' th' c' pc']; destruct Hsim as [Hi Ht Hc Hp]; cbn in *; subst inf' c'.
  - inv Hp. eapply Hone; [apply f_phase1|by split; [..|constructor]].
  - inv Hp. eapply Hone; [by apply f_phase2|by split; [..|constructor]].
  - inv Hp. eexists. split; [eapply rtc_l; [by apply f_pass|apply rtc_once, f_work, w_pass_op]|].
    split; [done..|constructor].
  - inv Hp. eexists. split; [apply (pass_runs _ _ _ _ _ (syncServiceClusterIPs_prog (Some svc)))|].
    split; cbn [f_inf f_thread f_cache f_pc st_inf st_cache st_pc]; [done|done|by rewrite run_sync|constructor].
  - inv Hp. eapply Hone; [apply f_work, w_ready|by split; [..|constructor]].
  - eapply Hone; [apply f_return; by inv Hp|by split; [..|constructor]].
  - destruct (thread_runs zeroRest (wf_object uid_key) (upd k (set_inf_queue q (inf k)) inf) (set_at k (handler k n) th') c pc' k (handler k n))
      as (th2 & Hr & He & Hne); [apply set_at_eq|].
    eexists. split; [eapply rtc_l; [by eapply f_work, w_call|exact Hr]|].
    rewrite run_handler, listers_of_dequeue. split; [done| |done|done].
    intros k'. destruct (decide (k' = k)) as [->|Hk]; [done|]. rewrite Hne by done. by rewrite set_at_ne.
Qed.

(** Every reachable state of the coarse relation is a reachable state of the
    fine one, between two handlers. *)
Lemma coarse_reachable_fine x :
  ireachable zeroRest uid_key x -> exists y, freachable zeroRest (wf_object uid_key) env y /\ fine_sim x y.
Proof.
  apply (reachable_invariant _ _
    (fun x => exists y, freachable zeroRest (wf_object uid_key) env y /\ fine_sim x y)).
  - intros ? ->. exists NewFine. split; [by apply reach_init|by split].
  - intros x1 x2 (y & Hy & Hsim) Hs. destruct (fine_step _ _ _ Hsim Hs) as (y' & Hr & Hsim').
    exists y'. split; [by eapply freachable_rtc|done].
Qed.
End simulation.

(** C18: the atomic handlers are a sound summary of the code's operations: run
    without interference, the operations of every handler and of the pass give
    exactly the cache of its definition in Controller.v, and every state the
    controller reaches a handler at a time it reaches an operation at a time,
    with the same stores, queues and cache, between two calls, whatever others may
    write. *)
Theorem handlers_refine_calls {Rest} (zeroRest : Rest) {RO : RangeOrder okey (object Rest)} uid_key
    (env : write -> Prop) (x : @state Rest) (Hx : ireachable zeroRest uid_key x) :
  (forall (l : Listers Rest) k n c, (prog_run l (handler k n) c).2 = call l k n c) /\
  (forall (l : Listers Rest) c, (prog_run l reindexAllClusterIPs_prog c).2 = reindexAllClusterIPs l c) /\
  exists y, freachable zeroRest (wf_object uid_key) env y /\ fine_sim x y.
Proof.
  split_and!; [intros; apply run_handler|intros; apply run_reindexAll|by apply coarse_reachable_fine].
Qed.

(** ** The goroutines come to rest *)

Section termination.
Context {Rest : Type} {RO : RangeOrder okey (object Rest)}.
Implicit Types (x y : fstate Rest).

(** What one informer's goroutine still has to do, and what is left of the pass. *)
Definition todo : Type := list (notification (object Rest)) * prog Rest unit.
Definition less (k : kind) (y x : todo) : Prop :=
  match x.2 with
  | Next o kont => exists r, y = (x.1, kont r)
  | Ret _ => match x.1 with n :: q => y = (q, handler k n) | [] => False end
  end.
Definition less_pass (y x : option (prog Rest unit)) : Prop :=
  match x with
  | Some (Next o kont) => exists r, y = Some (kont r)
  | Some (Ret _) => y = None
  | None => False
  end.

Lemma less_wf k : well_founded (less k).
Proof.
  intros [q p]. revert p. induction q as [|n q IHq]; induction p as [a|o kont IH];
    constructor; intros y Hy; unfold less in Hy; cbn [fst snd] in Hy.
  - destruct Hy.
  - destruct Hy as [r ->]. apply IH.
  - subst y. apply IHq.
  - destruct Hy as [r ->]. apply IH.
Qed.

Lemma less_pass_wf : well_founded less_pass.
Proof.
  assert (Acc less_pass None) as Hn by by constructor.
  intros [p|]; [|done]. induction p as [a|o kont IH]; constructor; intros y Hy; cbn in Hy.
  - by subst y.
  - destruct Hy as [r ->]. apply IH.
Qed.

(** Everything left to do, by goroutine. *)
Definition left_of x (k : kind) : todo := (inf_queue (f_inf x k), f_thread x k).
Definition left_of_pass x : option (prog Rest unit) :=
  match f_pc x with FPass p => Some p | _ => None end.
Definition all_left x : todo * (todo * (todo * (todo * (todo * (todo * option (prog Rest unit)))))) :=
  (left_of x KReplicaSet, (left_of x KJob, (left_of x KPod, (left_of x KNode,
    (left_of x KService, (left_of x KSlice, left_of_pass x)))))).
Definition all_less :=
  symprod _ _ (less KReplicaSet) (symprod _ _ (less KJob) (symprod _ _ (less KPod) (symprod _ _ (less KNode)
    (symprod _ _ (less KService) (symprod _ _ (less KSlice) less_pass))))).

Lemma all_less_wf : well_founded all_less.
Proof. repeat (apply wf_symprod; [apply less_wf|]). apply less_pass_wf. Qed.

Lemma all_less_at k x y :
  less k (left_of y k) (left_of x k) -> (forall k', k' <> k -> left_of y k' = left_of x k') ->
  left_of_pass y = left_of_pass x -> all_less (all_left y) (all_left x).
Proof.
  intros Hl Ho Hp. unfold all_left, all_less. rewrite Hp.
  destruct k; repeat match goal with |- context [left_of y ?k] => rewrite (Ho k) by done end.
  - by apply left_sym.
  - by apply right_sym, left_sym.
  - by do 2 apply right_sym; apply left_sym.
  - by do 3 apply right_sym; apply left_sym.
  - by do 4 apply right_sym; apply left_sym.
  - by do 5 apply right_sym; apply left_sym.
Qed.

Lemma all_less_pass x y :
  less_pass (left_of_pass y) (left_of_pass x) -> (forall k, left_of y k = left_of x k) ->
  all_less (all_left y) (all_left x).
Proof. intros Hp Ho. unfold all_left, all_less. rewrite !Ho. by do 6 apply right_sym. Qed.

Lemma work_less x y : work x y -> all_less (all_left y) (all_left x).
Proof.
  intros Hw. destruct Hw as [inf th c pc k n q Ht Hq|inf th c pc k o kont Ht|inf th c o kont|inf th c].
  - apply (all_less_at k); [..|done]; unfold left_of; cbn.
    + by rewrite upd_eq, set_at_eq, Ht, Hq.
    + intros k' Hk. by rewrite upd_ne, set_at_ne.
  - apply (all_less_at k); [..|done]; unfold left_of; cbn [f_inf f_thread].
    + rewrite set_at_eq, Ht. exists (ask (listers_of inf) c o). done.
    + intros k' Hk. by rewrite set_at_ne.
  - apply all_less_pass; [|done]. exists (ask (listers_of inf) c o). done.
  - by apply all_less_pass.
Qed.

(** Without new events every run of the goroutines ends. *)
Lemma work_wf : well_founded (flip (@work Rest RO)).
Proof.
  apply (wf_incl _ _ (fun y x => all_less (all_left y) (all_left x))).
  - intros y x Hw. by apply work_less.
  - apply wf_inverse_image, all_less_wf.
Qed.

Lemma work_or_quiet x : quiet x \/ exists y, work x y.
Proof.
  destruct x as [inf th c pc].
  assert (forall k, (th k = Ret tt /\ inf_queue (inf k) = []) \/ exists y, work (mkFState inf th c pc) y) as Hk.
  { intros k. destruct (th k) as [[]|o kont] eqn:Ht; [|right; eexists; by eapply w_op].
    destruct (inf_queue (inf k)) eqn:Hq; [by left|]. right. eexists. by eapply w_call. }
  destruct (Hk KReplicaSet) as [H1|?]; [|by right]. destruct (Hk KJob) as [H2|?]; [|by right].
  destruct (Hk KPod) as [H3|?]; [|by right]. destruct (Hk KNode) as [H4|?]; [|by right].
  destruct (Hk KService) as [H5|?]; [|by right]. destruct (Hk KSlice) as [H6|?]; [|by right].
  destruct pc as [| | |[[]|o kont]| |]; try (left; split; [by intros []|done]);
    right; eexists; [apply w_ready|apply w_pass_op].
Qed.

Lemma work_stores x y k : work x y -> inf_store (f_inf y k) = inf_store (f_inf x k).
Proof.
  destruct 1; try done. cbn. unfold upd. case_decide; [by subst|done].
Qed.

Lemma settle x : exists y, rtc work x y /\ quiet y /\ forall k, inf_store (f_inf y k) = inf_store (f_inf x k).
Proof.
  induction x as [x IH] using (well_founded_ind work_wf).
  destruct (work_or_quiet x) as [Hq|[y Hy]]; [exists x; split_and!; [apply rtc_refl|done..]|].
  destruct (IH y Hy) as (z & Hr & Hz & Hs). exists z. split_and!; [by eapply rtc_l|done|].
  intros k. rewrite Hs. by apply work_stores.
Qed.
End termination.

(** ** Witness *)

Lemma handlers_refine_calls_witness :
  let RO : RangeOrder okey (object unit) := canonical_order in
  exists y, freachable tt (wf_object run_uid_key) (fun _ => False) y /\ f_pc y = FReady /\ f_cache y = cache_end.
Proof.
  cbv zeta.
  destruct (handlers_refine_calls (RO:=canonical_order) tt run_uid_key (fun _ => False) _ reach_end) as (_ & _ & y & Hy & Hs).
  exists y. split_and!; [done| |by apply Hs]. destruct Hs as [_ _ _ Hp]. by inv Hp.
Defined.
