(* ===== verification/Converge.v ===== *)
(** * Converge: what the interleaved handlers leave in the cache

    A part of the cache with a single writer: one informer whose handlers change
    it in a way their notification tells, as long as what they read is what it
    should be ([SingleWriter]).  However the other handlers and the pass
    interleave, once the writer's queue is empty the part agrees with the
    informer's store ([single_writer_converges]).  The instances are the parts of
    the three indexes with one source in the cluster: a pod UID, the address of
    one pod or node, the port of one Service or slice. *)

From S2P Require Import Prelude Golang Netip Model Kube Resolver Endpoints Controller.
From S2P Require Import Transform SharedInformer Informers Atomic Handlers Interleave.
Open Scope string_scope.
Open Scope list_scope.
Open Scope Z_scope.

Section facts.
Context {Rest : Type} (zeroRest : Rest).
Context {RO : RangeOrder okey (object Rest)}.
Context (wf : kind -> okey -> object Rest -> Prop).
Context (wf_trim : forall k key o, wf k key o -> wf k key (trimObject zeroRest o)).
(** The writes others may make to the cache. *)
Context (env : write -> Prop).
Implicit Types (x y : fstate Rest) (o : object Rest).
Abbreviation grow k := (igrow (trimObject zeroRest) OTombstone (wf k)) (only parsing).

(** ** What holds in every reachable state *)

Definition note_at (k : kind) : okey -> notification (object Rest) -> Prop := SharedInformer.note_at OTombstone (wf k).
Definition note_ok (k : kind) : notification (object Rest) -> Prop := SharedInformer.note_ok OTombstone (wf k).
Definition notes_ok (k : kind) : informer (object Rest) -> Prop := SharedInformer.notes_ok OTombstone (wf k).

(** What is known of a lister's answer. *)
Definition valid (o : op) : @reply Rest o -> Prop :=
  match o with
  | GetService _ _ => fun r => match r with Some s => exists key, wf KService key (OService s) | None => True end
  | ListServices => fun r =>
      match r with Some ss => forall s, s ∈ ss -> exists key, wf KService key (OService s) | None => True end
  | _ => fun _ => True
  end.

Definition fine_ok x : Prop := forall k, inf_ok (wf k) (f_inf x k) /\ notes_ok k (f_inf x k).

Lemma start_ok k (inf : kind -> informer (object Rest)) ks :
  inf_ok (wf k) (inf k) /\ notes_ok k (inf k) -> inf_ok (wf k) (start ks inf k) /\ notes_ok k (start ks inf k).
Proof.
  intros [H1 H2]. unfold start. case_decide; [|done]. split; [|done].
  apply (inf_ok_itrans (trimObject zeroRest) OTombstone (wf k) (wf_trim k) (inf k)); [|done]. auto with sniffer.
Qed.

Lemma upd_ok k i (inf : kind -> informer (object Rest)) :
  (forall k, inf_ok (wf k) (inf k) /\ notes_ok k (inf k)) -> inf_ok (wf k) i /\ notes_ok k i ->
  forall k', inf_ok (wf k') (upd k i inf k') /\ notes_ok k' (upd k i inf k').
Proof.
  intros Hok Hi k'. destruct (decide (k' = k)) as [->|Hne]; [by rewrite upd_eq|by rewrite upd_ne].
Qed.

Lemma work_ok x y : work x y -> fine_ok x -> fine_ok y.
Proof.
  intros Hw Hok. destruct Hw; try done. intros k'. apply upd_ok; [done|]. destruct (Hok k) as [H1 H2]. cbn in *. split.
  - apply (inf_ok_itrans (trimObject zeroRest) OTombstone (wf k) (wf_trim k) (inf k)); [|done]. by eapply t_deliver.
  - by eapply notes_tail.
Qed.

Lemma fine_ok_step x y : estep zeroRest wf env x y -> fine_ok x -> fine_ok y.
Proof.
  intros Hs Hok. destruct Hs as [Hs|Hf]; [|inv Hf; exact Hok]. destruct Hs; try done; [by eapply work_ok|intros k; by apply start_ok..|].
  intros k'. apply upd_ok; [done|]. destruct (Hok k) as [H1 H2]. split.
  - apply (inf_ok_itrans (trimObject zeroRest) OTombstone (wf k) (wf_trim k) (inf k)); [|done]. by apply t_grow.
  - by apply (notes_igrow (trimObject zeroRest) OTombstone (wf k) (wf_trim k) (inf k)).
Qed.

Lemma fine_ok_new : fine_ok NewFine.
Proof. intros k. split; [apply inf_ok_new|by apply Forall_nil]. Qed.

Lemma fine_ok_reachable x : freachable zeroRest wf env x -> fine_ok x.
Proof.
  apply reachable_invariant; [by intros ? ->; apply fine_ok_new|]. intros y z Hok Hs. by eapply fine_ok_step.
Qed.

(** Answers come from the stores. *)
Lemma stored_wf k (i : informer (object Rest)) o :
  map_Forall (wf k) (inf_store i) -> o ∈ stored i -> exists key, wf k key o.
Proof.
  intros Hs Hin. apply list_elem_of_fmap in Hin as ([key o'] & -> & Hin).
  rewrite range_map_perm in Hin. apply elem_of_map_to_list in Hin. exists key. by apply (Hs key o').
Qed.

Lemma ask_valid x (o : op) : fine_ok x -> valid o (ask (listers_of (f_inf x)) (f_cache x) o).
Proof.
  intros Hok. pose proof (ok_store _ _ (proj1 (Hok KService))) as Hs.
  destruct o; try done.
  - cbn. destruct (inf_store (f_inf x KService) !! (namespace, name)) as [o|] eqn:Ho; [|done]. cbn.
    destruct (asService o) as [s|] eqn:Hso; [|done]. apply asService_Some in Hso as ->.
    exists (namespace, name). by apply (Hs _ _ Ho).
  - intros s Hin. apply list_elem_of_omap in Hin as (o & Hin & Hso). apply asService_Some in Hso as ->.
    by apply (stored_wf KService (f_inf x KService)).
Qed.

(** ** Phases *)

Definition all_in (ks : list kind) x : Prop := Forall (fun k => HasSynced (f_inf x k) = true) ks.

(** A phase-two informer runs only once the owners are in the stores; the pass and
    readiness come when everything is. *)
Definition fine_phases x : Prop :=
  (forall k, k ∈ phase2 -> inf_started (f_inf x k) = true -> all_in phase1 x) /\
  match f_pc x with
  | FPhase2 => all_in phase1 x
  | FPass _ | FReady => all_in phase1 x /\ all_in phase2 x
  | _ => True
  end.

Lemma fstep_grow x y k : fstep zeroRest wf x y -> itrans (trimObject zeroRest) OTombstone (wf k) (f_inf x k) (f_inf y k).
Proof.
  intros Hs. destruct Hs as [x y Hw|inf th c|inf th c Hsy|inf th c Hsy|inf th c pc Hpc|inf th c pc k' i Hg Hst];
    [|cbn; try (by apply t_grow, t_same)..].
  - destruct Hw as [inf th c pc k' n q Ht Hq|inf th c pc k' o kont Ht|inf th c o kont|inf th c];
      cbn; try (by apply t_grow, t_same). unfold upd. case_decide; [subst; by eapply t_deliver|by apply t_grow, t_same].
  - unfold start. case_decide; [by apply t_grow, t_run|by apply t_grow, t_same].
  - unfold start. case_decide; [by apply t_grow, t_run|by apply t_grow, t_same].
  - unfold upd. case_decide; [subst; by apply t_grow|by apply t_grow, t_same].
Qed.

Lemma all_in_step x y ks : estep zeroRest wf env x y -> all_in ks x -> all_in ks y.
Proof.
  intros Hs Hks. destruct Hs as [Hs|Hf]; [|inv Hf; exact Hks]. eapply Forall_impl; [exact Hks|]. intros k.
  apply (HasSynced_itrans (trimObject zeroRest) OTombstone (wf k)). by apply fstep_grow.
Qed.

Lemma fine_phases_step x y : fine_phases x -> estep zeroRest wf env x y -> fine_phases y.
Proof.
  intros [Hst Hpc] He. destruct He as [Hs|Hf]; [|inv Hf; exact (conj Hst Hpc)]. split.
  - intros k Hk Hy. apply (all_in_step x); [by apply e_own|].
    destruct Hs as [x y Hw|inf th c|inf th c Hsy|inf th c Hsy|inf th c pc Hw|inf th c pc k' i Hg Hi]; cbn in *;
      try (by apply (Hst k)).
    + apply (Hst k Hk). revert Hy. destruct Hw as [inf th c pc k' n q Ht Hq| | |]; cbn; try done.
      unfold upd. case_decide; [by subst|done].
    + apply (Hst k Hk). revert Hy. unfold start. rewrite decide_False; [done|]. unfold phase1, phase2 in *. set_solver.
    + done.
    + apply (Hst k Hk). revert Hy. unfold upd. case_decide; [subst; by rewrite Hi|done].
  - pose proof (all_in_step x y phase1 (e_own _ _ _ _ _ Hs)) as H1.
    pose proof (all_in_step x y phase2 (e_own _ _ _ _ _ Hs)) as H2.
    assert (match f_pc x with FPhase2 => all_in phase1 y
      | FPass _ | FReady => all_in phase1 y /\ all_in phase2 y | _ => True end) as Hkeep
      by (destruct (f_pc x); intuition).
    destruct Hs as [x y Hw|inf th c|inf th c Hsy|inf th c Hsy|inf th c pc Hw|inf th c pc k' i Hg Hi].
    + by destruct Hw.
    + done.
    + by apply H1.
    + by split; [apply H1|apply H2].
    + done.
    + done.
Qed.

Lemma fine_phases_reachable x : freachable zeroRest wf env x -> fine_phases x.
Proof.
  apply reachable_invariant; [by intros ? ->; split|]. intros y z Hp Hs. by eapply fine_phases_step.
Qed.

(** ** Single writers *)

(** [cell] is a part of the cache that only the handlers of [K] write; [eff] is
    what one of their calls does to it when it is answered as [ans] says, [ok] what
    it must be for what the store holds at [key].  [live] are the states in which
    the stores do answer so; when that begins, the notifications still queued
    decide the part by themselves. *)
Class SingleWriter (K : kind) (key : okey) {V} (cell : Cache -> V)
    (eff : V -> notification (object Rest) -> V) (ok : option (object Rest) -> V -> Prop)
    (ans : forall o : op, @reply Rest o -> Prop) (live : fstate Rest -> Prop) : Prop := {
  sw_cell (x : write) c c' : cell c = cell c' -> cell (apply_write c x) = cell (apply_write c' x);
  sw_call n c : note_ok K n -> wp ans (fun _ c' => cell c' = eff (cell c) n) (handler K n) c;
  sw_others k n : k <> K -> note_ok k n ->
    only valid (fun w => forall c, cell (apply_write c w) = cell c) (handler k n);
  sw_env w c : env w -> cell (apply_write c w) = cell c;
  sw_pass : only valid (fun w => forall c, cell (apply_write c w) = cell c) reindexAllClusterIPs_prog;
  sw_key key' n v : note_at K key' n -> key' <> key -> eff v n = v;
  sw_init : ok None (cell NewCache);
  sw_add o v : wf K key o -> ok None v -> ok (Some o) (eff v (NAdd o));
  sw_update old o v : wf K key old -> wf K key o -> ok (Some old) v -> ok (Some o) (eff v (NUpdate old o));
  sw_delete o v : wf K key o -> ok (Some o) v ->
    ok None (eff v (NDelete o)) /\ ok None (eff v (NDelete (OTombstone o)));
  sw_answers x (q : op) : fine_ok x -> fine_phases x -> live x -> ans q (ask (listers_of (f_inf x)) (f_cache x) q);
  sw_back x y : fine_ok x -> fine_phases x -> estep zeroRest wf env x y -> live y ->
    live x \/ forall v, ok (inf_store (f_inf y K) !! key) (foldl eff v (inf_queue (f_inf y K)))
}.

Section single_writer.
Context {K : kind} {key : okey} {V : Type} {cell : Cache -> V}.
Context {eff : V -> notification (object Rest) -> V} {ok : option (object Rest) -> V -> Prop}.
Context {ans : forall o : op, @reply Rest o -> Prop} {live : fstate Rest -> Prop}.
Context {SW : SingleWriter K key cell eff ok ans live}.

(** Once the queued notifications are handled, the part is what it must be. *)
Definition due (i : informer (object Rest)) (v : V) : Prop :=
  ok (inf_store i !! key) (foldl eff v (inf_queue i)).
Abbreviation keeps := (only valid (fun w => forall c, cell (apply_write c w) = cell c)) (only parsing).

(** No other goroutine writes the part, and the writer's call in progress leaves
    it due. *)
Record alone x : Prop := {
  al_others k : k <> K -> keeps (f_thread x k);
  al_pass : match f_pc x with FPass p => keeps p | _ => True end
}.
Definition writing x : Prop :=
  exists g, cell g = cell (f_cache x) /\ wp ans (fun _ g' => due (f_inf x K) (cell g')) (f_thread x K) g.
Definition answered x : Prop := forall q : op, ans q (ask (listers_of (f_inf x)) (f_cache x) q).

Lemma observe_due k o i v :
  map_Forall (wf K) (inf_store i) -> wf K k o -> due i v -> due (observe (trimObject zeroRest) k o i) v.
Proof.
  intros Hs Ho Hd. unfold due in *. cbn. rewrite foldl_app. cbn [foldl].
  set (n := match inf_store i !! k with None => _ | Some old => _ end).
  assert (note_at K k n) as Hn.
  { unfold n. destruct (inf_store i !! k) as [old|] eqn:Hold.
    - apply note_update; [by apply (Hs k old)|by apply wf_trim].
    - by apply note_add, wf_trim. }
  destruct (decide (k = key)) as [->|Hne].
  - rewrite lookup_insert_eq. unfold n. destruct (inf_store i !! key) as [old|] eqn:Hold.
    + apply sw_update; [by apply (Hs key old)|by apply wf_trim|done].
    + by apply sw_add; [apply wf_trim|].
  - rewrite lookup_insert_ne by done. by rewrite (sw_key k).
Qed.

Lemma grow_due i i' v : grow K i i' -> inf_ok (wf K) i -> due i v -> due i' v.
Proof.
  intros Hg Hok Hd. pose proof (ok_store _ _ Hok) as Hs. destruct Hg; try done.
  - pose proof (ok_pending _ _ Hok) as Hp. rewrite H in Hp. apply Forall_cons in Hp as [Ho _].
    by apply observe_due.
  - by apply observe_due.
  - unfold due in *. cbn. rewrite foldl_app. cbn [foldl]. pose proof (Hs key0 o H0) as Ho.
    destruct (decide (key0 = key)) as [->|Hne].
    + rewrite lookup_delete_eq. rewrite H0 in Hd. destruct (sw_delete o _ Ho Hd). by destruct tomb.
    + rewrite lookup_delete_ne by done. rewrite (sw_key key0); [done| |done]. by destruct tomb; constructor.
  - unfold due in *. cbn. rewrite foldl_app. cbn [foldl]. pose proof (Hs key0 o H) as Ho.
    destruct (decide (key0 = key)) as [->|Hne].
    + rewrite H in Hd |- *. by apply sw_update.
    + rewrite (sw_key key0); [done| |done]. by constructor.
Qed.

Lemma only_exec {A} (kont : @reply Rest A -> prog Rest unit) x :
  fine_ok x -> keeps (Next A kont) ->
  cell (exec (f_cache x) A) = cell (f_cache x) /\ keeps (kont (ask (listers_of (f_inf x)) (f_cache x) A)).
Proof.
  intros Hok [Ho Hk]. split; [by destruct A; try done; apply Ho|]. by apply Hk, ask_valid.
Qed.

Lemma alone_step x y : fine_ok x -> alone x -> estep zeroRest wf env x y -> alone y.
Proof.
  intros Hok [Ho Hp] [Hs|Hs]; [|inv Hs; by split].
  destruct Hs as [x y Hw|inf th c|inf th c Hsy|inf th c Hsy|inf th c pc Hpc|inf th c pc k i Hgrow Hst];
    [|split; cbn; try done; apply sw_pass..].
  destruct Hw as [inf th c pc k n q Ht Hq|inf th c pc k o kont Ht|inf th c o kont|inf th c];
    split; cbn in *; try done.
  - intros k' Hk'. destruct (decide (k' = k)) as [->|]; [|rewrite set_at_ne by done; by apply Ho].
    rewrite set_at_eq. apply sw_others; [done|]. by destruct (notes_tail _ _ n q _ Hq (proj2 (Hok k))).
  - intros k' Hk'. destruct (decide (k' = k)) as [->|]; [|rewrite set_at_ne by done; by apply Ho].
    rewrite set_at_eq. pose proof (Ho k Hk') as Hk. rewrite Ht in Hk.
    by apply (only_exec kont (mkFState inf th c pc)).
  - by apply (only_exec kont (mkFState inf th c (FPass (Next o kont)))).
Qed.

Lemma work_writing x y : fine_ok x -> alone x -> answered x -> work x y -> writing x -> writing y.
Proof.
  intros Hok [Ho Hp] Ha Hw (g & Hg & Hwp).
  destruct Hw as [inf th c pc k n q Ht Hq|inf th c pc k o kont Ht|inf th c o kont|inf th c]; cbn in *.
  - destruct (notes_tail _ _ n q _ Hq (proj2 (Hok k))) as [Hn _]. exists g. split; [done|]. cbn.
    destruct (decide (k = K)) as [->|Hne]; [|by rewrite set_at_ne, upd_ne].
    rewrite set_at_eq, upd_eq. rewrite Ht in Hwp. cbn in Hwp.
    eapply wp_mono; [|by apply sw_call]. cbn. intros _ g' ->. unfold due in *. cbn. by rewrite Hq in Hwp.
  - destruct (decide (k = K)) as [->|Hne].
    + rewrite Ht in Hwp. exists (exec g o). split; cbn.
      * destruct o; try done. by apply sw_cell.
      * rewrite set_at_eq. apply Hwp, Ha.
    + pose proof (Ho k Hne) as Hk. rewrite Ht in Hk.
      destruct (only_exec kont (mkFState inf th c pc) Hok Hk) as [Hc _]. exists g. cbn in *.
      split; [by rewrite Hc|]. by rewrite set_at_ne.
  - destruct (only_exec kont (mkFState inf th c (FPass (Next o kont))) Hok Hp) as [Hc _].
    exists g. split; [by cbn in *; rewrite Hc|done].
  - by exists g.
Qed.

Lemma writing_step x y :
  fine_ok x -> alone x -> answered x -> estep zeroRest wf env x y -> writing x -> writing y.
Proof.
  intros Hok Hal Ha [Hs|Hf] Hw.
  2: { inv Hf. destruct Hw as (g & Hg & Hwp). exists g. split; [|done]. cbn. by rewrite sw_env. }
  destruct Hs as [x y Hs|inf th c|inf th c Hsy|inf th c Hsy|inf th c pc Hpc|inf th c pc k i Hgrow Hst];
    [by eapply work_writing|destruct Hw as (g & Hg & Hwp); exists g; split; [done|]; cbn in *..]; try done.
  - unfold due, start in *. by case_decide.
  - unfold due, start in *. by case_decide.
  - destruct (decide (K = k)) as [<-|Hne]; [|by rewrite upd_ne].
    rewrite upd_eq. eapply wp_mono; [|exact Hwp]. cbn. intros _ g' Hd.
    by apply (grow_due (inf K)); [|apply Hok|].
Qed.

(** From a state in which the stores answer: the part is due however it is now. *)
Lemma writing_afresh x : (forall v, due (f_inf x K) v) -> writing x.
Proof. intros Hd. exists (f_cache x). split; [done|]. apply wp_any. intros _ c. apply Hd. Qed.

Lemma writing_live_step x y :
  fine_ok x -> fine_phases x -> alone x -> estep zeroRest wf env x y ->
  (live x -> writing x) -> live y -> writing y.
Proof.
  intros Hok Hph Hal Hs Hw Hy. destruct (sw_back x y Hok Hph Hs Hy) as [Hx|Hd]; [|by apply writing_afresh].
  apply (writing_step x); [done|done| |done|by apply Hw]. intros o. by apply sw_answers.
Qed.

Lemma single_writer_converges x :
  freachable zeroRest wf env x -> live x -> f_thread x K = Ret tt -> inf_queue (f_inf x K) = [] ->
  ok (inf_store (f_inf x K) !! key) (cell (f_cache x)).
Proof.
  intros Hr Hl Ht Hq. assert (alone x /\ (live x -> writing x)) as [_ (g & Hg & Hwp)%(fun H => H Hl)].
  { clear Hl Ht Hq. enough (freachable zeroRest wf env x /\ alone x /\ (live x -> writing x)) by tauto. revert x Hr.
    apply (reachable_invariant _ _ (fun x => freachable zeroRest wf env x /\ alone x /\ (live x -> writing x))).
    - intros ? ->. split; [by apply reach_init|]. split; [by split|]. intros _. exists NewCache. split; [done|].
      apply sw_init.
    - intros x y (Hr & Hal & Hw) Hs. pose proof (fine_ok_reachable x Hr) as Hok.
      split; [by eapply reach_step|]. split; [by eapply alone_step|].
      apply (writing_live_step x); [done|by apply fine_phases_reachable|done..]. }
  rewrite Ht in Hwp. cbn in Hwp. unfold due in Hwp. by rewrite Hq, Hg in Hwp.
Qed.
End single_writer.
End facts.
