(* ===== verification/Cells.v ===== *)
(** * Cells: the parts of the index with one source in the cluster

    The instances of [SingleWriter] whose effect does not depend on what the
    handlers read: the namespace of a pod, at its UID or at an address only it
    reports; the address only one node reports; the port only one Service or slice
    exposes.  Who a pod is does depend on it: that is Owners.v, where these
    instances and termination give the controller's convergence. *)

From S2P Require Import Prelude Golang Netip Model Kube Resolver Endpoints Controller.
From S2P Require Import Transform SharedInformer Informers Atomic Handlers Interleave Converge.
Open Scope string_scope.
Open Scope list_scope.
Open Scope Z_scope.

Section effects.
Context {Rest : Type} (valid : forall o : op, @reply Rest o -> Prop).
Implicit Types (o : object Rest) (c : Cache).

(** ** What a call leaves in a cache of its own *)

Lemma wp_for_each_write {X} (Q : unit -> Cache -> Prop) (xs : list X) (w : X -> write) c :
  Q tt (foldl (fun c x => apply_write c (w x)) c xs) ->
  wp valid Q (for_each xs (fun x => @write_op Rest (w x))) c.
Proof. apply wp_for_each. by intros x c' [] _. Qed.

Lemma wp_ResolveTopOwner k ns n c :
  wp valid (fun wl c' => c' = c /\ WlNamespace wl = ns) (ResolveTopOwner_prog k ns n) c.
Proof.
  apply (wp_seq _ (fun c' => c' = c)).
  - apply (wp_only valid (fun c => c)). generalize maxOwnerDepth as m. intros m. revert k n.
    induction m as [|m IH]; intros k n; [done|]. apply only_bind; [apply only_GetController|]. by intros [[]|].
  - by intros a c' ->.
Qed.

(** What [onPod] writes once it knows the workload. *)
Definition pod_cache (p : Pod Rest) (wl : Workload) c : Cache :=
  let c := if decide (pod_UID p <> "") then UpsertUID c (pod_UID p) wl else c in
  if pod_HostNetwork p then c else upsert_all wl (podIPs p) c.

Lemma wp_onPod (Q : unit -> Cache -> Prop) p c :
  (forall wl, WlNamespace wl = pod_Namespace p -> Q tt (pod_cache p wl c)) -> wp valid Q (onPod_prog (OPod p)) c.
Proof.
  intros HQ. cbn [onPod_prog asPod]. apply wp_bind. eapply wp_mono; [|apply wp_ResolveTopOwner].
  cbn beta. intros wl ? [-> Hns]. specialize (HQ wl Hns). unfold pod_cache in HQ.
  destruct (decide (pod_UID p <> "")); [intros [] _|]; cbn [wp exec apply_write mbind prog_bind];
    (destruct (pod_HostNetwork p); [exact HQ|]; by apply wp_for_each_write).
Qed.

Lemma wp_onPodDelete (Q : unit -> Cache -> Prop) o c :
  Q tt (onPodDelete o c) -> wp valid Q (onPodDelete_prog o) c.
Proof.
  unfold onPodDelete_prog, onPodDelete. destruct (unwrap asPod o) as [p|]; [|done]. intros HQ.
  apply wp_bind, wp_for_each_write. case_decide; [by intros [] _|exact HQ].
Qed.

Lemma wp_onNode (Q : unit -> Cache -> Prop) o c : Q tt (onNode o c) -> wp valid Q (onNode_prog o) c.
Proof. unfold onNode_prog, onNode. destruct (asNode o); [|done]. intros HQ. by apply wp_for_each_write. Qed.

Lemma wp_onNodeDelete (Q : unit -> Cache -> Prop) o c :
  Q tt (onNodeDelete o c) -> wp valid Q (onNodeDelete_prog o) c.
Proof.
  unfold onNodeDelete_prog, onNodeDelete. destruct (unwrap asNode o); [|done]. intros HQ. by apply wp_for_each_write.
Qed.

Lemma wp_reindexPorts (Q : unit -> Cache -> Prop) old new c :
  Q tt (reindexPorts old new c) -> wp valid Q (@reindexPorts_prog Rest old new) c.
Proof.
  intros HQ. apply wp_bind, wp_for_each_write. cbv zeta. unfold reindexPorts, indexPorts in HQ.
  eapply wp_for_each; [|exact HQ]. intros e c'. cbn beta. by case_decide; [|intros [] _].
Qed.
End effects.

Section cells.
Context {Rest : Type} (zeroRest : Rest).
Context {RO : RangeOrder okey (object Rest)}.
Context (uid_key : string -> okey).
(** More that is known of the objects of the cluster. *)
Context (P : kind -> okey -> object Rest -> Prop).
Context (P_trim : forall k key o, P k key o -> P k key (trimObject zeroRest o)).
(** Others write addresses only. *)
Context (env : write -> Prop) (env_ips : forall w, env w -> is_Some (write_ip w)).
Definition undisturbed (ip : Addr) : Prop := forall w, env w -> says_ip ip w = None.
Implicit Types (o : object Rest) (c : Cache).

Definition wf_cluster (k : kind) (key : okey) (o : object Rest) : Prop := wf_object uid_key k key o /\ P k key o.

Lemma wf_cluster_trim k key o : wf_cluster k key o -> wf_cluster k key (trimObject zeroRest o).
Proof. intros [H1 H2]. split; [by apply wf_trimObject|by apply P_trim]. Qed.

(** ** Who writes what *)

Lemma note_carries k key n o x :
  note_at wf_cluster k key n -> carries n o -> may_write k o x ->
  exists o', wf_cluster k key o' /\ may_write k o' x.
Proof. intros Hn Hc Hm. destruct Hn; cbn in Hc; [|destruct Hc|..]; subst; eauto. inv Hm. eauto. Qed.

Lemma others_keep K (G : write -> Prop) :
  (forall k key o x, k <> K -> wf_cluster k key o -> may_write k o x -> G x) ->
  (forall key svc x ip, wf_cluster KService key (OService svc) -> write_ip x = Some ip -> ip ∈ clusterIPs svc -> G x) ->
  (forall k n, k <> K -> note_ok wf_cluster k n -> only (valid wf_cluster) G (handler k n)) /\
  only (valid wf_cluster) G reindexAllClusterIPs_prog.
Proof.
  intros Hw Hs. split.
  - intros k n Hk [key Hn]. apply handler_only.
    + intros ns nm svc x ip (key' & Hwf) Hx Hip. by apply (Hs key' svc x ip).
    + intros o x Hc Hm. destruct (note_carries k key n o x Hn Hc Hm) as (o' & Ho & Hm'). by apply (Hw k key o' x).
  - apply pass_only. intros svcs Hv svc x ip Hin Hx Hip. destruct (Hv svc Hin) as [key Hwf].
    by apply (Hs key svc x ip).
Qed.

Lemma write_kind k o x u : may_write k o x -> write_uid x = Some u -> k = KPod.
Proof. induction 1; intros Hu; auto; by destruct x. Qed.

(** ** UIDs *)

Lemma indexed_write u c x :
  indexed u (apply_write c x) = match says_uid u x with Some v => WlNamespace <$> v | None => indexed u c end.
Proof. unfold indexed. rewrite apply_write_uid. by destruct (says_uid u x). Qed.

Lemma pod_cache_uid (p : Pod Rest) wl c u :
  u <> "" -> WlNamespace wl = pod_Namespace p ->
  indexed u (pod_cache p wl c) = says_indexed u (indexed u c) (NAdd (OPod p)).
Proof.
  intros Hu Hns. cbn. unfold pod_cache. set (c1 := if decide (pod_UID p <> "") then _ else c).
  transitivity (indexed u c1).
  { apply indexed_byUID. destruct (pod_HostNetwork p); [done|]. apply upsert_all_frame. }
  unfold c1. destruct (decide (pod_UID p <> "")) as [Hp|Hp].
  - etrans; [apply (indexed_write u c (WUpsertUID (pod_UID p) wl))|]. cbn. case_decide; [|done].
    cbn. by rewrite Hns.
  - rewrite decide_False; [done|]. intros He. apply Hp. by rewrite He.
Qed.

(** The pod of a key has the UID in every revision. *)
Definition same_uid (u : string) : Prop := forall p, wf_cluster KPod (uid_key u) (OPod p) -> pod_UID p = u.
Definition uid_due (u : string) (st : option (object Rest)) (ns : option string) : Prop :=
  (forall p, st = Some (OPod p) -> pod_UID p = u -> ns = Some (pod_Namespace p)) /\
  (st = None -> same_uid u -> ns = None).

#[local] Instance uid_writer u (Hu : u <> "") :
  SingleWriter zeroRest wf_cluster env KPod (uid_key u) (indexed u) (says_indexed u) (uid_due u) (valid wf_cluster) (fun _ => True).
Proof.
  destruct (others_keep KPod (fun x => forall c, indexed u (apply_write c x) = indexed u c)) as [Hothers Hpass].
  { intros k key o x Hk _ Hm c. rewrite indexed_write.
    assert (write_uid x = None) as Hx.
    { destruct (write_uid x) as [v|] eqn:Hx; [|done]. exfalso. by apply Hk, (write_kind k o x v). }
    by destruct x. }
  { intros key svc x ip _ Hx _ c. rewrite indexed_write. by destruct x. }
  split.
  - intros x c c' Hc. by rewrite !indexed_write, Hc.
  - intros n c [key Hn]. destruct n as [o|old o|o]; cbn [handler].
    1,2: inversion Hn as [? [Hwf _]|? ? _ [Hwf _]|?|?]; subst; destruct o as [p| | | | | | | |]; try done;
      apply wp_onPod; intros wl Hns; by apply pod_cache_uid.
    apply wp_onPodDelete. by apply onPodDelete_indexed.
  - exact Hothers.
  - intros w c He. rewrite indexed_write. by destruct (env_ips w He), w.
  - exact Hpass.
  - intros key n v Hn Hne.
    assert (forall p, wf_cluster KPod key (OPod p) -> pod_UID p <> u) as Hp.
    { intros p [[_ Hp] _] He. apply Hne. rewrite <-He. symmetry. apply Hp. by rewrite He. }
    destruct Hn as [o Ho|old o _ Ho|o Ho|o Ho]; destruct o as [p| | | | | | | |]; try (by destruct Ho);
      cbn; rewrite decide_False; auto.
  - by split.
  - intros o v _ _. split; [|done]. intros p [= ->] He. cbn. by rewrite decide_True.
  - intros old o v _ _ _. split; [|done]. intros p [= ->] He. cbn. by rewrite decide_True.
  - intros o v Hwf _. destruct o as [p| | | | | | | |]; try (by destruct Hwf as [[] _]).
    split; (split; [done|]); intros _ Hs; cbn; by rewrite decide_True by (by apply Hs).
  - intros x o Hok _ _. by apply ask_valid.
  - by left.
Qed.

(** ** Addresses *)

(** The addresses an object of a kind gives the index. *)
Definition claims_ip (ip : Addr) (k : kind) o : Prop :=
  match k, o with
  | KPod, OPod p => Unmap ip ∈ Unmap <$> podIPs p
  | KNode, ONode n => Unmap ip ∈ Unmap <$> nodeInternalIPs n
  | KService, OService s => ips_of s ip
  | _, _ => False
  end.
(** Only the object of one key is ever seen to claim something. *)
Definition only_claim (claims : kind -> object Rest -> Prop) (K : kind) (key : okey) : Prop :=
  forall k key' o, wf_cluster k key' o -> claims k o -> k = K /\ key' = key.

Lemma claims_write ip k o x :
  may_write k o x -> ~ claims_ip ip k o -> (forall o', o <> OTombstone o') -> says_ip ip x = None.
Proof.
  intros Hm Hno Hto. destruct (says_ip ip x) as [v|] eqn:Hs; [exfalso|done].
  assert (forall ip', write_ip x = Some ip' -> Unmap ip' = Unmap ip) as Hip.
  { intros ip' Hx. destruct x; cbn in *; simplify_eq; by case_decide. }
  assert (forall ip' (l : list Addr), write_ip x = Some ip' -> ip' ∈ l -> Unmap ip ∈ Unmap <$> l) as Hin.
  { intros ip' l Hx Hl. rewrite <-(Hip ip' Hx). by apply list_elem_of_fmap_2. }
  destruct Hm; try (by apply Hno; eapply Hin); try (by destruct x); by eapply Hto.
Qed.

Lemma ip_writers ip K key {V} (cell : option Workload -> V) :
  only_claim (claims_ip ip) K key -> K <> KService ->
  let G := fun x => forall c, cell (LookupIP (apply_write c x) ip) = cell (LookupIP c ip) in
  (forall k n, k <> K -> note_ok wf_cluster k n -> only (valid wf_cluster) G (handler k n)) /\
  only (valid wf_cluster) G reindexAllClusterIPs_prog.
Proof.
  intros Hown HK G. assert (forall x, says_ip ip x = None -> G x) as HG.
  { intros x Hx c. by rewrite apply_write_ip, Hx. }
  apply others_keep.
  - intros k key' o x Hk Hwf Hm. apply HG. apply (claims_write ip k o); [done| |].
    + intros Hcl. by destruct (Hown k key' o Hwf Hcl).
    + intros o' ->. by destruct k, Hwf as [[] _].
  - intros key' svc x ip' Hwf Hx Hip. apply HG. apply (claims_write ip KService (OService svc));
      [by eapply mw_service| |done].
    intros Hcl. destruct (Hown _ _ _ Hwf Hcl) as [He _]. by apply HK.
Qed.

(** The namespace of the workload at an address, and what a pod's notifications
    do to it. *)
Definition ns_at (ip : Addr) (c : Cache) : option string := WlNamespace <$> LookupIP c ip.
Definition says_pod_ip (ip : Addr) (b : option string) (n : notification (object Rest)) : option string :=
  match n with
  | NAdd o | NUpdate _ o =>
      match asPod o with
      | Some p => if decide (pod_HostNetwork p = false /\ Unmap ip ∈ Unmap <$> podIPs p)
                  then Some (pod_Namespace p) else b
      | None => b
      end
  | NDelete o =>
      match unwrap asPod o with
      | Some p => if decide (Unmap ip ∈ Unmap <$> podIPs p) then None else b
      | None => b
      end
  end.
(** Every revision of the pod reports the address. *)
Definition same_pod_ip (ip : Addr) (key : okey) : Prop :=
  forall p, wf_cluster KPod key (OPod p) -> Unmap ip ∈ Unmap <$> podIPs p.
Definition pod_ip_due (key : okey) (ip : Addr) (st : option (object Rest)) (ns : option string) : Prop :=
  (forall p, st = Some (OPod p) -> pod_HostNetwork p = false -> Unmap ip ∈ Unmap <$> podIPs p ->
     ns = Some (pod_Namespace p)) /\
  (st = None -> same_pod_ip ip key -> ns = None).

Lemma pod_cache_ip (p : Pod Rest) wl c ip :
  WlNamespace wl = pod_Namespace p ->
  ns_at ip (pod_cache p wl c) = says_pod_ip ip (ns_at ip c) (NAdd (OPod p)).
Proof.
  intros Hns. cbn. unfold pod_cache. set (c1 := if decide (pod_UID p <> "") then _ else c).
  assert (ns_at ip c1 = ns_at ip c) as <-.
  { unfold ns_at. f_equal. apply LookupIP_byIP. unfold c1. by case_decide. }
  destruct (pod_HostNetwork p); [by rewrite decide_False by (by intros [? _])|].
  unfold ns_at. rewrite upsert_all_ip. case_decide as Hin; [by rewrite decide_True; cbn; rewrite ?Hns|].
  by rewrite decide_False by (by intros [_ ?]).
Qed.

Lemma pod_ip_writer ip key :
  only_claim (claims_ip ip) KPod key -> undisturbed ip ->
  SingleWriter zeroRest wf_cluster env KPod key (ns_at ip) (says_pod_ip ip) (pod_ip_due key ip)
    (valid wf_cluster) (fun _ => True).
Proof.
  intros Hown Henv. destruct (ip_writers ip KPod key (fmap WlNamespace) Hown) as [Hothers Hpass]; [done|].
  split.
  - intros x c c' Hc. unfold ns_at in *. rewrite !apply_write_ip. by destruct (says_ip ip x).
  - intros n c [k Hn]. destruct n as [o|old o|o]; cbn [handler].
    1,2: inversion Hn as [? [Hwf _]|? ? _ [Hwf _]|?|?]; subst; destruct o as [p| | | | | | | |]; try done;
      apply wp_onPod; intros wl Hns; by apply pod_cache_ip.
    apply wp_onPodDelete. unfold ns_at. rewrite onPodDelete_ip. cbn.
    destruct (unwrap asPod o); [by case_decide|done].
  - exact Hothers.
  - intros w c He. unfold ns_at. by rewrite apply_write_ip, Henv.
  - exact Hpass.
  - intros k n v Hn Hne.
    assert (forall p, wf_cluster KPod k (OPod p) -> Unmap ip ∉ Unmap <$> podIPs p) as Hp.
    { intros p Hwf Hin. apply Hne. by destruct (Hown _ _ _ Hwf Hin). }
    destruct Hn as [o Ho|old o _ Ho|o Ho|o Ho]; destruct o as [p| | | | | | | |]; try (by destruct Ho);
      cbn; rewrite decide_False; try done; try (intros [_ Hin]; by apply (Hp p)). all: by apply Hp.
  - by split.
  - intros o v _ _. split; [|done]. intros p [= ->] Hh Hin. cbn. by rewrite decide_True.
  - intros old o v _ _ _. split; [|done]. intros p [= ->] Hh Hin. cbn. by rewrite decide_True.
  - intros o v Hwf _. destruct o as [p| | | | | | | |]; try (by destruct Hwf as [[] _]).
    split; (split; [done|]); intros _ Hs; cbn; by rewrite decide_True by (by apply Hs).
  - intros x o Hok _ _. by apply ask_valid.
  - by left.
Qed.

Definition node_workload (n : Node Rest) : Workload := mkWorkload (node_Name n) "" KindNode.
Definition says_node_ip (ip : Addr) (b : option Workload) (n : notification (object Rest)) : option Workload :=
  match n with
  | NAdd o | NUpdate _ o =>
      match asNode o with
      | Some n => if decide (Unmap ip ∈ Unmap <$> nodeInternalIPs n) then Some (node_workload n) else b
      | None => b
      end
  | NDelete o =>
      match unwrap asNode o with
      | Some n => if decide (Unmap ip ∈ Unmap <$> nodeInternalIPs n) then None else b
      | None => b
      end
  end.
Definition same_node_ip (ip : Addr) (key : okey) : Prop :=
  forall n, wf_cluster KNode key (ONode n) -> Unmap ip ∈ Unmap <$> nodeInternalIPs n.
Definition node_ip_due (key : okey) (ip : Addr) (st : option (object Rest)) (w : option Workload) : Prop :=
  (forall n, st = Some (ONode n) -> Unmap ip ∈ Unmap <$> nodeInternalIPs n -> w = Some (node_workload n)) /\
  (st = None -> same_node_ip ip key -> w = None).

Lemma onNode_ip (n : Node Rest) c ip :
  LookupIP (onNode (ONode n) c) ip =
  if decide (Unmap ip ∈ Unmap <$> nodeInternalIPs n) then Some (node_workload n) else LookupIP c ip.
Proof. apply upsert_all_ip. Qed.

Lemma node_ip_writer ip key :
  only_claim (claims_ip ip) KNode key -> undisturbed ip ->
  SingleWriter zeroRest wf_cluster env KNode key (fun c => LookupIP c ip) (says_node_ip ip) (node_ip_due key ip)
    (valid wf_cluster) (fun _ => True).
Proof.
  intros Hown Henv. destruct (ip_writers ip KNode key id Hown) as [Hothers Hpass]; [done|].
  split.
  - intros x c c' Hc. rewrite !apply_write_ip. by destruct (says_ip ip x).
  - intros n c [k Hn]. destruct n as [o|old o|o]; cbn [handler].
    1,2: inversion Hn as [? [Hwf _]|? ? _ [Hwf _]|?|?]; subst; destruct o as [| | |m| | | | |]; try done;
      apply wp_onNode, onNode_ip.
    apply wp_onNodeDelete. cbn. unfold onNodeDelete. destruct (unwrap asNode o); [apply delete_all_ip|done].
  - exact Hothers.
  - intros w c He. by rewrite apply_write_ip, Henv.
  - exact Hpass.
  - intros k n v Hn Hne.
    assert (forall m, wf_cluster KNode k (ONode m) -> Unmap ip ∉ Unmap <$> nodeInternalIPs m) as Hp.
    { intros m Hwf Hin. apply Hne. by destruct (Hown _ _ _ Hwf Hin). }
    destruct Hn as [o Ho|old o _ Ho|o Ho|o Ho]; destruct o as [| | |m| | | | |]; try (by destruct Ho);
      cbn; rewrite decide_False; auto.
  - by split.
  - intros o v _ _. split; [|done]. intros n [= ->] Hin. cbn. by rewrite decide_True.
  - intros old o v _ _ _. split; [|done]. intros n [= ->] Hin. cbn. by rewrite decide_True.
  - intros o v Hwf _. destruct o as [| | |n| | | | |]; try (by destruct Hwf as [[] _]).
    split; (split; [done|]); intros _ Hs; cbn; by rewrite decide_True by (by apply Hs).
  - intros x o Hok _ _. by apply ask_valid.
  - by left.
Qed.

(** ** Ports *)

(** The entries an object of a kind gives the port index. *)
Definition entries_of (k : kind) o : list portEntry :=
  match k, o with
  | KService, OService s => serviceEntries (Some s)
  | KSlice, OEndpointSlice e => endpointSliceEntries (Some e)
  | _, _ => []
  end.
Definition claims_port (ip : Addr) (port : Z) (k : kind) o : Prop :=
  is_Some (declared (entries_of k o) ip port).

Definition untomb o : object Rest := match o with OTombstone o => o | o => o end.
Definition says_ports (k : kind) (ip : Addr) (port : Z) (b : option string) (n : notification (object Rest))
    : option string :=
  match n with
  | NAdd o => match declared (entries_of k o) ip port with Some l7 => Some l7 | None => b end
  | NUpdate old o =>
      match declared (entries_of k o) ip port with
      | Some l7 => Some l7
      | None => match declared (entries_of k old) ip port with Some _ => None | None => b end
      end
  | NDelete o => match declared (entries_of k (untomb o)) ip port with Some _ => None | None => b end
  end.
Definition port_due (k : kind) (ip : Addr) (port : Z) (st : option (object Rest)) (l7 : option string) : Prop :=
  l7 = match st with Some o => declared (entries_of k o) ip port | None => None end.

Lemma claims_port_write ip port k o x :
  may_write k o x -> ~ claims_port ip port k o -> (forall o', o <> OTombstone o') -> says_port ip port x = None.
Proof.
  intros Hm Hno Hto. destruct (says_port ip port x) as [v|] eqn:Hs; [exfalso|done].
  assert (forall ip' port', write_port x = Some (ip', port') -> Unmap ip' = Unmap ip /\ port' = port) as Hk.
  { intros ip' port' Hx. destruct x; cbn in *; simplify_eq; by case_decide. }
  assert (forall e (l : list portEntry), write_port x = Some (pe_ip e, pe_port e) -> e ∈ l ->
    is_Some (declared l ip port)) as Hin.
  { intros e l Hx Hl. apply declared_key. destruct (Hk _ _ Hx) as [H1 H2]. rewrite <-H1, <-H2.
    by apply (list_elem_of_fmap_2 entryKey). }
  destruct Hm; try (by apply Hno; eapply Hin); try (by destruct x); by eapply Hto.
Qed.

Lemma port_writers ip port K key :
  only_claim (claims_port ip port) K key ->
  let G := fun x => forall c, LookupPort (apply_write c x) ip port = LookupPort c ip port in
  (forall k n, k <> K -> note_ok wf_cluster k n -> only (valid wf_cluster) G (handler k n)) /\
  only (valid wf_cluster) G reindexAllClusterIPs_prog.
Proof.
  intros Hown G. assert (forall x, says_port ip port x = None -> G x) as HG.
  { intros x Hx c. by rewrite apply_write_port, Hx. }
  apply others_keep.
  - intros k key' o x Hk Hwf Hm. apply HG. apply (claims_port_write ip port k o); [done| |].
    + intros Hcl. by destruct (Hown k key' o Hwf Hcl).
    + intros o' ->. by destruct k, Hwf as [[] _].
  - intros key' svc x ip' _ Hx _. apply HG. by destruct x.
Qed.

(** Following a re-index by ClusterIPs leaves the ports alone. *)
Lemma wp_then_sync ip port (p : prog Rest unit) (f : unit -> prog Rest unit) c v :
  wp (valid wf_cluster) (fun _ c' => LookupPort c' ip port = v) p c ->
  (forall a, only (valid wf_cluster) (fun x => write_port x = None) (f a)) ->
  wp (valid wf_cluster) (fun _ c' => LookupPort c' ip port = v) (p ≫= f) c.
Proof.
  intros Hp Hf. apply (wp_seq _ (fun c' => LookupPort c' ip port = v)); [done|]. intros a c' <-.
  apply (wp_only _ (fun c => LookupPort c ip port)). eapply only_mono; [|apply Hf].
  intros x Hx c2. rewrite apply_write_port. by destruct x.
Qed.
Abbreviation no_ports := (fun x => write_port x = None) (only parsing).

Lemma sync_no_ports svc : only (valid wf_cluster) no_ports (syncServiceClusterIPs_prog (Some svc)).
Proof. apply only_sync. by intros []. Qed.
Lemma sync_slice_no_ports es : only (valid wf_cluster) no_ports (syncServiceForSlice_prog es).
Proof. apply only_sync_slice. by intros ? ? ? []. Qed.
#[local] Hint Resolve sync_no_ports sync_slice_no_ports : core.

Lemma service_call ip port n c :
  note_ok wf_cluster KService n ->
  wp (valid wf_cluster) (fun _ c' => LookupPort c' ip port = says_ports KService ip port (LookupPort c ip port) n)
    (handler KService n) c.
Proof.
  intros [key Hn]. inversion Hn as [o [Hwf _] He|old o [Hold _] [Hwf _] He|o [Hwf _] He|o [Hwf _] He]; subst n;
    destruct o as [| | | |s| | | |]; try done; cbn [handler].
  - apply wp_then_sync; [|auto]. apply wp_for_each_write. apply (indexPorts_lookup _ c), serviceEntries_l7s.
  - destruct old as [| | | |s'| | | |]; try done. apply wp_then_sync.
    + apply wp_reindexPorts, reindexPorts_lookup, serviceEntries_l7s.
    + intros _. apply only_bind; [|auto]. apply only_for_each. intros ip' _. by case_decide.
  - apply wp_then_sync; [apply wp_for_each_write, (deletePorts_lookup _ c)|].
    intros _. apply only_for_each. by intros ip' _.
  - apply wp_then_sync; [apply wp_for_each_write, (deletePorts_lookup _ c)|].
    intros _. apply only_for_each. by intros ip' _.
Qed.

Lemma slice_call ip port n c :
  note_ok wf_cluster KSlice n ->
  wp (valid wf_cluster) (fun _ c' => LookupPort c' ip port = says_ports KSlice ip port (LookupPort c ip port) n)
    (handler KSlice n) c.
Proof.
  intros [key Hn]. inversion Hn as [o [Hwf _] He|old o [Hold _] [Hwf _] He|o [Hwf _] He|o [Hwf _] He]; subst n;
    destruct o as [| | | | |e| | |]; try done; cbn [handler].
  - apply wp_then_sync; [|auto]. apply wp_for_each_write. apply (indexPorts_lookup _ c), endpointSliceEntries_l7s.
  - destruct old as [| | | | |e'| | |]; try done. apply wp_then_sync.
    + apply wp_reindexPorts, reindexPorts_lookup, endpointSliceEntries_l7s.
    + intros _. apply only_bind; [auto|]. intros _. cbn [asEndpointSlice].
      case_decide; [apply sync_slice_no_ports|done].
  - apply wp_then_sync; [|auto]. apply wp_for_each_write, (deletePorts_lookup _ c).
  - apply wp_then_sync; [|auto]. apply wp_for_each_write, (deletePorts_lookup _ c).
Qed.

Lemma port_writer ip port K key :
  K = KService \/ K = KSlice -> only_claim (claims_port ip port) K key ->
  SingleWriter zeroRest wf_cluster env K key (fun c => LookupPort c ip port) (says_ports K ip port) (port_due K ip port)
    (valid wf_cluster) (fun _ => True).
Proof.
  intros HK Hown. destruct (port_writers ip port K key Hown) as [Hothers Hpass]. split.
  - intros x c c' Hc. rewrite !apply_write_port. by destruct (says_port ip port x).
  - intros n c Hn. destruct HK as [-> | ->]; [by apply service_call|by apply slice_call].
  - exact Hothers.
  - intros w c He. rewrite apply_write_port. by destruct (env_ips w He), w.
  - exact Hpass.
  - intros k n v Hn Hne.
    assert (forall o, wf_cluster K k o -> declared (entries_of K o) ip port = None) as Hno.
    { intros o Hwf. destruct (declared _ _ _) as [l7|] eqn:Hd; [exfalso|done]. apply Hne.
      by destruct (Hown K k o Hwf ltac:(by eexists)). }
    assert (forall o, wf_cluster K k o -> untomb o = o) as Hto by (intros o [Hwf _]; by destruct K, o).
    destruct Hn as [o Ho|old o Hold Ho|o Ho|o Ho]; cbn; rewrite ?Hto, !Hno by done; done.
  - done.
  - intros o v _ ->. unfold port_due. cbn. by destruct (declared _ _ _).
  - intros old o v _ _ ->. unfold port_due. cbn. destruct (declared (entries_of K o) ip port); [done|].
    by destruct (declared (entries_of K old) ip port).
  - intros o v [Hwf _] ->. unfold port_due. cbn. assert (untomb o = o) as -> by (by destruct K, o).
    by destruct (declared (entries_of K o) _ _).
  - intros x o Hok _ _. by apply ask_valid.
  - by left.
Qed.

End cells.
