(* ===== verification/Owners.v ===== *)
(** * Owners: the identity of a pod, however the handlers interleave (internal/resolver/k8s_linux.go, resolver.go)

    A pod is indexed under its top-level owner, found by a walk through the
    listers while other handlers run.  [top_owner] is the owner its references
    lead to when the ReplicaSets and Jobs on the way stay in the stores.  While
    they do, a walk begun at any moment ends there ([wp_top]), so the pod's UID and
    its own addresses have a single writer with one thing to say ([pod_writer]).
    With the cells of Cells.v this is all that the index promises at rest
    ([agrees], [index_converges]). *)

From S2P Require Import Prelude Golang Netip Model Kube Resolver Endpoints Controller.
From S2P Require Import Transform SharedInformer Informers Atomic Handlers Interleave Converge Cells.
Open Scope string_scope.
Open Scope list_scope.
Open Scope Z_scope.

(** ** Facts of one informer *)

Section informer.
Context {Obj : Type} (transform tombstone : Obj -> Obj) (wf : okey -> Obj -> Prop).
Implicit Types (i : informer Obj).

(** After the LIST its keys are what they are; deletions only add up. *)
Lemma igrow_listed i i' :
  igrow transform tombstone wf i i' -> HasSynced i = true ->
  inf_listed i' = inf_listed i /\ inf_deleted i ⊆ inf_deleted i'.
Proof.
  intros Hg Hs. destruct Hg as [| |? lst _ Hp| | |? key o b _ _|]; cbn; try done.
  - unfold HasSynced in Hs. by rewrite Hp, andb_false_r in Hs.
  - split; [done|set_solver].
Qed.

(** An object that was not stored and is now has just been added. *)
Lemma igrow_appears i i' key o :
  igrow transform tombstone wf i i' -> inf_store i !! key = None -> inf_store i' !! key = Some o ->
  exists q, inf_queue i' = q ++ [NAdd o].
Proof.
  intros Hg Hn Hs. assert (forall k a j, inf_store j = inf_store i -> inf_queue j = inf_queue i ->
    inf_store (observe transform k a j) !! key = Some o -> exists q, inf_queue (observe transform k a j) = q ++ [NAdd o]) as Hobs.
  { intros k a j Hj Hqj Ha. cbn in *. rewrite Hj, Hqj in *. destruct (decide (k = key)) as [->|Hne].
    - rewrite lookup_insert_eq in Ha. injection Ha as <-. rewrite Hn. by eexists.
    - rewrite lookup_insert_ne in Ha by done. congruence. }
  destruct Hg as [| |? lst _ Hp|? k a lst Hp|? k a _ _|? k a b _ Hk|]; cbn in Hs; try congruence.
  - by apply Hobs.
  - by apply Hobs.
  - destruct (decide (k = key)) as [->|Hne]; [by rewrite lookup_delete_eq in Hs|].
    rewrite lookup_delete_ne in Hs by done. congruence.
Qed.
End informer.

Section owners.
Context {Rest : Type} (zeroRest : Rest).
Context {RO : RangeOrder okey (object Rest)}.
Context (uid_key : string -> okey).
Context (P : kind -> okey -> object Rest -> Prop).
Context (P_trim : forall k key o, P k key o -> P k key (trimObject zeroRest o)).
Context (env : write -> Prop) (env_ips : forall w, env w -> is_Some (write_ip w)).
Abbreviation wf := (wf_cluster uid_key P).
Implicit Types (o : object Rest) (p : Pod Rest) (c : Cache) (x y : fstate Rest) (n : notification (object Rest)).

(** ** Where the references lead *)

(** The ReplicaSets and Jobs that stay. *)
Context (kept : kind -> okey -> Prop).

Definition owner_refs o : list OwnerReference :=
  match o with
  | OPod p => pod_OwnerReferences p
  | OReplicaSet r => rs_OwnerReferences r
  | OJob j => job_OwnerReferences j
  | _ => []
  end.
(** Every revision of the object of a key names the same controller, or none. *)
Definition steady (K : kind) (key : okey) (owner : option (string * string)) : Prop :=
  forall o, wf K key o -> controllerOf (owner_refs o) = owner.
(** The kinds of owner the walk looks up. *)
Definition owner_informer (k : string) : option kind :=
  if decide (k = "ReplicaSet") then Some KReplicaSet else if decide (k = "Job") then Some KJob else None.

(** [climbs ns m a b]: the walk from the owner [a] ends at [b], by ReplicaSets and
    Jobs that stay, or because its bound of [m] steps is reached. *)
Inductive climbs (ns : string) : nat -> string * string -> string * string -> Prop :=
| climb_bound a : climbs ns 0 a a
| climb_top m k name : top_level k -> climbs ns (S m) (k, name) (k, name)
| climb_end m k name K :
    owner_informer k = Some K -> kept K (ns, name) -> steady K (ns, name) None ->
    climbs ns (S m) (k, name) (k, name)
| climb_up m k name K a b :
    owner_informer k = Some K -> kept K (ns, name) -> steady K (ns, name) (Some a) ->
    climbs ns m a b -> climbs ns (S m) (k, name) b.

(** The kind and name of the owner that a pod, by its key, is resolved to. *)
Inductive top_owner : okey -> string * string -> Prop :=
| top_self ns name : steady KPod (ns, name) None -> top_owner (ns, name) ("Pod", name)
| top_up ns name a b :
    steady KPod (ns, name) (Some a) -> climbs ns (pred maxOwnerDepth) a b -> top_owner (ns, name) b.
Definition identity (key : okey) (b : string * string) : Workload := mkWorkload b.2 key.1 b.1.

(** ** The walk *)

(** What the listers answer while a pod and the owners that stay are stored. *)
Definition chain_answers (key : okey) (q : op) : @reply Rest q -> Prop :=
  match q with
  | GetPod ns name => fun r => (ns, name) = key -> exists p, r = Some p /\ wf KPod key (OPod p)
  | GetReplicaSet ns name => fun r =>
      kept KReplicaSet (ns, name) -> exists s, r = Some s /\ wf KReplicaSet (ns, name) (OReplicaSet s)
  | GetJob ns name => fun r =>
      kept KJob (ns, name) -> exists j, r = Some j /\ wf KJob (ns, name) (OJob j)
  | _ => fun _ => True
  end.
Abbreviation says key Q p c := (wp (chain_answers key) Q p c) (only parsing).

Lemma wp_GetController_owner key k K ns name owner c :
  owner_informer k = Some K -> kept K (ns, name) -> steady K (ns, name) owner ->
  says key (fun r c' => r = owner /\ c' = c) (GetController_prog k ns name) c.
Proof.
  unfold owner_informer, GetController_prog. intros HK Hk Hs. repeat case_decide; subst; try discriminate; injection HK as <-;
    intros r Hr; destruct (Hr Hk) as (a & -> & Hwf); by split; [rewrite <-(Hs _ Hwf)|].
Qed.

Lemma wp_GetController_pod ns name owner c :
  steady KPod (ns, name) owner ->
  says (ns, name) (fun r c' => r = owner /\ c' = c) (GetController_prog "Pod" ns name) c.
Proof.
  intros Hs r Hr. destruct (Hr eq_refl) as (p & -> & Hwf). by split; [rewrite <-(Hs _ Hwf)|].
Qed.

Lemma wp_climbs key ns m a b c :
  climbs ns m a b -> says key (fun r c' => r = b /\ c' = c) (owner_walk_prog m a.1 ns a.2) c.
Proof.
  intros Hc. induction Hc as [[k name]|m k name (H1 & H2 & H3)|m k name K HK Hk Hs|m k name K [k' name'] b HK Hk Hs _ IH];
    cbn [fst snd owner_walk_prog] in *; [done| | |].
  - unfold GetController_prog. by rewrite !decide_False.
  - apply wp_bind. eapply wp_mono; [|by eapply wp_GetController_owner]. by intros r ? [-> ->].
  - apply wp_bind. eapply wp_mono; [|by eapply wp_GetController_owner]. by intros r ? [-> ->].
Qed.

(** A walk from the pod ends at its owner. *)
Lemma wp_top key b c :
  top_owner key b ->
  says key (fun wl c' => wl = identity key b /\ c' = c) (ResolveTopOwner_prog "Pod" key.1 key.2) c.
Proof.
  intros Ht. apply wp_bind. change maxOwnerDepth with (S (pred maxOwnerDepth)).
  destruct Ht as [ns name Hs|ns name [k' name'] b Hs Hc]; cbn [fst snd owner_walk_prog]; apply wp_bind;
    (eapply wp_mono; [|by apply wp_GetController_pod]); intros r ? [-> ->]; [done|].
  eapply wp_mono; [|by apply (wp_climbs _ ns _ (k', name'))]. by intros r ? [-> ->].
Qed.

Lemma wp_onPod_top key (Q : unit -> Cache -> Prop) p b c :
  key = (pod_Namespace p, pod_Name p) -> top_owner key b -> Q tt (pod_cache p (identity key b) c) ->
  says key Q (onPod_prog (OPod p)) c.
Proof.
  intros Hkey Ht HQ. subst key. cbn [onPod_prog asPod]. apply wp_bind. eapply wp_mono; [|by apply (wp_top (_, _))].
  cbn beta. intros wl ? [-> ->]. unfold pod_cache in HQ.
  destruct (decide (pod_UID p <> "")); [intros [] _|]; cbn [wp exec apply_write mbind prog_bind];
    (destruct (pod_HostNetwork p); [exact HQ|]; by apply wp_for_each_write).
Qed.

(** ** While the owners stay *)

(** The pod is stored, and every owner that is to stay was listed and is. *)
Definition owners_stay (key : okey) x : Prop :=
  is_Some (inf_store (f_inf x KPod) !! key) /\
  forall K k, K ∈ phase1 -> kept K k -> k ∈ inf_listed (f_inf x K) /\ k ∉ inf_deleted (f_inf x K).

Lemma pod_phase x key :
  fine_ok wf x -> fine_phases x -> is_Some (inf_store (f_inf x KPod) !! key) -> all_in phase1 x.
Proof.
  intros Hok [Hph _] [o Ho]. apply (Hph KPod); [set_solver|].
  destruct (inf_started (f_inf x KPod)) eqn:Hs; [done|].
  destruct (ok_idle _ _ (proj1 (Hok KPod)) Hs) as (_ & He & _). by rewrite He, lookup_empty in Ho.
Qed.

Lemma kept_stored x key K k :
  fine_ok wf x -> fine_phases x -> owners_stay key x -> K ∈ phase1 -> kept K k ->
  exists o, inf_store (f_inf x K) !! k = Some o /\ wf K k o.
Proof.
  intros Hok Hph [Hp Hl] HK Hk. destruct (Hl K k HK Hk) as [Hin Hnd].
  pose proof (proj1 (Forall_forall _ _) (pod_phase x key Hok Hph Hp) K HK) as Hsy. cbn in Hsy.
  destruct (ok_listed _ _ (proj1 (Hok K)) k Hin) as [[o Ho]|[?|Hpe]]; [|done|].
  - exists o. split; [done|]. by apply (ok_store _ _ (proj1 (Hok K))).
  - exfalso. unfold HasSynced in Hsy. apply andb_true_iff in Hsy as [_ Hsy].
    destruct (inf_pending _) as [[|]|]; [by apply elem_of_nil in Hpe|done..].
Qed.

Lemma stay_answers x key (q : op) :
  fine_ok wf x -> fine_phases x -> owners_stay key x ->
  chain_answers key q (ask (listers_of (f_inf x)) (f_cache x) q).
Proof.
  intros Hok Hph Hl. destruct q; cbn [chain_answers ask]; try done; cbn.
  - intros ->. destruct Hl as [[o Ho] _]. pose proof (ok_store _ _ (proj1 (Hok KPod)) _ _ Ho) as Hwf.
    destruct o as [p| | | | | | | |]; try (by destruct Hwf as [[] _]). exists p. by rewrite Ho.
  - intros Hk. destruct (kept_stored x key KReplicaSet _ Hok Hph Hl ltac:(set_solver) Hk) as (o & Ho & Hwf).
    destruct o as [|r| | | | | | |]; try (by destruct Hwf as [[] _]). exists r. by rewrite Ho.
  - intros Hk. destruct (kept_stored x key KJob _ Hok Hph Hl ltac:(set_solver) Hk) as (o & Ho & Hwf).
    destruct o as [| |j| | | | | |]; try (by destruct Hwf as [[] _]). exists j. by rewrite Ho.
Qed.

(** When they are there and were not before, the pod has just been added. *)
Lemma stay_back x y key :
  fine_ok wf x -> fine_phases x -> estep zeroRest wf env x y -> owners_stay key y ->
  owners_stay key x \/
  exists o q, inf_store (f_inf y KPod) !! key = Some o /\ inf_queue (f_inf y KPod) = q ++ [NAdd o].
Proof.
  intros Hok Hph [Hs|Hf] Hy; [|left; by inv Hf].
  pose proof (fun k => fstep_grow zeroRest wf x y k Hs) as Hg. destruct Hy as [[o Ho] Hl].
  destruct (inf_store (f_inf x KPod) !! key) as [o'|] eqn:Hx.
  - left. split; [by eexists|]. intros K k HK Hk. destruct (Hl K k HK Hk) as [Hin Hnd].
    assert (HasSynced (f_inf x K) = true) as Hsy.
    { apply (proj1 (Forall_forall _ _) (pod_phase x key Hok Hph (mk_is_Some _ _ Hx)) K HK). }
    specialize (Hg K). inversion Hg as [i i' Hi Hi1 Hi2|i m q Hq Hi1 Hi2].
    + destruct (igrow_listed _ _ _ _ _ Hi Hsy) as [He Hsub]. rewrite <-He. split; [done|]. set_solver.
    + rewrite <-Hi2 in Hin, Hnd. done.
  - right. specialize (Hg KPod). inversion Hg as [i i' Hi Hi1 Hi2|i m q Hq Hi1 Hi2].
    + destruct (igrow_appears _ _ _ _ _ key o Hi Hx Ho) as [q Hq]. by exists o, q.
    + exfalso. rewrite <-Hi2 in Ho. cbn in Ho. congruence.
Qed.

(** ** The parts of the index that are a pod's *)

(** [up] are the pods whose handler sets the part, [down] those whose deletion
    clears it. *)
Section part.
Context (cell : Cache -> option Workload) (up down : Pod Rest -> Prop).
Context `{Hdu : !forall p, Decision (up p)} `{Hdd : !forall p, Decision (down p)}.
Context (key : okey) (b : string * string) (Htop : top_owner key b).

Definition says_pod (v : option Workload) n : option Workload :=
  match n with
  | NAdd o | NUpdate _ o =>
      match asPod o with Some p => if decide (up p) then Some (identity key b) else v | None => v end
  | NDelete o => match unwrap asPod o with Some p => if decide (down p) then None else v | None => v end
  end.
Definition pod_due (st : option (object Rest)) (v : option Workload) : Prop :=
  forall p, st = Some (OPod p) -> up p -> v = Some (identity key b).

Context (Hkey : forall k p, wf KPod k (OPod p) -> up p \/ down p -> k = key).
Context (Hpod : forall p wl c, cell (pod_cache p wl c) = if decide (up p) then Some wl else cell c).
Context (Hdel : forall o c, cell (onPodDelete o c) =
  match unwrap asPod o with Some p => if decide (down p) then None else cell c | None => cell c end).

Lemma part_call n c :
  note_ok wf KPod n -> says key (fun _ c' => cell c' = says_pod (cell c) n) (handler KPod n) c.
Proof.
  intros [k Hn]. destruct n as [o|old o|o]; cbn [handler].
  3: { apply wp_onPodDelete. by rewrite Hdel. }
  all: assert (wf KPod k o) as Hwf by (by inversion Hn); destruct o as [p| | | | | | | |]; try (by destruct Hwf as [[] _]);
    cbn [says_pod asPod]; destruct (decide (up p)) as [Hu|Hu].
  1,3: assert (k = key) as -> by (apply (Hkey k p); auto); destruct Hwf as [[Hk _] _];
    apply (wp_onPod_top key _ p b); [done|done|]; by rewrite Hpod, decide_True.
  all: apply wp_onPod; intros wl _; by rewrite Hpod, decide_False.
Qed.

Lemma part_key k n v : note_at wf KPod k n -> k <> key -> says_pod v n = v.
Proof.
  intros Hn Hne. assert (forall p, wf KPod k (OPod p) -> ~ up p /\ ~ down p) as Hno.
  { intros p Hwf. split; intros H; apply Hne, (Hkey k p); auto. }
  destruct Hn as [o Ho|old o _ Ho|o Ho|o Ho]; destruct o as [p| | | | | | | |]; try (by destruct Ho as [[] _]);
    cbn; by rewrite decide_False by (by apply Hno).
Qed.

Lemma pod_writer :
  (forall (w : write) c c', cell c = cell c' -> cell (apply_write c w) = cell (apply_write c' w)) ->
  (forall k n, k <> KPod -> note_ok wf k n ->
     only (valid wf) (fun w => forall c, cell (apply_write c w) = cell c) (handler k n)) ->
  (forall w c, env w -> cell (apply_write c w) = cell c) ->
  only (valid wf) (fun w => forall c, cell (apply_write c w) = cell c) reindexAllClusterIPs_prog ->
  SingleWriter zeroRest wf env KPod key cell says_pod pod_due (chain_answers key) (owners_stay key).
Proof.
  intros Hcell Hothers Henv Hpass.
  assert (forall o v, wf KPod key o -> pod_due (Some o) (says_pod v (NAdd o))) as Hadd.
  { intros o v _ p [= ->] Hu. cbn. by rewrite decide_True. }
  split; try done.
  - intros n c. apply part_call.
  - intros k n v. apply part_key.
  - intros o v Hwf _. by apply Hadd.
  - intros old o v _ Hwf _. by apply (Hadd o).
  - intros x q. apply stay_answers.
  - intros x y Hok Hph Hs Hy.
    destruct (stay_back x y key Hok Hph Hs Hy) as [?|(o & q & Ho & Hq)]; [by left|right].
    intros v. rewrite Ho, Hq, foldl_app. cbn [foldl]. apply Hadd.
    by apply (ok_store _ _ (proj1 (fine_ok_step zeroRest wf (wf_cluster_trim zeroRest uid_key P P_trim) env x y Hs Hok KPod))).
Qed.
End part.

(** ** A pod's UID *)

Lemma pod_cache_lookup_uid p wl c u :
  u <> "" -> LookupUID (pod_cache p wl c) u = if decide (pod_UID p = u) then Some wl else LookupUID c u.
Proof.
  intros Hu. unfold pod_cache. set (c1 := if decide (pod_UID p <> "") then _ else c).
  transitivity (LookupUID c1 u).
  { unfold LookupUID, Cache_UIDStore, cacheLookupUID. f_equal. destruct (pod_HostNetwork p); [done|].
    apply upsert_all_frame. }
  unfold c1. destruct (decide (pod_UID p <> "")) as [Hp|Hp].
  - etrans; [apply (apply_write_uid c (WUpsertUID (pod_UID p) wl))|]. cbn. by case_decide.
  - rewrite decide_False; [done|]. intros He. apply Hp. by rewrite He.
Qed.

Lemma onPodDelete_lookup_uid o c u :
  u <> "" -> LookupUID (onPodDelete o c) u =
  match unwrap asPod o with Some p => if decide (pod_UID p = u) then None else LookupUID c u | None => LookupUID c u end.
Proof.
  intros Hu. unfold onPodDelete. destruct (unwrap asPod o) as [p|]; [|done].
  assert (LookupUID (foldl Delete c (podIPs p)) u = LookupUID c u) as He.
  { unfold LookupUID, Cache_UIDStore, cacheLookupUID. f_equal. apply delete_all_frame. }
  destruct (decide (pod_UID p <> "")) as [Hp|Hp].
  - etrans; [apply (apply_write_uid _ (WDeleteUID (pod_UID p)))|]. cbn. case_decide; [done|exact He].
  - rewrite He, decide_False; [done|]. intros Heq. apply Hp. by rewrite Heq.
Qed.

Lemma uid_owner_writer u b (Hu : u <> "") (Ht : top_owner (uid_key u) b) :
  SingleWriter zeroRest wf env KPod (uid_key u) (fun c => LookupUID c u)
    (says_pod (fun p => pod_UID p = u) (fun p => pod_UID p = u) (uid_key u) b)
    (pod_due (fun p => pod_UID p = u) (uid_key u) b) (chain_answers (uid_key u)) (owners_stay (uid_key u)).
Proof.
  destruct (others_keep uid_key P KPod (fun w => forall c, LookupUID (apply_write c w) u = LookupUID c u)) as [Ho Hp].
  { intros k key o w Hk _ Hm c. rewrite apply_write_uid.
    assert (write_uid w = None) as Hw.
    { destruct (write_uid w) as [v|] eqn:Hw; [|done]. exfalso. by apply Hk, (write_kind k o w v). }
    by destruct w. }
  { intros key svc w ip _ Hw _ c. rewrite apply_write_uid. by destruct w. }
  apply pod_writer; [done|..|exact Ho| |exact Hp].
  - intros k p [[_ Hk] _] Hup. assert (pod_UID p = u) as <- by tauto. symmetry. by apply Hk.
  - intros p wl c. by apply pod_cache_lookup_uid.
  - intros o c. by apply onPodDelete_lookup_uid.
  - intros w c c' Hc. rewrite !apply_write_uid, Hc. done.
  - intros w c He. rewrite apply_write_uid. by destruct (env_ips w He), w.
Qed.

(** ** A pod's address *)

Lemma pod_cache_lookup_ip p wl c ip :
  LookupIP (pod_cache p wl c) ip =
  if decide (pod_HostNetwork p = false /\ Unmap ip ∈ Unmap <$> podIPs p) then Some wl else LookupIP c ip.
Proof.
  unfold pod_cache. set (c1 := if decide (pod_UID p <> "") then _ else c).
  assert (LookupIP c1 ip = LookupIP c ip) as <- by (apply LookupIP_byIP; unfold c1; by case_decide).
  destruct (pod_HostNetwork p); [by rewrite decide_False by (by intros [? _])|].
  rewrite upsert_all_ip. case_decide as Hin; [by rewrite decide_True|]. by rewrite decide_False by (by intros [_ ?]).
Qed.

Lemma ip_owner_writer ip key b (Ht : top_owner key b) :
  only_claim uid_key P (claims_ip ip) KPod key -> undisturbed env ip ->
  SingleWriter zeroRest wf env KPod key (fun c => LookupIP c ip)
    (says_pod (fun p => pod_HostNetwork p = false /\ Unmap ip ∈ Unmap <$> podIPs p)
       (fun p => Unmap ip ∈ Unmap <$> podIPs p) key b)
    (pod_due (fun p => pod_HostNetwork p = false /\ Unmap ip ∈ Unmap <$> podIPs p) key b)
    (chain_answers key) (owners_stay key).
Proof.
  intros Hown Henv. destruct (ip_writers uid_key P ip KPod key id Hown) as [Ho Hp]; [done|].
  apply pod_writer; [done|..|exact Ho| |exact Hp].
  - intros k p Hwf Hup. assert (Unmap ip ∈ Unmap <$> podIPs p) as Hin by tauto.
    by destruct (Hown KPod k (OPod p) Hwf Hin).
  - intros p wl c. apply pod_cache_lookup_ip.
  - intros o c. rewrite onPodDelete_ip. destruct (unwrap asPod o); [by case_decide|done].
  - intros w c c' Hc. rewrite !apply_write_ip. by destruct (says_ip ip w).
  - intros w c He. by rewrite apply_write_ip, Henv.
Qed.
End owners.

(** ** Convergence *)

Section convergence.
Context {Rest : Type} (zeroRest : Rest).
Context {RO : RangeOrder okey (object Rest)}.
Context (uid_key : string -> okey).
Context (P : kind -> okey -> object Rest -> Prop).
Context (P_trim : forall k key o, P k key o -> P k key (trimObject zeroRest o)).
Context (env : write -> Prop) (env_ips : forall w, env w -> is_Some (write_ip w)).
Abbreviation wf := (wf_cluster uid_key P).

(** What the index must say of the informers' objects: who a pod is, by UID and at
    an address only it claims; whose address a node's is; the protocol of a port;
    and nothing of a pod or node that is gone.  Of a key that several objects
    claim, of ClusterIPs among them, it says nothing. *)
Record agrees (kept : kind -> okey -> Prop) (stores : kind -> gmap okey (object Rest)) (c : Cache) : Prop := {
  agrees_uid key p :
    stores KPod !! key = Some (OPod p) -> pod_UID p <> "" ->
    exists w, LookupUID c (pod_UID p) = Some w /\ WlNamespace w = pod_Namespace p /\
      forall b, top_owner uid_key P kept key b -> w = identity key b;
  agrees_pod key p ip :
    stores KPod !! key = Some (OPod p) -> pod_HostNetwork p = false -> Unmap ip ∈ Unmap <$> podIPs p ->
    only_claim uid_key P (claims_ip ip) KPod key -> undisturbed env ip ->
    exists w, LookupIP c ip = Some w /\ WlNamespace w = pod_Namespace p /\
      forall b, top_owner uid_key P kept key b -> w = identity key b;
  agrees_node key n ip :
    stores KNode !! key = Some (ONode n) -> Unmap ip ∈ Unmap <$> nodeInternalIPs n ->
    only_claim uid_key P (claims_ip ip) KNode key -> undisturbed env ip -> LookupIP c ip = Some (node_workload n);
  agrees_port K key ip port :
    K = KService \/ K = KSlice -> only_claim uid_key P (claims_port ip port) K key ->
    LookupPort c ip port =
    match stores K !! key with Some o => declared (entries_of K o) ip port | None => None end;
  agrees_gone_uid u :
    u <> "" -> stores KPod !! uid_key u = None -> same_uid uid_key P u -> LookupUID c u = None;
  agrees_gone_pod key ip :
    stores KPod !! key = None -> same_pod_ip uid_key P ip key ->
    only_claim uid_key P (claims_ip ip) KPod key -> undisturbed env ip -> LookupIP c ip = None;
  agrees_gone_node key ip :
    stores KNode !! key = None -> same_node_ip uid_key P ip key ->
    only_claim uid_key P (claims_ip ip) KNode key -> undisturbed env ip -> LookupIP c ip = None
}.

(** The owners the informers listed and have not lost. *)
Definition kept_in (x : fstate Rest) (K : kind) (key : okey) : Prop :=
  key ∈ inf_listed (f_inf x K) /\ key ∉ inf_deleted (f_inf x K).

Lemma fmap_Some_ns (v : option Workload) ns : WlNamespace <$> v = Some ns -> exists w, v = Some w /\ WlNamespace w = ns.
Proof. destruct v as [w|]; intros [= <-]. eauto. Qed.
Lemma fmap_None_ns (v : option Workload) : WlNamespace <$> v = None -> v = None.
Proof. by destruct v. Qed.

(** ** A quiet state *)

Section quiet.
Context (x : fstate Rest) (Hr : freachable zeroRest wf env x) (Hq : quiet x).
Abbreviation store K := (inf_store (f_inf x K)).

(** A part with a single writer, its queue empty. *)
Lemma quiet_cell K key V (cell : Cache -> V) eff ok ans live :
  SingleWriter zeroRest wf env K key cell eff ok ans live -> live x -> ok (store K !! key) (cell (f_cache x)).
Proof.
  intros Hsw Hl. destruct Hq as [Hk _]. destruct (Hk K).
  by apply (single_writer_converges zeroRest wf (wf_cluster_trim zeroRest uid_key P P_trim) env (eff:=eff) (ans:=ans) (live:=live)).
Qed.

Lemma quiet_uid u (Hu : u <> "") : uid_due uid_key P u (store KPod !! uid_key u) (indexed u (f_cache x)).
Proof. by apply (quiet_cell _ _ _ _ _ _ _ _ (uid_writer zeroRest uid_key P env env_ips u Hu)). Qed.

Lemma quiet_pod_ip ip key :
  only_claim uid_key P (claims_ip ip) KPod key -> undisturbed env ip ->
  pod_ip_due uid_key P key ip (store KPod !! key) (ns_at ip (f_cache x)).
Proof. intros Ho Hu. by apply (quiet_cell _ _ _ _ _ _ _ _ (pod_ip_writer zeroRest uid_key P env ip key Ho Hu)). Qed.

Lemma quiet_node_ip ip key :
  only_claim uid_key P (claims_ip ip) KNode key -> undisturbed env ip ->
  node_ip_due uid_key P key ip (store KNode !! key) (LookupIP (f_cache x) ip).
Proof. intros Ho Hu. by apply (quiet_cell _ _ _ _ _ _ _ _ (node_ip_writer zeroRest uid_key P env ip key Ho Hu)). Qed.

Lemma quiet_stay key o : store KPod !! key = Some o -> owners_stay (kept_in x) key x.
Proof. intros Ho. split; [by eexists|]. by intros K k _ Hk. Qed.

Lemma quiet_uid_owner p u b :
  u <> "" -> store KPod !! uid_key u = Some (OPod p) -> pod_UID p = u ->
  top_owner uid_key P (kept_in x) (uid_key u) b -> LookupUID (f_cache x) u = Some (identity (uid_key u) b).
Proof.
  intros Hu Hs Hp Ht.
  by apply (quiet_cell _ _ _ _ _ _ _ _ (uid_owner_writer zeroRest uid_key P P_trim env env_ips (kept_in x) u b Hu Ht)
    (quiet_stay _ _ Hs) p).
Qed.

Lemma quiet_ip_owner p ip key b :
  only_claim uid_key P (claims_ip ip) KPod key -> undisturbed env ip ->
  store KPod !! key = Some (OPod p) -> pod_HostNetwork p = false -> Unmap ip ∈ Unmap <$> podIPs p ->
  top_owner uid_key P (kept_in x) key b -> LookupIP (f_cache x) ip = Some (identity key b).
Proof.
  intros Ho Hu Hs Hh Hin Ht.
  by apply (quiet_cell _ _ _ _ _ _ _ _ (ip_owner_writer zeroRest uid_key P P_trim env env_ips (kept_in x) ip key b Ht Ho Hu)
    (quiet_stay _ _ Hs) p).
Qed.

Lemma index_converges : agrees (kept_in x) (fun k => store k) (f_cache x).
Proof.
  split.
  - intros key p Hp Hu. assert (uid_key (pod_UID p) = key) as Hk.
    { pose proof (ok_store _ _ (proj1 (fine_ok_reachable zeroRest wf (wf_cluster_trim zeroRest uid_key P P_trim) env x Hr KPod)) _ _ Hp)
        as [[_ Hk] _]. by apply Hk. }
    subst key. destruct (fmap_Some_ns (LookupUID (f_cache x) (pod_UID p)) (pod_Namespace p)) as (w & Hw & Hns).
    { by apply (quiet_uid (pod_UID p) Hu). }
    exists w. split_and!; [done..|]. intros b Hb. rewrite (quiet_uid_owner p _ b Hu Hp eq_refl Hb) in Hw. congruence.
  - intros key p ip Hp Hh Hin Hown Hu.
    destruct (fmap_Some_ns (LookupIP (f_cache x) ip) (pod_Namespace p)) as (w & Hw & Hns).
    { by apply (quiet_pod_ip ip key Hown Hu). }
    exists w. split_and!; [done..|]. intros b Hb. rewrite (quiet_ip_owner p ip key b Hown Hu Hp Hh Hin Hb) in Hw. congruence.
  - intros key n ip Hn Hin Hown Hu. by apply (quiet_node_ip ip key Hown Hu).
  - intros K key ip port HK Hown.
    by apply (quiet_cell _ _ _ _ _ _ _ _ (port_writer zeroRest uid_key P env env_ips ip port K key HK Hown)).
  - intros u Hu Hs Hsame. apply fmap_None_ns. by apply (quiet_uid u Hu).
  - intros key ip Hs Hsame Hown Hu. apply fmap_None_ns. by apply (quiet_pod_ip ip key Hown Hu).
  - intros key ip Hs Hsame Hown Hu. by apply (quiet_node_ip ip key Hown Hu).
Qed.
End quiet.
End convergence.
