(* ===== verification/Settle.v ===== *)
(** * Settle: runs of the interleaved controller

    Two theorems on [fstep]: the controller's goroutines always come to rest, with
    an index whose parts of one source are what the stores say ([index_settles]);
    a ClusterIP, which Service and slice handlers derive at the same time, may rest
    on a workload its Service has left ([cluster_ip_lost_update]).  The runs of the
    witnesses are schedules: [sched] makes a move when it is possible. *)

From S2P Require Import Prelude Golang Netip Model Kube Resolver Endpoints Controller.
From S2P Require Import Transform SharedInformer Informers Atomic Handlers Interleave Converge Cells Owners.
Open Scope string_scope.
Open Scope list_scope.
Open Scope Z_scope.

(** ** Schedules *)

Section schedules.
Context {Rest : Type} (zeroRest : Rest).
Context {RO : RangeOrder okey (object Rest)}.
Context (wf : kind -> okey -> object Rest -> Prop) (env : write -> Prop).

(** A move of the cluster, of client-go or of one of the goroutines. *)
Inductive move :=
| MRun                                          (* Run goes on, if its wait is over *)
| MPass                                         (* one operation of the pass *)
| MList (k : kind) (lst : list (okey * object Rest))
| MStore (k : kind)
| MWatch (k : kind) (key : okey) (o : object Rest)
| MResync (k : kind) (key : okey)
| MCall (k : kind)
| MOp (k : kind).

Definition all_synced (ks : list kind) (inf : kind -> informer (object Rest)) : bool :=
  forallb (fun k => HasSynced (inf k)) ks.
Definition with_inf (k : kind) (i : informer (object Rest)) (x : fstate Rest) : fstate Rest :=
  mkFState (upd k i (f_inf x)) (f_thread x) (f_cache x) (f_pc x).

Definition sched (x : fstate Rest) (m : move) : fstate Rest :=
  let inf := f_inf x in let th := f_thread x in let c := f_cache x in
  match m with
  | MRun =>
      match f_pc x with
      | FBegin => mkFState (start phase1 inf) th c FPhase1
      | FPhase1 => if all_synced phase1 inf then mkFState (start phase2 inf) th c FPhase2 else x
      | FPhase2 => if all_synced phase2 inf then mkFState inf th c (FPass reindexAllClusterIPs_prog) else x
      | _ => x
      end
  | MPass =>
      match f_pc x with
      | FPass (Next o kont) => mkFState inf th (exec c o) (FPass (kont (ask (listers_of inf) c o)))
      | FPass (Ret _) => mkFState inf th c FReady
      | _ => x
      end
  | MList k lst =>
      if inf_started (inf k) then
        match inf_pending (inf k) with None => with_inf k (inf_list lst (inf k)) x | _ => x end
      else x
  | MStore k =>
      match inf_pending (inf k) with
      | Some ((key, o) :: lst) => with_inf k (observe (trimObject zeroRest) key o (set_pending lst (inf k))) x
      | _ => x
      end
  | MWatch k key o =>
      if HasSynced (inf k) then with_inf k (observe (trimObject zeroRest) key o (inf k)) x else x
  | MResync k key =>
      match inf_store (inf k) !! key with
      | Some o => with_inf k (notify (NUpdate o o) (inf k)) x
      | None => x
      end
  | MCall k =>
      match th k, inf_queue (inf k) with
      | Ret _, n :: q => mkFState (upd k (set_inf_queue q (inf k)) inf) (set_at k (handler k n) th) c (f_pc x)
      | _, _ => x
      end
  | MOp k =>
      match th k with
      | Next o kont => mkFState inf (set_at k (kont (ask (listers_of inf) c o)) th) (exec c o) (f_pc x)
      | Ret _ => x
      end
  end.

(** The objects a move brings in are of the cluster. *)
Definition move_ok (m : move) : Prop :=
  match m with
  | MList k lst => Forall (fun ko => wf k ko.1 ko.2) lst
  | MWatch k key o => wf k key o
  | _ => True
  end.

Lemma all_synced_spec ks inf : all_synced ks inf = true -> Forall (fun k => HasSynced (inf k) = true) ks.
Proof. intros H. apply Forall_forall. intros k Hk. by apply (proj1 (forallb_forall _ _) H), list_elem_of_In. Qed.

(** A move is a step, or nothing. *)
Lemma sched_step x m : move_ok m -> sched x m = x \/ fstep zeroRest wf x (sched x m).
Proof.
  intros Hm. destruct x as [inf th c pc].
  assert (forall k i, igrow (trimObject zeroRest) OTombstone (wf k) (inf k) i ->
    inf_started i = inf_started (inf k) ->
    fstep zeroRest wf (mkFState inf th c pc) (with_inf k i (mkFState inf th c pc))) as Hg.
  { intros k i H1 H2. by apply f_grow. }
  destruct m; cbn [sched f_inf f_thread f_cache f_pc] in *.
  - destruct pc; try (by left); [right; apply f_phase1|..]; (destruct (all_synced _ _) eqn:Ha; [|by left]);
      apply all_synced_spec in Ha; right; by constructor.
  - destruct pc as [| | |[[]|o kont]| |]; try (by left); right; apply f_work; constructor.
  - destruct (inf_started (inf k)) eqn:Hst; [|by left]. destruct (inf_pending (inf k)) eqn:Hp; [by left|].
    right. apply Hg; [by apply t_list|done].
  - destruct (inf_pending (inf k)) as [[|[key o] lst]|] eqn:Hp; [by left| |by left].
    right. apply Hg; [by apply t_store|done].
  - destruct (HasSynced (inf k)) eqn:Hsy; [|by left]. right. apply Hg; [by apply t_watch|done].
  - destruct (inf_store (inf k) !! key) as [o|] eqn:Ho; [|by left]. right. apply Hg; [by eapply t_resync|done].
  - destruct (th k) as [[]|] eqn:Ht; [|by left]. destruct (inf_queue (inf k)) eqn:Hq; [by left|].
    right. apply f_work. by eapply w_call.
  - destruct (th k) as [|o kont] eqn:Ht; [by left|]. right. apply f_work. by apply w_op.
Qed.

Lemma sched_rtc ms x : Forall move_ok ms -> rtc (fstep zeroRest wf) x (foldl sched x ms).
Proof.
  revert x. induction ms as [|m ms IH]; intros x Hms; [apply rtc_refl|]. apply Forall_cons in Hms as [Hm Hms].
  cbn. destruct (sched_step x m Hm) as [Heq|Hs]; [rewrite Heq; by apply IH|].
  eapply rtc_l; [exact Hs|by apply IH].
Qed.

Definition run_moves (ms : list move) : fstate Rest := foldl sched NewFine ms.

Lemma run_moves_reachable ms : Forall move_ok ms -> freachable zeroRest wf env (run_moves ms).
Proof.
  intros Hok. eapply freachable_rtc; [by apply reach_init|by apply sched_rtc].
Qed.
End schedules.
Arguments move : clear implicits.

(** ** What the goroutines leave alone *)

(** The stores, and the owners they were listed with and have not lost. *)
Definition same_stores {Rest} (x y : fstate Rest) : Prop :=
  forall k, inf_store (f_inf y k) = inf_store (f_inf x k) /\ inf_listed (f_inf y k) = inf_listed (f_inf x k) /\
    inf_deleted (f_inf y k) = inf_deleted (f_inf x k).
#[export] Instance same_stores_trans {Rest} : Transitive (@same_stores Rest).
Proof. intros x y z H1 H2 k. destruct (H2 k) as (-> & -> & ->). apply H1. Qed.

Lemma work_same {Rest} {RO : RangeOrder okey (object Rest)} (x y : fstate Rest) : work x y -> same_stores x y.
Proof. destruct 1; try done. intros k'. cbn. unfold upd. case_decide; [by subst|done]. Qed.

(** Owners found to stay in the one are found to stay in the other. *)
Lemma climbs_mono {Rest} uid_key P (kept kept' : kind -> okey -> Prop) ns m a b :
  (forall K k, kept K k -> kept' K k) -> climbs (Rest:=Rest) uid_key P kept ns m a b -> climbs uid_key P kept' ns m a b.
Proof. intros Hk. induction 1; [by constructor|by constructor|by eapply climb_end; eauto|by eapply climb_up; eauto]. Qed.
Lemma top_owner_mono {Rest} uid_key P (kept kept' : kind -> okey -> Prop) key b :
  (forall K k, kept K k -> kept' K k) -> top_owner (Rest:=Rest) uid_key P kept key b -> top_owner uid_key P kept' key b.
Proof. intros Hk [?|]; [by constructor|]. eapply top_up; [done|]. by eapply climbs_mono. Qed.

Lemma agrees_same {Rest} {RO : RangeOrder okey (object Rest)} uid_key P env (x y : fstate Rest) c :
  same_stores x y -> agrees uid_key P env (kept_in y) (fun k => inf_store (f_inf y k)) c ->
  agrees uid_key P env (kept_in x) (fun k => inf_store (f_inf x k)) c.
Proof.
  intros Hs [H1 H2 H3 H4 H5 H6 H7].
  assert (forall k, inf_store (f_inf y k) = inf_store (f_inf x k)) as He by (intros k; apply Hs).
  assert (forall key b, top_owner (Rest:=Rest) uid_key P (kept_in x) key b -> top_owner uid_key P (kept_in y) key b) as Ht.
  { intros key b. apply top_owner_mono. intros K k. unfold kept_in. by destruct (Hs K) as (_ & -> & ->). }
  split; intros; rewrite <-?He in *; eauto.
  - destruct (H1 key p) as (w & ? & ? & Hw); [done..|]. exists w. eauto.
  - destruct (H2 key p ip) as (w & ? & ? & Hw); [done..|]. exists w. eauto.
Qed.

(** ** A cluster *)

Definition pod_of (name kind owner uid ip : string) : Pod unit :=
  mkPod "shop" name uid (owned_by kind owner) false "" [ip] tt.
Definition blue_pod := pod_of "blue-0" "StatefulSet" "blue" "uid-blue" "10.0.0.1".
Definition green_pod := pod_of "green-0" "ReplicaSet" "green-7d" "uid-green" "10.0.0.2".
Definition green_set : ReplicaSet unit := mkReplicaSet "shop" "green-7d" (owned_by "Deployment" "green") tt.
Definition blue_wl : Workload := mkWorkload "blue" "shop" "StatefulSet".
Definition green_wl : Workload := mkWorkload "green" "shop" "Deployment".
Definition two_uid_key (u : string) : okey :=
  if decide (u = "uid-blue") then ("shop", "blue-0") else ("shop", "green-0").

(** The informers list and store a ReplicaSet, two pods, a Service and the slice
    that backs it with the first pod. *)
Definition to_stored : list (move unit) :=
  [MRun; MList KReplicaSet [(("shop", "green-7d"), OReplicaSet green_set)]; MStore KReplicaSet; MList KJob []; MRun;
   MList KPod [(("shop", "blue-0"), OPod blue_pod); (("shop", "green-0"), OPod green_pod)]; MStore KPod; MStore KPod;
   MList KNode []; MList KService [(("shop", "checkout"), OService sample_service)]; MStore KService;
   MList KSlice [(("shop", "checkout-x"), OEndpointSlice (sample_slice ["10.0.0.1"]))]; MStore KSlice].
(** Every handler and the pass run to their end. *)
Definition drain (k : kind) : list (move unit) := MCall k :: repeat (MOp k) 12.
Definition to_ready : list (move unit) :=
  to_stored ++ drain KReplicaSet ++ drain KPod ++ drain KPod ++ drain KService ++ drain KSlice ++ [MRun] ++ repeat MPass 12.
(** A resync of the Service begins; while its handler has looked at the slice but
    not yet written, the slice moves to the second pod and its handler runs. *)
Definition to_lost : list (move unit) :=
  to_ready ++ [MResync KService ("shop", "checkout"); MCall KService; MOp KService; MOp KService; MOp KService;
    MWatch KSlice ("shop", "checkout-x") (OEndpointSlice (sample_slice ["10.0.0.2"]))] ++
  drain KSlice ++ repeat (MOp KService) 4.

(** C5: the controller converges on the parts of its index that have one source.
    From every reachable state, with handlers interrupted anywhere and the pass
    half done, every run of its own goroutines is finite, one of them ends, and
    where any of them ends, whatever addresses others wrote meanwhile, the index
    is what the informers' stores held says.  A stored pod is found by its UID, and
    at an address only it claims and others leave alone, under its namespace and
    under exactly the owner its references lead to, if the ReplicaSets and Jobs on
    the way are of the initial LIST and were not deleted since and no revision of
    any of them names another controller.  A node is found at such an address of
    its own.  The port only one Service or slice exposes has exactly its protocol,
    and none when the object is gone.  A pod or node that is gone is not found by a
    UID or such an address that every revision of it had.  ClusterIPs are not among
    these parts: the handlers of two informers derive them, and an update of one
    can be lost ([cluster_ip_lost_update]). *)
Theorem index_settles {Rest} (zeroRest : Rest) {RO : RangeOrder okey (object Rest)} uid_key P
    (P_trim : forall k key o, P k key o -> P k key (trimObject zeroRest o))
    (env : write -> Prop) (env_ips : forall w, env w -> is_Some (write_ip w)) (x : fstate Rest)
    (Hx : freachable zeroRest (wf_cluster uid_key P) env x) :
  Acc (flip work) x /\ (exists y, rtc work x y /\ quiet y) /\
  forall y, rtc (fun a b => work a b \/ foreign env a b) x y -> quiet y ->
    agrees uid_key P env (kept_in x) (fun k => inf_store (f_inf x k)) (f_cache y).
Proof.
  split_and!.
  - apply work_wf.
  - destruct (settle x) as (y & Hr & Hq & _). by exists y.
  - intros y Hr Hq.
    assert (freachable zeroRest (wf_cluster uid_key P) env y /\ same_stores x y) as [Hy Hst].
    { clear Hq. induction Hr as [x|x y z Hw Hr IH]; [by split|].
      assert (same_stores x y) as H by (destruct Hw as [Hw|Hw]; [by apply work_same|by inv Hw]).
      destruct IH as [H1 H2]; [eapply reach_step; [exact Hx|]; destruct Hw; [by apply e_own, f_work|by apply e_other]|].
      split; [done|]. by etrans. }
    apply (agrees_same uid_key P env x y); [done|]. by apply (index_converges zeroRest uid_key P P_trim env env_ips y).
Qed.

Section cluster.
#[local] Instance cluster_order : RangeOrder okey (object unit) := canonical_order.

Lemma run_moves_coarse ms :
  Forall (move_ok (wf_object two_uid_key)) ms -> freachable tt (wf_object two_uid_key) (fun _ => False) (run_moves tt ms).
Proof. apply run_moves_reachable. Qed.

Lemma to_lost_ok : Forall (move_ok (wf_object two_uid_key)) to_lost.
Proof.
  unfold to_lost, to_ready, to_stored, drain. cbn [app repeat].
  repeat first [apply List.Forall_nil | apply List.Forall_cons | done | by intros _; vm_compute | split].
Qed.

(** An address of the service mesh. *)
Definition mesh_ip : Addr := Addr4 xf0 xf0 x00 x01.
(** The first pod is the only object with its address, none has the mesh's, and
    owners do not change. *)
Definition blue_alone (k : kind) (key : okey) (o : object unit) : Prop :=
  (claims_ip ip_a k o -> k = KPod /\ key = ("shop", "blue-0")) /\ (claims_ip mesh_ip k o -> False) /\
  match o with
  | OPod _ => controllerOf (owner_refs o) =
      Some (if decide (key = ("shop", "blue-0")) then ("StatefulSet", "blue") else ("ReplicaSet", "green-7d"))
  | OReplicaSet _ => controllerOf (owner_refs o) = Some ("Deployment", "green")
  | _ => True
  end.

Lemma blue_alone_trim k key o : blue_alone k key o -> blue_alone k key (trimObject tt o).
Proof. unfold blue_alone. by destruct k, o. Qed.

Lemma not_claimed ip (l : list Addr) :
  Unmap ip ∈ Unmap <$> l -> bool_decide (Unmap ip ∈ Unmap <$> l) = false -> False.
Proof. by intros Hin Hno%bool_decide_eq_false. Qed.

Lemma to_stored_ok : Forall (move_ok (wf_cluster two_uid_key blue_alone)) to_stored.
Proof.
  unfold to_stored.
  repeat first [apply List.Forall_nil | apply List.Forall_cons | done | by intros _; vm_compute
    | by intros H; destruct (not_claimed _ _ H eq_refl) | by intros _; split | split].
Qed.

Lemma to_ready_ok : Forall (move_ok (wf_cluster two_uid_key blue_alone)) to_ready.
Proof.
  unfold to_ready. apply Forall_app. split; [apply to_stored_ok|].
  unfold drain. cbn [app repeat]. repeat first [apply List.Forall_nil | apply List.Forall_cons; [exact I|]].
Qed.

(** The state the run ends in. *)
Definition lost_state : fstate unit := run_moves tt to_lost.
Definition green_slice : EndpointSlice unit := trimEndpointSlice tt (sample_slice ["10.0.0.2"]).
End cluster.

(** A ClusterIP can be lost to a race of two handlers.  A run exists that ends
    with the controller synced, every goroutine idle and every queue empty, both
    pods indexed, the Service's only slice naming the second pod, and the
    Service's ClusterIP resolving to the first: the Service's handler had listed
    the slice before it changed and wrote after the slice's handler had.  Nothing
    is left to correct it before the next event or resync of the Service or the
    slice, whose handler, run alone, does. *)
Lemma cluster_ip_lost_update :
  let RO : RangeOrder okey (object unit) := canonical_order in
  exists (x : fstate unit) svc slice vip w stale,
    freachable tt (wf_object two_uid_key) (fun _ => False) x /\ f_pc x = FReady /\ quiet x /\
    l_Services (listers_of (f_inf x)) = Some [svc] /\
    l_EndpointSlices (listers_of (f_inf x)) (svc_Namespace svc) (svc_Name svc) = Some [slice] /\
    vip ∈ clusterIPs svc /\
    serviceWorkload (Some svc) [Some slice] (f_cache x) = Some w /\
    LookupIP (f_cache x) vip = Some stale /\ stale <> w /\ ~ (stale ∈ backing (f_cache x) [Some slice]) /\
    LookupIP (prog_run (listers_of (f_inf x)) (handler KService (NUpdate (OService svc) (OService svc)))
      (f_cache x)).2 vip = Some w.
Proof.
  cbv zeta.
  exists lost_state, (trimService tt sample_service), green_slice, service_ip, green_wl, blue_wl.
  split_and!.
  - apply run_moves_coarse, to_lost_ok.
  - vm_compute. reflexivity.
  - split; [|vm_compute; exact I]. intros []; vm_compute; split; reflexivity.
  - vm_compute. reflexivity.
  - vm_compute. reflexivity.
  - apply list_elem_of_In. vm_compute. auto.
  - vm_compute. reflexivity.
  - vm_compute. reflexivity.
  - done.
  - unfold backing. rewrite elem_of_list_to_set.
    assert (omap (pod_behind (f_cache lost_state)) (slice_addrs [Some green_slice]) = [green_wl]) as ->
      by (vm_compute; reflexivity).
    by intros ?%list_elem_of_singleton.
  - vm_compute. reflexivity.
Qed.

(** ** Witness *)

(** Someone else gives an address of the service mesh a name. *)
Definition mesh_write (w : write) : Prop := exists wl, w = WUpsert mesh_ip wl.
Lemma mesh_write_ip w : mesh_write w -> is_Some (write_ip w).
Proof. intros [wl ->]. by eexists. Qed.

(** Who the pods are: the one's own StatefulSet, the other's ReplicaSet's Deployment. *)
Lemma blue_top kept : top_owner two_uid_key blue_alone kept ("shop", "blue-0") ("StatefulSet", "blue").
Proof.
  apply (top_up _ _ _ _ _ ("StatefulSet", "blue")); [|by apply climb_top].
  intros o [Ho (_ & _ & Hs)]. by destruct o.
Qed.
Lemma green_top (kept : kind -> okey -> Prop) :
  kept KReplicaSet ("shop", "green-7d") ->
  top_owner two_uid_key blue_alone kept ("shop", "green-0") ("Deployment", "green").
Proof.
  intros Hk. apply (top_up _ _ _ _ _ ("ReplicaSet", "green-7d")); [intros o [Ho (_ & _ & Hs)]; by destruct o|].
  apply (climb_up _ _ _ _ _ _ _ KReplicaSet ("Deployment", "green")); [done|done| |by apply climb_top].
  intros o [Ho (_ & _ & Hs)]. by destruct o.
Qed.

Lemma index_settles_witness :
  let RO : RangeOrder okey (object unit) := canonical_order in
  exists y, rtc work (run_moves tt to_stored) y /\ quiet y /\
    LookupIP (f_cache y) ip_a = Some blue_wl /\ LookupUID (f_cache y) "uid-green" = Some green_wl.
Proof.
  cbv zeta.
  destruct (index_settles (RO:=canonical_order) tt two_uid_key blue_alone blue_alone_trim mesh_write mesh_write_ip
    (run_moves (RO:=canonical_order) tt to_stored))
    as (_ & (y & Hr & Hq) & Hall).
  { apply run_moves_reachable, to_stored_ok. }
  destruct (Hall y (rtc_subrel _ _ _ _ (fun a b H => or_introl H) Hr) Hq) as [Huid Hpod _ _ _ _ _].
  exists y. split_and!; [done|done|..].
  - destruct (Hpod ("shop", "blue-0") (trimPod tt blue_pod) ip_a) as (w & -> & _ & Hw); [vm_compute; reflexivity|done|..].
    + apply list_elem_of_In. vm_compute. auto.
    + intros k key o [_ [Ho _]]. apply Ho.
    + intros w [wl ->]. vm_compute. reflexivity.
    + by rewrite (Hw _ (blue_top _)).
  - destruct (Huid ("shop", "green-0") (trimPod tt green_pod)) as (w & Hl & _ & Hw); [vm_compute; reflexivity|done|].
    etrans; [exact Hl|]. f_equal. apply (Hw ("Deployment", "green")), green_top. split; vm_compute; [by left|done].
Defined.
