(* ===== verification/Origin.v ===== *)
(** * Origin: where the identities of the index come from

    Owners.v says what the index must hold at rest, of keys with one source.  Here
    is what it can hold at all: at every moment of every interleaving, whatever
    several objects say of one address, a name in the index is one that some
    object of the cluster gives there ([lawful_reachable]).  The argument is a
    discipline on programs: a handler that is answered truly writes only names
    with an origin ([yields] of Atomic.v), and what has an origin is answered. *)

From S2P Require Import Prelude Golang Netip Model Kube Resolver Endpoints Controller.
From S2P Require Import Transform SharedInformer Informers Atomic Handlers Interleave Converge Cells.
Open Scope string_scope.
Open Scope list_scope.
Open Scope Z_scope.

Section origin.
Context {Rest : Type} (zeroRest : Rest).
Context {RO : RangeOrder okey (object Rest)}.
Context (uid_key : string -> okey).
Context (P : kind -> okey -> object Rest -> Prop).
Context (P_trim : forall k key o, P k key o -> P k key (trimObject zeroRest o)).
Context (env : write -> Prop) (env_ips : forall w, env w -> is_Some (write_ip w)).
Abbreviation wf := (wf_cluster uid_key P).

(** ** Origins *)

(** One step up the owners, by the references of an object of the cluster. *)
Inductive owner_of (ns : string) : string * string -> string * string -> Prop :=
| own_pod key (p : Pod Rest) owner :
    wf KPod key (OPod p) -> pod_Namespace p = ns -> controllerOf (pod_OwnerReferences p) = Some owner ->
    owner_of ns ("Pod", pod_Name p) owner
| own_replicaset key (r : ReplicaSet Rest) owner :
    wf KReplicaSet key (OReplicaSet r) -> rs_Namespace r = ns -> controllerOf (rs_OwnerReferences r) = Some owner ->
    owner_of ns ("ReplicaSet", rs_Name r) owner
| own_job key (j : Job Rest) owner :
    wf KJob key (OJob j) -> job_Namespace j = ns -> controllerOf (job_OwnerReferences j) = Some owner ->
    owner_of ns ("Job", job_Name j) owner.

(** A pod, or what owns it. *)
Definition pod_identity (p : Pod Rest) (w : Workload) : Prop :=
  exists k n, rtc (owner_of (pod_Namespace p)) ("Pod", pod_Name p) (k, n) /\
    w = mkWorkload n (pod_Namespace p) k.

(** The names an address may have: of the pod that reports it, of the node whose
    address it is, of the workload behind one of its Service's endpoints, of the
    Service, or what another writer says. *)
Inductive origin (ip : Addr) : Workload -> Prop :=
| o_pod key p w :
    wf KPod key (OPod p) -> pod_HostNetwork p = false -> Unmap ip ∈ Unmap <$> podIPs p ->
    pod_identity p w -> origin ip w
| o_node key n :
    wf KNode key (ONode n) -> Unmap ip ∈ Unmap <$> nodeInternalIPs n -> origin ip (node_workload n)
| o_backed key s key' es addr ip' w :
    wf KService key (OService s) -> ips_of s ip -> wf KSlice key' (OEndpointSlice es) ->
    es_Namespace es = svc_Namespace s -> es_Labels es !! endpointSliceServiceNameLabel = Some (svc_Name s) ->
    addr ∈ slice_addrs [Some es] -> ParseAddr addr = Some ip' -> isPodWorkload w = true ->
    origin ip' w -> origin ip w
| o_service key s :
    wf KService key (OService s) -> ips_of s ip ->
    origin ip (mkWorkload (svc_Name s) (svc_Namespace s) KindService)
| o_other x w : env x -> says_ip ip x = Some (Some w) -> origin ip w.

Definition uid_origin (u : string) (w : Workload) : Prop :=
  exists key p, wf KPod key (OPod p) /\ pod_UID p = u /\ pod_identity p w.
Definition port_origin (ip : Addr) (port : Z) (l7 : string) : Prop :=
  exists K key o e, wf K key o /\ e ∈ entries_of K o /\
    Unmap (pe_ip e) = Unmap ip /\ pe_port e = port /\ pe_l7 e = l7.

(** Every name in the index has an origin. *)
Record sound (c : Cache) : Prop := {
  so_ip ip w : LookupIP c ip = Some w -> origin ip w;
  so_uid u w : LookupUID c u = Some w -> uid_origin u w;
  so_port ip port l7 : LookupPort c ip port = Some l7 -> port_origin ip port l7
}.

(** The writes that keep it so. *)
Definition lawful (x : write) : Prop :=
  match x with
  | WUpsert ip w => origin ip w
  | WUpsertUID u w => uid_origin u w
  | WUpsertPort ip port l7 => port_origin ip port l7
  | WDelete _ | WDeleteUID _ | WDeletePort _ _ => True
  end.

Lemma origin_Unmap ip ip' w : Unmap ip' = Unmap ip -> origin ip w -> origin ip' w.
Proof.
  intros He Ho. unfold ips_of in *. destruct Ho.
  - eapply o_pod; rewrite ?He; eauto.
  - eapply o_node; rewrite ?He; eauto.
  - eapply o_backed; unfold ips_of in *; rewrite ?He; eauto.
  - eapply o_service; unfold ips_of in *; rewrite ?He; eauto.
  - eapply o_other; [done|]. destruct x; cbn in *; by rewrite ?He.
Qed.

Lemma sound_write c x : sound c -> lawful x -> sound (apply_write c x).
Proof.
  intros [H1 H2 H3] Hx. split.
  - intros ip w. rewrite apply_write_ip. destruct x; cbn; try (by apply H1); case_decide as He; try done; try (by apply H1).
    intros [= <-]. by apply (origin_Unmap ip0).
  - intros u w. rewrite apply_write_uid. destruct x; cbn; try (by apply H2); case_decide as He; try done; try (by apply H2).
    intros [= <-]. by rewrite <-He.
  - intros ip port l7. rewrite apply_write_port. destruct x; cbn; try (by apply H3); case_decide as He; try done; try (by apply H3).
    case_decide; [done|]. intros [= <-]. destruct He as [He <-]. destruct Hx as (K & key & o & e & ? & ? & Hip & ?).
    exists K, key, o, e. by rewrite <-He.
Qed.

Lemma sound_new : sound NewCache.
Proof.
  split; intros *; unfold LookupIP, LookupUID, LookupPort, Cache_Store, cacheLookupIP; cbn;
    by rewrite ?lookup_empty.
Qed.

(** ** True answers *)

Definition answers (o : op) : @reply Rest o -> Prop :=
  match o with
  | GetPod ns n => fun r => forall p, r = Some p -> wf KPod (ns, n) (OPod p)
  | GetReplicaSet ns n => fun r => forall s, r = Some s -> wf KReplicaSet (ns, n) (OReplicaSet s)
  | GetJob ns n => fun r => forall j, r = Some j -> wf KJob (ns, n) (OJob j)
  | GetService ns n => fun r => forall s, r = Some s -> wf KService (ns, n) (OService s)
  | ListServices => fun r => forall ss s, r = Some ss -> s ∈ ss -> exists key, wf KService key (OService s)
  | ListSlices ns svc => fun r => forall ss es, r = Some ss -> es ∈ ss ->
      es_Namespace es = ns /\ es_Labels es !! endpointSliceServiceNameLabel = Some svc /\
      exists key, wf KSlice key (OEndpointSlice es)
  | Lookup ip => fun r => forall w, r = Some w -> origin ip w
  | Write _ => fun _ => True
  end.
Abbreviation lawfully R := (yields answers lawful R) (only parsing).

(** ** The handlers write lawfully *)

Lemma yields_GetController k ns n :
  lawfully (fun r => forall owner, r = Some owner -> owner_of ns (k, n) owner) (GetController_prog k ns n).
Proof.
  unfold GetController_prog. repeat case_decide; subst; [..|by intros ?]; (split; [done|]); intros [x|] Hx owner Hc; try done;
    specialize (Hx _ eq_refl); pose proof (proj1 Hx) as Hk; cbn in Hk.
  - destruct Hk as [[= -> ->] _]. by eapply own_pod.
  - injection Hk as -> ->. by eapply own_replicaset.
  - injection Hk as -> ->. by eapply own_job.
Qed.

Lemma yields_owner_walk m k ns n : lawfully (rtc (owner_of ns) (k, n)) (owner_walk_prog m k ns n).
Proof.
  assert (forall a, rtc (owner_of ns) a (k, n) -> lawfully (rtc (owner_of ns) a) (owner_walk_prog m k ns n)) as H.
  { intros a. revert k n. induction m as [|m IH]; intros k n Ha; [done|]. eapply yields_bind; [apply yields_GetController|].
    intros [[k' n']|] Ho; [|done]. apply IH. eapply rtc_r; [exact Ha|by apply Ho]. }
  apply H, rtc_refl.
Qed.

Lemma yields_ResolveTopOwner (p : Pod Rest) :
  lawfully (pod_identity p) (ResolveTopOwner_prog "Pod" (pod_Namespace p) (pod_Name p)).
Proof.
  eapply yields_bind; [apply yields_owner_walk|]. intros [k n] Ho. exists k, n. by split.
Qed.

Lemma yields_write x : lawful x -> lawfully (fun _ => True) (@write_op Rest x).
Proof. by intros. Qed.
Lemma yields_each {X} (w : X -> write) xs :
  (forall x, x ∈ xs -> lawful (w x)) -> lawfully (fun _ => True) (for_each xs (fun x => @write_op Rest (w x))).
Proof. intros Hw. apply yields_for_each. intros x Hx. by apply yields_write, Hw. Qed.

(** The workload found behind the slices of a Service has an origin at one of
    their addresses. *)
Definition behind (slices : list (EndpointSlice Rest)) (s : option Workload * bool) : Prop :=
  forall w, s.1 = Some w -> isPodWorkload w = true /\
    exists es addr ip', es ∈ slices /\ addr ∈ slice_addrs [Some es] /\ ParseAddr addr = Some ip' /\ origin ip' w.

Lemma yields_serviceWorkload svc slices :
  lawfully (fun r => forall w, r = Some w ->
      w = mkWorkload (svc_Name svc) (svc_Namespace svc) KindService \/ behind slices (Some w, false))
    (serviceWorkload_prog (Some svc) (Some <$> slices)).
Proof.
  apply (yields_bind _ _ (behind slices)).
  - apply yields_fold_each; [by intros w|]. intros s es Hs Hes.
    apply list_elem_of_fmap in Hes as (e & -> & He). cbn [slice_step_prog].
    apply yields_fold_each; [done|]. intros s1 ep Hs1 Hep. apply yields_fold_each; [done|]. intros s2 addr Hs2 Haddr.
    unfold wl_step_prog. destruct (ParseAddr addr) as [ip'|] eqn:Hp; [|done]. split; [done|].
    intros [wl|] Hr; [|done]. cbn [yields]. destruct (isPodWorkload wl) eqn:Hpod; [|done]. cbn [negb].
    destruct s2 as [[first|] multiple]; [done|]. intros w [= <-]. split; [done|].
    exists e, addr, ip'. split_and!; [done| |done|by apply Hr].
    unfold slice_addrs. cbn. rewrite app_nil_r. apply list_elem_of_bind. by exists ep.
  - intros [[first|] multiple] Hb; [|done]. cbn. destruct multiple; intros w [= <-]; [by left|right].
    intros w' [= <-]. by apply Hb.
Qed.

Lemma yields_sync key svc :
  wf KService key (OService svc) -> lawfully (fun _ => True) (syncServiceClusterIPs_prog (Some svc)).
Proof.
  intros Hwf. unfold syncServiceClusterIPs_prog. case_decide; [done|]. split; [done|]. intros [slices|] Hsl; [|done].
  eapply yields_bind; [apply yields_serviceWorkload|]. intros wl Hwl. apply yields_each. intros ip Hip.
  destruct wl as [w|]; [|done]. cbn. assert (ips_of svc ip) as Hof by by apply list_elem_of_fmap_2.
  destruct (Hwl w eq_refl) as [->|Hb]; [by eapply o_service|].
  destruct (Hb w eq_refl) as [Hpod (es & addr & ip' & Hes & Haddr & Hp & Ho)].
  destruct (Hsl slices es eq_refl Hes) as (Hns & Hl & key' & Hwf'). by eapply o_backed.
Qed.

Lemma yields_sync_slice es : lawfully (fun _ => True) (syncServiceForSlice_prog es).
Proof.
  destruct es as [es|]; [|done]. unfold syncServiceForSlice_prog. case_decide; [done|]. split; [done|].
  intros [svc|] Hs; [|done]. by eapply yields_sync, Hs.
Qed.

Lemma yields_indexPorts K key o es :
  wf K key o -> (forall e, e ∈ es -> e ∈ entries_of K o) -> lawfully (fun _ => True) (@indexPorts_prog Rest es).
Proof. intros Hwf He. apply yields_each. intros e Hin. exists K, key, o, e. auto. Qed.
Lemma yields_reindexPorts K key o old new :
  wf K key o -> (forall e, e ∈ new -> e ∈ entries_of K o) -> lawfully (fun _ => True) (@reindexPorts_prog Rest old new).
Proof.
  intros Hwf He. eapply yields_bind; [by eapply yields_indexPorts|]. intros _ _. apply yields_for_each.
  intros e _. by case_decide.
Qed.

Lemma yields_onPod key o : wf KPod key o -> lawfully (fun _ => True) (onPod_prog o).
Proof.
  intros Hwf. destruct o as [p| | | | | | | |]; try done. cbn [onPod_prog asPod].
  eapply yields_bind; [apply yields_ResolveTopOwner|]. intros wl Hwl.
  apply (yields_bind _ _ (fun _ => True)).
  - case_decide; [|done]. apply yields_write. by exists key, p.
  - intros _ _. destruct (pod_HostNetwork p) eqn:Hh; [done|]. apply yields_each. intros ip Hip.
    eapply o_pod; eauto. by apply list_elem_of_fmap_2.
Qed.

(** What a delete handler writes is lawful: it only deletes. *)
Lemma yields_onPodDelete o : lawfully (fun _ => True) (onPodDelete_prog o).
Proof.
  unfold onPodDelete_prog. destruct (unwrap asPod o) as [p|]; [|done].
  apply (yields_bind _ _ (fun _ => True)); [by apply yields_each|]. intros _ _. by case_decide.
Qed.
Lemma yields_onServiceDelete o : lawfully (fun _ => True) (onServiceDelete_prog o).
Proof.
  unfold onServiceDelete_prog. destruct (unwrap asService o) as [s|]; [|done].
  apply (yields_bind _ _ (fun _ => True)); [by apply yields_each|]. intros _ _. by apply yields_each.
Qed.

Lemma yields_onServiceUpdate key old o : wf KService key o -> lawfully (fun _ => True) (onServiceUpdate_prog old o).
Proof.
  intros Hwf. destruct o as [| | | |s| | | |]; try (by destruct Hwf). unfold onServiceUpdate_prog. cbn [asService].
  eapply yields_bind; [by eapply yields_reindexPorts|]. intros _ _. apply (yields_bind _ _ (fun _ => True)).
  - destruct (asService old); [|done]. apply yields_for_each. intros ip _. by case_decide.
  - intros _ _. by eapply yields_sync.
Qed.

Lemma yields_onEndpointSliceUpdate key old o :
  wf KSlice key o -> lawfully (fun _ => True) (onEndpointSliceUpdate_prog old o).
Proof.
  intros Hwf. destruct o as [| | | | |e| | |]; try (by destruct Hwf). unfold onEndpointSliceUpdate_prog. cbn [asEndpointSlice].
  eapply yields_bind; [by eapply yields_reindexPorts|]. intros _ _.
  eapply yields_bind; [apply yields_sync_slice|]. intros _ _.
  destruct (asEndpointSlice old); [|done]. case_decide; [apply yields_sync_slice|done].
Qed.

Lemma yields_handler k n : note_ok wf k n -> lawfully (fun _ => True) (handler k n).
Proof.
  intros [key Hn]. destruct k; [done|done|..]; destruct Hn as [o Ho|old o _ Ho|o Ho|o Ho]; cbn [handler];
    try (by apply yields_onPodDelete); try (by apply yields_onServiceDelete);
    try (by eapply yields_onPod); try (by eapply yields_onServiceUpdate); try (by eapply yields_onEndpointSliceUpdate);
    destruct o as [|?|?|m|s|e| | |]; try (by destruct Ho).
  - apply yields_each. intros ip Hip. eapply o_node; [done|]. by apply list_elem_of_fmap_2.
  - apply yields_each. intros ip Hip. eapply o_node; [done|]. by apply list_elem_of_fmap_2.
  - by apply yields_each.
  - by apply yields_each.
  - eapply yields_bind; [by eapply yields_indexPorts|]. intros _ _. by eapply yields_sync.
  - eapply yields_bind; [by eapply yields_indexPorts|]. intros _ _. apply yields_sync_slice.
  - apply (yields_bind _ _ (fun _ => True)); [by apply yields_each|]. intros _ _. apply yields_sync_slice.
  - apply (yields_bind _ _ (fun _ => True)); [by apply yields_each|]. intros _ _. apply yields_sync_slice.
Qed.

Lemma yields_pass : lawfully (fun _ => True) reindexAllClusterIPs_prog.
Proof.
  split; [done|]. intros [svcs|] Hs; [|done]. apply yields_for_each. intros svc Hin.
  destruct (Hs svcs svc eq_refl Hin) as [key Hwf]. by eapply yields_sync.
Qed.

(** ** The index stays sound *)

Implicit Types (x y : fstate Rest).

Lemma ask_answers x (o : op) :
  fine_ok wf x -> sound (f_cache x) -> answers o (ask (listers_of (f_inf x)) (f_cache x) o).
Proof.
  intros Hok Hs. assert (forall k, map_Forall (wf k) (inf_store (f_inf x k))) as Hst by (intros k; apply Hok).
  assert (forall K T (as_ : object Rest -> option T) (inj : T -> object Rest) key t,
    (forall o a, as_ o = Some a -> o = inj a) ->
    inf_store (f_inf x K) !! key ≫= as_ = Some t -> wf K key (inj t)) as Hget.
  { intros K T as_ inj key t Hinj Hl. apply bind_Some in Hl as (o' & Hl & Ho%Hinj). subst o'. by apply (Hst K). }
  destruct o; cbn [answers ask listers_of l_Pod l_ReplicaSet l_Job l_Service l_Services l_EndpointSlices]; try done.
  - intros p. apply (Hget KPod _ _ OPod), asPod_Some.
  - intros r. apply (Hget KReplicaSet _ _ OReplicaSet). by intros [] a [= ->].
  - intros j. apply (Hget KJob _ _ OJob). by intros [] a [= ->].
  - intros s. apply (Hget KService _ _ OService), asService_Some.
  - intros ss s [= <-] (o & Hin & Ho%asService_Some)%list_elem_of_omap. subst o.
    by apply (stored_wf wf KService (f_inf x KService)).
  - intros ss es [= <-] [[Hns Hl] Hin]%list_elem_of_filter. split_and!; [done..|].
    apply list_elem_of_omap in Hin as (o & Hin & Ho%asEndpointSlice_Some). subst o.
    by apply (stored_wf wf KSlice (f_inf x KSlice)).
  - intros w. by apply Hs.
Qed.

Record all_lawful x : Prop := {
  al_sound : sound (f_cache x);
  al_threads k : lawfully (fun _ => True) (f_thread x k);
  al_pass : match f_pc x with FPass p => lawfully (fun _ => True) p | _ => True end
}.

Lemma lawful_exec x (o : op) (kont : reply o -> prog Rest unit) :
  fine_ok wf x -> sound (f_cache x) -> lawfully (fun _ => True) (Next o kont) ->
  sound (exec (f_cache x) o) /\ lawfully (fun _ => True) (kont (ask (listers_of (f_inf x)) (f_cache x) o)).
Proof.
  intros Hok Hs [Ho Hk]. split; [destruct o; try done; by apply sound_write|]. by apply Hk, ask_answers.
Qed.

Lemma lawful_thread k (p : prog Rest unit) (th : kind -> prog Rest unit) :
  (forall k, lawfully (fun _ => True) (th k)) -> lawfully (fun _ => True) p ->
  forall k', lawfully (fun _ => True) (set_at k p th k').
Proof.
  intros Ht Hp k'. destruct (decide (k' = k)) as [->|?]; [by rewrite set_at_eq|by rewrite set_at_ne].
Qed.

Lemma all_lawful_step x y : fine_ok wf x -> all_lawful x -> estep zeroRest wf env x y -> all_lawful y.
Proof.
  intros Hok [Hs Ht Hp] [He|He].
  - destruct He as [x y Hw|inf th c|inf th c Hsy|inf th c Hsy|inf th c pc Hpc|inf th c pc k i Hg Hst]; try (by split);
      [|split; cbn; [done|done|apply yields_pass]].
    destruct Hw as [inf th c pc k n q Hk Hq|inf th c pc k o kont Hk|inf th c o kont|inf th c]; try (by split); cbn in *.
    + split; cbn; [done| |done]. apply lawful_thread; [done|]. apply yields_handler.
      by destruct (notes_tail _ _ n q _ Hq (proj2 (Hok k))).
    + pose proof (Ht k) as Hth. rewrite Hk in Hth. destruct (lawful_exec _ o kont Hok Hs Hth) as [Hs' Hk'].
      split; cbn; [done| |done]. by apply lawful_thread.
    + destruct (lawful_exec _ o kont Hok Hs Hp) as [Hs' Hk']. by split.
  - inv He. split; [|done|done]. apply sound_write; [done|]. destruct (env_ips w H) as [ip Hw].
    destruct w; try done. cbn. eapply o_other; [done|]. cbn. by rewrite decide_True.
Qed.

Lemma lawful_reachable x : freachable zeroRest wf env x -> fine_ok wf x /\ all_lawful x.
Proof.
  apply (reachable_invariant _ _ (fun x => fine_ok wf x /\ all_lawful x)).
  - intros ? ->. split; [apply fine_ok_new|]. split; [apply sound_new|done|done].
  - intros y z [Hok Hl] Hs. split; [|by eapply all_lawful_step].
    by apply (fine_ok_step zeroRest wf (wf_cluster_trim zeroRest uid_key P P_trim) env y).
Qed.
End origin.
