(* ===== verification/Istio.v ===== *)
(** * Istio: ServiceEntry VIPs (internal/resolver/istio.go, istio_linux.go)

    A ServiceEntry is unstructured content, a tree of [any]; the nested readers,
    the trimming transform, the VIP parser and the two handlers.  A failed type
    assertion is [None]. *)

From S2P Require Import Prelude Golang Netip Model Kube Resolver.
Open Scope string_scope.
Open Scope list_scope.
Open Scope Z_scope.

Abbreviation content := (gmap string any).

Definition as_str (a : any) : option string := match a with AStr s => Some s | _ => None end.
Definition as_list (a : any) : option (list any) := match a with AList l => Some l | _ => None end.
Definition as_map (a : any) : option content := match a with AMap m => Some m | _ => None end.

(** ** Readers *)

(** The value at a path; [None] when a segment is missing or not a map. *)
Fixpoint nested (obj : content) (path : list string) : option any :=
  match path with
  | [] => None
  | [key] => obj !! key
  | key :: path =>
      match obj !! key with
      | Some (AMap cur) => nested cur path
      | _ => None
      end
  end.
Definition nestedString (obj : content) (path : list string) : string * bool :=
  match nested obj path with
  | Some v => match as_str v with Some s => (s, true) | None => ("", false) end
  | None => ("", false)
  end.
(** A nil slice and an empty one are both [[]]. *)
Definition nestedSlice (obj : content) (path : list string) : list any :=
  match nested obj path with
  | Some v => match as_list v with Some l => l | None => [] end
  | None => []
  end.
Definition nestedStringSlice (obj : content) (path : list string) : list string :=
  omap as_str (nestedSlice obj path).

(** ** Trimming *)

(** [keep] with the entry [k] of [src], if it has one. *)
Definition keep_key (src : content) (k : string) (keep : content) : content :=
  match src !! k with Some v => <[k := v]> keep | None => keep end.

Definition trim_content (obj : content) : content :=
  let trimmed : content := ∅ in
  let trimmed :=
    match obj !! "metadata" ≫= as_map with
    | Some md => <["metadata" := AMap (keep_key md "name" (keep_key md "namespace" ∅))]> trimmed
    | None => trimmed
    end in
  let trimmed :=
    match obj !! "spec" ≫= as_map with
    | Some spec => <["spec" := AMap (keep_key spec "addresses" (keep_key spec "hosts" ∅))]> trimmed
    | None => trimmed
    end in
  match obj !! "status" ≫= as_map with
  | Some status =>
      match status !! "addresses" with
      | Some v => <["status" := AMap {["addresses" := v]}]> trimmed
      | None => trimmed
      end
  | None => trimmed
  end.

Section istio.
Context {Rest : Type}.

(** The error is always nil. *)
Definition trimServiceEntry (obj : object Rest) : object Rest :=
  match obj with
  | OUnstructured u => OUnstructured (trim_content u)
  | _ => obj
  end.

(** ** Parsing *)

Record vipBinding := mkVip { vip_ip : Addr; vip_wl : Workload }.

Definition status_binding (namespace primaryHost : string) (entry : any) : option vipBinding :=
  match as_map entry with
  | None => None
  | Some m =>
      let value := default "" (m !! "value" ≫= as_str) in
      match ParseAddr value with
      | None => None
      | Some ip =>
          let host := default "" (m !! "host" ≫= as_str) in
          let host := if decide (host = "") then primaryHost else host in
          if decide (host = "") then None
          else Some (mkVip ip (mkWorkload host namespace KindServiceEntry))
      end
  end.
Definition spec_binding (namespace primaryHost addr : string) : option vipBinding :=
  if contains_byte addr "/" then None
  else
    match ParseAddr addr with
    | None => None
    | Some ip => Some (mkVip ip (mkWorkload primaryHost namespace KindServiceEntry))
    end.

Definition parseServiceEntryVIPs (obj : content) : list vipBinding :=
  let '(namespace, _) := nestedString obj ["metadata"; "namespace"] in
  let hosts := nestedStringSlice obj ["spec"; "hosts"] in
  let primaryHost := match hosts with h :: _ => h | [] => "" end in
  omap (status_binding namespace primaryHost) (nestedSlice obj ["status"; "addresses"]) ++
  (if decide (primaryHost <> "")
   then omap (spec_binding namespace primaryHost) (nestedStringSlice obj ["spec"; "addresses"])
   else []).

(** ** Handlers *)

Definition asUnstructured (obj : object Rest) : option content :=
  match obj with
  | OUnstructured u => Some u
  | OTombstone (OUnstructured u) => Some u
  | _ => None
  end.
Definition onServiceEntry (obj : object Rest) (c : Cache) : Cache :=
  match asUnstructured obj with
  | None => c
  | Some u => foldl (fun c b => Upsert c (vip_ip b) (vip_wl b)) c (parseServiceEntryVIPs u)
  end.
Definition onServiceEntryDelete (obj : object Rest) (c : Cache) : Cache :=
  match asUnstructured obj with
  | None => c
  | Some u => foldl (fun c b => Delete c (vip_ip b)) c (parseServiceEntryVIPs u)
  end.
End istio.

(** ** Lemmas *)

Lemma keep_key_same src k keep : keep_key src k keep !! k = match src !! k with Some v => Some v | None => keep !! k end.
Proof. unfold keep_key. destruct (src !! k); [apply lookup_insert_eq|done]. Qed.
Lemma keep_key_other src k k' keep : k <> k' -> keep_key src k keep !! k' = keep !! k'.
Proof. intros Hne. unfold keep_key. destruct (src !! k); [by apply lookup_insert_ne|done]. Qed.

Lemma nested2 (obj : content) a b :
  nested obj [a; b] = (obj !! a ≫= as_map) ≫= (fun m => m !! b).
Proof. cbn. by destruct (obj !! a) as [[]|]. Qed.

(** The parts of the trimmed content. *)
Lemma trim_metadata obj :
  trim_content obj !! "metadata" =
  (fun md => AMap (keep_key md "name" (keep_key md "namespace" ∅))) <$> (obj !! "metadata" ≫= as_map).
Proof.
  unfold trim_content. destruct (obj !! "metadata" ≫= as_map);
    destruct (obj !! "spec" ≫= as_map), (obj !! "status" ≫= as_map) as [st|];
    try destruct (st !! "addresses");
    rewrite ?(lookup_insert_ne _ "status"), ?(lookup_insert_ne _ "spec"), ?lookup_insert_eq by done; done.
Qed.
Lemma trim_spec obj :
  trim_content obj !! "spec" =
  (fun spec => AMap (keep_key spec "addresses" (keep_key spec "hosts" ∅))) <$> (obj !! "spec" ≫= as_map).
Proof.
  unfold trim_content. destruct (obj !! "metadata" ≫= as_map);
    destruct (obj !! "spec" ≫= as_map), (obj !! "status" ≫= as_map) as [st|];
    try destruct (st !! "addresses");
    rewrite ?(lookup_insert_ne _ "status"), ?lookup_insert_eq, ?(lookup_insert_ne _ "metadata") by done; done.
Qed.
Lemma trim_status obj :
  trim_content obj !! "status" =
  (fun v => AMap {["addresses" := v]}) <$> ((obj !! "status" ≫= as_map) ≫= fun st => st !! "addresses").
Proof.
  unfold trim_content. destruct (obj !! "metadata" ≫= as_map);
    destruct (obj !! "spec" ≫= as_map), (obj !! "status" ≫= as_map) as [st|]; cbn;
    try destruct (st !! "addresses"); cbn;
    rewrite ?lookup_insert_eq, ?(lookup_insert_ne _ "spec"), ?(lookup_insert_ne _ "metadata") by done; done.
Qed.

Lemma nested_trim obj a b :
  (a, b) ∈ [("metadata", "namespace"); ("spec", "hosts"); ("spec", "addresses"); ("status", "addresses")] ->
  nested (trim_content obj) [a; b] = nested obj [a; b].
Proof.
  rewrite list_elem_of_In, !nested2. intros [[= <- <-]|[[= <- <-]|[[= <- <-]|[[= <- <-]|[]]]]].
  - rewrite trim_metadata. destruct (obj !! "metadata" ≫= as_map) as [md|]; [|done]. cbn.
    rewrite keep_key_other, keep_key_same by done. by destruct (md !! "namespace").
  - rewrite trim_spec. destruct (obj !! "spec" ≫= as_map) as [sp|]; [|done]. cbn.
    rewrite keep_key_other, keep_key_same by done. by destruct (sp !! "hosts").
  - rewrite trim_spec. destruct (obj !! "spec" ≫= as_map) as [sp|]; [|done]. cbn.
    rewrite keep_key_same, keep_key_other by done. by destruct (sp !! "addresses").
  - rewrite trim_status. destruct (obj !! "status" ≫= as_map) as [st|]; [|done]. cbn.
    destruct (st !! "addresses"); [|done]. cbn. apply lookup_singleton_eq.
Qed.

(** Trimming a ServiceEntry keeps everything its VIPs depend on: the parser and
    both handlers give the same result on the trimmed object, wrapped in a
    tombstone or not, and any other object passes through. *)
Lemma trimServiceEntry_preserves_VIPs {Rest} u (obj : object Rest) c :
  parseServiceEntryVIPs (trim_content u) = parseServiceEntryVIPs u /\
  onServiceEntry (trimServiceEntry obj) c = onServiceEntry obj c /\
  onServiceEntryDelete (trimServiceEntry obj) c = onServiceEntryDelete obj c /\
  (asUnstructured obj = None -> trimServiceEntry obj = obj).
Proof.
  assert (forall u, parseServiceEntryVIPs (trim_content u) = parseServiceEntryVIPs u) as Hp.
  { intros u'. unfold parseServiceEntryVIPs, nestedString, nestedStringSlice, nestedSlice.
    by rewrite !nested_trim by (rewrite list_elem_of_In; simpl; auto). }
  split_and!; [apply Hp| | |].
  - destruct obj; try done. unfold onServiceEntry. cbn. by rewrite Hp.
  - destruct obj; try done. unfold onServiceEntryDelete. cbn. by rewrite Hp.
  - by destruct obj.
Qed.

(** Every VIP binding is usable: its address parses, is no CIDR range, and it is
    bound to a named host of the entry in the entry's namespace; a status
    address is bound to its own host when it has one and to the first spec host
    otherwise. *)
Lemma VIP_bindings_sound u b :
  b ∈ parseServiceEntryVIPs u ->
  WlKind (vip_wl b) = KindServiceEntry /\ WlName (vip_wl b) <> "" /\
  WlNamespace (vip_wl b) = (nestedString u ["metadata"; "namespace"]).1 /\
  let primary := match nestedStringSlice u ["spec"; "hosts"] with h :: _ => h | [] => "" end in
  ((exists m v, AMap m ∈ nestedSlice u ["status"; "addresses"] /\ m !! "value" = Some (AStr v) /\
      ParseAddr v = Some (vip_ip b) /\
      ((exists h, m !! "host" = Some (AStr h) /\ h <> "" /\ WlName (vip_wl b) = h) \/
       WlName (vip_wl b) = primary)) \/
   (exists a, a ∈ nestedStringSlice u ["spec"; "addresses"] /\ contains_byte a "/" = false /\
      ParseAddr a = Some (vip_ip b) /\ WlName (vip_wl b) = primary)).
Proof.
  unfold parseServiceEntryVIPs. destruct (nestedString u _) as [ns ok]. cbv zeta.
  set (primary := match nestedStringSlice u ["spec"; "hosts"] with h :: _ => h | [] => "" end).
  cbn [fst]. intros [Hb|Hb]%elem_of_app.
  - apply list_elem_of_omap in Hb as (e & He & Hs). unfold status_binding in Hs.
    destruct e as [|?|m|]; try done. cbn in Hs.
    destruct (ParseAddr _) as [ip|] eqn:Hp; [|done].
    assert (exists v, m !! "value" = Some (AStr v) /\ ParseAddr v = Some ip) as (v & Hv & Hpv).
    { destruct (m !! "value") as [[s| | |]|] eqn:Hm; cbn in Hp; [by eexists|by vm_compute in Hp..]. }
    set (host := default "" (m !! "host" ≫= as_str)) in *.
    destruct (decide ((if decide (host = "") then primary else host) = "")) as [|Hne]; [done|].
    injection Hs as <-. cbn. split_and!; try done. left. exists m, v. split_and!; try done.
    destruct (decide (host = "")) as [|Hh]; [by right|]. left. exists host. split_and!; try done.
    unfold host in *. destruct (m !! "host") as [[s| | |]|]; done.
  - destruct (decide (primary <> "")) as [Hpr|]; [|by apply elem_of_nil in Hb].
    apply list_elem_of_omap in Hb as (a & Ha & Hs). unfold spec_binding in Hs.
    destruct (contains_byte a "/") eqn:Hc; [done|].
    destruct (ParseAddr a) as [ip|] eqn:Hp; [|done]. injection Hs as <-. cbn.
    split_and!; try done. right. by exists a.
Qed.

(** ** Handlers *)

Definition bound (bs : list vipBinding) (ip : Addr) : option Workload :=
  foldl (fun acc b => if decide (Unmap (vip_ip b) = Unmap ip) then Some (vip_wl b) else acc) None bs.

Lemma bound_acc bs ip acc :
  foldl (fun acc b => if decide (Unmap (vip_ip b) = Unmap ip) then Some (vip_wl b) else acc) acc bs =
  match bound bs ip with Some w => Some w | None => acc end.
Proof.
  unfold bound. induction bs as [|b bs IH] using rev_ind; [done|]. rewrite !foldl_app. cbn.
  case_decide; [done|]. exact IH.
Qed.

Lemma bound_in bs ip w : bound bs ip = Some w -> exists b, b ∈ bs /\ Unmap (vip_ip b) = Unmap ip /\ vip_wl b = w.
Proof.
  unfold bound. induction bs as [|b bs IH] using rev_ind; [done|]. rewrite foldl_app. cbn. case_decide as He.
  - intros [= <-]. exists b. split_and!; [apply elem_of_app; right; by left|done|done].
  - intros Hb. destruct (IH Hb) as (b' & Hin & ?). exists b'. split; [apply elem_of_app; by left|done].
Qed.

Lemma upsert_bindings bs c ip :
  LookupIP (foldl (fun c b => Upsert c (vip_ip b) (vip_wl b)) c bs) ip =
  match bound bs ip with Some w => Some w | None => LookupIP c ip end.
Proof.
  unfold bound. induction bs as [|b bs IH] using rev_ind; [done|]. rewrite !foldl_app. cbn.
  change (Upsert ?x (vip_ip b) (vip_wl b)) with (apply_write x (WUpsert (vip_ip b) (vip_wl b))).
  rewrite apply_write_ip. cbn. case_decide; [done|]. exact IH.
Qed.

Lemma delete_bindings bs c ip :
  LookupIP (foldl (fun c b => Delete c (vip_ip b)) c bs) ip =
  match bound bs ip with Some _ => None | None => LookupIP c ip end.
Proof.
  unfold bound. induction bs as [|b bs IH] using rev_ind; [done|]. rewrite !foldl_app. cbn.
  change (Delete ?x (vip_ip b)) with (apply_write x (WDelete (vip_ip b))).
  rewrite apply_write_ip. cbn. case_decide; [done|]. exact IH.
Qed.

(** A ServiceEntry's VIPs resolve to their hosts once it is added and to
    nothing once it is deleted, and no other address is touched.  An update only
    adds: a VIP the new revision no longer has keeps resolving to the old host,
    and deleting the new revision does not remove it either. *)
Lemma service_entry_lifecycle {Rest} (old new : object Rest) u0 u1 c ip
    (Hold : asUnstructured old = Some u0) (Hnew : asUnstructured new = Some u1) :
  let b0 := bound (parseServiceEntryVIPs u0) ip in
  let b1 := bound (parseServiceEntryVIPs u1) ip in
  LookupIP (onServiceEntry old c) ip = match b0 with Some w => Some w | None => LookupIP c ip end /\
  LookupIP (onServiceEntryDelete old (onServiceEntry old c)) ip =
    match b0 with Some _ => None | None => LookupIP c ip end /\
  LookupIP (onServiceEntry new (onServiceEntry old c)) ip =
    match b1 with Some w => Some w | None => LookupIP (onServiceEntry old c) ip end /\
  (forall w, b0 = Some w -> b1 = None ->
     LookupIP (onServiceEntryDelete new (onServiceEntry new (onServiceEntry old c))) ip = Some w).
Proof.
  cbv zeta. unfold onServiceEntry, onServiceEntryDelete. rewrite Hold, Hnew.
  rewrite !delete_bindings, !upsert_bindings.
  split_and!; [done| |done|].
  - by destruct (bound _ ip).
  - by intros w -> ->.
Qed.

(** ** Witnesses *)

Definition entry_content (vip : string) : content :=
  {[ "metadata" := AMap {[ "namespace" := AStr "mesh"; "name" := AStr "db"; "labels" := AOther ]};
     "spec" := AMap {[ "hosts" := AList [AStr "db.example.com"]; "ports" := AOther;
                       "addresses" := AList [AStr "10.0.0.0/24"; AStr "10.1.2.3"] ]};
     "status" := AMap {[ "addresses" := AList [AMap {[ "value" := AStr vip ]}] ]} ]}.

Definition vip1 : Addr := Addr4 xf0 xf0 x00 x01.
Definition db_workload : Workload := mkWorkload "db.example.com" "mesh" KindServiceEntry.

Lemma trimServiceEntry_preserves_VIPs_witness :
  trimServiceEntry (Rest:=unit) OUnknown = OUnknown /\
  parseServiceEntryVIPs (trim_content (entry_content "240.240.0.1")) =
    [mkVip vip1 db_workload; mkVip (Addr4 x0a x01 x02 x03) db_workload].
Proof.
  destruct (trimServiceEntry_preserves_VIPs (entry_content "240.240.0.1") (@OUnknown unit) NewCache)
    as (Hp & _ & _ & Hn).
  split; [by apply Hn|]. rewrite Hp. vm_compute. reflexivity.
Defined.

Lemma VIP_bindings_sound_witness :
  WlKind db_workload = KindServiceEntry /\ WlName db_workload <> "".
Proof.
  destruct (VIP_bindings_sound (entry_content "240.240.0.1") (mkVip vip1 db_workload)) as (H1 & H2 & _).
  - assert (parseServiceEntryVIPs (entry_content "240.240.0.1") =
      [mkVip vip1 db_workload; mkVip (Addr4 x0a x01 x02 x03) db_workload]) as -> by (vm_compute; reflexivity).
    by left.
  - split; [exact H1|exact H2].
Defined.

Lemma service_entry_lifecycle_witness :
  let old := OUnstructured (Rest:=unit) (entry_content "240.240.0.1") in
  let new := OUnstructured (Rest:=unit) (entry_content "240.240.0.2") in
  LookupIP (onServiceEntryDelete new (onServiceEntry new (onServiceEntry old NewCache))) vip1
    = Some db_workload.
Proof.
  cbv zeta.
  destruct (service_entry_lifecycle (OUnstructured (Rest:=unit) (entry_content "240.240.0.1"))
    (OUnstructured (Rest:=unit) (entry_content "240.240.0.2")) _ _ NewCache vip1 eq_refl eq_refl)
    as (_ & _ & _ & H).
  apply H; vm_compute; reflexivity.
Defined.
