(* ===== verification/IstioRun.v ===== *)
(** * IstioRun: the Istio controller's run (internal/resolver/istio_linux.go, NewIstioController and Run)

    [Run] registers the transform and the two handlers of Istio.v with a dynamic
    informer, starts it, waits for it to sync and then for its context.  [rstep]
    interleaves [Run] with the informer (SharedInformer.v), with the handler's
    writes one at a time, and with the other writers of the shared cache, the
    Kubernetes controller's handlers. *)

From S2P Require Import Prelude Golang Netip Model Kube Resolver SharedInformer Istio.
Open Scope string_scope.
Open Scope list_scope.
Open Scope Z_scope.

Record GroupVersionResource := mkGVR { gvr_Group : string; gvr_Version : string; gvr_Resource : string }.
Definition istioGroup : string := "networking.istio.io".
Definition istioResource : string := "serviceentries".

(** The [gvr] field of [NewIstioController]'s result. *)
Definition istio_gvr (apiVersion : string) : GroupVersionResource :=
  let apiVersion := if decide (apiVersion = "") then "v1beta1" else apiVersion in
  mkGVR istioGroup apiVersion istioResource.

Section run.
Context {Rest E : Type}.

Inductive istio_error :=
| TransformFailed (e : E)
| HandlerFailed (e : E)
| CacheNotSynced
| ContextDone.

(** What [SetTransform] and [AddEventHandler] return. *)
Definition register (setTransform addEventHandler : option E) : option istio_error :=
  match setTransform with
  | Some e => Some (TransformFailed e)
  | None => match addEventHandler with Some e => Some (HandlerFailed e) | None => None end
  end.

(** The writes the handler of a notification makes, in order. *)
Definition entry_upserts (o : object Rest) : list write :=
  match asUnstructured o with
  | None => []
  | Some u => (fun b => WUpsert (vip_ip b) (vip_wl b)) <$> parseServiceEntryVIPs u
  end.
Definition entry_deletes (o : object Rest) : list write :=
  match asUnstructured o with
  | None => []
  | Some u => (fun b => WDelete (vip_ip b)) <$> parseServiceEntryVIPs u
  end.
Definition istio_writes (n : notification (object Rest)) : list write :=
  match n with
  | NAdd o | NUpdate _ o => entry_upserts o
  | NDelete o => entry_deletes o
  end.
Definition write_all (ws : list write) (c : Cache) : Cache := foldl apply_write c ws.

(** Made together, they are the handler of Istio.v. *)
Definition istio_call (n : notification (object Rest)) (c : Cache) : Cache :=
  match n with
  | NAdd o | NUpdate _ o => onServiceEntry o c
  | NDelete o => onServiceEntryDelete o c
  end.
Lemma istio_writes_call n c : write_all (istio_writes n) c = istio_call n c.
Proof.
  assert (forall (f : vipBinding -> write) bs c,
    write_all (f <$> bs) c = foldl (fun c b => apply_write c (f b)) c bs) as Hf.
  { intros f bs. induction bs as [|b bs IH]; intros c'; [done|]. apply IH. }
  destruct n as [o|old o|o]; cbn [istio_writes istio_call]; unfold entry_upserts, entry_deletes, onServiceEntry, onServiceEntryDelete;
    destruct (asUnstructured o); try done; by rewrite Hf.
Qed.

Inductive istio_pc := IBegin | ISyncing | IWatching | IReturned (err : istio_error).

(** [is_call] is what is left of the handler call in progress. *)
Record istio_state := mkIstio {
  is_inf : informer (object Rest);
  is_call : list write;
  is_cache : Cache;
  is_pc : istio_pc;
  is_done : bool
}.
Definition NewIstioController : istio_state := mkIstio NewInformer [] NewCache IBegin false.

(** What the cluster may hold under a key; a dynamic informer stores
    unstructured objects. *)
Context (Q : okey -> object Rest -> Prop).
Definition entry_object (key : okey) (o : object Rest) : Prop :=
  match o with OUnstructured _ => True | _ => False end /\ Q key o.

(** [oth] are the writes others may make to the cache. *)
Context (oth : write -> Prop).

(** [WaitForCacheSync] gives up when the context is done, even if the sync came
    in the meantime. *)
Inductive rstep (setTransform addEventHandler : option E) : istio_state -> istio_state -> Prop :=
| r_unregistered i ws c d e :
    register setTransform addEventHandler = Some e ->
    rstep _ _ (mkIstio i ws c IBegin d) (mkIstio i ws c (IReturned e) d)
| r_start i ws c d :
    register setTransform addEventHandler = None ->
    rstep _ _ (mkIstio i ws c IBegin d) (mkIstio (inf_run i) ws c ISyncing d)
| r_synced i ws c d :
    HasSynced i = true -> rstep _ _ (mkIstio i ws c ISyncing d) (mkIstio i ws c IWatching d)
| r_unsynced i ws c :
    rstep _ _ (mkIstio i ws c ISyncing true) (mkIstio i ws c (IReturned CacheNotSynced) true)
| r_return i ws c :
    rstep _ _ (mkIstio i ws c IWatching true) (mkIstio i ws c (IReturned ContextDone) true)
| r_cancel i ws c pc d : rstep _ _ (mkIstio i ws c pc d) (mkIstio i ws c pc true)
| r_informer i i' ws c pc d :
    igrow trimServiceEntry OTombstone entry_object i i' -> inf_started i' = inf_started i ->
    rstep _ _ (mkIstio i ws c pc d) (mkIstio i' ws c pc d)
| r_deliver i c pc d n q :
    inf_queue i = n :: q ->
    rstep _ _ (mkIstio i [] c pc d) (mkIstio (set_inf_queue q i) (istio_writes n) c pc d)
| r_write i w ws c pc d : rstep _ _ (mkIstio i (w :: ws) c pc d) (mkIstio i ws (apply_write c w) pc d)
| r_other i ws c pc d w : oth w -> rstep _ _ (mkIstio i ws c pc d) (mkIstio i ws (apply_write c w) pc d).

Definition rreachable st ah : istio_state -> Prop := reachable (fun x => x = NewIstioController) (rstep st ah).

(** ** What the entries expose *)

(** The host an entry leaves at an address, and those it names there. *)
Definition exposes (o : object Rest) (ip : Addr) : option Workload :=
  asUnstructured o ≫= fun u => bound (parseServiceEntryVIPs u) ip.
Definition names (o : object Rest) (ip : Addr) (w : Workload) : Prop :=
  exists u b, asUnstructured o = Some u /\ b ∈ parseServiceEntryVIPs u /\
    Unmap (vip_ip b) = Unmap ip /\ vip_wl b = w.
(** Only the entry under [key] ever exposes the address; others leave it alone. *)
Definition only_exposed (key : okey) (ip : Addr) : Prop :=
  forall key' o, entry_object key' o -> key' <> key -> exposes o ip = None.
Definition silent (ip : Addr) : Prop := forall w, oth w -> says_ip ip w = None.
(** The writes of the controller. *)
Definition istio_write (w : write) : Prop :=
  exists key o u b, entry_object key o /\ asUnstructured o = Some u /\ b ∈ parseServiceEntryVIPs u /\
    (w = WUpsert (vip_ip b) (vip_wl b) \/ w = WDelete (vip_ip b)).
Definition idle (x : istio_state) : Prop := is_call x = [] /\ inf_queue (is_inf x) = [].
End run.
Arguments istio_state : clear implicits.
Arguments istio_write {Rest} Q w.

Section facts.
Context {Rest E : Type} (Q : okey -> object Rest -> Prop) (Q_trim : forall key o, Q key o -> Q key (trimServiceEntry o)).
Context (oth : write -> Prop) (st ah : option E).
Implicit Types (o : object Rest) (i : informer (object Rest)) (x y : istio_state Rest E).
Abbreviation wf := (entry_object Q) (only parsing).

Lemma entry_transform key o : wf key o -> wf key (trimServiceEntry o).
Proof. intros [Ho Hq]. split; [by destruct o|by apply Q_trim]. Qed.

(** What handling a notification says about an address. *)
Definition says_vip (ip : Addr) (b : option Workload) (n : notification (object Rest)) : option Workload :=
  match n with
  | NAdd o | NUpdate _ o => match exposes o ip with Some w => Some w | None => b end
  | NDelete o => match exposes o ip with Some _ => None | None => b end
  end.

Lemma istio_call_ip n c ip : LookupIP (istio_call n c) ip = says_vip ip (LookupIP c ip) n.
Proof.
  destruct n as [o|old o|o]; cbn; unfold exposes, onServiceEntry, onServiceEntryDelete;
    destruct (asUnstructured o); try done; cbn; [by apply upsert_bindings..|by apply delete_bindings].
Qed.

(** What an entry exposes it names, and that is the host of a ServiceEntry. *)
Lemma exposes_names o ip w : exposes o ip = Some w -> names o ip w /\ WlKind w = KindServiceEntry.
Proof.
  unfold exposes, names. destruct (asUnstructured o) as [u|]; [|done]. cbn. intros (b & Hin & He & <-)%bound_in.
  split; [by exists u, b|]. by apply (VIP_bindings_sound u b Hin).
Qed.

Lemma write_all_ip ws c c' ip :
  LookupIP c ip = LookupIP c' ip -> LookupIP (write_all ws c) ip = LookupIP (write_all ws c') ip.
Proof.
  revert c c'. induction ws as [|w ws IH]; intros c c' Hc; [done|]. apply IH.
  rewrite !apply_write_ip. by destruct (says_ip ip w).
Qed.

(** The entry behind a notification, tombstone or not. *)
Lemma exposes_tombstone o ip : exposes (OTombstone o) ip = match o with OUnstructured _ => exposes o ip | _ => None end.
Proof. by destruct o. Qed.

(** A notification about another entry says nothing of an address only one
    exposes. *)
Lemma says_vip_other key key' ip b n :
  only_exposed Q key ip -> note_at OTombstone wf key' n -> key' <> key -> says_vip ip b n = b.
Proof.
  intros Ho Hn Hne. destruct Hn as [o Hw|old o _ Hw|o Hw|o Hw]; cbn [says_vip];
    rewrite ?exposes_tombstone, (Ho key' o Hw Hne); by destruct o.
Qed.

(** Every write of a call comes from a binding of its entry. *)
Lemma istio_writes_ok n : note_ok OTombstone wf n -> Forall (istio_write Q) (istio_writes n).
Proof.
  intros [key Hn]. apply Forall_forall. intros w Hw.
  destruct Hn as [o Ho|old o _ Ho|o Ho|o Ho]; cbn in Hw; unfold entry_upserts, entry_deletes in Hw;
    destruct o as [| | | | | | | |]; try (by destruct Ho as [[] _]); cbn in Hw;
    apply list_elem_of_fmap in Hw as (b & -> & Hb); exists key; do 2 eexists; exists b;
    (split_and!; [exact Ho|reflexivity|exact Hb|auto]).
Qed.

(** ** The invariant *)

(** What the cache says of an address once the queue is handled. *)
Definition settled (i : informer (object Rest)) (ws : list write) (c : Cache) (ip : Addr) : option Workload :=
  foldl (says_vip ip) (LookupIP (write_all ws c) ip) (inf_queue i).
Definition vip_origin (ip : Addr) (w : Workload) : Prop :=
  (exists key o, wf key o /\ names o ip w) \/ (exists wr, oth wr /\ says_ip ip wr = Some (Some w)).

Record vips_ok x : Prop := {
  vo_inf : inf_ok wf (is_inf x);
  vo_notes : notes_ok OTombstone wf (is_inf x);
  vo_call : Forall (istio_write Q) (is_call x);
  vo_stored : forall key o ip w, inf_store (is_inf x) !! key = Some o -> exposes o ip = Some w ->
    only_exposed Q key ip -> silent oth ip -> settled (is_inf x) (is_call x) (is_cache x) ip = Some w;
  vo_cached : forall ip w, LookupIP (is_cache x) ip = Some w -> vip_origin ip w
}.

(** An informer's step leaves the store and the queue alone, or queues one
    notification about the one key it changes. *)
Lemma igrow_cases i i' :
  igrow trimServiceEntry OTombstone wf i i' -> inf_ok wf i ->
  (inf_store i' = inf_store i /\ inf_queue i' = inf_queue i) \/
  exists key n, inf_queue i' = inf_queue i ++ [n] /\ note_at OTombstone wf key n /\
    ((exists o, (n = NAdd o \/ exists old, n = NUpdate old o) /\ inf_store i' = <[key := o]> (inf_store i)) \/
     inf_store i' = delete key (inf_store i)).
Proof.
  intros Hg Hok. pose proof (ok_store _ _ Hok) as Hs.
  assert (forall key o, wf key o -> inf_store (observe trimServiceEntry key o i) = <[key := trimServiceEntry o]> (inf_store i) /\
    exists n, inf_queue (observe trimServiceEntry key o i) = inf_queue i ++ [n] /\
      note_at OTombstone wf key n /\ (n = NAdd (trimServiceEntry o) \/ exists old, n = NUpdate old (trimServiceEntry o))) as Hob.
  { intros key o Ho%entry_transform. split; [done|]. cbn. destruct (inf_store i !! key) as [old|] eqn:Hold.
    - eexists. split_and!; [done| |by right; eexists]. by constructor; [apply (Hs key)|].
    - eexists. split_and!; [done|by constructor|by left]. }
  destruct Hg; [by left..| | | |]; right.
  - pose proof (ok_pending _ _ Hok) as Hp. rewrite H in Hp. apply Forall_cons in Hp as [Ho _].
    destruct (Hob key o Ho) as (H1 & n & H2 & H3 & H4). exists key, n. split_and!; [exact H2|done|]. left.
    eexists. by split.
  - destruct (Hob key o H0) as (H1 & n & H2 & H3 & H4). exists key, n. split_and!; [exact H2|done|]. left.
    eexists. by split.
  - exists key. eexists. split_and!; [done| |by right]. apply (Hs key) in H0. by destruct tomb; constructor.
  - exists key. eexists. split_and!; [done| |]; [apply (Hs key) in H; by constructor|]. left. exists o.
    split; [by right; eexists|]. cbn. by rewrite insert_id.
Qed.

Lemma settled_grow i i' ws c key o ip w :
  igrow trimServiceEntry OTombstone wf i i' -> inf_ok wf i ->
  (forall o, inf_store i !! key = Some o -> exposes o ip = Some w -> settled i ws c ip = Some w) ->
  inf_store i' !! key = Some o -> exposes o ip = Some w -> only_exposed Q key ip -> settled i' ws c ip = Some w.
Proof.
  intros Hg Hok Hi Hl Hw Ho. unfold settled in *.
  destruct (igrow_cases i i' Hg Hok) as [[Hs Hq]|(key' & n & Hq & Hn & Hm)]; rewrite Hq.
  - apply (Hi o); [by rewrite <-Hs|done].
  - rewrite foldl_snoc. destruct (decide (key' = key)) as [->|Hne].
    + destruct Hm as [(o' & Hb & Hs)|Hs]; rewrite Hs in Hl; [|by rewrite lookup_delete_eq in Hl].
      rewrite lookup_insert_eq in Hl. injection Hl as ->.
      destruct Hb as [->|[old ->]]; cbn; by rewrite Hw.
    + rewrite (says_vip_other key key') by done. apply (Hi o); [|done].
      destruct Hm as [(o' & Hb & Hs)|Hs]; rewrite Hs in Hl;
        [by rewrite lookup_insert_ne in Hl|by rewrite lookup_delete_ne in Hl].
Qed.

Lemma written_origin c w ip wl :
  (forall ip w, LookupIP c ip = Some w -> vip_origin ip w) -> istio_write Q w \/ oth w ->
  LookupIP (apply_write c w) ip = Some wl -> vip_origin ip wl.
Proof.
  intros Hc Hw. rewrite apply_write_ip. destruct (says_ip ip w) as [v|] eqn:Hs; [intros ->|by apply Hc].
  destruct Hw as [(key & o & u & b & Ho & Hu & Hb & [-> | ->])|Hw]; cbn in Hs.
  - case_decide; [|done]. injection Hs as <-. left. exists key, o. split; [done|]. by exists u, b.
  - by case_decide.
  - right. by exists w.
Qed.

Lemma vips_ok_step x y : vips_ok x -> rstep Q oth st ah x y -> vips_ok y.
Proof.
  intros Hok Hs. destruct Hs; try exact Hok; destruct Hok as [H1 H2 H3 H4 H5]; try (by split);
    cbn [is_inf is_call is_cache] in *.
  - split; try done. eapply (inf_ok_itrans trimServiceEntry OTombstone); [apply entry_transform|by apply t_grow, t_run|done].
  - split; cbn [is_inf is_call is_cache]; try done.
    + eapply (inf_ok_itrans trimServiceEntry OTombstone); [apply entry_transform|by apply t_grow|done].
    + eapply (notes_igrow trimServiceEntry OTombstone); [apply entry_transform|done..].
    + intros key o ip w Hl Hw Ho Hsi. eapply settled_grow; [done..| |exact Hl|done|done]. eauto.
  - destruct (notes_tail _ _ n q _ H H2) as [Hn Hq]. split; cbn [is_inf is_call is_cache]; try done.
    + eapply (inf_ok_itrans trimServiceEntry OTombstone); [apply entry_transform|by eapply t_deliver|done].
    + by apply istio_writes_ok.
    + intros key o ip w Hl Hw Ho Hsi. specialize (H4 key o ip w Hl Hw Ho Hsi). unfold settled in *.
      by rewrite istio_writes_call, istio_call_ip; rewrite H in H4.
  - apply Forall_cons in H3 as [Hw H3]. split; try done. intros ip wl. apply written_origin; auto.
  - split; try done.
    + intros key o ip wl Hl Hw Ho Hsi. specialize (H4 key o ip wl Hl Hw Ho Hsi). unfold settled in *.
      cbn [is_inf is_call is_cache] in *. rewrite <-H4. f_equal. apply write_all_ip. by rewrite apply_write_ip, Hsi.
    + intros ip wl. apply written_origin; auto.
Qed.

Lemma vips_ok_reachable x : rreachable Q oth st ah x -> vips_ok x.
Proof.
  apply reachable_invariant; [|apply vips_ok_step]. intros ? ->. split; cbn.
  - apply inf_ok_new.
  - by apply Forall_nil.
  - by apply Forall_nil.
  - intros key o ip w. by rewrite lookup_empty.
  - intros ip w. unfold LookupIP, Cache_Store, cacheLookupIP. cbn. by rewrite lookup_empty.
Qed.

(** Where [Run] is says why it is there. *)
Definition pc_ok x : Prop :=
  match is_pc x with
  | IBegin => True
  | ISyncing => register st ah = None
  | IWatching => register st ah = None /\ HasSynced (is_inf x) = true
  | IReturned (CacheNotSynced | ContextDone) => register st ah = None /\ is_done x = true
  | IReturned e => register st ah = Some e
  end.
Lemma pc_ok_reachable x : rreachable Q oth st ah x -> pc_ok x.
Proof.
  apply reachable_invariant; [by intros ? ->|]. intros y z Hok Hs. destruct Hs; unfold pc_ok in *; cbn in *; try done; try tauto.
  - unfold register in *. destruct st; [by injection H as <-|]. destruct ah; [by injection H as <-|done].
  - destruct pc as [| | |[]]; try done; tauto.
  - destruct pc as [| | |[]]; try done. split; [tauto|].
    by apply (HasSynced_itrans trimServiceEntry OTombstone wf i); [apply t_grow|apply Hok].
Qed.

(** The handler's calls and the queue run out. *)
Lemma istio_settles x :
  exists y, rtc (rstep Q oth st ah) x y /\ idle y /\ inf_store (is_inf y) = inf_store (is_inf x) /\
    is_pc y = is_pc x.
Proof.
  destruct x as [i ws c pc d]. remember (inf_queue i) as q eqn:Hq. revert i ws c Hq.
  induction q as [|n q IHq]; intros i ws; induction ws as [|w ws IH]; intros c Hq.
  - eexists. split; [apply rtc_refl|]. by split.
  - destruct (IH (apply_write c w) Hq) as (y & Hr & Hy). exists y. split; [|exact Hy].
    eapply rtc_l; [by apply r_write|exact Hr].
  - destruct (IHq (set_inf_queue q i) (istio_writes n) c eq_refl) as (y & Hr & Hy). exists y. split; [|exact Hy].
    eapply rtc_l; [by apply r_deliver|exact Hr].
  - destruct (IH (apply_write c w) Hq) as (y & Hr & Hy). exists y. split; [|exact Hy].
    eapply rtc_l; [by apply r_write|exact Hr].
Qed.
End facts.

(** ** Properties *)

(** C32: the Istio controller's cache is exact for addresses it alone writes.  In
    every reachable state, a call of its handler half done or not, an address
    resolves only to a host that some revision of a ServiceEntry names there, or
    to what another writer put there.  The handler's calls and its queue always
    run out, and then every VIP of every stored entry resolves to that entry's
    host, provided no other entry ever exposed it and no other writer touches it.
    [Run] itself watches only after the initial LIST is stored and returns only
    on a registration error or after cancellation. *)
Theorem service_entries_resolve {Rest E} (Q : okey -> object Rest -> Prop)
    (Q_trim : forall key o, Q key o -> Q key (trimServiceEntry o)) (oth : write -> Prop)
    (st ah : option E) (x : istio_state Rest E) (Hx : rreachable Q oth st ah x) :
  (forall ip w, LookupIP (is_cache x) ip = Some w ->
     (exists key o, entry_object Q key o /\ names o ip w) \/
     (exists wr, oth wr /\ says_ip ip wr = Some (Some w))) /\
  (exists y, rtc (rstep Q oth st ah) x y /\ idle y /\ inf_store (is_inf y) = inf_store (is_inf x)) /\
  (idle x -> forall key o ip w,
     inf_store (is_inf x) !! key = Some o -> exposes o ip = Some w ->
     only_exposed Q key ip -> silent oth ip -> LookupIP (is_cache x) ip = Some w) /\
  match is_pc x with
  | IBegin => True
  | ISyncing => register st ah = None
  | IWatching => register st ah = None /\ HasSynced (is_inf x) = true
  | IReturned (CacheNotSynced | ContextDone) => register st ah = None /\ is_done x = true
  | IReturned e => register st ah = Some e
  end.
Proof.
  destruct (vips_ok_reachable Q Q_trim oth st ah x Hx) as [_ _ _ H4 H5]. split_and!.
  - exact H5.
  - destruct (istio_settles Q oth st ah x) as (y & Hr & Hi & Hst & _). by exists y.
  - intros [Hc Hq] key o ip w Hl Hw Ho Hs.
    specialize (H4 key o ip w Hl Hw Ho Hs). unfold settled in H4. by rewrite Hc, Hq in H4.
  - by apply (pc_ok_reachable Q oth).
Qed.

(** ** Two entries with one VIP *)

Section twins.
(** Any entries, no other writer. *)
Abbreviation Q := (fun (_ : okey) (_ : object unit) => True) (only parsing).
Abbreviation wf := (entry_object Q) (only parsing).
Abbreviation R := (rreachable (E:=string) Q (fun _ => False) None None) (only parsing).

Definition key_a : okey := ("mesh", "db").
Definition key_b : okey := ("mesh", "db-replica").
Definition entry_a : object unit := OUnstructured (trim_content (entry_content "240.240.0.1")).
Definition entry_b : object unit := OUnstructured (trim_content (<["kind" := AStr "ServiceEntry"]> (entry_content "240.240.0.1"))).

Lemma reach_inform i i' ws c pc d :
  R (mkIstio i ws c pc d) -> igrow trimServiceEntry OTombstone wf i i' ->
  inf_started i' = inf_started i -> R (mkIstio i' ws c pc d).
Proof. intros Hr ? ?. eapply reach_step; [exact Hr|by apply r_informer]. Qed.
Lemma reach_writes i ws c pc d : R (mkIstio i ws c pc d) -> R (mkIstio i [] (write_all ws c) pc d).
Proof.
  revert c. induction ws as [|w ws IH]; intros c Hr; [done|]. apply (IH (apply_write c w)).
  eapply reach_step; [exact Hr|by apply r_write].
Qed.
Lemma reach_handle i c pc d n q :
  R (mkIstio i [] c pc d) -> inf_queue i = n :: q -> R (mkIstio (set_inf_queue q i) [] (istio_call n c) pc d).
Proof.
  intros Hr Hq. rewrite <-istio_writes_call. apply reach_writes. eapply reach_step; [exact Hr|by apply r_deliver].
Qed.

(** The initial LIST of [lst] is announced; nothing is stored yet. *)
Definition listing (lst : list (okey * object unit)) : informer (object unit) := inf_list lst (inf_run NewInformer).
Definition storing (key : okey) (o : object unit) (rest : list (okey * object unit)) (i : informer (object unit)) :=
  observe trimServiceEntry key o (set_pending rest i).
Lemma reach_listing lst :
  Forall (fun ko => wf ko.1 ko.2) lst -> R (mkIstio (listing lst) [] NewCache ISyncing false).
Proof.
  intros Hl. apply (reach_inform (inf_run NewInformer) (listing lst) [] NewCache ISyncing false); [|by apply t_list|done].
  eapply reach_step; [by apply reach_init|by apply r_start].
Qed.
Lemma reach_storing i ws c pc d key o rest :
  R (mkIstio i ws c pc d) -> inf_pending i = Some ((key, o) :: rest) ->
  R (mkIstio (storing key o rest i) ws c pc d).
Proof. intros Hr Hp. eapply reach_inform; [exact Hr|by apply t_store|done]. Qed.

(** Both are listed and handled, then the replica's entry is deleted. *)
Definition both : informer (object unit) :=
  set_inf_queue [] (storing key_b entry_b [] (storing key_a entry_a [(key_b, entry_b)]
    (listing [(key_a, entry_a); (key_b, entry_b)]))).
Definition both_cache : Cache := onServiceEntry (trimServiceEntry entry_b) (onServiceEntry (trimServiceEntry entry_a) NewCache).

Lemma reach_both : R (mkIstio both [] both_cache ISyncing false).
Proof.
  pose proof (reach_listing [(key_a, entry_a); (key_b, entry_b)]) as H.
  eapply reach_storing in H; [|by repeat constructor|reflexivity].
  eapply reach_storing in H; [|reflexivity].
  eapply reach_handle in H; [|reflexivity]. eapply reach_handle in H; [|reflexivity]. exact H.
Qed.
End twins.

(** Two entries may expose the same address.  Deleting one takes the address
    away although the other, still stored and already handled, exposes it: the
    delete handler removes the address without asking who else has it, and
    nothing brings it back before the next resync. *)
Lemma shared_vip_lost :
  exists (x : istio_state unit string) key o ip w,
    rreachable (fun _ _ => True) (fun _ => False) None None x /\ idle x /\
    inf_store (is_inf x) !! key = Some o /\ exposes o ip = Some w /\ LookupIP (is_cache x) ip = None /\
    LookupIP (istio_call (NUpdate o o) (is_cache x)) ip = Some w.
Proof.
  exists (mkIstio (set_inf_queue [] (remove key_b (trimServiceEntry entry_b) both)) []
    (onServiceEntryDelete (trimServiceEntry entry_b) both_cache) ISyncing false),
    key_a, (trimServiceEntry entry_a), vip1, db_workload.
  split_and!.
  - apply (reach_handle (remove key_b (trimServiceEntry entry_b) both) both_cache ISyncing false
      (NDelete (trimServiceEntry entry_b)) []); [|reflexivity].
    apply (reach_inform both); [exact reach_both| |reflexivity].
    apply (t_remove _ _ _ both key_b (trimServiceEntry entry_b) false); vm_compute; reflexivity.
  - by split.
  - vm_compute. reflexivity.
  - vm_compute. reflexivity.
  - vm_compute. reflexivity.
  - vm_compute. reflexivity.
Qed.

(** ** Witness *)

(** A cluster whose only ServiceEntry is the first. *)
Definition a_bindings : list vipBinding := [mkVip vip1 db_workload; mkVip (Addr4 x0a x01 x02 x03) db_workload].
Definition only_a (key : okey) (o : object unit) : Prop :=
  key = key_a /\ forall u, asUnstructured o = Some u -> parseServiceEntryVIPs u = a_bindings.
Lemma only_a_trim key o : only_a key o -> only_a key (trimServiceEntry o).
Proof.
  intros [Hk Ho]. split; [done|]. destruct o as [| | | | | |u| |]; try exact Ho. intros u' [= <-].
  destruct (trimServiceEntry_preserves_VIPs u (@OUnknown unit) NewCache) as [-> _]. by apply Ho.
Qed.
Definition stored_a : informer (object unit) := storing key_a entry_a [] (listing [(key_a, entry_a)]).
Definition a_handled : istio_state unit string :=
  mkIstio (set_inf_queue [] stored_a) [] (istio_call (NAdd (trimServiceEntry entry_a)) NewCache) ISyncing false.
Lemma reach_stored_a oth :
  rreachable only_a oth None None (mkIstio (E:=string) stored_a [] NewCache ISyncing false).
Proof.
  eapply reach_step; [|apply r_informer; [by apply (t_store _ _ _ _ key_a entry_a [])|done]].
  eapply reach_step; [|apply (r_informer _ _ _ _ (inf_run NewInformer)); [|done]].
  - eapply reach_step; [by apply reach_init|by apply r_start].
  - apply t_list; [done..|]. apply Forall_singleton. split; [done|]. split; [done|]. intros u [= <-].
    vm_compute. reflexivity.
Qed.
Lemma reach_a_handled : rreachable only_a (fun _ => False) None None a_handled.
Proof.
  unfold a_handled. rewrite <-istio_writes_call.
  eapply (reachable_rtc _ _ (mkIstio (set_inf_queue [] stored_a) (istio_writes (NAdd (trimServiceEntry entry_a))) NewCache ISyncing false)).
  - eapply reach_step; [apply reach_stored_a|by apply r_deliver].
  - repeat (eapply rtc_l; [apply r_write|]). apply rtc_refl.
Qed.

Lemma service_entries_resolve_witness :
  LookupIP (is_cache a_handled) vip1 = Some db_workload.
Proof.
  destruct (service_entries_resolve only_a only_a_trim (fun _ => False) None None _ reach_a_handled) as (_ & _ & H & _).
  apply (H (conj eq_refl eq_refl) key_a (trimServiceEntry entry_a)).
  - vm_compute. reflexivity.
  - vm_compute. reflexivity.
  - intros key' o' [_ [Hk _]] Hne. by destruct Hne.
  - by intros w [].
Defined.
