(* ===== verification/Mesh.v ===== *)
(** * Mesh: the two controllers on one cache (internal/resolver/k8s_linux.go, istio_linux.go)

    The Kubernetes controller (Interleave.v) and Istio's (IstioRun.v) write one
    cache, an operation at a time, in goroutines of their own.  [mstep] runs them
    together.  Each sees the other as the foreign writer its own relation allows
    ([mesh_parts]): Istio's writes are of addresses its entries name, the
    controller's of what its objects say.  So what is shown of each alone holds of
    both together ([mesh_agrees]). *)

From S2P Require Import Prelude Golang Netip Model Kube Resolver Endpoints Controller.
From S2P Require Import Transform SharedInformer Informers Atomic Handlers Interleave Converge Cells Owners Settle Origin.
From S2P Require Import Istio IstioRun.
Open Scope string_scope.
Open Scope list_scope.
Open Scope Z_scope.

Section mesh.
Context {Rest E : Type} (zeroRest : Rest) {RO : RangeOrder okey (object Rest)}.
Context (uid_key : string -> okey) (P : kind -> okey -> object Rest -> Prop).
Context (P_trim : forall k key o, P k key o -> P k key (trimObject zeroRest o)).
(** The ServiceEntries the cluster may hold. *)
Context (Q : okey -> object Rest -> Prop) (Q_trim : forall key o, Q key o -> Q key (trimServiceEntry o)).
Context (st ah : option E).
Abbreviation wf := (wf_cluster uid_key P).

(** ** What the controller writes *)

Definition kube_write (w : write) : Prop := exists k key o, wf k key o /\ may_write k o w.

Lemma note_wf k key n o :
  note_at wf k key n -> carries n o -> exists o', wf k key o' /\ (o = o' \/ o = OTombstone o').
Proof. intros Hn Hc. destruct Hn; cbn in Hc; [|destruct Hc|..]; subst; eauto. Qed.

Lemma handler_kube k n : note_ok wf k n -> only (valid wf) kube_write (handler k n).
Proof.
  intros [key Hn]. apply handler_only.
  - intros ns nm svc x ip [key' Hwf] Hx Hip. exists KService, key', (OService svc). split; [done|by eapply mw_service].
  - intros o x Hc Hm. destruct (note_wf k key n o Hn Hc) as (o' & Ho & [-> | ->]); exists k, key, o'; split; try done.
    by inv Hm.
Qed.
Lemma pass_kube : only (valid wf) kube_write reindexAllClusterIPs_prog.
Proof.
  apply pass_only. intros svcs Hv svc x ip Hin Hx Hip. destruct (Hv svc Hin) as [key Hwf].
  exists KService, key, (OService svc). split; [done|by eapply mw_service].
Qed.

Section controller.
Context (env : write -> Prop).
Implicit Types (x y : fstate Rest).

Record contained x : Prop := {
  ct_ok : fine_ok wf x;
  ct_threads k : only (valid wf) kube_write (f_thread x k);
  ct_pass : match f_pc x with FPass p => only (valid wf) kube_write p | _ => True end
}.

Lemma contained_thread x o (kont : reply o -> prog Rest unit) :
  fine_ok wf x -> only (valid wf) kube_write (Next o kont) ->
  only (valid wf) kube_write (kont (ask (listers_of (f_inf x)) (f_cache x) o)).
Proof. intros Hok [_ Hk]. by apply Hk, ask_valid. Qed.

Lemma contained_step x y : contained x -> estep zeroRest wf env x y -> contained y.
Proof.
  intros [Hok Ht Hp] Hs.
  assert (fine_ok wf y) as Hy by by apply (fine_ok_step zeroRest wf (wf_cluster_trim zeroRest uid_key P P_trim) env x).
  destruct Hs as [Hs|Hs]; [|by inv Hs; split].
  destruct Hs as [x y Hw|inf th c|inf th c Hsy|inf th c Hsy|inf th c pc Hpc|inf th c pc k i Hg Hst]; try (by split);
    [|split; cbn; [done|done|apply pass_kube]].
  destruct Hw as [inf th c pc k n q Hk Hq|inf th c pc k o kont Hk|inf th c o kont|inf th c]; split; try done; cbn in *.
  - intros k'. destruct (decide (k' = k)) as [->|?]; [rewrite set_at_eq|by rewrite set_at_ne].
    apply handler_kube. by destruct (notes_tail _ _ n q _ Hq (proj2 (Hok k))).
  - assert (only (valid wf) kube_write (Next o kont)) as Hth by (rewrite <-Hk; apply Ht). intros k'.
    destruct (decide (k' = k)) as [->|?]; [rewrite set_at_eq|by rewrite set_at_ne].
    by apply (contained_thread (mkFState inf th c pc)).
  - by apply (contained_thread (mkFState inf th c (FPass (Next o kont)))).
Qed.

Lemma contained_reachable x : freachable zeroRest wf env x -> contained x.
Proof.
  apply reachable_invariant; [|by intros; eapply contained_step].
  intros ? ->. split; [apply fine_ok_new|done|done].
Qed.

(** A step of the controller makes at most one write, and that of its own. *)
Lemma step_writes x y :
  contained x -> fstep zeroRest wf x y ->
  f_cache y = f_cache x \/ exists w, kube_write w /\ f_cache y = apply_write (f_cache x) w.
Proof.
  intros [Hok Ht Hp] Hs. destruct Hs as [x y Hw| | | | |]; try (by left).
  destruct Hw as [|inf th c pc k o kont Hk|inf th c o kont|]; try (by left); cbn in *.
  - assert (only (valid wf) kube_write (Next o kont)) as [Ho _] by (rewrite <-Hk; apply Ht). destruct o; try (by left). right. by eexists.
  - destruct Hp as [Ho _]. destruct o; try (by left). right. by eexists.
Qed.
End controller.

(** ** Both *)

Record mesh := mkMesh { m_ctl : fstate Rest; m_istio : istio_state Rest E }.
Definition NewMesh : mesh := mkMesh NewFine NewIstioController.
(** The cache is one: what one controller leaves the other finds. *)
Definition on_cache (c : Cache) (i : istio_state Rest E) : istio_state Rest E :=
  mkIstio (is_inf i) (is_call i) c (is_pc i) (is_done i).
Definition with_cache (c : Cache) (x : fstate Rest) : fstate Rest :=
  mkFState (f_inf x) (f_thread x) c (f_pc x).

Inductive controller_step : mesh -> mesh -> Prop :=
| m_controller x x' i :
    fstep zeroRest wf x x' -> controller_step (mkMesh x i) (mkMesh x' (on_cache (f_cache x') i)).
Inductive istio_step : mesh -> mesh -> Prop :=
| m_entries x i i' :
    rstep Q (fun _ => False) st ah i i' -> istio_step (mkMesh x i) (mkMesh (with_cache (is_cache i') x) i').
Definition mstep (x y : mesh) : Prop := controller_step x y \/ istio_step x y.
Definition mreachable : mesh -> Prop := reachable (fun x => x = NewMesh) mstep.

(** At rest: no call, no notification, no pass. *)
Definition mesh_quiet (x : mesh) : Prop := quiet (m_ctl x) /\ idle (m_istio x).

(** ** Each is the other's foreign writer *)

Lemma istio_write_ip w : istio_write Q w -> is_Some (write_ip w).
Proof. intros (key & o & u & b & _ & _ & _ & [-> | ->]); by eexists. Qed.

Lemma istio_step_writes (oth : write -> Prop) i i' :
  vips_ok Q oth i -> rstep Q (fun _ => False) st ah i i' ->
  rstep Q oth st ah i i' /\
  (is_cache i' = is_cache i \/ exists w, istio_write Q w /\ is_cache i' = apply_write (is_cache i) w).
Proof.
  intros Hok Hs. destruct Hs; try (split; [by econstructor|by left]).
  split; [by econstructor|]. right. exists w. split; [|done].
  by apply (Forall_inv (vo_call _ _ _ Hok)).
Qed.

Record joined (x : mesh) : Prop := {
  jn_ctl : freachable zeroRest wf (istio_write Q) (m_ctl x);
  jn_istio : rreachable Q kube_write st ah (m_istio x);
  jn_cache : is_cache (m_istio x) = f_cache (m_ctl x)
}.

Lemma on_cache_id i : on_cache (is_cache i) i = i.
Proof. by destruct i. Qed.
Lemma with_cache_id x : with_cache (f_cache x) x = x.
Proof. by destruct x. Qed.

Lemma joined_step x y : joined x -> mstep x y -> joined y.
Proof.
  intros [Hc Hi He] [Hs|Hs]; [destruct Hs as [x x' i Hs]|destruct Hs as [x i i' Hs]]; cbn [m_ctl m_istio] in *.
  - assert (freachable zeroRest wf (istio_write Q) x') as Hc' by by eapply freachable_step.
    split; [done| |done]. cbn [m_istio].
    destruct (step_writes x x' (contained_reachable (istio_write Q) x Hc) Hs) as [Heq|(w & Hw & Heq)]; rewrite Heq.
    + by rewrite <-He, on_cache_id.
    + rewrite <-He. eapply reach_step; [exact Hi|]. destruct i. by apply r_other.
  - destruct (istio_step_writes kube_write i i' (vips_ok_reachable Q Q_trim kube_write st ah i Hi) Hs) as [Hs' Hw].
    split; cbn [m_ctl m_istio]; [|by eapply reach_step|done].
    destruct Hw as [Heq|(w & Hw & Heq)]; rewrite Heq, He; [by rewrite with_cache_id|].
    eapply reach_step; [exact Hc|]. apply e_other. destruct x. by apply f_foreign.
Qed.

Lemma mesh_parts x : mreachable x -> joined x.
Proof.
  apply reachable_invariant; [|apply joined_step]. intros ? ->. split; [by apply reach_init..|done].
Qed.

(** ** What is nobody else's *)

(** No ServiceEntry exposes the address, and no object of the cluster claims it. *)
Definition no_entry (ip : Addr) : Prop := forall key o w, entry_object Q key o -> ~ names o ip w.
Definition no_object (ip : Addr) : Prop := forall k key o, wf k key o -> ~ claims_ip ip k o.

Lemma no_entry_undisturbed ip : no_entry ip -> undisturbed (istio_write Q) ip.
Proof.
  intros Hno w (key & o & u & b & Ho & Hu & Hb & Hw).
  assert (Unmap (vip_ip b) <> Unmap ip) as Hne by (intros He; apply (Hno key o (vip_wl b) Ho); by exists u, b).
  destruct Hw as [-> | ->]; cbn; by rewrite decide_False.
Qed.

Lemma no_object_silent ip : no_object ip -> silent kube_write ip.
Proof.
  intros Hno w (k & key & o & Hwf & Hm). apply (claims_write ip k o); [done|by apply (Hno k key)|].
  intros o' ->. by destruct k, Hwf as [[] _].
Qed.

(** ** Together *)

(** What the shared cache must say at rest: of the controller's objects what
    Owners.v asks, of the stored ServiceEntries their VIPs. *)
Record mesh_agrees (x : mesh) : Prop := {
  ma_kube :
    agrees uid_key P (istio_write Q) (kept_in (m_ctl x)) (fun k => inf_store (f_inf (m_ctl x) k)) (f_cache (m_ctl x));
  ma_vip key o ip w :
    inf_store (is_inf (m_istio x)) !! key = Some o -> exposes o ip = Some w -> only_exposed Q key ip ->
    no_object ip -> LookupIP (f_cache (m_ctl x)) ip = Some w
}.

Lemma mesh_converges x : mreachable x -> mesh_quiet x -> mesh_agrees x.
Proof.
  intros Hx [Hq [Hcall Hqueue]]. destruct (mesh_parts x Hx) as [Hc Hi He].
  pose proof (vips_ok_reachable Q Q_trim kube_write st ah (m_istio x) Hi) as Hv. split.
  - by apply (index_converges zeroRest uid_key P P_trim (istio_write Q) istio_write_ip (m_ctl x)).
  - intros key o ip w Hs Hw Ho Hno. rewrite <-He.
    pose proof (vo_stored _ _ _ Hv key o ip w Hs Hw Ho (no_object_silent ip Hno)) as Hst.
    unfold settled in Hst. by rewrite Hcall, Hqueue in Hst.
Qed.

(** The names of the shared cache, at any moment. *)
Abbreviation mesh_origin := (origin uid_key P (istio_write Q)).
Lemma mesh_sound x : mreachable x -> sound uid_key P (istio_write Q) (f_cache (m_ctl x)).
Proof.
  intros Hx. by apply (lawful_reachable zeroRest uid_key P P_trim (istio_write Q) istio_write_ip), mesh_parts.
Qed.

(** An address no object of the cluster claims and no ServiceEntry names has no
    name, at any moment. *)
Lemma nobody_unnamed x ip : mreachable x -> no_object ip -> no_entry ip -> LookupIP (f_cache (m_ctl x)) ip = None.
Proof.
  intros Hx Hno Hne. destruct (LookupIP (f_cache (m_ctl x)) ip) as [w|] eqn:Hw; [exfalso|done].
  destruct (so_ip _ _ _ _ (mesh_sound x Hx) ip w Hw) as [key p v Hp _ Hin _|key n Hn Hin
    |key s key' es a ip' v Hs Hips _ _ _ _ _ _ _|key s Hs Hips|y v Hy Hsays].
  - by apply (Hno KPod key (OPod p)).
  - by apply (Hno KNode key (ONode n)).
  - by apply (Hno KService key (OService s)).
  - by apply (Hno KService key (OService s)).
  - by rewrite (no_entry_undisturbed ip Hne y Hy) in Hsays.
Qed.

(** ** Rest is within reach *)

Lemma controller_runs x y i :
  rtc (fstep zeroRest wf) x y -> rtc mstep (mkMesh x (on_cache (f_cache x) i)) (mkMesh y (on_cache (f_cache y) i)).
Proof.
  induction 1 as [x|x y z Hs _ IH]; [apply rtc_refl|]. eapply rtc_l; [|exact IH]. left.
  by apply (m_controller x y (on_cache (f_cache x) i)).
Qed.
Lemma entries_run x i i' :
  rtc (rstep Q (fun _ => False) st ah) i i' -> is_cache i = f_cache x ->
  rtc mstep (mkMesh x i) (mkMesh (with_cache (is_cache i') x) i').
Proof.
  intros Hr. revert x. induction Hr as [i|i j k Hs _ IH]; intros x He.
  - rewrite He, with_cache_id. apply rtc_refl.
  - eapply rtc_l; [right; by apply (m_entries x i j)|]. by apply (IH (with_cache (is_cache j) x)).
Qed.

(** From every state the controllers can come to rest. *)
Lemma mesh_settles x : mreachable x -> exists y, rtc mstep x y /\ mesh_quiet y.
Proof.
  intros Hx. destruct (mesh_parts x Hx) as [_ _ He]. destruct x as [x i]. cbn in *.
  destruct (settle x) as (y & Hr & Hq & _).
  destruct (istio_settles Q (fun _ => False) st ah (on_cache (f_cache y) i)) as (j & Hj & Hi & _).
  exists (mkMesh (with_cache (is_cache j) y) j). split.
  - etrans; [|by apply (entries_run y _ _ Hj)]. pose proof (controller_runs x y i (rtc_subrel _ _ _ _ (f_work zeroRest wf) Hr)) as Hw. by rewrite <-He, on_cache_id in Hw.
  - split; [|done]. destruct y. exact Hq.
Qed.
End mesh.
Arguments mesh : clear implicits.

(** ** A run *)

Section run.
#[local] Instance run_objects : RangeOrder okey (object unit) := canonical_order.

(** The Kubernetes controller becomes ready in the cluster of Settle.v; then
    Istio's lists its one entry and handles it. *)
Definition ready_state : fstate unit := run_moves tt to_ready.
Definition entry_handled (c : Cache) : istio_state unit string :=
  mkIstio (set_inf_queue [] stored_a) [] (write_all (istio_writes (NAdd (trimServiceEntry entry_a))) c) ISyncing false.
Definition end_mesh : mesh unit string :=
  mkMesh (with_cache (is_cache (entry_handled (f_cache ready_state))) ready_state)
    (entry_handled (f_cache ready_state)).
Abbreviation run_step := (mstep tt two_uid_key blue_alone only_a (None : option string) None).

Lemma istio_handles c :
  rtc (rstep only_a (fun _ => False) None None) (mkIstio NewInformer [] c IBegin false) (entry_handled c).
Proof.
  eapply rtc_l; [by apply r_start|].
  eapply rtc_l; [apply (r_informer _ _ _ _ (inf_run NewInformer) (listing [(key_a, entry_a)])); [|done]|].
  { apply t_list; [done..|]. apply Forall_singleton. split; [done|]. split; [done|]. intros u [= <-]. vm_compute. reflexivity. }
  eapply rtc_l; [apply r_informer; [by apply (t_store _ _ _ _ key_a entry_a [])|done]|].
  eapply rtc_l; [by apply r_deliver|]. repeat (eapply rtc_l; [apply r_write|]). apply rtc_refl.
Qed.

(** The Kubernetes controller is ready before Istio's has started. *)
Definition ready_mesh : mesh unit string :=
  mkMesh ready_state (on_cache (f_cache ready_state) NewIstioController).
Lemma to_ready_mesh : rtc run_step NewMesh ready_mesh.
Proof.
  unfold ready_mesh, ready_state, run_moves. generalize to_ready, to_ready_ok. intros ms Hms.
  by apply (controller_runs tt two_uid_key blue_alone only_a None None NewFine _ NewIstioController), sched_rtc.
Qed.
Lemma to_end_mesh : rtc run_step NewMesh end_mesh.
Proof.
  etrans; [exact to_ready_mesh|]. unfold end_mesh, ready_mesh. generalize ready_state. intros x.
  apply entries_run; [apply istio_handles|done].
Qed.
Lemma end_mesh_reachable : mreachable tt two_uid_key blue_alone only_a (None : option string) None end_mesh.
Proof. eapply reachable_rtc; [by apply reach_init|exact to_end_mesh]. Qed.

Lemma end_quiet : mesh_quiet end_mesh.
Proof.
  split; [|by split]. split; [|vm_compute; exact I]. intros []; vm_compute; split; reflexivity.
Qed.
Lemma vip_free : no_object two_uid_key blue_alone vip1.
Proof. intros k key o [_ [_ [Ho _]]]. exact Ho. Qed.
Lemma blue_no_vip : no_entry only_a ip_a.
Proof.
  intros key o w [_ [_ Ho]] (u & b & Hu & Hb & He & _). rewrite (Ho u Hu) in Hb.
  apply list_elem_of_In in Hb as [<-|[<-|[]]]; vm_compute in He; discriminate He.
Qed.
End run.
