(* ===== verification/Serving.v ===== *)
(** * Serving: concurrent Report calls over the controllers' cache

    Calls.v leaves the writes of the watch layer open, Mesh.v the reader of the
    cache.  [sstep] puts them together at the grain of both: any number of
    [Report] calls, a lookup, a clock reading, [Allow], a counter or a sink at a
    time, among the handlers of the two controllers, a lister call, a lookup or a
    write at a time.  Every edge that reaches the sinks then says only what the
    cluster said ([emitted_never_invented]), although its identities may come from
    four different moments. *)

From S2P Require Import Prelude Golang Netip Model Ignore Resolver Dedup Wire Enrich Emit Processor Calls.
From S2P Require Import Kube Endpoints Controller Transform SharedInformer Informers Atomic Handlers.
From S2P Require Import Interleave Converge Cells Settle Origin Istio IstioRun Mesh.
Open Scope string_scope.
Open Scope list_scope.
Open Scope Z_scope.

Section serving.
Context {Rest E W : Type} (zeroRest : Rest) {RO : RangeOrder okey (object Rest)} {ROt : RangeOrder string Time}.
Context (uid_key : string -> okey) (P : kind -> okey -> object Rest -> Prop).
Context (P_trim : forall k key o, P k key o -> P k key (trimObject zeroRest o)).
Context (Q : okey -> object Rest -> Prop) (Q_trim : forall key o, Q key o -> Q key (trimServiceEntry o)).
Context (st ah : option E).
Abbreviation wf := (wf_cluster uid_key P).
Abbreviation mreach := (mreachable zeroRest uid_key P Q st ah).
Abbreviation true_cache := (sound uid_key P (istio_write Q)).

(** ** What an edge may say *)

(** The names an edge can give an address: one with an origin, or the bare
    address. *)
Definition named (ip : Addr) (w : Workload) : Prop :=
  origin uid_key P (istio_write Q) ip w \/ w = mkWorkload (AddrString ip) "" KindExternal.

(** The source is named at the source address, or is the pod of the event's UID or
    what owns it; the destination is named at the destination address, or an
    external peer there under the event's host name; the protocol is declared for
    the destination's address and port. *)
Record told (ev : ConnectionEvent) (sc : ServiceCall) : Prop := {
  told_source :
    named (SrcIP ev) (Source sc) \/
    SrcPodUID ev <> "" /\ exists key p, wf KPod key (OPod p) /\ pod_UID p = SrcPodUID ev /\
      pod_identity uid_key P p (Source sc);
  told_dest :
    named (DstIP ev) (Dest sc) \/
    DstHostname ev <> "" /\ exists w, named (DstIP ev) w /\ IsExternal w = true /\
      Dest sc = set_name (DstHostname ev) w;
  told_protocol :
    DestAppProtocol sc <> "" ->
    exists K key o e, wf K key o /\ e ∈ entries_of K o /\ Unmap (pe_ip e) = Unmap (DstIP ev) /\
      pe_port e = DstPort ev /\ pe_l7 e = DestAppProtocol sc;
  told_port : DestPort sc = DstPort ev;
  told_transport : DestProtocol sc = EvProtocol ev
}.

Lemma WorkloadForIP_named c ip : true_cache c -> named ip (WorkloadForIP c ip).
Proof.
  intros Hs. unfold named, WorkloadForIP. destruct (LookupIP c ip) as [w|] eqn:Hw; [left|by right].
  by apply (so_ip _ _ _ _ Hs).
Qed.

(** An edge whose lookups were made in sound caches, be they different ones. *)
Lemma mixed_told ev c1 c2 c3 c4 :
  true_cache c1 -> true_cache c2 -> true_cache c3 -> true_cache c4 -> told ev (mixed ev c1 c2 c3 c4).
Proof.
  intros H1 H2 H3 H4. unfold mixed, Enrich.
  split; cbn [Source Dest DestPort DestProtocol DestAppProtocol]; [..|done|done].
  - case_match eqn:Hb; [|by left; apply WorkloadForIP_named]. apply andb_true_iff in Hb as [Hu%bool_decide_eq_true _].
    destruct (LookupUID c2 (SrcPodUID ev)) as [w|] eqn:Hw; [right|by left; apply WorkloadForIP_named].
    split; [done|]. by apply (so_uid _ _ _ _ H2).
  - case_match eqn:Hb; [right|by left; apply WorkloadForIP_named]. apply andb_true_iff in Hb as [He Hh%bool_decide_eq_true].
    split; [done|]. exists (WorkloadForIP c4 (DstIP ev)). split_and!; [by apply WorkloadForIP_named|done|done].
  - destruct (LookupPort c3 (DstIP ev) (DstPort ev)) as [l7|] eqn:Hl; [|done]. intros _.
    by apply (so_port _ _ _ _ H3).
Qed.

(** ** The server and the controllers *)

Context (mt : option Matcher) (sink : Sink W) (window : Duration) (w0 : W) (start : Time).
Abbreviation server := (@serving Resolver.Cache W).

Record service := mkService { s_mesh : mesh Rest E; s_srv : server }.
Definition on_sv_cache (c : Resolver.Cache) (v : server) : server :=
  mkServing c (sv_deduper v) (sv_records v) (sv_batches v) (sv_world v) (sv_calls v) (sv_clock v)
    (sv_received v) (sv_found v) (sv_granted v) (sv_emitted v).
(** [runProcessor] builds the pipeline on the controllers' cache as it is then. *)
Definition served_on (x : mesh Rest E) : service :=
  mkService x (NewServing (NewPipeline (f_cache (m_ctl x)) mt (Dedup.New window) sink w0) start).

Inductive sstep : service -> service -> Prop :=
| s_controllers x x' v :
    mstep zeroRest uid_key P Q st ah x x' ->
    sstep (mkService x v) (mkService x' (on_sv_cache (f_cache (m_ctl x')) v))
| s_call x v v' : vstep (fun _ _ => False) mt sink v v' -> sstep (mkService x v) (mkService x v').
Definition sreachable : service -> Prop := reachable (fun s => exists x, mreach x /\ s = served_on x) sstep.

(** ** Each in the other's terms *)

(** The changes the server sees: from one sound cache to another. *)
Definition sound_change (c c' : Resolver.Cache) : Prop := true_cache c /\ true_cache c'.

Lemma vstep_cache v v' : vstep (fun _ _ => False) mt sink v v' -> sv_cache v' = sv_cache v.
Proof. by destruct 1. Qed.
Lemma vstep_more v v' : vstep (fun _ _ => False) mt sink v v' -> vstep sound_change mt sink v v'.
Proof. destruct 1; try (by econstructor). Qed.

Record told_so_far (s : service) : Prop := {
  tf_mesh : mreach (s_mesh s);
  tf_server : exists p, world p = w0 /\ vreachable sound_change mt sink p start (s_srv s);
  tf_cache : sv_cache (s_srv s) = f_cache (m_ctl (s_mesh s))
}.

Lemma service_parts s : sreachable s -> told_so_far s.
Proof.
  assert (forall x, mreach x -> true_cache (f_cache (m_ctl x))) as Hsound.
  { intros x Hx. by apply (mesh_sound zeroRest uid_key P P_trim Q Q_trim st ah). }
  apply reachable_invariant.
  - intros ? (x & Hx & ->). split; [done| |done]. eexists. split; [|by apply reach_init]. done.
  - intros y z [Hm (p & Hw & Hv) Hc] Hs. destruct Hs as [x x' v Hs|x v v' Hs]; cbn [s_mesh s_srv] in *.
    + assert (mreach x') as Hx' by by eapply reach_step. split; [done| |done]. exists p. split; [done|].
      eapply reach_step; [exact Hv|]. destruct v. apply v_cache. cbn in Hc. subst. split; by apply Hsound.
    + split; [done| |by cbn [s_srv s_mesh]; rewrite (vstep_cache v v')]. exists p. split; [done|].
      eapply reach_step; [exact Hv|by apply vstep_more].
Qed.

Lemma sound_before c c' : rtc sound_change c c' -> true_cache c' -> true_cache c.
Proof. by destruct 1 as [|? ? ? [? _] _]. Qed.

Lemma emitted_told s sc : sreachable s -> sc ∈ sv_emitted (s_srv s) -> exists ev,
  event_of (sv_received (s_srv s)) ev /\ told ev sc /\ filtered mt ev sc = None.
Proof.
  intros Hs Hsc. destruct (service_parts s Hs) as [Hm (p & _ & Hv) Hc].
  destruct (emitted_identified _ _ _ p start (s_srv s) sc Hv Hsc) as (ev & c1 & c2 & c3 & c4 & Hev & -> & Hf & H1 & H2 & H3 & H4).
  exists ev. split; [done|]. split; [|done].
  assert (true_cache (sv_cache (s_srv s))) as H.
  { rewrite Hc. by apply (mesh_sound zeroRest uid_key P P_trim Q Q_trim st ah). }
  apply (sound_before _ _ H4) in H. pose proof (sound_before _ _ H3 H) as Hs3. pose proof (sound_before _ _ H2 Hs3) as Hs2.
  apply mixed_told; [by apply (sound_before _ _ H1)|done..].
Qed.

(** C8: no invented identities.  However many [Report] calls run at once, operation
    by operation, among the handlers of both controllers, interrupted anywhere,
    and whatever objects share an address: the sinks got the emitted edges in
    order, and every one of them is of a record received, passed the filters, and
    names nothing the cluster did not name.  Its source is the pod of the
    record's UID or the owner that pod's references lead to, or a name with an
    origin at the source address (a pod that reports it or its owner, the node
    that has it, the pod workload at an endpoint of a Service it is the ClusterIP
    of, that Service, the host of a ServiceEntry that names it), or the bare
    address; its destination likewise, or an external peer under the record's host
    name; its protocol one some Service or slice declares for that very address
    and port. *)
Theorem emitted_never_invented (s : service) (Hs : sreachable s) :
  sv_world (s_srv s) = foldl (fun w sc => sink sc w) w0 (sv_emitted (s_srv s)) /\
  forall sc, sc ∈ sv_emitted (s_srv s) -> exists rec ev,
    rec ∈ sv_received (s_srv s) /\ toEvent rec = Some ev /\ filtered mt ev sc = None /\ told ev sc.
Proof.
  split.
  - destruct (service_parts s Hs) as [_ (p & <- & Hv) _]. by destruct (accounts_reachable _ _ _ p _ _ Hv).
  - intros sc Hsc. destruct (emitted_told s sc Hs Hsc) as (ev & (rec & Hin & He) & Ht & Hf). by exists rec, ev.
Qed.
End serving.

(** ** Witness *)

Section run.
#[local] Instance run_objects : RangeOrder okey (object unit) := canonical_order.
#[local] Instance run_times : RangeOrder string Time := canonical_order.

(** The first pod calls the external host behind the VIP. *)
Definition vip_record : FlowRecord :=
  mkFlowRecord [x0a; x00; x00; x01] [xf0; xf0; x00; x01] 5432 6 true "uid-blue" "" 1 0 0 "".
Definition vip_edge : ServiceCall := mkServiceCall blue_wl db_workload 5432 6 "".
Abbreviation run_reach :=
  (sreachable tt two_uid_key blue_alone only_a (None : option string) None None list_sink 30 [] 0).

Lemma calls_run x v v' :
  run_reach (mkService x v) -> rtc (vstep (fun _ _ => False) None list_sink) v v' -> run_reach (mkService x v').
Proof.
  intros Hr Hs. induction Hs as [v|v v1 v' H1 _ IH]; [done|]. apply IH. eapply reach_step; [exact Hr|by apply s_call].
Qed.

Lemma vip_reported : exists v, run_reach (mkService end_mesh v) /\ sv_world v = [vip_edge].
Proof.
  assert (run_reach (served_on None list_sink 30 [] 0 end_mesh)) as H.
  { apply reach_init. exists end_mesh. split; [apply end_mesh_reachable|done]. }
  eapply calls_run in H; [|apply rtc_once, (v_report _ _ _ _ _ _ _ _ _ _ _ _ _ _ (mkReportRequest "n1" [vip_record]))].
  destruct (record_alone (fun _ _ => False) None list_sink (f_cache (m_ctl end_mesh)) (Dedup.New 30) ∅ 1 [] [] [] 0
    [vip_record] [] [] [] vip_record []) as (fd & gr & em & Hr).
  eapply calls_run in H; [|exact Hr]. eexists. split; [exact H|]. vm_compute. reflexivity.
Qed.

Lemma emitted_never_invented_witness :
  exists v rec ev, run_reach (mkService end_mesh v) /\ rec ∈ sv_received v /\ toEvent rec = Some ev /\
    (named two_uid_key blue_alone only_a (DstIP ev) (Dest vip_edge) \/ DstHostname ev <> "").
Proof.
  destruct vip_reported as (v & Hv & Hw). destruct (emitted_never_invented tt two_uid_key blue_alone blue_alone_trim
    only_a only_a_trim None None None list_sink 30 [] 0 _ Hv) as [He Hall]. cbn [s_srv] in *.
  assert (forall l w, foldl (fun w sc => list_sink sc w) w l = w ++ l) as Hfold.
  { induction l as [|sc l IH]; intros w; [by rewrite app_nil_r|]. cbn. rewrite IH. unfold list_sink. by rewrite <-app_assoc. }
  rewrite Hfold, Hw in He. cbn in He.
  destruct (Hall vip_edge) as (rec & ev & Hin & Hev & _ & [_ Hd _ _ _]); [rewrite <-He; by left|].
  exists v, rec, ev. split_and!; [done..|]. destruct Hd as [Hd|[Hh _]]; [by left|by right].
Defined.
End run.
