(* ===== verification/Config.v ===== *)
(** * Config: the runtime configuration (internal/config/config.go)

    The configuration records, [StdoutEnabled], [Validate] and [Load].  The YAML
    decoder, the file system and the environment are arguments of [Load]. *)

From S2P Require Import Prelude Golang.
Open Scope string_scope.
Open Scope list_scope.
Open Scope Z_scope.

Record IstioConfig := mkIstioConfig { istio_Enabled : bool; istio_APIVersion : string }.
Definition DefaultIstioAPIVersion : string := "v1beta1".

(** [Enabled] is a pointer: unset is [None]. *)
Record StdoutConfig := mkStdoutConfig { stdout_Enabled : option bool }.
Record KafkaTLSConfig := mkTLS { tls_Enabled : bool; tls_CAFile : string; tls_InsecureSkipVerify : bool }.
Record KafkaSASLConfig := mkSASL { sasl_Mechanism : string; sasl_Username : string; sasl_Password : string }.
Record KafkaConfig := mkKafka {
  kafka_Enabled : bool;
  kafka_Brokers : list string;
  kafka_Topic : string;
  kafka_ClientID : string;
  kafka_TLS : KafkaTLSConfig;
  kafka_SASL : KafkaSASLConfig
}.
Record EmitConfig := mkEmit { emit_Stdout : StdoutConfig; emit_Kafka : KafkaConfig }.
Record Config := mkConfig {
  cfg_Ignore : list string;
  cfg_Istio : IstioConfig;
  cfg_Emit : EmitConfig
}.
Definition zeroConfig : Config :=
  mkConfig [] (mkIstioConfig false "")
    (mkEmit (mkStdoutConfig None) (mkKafka false [] "" "" (mkTLS false "" false) (mkSASL "" "" ""))).

Definition SASLMechanismPlain : string := "PLAIN".
Definition SASLMechanismScramSHA256 : string := "SCRAM-SHA-256".
Definition SASLMechanismScramSHA512 : string := "SCRAM-SHA-512".
Definition DefaultKafkaClientID : string := "network-sniffer-processor".
Definition KafkaPasswordEnv : string := "KAFKA_SASL_PASSWORD".

Definition StdoutEnabled (e : EmitConfig) : bool :=
  match stdout_Enabled (emit_Stdout e) with None => true | Some b => b end.

Inductive emit_error :=
| NoSink
| NoBrokers
| NoTopic
| NoCredentials (mechanism : string)
| UnsupportedMechanism (mechanism : string).

(** [None] is a nil error. *)
Definition Validate (e : EmitConfig) : option emit_error :=
  if negb (StdoutEnabled e) && negb (kafka_Enabled (emit_Kafka e)) then Some NoSink
  else if negb (kafka_Enabled (emit_Kafka e)) then None
  else
    let k := emit_Kafka e in
    if bool_decide (kafka_Brokers k = []) then Some NoBrokers
    else if bool_decide (kafka_Topic k = "") then Some NoTopic
    else
      let m := sasl_Mechanism (kafka_SASL k) in
      if bool_decide (m = "") then None
      else if bool_decide (m = SASLMechanismPlain \/ m = SASLMechanismScramSHA256
                           \/ m = SASLMechanismScramSHA512) then
        if bool_decide (sasl_Username (kafka_SASL k) = "" \/ sasl_Password (kafka_SASL k) = "")
        then Some (NoCredentials m) else None
      else Some (UnsupportedMechanism m).

Definition set_password (pw : string) (c : Config) : Config :=
  let e := cfg_Emit c in
  let k := emit_Kafka e in
  let s := kafka_SASL k in
  mkConfig (cfg_Ignore c) (cfg_Istio c)
    (mkEmit (emit_Stdout e)
       (mkKafka (kafka_Enabled k) (kafka_Brokers k) (kafka_Topic k) (kafka_ClientID k) (kafka_TLS k)
          (mkSASL (sasl_Mechanism s) (sasl_Username s) pw))).

Inductive load_error := ReadError (path : string) | ParseError (path : string)
| InvalidConfig (path : string) (e : emit_error).

Section load.
Context (ReadFile : string -> option (list byte)) (Unmarshal : list byte -> option Config)
  (LookupEnv : string -> option string).

Definition Load (path : string) : result load_error Config :=
  if decide (path = "") then Ok zeroConfig
  else
    match ReadFile path with
    | None => Err (ReadError path)
    | Some raw =>
        match Unmarshal raw with
        | None => Err (ParseError path)
        | Some cfg =>
            let cfg :=
              match LookupEnv KafkaPasswordEnv with
              | Some pw => if decide (pw <> "") then set_password pw cfg else cfg
              | None => cfg
              end in
            match Validate (cfg_Emit cfg) with
            | Some e => Err (InvalidConfig path e)
            | None => Ok cfg
            end
        end
    end.
End load.

(** ** Specification *)

Definition supported (m : string) : Prop :=
  m = SASLMechanismPlain \/ m = SASLMechanismScramSHA256 \/ m = SASLMechanismScramSHA512.

(** An emit section that can be honoured: a sink is on, and an enabled Kafka sink
    has brokers, a topic and, when it authenticates, a supported mechanism with
    its credentials. *)
Definition usable (e : EmitConfig) : Prop :=
  let k := emit_Kafka e in
  let s := kafka_SASL k in
  (StdoutEnabled e = true \/ kafka_Enabled k = true) /\
  (kafka_Enabled k = true ->
   kafka_Brokers k <> [] /\ kafka_Topic k <> "" /\
   (sasl_Mechanism s <> "" ->
    supported (sasl_Mechanism s) /\ sasl_Username s <> "" /\ sasl_Password s <> "")).

(** ** Properties *)

Lemma Validate_usable e : Validate e = None <-> usable e.
Proof.
  unfold Validate, usable. cbv zeta. fold (supported (sasl_Mechanism (kafka_SASL (emit_Kafka e)))).
  destruct (StdoutEnabled e) eqn:Hs, (kafka_Enabled (emit_Kafka e)) eqn:Hk; cbn [negb andb];
    try naive_solver.
  all: repeat case_bool_decide; naive_solver.
Qed.

(** [Validate] accepts exactly the emit sections that can be honoured, and on
    any other reports a rule it really breaks. *)
Lemma Validate_decides e :
  match Validate e with
  | None => usable e
  | Some NoSink => StdoutEnabled e = false /\ kafka_Enabled (emit_Kafka e) = false
  | Some NoBrokers => kafka_Enabled (emit_Kafka e) = true /\ kafka_Brokers (emit_Kafka e) = []
  | Some NoTopic => kafka_Enabled (emit_Kafka e) = true /\ kafka_Topic (emit_Kafka e) = ""
  | Some (NoCredentials m) =>
      kafka_Enabled (emit_Kafka e) = true /\ m = sasl_Mechanism (kafka_SASL (emit_Kafka e)) /\
      supported m /\ (sasl_Username (kafka_SASL (emit_Kafka e)) = "" \/
                      sasl_Password (kafka_SASL (emit_Kafka e)) = "")
  | Some (UnsupportedMechanism m) =>
      kafka_Enabled (emit_Kafka e) = true /\ m = sasl_Mechanism (kafka_SASL (emit_Kafka e)) /\
      m <> "" /\ ~ supported m
  end.
Proof.
  destruct (Validate e) as [err|] eqn:Hv; [|by apply Validate_usable].
  unfold Validate in Hv. cbv zeta in Hv.
  destruct (StdoutEnabled e), (kafka_Enabled (emit_Kafka e)); cbn [negb andb] in Hv;
    try done; try (by injection Hv as <-).
  all: repeat case_bool_decide; simplify_eq; try done; by split_and!.
Qed.

(** A configuration that loads is usable: no path gives the defaults without
    touching the system; otherwise it is the file's, with only the Kafka password
    replaced by a non-empty environment variable, and its emit section is
    honourable.  An unreadable or unparsable file is always an error. *)
Lemma Load_usable ReadFile Unmarshal LookupEnv path :
  (path = "" -> Load ReadFile Unmarshal LookupEnv path = Ok zeroConfig) /\
  (path <> "" -> (ReadFile path ≫= Unmarshal) = None ->
     is_ok (Load ReadFile Unmarshal LookupEnv path) = false) /\
  (forall c, Load ReadFile Unmarshal LookupEnv path = Ok c ->
     usable (cfg_Emit c) /\
     (path <> "" -> exists raw c0, ReadFile path = Some raw /\ Unmarshal raw = Some c0 /\
        c = match LookupEnv KafkaPasswordEnv with
            | Some pw => if decide (pw = "") then c0 else set_password pw c0
            | None => c0
            end)).
Proof.
  unfold Load. split_and!.
  - intros ->. done.
  - intros Hp Hr. rewrite decide_False by done. destruct (ReadFile path) as [raw|]; [|done].
    cbn in Hr. by rewrite Hr.
  - intros c. case_decide as Hp.
    + intros [= <-]. split; [|done]. apply Validate_usable. vm_compute. reflexivity.
    + destruct (ReadFile path) as [raw|]; [|done]. destruct (Unmarshal raw) as [c0|] eqn:Hu; [|done].
      destruct (Validate _) eqn:Hv; [done|]. intros [= <-]. split; [by apply Validate_usable|].
      intros _. exists raw, c0. split_and!; try done.
      destruct (LookupEnv KafkaPasswordEnv) as [pw|]; [|done]. by repeat case_decide.
Qed.

Definition sample_kafka (pw : string) : Config :=
  mkConfig ["kube-system/*"] (mkIstioConfig false "")
    (mkEmit (mkStdoutConfig (Some false))
       (mkKafka true ["kafka:9092"] "edges" "" (mkTLS false "" false) (mkSASL "PLAIN" "u" pw))).

Lemma Load_usable_witness :
  let env n := if decide (n = KafkaPasswordEnv) then Some "secret" else None in
  Load (fun _ => Some []) (fun _ => Some (sample_kafka "")) env "/etc/c.yaml" = Ok (sample_kafka "secret") /\
  usable (cfg_Emit (sample_kafka "secret")).
Proof.
  cbv zeta.
  set (env := fun n => if decide (n = KafkaPasswordEnv) then Some "secret" else None).
  destruct (Load_usable (fun _ => Some []) (fun _ => Some (sample_kafka "")) env "/etc/c.yaml")
    as (_ & _ & H).
  assert (Load (fun _ => Some []) (fun _ => Some (sample_kafka "")) env "/etc/c.yaml"
    = Ok (sample_kafka "secret")) as Hl by (vm_compute; reflexivity).
  split; [exact Hl|]. exact (proj1 (H _ Hl)).
Defined.
