(* ===== verification/System.v ===== *)
(** * System: one node's collector, from probe records to the processor's edges

    Composes the collector's operations into runs (cmd/sniffer/collector_linux.go
    starts the goroutines whose steps these are) and follows each accepted event
    through aggregation, batching, the wire and enrichment.  The startup checks
    of the collector's flags are what makes every run of it proceed.  Node.v puts
    these steps into the whole process. *)

From S2P Require Import Prelude Golang Netip Model Decode DnsCache Wire Aggregator Sender.
From S2P Require Import Cgroup Collector Resolver Enrich Processor.
Open Scope string_scope.
Open Scope list_scope.
Open Scope Z_scope.

(** ** Startup (runCollector) *)

Definition procRoot : string := "/proc".

Record CollectorFlags := mkFlags {
  fl_nodeName : string;
  fl_flushInterval : Duration;
  fl_maxBatch : Z;
  fl_queueSize : Z;
  fl_reportTimeout : Duration;
  fl_dnsNames : bool;
  fl_dnsCacheSize : Z
}.
Definition flags_rejected (f : CollectorFlags) : bool :=
  (fl_maxBatch f <=? 0) || (fl_queueSize f <=? 0) || (fl_flushInterval f <=? 0)
  || (fl_dnsCacheSize f <=? 0).

(** [None] is the error of a rejected flag; [attached] is whether DNS capture
    could be attached. *)
Definition startCollector (f : CollectorFlags) (attached : bool) : option Collector :=
  if flags_rejected f then None
  else
    let sender := NewSender (fl_nodeName f) (Z.to_nat (fl_queueSize f)) (fl_reportTimeout f) in
    let dns := if fl_dnsNames f && attached then Some (DnsCache.New (fl_dnsCacheSize f)) else None in
    Some (NewCollector (Collector.mkConfig procRoot (fl_flushInterval f) (fl_maxBatch f)) dns sender).

Section runs.
Context {ROF : RangeOrder flowKey flow} {ROE : RangeOrder Addr entry} {DP : DNSParser}.

(** ** Runs *)

(** One step of a collector goroutine: an event read, a DNS record read, a failed
    read of either source, a tick of the flush timer. *)
Inductive cop :=
| CEvent (fs : string -> option string) (raw : list byte) (now : Time)
| CEventError
| CDNS (raw : list byte) (now : Time)
| CTick (now : Time).
Definition cstep (o : cop) (c : Collector) : outcome Collector :=
  match o with
  | CEvent fs raw now => handle fs raw now c
  | CEventError => Done (count_event resultReadError c)
  | CDNS raw now =>
      Done (match dns c with Some _ => handleDNS raw now c | None => c end)
  | CTick now => tick now c
  end.
Fixpoint crun (ops : list cop) (c : Collector) : outcome Collector :=
  match ops with
  | [] => Done c
  | o :: ops => match cstep o c with Done c => crun ops c | r => r end
  end.

(** The observation a step adds to the aggregator, if its event is accepted. *)
Definition observes (o : cop) (c : Collector) : list observation :=
  match o with
  | CEvent fs raw now =>
      match Decode (P:=Empty_set) raw with
      | Ok ev => if node_local ev then [] else [((attach fs (Canonical ev) now c).1, now)]
      | Err _ => []
      end
  | _ => []
  end.
Fixpoint observations (ops : list cop) (c : Collector) : list observation :=
  match ops with
  | [] => []
  | o :: ops => observes o c ++ match cstep o c with Done c => observations ops c | _ => [] end
  end.
Definition is_event (o : cop) : bool := match o with CEvent _ _ _ | CEventError => true | _ => false end.

(** ** Lemmas *)

(** The records of one round of aggregation. *)
Definition round_records (obs : list observation) : list FlowRecord :=
  (Drain (add_all obs NewAggregator)).1.

(** What a run has done so far: [rounds] were flushed as [batches], [cur] is still
    being aggregated. *)
Definition books (c0 : Collector) (rounds : list (list observation)) (batches : list batch)
    (cur : list observation) (c : Collector) : Prop :=
  cfg c = cfg c0 /\ agg c = add_all cur NewAggregator /\
  concat batches = rounds ≫= round_records /\
  Forall (fun b => 0 < Z.of_nat (length b) <= MaxBatch (cfg c0)) batches /\
  queue_cap (sender c) = queue_cap (sender c0) /\
  queue (sender c) = lastn (queue_cap (sender c0)) (queue (sender c0) ++ batches) /\
  ready (sender c).

Lemma add_all_snoc obs ev t a : (Aggregator.Add ev t (add_all obs a)).2 = add_all (obs ++ [(ev, t)]) a.
Proof. unfold add_all. by rewrite foldl_app. Qed.

(** Flushing closes the current round. *)
Lemma flush_books c0 rounds batches cur c :
  0 < MaxBatch (cfg c0) -> books c0 rounds batches cur c ->
  exists bs c', flush c = Done c' /\ books c0 (rounds ++ [cur]) (batches ++ bs) [] c' /\
    cm c' = cm c /\ dns c' = dns c.
Proof.
  intros Hm (Hcfg & Hagg & Hb & Hall & Hcap & Hq & Hr).
  destruct (flush_loop_spec (Drain (agg c)).1 (S (length (Drain (agg c)).1)) (set_agg NewAggregator c))
    as (bs & s' & Hfl & Hcat & Hall' & Hr' & Hc' & Hq' & _); [cbn; by rewrite Hcfg|done|lia|].
  exists bs, (set_sender s' (set_agg NewAggregator c)). split.
  { unfold flush. change (Drain (agg c)) with ((Drain (agg c)).1, NewAggregator). exact Hfl. }
  split; [|done]. cbn in Hall', Hc', Hq'. unfold books. cbn.
  split; [done|]. split; [done|].
  split; [by rewrite concat_app, Hb, Hcat, Hagg, bind_app, bind_singleton|].
  split; [rewrite Hcfg in Hall'; by apply Forall_app|]. split; [congruence|].
  split; [by rewrite Hq', Hcap, Hq, lastn_app, app_assoc|done].
Qed.

Lemma count_event_books c0 rounds batches cur c l :
  books c0 rounds batches cur c -> books c0 rounds batches cur (count_event l c).
Proof. done. Qed.

Lemma Add_books c0 rounds batches cur c ev t :
  books c0 rounds batches cur c ->
  books c0 rounds batches (cur ++ [(ev, t)]) (set_agg (Aggregator.Add ev t (agg c)).2 c).
Proof.
  intros (? & Hagg & ?). split; [done|]. split; [|done].
  cbn [agg set_agg]. by rewrite Hagg, add_all_snoc.
Qed.

Lemma put_answers_frame answers now c :
  let c' := foldl (put_answer now) c answers in
  cfg c' = cfg c /\ agg c' = agg c /\ sender c' = sender c /\ Events (cm c') = Events (cm c).
Proof.
  revert c. induction answers as [|a answers IH]; intros c; [done|]. cbn.
  destruct (IH (put_answer now c a)) as (-> & -> & -> & ->). unfold put_answer.
  destruct (dns c) as [d|]; [|done]. by destruct (DnsCache.Put _ _ _ _ _).
Qed.

Lemma handleDNS_frame raw now c :
  let c' := handleDNS raw now c in
  cfg c' = cfg c /\ agg c' = agg c /\ sender c' = sender c /\ Events (cm c') = Events (cm c).
Proof.
  cbv zeta. unfold handleDNS. destruct (DecodeDNS raw) as [answers|[]]; try done.
  apply put_answers_frame.
Qed.

(** A step that returns, keeps the books and counts each event once: [n] events,
    of which [obs] were accepted. *)
Definition keeps_books (c0 : Collector) (rounds : list (list observation)) (batches : list batch)
    (cur : list observation) (c : Collector) (n : N) (obs : list observation) (r : outcome Collector) : Prop :=
  exists c' rounds' bs cur', r = Done c' /\
    books c0 rounds' (batches ++ bs) cur' c' /\
    concat rounds' ++ cur' = (concat rounds ++ cur) ++ obs /\
    counter_total (Events (cm c')) = (counter_total (Events (cm c)) + n)%N /\
    (Events (cm c'))⟦resultAccepted⟧ = ((Events (cm c))⟦resultAccepted⟧ + N.of_nat (length obs))%N.

(** An event that is only counted. *)
Lemma counted_books c0 rounds batches cur c l :
  books c0 rounds batches cur c -> l <> resultAccepted ->
  keeps_books c0 rounds batches cur c 1 [] (Done (count_event l c)).
Proof.
  intros Hb Hl. eexists _, rounds, [], cur. split; [done|]. rewrite !app_nil_r.
  split; [by apply count_event_books|]. split; [done|]. cbn [cm count_event set_cm Events].
  by rewrite counter_total_inc, count_inc_ne, N.add_0_r.
Qed.

Lemma handle_books c0 rounds batches cur c fs raw now :
  0 < MaxBatch (cfg c0) -> books c0 rounds batches cur c ->
  keeps_books c0 rounds batches cur c 1 (observes (CEvent fs raw now) c) (handle fs raw now c).
Proof.
  intros Hm Hbooks. cbn [observes]. unfold handle.
  destruct (Decode raw) as [ev|e]; [|by apply counted_books].
  rewrite node_local_Canonical. destruct (node_local ev); [by apply counted_books|].
  pose proof (attach_frame fs (Canonical ev) now c) as Hf.
  destruct (attach fs (Canonical ev) now c) as [ev' c1]. cbn [fst].
  destruct Hf as (Hcfg & Hdns & Hagg & Hsend & Hcm).
  assert (books c0 rounds batches cur (count_event resultAccepted c1)) as Hb1.
  { destruct Hbooks as (H1 & H2 & H3 & H4 & H5 & H6 & H7). unfold books. cbn.
    by rewrite Hcfg, Hagg, Hsend. }
  apply (Add_books _ _ _ _ _ ev' now) in Hb1.
  destruct (Aggregator.Add ev' now (agg (count_event resultAccepted c1))) as [n a]. cbn [snd] in Hb1.
  assert (Events (cm (set_agg a (count_event resultAccepted c1))) = Events (cm c) ⊕ resultAccepted)
    as Hev by (cbn; by rewrite Hcm).
  set (c2 := set_agg a (count_event resultAccepted c1)) in *.
  destruct (MaxBatch (cfg c2) <=? Z.of_nat n).
  - destruct (flush_books c0 _ _ _ c2 Hm Hb1) as (bs & c' & -> & Hb' & Hcm' & _).
    exists c', (rounds ++ [cur ++ [(ev', now)]]), bs, []. split; [done|]. split; [done|].
    split; [rewrite concat_app; cbn; by rewrite !app_nil_r, app_assoc|].
    by rewrite Hcm', Hev, counter_total_inc, count_inc_eq.
  - exists c2, rounds, [], (cur ++ [(ev', now)]). rewrite app_nil_r. split; [done|].
    split; [done|]. split; [by rewrite app_assoc|].
    by rewrite Hev, counter_total_inc, count_inc_eq.
Qed.

Lemma tick_books c0 rounds batches cur c now :
  0 < MaxBatch (cfg c0) -> books c0 rounds batches cur c ->
  keeps_books c0 rounds batches cur c 0 [] (tick now c).
Proof.
  intros Hm Hbooks. unfold tick.
  destruct (flush_books c0 _ _ _ c Hm Hbooks) as (bs & c' & -> & Hb' & Hcm' & _).
  assert (exists c'', match dns c' with
      | Some d => let '(n, d) := DnsCache.Sweep now d in Done (set_cache_entries n (set_dns (Some d) c'))
      | None => Done c' end = Done c'' /\ books c0 (rounds ++ [cur]) (batches ++ bs) [] c'' /\
      Events (cm c'') = Events (cm c')) as (c'' & -> & Hb'' & He).
  { destruct (dns c') as [d|]; [|by exists c'].
    destruct (DnsCache.Sweep now d) as [n d']. by eexists. }
  exists c'', (rounds ++ [cur]), bs, []. split; [done|]. split; [done|].
  rewrite He, Hcm', !N.add_0_r, concat_app. cbn. by rewrite !app_nil_r.
Qed.

Lemma cstep_books c0 rounds batches cur c o :
  0 < MaxBatch (cfg c0) -> books c0 rounds batches cur c ->
  keeps_books c0 rounds batches cur c (if is_event o then 1 else 0) (observes o c) (cstep o c).
Proof.
  intros Hm Hbooks. destruct o as [fs raw now| |raw now|now]; cbn [cstep is_event].
  - by apply handle_books.
  - by apply counted_books.
  - eexists _, rounds, [], cur. split; [done|]. cbn [observes]. rewrite !app_nil_r, !N.add_0_r.
    destruct (dns c) as [d|]; [|done]. destruct (handleDNS_frame raw now c) as (H1 & H2 & H3 & H4).
    split; [|by rewrite H4]. destruct Hbooks as (?&?&?&?&?&?&?). unfold books. by rewrite H1, H2, H3.
  - by apply tick_books.
Qed.

Lemma crun_books c0 ops : forall rounds batches cur c,
  0 < MaxBatch (cfg c0) -> books c0 rounds batches cur c ->
  exists c' rounds' batches' cur', crun ops c = Done c' /\
    books c0 rounds' batches' cur' c' /\
    concat rounds' ++ cur' = (concat rounds ++ cur) ++ observations ops c /\
    counter_total (Events (cm c')) =
      (counter_total (Events (cm c)) + N.of_nat (length (filter is_event ops)))%N /\
    (Events (cm c'))⟦resultAccepted⟧ =
      ((Events (cm c))⟦resultAccepted⟧ + N.of_nat (length (observations ops c)))%N.
Proof.
  induction ops as [|o ops IH]; intros rounds batches cur c Hm Hb; cbn [crun observations].
  - exists c, rounds, batches, cur. rewrite app_nil_r. cbn. by rewrite !N.add_0_r.
  - destruct (cstep_books c0 rounds batches cur c o Hm Hb)
      as (c1 & rounds1 & bs & cur1 & -> & Hb1 & Hobs & Htot & Hacc).
    destruct (IH _ _ _ _ Hm Hb1) as (c' & rounds' & batches' & cur' & -> & Hb' & Hobs' & Htot' & Hacc').
    exists c', rounds', batches', cur'. split; [done|]. split; [done|].
    rewrite Hobs', Hobs, Htot', Htot, Hacc', Hacc, length_app, filter_cons. split; [by rewrite app_assoc|].
    split; [|lia].
    destruct (decide (Is_true (is_event o))) as [Hi|Hi]; destruct (is_event o); try done; cbn [length]; lia.
Qed.

Lemma plain_event_on_wire fs ev now c :
  plain_addr (SrcIP ev) -> plain_addr (DstIP ev) -> 0 <= SrcPort ev < 2 ^ 16 ->
  0 <= DstPort ev < 2 ^ 16 -> 0 <= EvProtocol ev < 2 ^ 8 ->
  on_wire (attach fs (Canonical ev) now c).1.
Proof.
  intros Hs Hd Hsp Hdp Hpr.
  assert (on_wire (Canonical ev)) as Hw by (unfold on_wire, Canonical; by destruct (Outbound ev)).
  unfold attach. destruct (Outbound (Canonical ev)); [|done].
  destruct (podUID _ _ _ _) as [uid c']. by destruct (dns c').
Qed.

Lemma observes_on_wire o c ev t : (ev, t) ∈ observes o c -> on_wire ev.
Proof.
  destruct o as [fs raw now| | |]; cbn; try by intros ?%elem_of_nil.
  pose proof (Decode_cases (P:=Empty_set) raw) as Hd.
  destruct (Decode raw) as [e|]; [|by intros ?%elem_of_nil].
  destruct (node_local e); [by intros ?%elem_of_nil|].
  intros Ho%list_elem_of_singleton. injection Ho as -> _.
  destruct Hd as (_ & ? & ? & ? & ? & ? & _). by apply plain_event_on_wire.
Qed.

Lemma observations_on_wire ops : forall c ev t, (ev, t) ∈ observations ops c -> on_wire ev.
Proof.
  induction ops as [|o ops IH]; intros c ev t; cbn [observations]; [by intros ?%elem_of_nil|].
  intros [Ho|Ho]%elem_of_app; [by apply observes_on_wire in Ho|].
  destruct (cstep o c) as [c'| |]; [by apply (IH c' ev t)|by apply elem_of_nil in Ho..].
Qed.
End runs.

Lemma startCollector_books {ROF : RangeOrder flowKey flow} f att c :
  startCollector f att = Some c -> 0 < MaxBatch (cfg c) /\ books c [] [] [] c /\
  Events (cm c) = ∅ /\ queue (sender c) = [] /\
  (forall d, dns c = Some d -> 0 < DnsCache.max d) /\ 0 < FlushInterval (cfg c).
Proof.
  unfold startCollector. destruct (flags_rejected f) eqn:Hf; [done|]. intros [= <-].
  unfold flags_rejected in Hf. rewrite !orb_false_iff, !Z.leb_gt in Hf.
  destruct Hf as [[[H1 H2] H3] H4]. cbn. split; [done|]. split.
  - unfold books. cbn [cfg agg sender queue queue_cap NewCollector NewSender concat mbind list_bind app].
    do 6 (split; [done|]). split; cbn; lia.
  - split_and!; try done. intros d. destruct (_ && _); [|done]. by intros [= <-].
Qed.

(** C9: a collector whose flags pass the startup check never panics, never loops for
    ever and never stops on its own: every run of events, DNS records, failed
    reads and flush ticks, in any order and interleaving, returns; it has counted
    every event once, and the accepted ones are exactly the observations it
    aggregated. *)
Theorem collector_never_stuck {ROF : RangeOrder flowKey flow} {ROE : RangeOrder Addr entry}
    {DP : DNSParser} f att c ops (Hstart : startCollector f att = Some c) :
  exists c', crun ops c = Done c' /\
    counter_total (Events (cm c')) = N.of_nat (length (filter is_event ops)) /\
    (Events (cm c'))⟦resultAccepted⟧ = N.of_nat (length (observations ops c)) /\
    (length (queue (sender c')) <= queue_cap (sender c))%nat.
Proof.
  destruct (startCollector_books f att c Hstart) as (Hm & Hb & He & _).
  destruct (crun_books c ops [] [] [] c Hm Hb) as (c' & rs & bs & cur & Hrun & Hb' & _ & Htot & Hacc).
  exists c'. rewrite He in Htot, Hacc. split; [done|]. split; [done|]. split; [done|].
  destruct Hb' as (_ & _ & _ & _ & _ & -> & _). rewrite length_lastn. lia.
Qed.

(** End to end.  Whatever a collector goes through, its accepted observations
    are, in order, those of the rounds it flushed and those it still aggregates;
    the flushed rounds are exactly the records of the batches handed to the
    sender, whose queue, while nothing is taken from it, holds the newest of
    them; and each observation of a
    flushed round travels in some record of some batch that the processor
    accepts and, whatever its cache holds, enriches to the edge of that
    observation, named after the first hostname its flow carried. *)
Lemma events_reach_their_edges {ROF : RangeOrder flowKey flow} {ROE : RangeOrder Addr entry}
    {DP : DNSParser} {T} `{Store T, UIDStore T, PortStore T}
    f att c ops c' (Hstart : startCollector f att = Some c) (Hrun : crun ops c = Done c') :
  exists rounds batches cur,
    observations ops c = concat rounds ++ cur /\
    agg c' = add_all cur NewAggregator /\
    concat batches = rounds ≫= round_records /\
    Forall (fun b => 0 < Z.of_nat (length b) <= fl_maxBatch f) batches /\
    queue (sender c') = lastn (Z.to_nat (fl_queueSize f)) batches /\
    forall round ev t (cache : T), round ∈ rounds -> (ev, t) ∈ round ->
      exists b r ev', b ∈ batches /\ r ∈ b /\ toEvent r = Some ev' /\ Outbound ev' = Outbound ev /\
        Enrich ev' cache (Some cache) (Some cache) =
        Enrich (with_hostname
                  (first_nonempty (map (fun o => DstHostname o.1) (with_key (event_key ev) round))) ev)
          cache (Some cache) (Some cache).
Proof.
  destruct (startCollector_books f att c Hstart) as (Hm & Hb & _ & Hq0 & _).
  destruct (crun_books c ops [] [] [] c Hm Hb) as (c2 & rounds & bs & cur & Hrun2 & Hb' & Hobs & _).
  rewrite Hrun in Hrun2. injection Hrun2 as <-.
  destruct Hb' as (_ & Hagg & Hcat & Hall & _ & Hq & _).
  assert (MaxBatch (cfg c) = fl_maxBatch f /\ queue_cap (sender c) = Z.to_nat (fl_queueSize f))
    as [Hmb Hcap].
  { unfold startCollector in Hstart. destruct (flags_rejected f); [done|]. by injection Hstart as <-. }
  exists rounds, bs, cur. rewrite Hmb in Hall. rewrite Hq0, Hcap in Hq. split_and!; try done.
  intros round ev t cache Hr Hev.
  assert (forall ev t, (ev, t) ∈ round -> on_wire ev) as Hwire.
  { intros e x He. apply (observations_on_wire ops c e x). rewrite <-(app_nil_l (observations _ _)).
    change ([] : list observation) with (concat (@nil (list observation)) ++ []). rewrite <-Hobs.
    apply elem_of_app. left. apply list_elem_of_In, in_concat. exists round.
    split; by apply list_elem_of_In. }
  destruct (drained_carries cache round Hwire) as [_ Hcarry].
  destruct (Hcarry ev t Hev) as (r & Hrin & ev' & Hto & Hout & Hen).
  assert (r ∈ concat bs) as Hrb.
  { rewrite Hcat. apply list_elem_of_bind. exists round. split; [exact Hrin|done]. }
  apply list_elem_of_In, in_concat in Hrb as (b & Hbin & Hrbin).
  exists b, r, ev'. split_and!; try done; by apply list_elem_of_In.
Qed.

(** ** Witnesses *)

Definition sample_flags : CollectorFlags := mkFlags "n1" Second 1000 100 (5 * Second) true 65536.
Definition sample_start : Collector := default sample_collector (startCollector sample_flags true).
Definition sample_run : list cop :=
  [CEvent sample_procfs (conn_event_bytes sample_conn_event) 0; CEventError;
   CEvent sample_procfs [] 1; CTick 2].
Definition sample_edge_event : ConnectionEvent :=
  mkEvent (Addr4 x0a x00 x00 x05) (Addr4 x0a x00 x00 x09) 40000 8080 6 4242 "curl" true "" "".

Lemma sample_start_eq : startCollector sample_flags true = Some sample_start.
Proof. vm_compute. reflexivity. Qed.

Lemma collector_never_stuck_witness :
  exists c', crun (ROF:=canonical_order) (ROE:=canonical_order) (DP:=sample_dns_parser)
      sample_run sample_start = Done c' /\
    counter_total (Events (cm c')) = 3%N /\ (Events (cm c'))⟦resultAccepted⟧ = 1%N.
Proof.
  destruct (collector_never_stuck (ROF:=canonical_order) (ROE:=canonical_order)
    (DP:=sample_dns_parser) sample_flags true sample_start sample_run sample_start_eq)
    as (c' & Hrun & Htot & Hacc & _).
  exists c'. split; [exact Hrun|]. split; [exact Htot|]. rewrite Hacc. vm_compute. reflexivity.
Defined.

Lemma events_reach_their_edges_witness :
  exists c', crun (ROF:=canonical_order) (ROE:=canonical_order) (DP:=sample_dns_parser)
      sample_run sample_start = Done c' /\
    exists rounds batches cur,
      [(sample_edge_event, 0)] = concat rounds ++ cur /\
      concat batches = rounds ≫= round_records (ROF:=canonical_order).
Proof.
  destruct (crun (ROF:=canonical_order) (ROE:=canonical_order) (DP:=sample_dns_parser)
    sample_run sample_start) as [c'| |] eqn:Hrun; [|by vm_compute in Hrun..].
  exists c'. split; [reflexivity|].
  destruct (events_reach_their_edges (ROF:=canonical_order) (ROE:=canonical_order)
    (DP:=sample_dns_parser) (T:=Cache) sample_flags true sample_start sample_run c'
    sample_start_eq Hrun) as (rounds & bs & cur & Hobs & _ & Hcat & _).
  exists rounds, bs, cur. split; [|exact Hcat]. rewrite <-Hobs. vm_compute. reflexivity.
Defined.
