(* ===== verification/Flushing.v ===== *)
(** * Flushing: the two flushers of a collector (internal/collector/collector.go, flush)

    [flush] runs in two goroutines: that of [Run], when [Add] reports a full
    aggregator, and that of [flushLoop], on a tick.  Collector.v and System.v take
    a flush as one step; here it is the operations it is made of, each under its
    own lock or channel: [Add], [Drain], and the selects of [Enqueue], among the
    sender's own steps.  The sender's part of a run is a run of Sender.v
    ([flushing_is_sending]). *)

From AAC_tactics Require Import AAC.
From AAC_tactics Require Instances.
From S2P Require Import Prelude Golang Netip Model Decode DnsCache Wire Aggregator Sender Collector System.
Import Instances.Lists.
Open Scope string_scope.
Open Scope list_scope.
Open Scope Z_scope.

(** [aac_reflexivity] modulo reordering of lists. *)
#[local] Instance permutation_lift {A} : AAC_lift (@Permutation A) (@Permutation A) := Build_AAC_lift _ _.

Inductive flusher := ByEvent | ByTick.
#[export] Instance flusher_eq_dec : EqDecision flusher.
Proof. solve_decision. Defined.

(** Where a goroutine is in [flush]: outside, before [Drain], at the head of the
    loop, or in [Enqueue] with the records it holds back. *)
Inductive flush_pc :=
| NotFlushing
| ToDrain
| Slicing (records : list FlowRecord)
| Enqueuing (records : list FlowRecord).
Definition holds (p : flush_pc) : list FlowRecord :=
  match p with Slicing rs | Enqueuing rs => rs | NotFlushing | ToDrain => [] end.

Section flushing.
Context {RO : RangeOrder flowKey flow} (MaxBatch : Z).

(** [fx_calls] are the [Enqueue] calls in progress, in the order they began;
    [fx_rounds] and [fx_cur] are ghosts: the observations drained together, and
    those since the last [Drain]. *)
Record flushing := mkFlushing {
  fx_agg : Aggregator;
  fx_at : flusher -> flush_pc;
  fx_calls : list (flusher * (batch * pc));
  fx_sender : Sender;
  fx_phase : phase;
  fx_done : bool;
  fx_pushed : list batch;
  fx_delivered : list batch;
  fx_rounds : list (list observation);
  fx_cur : list observation
}.
Definition NewFlushing (s : Sender) : flushing :=
  mkFlushing NewAggregator (fun _ => NotFlushing) [] s Idle false [] [] [] [].

Definition go (w : flusher) (p : flush_pc) (f : flusher -> flush_pc) : flusher -> flush_pc :=
  fun w' => if decide (w' = w) then p else f w'.

(** [min(len(records), c.cfg.MaxBatch)]. *)
Definition slice_len (records : list FlowRecord) : nat :=
  Z.to_nat (Z.min (Z.of_nat (length records)) MaxBatch).

Inductive xstep : flushing -> flushing -> Prop :=
(* handle: the event is added, and the aggregator flushed when it is full *)
| x_add a f cs s ph d pu de rs cur ev now :
    f ByEvent = NotFlushing ->
    xstep (mkFlushing a f cs s ph d pu de rs cur)
      (let '(n, a') := Add ev now a in
       mkFlushing a' (go ByEvent (if MaxBatch <=? Z.of_nat n then ToDrain else NotFlushing) f)
         cs s ph d pu de rs (cur ++ [(ev, now)]))
| x_tick a f cs s ph d pu de rs cur :
    f ByTick = NotFlushing ->
    xstep (mkFlushing a f cs s ph d pu de rs cur) (mkFlushing a (go ByTick ToDrain f) cs s ph d pu de rs cur)
(* flush *)
| x_drain a f cs s ph d pu de rs cur w :
    f w = ToDrain ->
    xstep (mkFlushing a f cs s ph d pu de rs cur)
      (mkFlushing (Drain a).2 (go w (Slicing (Drain a).1) f) cs s ph d pu de (rs ++ [cur]) [])
| x_slice a f cs s ph d pu de rs cur w records :
    f w = Slicing records -> records <> [] ->
    xstep (mkFlushing a f cs s ph d pu de rs cur)
      (mkFlushing a (go w (Enqueuing (drop (slice_len records) records)) f)
         (cs ++ [(w, (take (slice_len records) records, AtSend))]) s ph d pu de rs cur)
| x_return a f cs s ph d pu de rs cur w :
    f w = Slicing [] ->
    xstep (mkFlushing a f cs s ph d pu de rs cur) (mkFlushing a (go w NotFlushing f) cs s ph d pu de rs cur)
(* Enqueue *)
| x_push a f cs1 cs2 s s' ph d pu de rs cur w b rest :
    f w = Enqueuing rest -> try_send b s = Some s' ->
    xstep (mkFlushing a f (cs1 ++ (w, (b, AtSend)) :: cs2) s ph d pu de rs cur)
      (mkFlushing a (go w (Slicing rest) f) (cs1 ++ cs2) s' ph d (pu ++ [b]) de rs cur)
| x_full a f cs1 cs2 s ph d pu de rs cur w b :
    try_send b s = None ->
    xstep (mkFlushing a f (cs1 ++ (w, (b, AtSend)) :: cs2) s ph d pu de rs cur)
      (mkFlushing a f (cs1 ++ (w, (b, AtEvict)) :: cs2) s ph d pu de rs cur)
| x_evict a f cs1 cs2 s ph d pu de rs cur w b :
    xstep (mkFlushing a f (cs1 ++ (w, (b, AtEvict)) :: cs2) s ph d pu de rs cur)
      (mkFlushing a f (cs1 ++ (w, (b, AtSend)) :: cs2) (evict s) ph d pu de rs cur)
(* the delivery loop and cancellation *)
| x_deliver a f cs s s' ph ph' d d' pu de de' rs cur :
    sys_step (mkSystem s ph [] d pu de) (mkSystem s' ph' [] d' pu de') ->
    xstep (mkFlushing a f cs s ph d pu de rs cur) (mkFlushing a f cs s' ph' d' pu de' rs cur).

Definition xreachable (s : Sender) : flushing -> Prop := reachable (fun x => x = NewFlushing s) xstep.

Lemma then_step s x y : xreachable s x -> xstep x y -> xreachable s y.
Proof. apply reach_step. Qed.

(** ** The sender's part *)

Definition system_of (x : flushing) : system :=
  mkSystem (fx_sender x) (fx_phase x) (snd <$> fx_calls x) (fx_done x) (fx_pushed x) (fx_delivered x).

(** The callers do not matter to a step of the delivery loop. *)
Lemma deliver_callers s s' ph ph' d d' pu de de' cs :
  sys_step (mkSystem s ph [] d pu de) (mkSystem s' ph' [] d' pu de') ->
  sys_step (mkSystem s ph cs d pu de) (mkSystem s' ph' cs d' pu de').
Proof.
  intros Hs. inv Hs; try (by destruct cs1); try (by destruct cs0); try by constructor.
  all: try (by econstructor).
Qed.

Lemma slice_len_pos records : 0 < MaxBatch -> records <> [] -> (0 < slice_len records)%nat.
Proof. intros Hm Hr. unfold slice_len. destruct records; [done|]. cbn [length]. lia. Qed.

Lemma take_slice_nonempty records : 0 < MaxBatch -> records <> [] -> take (slice_len records) records <> [].
Proof.
  intros Hm Hr. pose proof (slice_len_pos records Hm Hr). destruct records; [done|]. by destruct (slice_len _); [lia|].
Qed.

Lemma xstep_sends x y : 0 < MaxBatch -> xstep x y -> system_of y = system_of x \/ sys_step (system_of x) (system_of y).
Proof.
  intros Hm Hs. destruct Hs; unfold system_of; try destruct (Add _ _ _);
    cbn [fx_sender fx_phase fx_calls fx_done fx_pushed fx_delivered];
    rewrite ?fmap_app, ?fmap_cons; cbn [snd]; try (by left).
  - right. apply step_call. by apply take_slice_nonempty.
  - right. by apply step_push.
  - right. by apply step_full.
  - right. apply step_evict.
  - right. by apply deliver_callers.
Qed.

Lemma flushing_is_sending nd cap tmo x :
  0 < MaxBatch -> xreachable (NewSender nd cap tmo) x -> sys_reachable nd cap tmo (system_of x).
Proof.
  intros Hm. revert x. apply (reachable_invariant _ _ (fun x => sys_reachable nd cap tmo (system_of x))).
  - intros ? ->. by apply reach_init.
  - intros x y Hx Hs. destruct (xstep_sends x y Hm Hs) as [->|Hy]; [done|]. by eapply reach_step.
Qed.

(** ** Conservation *)

(** The records of the [Enqueue] calls in progress and those the flushers hold
    back. *)
Definition on_the_way (x : flushing) : list FlowRecord :=
  (fx_calls x ≫= (fun c => c.2.1)) ++ holds (fx_at x ByEvent) ++ holds (fx_at x ByTick).

Definition sized (b : batch) : Prop := 0 < Z.of_nat (length b) <= MaxBatch.

Definition conserved (x : flushing) : Prop :=
  fx_agg x = add_all (fx_cur x) NewAggregator /\
  (fx_rounds x ≫= round_records) ≡ₚ concat (fx_pushed x) ++ on_the_way x /\
  Forall sized (fx_pushed x) /\ Forall (fun c => sized c.2.1) (fx_calls x) /\
  Z.of_nat (size (flows (fx_agg x))) <= MaxBatch /\
  (fx_at x ByEvent <> ToDrain -> Z.of_nat (size (flows (fx_agg x))) < MaxBatch).

Lemma go_eq w p f : go w p f w = p.
Proof. unfold go. by rewrite decide_True. Qed.
Lemma go_ne w w' p f : w' <> w -> go w p f w' = f w'.
Proof. intros. unfold go. by rewrite decide_False. Qed.

Lemma go_draining w p f : f w <> ToDrain -> go w p f ByEvent <> ToDrain -> f ByEvent <> ToDrain.
Proof. intros Hw. destruct w; [done|]. by rewrite go_ne. Qed.

(** What the flushers hold back, with [w]'s part in front. *)
Definition other (w : flusher) : flusher := match w with ByEvent => ByTick | ByTick => ByEvent end.
Lemma holds_split (f : flusher -> flush_pc) w :
  holds (f ByEvent) ++ holds (f ByTick) ≡ₚ holds (f w) ++ holds (f (other w)).
Proof. destruct w; [done|apply Permutation_app_comm]. Qed.
Lemma holds_go f w p :
  holds (go w p f ByEvent) ++ holds (go w p f ByTick) ≡ₚ holds p ++ holds (f (other w)).
Proof. rewrite (holds_split (go w p f) w), go_eq. by rewrite go_ne by (by destruct w). Qed.

Lemma take_slice_sized records : 0 < MaxBatch -> records <> [] -> sized (take (slice_len records) records).
Proof.
  intros Hm Hr. pose proof (slice_len_pos records Hm Hr). unfold sized. rewrite length_take.
  unfold slice_len in *. destruct records; [done|]. cbn [length] in *. lia.
Qed.

Lemma Add_size ev now a :
  let '(n, a') := Add ev now a in n = size (flows a') /\ (n <= S (size (flows a)))%nat.
Proof.
  unfold Add. cbn [flows]. split; [done|]. rewrite map_size_insert.
  destruct (flows a !! event_key ev); cbn; lia.
Qed.

Lemma round_drained cur : (Drain (add_all cur NewAggregator)).1 = round_records cur.
Proof. done. Qed.

Lemma conserved_step x y : 0 < MaxBatch -> xstep x y -> conserved x -> conserved y.
Proof.
  intros Hm Hs (Hagg & Hrec & Hpu & Hcs & Hsz & Hlt).
  destruct Hs; unfold conserved, on_the_way in *; try pose proof (Add_size ev now a) as Hadd;
    try pose proof (add_all_snoc cur ev now NewAggregator) as Hall; try destruct (Add ev now a) as [n a'] eqn:Ha;
    cbn [fx_agg fx_at fx_calls fx_sender fx_phase fx_done fx_pushed fx_delivered fx_rounds fx_cur] in *.
  - rewrite <-Hagg, Ha in Hall. cbn [snd] in Hall. subst a'.
    destruct Hadd as [-> Hn]. specialize (Hlt ltac:(congruence)). rewrite holds_go, go_eq.
    rewrite H in Hrec. destruct (Z.leb_spec MaxBatch
      (Z.of_nat (size (flows (add_all (cur ++ [(ev, now)]) NewAggregator))))); split_and!; done || lia.
  - rewrite holds_go, go_ne by done. rewrite (holds_split f ByTick), H in Hrec. by split_and!.
  - rewrite (holds_split f w), H in Hrec. rewrite holds_go, bind_app, bind_singleton, Hrec, Hagg, round_drained.
    split_and!; try done; [cbn [holds]; aac_reflexivity|by apply Z.lt_le_incl].
  - rewrite (holds_split f w), H in Hrec. rewrite holds_go, bind_app, bind_singleton, Hrec.
    cbn [holds snd fst]. rewrite <-(take_drop (slice_len records) records) at 1.
    split_and!; try done; [aac_reflexivity|..].
    + rewrite Forall_app, Forall_singleton. split; [done|]. by apply take_slice_sized.
    + intros Hg; apply Hlt; revert Hg; apply go_draining; congruence.
  - rewrite (holds_split f w), H in Hrec. rewrite holds_go. split_and!; try done.
    intros Hg; apply Hlt; revert Hg; apply go_draining; congruence.
  - rewrite (holds_split f w), H in Hrec. rewrite holds_go, concat_app, Hrec, !bind_app, bind_cons.
    cbn [holds snd fst concat]. apply Forall_app in Hcs as [Hc1 [Hb Hc2]%Forall_cons].
    split_and!; try done; [aac_reflexivity|..].
    + by rewrite Forall_app, Forall_singleton.
    + by apply Forall_app.
    + intros Hg; apply Hlt; revert Hg; apply go_draining; congruence.
  - rewrite bind_app, bind_cons in *. rewrite Forall_app, Forall_cons in *. cbn [fst snd] in *. split_and!; try done; by apply Hcs.
  - rewrite bind_app, bind_cons in *. rewrite Forall_app, Forall_cons in *. cbn [fst snd] in *. split_and!; try done; by apply Hcs.
  - by split_and!.
Qed.

Lemma conserved_reachable s x : 0 < MaxBatch -> xreachable s x -> conserved x.
Proof.
  intros Hm. revert x. apply (reachable_invariant _ _ conserved).
  - intros ? ->. split_and!; try done; by apply Z.lt_le_incl.
  - intros x y Hx Hs. by eapply conserved_step.
Qed.

(** Every flushed record is in one place: delivered, dropped, queued, being
    sent, or still with a flusher. *)
Definition settled (x : flushing) : Z :=
  RecordsSent (sm (fx_sender x)) + RecordsDropped (sm (fx_sender x)) +
  Z.of_nat (total_length (queue (fx_sender x))) + Z.of_nat (total_length (in_flight (fx_phase x))).

Lemma settled_pushed nd cap tmo x :
  0 < MaxBatch -> xreachable (NewSender nd cap tmo) x -> settled x = Z.of_nat (length (concat (fx_pushed x))).
Proof.
  intros Hm Hx. apply (flushing_is_sending _ _ _ _ Hm) in Hx.
  assert (accounted cap (system_of x)) as (_ & _ & Ha & _).
  { revert Hx. apply sys_reachable_inv; [|apply accounted_step]. split_and!; cbn; lia || done. }
  rewrite <-total_length_concat. symmetry. exact Ha.
Qed.

(** C15: the two flushers of a collector, the goroutine of [Run] when the aggregator
    is full and that of [flushLoop] on a tick, may drain, slice and enqueue at
    the same time, operation by operation, with the delivery loop between any two
    of them: nothing is lost or sent twice.  The aggregator holds exactly the
    observations since the last drain, never more than [MaxBatch] flows; the
    records of all drains are, up to order, those pushed on the queue, those of
    the [Enqueue] calls in progress and those the flushers still hold; every
    batch has between 1 and [MaxBatch] records; and the counters of the sender
    account for each of them. *)
Theorem flushers_conserve nd cap tmo x
    (Hm : 0 < MaxBatch) (Hx : xreachable (NewSender nd cap tmo) x) :
  fx_agg x = add_all (fx_cur x) NewAggregator /\
  (fx_rounds x ≫= round_records) ≡ₚ concat (fx_pushed x) ++ on_the_way x /\
  Forall sized (fx_pushed x) /\
  Z.of_nat (length (fx_rounds x ≫= round_records)) = settled x + Z.of_nat (length (on_the_way x)) /\
  Z.of_nat (size (flows (fx_agg x))) <= MaxBatch.
Proof.
  destruct (conserved_reachable _ _ Hm Hx) as (Hagg & Hrec & Hpu & _ & Hsz & _).
  split_and!; [done..| |done]. by rewrite (settled_pushed _ _ _ _ Hm Hx), Hrec, length_app, Nat2Z.inj_add.
Qed.

(** ** A flush that is not interrupted *)

(** [f'] differs from [f] only at [w], where it is [p]. *)
Definition moved (w : flusher) (p : flush_pc) (f f' : flusher -> flush_pc) : Prop :=
  f' w = p /\ f' (other w) = f (other w).
Lemma go_moved w p f : moved w p f (go w p f).
Proof. split; [apply go_eq|]. apply go_ne. by destruct w. Qed.
Lemma moved_trans w p q f f' f'' : moved w p f f' -> moved w q f' f'' -> moved w q f f''.
Proof. intros [_ H1] [H2 H3]. split; congruence. Qed.

Lemma enqueue_alone a cs ph d de rs cur w b rest fuel : forall s s' f pu,
  enqueue_loop fuel b s = Some s' -> f w = Enqueuing rest ->
  exists f', moved w (Slicing rest) f f' /\
    rtc xstep (mkFlushing a f (cs ++ [(w, (b, AtSend))]) s ph d pu de rs cur)
      (mkFlushing a f' cs s' ph d (pu ++ [b]) de rs cur).
Proof.
  induction fuel as [|fuel IH]; intros s s' f pu He Hf; [done|]. cbn [enqueue_loop] in He.
  destruct (try_send b s) as [s1|] eqn:Ht.
  - injection He as ->. exists (go w (Slicing rest) f). split; [apply go_moved|]. apply rtc_once.
    pose proof (x_push a f cs [] s s' ph d pu de rs cur w b rest Hf Ht) as Hp. by rewrite app_nil_r in Hp.
  - destruct (IH _ _ _ pu He Hf) as (f' & Hm & Hr). exists f'. split; [done|].
    eapply rtc_l; [by apply (x_full a f cs [] s)|]. eapply rtc_l; [by apply (x_evict a f cs [] s)|]. done.
Qed.

Lemma slices_alone a cs ph d de rs cur w fuel : 0 < MaxBatch -> forall records c c' f pu,
  MaxBatch = Collector.MaxBatch (cfg c) -> flush_loop fuel records c = Done c' -> f w = Slicing records ->
  exists f' pu', moved w NotFlushing f f' /\ agg c' = agg c /\
    rtc xstep (mkFlushing a f cs (sender c) ph d pu de rs cur)
      (mkFlushing a f' cs (sender c') ph d pu' de rs cur).
Proof.
  intros Hm. induction fuel as [|fuel IH]; intros records c c' f pu Hmax Hl Hf; [done|].
  destruct (decide (records = [])) as [->|Hne].
  { injection Hl as <-. exists (go w NotFlushing f), pu. split; [apply go_moved|].
    split; [done|]. apply rtc_once. by apply x_return. }
  cbn [flush_loop] in Hl. destruct records as [|r records]; [done|].
  rewrite <-Hmax in Hl. rewrite (proj2 (Z.ltb_ge _ _)) in Hl by lia.
  fold (slice_len (r :: records)) in Hl.
  set (b := take (slice_len (r :: records)) (r :: records)) in *.
  destruct (Enqueue b (sender c)) as [s1|] eqn:He; [|done].
  unfold Enqueue in He. rewrite decide_False in He by (by apply take_slice_nonempty).
  destruct (enqueue_alone a cs ph d de rs cur w b (drop (slice_len (r :: records)) (r :: records)) _
    _ _ (go w (Enqueuing (drop (slice_len (r :: records)) (r :: records))) f) pu He (go_eq _ _ _))
    as (f1 & Hm1 & Hr1).
  destruct (IH _ (set_sender s1 c) _ f1 (pu ++ [b]) Hmax Hl (proj1 Hm1)) as (f' & pu' & Hm' & Ha & Hr').
  exists f', pu'. split; [by eapply moved_trans; [eapply moved_trans; [apply go_moved|]|]|].
  split; [exact Ha|].
  eapply rtc_l; [by apply (x_slice a f cs (sender c) ph d pu de rs cur w (r :: records))|].
  etrans; [exact Hr1|exact Hr'].
Qed.

(** The [flush] of Collector.v is one of these runs: that in which nothing else
    takes a step between the drain and the return. *)
Lemma flush_alone cs ph d de rs cur w c c' f pu :
  0 < MaxBatch -> MaxBatch = Collector.MaxBatch (cfg c) -> flush c = Done c' -> f w = ToDrain ->
  exists f' pu', moved w NotFlushing f f' /\
    rtc xstep (mkFlushing (agg c) f cs (sender c) ph d pu de rs cur)
      (mkFlushing (agg c') f' cs (sender c') ph d pu' de (rs ++ [cur]) []).
Proof.
  intros Hm Hmax Hfl Hf. unfold flush in Hfl. destruct (Drain (agg c)) as [records a'] eqn:Hd.
  destruct (slices_alone a' cs ph d de (rs ++ [cur]) [] w _ Hm records (set_agg a' c) c'
    (go w (Slicing records) f) pu Hmax Hfl (go_eq _ _ _)) as (f' & pu' & Hm' & -> & Hr).
  exists f', pu'. split; [by eapply moved_trans; [apply go_moved|]|].
  eapply rtc_l; [by apply x_drain|]. by rewrite Hd.
Qed.
End flushing.

(** The tick drains the flow the event was to drain, a second event fills the
    aggregator again, and the two flushers meet at a queue of one. *)
Definition sample_sender : Sender := NewSender "n1" 1 0.
Definition both_flush (x : flushing) : Prop :=
  xreachable (RO:=canonical_order) 1 sample_sender x /\ length (fx_rounds x) = 3%nat /\
  length (fx_pushed x) = 2%nat /\ RecordsDropped (sm (fx_sender x)) = 1.

Lemma sample_both_flush : exists x, both_flush x.
Proof.
  pose proof (reach_init _ (xstep (RO:=canonical_order) 1) _ eq_refl : xreachable (RO:=canonical_order) 1 sample_sender _) as H.
  eapply then_step in H; [|by apply (x_add 1 _ _ _ _ _ _ _ _ _ _ (sample_event 40000 80) 1)].
  eapply then_step in H; [|by apply x_tick].
  eapply then_step in H; [|by apply (x_drain 1 _ _ _ _ _ _ _ _ _ _ ByTick)].
  eapply then_step in H; [|by apply (x_drain 1 _ _ _ _ _ _ _ _ _ _ ByEvent)].
  eapply then_step in H; [|by apply (x_return 1 _ _ _ _ _ _ _ _ _ _ ByEvent)].
  eapply then_step in H; [|by apply (x_add 1 _ _ _ _ _ _ _ _ _ _ (sample_event 40001 443) 2)].
  eapply then_step in H; [|by apply (x_drain 1 _ _ _ _ _ _ _ _ _ _ ByEvent)].
  eapply then_step in H; [|eapply (x_slice 1 _ _ _ _ _ _ _ _ _ _ ByTick); [reflexivity|by vm_compute]].
  eapply then_step in H; [|eapply (x_slice 1 _ _ _ _ _ _ _ _ _ _ ByEvent); [reflexivity|by vm_compute]].
  eapply then_step in H; [|eapply (x_push 1 _ _ [_] []); reflexivity].
  eapply then_step in H; [|by apply (x_full 1 _ _ [] [])].
  eapply then_step in H; [|by apply (x_evict 1 _ _ [] [])].
  eapply then_step in H; [|eapply (x_push 1 _ _ [] []); reflexivity].
  eexists. split; [exact H|]. by vm_compute.
Qed.

Lemma flushers_conserve_witness :
  exists x, both_flush x /\
    Z.of_nat (length (fx_rounds x ≫= round_records (ROF:=canonical_order))) = settled x + Z.of_nat (length (on_the_way x)).
Proof.
  destruct sample_both_flush as [x Hx]. exists x. split; [exact Hx|].
  apply (flushers_conserve (RO:=canonical_order) 1 "n1" 1 0 x ltac:(lia) (proj1 Hx)).
Defined.
