(* ===== verification/Node.v ===== *)
(** * Node: the collector process (cmd/sniffer/collector_linux.go)

    [runCollector] checks its flags, builds the sender, loads the probe, tries DNS
    capture and starts five goroutines in an errgroup, with [flushLoop] beside
    them.  [dstep] interleaves them all: a read and the handling of what it
    returned, a flush tick, one select or Report call of the delivery loop, the
    telemetry server, the goroutine that closes the loader, and the exit.  The
    first error of the group cancels its context and is what the process ends
    with.  [sender_of] projects a process onto the sender's own step relation,
    whose theorems then speak of the whole process. *)

From S2P Require Import Prelude Golang Netip Model Decode DnsCache Wire Aggregator Sender Cgroup.
From S2P Require Import Telemetry Main Loader Collector Resolver Enrich Processor System.
Open Scope string_scope.
Open Scope list_scope.
Open Scope Z_scope.

(** ** What a flush hands to the sender *)

(** The slices [flush] takes of the drained records. *)
Fixpoint cut (fuel : nat) (n : nat) (records : list FlowRecord) : list batch :=
  match fuel with
  | O => []
  | S fuel =>
      match records with
      | [] => []
      | _ => take n records :: cut fuel n (drop n records)
      end
  end.

Fixpoint enqueue_all (bs : list batch) (s : Sender) : option Sender :=
  match bs with
  | [] => Some s
  | b :: bs => match Enqueue b s with Some s => enqueue_all bs s | None => None end
  end.

Section node.
Context {K E : Type} `{BpfLib K E}.
Context {ROF : RangeOrder flowKey flow} {ROE : RangeOrder Addr entry} {DP : DNSParser}.

Definition batches_of (c : Collector) : list batch :=
  let records := (Drain (agg c)).1 in
  cut (S (length records)) (Z.to_nat (MaxBatch (cfg c))) records.

(** The state in which [handle] decides whether to flush, and the decision. *)
Definition after_add (fs : string -> option string) (ev : ConnectionEvent) (now : Time) (c : Collector)
    : nat * Collector :=
  let '(ev, c) := attach fs (Canonical ev) now c in
  let '(n, a) := Aggregator.Add ev now (agg c) in
  (n, set_agg a c).
Definition flushes (o : cop) (c : Collector) : option Collector :=
  match o with
  | CEvent fs raw now =>
      match Decode (P:=Empty_set) raw with
      | Ok ev =>
          if node_local ev then None
          else let '(n, c) := after_add fs ev now c in
               if MaxBatch (cfg c) <=? Z.of_nat n then Some c else None
      | Err _ => None
      end
  | CTick _ => Some c
  | _ => None
  end.
Definition pushes (o : cop) (c : Collector) : list batch :=
  match flushes o c with Some c => batches_of c | None => [] end.

(** ** The process *)

Inductive goroutine := GServe | GSend | GClose | GRun | GDNS | GFlush.
#[export] Instance goroutine_eq_dec : EqDecision goroutine.
Proof. solve_decision. Defined.
(** Those [g.Wait] waits for. *)
Definition group : list goroutine := [GServe; GSend; GClose; GRun; GDNS].

Inductive group_error :=
| Canceled
| ServeFailed (e : E)
| CloseFailed (es : list E).

(** [signalled], [seen], [pushed] and [delivered] are ghosts: whether a signal came,
    the accepted observations, the batches put on the queue and those a Report
    call took. *)
Record daemon := mkDaemon {
  coll : Collector;
  sending : phase;
  ctx_done : bool;
  kern : K;
  running : goroutine -> bool;
  group_err : option group_error;
  exit_code : option Z;
  signalled : bool;
  seen : list observation;
  pushed : list batch;
  delivered : list batch
}.

Definition set_coll (c : Collector) (x : daemon) : daemon :=
  mkDaemon c (sending x) (ctx_done x) (kern x) (running x) (group_err x) (exit_code x) (signalled x)
    (seen x) (pushed x) (delivered x).
Definition set_kern (k : K) (x : daemon) : daemon :=
  mkDaemon (coll x) (sending x) (ctx_done x) k (running x) (group_err x) (exit_code x) (signalled x)
    (seen x) (pushed x) (delivered x).
Definition set_delivery (s : Sender) (ph : phase) (de : list batch) (x : daemon) : daemon :=
  mkDaemon (set_sender s (coll x)) ph (ctx_done x) (kern x) (running x) (group_err x) (exit_code x)
    (signalled x) (seen x) (pushed x) de.
Definition signal (x : daemon) : daemon :=
  mkDaemon (coll x) (sending x) true (kern x) (running x) (group_err x) (exit_code x) true
    (seen x) (pushed x) (delivered x).
(** A goroutine returns; the group keeps its first error and cancels on it. *)
Definition returns (g : goroutine) (err : option group_error) (x : daemon) : daemon :=
  mkDaemon (coll x) (sending x) (ctx_done x || bool_decide (is_Some err)) (kern x)
    (fun g' => if decide (g' = g) then false else running x g')
    (match group_err x with None => err | Some e => Some e end) (exit_code x) (signalled x)
    (seen x) (pushed x) (delivered x).
(** The work of one step, with what it adds to the books. *)
Definition work (o : cop) (c : Collector) (k : K) (x : daemon) : daemon :=
  mkDaemon c (sending x) (ctx_done x) k (running x) (group_err x) (exit_code x) (signalled x)
    (seen x ++ observes o (coll x)) (pushed x ++ pushes o (coll x)) (delivered x).
Definition exit_with (code : Z) (k : K) (x : daemon) : daemon :=
  mkDaemon (coll x) (sending x) (ctx_done x) k (running x) (group_err x) (Some code) (signalled x)
    (seen x) (pushed x) (delivered x).

(** ** Start *)

Inductive start_error := BadFlags | DialFailed (e : E) | LoaderFailed (e : LoaderError (E:=E)).

Definition spawn (c : Collector) (k : K) : daemon :=
  mkDaemon c Idle false k (fun _ => true) None None false [] [] [].

(** [dial] is the error of [grpc.NewClient], if any. *)
Definition runCollector (f : CollectorFlags) (cgroupPath : string) (dial : option E) (k : K)
    : result start_error (Loader * daemon) * K :=
  if flags_rejected f then (Err BadFlags, k)
  else match dial with
  | Some e => (Err (DialFailed e), k)
  | None =>
  match Loader.New k with
  | (Err e, k) => (Err (LoaderFailed e), k)
  | (Ok l, k) =>
  let '(attached, l, k) :=
    if fl_dnsNames f then
      let '(err, l, k) := AttachDNS cgroupPath l k in (bool_decide (err = None), l, k)
    else (false, l, k) in
  match startCollector f attached with
  | Some c => (Ok (l, spawn c k), k)
  | None => (Err BadFlags, k)
  end end end.

(** ** Steps *)

Context (l : Loader (K:=K) (E:=E)).

Definition live (x : daemon) (g : goroutine) : bool :=
  running x g && bool_decide (exit_code x = None).
Definition ctx_err (x : daemon) : option group_error := if ctx_done x then Some Canceled else None.
Definition ended (x : daemon) : bool := forallb (fun g => negb (running x g)) group.
(** The exit code of [main] after [runCollector] returned this error. *)
Definition is_canceled (e : group_error) : bool :=
  match e with Canceled => true | _ => false end.
Definition code_of (err : option group_error) : Z := exit_status is_canceled err.

(** Which goroutine does the work, on what its source returned. *)
Definition enabled (x : daemon) (o : cop) (k : K) : Prop :=
  match o with
  | CEvent _ raw _ => live x GRun = true /\ Loader.Read l (kern x) = Some (Ok raw, k)
  | CEventError =>
      live x GRun = true /\ exists e, Loader.Read l (kern x) = Some (Err (ErrReadRingbuf e), k)
  | CDNS raw _ => live x GDNS = true /\ is_Some (dns (coll x)) /\ ReadDNS l (kern x) = (Ok raw, k)
  | CTick _ => live x GFlush = true /\ k = kern x
  end.

Inductive dstep : daemon -> daemon -> Prop :=
| d_work x o c k :
    enabled x o k -> cstep o (coll x) = Done c -> dstep x (work o c k x)
| d_dns_failed x e k :
    live x GDNS = true -> is_Some (dns (coll x)) ->
    ReadDNS l (kern x) = (Err (ErrReadRingbuf e), k) ->
    dstep x (set_coll (count_dns resultReadError (coll x)) (set_kern k x))
(* sender.Run *)
| d_recv x b s :
    live x GSend = true -> sending x = Idle -> dequeue (sender (coll x)) = Some (b, s) ->
    dstep x (set_delivery s (Sending b minBackoff) (delivered x) x)
| d_report x b backoff err v s :
    live x GSend = true -> sending x = Sending b backoff ->
    send_attempt err (ctx_done x) b (sender (coll x)) = (v, s) ->
    dstep x (set_delivery s (after v b backoff)
      (match v with Delivered => delivered x ++ [b] | _ => delivered x end) x)
| d_wake x b backoff :
    live x GSend = true -> sending x = Sleeping b backoff ->
    dstep x (set_delivery (sender (coll x)) (Sending b (next_backoff backoff)) (delivered x) x)
| d_stop_idle x :
    live x GSend = true -> sending x = Idle -> ctx_done x = true ->
    dstep x (set_delivery (sender (coll x)) (Stopped None) (delivered x) x)
| d_stop_sleeping x b backoff :
    live x GSend = true -> sending x = Sleeping b backoff -> ctx_done x = true ->
    dstep x (set_delivery (sender (coll x)) (Stopped (Some b)) (delivered x) x)
| d_send_return x b :
    live x GSend = true -> sending x = Stopped b -> dstep x (returns GSend (ctx_err x) x)
(* the other goroutines *)
| d_signal x : dstep x (signal x)
| d_serve_failed x e :
    live x GServe = true ->
    dstep x (returns GServe (Serve ServeFailed (ctx_err x) (ListenFailed e)) x)
| d_serve_return x :
    live x GServe = true -> ctx_done x = true ->
    dstep x (returns GServe (Serve ServeFailed (ctx_err x) ErrServerClosed) x)
| d_close x errs k :
    live x GClose = true -> ctx_done x = true -> Loader.Close l (kern x) = (errs, k) ->
    dstep x (returns GClose (CloseFailed <$> errs) (set_kern k x))
| d_run_return x k :
    live x GRun = true -> Loader.Read l (kern x) = Some (Err ErrClosed, k) ->
    dstep x (returns GRun (ctx_err x) (set_kern k x))
| d_dns_disabled x : live x GDNS = true -> dns (coll x) = None -> dstep x (returns GDNS None x)
| d_dns_return x k :
    live x GDNS = true -> is_Some (dns (coll x)) -> ReadDNS l (kern x) = (Err ErrClosed, k) ->
    dstep x (returns GDNS (ctx_err x) (set_kern k x))
| d_flush_return x : live x GFlush = true -> ctx_done x = true -> dstep x (returns GFlush None x)
(* g.Wait, the deferred Close and main *)
| d_exit x errs k :
    ended x = true -> exit_code x = None -> Loader.Close l (kern x) = (errs, k) ->
    dstep x (exit_with (code_of (group_err x)) k x).
End node.

(** ** Lemmas: flushing *)

Lemma cut_spec n fuel : forall records,
  (0 < n)%nat -> (length records <= fuel)%nat ->
  concat (cut fuel n records) = records /\
  Forall (fun b => (0 < length b <= n)%nat) (cut fuel n records).
Proof.
  induction fuel as [|fuel IH]; intros records Hn Hl; [by destruct records; [|simpl in Hl; lia]|].
  destruct records as [|r rs]; [done|].
  destruct (IH (drop n (r :: rs)) Hn) as [Hc Hf]; [rewrite length_drop; simpl in *; lia|].
  cbn [cut concat]. split; [rewrite Hc; apply take_drop|].
  apply Forall_cons. split; [|done]. rewrite length_take. simpl. lia.
Qed.

Lemma flush_loop_enqueues fuel : forall records c,
  0 < MaxBatch (cfg c) -> ready (sender c) -> (length records < fuel)%nat ->
  exists s', flush_loop fuel records c = Done (set_sender s' c) /\
    enqueue_all (cut fuel (Z.to_nat (MaxBatch (cfg c))) records) (sender c) = Some s' /\
    ready s' /\ queue_cap s' = queue_cap (sender c).
Proof.
  induction fuel as [|fuel IH]; intros records c Hm Hr Hf; [lia|].
  destruct records as [|r rs]; [exists (sender c); by destruct c|].
  cbn [flush_loop cut enqueue_all].
  replace (Z.min _ _ <? 0) with false by lia.
  set (m := Z.to_nat (MaxBatch (cfg c))).
  assert (forall g : nat -> list FlowRecord -> list FlowRecord,
    g = take \/ g = drop ->
    g (Z.to_nat (Z.min (Z.of_nat (length (r :: rs))) (MaxBatch (cfg c)))) (r :: rs) = g m (r :: rs)) as Hg.
  { intros g Hg. destruct (decide (m <= length (r :: rs))%nat) as [Hle|Hgt].
    - f_equal. lia.
    - replace (Z.to_nat _) with (length (r :: rs)) by lia.
      destruct Hg as [-> | ->]; [by rewrite !take_ge by lia|by rewrite !drop_ge by lia]. }
  rewrite (Hg take), (Hg drop) by auto.
  destruct (Enqueue_ready (take m (r :: rs)) (sender c) Hr) as (s1 & -> & Hr1 & Hc1 & _).
  { unfold m. destruct (Z.to_nat (MaxBatch (cfg c))) eqn:?; [lia|done]. }
  destruct (IH (drop m (r :: rs)) (set_sender s1 c)) as (s2 & H2 & He2 & Hr2 & Hc2);
    [done|done|rewrite length_drop; simpl in *; lia|].
  exists s2. split_and!; [exact H2|exact He2|exact Hr2|]. by rewrite Hc2, <- Hc1.
Qed.

Section accounts.
Context {ROF : RangeOrder flowKey flow} {ROE : RangeOrder Addr entry} {DP : DNSParser}.

Lemma flush_enqueues c :
  0 < MaxBatch (cfg c) -> ready (sender c) ->
  exists s', flush c = Done (set_sender s' (set_agg NewAggregator c)) /\
    enqueue_all (batches_of c) (sender c) = Some s' /\ ready s' /\ queue_cap s' = queue_cap (sender c) /\
    concat (batches_of c) = (Drain (agg c)).1 /\
    Forall (fun b => 0 < Z.of_nat (length b) <= MaxBatch (cfg c)) (batches_of c).
Proof.
  intros Hm Hr. set (records := (Drain (agg c)).1).
  destruct (flush_loop_enqueues (S (length records)) records (set_agg NewAggregator c))
    as (s' & Hf & He & Hr' & Hc); [done|done|lia|].
  exists s'. unfold batches_of. fold records.
  destruct (cut_spec (Z.to_nat (MaxBatch (cfg c))) (S (length records)) records) as [Hcat Hall]; [lia..|].
  split_and!; try done.
  eapply Forall_impl; [exact Hall|]. intros b Hb. cbn in Hb. lia.
Qed.

(** What one step of the collector's work does to its books. *)
Record accounts (o : cop) (cur : list observation) (c c' : Collector) : Prop := {
  ac_cfg : cfg c' = cfg c;
  ac_enqueued : enqueue_all (pushes o c) (sender c) = Some (sender c');
  ac_ready : ready (sender c');
  ac_cap : queue_cap (sender c') = queue_cap (sender c);
  ac_sizes : Forall (fun b => 0 < Z.of_nat (length b) <= MaxBatch (cfg c)) (pushes o c);
  ac_dns : is_Some (dns c') <-> is_Some (dns c);
  ac_agg : match flushes o c with
           | Some _ => agg c' = NewAggregator /\
                       concat (pushes o c) = round_records (cur ++ observes o c)
           | None => agg c' = add_all (cur ++ observes o c) NewAggregator
           end;
  ac_events : (Events (cm c'))⟦resultAccepted⟧ =
              ((Events (cm c))⟦resultAccepted⟧ + N.of_nat (length (observes o c)))%N
}.

Lemma handle_accounts fs raw now c cur :
  0 < MaxBatch (cfg c) -> ready (sender c) -> agg c = add_all cur NewAggregator ->
  exists c', handle fs raw now c = Done c' /\ accounts (CEvent fs raw now) cur c c'.
Proof.
  intros Hm Hr Hagg. unfold handle.
  destruct (Decode raw) as [ev|e] eqn:Hd.
  2: { eexists. split; [done|]. split; unfold pushes, flushes, observes; rewrite ?Hd, ?app_nil_r; try done.
       cbn [cm count_event set_cm Events]. by rewrite count_inc_ne, N.add_0_r. }
  rewrite node_local_Canonical. destruct (node_local ev) eqn:Hnl.
  { eexists. split; [done|]. split; unfold pushes, flushes, observes; rewrite ?Hd, ?Hnl, ?app_nil_r; try done.
    cbn [cm count_event set_cm Events]. by rewrite count_inc_ne, N.add_0_r. }
  pose proof (attach_frame fs (Canonical ev) now c) as Hf.
  assert (after_add fs ev now c = let '(ev', c1) := attach fs (Canonical ev) now c in
    let '(n, a) := Aggregator.Add ev' now (agg c1) in (n, set_agg a c1)) as Haa by done.
  assert (observes (CEvent fs raw now) c = [((attach fs (Canonical ev) now c).1, now)]) as Hobs
    by (cbn; by rewrite Hd, Hnl).
  destruct (attach fs (Canonical ev) now c) as [ev' c1]. cbn [fst] in Hobs.
  destruct Hf as (Hcfg & Hdns & Haggf & Hsend & Hcm).
  assert ((Aggregator.Add ev' now (agg c1)).2 = add_all (cur ++ [(ev', now)]) NewAggregator) as Hadd
    by (by rewrite Haggf, Hagg, add_all_snoc).
  cbn [agg count_event set_cm]. destruct (Aggregator.Add ev' now (agg c1)) as [n a]. cbn [snd] in Hadd.
  assert (forall c', cfg c' = cfg c1 -> sender c' = sender c1 -> agg c' = a ->
    batches_of c' = batches_of (set_agg a c1)) as Hbo by (unfold batches_of; by intros c' -> _ ->).
  assert (flushes (CEvent fs raw now) c = if MaxBatch (cfg c1) <=? Z.of_nat n then Some (set_agg a c1) else None)
    as Hfl by (cbn [flushes]; by rewrite Hd, Hnl, Haa).
  cbn [cfg set_agg count_event set_cm]. rewrite <- Hcfg in Hm.
  set (c2 := set_agg a (count_event resultAccepted c1)).
  assert ((Events (cm c2))⟦resultAccepted⟧ = ((Events (cm c))⟦resultAccepted⟧ + 1)%N) as Hev
    by (cbn; by rewrite Hcm, count_inc_eq).
  destruct (MaxBatch (cfg c1) <=? Z.of_nat n).
  - destruct (flush_enqueues c2) as (s' & -> & He & Hr' & Hcap & Hcat & Hall);
      [done|unfold c2; cbn; by rewrite Hsend|]. rewrite Hbo in He, Hcat, Hall by done.
    eexists. split; [done|]. split; rewrite ?Hobs; unfold pushes; rewrite ?Hfl; try done.
    + by rewrite <- Hsend.
    + cbn in Hcap |- *. by rewrite Hcap, Hsend.
    + rewrite <- Hcfg. exact Hall.
    + cbn. by rewrite Hdns.
    + split; [done|]. rewrite Hcat. unfold round_records. by rewrite <- Hadd.
  - eexists. split; [done|]. split; rewrite ?Hobs; unfold pushes; rewrite ?Hfl; try done.
    + cbn. by rewrite Hsend.
    + cbn. by rewrite Hsend.
    + cbn. by rewrite Hsend.
    + cbn. by rewrite Hdns.
Qed.

Lemma put_answers_dns answers now c :
  is_Some (dns (foldl (put_answer now) c answers)) <-> is_Some (dns c).
Proof.
  revert c. induction answers as [|a answers IH]; intros c; [done|]. cbn [foldl]. rewrite IH.
  unfold put_answer. destruct (dns c) as [d|] eqn:E; [|by rewrite E].
  destruct (DnsCache.Put _ _ _ _ _). cbn. split; by eexists.
Qed.

Lemma cstep_accounts o c cur :
  0 < MaxBatch (cfg c) -> ready (sender c) -> agg c = add_all cur NewAggregator ->
  exists c', cstep o c = Done c' /\ accounts o cur c c'.
Proof.
  intros Hm Hr Hagg. destruct o as [fs raw now| |raw now|now].
  - by apply handle_accounts.
  - eexists. split; [done|]. split; cbn [observes pushes flushes]; rewrite ?app_nil_r; try done.
    cbn [cm count_event set_cm Events]. by rewrite count_inc_ne, N.add_0_r.
  - eexists. split; [done|]. destruct (handleDNS_frame raw now c) as (H1 & H2 & H3 & H4).
    assert (is_Some (dns (handleDNS raw now c)) <-> is_Some (dns c)) as Hdns.
    { unfold handleDNS. destruct (DecodeDNS raw) as [answers|[]]; try done. apply put_answers_dns. }
    destruct (dns c) as [d|] eqn:Ed;
      split; unfold pushes; cbn [observes flushes]; rewrite ?app_nil_r, ?N.add_0_r; try congruence; try done.
    cbn. by rewrite H3.
  - destruct (flush_enqueues c Hm Hr) as (s' & Hf & He & Hr' & Hcap & Hcat & Hall).
    cbn [cstep]. unfold tick. rewrite Hf.
    assert (forall c', cfg c' = cfg c -> sender c' = s' -> agg c' = NewAggregator ->
      (is_Some (dns c') <-> is_Some (dns c)) -> Events (cm c') = Events (cm c) ->
      accounts (CTick now) cur c c') as Hacc.
    { intros c' H1 H2 H3 H4 H5. split; unfold pushes; cbn [flushes observes];
        rewrite ?H2, ?app_nil_r, ?N.add_0_r, ?H5; try done.
      split; [done|]. rewrite Hcat. unfold round_records. by rewrite Hagg. }
    cbn [dns set_sender set_agg]. destruct (dns c) as [d|] eqn:Ed; [|eexists; split; [done|]; apply Hacc; try done; cbn; by rewrite Ed].
    destruct (DnsCache.Sweep now d) as [n d']. eexists. split; [done|]. by apply Hacc.
Qed.
End accounts.

(** ** The sender inside the process *)

(** One [Enqueue] without a concurrent caller is a sequence of its selects. *)
Lemma Enqueue_steps b s s' ph d pu de :
  (0 < queue_cap s)%nat -> b <> [] -> Enqueue b s = Some s' ->
  rtc sys_step (mkSystem s ph [] d pu de) (mkSystem s' ph [] d (pu ++ [b]) de).
Proof.
  intros Hcap Hb. unfold Enqueue. rewrite decide_False by done. cbn [enqueue_loop enqueue_fuel].
  intros He. eapply rtc_l; [by apply (step_call s ph [] d pu de b)|]. cbn [app].
  destruct (try_send b s) as [s1|] eqn:E1.
  { injection He as <-. apply rtc_once. by apply (step_push s s1 ph [] [] d pu de b). }
  eapply rtc_l; [by apply (step_full s ph [] [] d pu de b)|].
  eapply rtc_l; [by apply (step_evict s ph [] [] d pu de b)|].
  destruct (try_send b (evict s)) as [s2|] eqn:E2; [|done]. injection He as <-.
  apply rtc_once. by apply (step_push (evict s) s2 ph [] [] d pu de b).
Qed.

Lemma Enqueue_cap b s s' : Enqueue b s = Some s' -> queue_cap s' = queue_cap s.
Proof.
  unfold Enqueue. case_decide; [by intros [= <-]|]. cbn [enqueue_loop enqueue_fuel].
  pose proof (evict_frame s) as (Hc & _).
  destruct (try_send b s) as [s1|] eqn:E1.
  { intros [= <-]. by apply try_send_Some in E1 as [_ ->]. }
  destruct (try_send b (evict s)) as [s2|] eqn:E2; [|done].
  intros [= <-]. by apply try_send_Some in E2 as [_ ->].
Qed.

Lemma enqueue_all_steps bs : forall s s' ph d pu de,
  (0 < queue_cap s)%nat -> Forall (fun b => b <> []) bs -> enqueue_all bs s = Some s' ->
  rtc sys_step (mkSystem s ph [] d pu de) (mkSystem s' ph [] d (pu ++ bs) de).
Proof.
  induction bs as [|b bs IH]; intros s s' ph d pu de Hcap Hb; cbn [enqueue_all].
  - intros [= <-]. by rewrite app_nil_r.
  - apply Forall_cons in Hb as [Hb Hbs]. destruct (Enqueue b s) as [s1|] eqn:E1; [|done]. intros He.
    etrans; [by apply Enqueue_steps|].
    replace (pu ++ b :: bs) with ((pu ++ [b]) ++ bs) by by rewrite <- app_assoc.
    apply IH; [by rewrite (Enqueue_cap _ _ _ E1)|done|done].
Qed.

Section process.
Context {K E : Type} `{BpfLib K E}.
Context {ROF : RangeOrder flowKey flow} {ROE : RangeOrder Addr entry} {DP : DNSParser}.
Context (l : Loader (K:=K) (E:=E)).
Implicit Types (x y : @daemon K E).

Definition sender_of x : system :=
  mkSystem (sender (coll x)) (sending x) [] (ctx_done x) (pushed x) (delivered x).

Lemma sender_of_returns g err x : rtc sys_step (sender_of x) (sender_of (returns g err x)).
Proof.
  unfold sender_of, returns. cbn. destruct (bool_decide (is_Some err)).
  - rewrite orb_true_r. apply rtc_once, step_cancel.
  - by rewrite orb_false_r.
Qed.

(** The invariant of the books, for a process started on [c0]. *)
Record in_books (c0 : Collector) x : Prop := {
  ib_cfg : cfg (coll x) = cfg c0;
  ib_dns : is_Some (dns (coll x)) <-> is_Some (dns c0);
  ib_rounds : exists rounds cur, seen x = concat rounds ++ cur /\
    agg (coll x) = add_all cur NewAggregator /\ concat (pushed x) = rounds ≫= round_records;
  ib_sizes : Forall (fun b => 0 < Z.of_nat (length b) <= MaxBatch (cfg c0)) (pushed x);
  ib_events : (Events (cm (coll x)))⟦resultAccepted⟧ = N.of_nat (length (seen x));
  ib_wire : Forall (fun o => on_wire o.1) (seen x);
  ib_sender : rtc sys_step (sys_init (sender c0)) (sender_of x)
}.

(** What the sender's own theorems say of any state it can be in. *)
Lemma sender_rtc s (y : system) (P : system -> Prop) :
  rtc sys_step (sys_init s) y -> P (sys_init s) -> (forall u v : system, sys_step u v -> P u -> P v) -> P y.
Proof. intros Hr Hi Hs. revert Hi. induction Hr; eauto. Qed.

Lemma sender_of_accounted s (y : system) :
  ready s -> queue s = [] -> sm s = mkSenderMetrics 0 0 0 0 ->
  rtc sys_step (sys_init s) y -> accounted (queue_cap s) y /\ in_order y.
Proof.
  intros [Hc Hl] Hq Hm Hr. split.
  - apply (sender_rtc s); [done| |intros u v; by apply (accounted_step _ u v)].
    unfold accounted, sys_init. cbn. rewrite Hq, Hm. split_and!; cbn; lia || done.
  - apply (sender_rtc s); [done| |intros u v; by apply in_order_step].
    unfold in_order, sys_init. cbn. rewrite Hq; constructor.
Qed.

Context (c0 : Collector).
Context (Hmax : 0 < MaxBatch (cfg c0)) (Hready : ready (sender c0)) (Hq0 : queue (sender c0) = [])
  (Hm0 : sm (sender c0) = mkSenderMetrics 0 0 0 0).

Lemma in_books_ready x : in_books c0 x -> ready (sender (coll x)).
Proof.
  intros [_ _ _ _ _ _ Hs]. destruct (sender_of_accounted _ _ Hready Hq0 Hm0 Hs) as [(Hc & Hl & _) _].
  cbn [sender_of sys_sender] in *. destruct Hready as [Hpos _]. split; lia.
Qed.

Lemma work_books x o c k :
  in_books c0 x -> cstep o (coll x) = Done c -> in_books c0 (work o c k x).
Proof.
  intros Hib Hc. pose proof (in_books_ready x Hib) as Hr. destruct Hib as [H1 H2 (rounds & cur & H3 & H4 & H5) H6 H7 Hw H8].
  destruct (cstep_accounts o (coll x) cur) as (c' & Hc' & Hacc); [by rewrite H1|done|done|].
  rewrite Hc in Hc'. injection Hc' as <-. destruct Hacc as [A1 A2 A3 A4 A5 A6 A7 A8]. rewrite H1 in *.
  split; cbn [coll work seen pushed sender_of].
  - exact A1.
  - by rewrite A6.
  - unfold pushes in *. destruct (flushes o (coll x)).
    + destruct A7 as [A7 Hcat]. exists (rounds ++ [cur ++ observes o (coll x)]), [].
      rewrite concat_app, bind_app, concat_app, bind_singleton, H3, H5, Hcat. cbn [concat].
      rewrite !app_nil_r, app_assoc. by split_and!.
    + exists rounds, (cur ++ observes o (coll x)). by rewrite H3, app_assoc, app_nil_r.
  - by apply Forall_app.
  - by rewrite A8, H7, length_app, Nat2N.inj_add.
  - apply Forall_app. split; [done|]. apply Forall_forall. intros [ev t] Ho. by eapply observes_on_wire.
  - etrans; [exact H8|]. unfold sender_of. cbn [coll work seen pushed sending ctx_done delivered].
    apply enqueue_all_steps; [by apply Hr| |done].
    eapply Forall_impl; [exact A5|]. intros b Hb ->. cbn in Hb. lia.
Qed.

(** A step of the delivery loop changes only the sender. *)
Lemma delivery_books x s ph de :
  in_books c0 x -> sys_step (sender_of x) (mkSystem s ph [] (ctx_done x) (pushed x) de) ->
  in_books c0 (set_delivery s ph de x).
Proof.
  intros [H1 H2 H3 H4 H5 H6 H7] Hs. split; try done. eapply rtc_r; [exact H7|exact Hs].
Qed.

Lemma returns_books x g err : in_books c0 x -> in_books c0 (returns g err x).
Proof. intros [H1 H2 H3 H4 H5 H6 H7]. split; try done. etrans; [exact H7|apply sender_of_returns]. Qed.
Lemma kern_books x k : in_books c0 x -> in_books c0 (set_kern k x).
Proof. by intros [H1 H2 H3 H4 H5 H6 H7]. Qed.

Lemma in_books_step x y : in_books c0 x -> dstep l x y -> in_books c0 y.
Proof.
  intros Hib Hs. destruct Hs; try (by apply returns_books); try (by apply returns_books, kern_books).
  - by eapply work_books.
  - by destruct Hib.
  - apply delivery_books; [done|]. unfold sender_of. rewrite H1. by apply step_recv.
  - apply delivery_books; [done|]. unfold sender_of. rewrite H1. by eapply step_report.
  - apply delivery_books; [done|]. unfold sender_of. rewrite H1. by apply step_wake.
  - apply delivery_books; [done|]. unfold sender_of. rewrite H1, H2. by apply step_stop_idle.
  - apply delivery_books; [done|]. unfold sender_of. rewrite H1, H2. by apply step_stop_sleeping.
  - destruct Hib. split; try done. eapply rtc_r; [done|]. apply step_cancel.
  - by destruct Hib.
Qed.
End process.

(** ** Start and end *)

Section life.
Context {K E : Type} `{BpfLibLaws K E}.
Context {ROF : RangeOrder flowKey flow} {ROE : RangeOrder Addr entry} {DP : DNSParser}.
Context (Hclean : forall hs k, (SnifferClose (E:=E) hs k).1 = None).
Implicit Types (x y : @daemon K E).

Lemma runCollector_cases f path dial k0 :
  match runCollector f path dial k0 with
  | (Ok (l, x), k) => exists att c, startCollector f att = Some c /\ x = spawn c k /\
      holds k0 l k /\ is_Some (reader l)
  | (Err _, k) => opened k = opened k0
  end.
Proof.
  unfold runCollector. destruct (flags_rejected f) eqn:Hf; [done|]. destruct dial as [e|]; [done|].
  pose proof (open_loader_holds Hclean (if fl_dnsNames f then Some path else None) k0) as Ho.
  unfold open_loader in Ho. destruct (Loader.New k0) as [[l|e] k]; [|done].
  unfold startCollector. rewrite Hf. destruct (fl_dnsNames f).
  - destruct (AttachDNS path l k) as [[err l'] k']. destruct Ho as (Hh & Hr & _). by eauto 10.
  - destruct Ho as (Hh & Hr & _). by eauto 10.
Qed.

Context (l : Loader (K:=K) (E:=E)) (k0 : K).













(** ** The way out *)



Context (Hdisj : owned l ## opened k0) (Hreader : is_Some (reader l)).










End life.

(** ** Runs of the process *)

Definition dreachable {K E : Type} `{BpfLib K E} {ROF : RangeOrder flowKey flow}
    {ROE : RangeOrder Addr entry} {DP : DNSParser} (l : Loader) (x0 : daemon) : daemon -> Prop :=
  reachable (fun x => x = x0) (dstep (K:=K) (E:=E) l).

Lemma started {ROF : RangeOrder flowKey flow} f att c :
  startCollector f att = Some c ->
  0 < MaxBatch (cfg c) /\ MaxBatch (cfg c) = fl_maxBatch f /\
  sender c = NewSender (fl_nodeName f) (Z.to_nat (fl_queueSize f)) (fl_reportTimeout f) /\
  ready (sender c) /\ agg c = NewAggregator /\ Events (cm c) = ∅.
Proof.
  unfold startCollector. destruct (flags_rejected f) eqn:Hf; [done|]. intros [= <-].
  unfold flags_rejected in Hf. rewrite !orb_false_iff, !Z.leb_gt in Hf.
  destruct Hf as [[[H1 H2] H3] H4]. cbn. split_and!; try done. split; cbn; lia.
Qed.

Section runs.
Context {K E : Type} `{BpfLib K E}.
Context {ROF : RangeOrder flowKey flow} {ROE : RangeOrder Addr entry} {DP : DNSParser}.

Lemma runCollector_spawns f path dial k0 l x0 k :
  runCollector (K:=K) (E:=E) f path dial k0 = (Ok (l, x0), k) ->
  exists att c, startCollector f att = Some c /\ x0 = spawn c k.
Proof.
  intros Hstart. unfold runCollector in Hstart. destruct (flags_rejected f); [done|]. destruct dial; [done|].
  destruct (Loader.New k0) as [[l1|] k1]; [|done].
  destruct (if fl_dnsNames f then _ else _) as [[att l2] k2].
  destruct (startCollector f att) as [c|] eqn:Hst; [|done]. injection Hstart as -> <- ->. by exists att, c.
Qed.

Lemma in_books_spawn f att c k :
  startCollector f att = Some c -> in_books c (spawn (K:=K) (E:=E) c k).
Proof.
  intros Hst. destruct (started f att c Hst) as (_ & _ & _ & _ & Ha & He).
  split; cbn; try done.
  - exists [], []. by rewrite Ha.
  - by rewrite He.
Qed.

Lemma in_books_reachable l f att c k x :
  startCollector f att = Some c -> dreachable (K:=K) (E:=E) l (spawn c k) x -> in_books c x.
Proof.
  intros Hst. destruct (started f att c Hst) as (Hm & _ & Hs & Hr & _).
  apply reachable_invariant.
  - intros ? ->. by eapply in_books_spawn.
  - intros y z. by apply in_books_step; try done; rewrite Hs.
Qed.
End runs.

Section exits.
Context {K E : Type} `{BpfLibLaws K E}.
Context {ROF : RangeOrder flowKey flow} {ROE : RangeOrder Addr entry} {DP : DNSParser}.
Context (Hclean : forall hs k, (SnifferClose (E:=E) hs k).1 = None).


End exits.

(** ** Properties *)

(** C3: the collector process accounts for every event, whatever its six goroutines
    do and however they interleave: its accepted observations are, in order,
    those of the rounds it flushed and those it still aggregates; the batches it
    put on the queue, none empty nor larger than max-batch, hold exactly the
    records of the flushed rounds; those delivered, in flight and queued are a
    subsequence of them in order, and every record is delivered, counted as
    dropped, in flight or queued.  Each observation of a flushed round travels in
    a record of a batch that the processor enriches to that observation's
    edge. *)
Theorem process_accounts {K E : Type} `{BpfLib K E} {ROF : RangeOrder flowKey flow}
    {ROE : RangeOrder Addr entry} {DP : DNSParser} {T} `{Store T, UIDStore T, PortStore T}
    f path dial k0 l x0 k x
    (Hstart : runCollector f path dial k0 = (Ok (l, x0), k)) (Hx : dreachable l x0 x) :
  exists rounds cur,
    seen x = concat rounds ++ cur /\ agg (coll x) = add_all cur NewAggregator /\
    (Events (cm (coll x)))⟦resultAccepted⟧ = N.of_nat (length (seen x)) /\
    concat (pushed x) = rounds ≫= round_records /\
    Forall (fun b => 0 < Z.of_nat (length b) <= fl_maxBatch f) (pushed x) /\
    (delivered x ++ in_flight (sending x) ++ queue (sender (coll x))) `sublist_of` pushed x /\
    Z.of_nat (total_length (pushed x)) =
      Z.of_nat (total_length (delivered x)) + RecordsDropped (sm (sender (coll x))) +
      Z.of_nat (total_length (queue (sender (coll x)))) +
      Z.of_nat (total_length (in_flight (sending x))) /\
    forall round ev t (cache : T), round ∈ rounds -> (ev, t) ∈ round ->
      exists b r ev', b ∈ pushed x /\ r ∈ b /\ toEvent r = Some ev' /\ Outbound ev' = Outbound ev /\
        Enrich ev' cache (Some cache) (Some cache) =
        Enrich (with_hostname
                  (first_nonempty (map (fun o => DstHostname o.1) (with_key (event_key ev) round))) ev)
          cache (Some cache) (Some cache).
Proof.
  destruct (runCollector_spawns f path dial k0 l x0 k Hstart) as (att & c & Hst & ->).
  destruct (started f att c Hst) as (Hm & Hmb & Hs & Hr & _).
  destruct (in_books_reachable l f att c k x Hst Hx) as [_ _ (rounds & cur & Hseen & Hagg & Hcat) Hsz Hev Hw Hsnd].
  destruct (sender_of_accounted (sender c) (sender_of x)) as [(_ & _ & Htot & Hsent) Hord];
    [done|by rewrite Hs|by rewrite Hs|done|].
  exists rounds, cur. rewrite Hmb in Hsz. unfold in_order in Hord.
  cbn [sender_of sys_sender sys_phase sys_pushed sys_delivered] in Htot, Hsent, Hord. split_and!; try done; [lia|].
  intros round ev t cache Hin Hev'.
  assert (forall ev t, (ev, t) ∈ round -> on_wire ev) as Hwire.
  { intros e u He. rewrite Forall_forall in Hw. apply (Hw (e, u)). rewrite Hseen.
    apply elem_of_app. left. apply list_elem_of_In, in_concat. exists round. by split; apply list_elem_of_In. }
  destruct (drained_carries cache round Hwire) as [_ Hcarry].
  destruct (Hcarry ev t Hev') as (r & Hrin & ev' & Hto & Hout & Hen).
  assert (r ∈ concat (pushed x)) as Hrb.
  { rewrite Hcat. apply list_elem_of_bind. exists round. split; [exact Hrin|done]. }
  apply list_elem_of_In, in_concat in Hrb as (b & Hbin & Hrbin).
  exists b, r, ev'. split_and!; try done; by apply list_elem_of_In.
Qed.



(** ** Witnesses *)

Section witnesses.
#[local] Hint Extern 0 (BpfLib SimKernel.K _) =>
  exact (SimKernel.lib (conn_event_bytes sample_conn_event)) : typeclass_instances.
#[local] Hint Extern 0 (BpfLibLaws SimKernel.K _) =>
  exact (SimKernel.laws (conn_event_bytes sample_conn_event)) : typeclass_instances.
#[local] Instance order_flows : RangeOrder flowKey flow := canonical_order.
#[local] Instance order_entries : RangeOrder Addr entry := canonical_order.
#[local] Instance dns_parser : DNSParser := sample_dns_parser.

Definition quiet_flags : CollectorFlags := mkFlags "n1" Second 1000 100 (5 * Second) false 65536.
Definition quiet_collector : Collector := default sample_collector (startCollector quiet_flags false).
Lemma quiet_started att : startCollector quiet_flags att = Some quiet_collector.
Proof. by destruct att. Qed.

(** A collector that starts on a kernel with one foreign handle. *)
Definition quiet_start :=
  runCollector (K:=SimKernel.K) (E:=string) quiet_flags "/sys/fs/cgroup" None (sim []).

Lemma quiet_runs :
  exists l k, quiet_start = (Ok (l, spawn quiet_collector k), k) /\ holds (sim []) l k /\ is_Some (reader l).
Proof.
  assert (is_ok quiet_start.1 = true) as He by (vm_compute; reflexivity). unfold quiet_start in *.
  pose proof (runCollector_cases (SimKernel.clean _) quiet_flags "/sys/fs/cgroup" None (sim [])) as Hc.
  destruct (runCollector _ _ _ _) as [[[l x]|e] k]; [|discriminate He].
  destruct Hc as (att & c & Hs & -> & Hh & Hr). rewrite quiet_started in Hs. injection Hs as <-.
  by exists l, k.
Qed.

Definition sample_op : cop := CEvent sample_procfs (conn_event_bytes sample_conn_event) 0.

(** The first read yields an event, and it is accepted. *)
Lemma quiet_event l k :
  holds (sim []) l k -> is_Some (reader l) ->
  exists c, dreachable l (spawn quiet_collector k) (work sample_op c k (spawn quiet_collector k)).
Proof.
  intros [Ho _] [r Hr].
  destruct (cstep_accounts sample_op quiet_collector []) as (c & Hc & _); [done|by split; vm_compute; lia|done|].
  exists c. eapply reach_step; [by apply reach_init|]. apply d_work; [|done]. split; [done|].
  cbn [kern spawn]. unfold Loader.Read. rewrite Hr.
  rewrite SimKernel.read_open; [done|]. change (r ∈ opened k). rewrite Ho.
  apply elem_of_union_l. by apply owned_reader.
Qed.

Lemma process_accounts_witness :
  exists l k x, quiet_start = (Ok (l, spawn quiet_collector k), k) /\
    dreachable l (spawn quiet_collector k) x /\
    exists rounds cur, [(sample_edge_event, 0)] = concat rounds ++ cur /\
      concat (pushed x) = rounds ≫= round_records.
Proof.
  destruct quiet_runs as (l & k & Hs & Hh & Hr). destruct (quiet_event l k Hh Hr) as [c Hx].
  exists l, k. eexists. split; [exact Hs|]. split; [exact Hx|].
  destruct (process_accounts (T:=Cache) quiet_flags "/sys/fs/cgroup" None (sim []) l _ k _ Hs Hx)
    as (rounds & cur & Hseen & _ & _ & Hcat & _).
  exists rounds, cur. split; [|exact Hcat]. rewrite <- Hseen. vm_compute. reflexivity.
Defined.


End witnesses.
