(* ===== verification/Typing.v ===== *)
(** * Typing: what the collector's state is made of, whatever happens

    The code keeps its data in Go types wider than what it means: a port in a
    uint32 of the wire record, a name in any string.  This file states the
    invariant the code relies on instead, a type for every part of the
    collector's state, and shows that every step of the process (Node.v) keeps
    it; what the processor receives is therefore of that type too. *)

From S2P Require Import Prelude Golang Netip Model Decode DnsCache Wire Aggregator Sender Collector.
From S2P Require Import Processor System Loader Node.
Open Scope string_scope.
Open Scope list_scope.
Open Scope Z_scope.

(** ** The types *)

(** A name as [normalizeName] leaves it, or none. *)
Definition lowered (h : string) : Prop := ToLower h = h.
(** A command name: the C string of the probe's 16 bytes. *)
Definition command_name (s : string) : Prop :=
  (String.length s <= 16)%nat /\ contains_byte s "000" = false.

(** An accepted event: what the wire carries, not node-local, and with identities
    of this node only when the connection was opened here. *)
Definition typed_event (ev : ConnectionEvent) : Prop :=
  on_wire ev /\ node_local ev = false /\ command_name (Comm ev) /\ lowered (DstHostname ev) /\
  (Outbound ev = false -> SrcPodUID ev = "" /\ DstHostname ev = "").

Definition key_event (k : flowKey) (f : flow) : ConnectionEvent :=
  mkEvent (fk_src k) (fk_dst k) 0 (fk_dstPort k) (fk_proto k) 0 (fl_comm f) (fk_outbound k)
    (fk_podUID k) (fl_hostname f).
Definition typed_flow (k : flowKey) (f : flow) : Prop :=
  typed_event (key_event k f) /\ 0 <= fl_count f < 2 ^ 32.
Definition typed_record (r : FlowRecord) : Prop :=
  exists k f, typed_flow k f /\ r = to_record (k, f).

Definition typed_cache (d : Cache) : Prop :=
  Z.of_nat (size (entries d)) <= DnsCache.max d /\
  map_Forall (fun ip e => Unmap ip = ip /\ lowered (name e) /\ name e <> "") (entries d).

Definition typed_batch (b : batch) : Prop := b <> [] /\ Forall typed_record b.
Record typed_collector (c : Collector) : Prop := {
  ty_batch : 0 < MaxBatch (cfg c);
  ty_dns : forall d, dns c = Some d -> typed_cache d;
  ty_flows : map_Forall typed_flow (flows (agg c));
  ty_queue : (length (queue (sender c)) <= queue_cap (sender c))%nat /\ Forall typed_batch (queue (sender c))
}.

(** ** Names *)

Lemma typed_cache_new n : 0 <= n -> typed_cache (DnsCache.New n).
Proof. intros Hn. split; [|by intros ip e]. cbn [entries DnsCache.New DnsCache.max]. rewrite map_size_empty. lia. Qed.

Section names.
Context {ROF : RangeOrder flowKey flow} {ROE : RangeOrder Addr entry} `{DNSParserLaws}.

Lemma typed_cache_live now d : typed_cache d -> typed_cache (sweepLocked now d).
Proof.
  intros [Hs He]. split.
  - rewrite sweepLocked_live. cbn. pose proof (live_size now (entries d)). lia.
  - rewrite sweepLocked_live. intros ip e [Hl _]%map_lookup_filter_Some. by apply (He ip).
Qed.

Lemma typed_cache_Put ip nm ttl now d :
  typed_cache d -> lowered nm -> nm <> "" -> typed_cache (DnsCache.Put ip nm ttl now d).2.
Proof.
  intros Hd Hl Hne. split.
  - pose proof (Put_live ip nm ttl now d (proj1 Hd)) as Hp. destruct (DnsCache.Put ip nm ttl now d). cbn.
    destruct Hp as (Hwf & _ & _). exact Hwf.
  - assert (forall d', typed_cache d' ->
      map_Forall (fun ip e => Unmap ip = ip /\ lowered (name e) /\ name e <> "")
        (entries (DnsCache.store (Unmap ip) (mkEntry nm (Golang.Add now (clampTTL ttl))) d'))) as Hst.
    { intros d' [_ He]. cbn. apply map_Forall_insert_2; [|done]. by rewrite Unmap_idemp. }
    unfold DnsCache.Put. cbv zeta. destruct (_ && _); [|by apply Hst].
    pose proof (typed_cache_live now d Hd) as Hd'. destruct (_ <=? _); [by apply Hd'|by apply Hst].
Qed.

Lemma answers_named raw out :
  DecodeDNS raw = Ok out -> Forall (fun a => lowered (AnsName a) /\ AnsName a <> "") out.
Proof.
  unfold DecodeDNS. destruct (_ <? _)%nat; [done|]. destruct (_ || _); [done|]. intros Hd.
  pose proof (decode_message_cases (slice dnsOffPayload (Z.to_nat (le_Z (take dnsOffPayload raw))) raw)) as Hm.
  rewrite Hd in Hm. destruct Hm as (h & p & q & p' & _ & _ & _ & _ & Hne & _ & Hall & _).
  eapply Forall_impl; [exact Hall|]. intros a [-> _]. split; [apply normalizeName_lower|done].
Qed.

(** The DNS cache of a collector after a step. *)
Definition dns_typed (c : Collector) : Prop := forall d, dns c = Some d -> typed_cache d.

Lemma put_answers_typed now answers : forall c,
  Forall (fun a => lowered (AnsName a) /\ AnsName a <> "") answers -> dns_typed c ->
  dns_typed (foldl (put_answer now) c answers).
Proof.
  induction answers as [|a answers IH]; intros c; [done|]. intros [[Hl Hne] Ha]%Forall_cons Hc.
  cbn [foldl]. apply IH; [done|]. unfold put_answer. destruct (dns c) as [d|] eqn:Hd; [|done].
  pose proof (typed_cache_Put (AnsIP a) (AnsName a) (int64 (AnsTTL a * Second)) now d (Hc d Hd) Hl Hne) as Hp.
  destruct (DnsCache.Put _ _ _ _ _) as [ok d']. intros d'' Hd''. destruct ok; cbn in Hd''; by injection Hd'' as <-.
Qed.

Lemma flush_loop_dns fuel : forall records c c', flush_loop fuel records c = Done c' -> dns c' = dns c.
Proof.
  induction fuel as [|fuel IH]; intros records c c'; [done|]. cbn [flush_loop].
  destruct records as [|r rs]; [by intros [= <-]|]. destruct (_ <? 0); [done|].
  destruct (Enqueue _ _); [|done]. intros Hf. by apply IH in Hf.
Qed.
Lemma flush_dns c c' : flush c = Done c' -> dns c' = dns c.
Proof. unfold flush. destruct (Drain (agg c)). intros Hf. by apply flush_loop_dns in Hf. Qed.

Lemma handle_dns fs raw now c c' : Collector.handle fs raw now c = Done c' -> dns c' = dns c.
Proof.
  unfold Collector.handle. destruct (Decode raw) as [ev|]; [|by intros [= <-]].
  destruct (node_local _); [by intros [= <-]|].
  pose proof (attach_frame fs (Canonical ev) now c) as Hf. destruct (attach _ _ _ _) as [ev' c1].
  destruct Hf as (_ & Hd & _). destruct (Aggregator.Add _ _ _) as [n a].
  destruct (_ <=? _); [intros ->%flush_dns|intros [= <-]]; done.
Qed.

Lemma cstep_dns o c c' : cstep o c = Done c' -> dns_typed c -> dns_typed c'.
Proof.
  intros Hs Hc. destruct o as [fs raw now| |raw now|now]; cbn [cstep] in Hs.
  - apply handle_dns in Hs. intros d. rewrite Hs. apply Hc.
  - by injection Hs as <-.
  - injection Hs as <-. destruct (dns c) as [d|] eqn:Hd; [|done].
    unfold handleDNS. destruct (DecodeDNS raw) as [answers|[]] eqn:Ha; try done.
    apply put_answers_typed; [by eapply answers_named|done].
  - unfold tick in Hs. destruct (flush c) as [c1| |] eqn:Hf; try done. apply flush_dns in Hf.
    destruct (dns c1) as [d|] eqn:Hd; [|injection Hs as <-; intros d'; by rewrite Hd].
    unfold DnsCache.Sweep in Hs. injection Hs as <-. intros d' [= <-].
    apply typed_cache_live, Hc. by rewrite <- Hf.
Qed.

(** ** Events *)

Lemma Lookup_lowered ip now d nm : typed_cache d -> DnsCache.Lookup ip now d = Some nm -> lowered nm.
Proof.
  intros [_ He]. unfold DnsCache.Lookup. destruct (entries d !! Unmap ip) as [e|] eqn:Hl; [|done].
  destruct (negb _); [done|]. intros [= <-]. by destruct (He _ _ Hl) as (_ & ? & _).
Qed.

Lemma observes_typed o c ev t : dns_typed c -> (ev, t) ∈ observes o c -> typed_event ev.
Proof.
  intros Hc Hin. pose proof (observes_on_wire o c ev t Hin) as Hw. split; [exact Hw|]. clear Hw.
  destruct o as [fs raw now| | |]; cbn in Hin; try by apply elem_of_nil in Hin.
  pose proof (Decode_cases (P:=Empty_set) raw) as Hd. destruct (Decode raw) as [e|] eqn:He; [|by apply elem_of_nil in Hin].
  destruct (node_local e) eqn:Hnl; [by apply elem_of_nil in Hin|].
  apply list_elem_of_singleton in Hin. injection Hin as -> _.
  destruct Hd as (_ & _ & _ & _ & _ & _ & _ & Hcomm & Hlen & Hu & Hh).
  rewrite attach_observed by done.
  set (uid := (podUID fs (PID e) now c).1). set (host := default "" (dns c ≫= Lookup (DstIP e) now)).
  assert (lowered host) as Hhost.
  { unfold host. destruct (dns c) as [d|] eqn:Hdn; [|done]. cbn.
    destruct (Lookup (DstIP e) now d) eqn:Hl; [|done]. by apply (Lookup_lowered (DstIP e) now d); [apply Hc|]. }
  assert (forall u h, node_local (observed e u h) = false) as Hobs.
  { intros u h. rewrite <- (node_local_Canonical e) in Hnl. exact Hnl. }
  assert (forall u h, Comm (observed e u h) = Comm e /\ Outbound (observed e u h) = Outbound e) as Hco.
  { intros u h. unfold observed, Canonical. destruct e as [? ? ? ? ? ? ? ob ? ?]. by destruct ob. }
  unfold command_name. destruct (Outbound e); rewrite (proj1 (Hco _ _)), (proj2 (Hco _ _)); by split_and!.
Qed.

Lemma first_nonempty_elem l : first_nonempty l = "" \/ first_nonempty l ∈ l.
Proof.
  induction l as [|s l IH]; [by left|]. cbn. case_decide; [|right; by left].
  destruct IH as [?|?]; [by left|right; by apply list_elem_of_further].
Qed.

(** A flow that summarises typed observations is typed. *)
Lemma summary_typed k obs f :
  Forall (fun o => typed_event o.1) obs -> summary (with_key k obs) = Some f -> typed_flow k f.
Proof.
  intros Hobs Hs. destruct (with_key k obs) as [|[ev t] rest] eqn:Hw; [done|].
  assert (forall ev t, (ev, t) ∈ with_key k obs -> event_key ev = k /\ typed_event ev) as Hall.
  { intros e u [Hk Hin]%with_key_elem. split; [done|]. rewrite Forall_forall in Hobs. by apply (Hobs (e, u)). }
  assert (forall (g : ConnectionEvent -> string) (P : string -> Prop), P "" ->
    (forall ev, event_key ev = k -> typed_event ev -> P (g ev)) ->
    P (first_nonempty (map (fun o => g o.1) (with_key k obs)))) as Hfirst.
  { intros g P Hnil Hev. destruct (first_nonempty_elem (map (fun o => g o.1) (with_key k obs))) as [->|Hin]; [done|].
    apply list_elem_of_fmap in Hin as ([e u] & -> & Hin). destruct (Hall e u Hin). by apply Hev. }
  destruct (Hall ev t) as [<- Hty]; [rewrite Hw; by left|]. pose proof Hty as (Hwire & Hnl & _).
  rewrite <- Hw in Hs. assert (fl_comm f = first_nonempty (map (fun o => Comm o.1) (with_key (event_key ev) obs)) /\
    fl_hostname f = first_nonempty (map (fun o => DstHostname o.1) (with_key (event_key ev) obs))) as [Hc Hh].
  { rewrite Hw in *. by injection Hs as <-. }
  split; [|rewrite (summary_count _ _ Hs); apply Z.mod_pos_bound; lia].
  split; [exact Hwire|]. split; [exact Hnl|]. unfold key_event. cbn [Comm DstHostname Outbound SrcPodUID fk_outbound fk_podUID event_key].
  rewrite Hc, Hh. split; [|split].
  - apply Hfirst; [by split; cbn; lia|]. by intros e _ (_ & _ & ? & _).
  - apply Hfirst; [done|]. by intros e _ (_ & _ & _ & ? & _).
  - intros Ho. split; [by apply Hty|]. apply (Hfirst _ (fun h => h = "")); [done|].
    intros e Hke (_ & _ & _ & _ & Hin). apply Hin. by injection Hke as _ _ _ _ -> _.
Qed.
End names.

(** ** The process *)

Section process.
Context {K E : Type} `{BpfLib K E}.
Context {ROF : RangeOrder flowKey flow} {ROE : RangeOrder Addr entry} `{DNSParserLaws}.
Context (l : Loader.Loader (K:=K) (E:=E)).
Implicit Types (x y : @daemon K E).

Definition typed_books x : Prop :=
  dns_typed (coll x) /\ Forall (fun o => typed_event o.1) (seen x).

Lemma typed_books_step x y : typed_books x -> dstep l x y -> typed_books y.
Proof.
  intros [Hd Hs] Hst. destruct Hst; try by split.
  split; [by eapply cstep_dns|]. cbn [seen work]. apply Forall_app. split; [done|].
  apply Forall_forall. intros [ev t] Hin. by eapply observes_typed.
Qed.

Lemma typed_books_reachable f att c k x :
  startCollector f att = Some c -> dreachable l (spawn c k) x -> typed_books x.
Proof.
  intros Hst. apply reachable_invariant; [|apply typed_books_step]. intros ? ->. split; [|constructor].
  unfold startCollector in Hst. destruct (flags_rejected f) eqn:Hf; [done|]. injection Hst as <-.
  unfold flags_rejected in Hf. rewrite !orb_false_iff, !Z.leb_gt in Hf.
  intros d. cbn. destruct (_ && _); [|done]. intros [= <-]. apply typed_cache_new. lia.
Qed.

Lemma typed_round obs r :
  Forall (fun o => typed_event o.1) obs -> r ∈ round_records obs -> typed_record r.
Proof.
  intros Hobs (k & f & Hk & ->)%elem_of_Drain. rewrite add_all_flows in Hk.
  exists k, f. split; [by eapply summary_typed|done].
Qed.

Lemma typed_pushed c x rounds cur :
  in_books c x -> Forall (fun o => typed_event o.1) (seen x) -> seen x = concat rounds ++ cur ->
  concat (pushed x) = rounds ≫= round_records -> Forall typed_batch (pushed x).
Proof.
  intros Hib Hs Hseen Hcat. apply Forall_forall. intros b Hb. split.
  - pose proof (ib_sizes _ _ Hib) as Hsz. rewrite Forall_forall in Hsz. specialize (Hsz b Hb).
    intros ->. cbn in Hsz. lia.
  - apply Forall_forall. intros r Hr.
    assert (r ∈ rounds ≫= round_records) as Hin.
    { rewrite <- Hcat. apply list_elem_of_In, in_concat. exists b. by split; apply list_elem_of_In. }
    apply list_elem_of_bind in Hin as (round & Hrr & Hround). apply (typed_round round); [|done].
    apply Forall_forall. intros o Ho. rewrite Forall_forall in Hs. apply Hs. rewrite Hseen.
    apply elem_of_app. left. apply list_elem_of_In, in_concat. exists round. by split; apply list_elem_of_In.
Qed.

(** A typed record is accepted by the processor and read back as what it was made of. *)
Lemma typed_record_accepted r : typed_record r -> exists ev, toEvent r = Some ev /\ typed_event ev.
Proof.
  intros (k & f & [Hty _] & ->). exists (key_event k f). split; [|exact Hty].
  assert (k = event_key (key_event k f)) as Hk by (by destruct k).
  rewrite Hk at 1. by apply toEvent_to_record, Hty.
Qed.
End process.

(** ** Properties *)

(** C25: every state of the collector process is well typed.  Whatever the probe,
    the network and the processor did, and in every interleaving: each held flow
    is node-external traffic with unmapped addresses, a 16-bit port, an 8-bit
    protocol, a 32-bit count, a C string of at most 16 bytes as command name and
    a lower-case hostname, and has a pod UID or hostname only if it is outbound;
    each cached name is lower-case and non-empty under an unmapped address,
    within the cache's bound; the queue is within its capacity; the batches
    queued, in flight and delivered are non-empty and made of such flows, and the
    processor rejects none of their records but reads back such an event. *)
Theorem collector_state_typed {K E : Type} `{BpfLib K E} {ROF : RangeOrder flowKey flow}
    {ROE : RangeOrder Addr entry} `{DNSParserLaws} f path dial k0 l x0 k (x : @daemon K E)
    (Hstart : runCollector f path dial k0 = (Ok (l, x0), k)) (Hx : dreachable l x0 x) :
  typed_collector (coll x) /\
  Forall typed_batch (delivered x ++ in_flight (sending x) ++ queue (sender (coll x))) /\
  forall b r, b ∈ delivered x -> r ∈ b -> exists ev, toEvent r = Some ev /\ typed_event ev.
Proof.
  destruct (runCollector_spawns f path dial k0 l x0 k Hstart) as (att & c & Hst & ->).
  destruct (started f att c Hst) as (Hm & Hmb & Hs & Hr & _).
  pose proof (in_books_reachable l f att c k x Hst Hx) as Hib.
  destruct (typed_books_reachable l f att c k x Hst Hx) as [Hd Hseen].
  pose proof Hib as [Hcfg _ (rounds & cur & Hsn & Hagg & Hcat) _ _ _ Hsnd].
  destruct (sender_of_accounted (sender c) (sender_of x)) as [_ Hord];
    [done|by rewrite Hs|by rewrite Hs|done|].
  unfold in_order in Hord. cbn [sender_of sys_sender sys_phase sys_pushed sys_delivered] in Hord.
  assert (Forall typed_batch (delivered x ++ in_flight (sending x) ++ queue (sender (coll x)))) as Hall.
  { apply Forall_forall. intros b Hb. pose proof (typed_pushed c x rounds cur Hib Hseen Hsn Hcat) as Hp.
    rewrite Forall_forall in Hp. by apply Hp, (sublist_subseteq _ _ Hord). }
  split; [|split; [exact Hall|]].
  - assert (ready (sender (coll x))) as [_ Hcap] by (apply (in_books_ready c); [done|by rewrite Hs..|done]).
    apply Forall_app in Hall as [_ [_ Hq]%Forall_app].
    split; [by rewrite Hcfg|exact Hd| |by split].
    rewrite Hagg. intros key fl Hl. rewrite add_all_flows in Hl. eapply summary_typed; [|exact Hl].
    rewrite Hsn in Hseen. by apply Forall_app in Hseen as [_ ?].
  - intros b r Hb Hr'. apply typed_record_accepted. apply Forall_app in Hall as [Hdl _].
    rewrite Forall_forall in Hdl. destruct (Hdl b Hb) as [_ Hrs]. rewrite Forall_forall in Hrs. by apply Hrs.
Qed.

(** ** Witness *)

Section witness.
#[local] Hint Extern 0 (BpfLib SimKernel.K _) =>
  exact (SimKernel.lib (conn_event_bytes sample_conn_event)) : typeclass_instances.
#[local] Instance order_flows : RangeOrder flowKey flow := canonical_order.
#[local] Instance order_entries : RangeOrder Addr entry := canonical_order.
#[local] Instance dns_parser : DNSParser := sample_dns_parser.

Lemma collector_state_typed_witness :
  exists l k x, quiet_start = (Ok (l, spawn quiet_collector k), k) /\
    dreachable l (spawn quiet_collector k) x /\ seen x = [(sample_edge_event, 0)] /\
    typed_collector (coll x).
Proof.
  destruct quiet_runs as (l & k & Hs & Hh & Hr). destruct (quiet_event l k Hh Hr) as [c Hx].
  exists l, k. eexists. split; [exact Hs|]. split; [exact Hx|]. split; [vm_compute; reflexivity|].
  pose proof (FixedParserLaws (mkDNSHeader true 0) ["API.Stripe.com."] sample_dns_answers eq_refl) as Hlaws.
  exact (proj1 (collector_state_typed quiet_flags "/sys/fs/cgroup" None (sim []) l _ k _ Hs Hx)).
Defined.
End witness.
