(* ===== verification/Startup.v ===== *)
(** * Startup: the processor's sinks (internal/emit/kafka.go, cmd/sniffer/processor_linux.go)

    [NewKafka] turns a configuration into the options of the Kafka client,
    [buildSinks] the sinks of the pipeline after [Check] has asked the brokers for
    the topic, and [onErr] is the error callback with its one-line-per-second log,
    which [cb_step] runs on any number of goroutines at once.  The client library,
    the file system and the certificate parser are arguments.  The theorems
    connect them to [Config.Validate]. *)

From S2P Require Import Prelude Golang Netip Model Config Emit.
Open Scope string_scope.
Open Scope list_scope.
Open Scope Z_scope.

(** ** The Kafka client's options *)

Inductive mechanism := Plain | ScramSha256 | ScramSha512.
Inductive kgo_opt :=
| SeedBrokers (l : list string)
| DefaultProduceTopic (t : string)
| ClientID (id : string)
| MaxBufferedRecords (n : Z)
| ProducerLinger (d : Duration)
| DialTLSConfig (rootCAs : option (list byte)) (insecure : bool)
| SASL (m : mechanism) (user pass : string).

Inductive kafka_error (E : Type) :=
| CAUnreadable (f : string)
| CANoCertificates (f : string)
| BadMechanism (m : string)
| ClientError (e : E)
| MetadataError (e : E)
| MetadataTopics (n : nat)
| TopicError (topic : string) (e : E).
Arguments MetadataError {E}.
Arguments MetadataTopics {E}.
Arguments TopicError {E}.
Arguments CAUnreadable {E}.
Arguments CANoCertificates {E}.
Arguments BadMechanism {E}.
Arguments ClientError {E}.

Section kafka.
Context {C E : Type} (NewClient : list kgo_opt -> result E C)
  (ReadFile : string -> option (list byte)) (AppendCertsFromPEM : list byte -> bool).

Definition tlsConfig (c : KafkaTLSConfig) : result (kafka_error E) kgo_opt :=
  if decide (tls_CAFile c <> "") then
    match ReadFile (tls_CAFile c) with
    | None => Err (CAUnreadable (tls_CAFile c))
    | Some pem =>
        if negb (AppendCertsFromPEM pem) then Err (CANoCertificates (tls_CAFile c))
        else Ok (DialTLSConfig (Some pem) (tls_InsecureSkipVerify c))
    end
  else Ok (DialTLSConfig None (tls_InsecureSkipVerify c)).

Definition saslMechanism (c : KafkaSASLConfig) : result (kafka_error E) kgo_opt :=
  let m := sasl_Mechanism c in
  if decide (m = SASLMechanismPlain) then Ok (SASL Plain (sasl_Username c) (sasl_Password c))
  else if decide (m = SASLMechanismScramSHA256) then Ok (SASL ScramSha256 (sasl_Username c) (sasl_Password c))
  else if decide (m = SASLMechanismScramSHA512) then Ok (SASL ScramSha512 (sasl_Username c) (sasl_Password c))
  else Err (BadMechanism m).

(** The options up to the call of [kgo.NewClient]. *)
Definition kafka_opts (cfg : KafkaConfig) : result (kafka_error E) (list kgo_opt) :=
  let clientID := if decide (kafka_ClientID cfg = "") then DefaultKafkaClientID else kafka_ClientID cfg in
  let opts := [SeedBrokers (kafka_Brokers cfg); DefaultProduceTopic (kafka_Topic cfg);
               ClientID clientID; MaxBufferedRecords kafkaMaxBuffered; ProducerLinger (50 * Millisecond)] in
  opts ← (if tls_Enabled (kafka_TLS cfg)
          then tc ← tlsConfig (kafka_TLS cfg); mret (opts ++ [tc]) else mret opts);
  if decide (sasl_Mechanism (kafka_SASL cfg) <> "")
  then m ← saslMechanism (kafka_SASL cfg); mret (opts ++ [m]) else mret opts.

Definition NewKafka (cfg : KafkaConfig) : result (kafka_error E) C :=
  opts ← kafka_opts cfg;
  match NewClient opts with Ok cl => Ok cl | Err e => Err (ClientError e) end.

(** ** Check and Close *)

(** A metadata request for some topics, answered by an error code per topic, and
    [kerr.ErrorForCode]. *)
Context (RequestMetadata : C -> list string -> result E (list Z)) (ErrorForCode : Z -> option E).

Definition Check (topic : string) (cl : C) : option (kafka_error E) :=
  match RequestMetadata cl [topic] with
  | Err e => Some (MetadataError e)
  | Ok codes =>
      if negb (length codes =? 1)%nat then Some (MetadataTopics (length codes))
      else match ErrorForCode (nth 0 codes 0) with
        | Some e => Some (TopicError topic e)
        | None => None
        end
  end.

(** [Close] closes the client whether or not its records could be flushed. *)
Definition Kafka_Close {W} (Flush : C -> W -> option E * W) (CloseClient : C -> W -> W) (cl : C) (w : W)
    : option E * W :=
  let '(err, w) := Flush cl w in (err, CloseClient cl w).

(** ** buildSinks *)

Inductive sink_kind := SinkStdout | SinkKafka (cl : C).

(** With the clients it closed. *)
Definition buildSinks (ec : EmitConfig)
    : result (kafka_error E) (list sink_kind * option C) * list C :=
  let sinks := if StdoutEnabled ec then [SinkStdout] else [] in
  if kafka_Enabled (emit_Kafka ec) then
    match NewKafka (emit_Kafka ec) with
    | Err e => (Err e, [])
    | Ok k =>
        match Check (kafka_Topic (emit_Kafka ec)) k with
        | Some e => (Err e, [k])
        | None => (Ok (sinks ++ [SinkKafka k], Some k), [])
        end
    end
  else (Ok (sinks, None), []).
End kafka.

(** ** The error callback *)

Record kafka_errors := mkKafkaErrors {
  ke_counts : gmap string N;
  ke_lastLog : Z;
  ke_logged : list (Z * string)
}.
(** One call, when no other runs: [now] is [time.Now().Unix()] and the
    compare-and-swap succeeds. *)
Definition onErr (reason : string) (now : Z) (s : kafka_errors) : kafka_errors :=
  let counts := ke_counts s ⊕ reason in
  let prev := ke_lastLog s in
  if prev <? now then mkKafkaErrors counts now (ke_logged s ++ [(now, reason)])
  else mkKafkaErrors counts prev (ke_logged s).

(** The calls on the producer's goroutines, an atomic operation at a time: a call
    has counted and read the clock, or has also loaded [lastLog]. *)
Inductive callback :=
| Counted (reason : string) (now : Z)
| Loaded (reason : string) (now prev : Z).
(** [cb_calls] is a ghost: the calls so far. *)
Record callbacks := mkCallbacks {
  cb_errors : kafka_errors;
  cb_pending : list callback;
  cb_calls : list (string * Z)
}.
Definition no_errors : callbacks := mkCallbacks (mkKafkaErrors ∅ 0 []) [] [].

Inductive cb_step : callbacks -> callbacks -> Prop :=
| cb_call s ps cs reason now :
    cb_step (mkCallbacks s ps cs)
      (mkCallbacks (mkKafkaErrors (ke_counts s ⊕ reason) (ke_lastLog s) (ke_logged s))
         (ps ++ [Counted reason now]) (cs ++ [(reason, now)]))
| cb_load s ps1 ps2 cs reason now :
    cb_step (mkCallbacks s (ps1 ++ Counted reason now :: ps2) cs)
      (mkCallbacks s
         (ps1 ++ (if ke_lastLog s <? now then [Loaded reason now (ke_lastLog s)] else []) ++ ps2) cs)
| cb_swap s ps1 ps2 cs reason now prev :
    cb_step (mkCallbacks s (ps1 ++ Loaded reason now prev :: ps2) cs)
      (mkCallbacks
         (if ke_lastLog s =? prev
          then mkKafkaErrors (ke_counts s) now (ke_logged s ++ [(now, reason)]) else s)
         (ps1 ++ ps2) cs).

(** ** Properties *)

Definition ca_ok (ReadFile : string -> option (list byte)) (AppendCerts : list byte -> bool)
    (c : KafkaTLSConfig) : Prop :=
  tls_Enabled c = true -> tls_CAFile c <> "" ->
  exists pem, ReadFile (tls_CAFile c) = Some pem /\ AppendCerts pem = true.

Lemma saslMechanism_supported {E} c :
  supported (sasl_Mechanism c) <->
  exists m, saslMechanism (E:=E) c = Ok (SASL m (sasl_Username c) (sasl_Password c)).
Proof.
  unfold saslMechanism, supported. cbv zeta. repeat case_decide; naive_solver.
Qed.

(** The TLS option, present exactly when TLS is enabled. *)
Lemma tls_opts {E} ReadFile AppendCerts c (base : list kgo_opt) :
  ca_ok ReadFile AppendCerts c ->
  exists tls, (if tls_Enabled c then tc ← tlsConfig (E:=E) ReadFile AppendCerts c; mret (base ++ [tc])
               else mret base) = Ok (base ++ tls) /\
    ((tls_Enabled c = false /\ tls = []) \/
     (tls_Enabled c = true /\ exists ca, tls = [DialTLSConfig ca (tls_InsecureSkipVerify c)])).
Proof.
  unfold ca_ok. intros Hca. destruct (tls_Enabled c); [|exists []; rewrite app_nil_r; auto].
  unfold tlsConfig. case_decide as Hf.
  - destruct (Hca eq_refl Hf) as (pem & -> & ->). cbn. eexists. split; [done|]. right. eauto.
  - cbn. eexists. split; [done|]. right. eauto.
Qed.

(** The authentication option, present exactly when a mechanism is named. *)
Lemma sasl_opts {E} c (base : list kgo_opt) :
  (sasl_Mechanism c <> "" -> supported (sasl_Mechanism c)) ->
  exists sa, (if decide (sasl_Mechanism c <> "") then m ← saslMechanism (E:=E) c; mret (base ++ [m])
              else mret base) = Ok (base ++ sa) /\
    ((sasl_Mechanism c = "" /\ sa = []) \/
     (sasl_Mechanism c <> "" /\ exists m, sa = [SASL m (sasl_Username c) (sasl_Password c)])).
Proof.
  intros Hs. case_decide as Hm.
  - destruct (proj1 (saslMechanism_supported (E:=E) _) (Hs Hm)) as [m ->].
    eexists. cbn. split; [done|]. right. eauto.
  - exists []. rewrite app_nil_r. split; [done|]. left. split; [|done].
    by destruct (decide (sasl_Mechanism c = "")).
Qed.

Lemma kafka_opts_usable {E} ReadFile AppendCerts cfg :
  (sasl_Mechanism (kafka_SASL cfg) <> "" -> supported (sasl_Mechanism (kafka_SASL cfg))) ->
  ca_ok ReadFile AppendCerts (kafka_TLS cfg) ->
  exists opts, kafka_opts (E:=E) ReadFile AppendCerts cfg = Ok opts /\
    SeedBrokers (kafka_Brokers cfg) ∈ opts /\ DefaultProduceTopic (kafka_Topic cfg) ∈ opts /\
    MaxBufferedRecords kafkaMaxBuffered ∈ opts /\
    (exists id, ClientID id ∈ opts /\ id <> "") /\
    (tls_Enabled (kafka_TLS cfg) = true <->
       exists ca, DialTLSConfig ca (tls_InsecureSkipVerify (kafka_TLS cfg)) ∈ opts) /\
    (sasl_Mechanism (kafka_SASL cfg) <> "" <->
       exists m, SASL m (sasl_Username (kafka_SASL cfg)) (sasl_Password (kafka_SASL cfg)) ∈ opts).
Proof.
  intros Hsasl Hca. unfold kafka_opts. cbv zeta.
  set (id := if decide (kafka_ClientID cfg = "") then _ else _).
  assert (id <> "") as Hid by (unfold id; by case_decide).
  set (base := [SeedBrokers _; _; _; _; _]).
  destruct (tls_opts (E:=E) ReadFile AppendCerts (kafka_TLS cfg) base Hca) as (tls & -> & Htls).
  cbn [mbind result_bind].
  destruct (sasl_opts (E:=E) (kafka_SASL cfg) (base ++ tls) Hsasl) as (sa & Hsa' & Hsa).
  rewrite <- app_assoc in Hsa'. exists (base ++ tls ++ sa). unfold base in *. clear Hsasl Hca.
  split; [exact Hsa'|]. split; [set_solver|].
  split; [set_solver|]. split; [set_solver|]. split; [exists id; set_solver|]. clear Hsa'.
  split.
  - destruct Htls as [[-> ->]|[-> [ca ->]]]; [|split; [exists ca; set_solver|done]].
    split; [done|]. intros [ca Hin]. exfalso.
    destruct Hsa as [[_ ->]|[_ [m ->]]]; apply list_elem_of_In in Hin; cbn in Hin; naive_solver.
  - destruct Hsa as [[-> ->]|[Hne [m ->]]]; [|split; [exists m; set_solver|done]].
    split; [done|]. intros [m Hin]. exfalso.
    destruct Htls as [[_ ->]|[_ [ca ->]]]; apply list_elem_of_In in Hin; cbn in Hin; naive_solver.
Qed.

(** What [Check] found out. *)
Lemma Check_cases {C E} (RequestMetadata : C -> list string -> result E (list Z)) ErrorForCode topic cl :
  match Check RequestMetadata ErrorForCode topic cl with
  | None => exists code, RequestMetadata cl [topic] = Ok [code] /\ ErrorForCode code = None
  | Some (MetadataError e) => RequestMetadata cl [topic] = Err e
  | Some (MetadataTopics n) => exists codes, RequestMetadata cl [topic] = Ok codes /\
      length codes = n /\ n <> 1%nat
  | Some (TopicError t e) => t = topic /\ exists code, RequestMetadata cl [topic] = Ok [code] /\
      ErrorForCode code = Some e
  | Some _ => False
  end.
Proof.
  unfold Check. destruct (RequestMetadata cl [topic]) as [codes|e]; [|done].
  destruct (Nat.eqb_spec (length codes) 1) as [H1|H1]; cbn [negb]; [|by exists codes].
  destruct codes as [|code [|]]; try done. cbn [nth].
  destruct (ErrorForCode code) as [e|] eqn:He; [split; [done|]|]; by exists code.
Qed.

(** C35: a validated configuration always gets past its own startup code: with
    readable certificates the Kafka options are built, with brokers, topic, a
    client id, TLS exactly when enabled and authentication exactly when
    configured, so the unsupported-mechanism branch is dead; startup fails only
    if the client cannot be made or the brokers do not answer for exactly the
    topic without an error, and then closes the client it made; otherwise it
    yields the enabled sinks, stdout first, and at least one, over a client
    whose topic exists. *)
Theorem validated_config_builds_sinks {C E} (NewClient : list kgo_opt -> result E C)
    ReadFile AppendCerts (RequestMetadata : C -> list string -> result E (list Z)) ErrorForCode ec
    (Hvalid : Validate ec = None) (Hca : ca_ok ReadFile AppendCerts (kafka_TLS (emit_Kafka ec))) :
  let topic := kafka_Topic (emit_Kafka ec) in
  match buildSinks NewClient ReadFile AppendCerts RequestMetadata ErrorForCode ec with
  | (Ok (sinks, k), closed) =>
      sinks = (if StdoutEnabled ec then [SinkStdout] else []) ++
              (match k with Some cl => [SinkKafka cl] | None => [] end) /\
      sinks <> [] /\ (is_Some k <-> kafka_Enabled (emit_Kafka ec) = true) /\ closed = [] /\
      (forall cl, k = Some cl -> exists code, RequestMetadata cl [topic] = Ok [code] /\ ErrorForCode code = None)
  | (Err err, closed) =>
      kafka_Enabled (emit_Kafka ec) = true /\ exists opts,
        kafka_opts (E:=E) ReadFile AppendCerts (emit_Kafka ec) = Ok opts /\
        ((exists e, err = ClientError e /\ NewClient opts = Err e /\ closed = []) \/
         exists cl, NewClient opts = Ok cl /\ closed = [cl] /\
           ((exists e, err = MetadataError e /\ RequestMetadata cl [topic] = Err e) \/
            (exists codes, err = MetadataTopics (length codes) /\
               RequestMetadata cl [topic] = Ok codes /\ length codes <> 1%nat) \/
            (exists e code, err = TopicError topic e /\ RequestMetadata cl [topic] = Ok [code] /\
               ErrorForCode code = Some e)))
  end.
Proof.
  cbv zeta. apply Validate_usable in Hvalid as [Hsink Hkafka]. unfold buildSinks. cbv zeta.
  destruct (kafka_Enabled (emit_Kafka ec)) eqn:Hk.
  2: { destruct Hsink as [Hso|]; [|done]. rewrite Hso. by split_and!. }
  destruct (Hkafka eq_refl) as (_ & _ & Hs).
  destruct (kafka_opts_usable (E:=E) ReadFile AppendCerts (emit_Kafka ec)) as (opts & Ho & _);
    [intros Hm; by apply Hs|done|].
  unfold NewKafka. rewrite Ho. cbn [mbind result_bind].
  destruct (NewClient opts) as [cl|e] eqn:Hc; [|split; [done|]; exists opts; split; [done|]; left; by exists e].
  pose proof (Check_cases RequestMetadata ErrorForCode (kafka_Topic (emit_Kafka ec)) cl) as Hch.
  destruct (Check _ _ _ cl) as [err|].
  - split; [done|]. exists opts. split; [done|]. right. exists cl. split_and!; [done..|].
    destruct err as [| | | |e|n|t e]; try done.
    + left. by exists e.
    + destruct Hch as (codes & Hr & <- & Hn). right. left. by exists codes.
    + destruct Hch as (-> & code & Hr & He). right. right. by exists e, code.
  - split; [done|]. split; [by destruct (StdoutEnabled ec)|]. split; [by split; [|eexists]|].
    split; [done|]. by intros ? [= <-].
Qed.

(** The loaded value is below the caller's clock, the log is in order and its last
    time is [lastLog]. *)
Record cb_ok (x : callbacks) : Prop := {
  co_counts : counter_total (ke_counts (cb_errors x)) = N.of_nat (length (cb_calls x));
  co_pending : Forall (fun c => match c with
    | Counted r t => (r, t) ∈ cb_calls x
    | Loaded r t prev => (r, t) ∈ cb_calls x /\ prev < t
    end) (cb_pending x);
  co_sorted : StronglySorted Z.lt (map fst (ke_logged (cb_errors x)));
  co_last : Forall (fun t => t <= ke_lastLog (cb_errors x)) (map fst (ke_logged (cb_errors x)));
  co_logged : forall t r, (t, r) ∈ ke_logged (cb_errors x) -> (r, t) ∈ cb_calls x
}.

Lemma cb_ok_step x y : cb_ok x -> cb_step x y -> cb_ok y.
Proof.
  intros [H1 H2 H3 H4 H5] Hs. destruct Hs as [s ps cs r t|s ps1 ps2 cs r t|s ps1 ps2 cs r t prev];
    cbn [cb_errors cb_pending cb_calls] in *.
  - split; cbn [cb_errors cb_pending cb_calls ke_counts ke_lastLog ke_logged]; try done.
    + rewrite counter_total_inc, H1, length_app. cbn. lia.
    + apply Forall_app. split; [|repeat constructor; set_solver].
      eapply Forall_impl; [exact H2|]. intros [r' t'|r' t' p]; set_solver.
    + intros t' r' Hin%H5. set_solver.
  - apply Forall_app in H2 as [H2 [Hc H6]%Forall_cons]. split; cbn; try done.
    apply Forall_app. split; [done|]. apply Forall_app. split; [|done].
    destruct (Z.ltb_spec (ke_lastLog s) t); by repeat constructor.
  - apply Forall_app in H2 as [H2 [[Hc Hlt] H6]%Forall_cons].
    destruct (Z.eqb_spec (ke_lastLog s) prev) as [He|He]; split; cbn; try done; try (by apply Forall_app).
    + rewrite map_app. apply StronglySorted_app_2; [|done|by repeat constructor].
      intros a b Ha Hb. cbn in Hb. apply list_elem_of_singleton in Hb as ->.
      rewrite Forall_forall in H4. specialize (H4 a Ha). lia.
    + rewrite map_app. apply Forall_app. split; [|repeat constructor; cbn; lia].
      eapply Forall_impl; [exact H4|]. cbn. lia.
    + intros t' r' [Hin|Hin]%elem_of_app; [by apply H5|].
      apply list_elem_of_singleton in Hin. by injection Hin as -> ->.
Qed.

(** The Kafka error callback, called by any number of producer goroutines at
    once, counts every failure exactly once and logs at strictly increasing
    seconds, so at most one line a second, whoever wins the compare-and-swap; a
    line is always that of a failure.  Without contention a call behaves as
    [onErr]. *)
Lemma errors_counted_rarely_logged x (Hx : reachable (fun x => x = no_errors) cb_step x) :
  counter_total (ke_counts (cb_errors x)) = N.of_nat (length (cb_calls x)) /\
  StronglySorted Z.lt (map fst (ke_logged (cb_errors x))) /\
  (forall t r, (t, r) ∈ ke_logged (cb_errors x) -> (r, t) ∈ cb_calls x) /\
  forall reason now,
    rtc cb_step (mkCallbacks (cb_errors x) [] (cb_calls x))
      (mkCallbacks (onErr reason now (cb_errors x)) [] (cb_calls x ++ [(reason, now)])).
Proof.
  assert (cb_ok x) as [H1 _ H2 _ H3].
  { apply (reachable_invariant (fun x => x = no_errors) cb_step cb_ok); [|by apply cb_ok_step|done].
    intros ? ->. split; cbn; try done; try constructor. intros t r Hin. by apply elem_of_nil in Hin. }
  split_and!; try done. intros reason now. destruct (cb_errors x) as [counts lastLog logged].
  eapply rtc_l; [by apply (cb_call _ _ _ reason now)|]. cbn [app ke_counts ke_lastLog ke_logged].
  eapply rtc_l; [by apply (cb_load _ [] [])|]. cbn [app ke_lastLog]. unfold onErr. cbn [ke_counts ke_lastLog ke_logged].
  destruct (Z.ltb_spec lastLog now); [|done].
  eapply rtc_l; [by apply (cb_swap _ [] [])|]. cbn [app ke_lastLog]. by rewrite Z.eqb_refl.
Qed.

(** ** Witness *)

Definition sample_build (codes : list Z) :=
  buildSinks (C:=unit) (E:=string) (fun _ => Ok tt) (fun _ => None) (fun _ => false) (fun _ _ => Ok codes)
    (fun code => if code =? 0 then None else Some "unknown topic") (cfg_Emit (sample_kafka "secret")).

Lemma validated_config_builds_sinks_witness :
  sample_build [0] = (Ok ([SinkKafka tt], Some tt), []) /\ [SinkKafka tt] <> [] /\
  (sample_build [3]).2 = [tt].
Proof.
  assert (Validate (cfg_Emit (sample_kafka "secret")) = None) as Hv by (vm_compute; reflexivity).
  assert (ca_ok (fun _ => None) (fun _ => false) (kafka_TLS (emit_Kafka (cfg_Emit (sample_kafka "secret"))))) as Hca
    by (intros Ht; vm_compute in Ht; discriminate Ht).
  pose proof (fun codes => validated_config_builds_sinks (C:=unit) (E:=string) (fun _ => Ok tt) (fun _ => None)
    (fun _ => false) (fun _ _ => Ok codes) (fun code => if code =? 0 then None else Some "unknown topic")
    (cfg_Emit (sample_kafka "secret")) Hv Hca) as H.
  assert (sample_build [0] = (Ok ([SinkKafka tt], Some tt), [])) as Hb by (vm_compute; reflexivity).
  pose proof (H [0]) as H0. unfold sample_build in Hb. rewrite Hb in H0.
  split; [exact Hb|]. split; [apply H0|]. vm_compute. reflexivity.
Defined.

(** Two failures in the same second race for the line. *)
Definition raced : callbacks :=
  mkCallbacks (mkKafkaErrors (∅ ⊕ "produce" ⊕ "buffer_full") 7 [(7, "buffer_full")]) []
    [("produce", 7); ("buffer_full", 7)].
Lemma reach_raced : reachable (fun x => x = no_errors) cb_step raced.
Proof.
  pose proof (reach_init (fun x => x = no_errors) cb_step no_errors eq_refl) as H0.
  pose proof (reach_step _ _ _ _ H0 (cb_call _ _ _ "produce" 7) : reachable _ cb_step _) as H1.
  pose proof (reach_step _ _ _ _ H1 (cb_call _ _ _ "buffer_full" 7) : reachable _ cb_step _) as H2.
  pose proof (reach_step _ _ _ _ H2 (cb_load _ [] [Counted "buffer_full" 7] _ "produce" 7) : reachable _ cb_step _) as H3.
  pose proof (reach_step _ _ _ _ H3 (cb_load _ [Loaded "produce" 7 0] [] _ "buffer_full" 7) : reachable _ cb_step _) as H4.
  pose proof (reach_step _ _ _ _ H4 (cb_swap _ [Loaded "produce" 7 0] [] _ "buffer_full" 7 0) : reachable _ cb_step _) as H5.
  pose proof (reach_step _ _ _ _ H5 (cb_swap _ [] [] _ "produce" 7 0) : reachable _ cb_step _) as H6.
  exact H6.
Qed.

Lemma errors_counted_rarely_logged_witness :
  counter_total (ke_counts (cb_errors raced)) = 2%N /\
  StronglySorted Z.lt (map fst (ke_logged (cb_errors raced))).
Proof.
  destruct (errors_counted_rarely_logged raced reach_raced) as (H1 & H2 & _).
  split; [exact H1|exact H2].
Defined.
