(* ===== verification/Lifecycle.v ===== *)
(** * Lifecycle: the processor's run (cmd/sniffer/processor_linux.go)

    [runProcessor] loads its configuration, starts the controller, waits for it
    to be synced, builds the pipeline, serves and, once its context is cancelled,
    stops the server before it flushes Kafka.  [lstep] interleaves the main
    goroutine with the ones it starts: the gRPC server and its [Report] calls,
    the shutdown goroutine, the sweeps, and the controller's cache updates.  Of
    gRPC it uses what its documentation says of [GracefulStop]: no new call once
    it has begun, and it returns when the pending calls have. *)

From S2P Require Import Prelude Golang Telemetry Netip Model Ignore Resolver Dedup Wire.
From S2P Require Import Enrich Emit Processor Config Startup.
Open Scope string_scope.
Open Scope list_scope.
Open Scope Z_scope.

Definition dedupWindow : Duration := 30 * Second.

Section lifecycle.
Context {W C E : Type} {RO : RangeOrder string Time}.

(** ** Program counters *)

Inductive main_pc :=
| MLoad
| MClients (conf : Config) (m : Matcher)
| MAwait (conf : Config) (m : Matcher)   (* select on ctx.Done() and syncDone(ctrl) *)
| MSinks (conf : Config) (m : Matcher)
| MListen (k : option C)
| MServe (k : option C)
| MShutdown (k : option C)
| MSweep
| MReady
| MWait                                   (* g.Wait() *)
| MExit (err : bool).

Inductive srv_pc := VNone | VSpawned | VServing | VReturned.
Inductive shut_pc :=
| XNone
| XWaiting (k : option C)
| XStopping (k : option C)                (* in GracefulStop *)
| XStopped (k : option C)
| XDone.

(** [others] is whether the controller and the telemetry server run; [calls] are
    the records left to each Report call in progress; [hist] and [base] are
    ghosts: what happened to the pipeline since it was built, and the cache it
    was built on. *)
Record proc := mkProc {
  main : main_pc;
  cancelled : bool;
  synced : bool;
  others : bool;
  rdy : bool;
  srv : srv_pc;
  shut : shut_pc;
  sweeping : bool;
  calls : list (list FlowRecord);
  closed : bool;
  rcache : Resolver.Cache;
  pl : option (Pipeline Resolver.Cache W);
  clk : Time;
  hist : list (pop Resolver.Cache);
  base : Resolver.Cache
}.

Definition set_main (v : main_pc) (x : proc) : proc :=
  mkProc v (cancelled x) (synced x) (others x) (rdy x) (srv x) (shut x) (sweeping x) (calls x)
    (closed x) (rcache x) (pl x) (clk x) (hist x) (base x).
Definition set_cancelled (x : proc) : proc :=
  mkProc (main x) true (synced x) (others x) (rdy x) (srv x) (shut x) (sweeping x) (calls x)
    (closed x) (rcache x) (pl x) (clk x) (hist x) (base x).
Definition set_synced (x : proc) : proc :=
  mkProc (main x) (cancelled x) true (others x) (rdy x) (srv x) (shut x) (sweeping x) (calls x)
    (closed x) (rcache x) (pl x) (clk x) (hist x) (base x).
Definition set_others (v : bool) (x : proc) : proc :=
  mkProc (main x) (cancelled x) (synced x) v (rdy x) (srv x) (shut x) (sweeping x) (calls x)
    (closed x) (rcache x) (pl x) (clk x) (hist x) (base x).
Definition set_rdy (v : bool) (x : proc) : proc :=
  mkProc (main x) (cancelled x) (synced x) (others x) v (srv x) (shut x) (sweeping x) (calls x)
    (closed x) (rcache x) (pl x) (clk x) (hist x) (base x).
Definition set_srv (v : srv_pc) (x : proc) : proc :=
  mkProc (main x) (cancelled x) (synced x) (others x) (rdy x) v (shut x) (sweeping x) (calls x)
    (closed x) (rcache x) (pl x) (clk x) (hist x) (base x).
Definition set_shut (v : shut_pc) (x : proc) : proc :=
  mkProc (main x) (cancelled x) (synced x) (others x) (rdy x) (srv x) v (sweeping x) (calls x)
    (closed x) (rcache x) (pl x) (clk x) (hist x) (base x).
Definition set_sweeping (v : bool) (x : proc) : proc :=
  mkProc (main x) (cancelled x) (synced x) (others x) (rdy x) (srv x) (shut x) v (calls x)
    (closed x) (rcache x) (pl x) (clk x) (hist x) (base x).
Definition set_calls (v : list (list FlowRecord)) (x : proc) : proc :=
  mkProc (main x) (cancelled x) (synced x) (others x) (rdy x) (srv x) (shut x) (sweeping x) v
    (closed x) (rcache x) (pl x) (clk x) (hist x) (base x).
Definition set_closed (v : bool) (x : proc) : proc :=
  mkProc (main x) (cancelled x) (synced x) (others x) (rdy x) (srv x) (shut x) (sweeping x) (calls x)
    v (rcache x) (pl x) (clk x) (hist x) (base x).
Definition set_rcache (v : Resolver.Cache) (x : proc) : proc :=
  mkProc (main x) (cancelled x) (synced x) (others x) (rdy x) (srv x) (shut x) (sweeping x) (calls x)
    (closed x) v (pl x) (clk x) (hist x) (base x).
Definition set_pl (p : Pipeline Resolver.Cache W) (x : proc) : proc :=
  mkProc (main x) (cancelled x) (synced x) (others x) (rdy x) (srv x) (shut x) (sweeping x) (calls x)
    (closed x) (rcache x) (Some p) (clk x) (hist x) (base x).
(** The pipeline is built on the cache as it is. *)
Definition build_pl (p : Pipeline Resolver.Cache W) (x : proc) : proc :=
  mkProc (main x) (cancelled x) (synced x) (others x) (rdy x) (srv x) (shut x) (sweeping x) (calls x)
    (closed x) (rcache x) (Some p) (clk x) [] (rcache x).
(** Something happens to the pipeline at [now]. *)
Definition happen (o : pop Resolver.Cache) (now : Time) (x : proc) : proc :=
  mkProc (main x) (cancelled x) (synced x) (others x) (rdy x) (srv x) (shut x) (sweeping x) (calls x)
    (closed x) (rcache x) (Processor.pstep o <$> pl x) now (hist x ++ [o]) (base x).

(** ** The run *)

Context (path : string) (ReadFile : string -> option (list byte)) (Unmarshal : list byte -> option Config)
  (LookupEnv : string -> option string).
Context (NewClient : list kgo_opt -> result E C) (AppendCertsFromPEM : list byte -> bool)
  (RequestMetadata : C -> list string -> result E (list Z)) (ErrorForCode : Z -> option E).
Context (sink_of : @sink_kind C -> Sink W) (w0 : W) (start : Time).

Definition runProcessor_init (c : Resolver.Cache) : proc :=
  mkProc MLoad false false false false VNone XNone false [] false c None start [] c.

Definition load : result load_error Config := Load ReadFile Unmarshal LookupEnv path.
Definition sinks (conf : Config) : result (kafka_error E) (list (@sink_kind C) * option C) :=
  (buildSinks NewClient ReadFile AppendCertsFromPEM RequestMetadata ErrorForCode (cfg_Emit conf)).1.
Definition wire_pipeline (c : Resolver.Cache) (m : Matcher) (ks : list (@sink_kind C)) : Pipeline Resolver.Cache W :=
  NewPipeline c (Some m) (Dedup.New dedupWindow) (Multi (sink_of <$> ks)) w0.

Definition stopping (s : shut_pc) : bool :=
  match s with XStopping _ | XStopped _ | XDone => true | _ => false end.
Definition finished (s : shut_pc) : bool := match s with XNone | XDone => true | _ => false end.
Definition served (s : srv_pc) : bool := match s with VNone | VReturned => true | _ => false end.

(** The watch handlers, Istio's among them, may run from the start of the
    controllers to the end of the process: [g.Wait] waits for neither. *)
Definition live (x : proc) : bool :=
  match main x with MLoad | MClients _ _ | MExit _ => false | _ => true end.

Inductive lstep : proc -> proc -> Prop :=
(* the main goroutine *)
| l_load x conf m :
    main x = MLoad -> load = Ok conf -> Ignore.Compile (cfg_Ignore conf) = Ok m ->
    lstep x (set_main (MClients conf m) x)
| l_load_err x e : main x = MLoad -> load = Err e -> lstep x (set_main (MExit true) x)
| l_compile_err x conf e :
    main x = MLoad -> load = Ok conf -> Ignore.Compile (cfg_Ignore conf) = Err e ->
    lstep x (set_main (MExit true) x)
| l_clients x conf m : main x = MClients conf m -> lstep x (set_main (MAwait conf m) (set_others true x))
| l_clients_err x conf m : main x = MClients conf m -> lstep x (set_main (MExit true) x)
| l_await_done x conf m : main x = MAwait conf m -> cancelled x = true -> lstep x (set_main MWait x)
| l_await_synced x conf m : main x = MAwait conf m -> synced x = true -> lstep x (set_main (MSinks conf m) x)
| l_sinks x conf m ks k :
    main x = MSinks conf m -> sinks conf = Ok (ks, k) ->
    lstep x (set_main (MListen k) (build_pl (wire_pipeline (rcache x) m ks) x))
| l_sinks_err x conf m e :
    main x = MSinks conf m -> sinks conf = Err e -> lstep x (set_main (MExit true) x)
| l_listen x k : main x = MListen k -> lstep x (set_main (MServe k) x)
| l_listen_err x k : main x = MListen k -> lstep x (set_main (MExit true) x)
| l_go_serve x k : main x = MServe k -> lstep x (set_main (MShutdown k) (set_srv VSpawned x))
| l_go_shutdown x k : main x = MShutdown k -> lstep x (set_main MSweep (set_shut (XWaiting k) x))
| l_go_sweep x : main x = MSweep -> lstep x (set_main MReady (set_sweeping true x))
| l_ready x : main x = MReady -> lstep x (set_main MWait (set_rdy true x))
| l_wait x err :
    main x = MWait -> others x = false -> served (srv x) = true -> finished (shut x) = true ->
    sweeping x = false -> lstep x (set_main (MExit err) x)
(* a signal, or the failure of a goroutine of the group *)
| l_cancel x : lstep x (set_cancelled x)
(* the controllers and the telemetry server *)
| l_synced x : others x = true -> lstep x (set_synced x)
| l_cache x c : live x = true -> pl x = None -> lstep x (set_rcache c x)
| l_cache_pl x c p :
    live x = true -> pl x = Some p -> lstep x (set_rcache c (happen (PCache c) (clk x) x))
| l_others_return x : cancelled x = true -> lstep x (set_others false x)
(* the server *)
| l_serve x : srv x = VSpawned -> stopping (shut x) = false -> lstep x (set_srv VServing x)
| l_serve_return x : served (srv x) = false -> stopping (shut x) = true -> lstep x (set_srv VReturned x)
| l_serve_err x : served (srv x) = false -> lstep x (set_cancelled (set_srv VReturned x))
| l_call x p req :
    srv x = VServing -> stopping (shut x) = false -> pl x = Some p ->
    lstep x (set_calls (calls x ++ [Records req]) (set_pl (inc_batches p) x))
| l_record x p cs1 r rs cs2 now :
    calls x = cs1 ++ (r :: rs) :: cs2 -> pl x = Some p -> clk x <= now ->
    lstep x (set_calls (cs1 ++ rs :: cs2) (happen (PRecord r now) now x))
| l_return x cs1 cs2 : calls x = cs1 ++ [] :: cs2 -> lstep x (set_calls (cs1 ++ cs2) x)
(* the shutdown goroutine *)
| l_shut x k :
    shut x = XWaiting k -> cancelled x = true -> lstep x (set_shut (XStopping k) (set_rdy false x))
| l_stopped x k : shut x = XStopping k -> calls x = [] -> lstep x (set_shut (XStopped k) x)
| l_close x k :
    shut x = XStopped k -> lstep x (set_shut XDone (set_closed (bool_decide (is_Some k)) x))
(* sweepLoop *)
| l_sweep x p now :
    sweeping x = true -> pl x = Some p -> clk x <= now -> lstep x (happen (PSweep now) now x)
| l_sweep_return x : sweeping x = true -> cancelled x = true -> lstep x (set_sweeping false x).

Definition lreachable (c : Resolver.Cache) : proc -> Prop :=
  reachable (fun x => x = runProcessor_init c) lstep.
End lifecycle.

(** ** Invariants *)

Section invariants.
Context {W C E : Type} {RO : RangeOrder string Time}.
Context (path : string) (ReadFile : string -> option (list byte)) (Unmarshal : list byte -> option Config)
  (LookupEnv : string -> option string).
Context (NewClient : list kgo_opt -> result E C) (AppendCertsFromPEM : list byte -> bool)
  (RequestMetadata : C -> list string -> result E (list Z)) (ErrorForCode : Z -> option E).
Context (sink_of : @sink_kind C -> Sink W) (w0 : W) (start : Time).
Abbreviation step := (lstep path ReadFile Unmarshal LookupEnv NewClient AppendCertsFromPEM RequestMetadata ErrorForCode sink_of w0).
Abbreviation Sinks := (sinks ReadFile NewClient AppendCertsFromPEM RequestMetadata ErrorForCode).
Abbreviation LoadConf := (load path ReadFile Unmarshal LookupEnv).
Implicit Types (x y : @proc W C).

Definition built x : bool := match pl x with Some _ => true | None => false end.
Definition spawned x : bool := match srv x with VNone => false | _ => true end.
Definition guarded x : bool := match shut x with XNone => false | _ => true end.
Definition drained x : bool := match shut x with XStopped _ | XDone => true | _ => false end.
Definition over x : bool := match shut x with XDone => true | _ => false end.
Definition busy x : bool := match calls x with [] => false | _ => true end.

(** What the main goroutine has started so far: the pipeline, the server, the
    shutdown goroutine. *)
Definition stage x : bool :=
  match main x with
  | MLoad | MClients _ _ | MAwait _ _ | MSinks _ _ => negb (built x)
  | MListen _ | MServe _ => built x && negb (spawned x)
  | MShutdown _ => spawned x && negb (guarded x)
  | MSweep | MReady => guarded x
  | MWait => implb (spawned x) (guarded x)
  | MExit _ => true
  end.

Record ordered x : Prop := {
  o_stage : stage x = true;
  o_synced : built x = true -> synced x = true;
  o_srv : spawned x = true -> built x = true;
  o_shut : guarded x = true -> spawned x = true;
  o_sweep : sweeping x = true -> built x = true;
  o_rdy : rdy x = true -> spawned x = true;
  o_calls : busy x = true -> spawned x = true /\ drained x = false;
  o_closed : closed x = true -> over x = true;
  o_sinks : match main x with MSinks _ _ => synced x = true | _ => True end
}.

Lemma ordered_init c : ordered (runProcessor_init start c).
Proof. by split. Qed.

Lemma busy_mid x cs1 c cs2 : calls x = cs1 ++ c :: cs2 -> busy x = true.
Proof. unfold busy. intros ->. by destruct cs1. Qed.

Ltac flags := unfold stage, built, spawned, guarded, drained, over, busy in *.

Lemma ordered_step x y : ordered x -> step x y -> ordered y.
Proof.
  intros [H1 H2 H3 H4 H5 H6 H7 H8 H9] Hs.
  destruct Hs; try (pose proof (busy_mid x _ _ _ H) as Hb);
    destruct x as [ma ca sy ot rd sr sh sw cl co rc [p'|] ck hi ba]; flags; cbn in *; simplify_eq; cbn in *; try done;
    try destruct sr; try destruct sh; try destruct ma; cbn in *; try done;
    split; flags; cbn in *; intros; try done; try tauto; try (by apply H6); try (by apply H8); try (split; [done|]; try done).
Qed.

(** ** The pipeline's history *)

Record tracked x : Prop := {
  t_loaded : match main x with
    | MClients conf m | MAwait conf m | MSinks conf m =>
        LoadConf = Ok conf /\ Ignore.Compile (cfg_Ignore conf) = Ok m
    | _ => True
    end;
  t_start : start <= clk x;
  t_run : forall p, pl x = Some p -> exists conf m ks k,
    LoadConf = Ok conf /\ Ignore.Compile (cfg_Ignore conf) = Ok m /\ Sinks conf = Ok (ks, k) /\
    same p (prun (hist x) (wire_pipeline sink_of w0 (base x) m ks)) /\
    clock_from start (hist x) /\ latest start (hist x) <= clk x
}.

Lemma tracked_happen x o now p :
  tracked x -> pl x = Some p -> clk x <= now ->
  match o with PRecord _ t | PSweep t => t = now | PCache _ => True end -> tracked (happen o now x).
Proof.
  intros [Hl Hs Hr] Hp Hle Ho. split; [done|cbn; lia|]. intros p' Hp'. cbn in *. rewrite Hp in Hp'.
  injection Hp' as <-. destruct (Hr p Hp) as (conf & m & ks & k & ? & ? & ? & Hsame & Hc & Hla).
  exists conf, m, ks, k. split_and!; [done..| | |].
  - unfold prun. rewrite foldl_snoc. by apply same_pstep.
  - apply clock_from_snoc; [done|]. destruct o; [subst; lia..|done].
  - unfold latest. rewrite foldl_snoc. destruct o; [lia..|]. fold (latest start (hist x)). lia.
Qed.

Lemma tracked_frame x y :
  tracked x -> pl y = pl x -> clk y = clk x -> hist y = hist x -> base y = base x ->
  match main y with
  | MClients conf m | MAwait conf m | MSinks conf m =>
      LoadConf = Ok conf /\ Ignore.Compile (cfg_Ignore conf) = Ok m
  | _ => True
  end -> tracked y.
Proof. intros [Hl Hs Hr] Hp Hc Hh Hb Hm. split; [done|by rewrite Hc|]. by rewrite Hp, Hh, Hb, Hc. Qed.

Lemma tracked_step x y : tracked x -> step x y -> tracked y.
Proof.
  intros Ht Hs. pose proof Ht as [Hl Hst Hr].
  destruct Hs; try (by apply (tracked_frame x));
    try (apply (tracked_frame x); [done..|cbn; by rewrite ?H in Hl || by rewrite H in *; done]).
  - rewrite H in Hl. destruct Hl as [Hlo Hco]. split; cbn; [done|done|]. intros p [= <-].
    by exists conf, m, ks, k.
  - apply (tracked_frame (happen (PCache c) (clk x) x)); [|done..].
    by apply (tracked_happen x (PCache c) (clk x) p).
  - split; cbn; [done|done|]. intros p' [= <-].
    destruct (Hr p H1) as (conf & m & ks & k & ? & ? & ? & Hsame & ? & ?).
    exists conf, m, ks, k. split_and!; try done; destruct Hsame as (? & ? & ? & ? & ? & ?); done.
  - apply (tracked_frame (happen (PRecord r now) now x)); [|done..]. by apply (tracked_happen x _ now p).
  - by apply (tracked_happen x _ now p).
Qed.

Lemma lreachable_inv c x :
  lreachable path ReadFile Unmarshal LookupEnv NewClient AppendCertsFromPEM RequestMetadata ErrorForCode sink_of w0 start c x ->
  ordered x /\ tracked x.
Proof.
  revert x. apply (reachable_invariant _ _ (fun x => ordered x /\ tracked x)).
  - intros ? ->. split; [apply ordered_init|]. by split.
  - intros x1 x2 [Ho Ht] Hs. split; [by apply (ordered_step x1)|by apply (tracked_step x1)].
Qed.

(** ** Shutting down *)

Definition main_left x : nat :=
  match main x with
  | MLoad => 10 | MClients _ _ => 9 | MAwait _ _ => 8 | MSinks _ _ => 7 | MListen _ => 6 | MServe _ => 5
  | MShutdown _ => 4 | MSweep => 3 | MReady => 2 | MWait => 1 | MExit _ => 0
  end%nat.
Definition shut_left x : nat :=
  match shut x with XNone => 4 | XWaiting _ => 3 | XStopping _ => 2 | XStopped _ => 1 | XDone => 0 end%nat.
Definition srv_left x : nat :=
  match srv x with VNone => 2 | VSpawned | VServing => 1 | VReturned => 0 end%nat.
Definition calls_left x : nat := sum_list_with (fun rs => S (length rs)) (calls x).
Definition work_left x : nat :=
  (4 * main_left x + shut_left x + srv_left x + calls_left x +
   Nat.b2n (others x) + Nat.b2n (sweeping x))%nat.

Definition exited x : bool := match main x with MExit _ => true | _ => false end.

Ltac shuts := unfold work_left, main_left, shut_left, srv_left, calls_left.

Lemma shutdown_step x :
  ordered x -> cancelled x = true -> main x = MWait ->
  exists y, step x y /\ cancelled y = true /\ (work_left y < work_left x)%nat.
Proof.
  intros Ho Hc Hm. pose proof (o_stage x Ho) as Hst.
  destruct (others x) eqn:Hot.
  { eexists. split; [by apply l_others_return|]. split; [done|]. shuts. cbn. rewrite Hot. cbn. lia. }
  destruct (sweeping x) eqn:Hsw.
  { eexists. split; [by apply l_sweep_return|]. split; [done|]. shuts. cbn. rewrite Hsw. cbn. lia. }
  destruct (served (srv x) && finished (shut x)) eqn:Hdone.
  { apply andb_true_iff in Hdone as [? ?]. exists (set_main (MExit false) x).
    split; [by apply l_wait|]. split; [done|]. shuts. cbn. rewrite Hm. lia. }
  destruct (shut x) as [|k|k|k|] eqn:Hsh.
  - unfold stage in Hst. rewrite Hm in Hst. unfold spawned, guarded in Hst. rewrite Hsh in Hst.
    by destruct (srv x).
  - eexists. split; [by apply (l_shut _ _ _ _ _ _ _ _ _ _ x k)|]. split; [done|]. shuts. cbn. rewrite Hsh. lia.
  - destruct (calls x) as [|[|r rs] cs] eqn:Hca.
    + eexists. split; [by apply (l_stopped _ _ _ _ _ _ _ _ _ _ x k)|]. split; [done|]. shuts. cbn. rewrite Hsh. lia.
    + eexists. split; [by apply (l_return _ _ _ _ _ _ _ _ _ _ x [] cs)|]. split; [done|]. shuts. cbn.
      rewrite Hca. cbn. lia.
    + destruct (pl x) as [p|] eqn:Hp.
      * exists (set_calls ([] ++ rs :: cs) (happen (PRecord r (clk x)) (clk x) x)).
        split; [by apply (l_record _ _ _ _ _ _ _ _ _ _ x p)|]. split; [done|]. shuts. cbn. rewrite Hca. cbn. lia.
      * assert (built x = true) as Hb; [|unfold built in Hb; by rewrite Hp in Hb].
        apply (o_srv x Ho), (o_calls x Ho). unfold busy. by rewrite Hca.
  - eexists. split; [by apply (l_close _ _ _ _ _ _ _ _ _ _ x k)|]. split; [done|]. shuts. cbn. rewrite Hsh. lia.
  - cbn in Hdone. rewrite andb_true_r in Hdone. eexists. split; [apply l_serve_return; [done|by rewrite Hsh]|].
    split; [done|]. shuts. cbn. by destruct (srv x); cbn in *; try done; lia.
Qed.

Lemma main_step x :
  cancelled x = true -> exited x = false -> main x <> MWait ->
  exists y, step x y /\ cancelled y = true /\ (work_left y < work_left x)%nat.
Proof.
  intros Hc He Hm. unfold exited in He. destruct (main x) as [|conf m|conf m|conf m|k|k|k| | | |err] eqn:Hmx; try done.
  - destruct LoadConf as [conf|e] eqn:Hl.
    + destruct (Ignore.Compile (cfg_Ignore conf)) as [m|e] eqn:Hco.
      * eexists. split; [by eapply l_load|]. split; [done|]. shuts. cbn. rewrite Hmx. lia.
      * eexists. split; [by eapply l_compile_err|]. split; [done|]. shuts. cbn. rewrite Hmx. lia.
    + eexists. split; [by eapply l_load_err|]. split; [done|]. shuts. cbn. rewrite Hmx. lia.
  - eexists. split; [by eapply l_clients|]. split; [done|]. shuts. cbn. rewrite Hmx. destruct (others x); cbn; lia.
  - eexists. split; [by eapply l_await_done|]. split; [done|]. shuts. cbn. rewrite Hmx. lia.
  - destruct (Sinks conf) as [[ks k]|e] eqn:Hk.
    + eexists. split; [by eapply l_sinks|]. split; [done|]. shuts. cbn. rewrite Hmx. lia.
    + eexists. split; [by eapply l_sinks_err|]. split; [done|]. shuts. cbn. rewrite Hmx. lia.
  - eexists. split; [by eapply l_listen|]. split; [done|]. shuts. cbn. rewrite Hmx. lia.
  - eexists. split; [by eapply l_go_serve|]. split; [done|]. shuts. cbn. rewrite Hmx. destruct (srv x); lia.
  - eexists. split; [by eapply l_go_shutdown|]. split; [done|]. shuts. cbn. rewrite Hmx. destruct (shut x); lia.
  - eexists. split; [by eapply l_go_sweep|]. split; [done|]. shuts. cbn. rewrite Hmx. destruct (sweeping x); cbn; lia.
  - eexists. split; [by eapply l_ready|]. split; [done|]. shuts. cbn. rewrite Hmx. lia.
Qed.

Lemma shuts_down n x :
  (work_left x <= n)%nat -> ordered x -> cancelled x = true ->
  exists y, rtc step x y /\ exited y = true.
Proof.
  revert x. induction n as [|n IH]; intros x Hn Ho Hc; destruct (exited x) eqn:He; try by exists x.
  all: assert (exists y, step x y /\ cancelled y = true /\ (work_left y < work_left x)%nat) as (y & Hs & Hcy & Hlt);
    [destruct (main x) eqn:Hm; try (apply main_step; [done|done|by rewrite Hm]); by apply shutdown_step|].
  - lia.
  - destruct (IH y) as (z & Hz & Hez); [lia|by apply (ordered_step x)|done|].
    exists z. split; [|done]. by eapply rtc_l.
Qed.

(** ** Kafka *)

Definition kafka_is (k : option C) : Prop := exists conf ks, LoadConf = Ok conf /\ Sinks conf = Ok (ks, k).

Definition kafka_ok x : Prop :=
  match main x with MListen k | MServe k | MShutdown k => kafka_is k | _ => True end /\
  match shut x with
  | XNone => closed x = false
  | XWaiting k | XStopping k | XStopped k => kafka_is k
  | XDone => exists k, kafka_is k /\ closed x = bool_decide (is_Some k)
  end.

Lemma kafka_ok_step x y : tracked x -> kafka_ok x -> step x y -> kafka_ok y.
Proof.
  intros Ht [Hm Hs] Hst.
  destruct Hst; unfold kafka_ok; cbn; rewrite ?H in Hm; rewrite ?H in Hs; try (by split); try (by split; [|eauto]).
  pose proof (t_loaded x Ht) as Hl. rewrite H in Hl. destruct Hl. split; [|done]. by exists conf, ks.
Qed.

Lemma kafka_ok_reachable c x :
  lreachable path ReadFile Unmarshal LookupEnv NewClient AppendCertsFromPEM RequestMetadata ErrorForCode sink_of w0 start c x ->
  kafka_ok x.
Proof.
  intros Hr. enough (tracked x /\ kafka_ok x) by tauto. revert x Hr.
  apply (reachable_invariant _ _ (fun x => tracked x /\ kafka_ok x)).
  - intros ? ->. by split.
  - intros x1 x2 [Ht Hk] Hs. split; [by apply (tracked_step x1)|by apply (kafka_ok_step x1)].
Qed.

Lemma closed_frame x y :
  ordered x -> closed x = true -> step x y ->
  calls y = [] /\ world <$> pl y = world <$> pl x /\
  (fun p => MRecords (pm p)) <$> pl y = (fun p => MRecords (pm p)) <$> pl x.
Proof.
  intros Ho Hc Hs. pose proof (o_closed x Ho Hc) as Hov.
  assert (calls x = []) as Hca.
  { destruct (calls x) as [|r rs] eqn:Hca; [done|].
    destruct (o_calls x Ho) as [_ Hd]; [unfold busy; by rewrite Hca|].
    unfold drained in Hd. unfold over in Hov. by destruct (shut x). }
  assert (stopping (shut x) = true) as Hstop by (unfold over in Hov; by destruct (shut x)).
  assert (built x = true) as Hb.
  { apply (o_srv x Ho), (o_shut x Ho). unfold guarded. unfold over in Hov. by destruct (shut x). }
  destruct Hs; cbn; try done; try (by rewrite H in Hca || rewrite Hca in H; by destruct cs1).
  - pose proof (o_stage x Ho) as Hst. unfold stage in Hst. by rewrite H, Hb in Hst.
  - by rewrite H0.
  - by rewrite Hstop in H0.
  - by rewrite H0.
Qed.
End invariants.

(** ** Properties *)

Section properties.
Context {W C E : Type} {RO : RangeOrder string Time}.
Context (path : string) (ReadFile : string -> option (list byte)) (Unmarshal : list byte -> option Config)
  (LookupEnv : string -> option string).
Context (NewClient : list kgo_opt -> result E C) (AppendCertsFromPEM : list byte -> bool)
  (RequestMetadata : C -> list string -> result E (list Z)) (ErrorForCode : Z -> option E).
Context (sink_of : @sink_kind C -> Sink W) (w0 : W) (start : Time).
Abbreviation step := (lstep path ReadFile Unmarshal LookupEnv NewClient AppendCertsFromPEM RequestMetadata ErrorForCode sink_of w0).
Abbreviation Sinks := (sinks ReadFile NewClient AppendCertsFromPEM RequestMetadata ErrorForCode).
Abbreviation LoadConf := (load path ReadFile Unmarshal LookupEnv).
Abbreviation run := (lreachable path ReadFile Unmarshal LookupEnv NewClient AppendCertsFromPEM RequestMetadata ErrorForCode sink_of w0 start).

(** Readiness is only set once: after the start of the run is over it can only be
    withdrawn. *)
Definition settled_main (x : @proc W C) : Prop := main x = MWait \/ exited x = true.
Lemma withdrawn_step (x y : @proc W C) :
  step x y -> settled_main x -> rdy x = false -> settled_main y /\ rdy y = false.
Proof.
  unfold settled_main, exited. intros Hs [Hm|Hm] Hr; destruct Hs; cbn in *; rewrite ?Hm in *; try done; auto. all: by rewrite H in Hm.
Qed.
Lemma withdrawn_for_good (x y : @proc W C) :
  rtc step x y -> settled_main x -> rdy x = false -> rdy y = false.
Proof. induction 1 as [|x y z Hs _ IH]; [done|]. intros Hm Hr. by destruct (withdrawn_step x y Hs Hm Hr); apply IH. Qed.

(** C10: the processor works only when it may.  In every reachable state, whatever
    the interleaving of its goroutines: a Report call is in progress, or /readyz
    answers 200, only after the Kubernetes controller was synced and the pipeline
    built; while a call is in progress Kafka is not closed; once it is, no step
    handles a record or writes to a sink; a run that ends by itself after it
    served has closed Kafka exactly if it has one; and once the main goroutine
    waits for the others, a readiness that was withdrawn stays so.  Before that it
    need not: the main goroutine's last step sets it again, whatever the shutdown
    has done meanwhile, the closing of Kafka included ([ready_after_close]). *)
Theorem serves_only_when_warm c (x : @proc W C) (Hx : run c x) :
  (calls x <> [] -> synced x = true /\ is_Some (pl x) /\ closed x = false) /\
  (forall m nf, serveHTTP m nf (Some (rdy x)) "/readyz" = StatusOK -> synced x = true /\ is_Some (pl x)) /\
  (closed x = true -> forall y, step x y ->
     calls y = [] /\ world <$> pl y = world <$> pl x /\
     (fun p => MRecords (pm p)) <$> pl y = (fun p => MRecords (pm p)) <$> pl x) /\
  (forall conf ks k y, LoadConf = Ok conf -> Sinks conf = Ok (ks, k) ->
     main x = MWait -> srv x <> VNone -> step x y -> exited y = true -> closed x = bool_decide (is_Some k)) /\
  (main x = MWait -> rdy x = false -> forall y m nf, rtc step x y ->
     serveHTTP m nf (Some (rdy y)) "/readyz" = StatusServiceUnavailable).
Proof.
  destruct (lreachable_inv _ _ _ _ _ _ _ _ _ _ _ _ _ Hx) as [Ho _].
  assert (built x = true -> is_Some (pl x)) as Hbu by (unfold built; by destruct (pl x)).
  split_and!.
  - intros Hca. assert (busy x = true) as Hb by (unfold busy; by destruct (calls x)).
    destruct (o_calls x Ho Hb) as [Hsp Hd]. pose proof (o_srv x Ho Hsp) as Hbt.
    split_and!; [by apply (o_synced x Ho)|by apply Hbu|]. destruct (closed x) eqn:Hc; [|done].
    pose proof (o_closed x Ho Hc) as Hov. unfold over in Hov. unfold drained in Hd. by destruct (shut x).
  - intros m nf Hok. assert (rdy x = true) as Hr by (by destruct (rdy x)).
    pose proof (o_srv x Ho (o_rdy x Ho Hr)) as Hbt. split; [by apply (o_synced x Ho)|by apply Hbu].
  - intros Hc y Hs. by eapply closed_frame.
  - intros conf ks k y Hl Hk Hm Hsrv Hs He.
    destruct (kafka_ok_reachable _ _ _ _ _ _ _ _ _ _ _ _ _ Hx) as [_ Hsh].
    pose proof (o_stage x Ho) as Hst. unfold stage in Hst. rewrite Hm in Hst.
    destruct Hs; unfold exited in *; cbn in *; try (by rewrite Hm in He); try congruence.
    unfold spawned, guarded in Hst. destruct (shut x); try done; [by destruct (srv x)|].
    destruct Hsh as (k' & (conf' & ks' & Hl' & Hk') & ->).
    rewrite Hl in Hl'. injection Hl' as <-. rewrite Hk in Hk'. by injection Hk' as <- <-.
  - intros Hm Hr y m nf Hs. by rewrite (withdrawn_for_good x y Hs ltac:(by left) Hr).
Qed.

(** C2: what a processor emits over its whole run, from the first call to the last
    before it stops, is what the declarative pipeline prescribes: with the
    configuration and the ignore list it loaded, the window of 30 s, and the
    history of records, sweeps and cache updates since the cache was synced, in
    the order its concurrent calls reached the pipeline, every configured sink
    gets exactly the specified edges and every record its specified label. *)
Theorem run_emits_as_specified c (x : @proc W C) p (Hx : run c x) (Hp : pl x = Some p) :
  exists conf m ks k,
    LoadConf = Ok conf /\ Ignore.Compile (cfg_Ignore conf) = Ok m /\ Sinks conf = Ok (ks, k) /\
    synced x = true /\
    let '(labels, edges) := spec_run dedupWindow (Some m) (base x) [] (hist x) in
    world p = foldl (fun w sc => Multi (sink_of <$> ks) sc w) w0 edges /\
    MRecords (pm p) = foldl (fun m l => m ⊕ l) ∅ labels.
Proof.
  destruct (lreachable_inv _ _ _ _ _ _ _ _ _ _ _ _ _ Hx) as [Ho Ht].
  destruct (t_run _ _ _ _ _ _ _ _ _ _ _ _ Ht p Hp) as (conf & m & ks & k & Hl & Hm & Hk & Hsame & Hclk & _).
  exists conf, m, ks, k. split_and!; [done..| |].
  - apply (o_synced x Ho). unfold built. by rewrite Hp.
  - destruct Hsame as (_ & _ & _ & _ & -> & ->).
    apply (prun_spec dedupWindow ltac:(by vm_compute) (hist x) start
      (wire_pipeline sink_of w0 (base x) m ks) [] Hclk). by apply New_tracks.
Qed.

(** C33: shutting down never gets stuck: from every reachable state in which the
    context is cancelled, whatever had been started and whichever calls are in
    progress, the goroutines can all finish and the process exits. *)
Theorem shutdown_completes c (x : @proc W C) (Hx : run c x) (Hc : cancelled x = true) :
  exists y, rtc step x y /\ exited y = true.
Proof.
  destruct (lreachable_inv _ _ _ _ _ _ _ _ _ _ _ _ _ Hx) as [Ho _]. by eapply shuts_down.
Qed.
End properties.

(** ** A run, from start to exit *)

Section run.
#[local] Instance run_order : RangeOrder string Time := canonical_order.

Definition run_conf : Config := sample_kafka "pw".
Definition run_matcher : Matcher :=
  match Ignore.Compile (cfg_Ignore run_conf) with Ok m => m | Err _ => mkMatcher [] end.
Definition run_load : result load_error Config :=
  load "/etc/c.yaml" (fun _ => Some []) (fun _ => Some run_conf) (fun _ => None).
Abbreviation run_step :=
  (lstep "/etc/c.yaml" (fun _ => Some []) (fun _ => Some run_conf) (fun _ => None)
     (fun _ => Ok tt : result unit unit) (fun _ => true) (fun _ _ => Ok [0]) (fun _ => None) (fun _ => list_sink) []).
Abbreviation run_reach :=
  (lreachable "/etc/c.yaml" (fun _ => Some []) (fun _ => Some run_conf) (fun _ => None)
     (fun _ => Ok tt : result unit unit) (fun _ => true) (fun _ _ => Ok [0]) (fun _ => None) (fun _ => list_sink) [] 0 shop_cache).

(** Synced, built and serving, with every goroutine started. *)
Definition run_built : @proc (list ServiceCall) unit :=
  let x := set_others true (set_main (MClients run_conf run_matcher) (runProcessor_init 0 shop_cache)) in
  let x := set_main (MSinks run_conf run_matcher) (set_synced (set_main (MAwait run_conf run_matcher) x)) in
  set_main (MListen (Some tt))
    (build_pl (wire_pipeline (fun _ => list_sink) [] shop_cache run_matcher [SinkKafka tt]) x).
Definition run_serving : @proc (list ServiceCall) unit :=
  let x := set_main (MShutdown (Some tt)) (set_srv VSpawned (set_main (MServe (Some tt)) run_built)) in
  let x := set_main MReady (set_sweeping true (set_main MSweep (set_shut (XWaiting (Some tt)) x))) in
  set_srv VServing (set_main MWait (set_rdy true x)).
(** A call with one record, handled. *)
Definition run_called : @proc (list ServiceCall) unit :=
  let x := run_serving in
  set_calls ([] ++ [Records (mkReportRequest "n1" [shop_record true])])
    (set_pl (inc_batches (wire_pipeline (fun _ => list_sink) [] shop_cache run_matcher [SinkKafka tt])) x).
Definition run_handled : @proc (list ServiceCall) unit :=
  set_calls ([] ++ [] :: []) (happen (PRecord (shop_record true) 5) 5 run_called).
(** Cancelled with the call in progress, then stopped. *)
Definition run_cancelled : @proc (list ServiceCall) unit := set_cancelled run_handled.
Definition run_closed : @proc (list ServiceCall) unit :=
  let x := set_shut (XStopping (Some tt)) (set_rdy false run_cancelled) in
  let x := set_shut (XStopped (Some tt)) (set_calls ([] ++ []) x) in
  let x := set_shut XDone (set_closed (bool_decide (is_Some (Some tt))) x) in
  set_others false (set_sweeping false (set_srv VReturned x)).

Lemma run_reach_built : run_reach run_built.
Proof.
  eapply reach_step; [|eapply l_sinks; vm_compute; reflexivity].
  eapply reach_step; [|eapply l_await_synced; reflexivity].
  eapply reach_step; [|eapply l_synced; reflexivity].
  eapply reach_step; [|eapply l_clients; reflexivity].
  eapply reach_step; [by apply reach_init|]. eapply l_load; vm_compute; reflexivity.
Qed.

Lemma run_reach_handled : run_reach run_handled.
Proof.
  eapply reach_step; [|eapply l_record; [reflexivity|reflexivity|by vm_compute]].
  eapply reach_step; [|eapply l_call; reflexivity].
  eapply reach_step; [|eapply l_serve; reflexivity].
  eapply reach_step; [|eapply l_ready; reflexivity].
  eapply reach_step; [|eapply l_go_sweep; reflexivity].
  eapply reach_step; [|eapply l_go_shutdown; reflexivity].
  eapply reach_step; [|eapply l_go_serve; reflexivity].
  eapply reach_step; [|eapply l_listen; reflexivity].
  apply run_reach_built.
Qed.

Lemma run_reach_cancelled : run_reach run_cancelled.
Proof. eapply reach_step; [apply run_reach_handled|apply l_cancel]. Qed.

Lemma run_reach_closed : run_reach run_closed.
Proof.
  eapply reach_step; [|eapply l_others_return; reflexivity].
  eapply reach_step; [|eapply l_sweep_return; reflexivity].
  eapply reach_step; [|eapply l_serve_return; reflexivity].
  eapply reach_step; [|eapply l_close; reflexivity].
  eapply reach_step; [|eapply l_stopped; reflexivity].
  eapply reach_step; [|eapply l_return; reflexivity].
  eapply reach_step; [|eapply l_shut; reflexivity].
  apply run_reach_cancelled.
Qed.

(** The two goroutines that store into [ready] race.  Cancelled while the main
    goroutine is about to start the sweeping one, a process can withdraw its
    readiness, stop the server and close Kafka, and then say that it is ready: a
    state is reachable in which the handler of /readyz answers 200 and Kafka is
    closed. *)
Definition run_raced : @proc (list ServiceCall) unit :=
  let x := set_main (MShutdown (Some tt)) (set_srv VSpawned (set_main (MServe (Some tt)) run_built)) in
  let x := set_cancelled (set_main MSweep (set_shut (XWaiting (Some tt)) x)) in
  let x := set_shut (XStopped (Some tt)) (set_shut (XStopping (Some tt)) (set_rdy false x)) in
  let x := set_shut XDone (set_closed (bool_decide (is_Some (Some tt))) x) in
  set_main MWait (set_rdy true (set_main MReady (set_sweeping true x))).
Lemma ready_after_close :
  run_reach run_raced /\ serveHTTP StatusOK (fun _ => 404) (Some (rdy run_raced)) "/readyz" = StatusOK /\ closed run_raced = true.
Proof.
  split_and!; [|reflexivity..].
  eapply reach_step; [|eapply l_ready; reflexivity].
  eapply reach_step; [|eapply l_go_sweep; reflexivity].
  eapply reach_step; [|eapply l_close; reflexivity].
  eapply reach_step; [|eapply l_stopped; reflexivity].
  eapply reach_step; [|eapply l_shut; reflexivity].
  eapply reach_step; [|eapply l_cancel].
  eapply reach_step; [|eapply l_go_shutdown; reflexivity].
  eapply reach_step; [|eapply l_go_serve; reflexivity].
  eapply reach_step; [|eapply l_listen; reflexivity].
  apply run_reach_built.
Qed.

Lemma serves_only_when_warm_witness :
  synced run_handled = true /\
  (forall y, run_step run_closed y -> calls y = []) /\
  closed run_closed = bool_decide (is_Some (Some tt)) /\
  (forall y m nf, rtc run_step run_closed y -> serveHTTP m nf (Some (rdy y)) "/readyz" = StatusServiceUnavailable).
Proof.
  destruct (serves_only_when_warm _ _ _ _ _ _ _ _ _ _ _ _ _ run_reach_handled) as (H1 & _).
  destruct (serves_only_when_warm _ _ _ _ _ _ _ _ _ _ _ _ _ run_reach_closed) as (_ & _ & H3 & H4 & H5).
  split_and!.
  - by apply H1.
  - intros y Hy. by apply (H3 eq_refl y Hy).
  - apply (H4 run_conf [SinkKafka tt] (Some tt) (set_main (MExit false) run_closed)).
    + vm_compute. reflexivity.
    + vm_compute. reflexivity.
    + reflexivity.
    + discriminate.
    + by apply l_wait.
    + reflexivity.
  - intros y m nf. by apply H5.
Defined.

Definition run_pipeline : Pipeline Resolver.Cache (list ServiceCall) :=
  Processor.pstep (PRecord (shop_record true) 5)
    (inc_batches (wire_pipeline (fun _ => list_sink) [] shop_cache run_matcher [SinkKafka tt])).
Lemma pl_run_handled : pl run_handled = Some run_pipeline.
Proof. reflexivity. Qed.

Lemma run_emits_as_specified_witness :
  let p := run_pipeline in pl run_handled = Some p /\ world p = [shop_edge] /\ (MRecords (pm p))⟦"emitted"⟧ = 1%N.
Proof.
  cbv zeta. split; [exact pl_run_handled|].
  destruct (run_emits_as_specified _ _ _ _ _ _ _ _ _ _ _ _ _ _ run_reach_handled pl_run_handled)
    as (conf & m & ks & k & Hl & Hm & Hk & _ & Hs).
  assert (conf = run_conf) as -> by (vm_compute in Hl; by injection Hl as <-).
  assert (m = run_matcher) as -> by (unfold run_matcher; by rewrite Hm).
  assert (ks = [SinkKafka tt]) as -> by (vm_compute in Hk; by injection Hk as <- <-).
  assert (spec_run dedupWindow (Some run_matcher) (base run_handled) [] (hist run_handled)
    = (["emitted"], [shop_edge])) as Hr by (vm_compute; reflexivity).
  rewrite Hr in Hs. destruct Hs as [-> ->]. split; vm_compute; reflexivity.
Defined.

Lemma shutdown_completes_witness :
  exists y, rtc run_step run_cancelled y /\ exited y = true.
Proof.
  apply (shutdown_completes _ _ _ _ _ _ _ _ _ _ _ _ run_cancelled run_reach_cancelled). reflexivity.
Defined.
End run.
