(* ===== verification/Joint.v ===== *)
(** * Joint: the processor with its controllers

    Lifecycle.v leaves the cache updates of the processor open, Mesh.v the reader
    of the cache.  [jstep] runs the two together: the cache the pipeline reads is
    the one the handlers of the two controllers write, an operation at a time, and
    the processor is told "synced" when the Kubernetes controller's pass is done;
    Istio's controller runs when the configuration turns it on.  Every joint run
    is a run of each part ([joint_parts]), so what holds of the parts holds of the
    whole; what the pipeline says of a record is always something the cluster said
    ([edges_never_invent]), and at rest, where the cluster has one source, what it
    says now ([edges_follow_cluster]). *)

From S2P Require Import Prelude Golang Netip Model Ignore Resolver Dedup Wire.
From S2P Require Import Enrich Emit Processor Calls Config Startup Lifecycle.
From S2P Require Import Kube Endpoints Controller Transform SharedInformer Informers Atomic Handlers.
From S2P Require Import Interleave Converge Cells Owners Settle Origin Istio IstioRun Mesh Serving.
Open Scope string_scope.
Open Scope list_scope.
Open Scope Z_scope.

Section joint.
Context {W C E : Type} {ROt : RangeOrder string Time}.
Context (path : string) (ReadFile : string -> option (list byte)) (Unmarshal : list byte -> option Config)
  (LookupEnv : string -> option string).
Context (NewClient : list kgo_opt -> result E C) (AppendCertsFromPEM : list byte -> bool)
  (RequestMetadata : C -> list string -> result E (list Z)) (ErrorForCode : Z -> option E).
Context (sink_of : @sink_kind C -> Sink W) (w0 : W) (start : Time).
Context {Rest Ei : Type} (zeroRest : Rest) {RO : RangeOrder okey (object Rest)}.
Context (uid_key : string -> okey) (P : kind -> okey -> object Rest -> Prop).
Context (P_trim : forall k key o, P k key o -> P k key (trimObject zeroRest o)).
(** The ServiceEntries the cluster may hold, and what registering Istio's handlers
    returns. *)
Context (Q : okey -> object Rest -> Prop) (Q_trim : forall key o, Q key o -> Q key (trimServiceEntry o)).
Context (setTransform addEventHandler : option Ei).
Abbreviation pstep_ := (lstep path ReadFile Unmarshal LookupEnv NewClient AppendCertsFromPEM RequestMetadata ErrorForCode sink_of w0).
Abbreviation preach := (lreachable path ReadFile Unmarshal LookupEnv NewClient AppendCertsFromPEM RequestMetadata ErrorForCode sink_of w0 start).
Abbreviation wf := (wf_cluster uid_key P).
Abbreviation cstep := (controller_step zeroRest uid_key P).
Abbreviation ientry := (istio_step Q setTransform addEventHandler).
Abbreviation mreach := (mreachable zeroRest uid_key P Q setTransform addEventHandler).

Record joint := mkJoint { j_proc : @proc W C; j_mesh : mesh Rest Ei }.
Definition j_cache (x : mesh Rest Ei) : Resolver.Cache := f_cache (m_ctl x).
Definition NewJoint : joint := mkJoint (runProcessor_init start NewCache) NewMesh.

(** Istio's controller is started when the configuration asks for it. *)
Definition istio_on : Prop :=
  exists conf, load path ReadFile Unmarshal LookupEnv = Ok conf /\ istio_Enabled (cfg_Istio conf) = true.

(** The pipeline, once built, reads the controllers' cache. *)
Definition see (c : Resolver.Cache) (p : @proc W C) : @proc W C :=
  match pl p with
  | None => set_rcache c p
  | Some _ => set_rcache c (happen (PCache c) (clk p) p)
  end.

Inductive jstep : joint -> joint -> Prop :=
| j_process p p' x :
    pstep_ p p' -> rcache p' = rcache p -> synced p' = synced p ->
    jstep (mkJoint p x) (mkJoint p' x)
| j_controller p x x' :
    live p = true -> cstep x x' -> jstep (mkJoint p x) (mkJoint (see (j_cache x') p) x')
| j_istio p x x' :
    live p = true -> istio_on -> ientry x x' -> jstep (mkJoint p x) (mkJoint (see (j_cache x') p) x')
| j_synced p x :
    others p = true -> f_pc (m_ctl x) = FReady -> jstep (mkJoint p x) (mkJoint (set_synced p) x).

Definition jreachable : joint -> Prop := reachable (fun x => x = NewJoint) jstep.

(** ** Projections *)

Lemma see_step p c : live p = true -> pstep_ p (see c p).
Proof.
  intros Ho. unfold see. destruct (pl p) as [q|] eqn:Hp; [by eapply l_cache_pl|by apply l_cache].
Qed.

Lemma joint_parts x : jreachable x -> preach NewCache (j_proc x) /\ mreach (j_mesh x).
Proof.
  revert x. apply (reachable_invariant _ _ (fun x => preach NewCache (j_proc x) /\ mreach (j_mesh x))).
  - intros ? ->. split; by apply reach_init.
  - intros x y [Hp Hc] Hs. destruct Hs as [p p' x Hs _ _|p x x' Ho Hs|p x x' Ho _ Hs|p x Ho _]; cbn in *.
    + split; [by eapply reach_step|done].
    + split; [eapply reach_step; [exact Hp|by apply see_step]|eapply reach_step; [exact Hc|by left]].
    + split; [eapply reach_step; [exact Hp|by apply see_step]|eapply reach_step; [exact Hc|by right]].
    + split; [eapply reach_step; [exact Hp|by apply l_synced]|done].
Qed.

(** ** What links them *)

Definition reads (p : @proc W C) : Prop := forall q, pl p = Some q -> cache q = rcache p.

Lemma cache_pstep o (q : Pipeline Resolver.Cache W) :
  cache (Processor.pstep o q) = match o with PCache c => c | _ => cache q end.
Proof.
  destruct o as [r now|now|c]; [|done..]. cbn [Processor.pstep]. unfold handle_record, Handle.
  destruct (toEvent r) as [ev|]; [|done]. destruct (IsReversedDuplicate _ _); [done|].
  destruct (ShouldIgnoreCall _ _); [done|]. by destruct (Dedup.Allow _ _ _) as [[] d].
Qed.

Lemma reads_step p p' : pstep_ p p' -> rcache p' = rcache p -> reads p -> reads p'.
Proof.
  intros Hs Hr Hp q. destruct Hs; cbn in *; try (by apply Hp); rewrite ?Hr.
  - by intros [= <-].
  - by rewrite H0.
  - rewrite H0. by intros [= <-].
  - intros [= <-]. by apply (Hp p).
  - rewrite H0. intros [= <-]. etrans; [apply (cache_pstep (PRecord r now))|by apply Hp].
  - rewrite H0. intros [= <-]. by apply (Hp p).
Qed.

Lemma reads_see c p : reads (see c p).
Proof.
  unfold see. destruct (pl p) as [q|] eqn:Hp; intros q'; cbn; rewrite ?Hp; [|done].
  cbn. by intros [= <-].
Qed.
Definition all_synced_in (x : mesh Rest Ei) : Prop := all_in phase1 (m_ctl x) /\ all_in phase2 (m_ctl x).
Record linked (x : joint) : Prop := {
  lk_cache : rcache (j_proc x) = j_cache (j_mesh x);
  lk_reads : reads (j_proc x);
  lk_synced : synced (j_proc x) = true -> all_synced_in (j_mesh x)
}.

Lemma see_rcache c p : rcache (see c p) = c.
Proof. unfold see. by destruct (pl p). Qed.
Lemma see_synced c p : synced (see c p) = synced p.
Proof. unfold see. by destruct (pl p). Qed.

(** Informers stay synced. *)
Lemma mesh_synced x y : cstep x y \/ ientry x y -> all_synced_in x -> all_synced_in y.
Proof.
  intros Hs. assert (forall ks, all_in ks (m_ctl x) -> all_in ks (m_ctl y)) as Hin.
  { intros ks Hks. destruct Hs as [Hs|Hs]; destruct Hs; [|exact Hks].
    apply (all_in_step zeroRest wf (fun _ => False) x); [by apply e_own|done]. }
  intros [H1 H2]. split; by apply Hin.
Qed.

Lemma linked_step x y : fine_phases (m_ctl (j_mesh x)) -> linked x -> jstep x y -> linked y.
Proof.
  intros Hph [Hc Hr Hsy] Hs.
  destruct Hs as [p p' x Hs Hrc Hsy'|p x x' Ho Hs|p x x' Ho Hon Hs|p x Ho Hpc]; cbn in *.
  - split; cbn; [congruence|by eapply reads_step|by rewrite Hsy'].
  - split; cbn [j_proc j_mesh]; [apply see_rcache|apply reads_see|]. rewrite see_synced. intros H.
    apply (mesh_synced x); [by left|by apply Hsy].
  - split; cbn [j_proc j_mesh]; [apply see_rcache|apply reads_see|]. rewrite see_synced. intros H.
    apply (mesh_synced x); [by right|by apply Hsy].
  - split; cbn; [done|done|]. intros _. destruct Hph as [_ Hph]. by rewrite Hpc in Hph.
Qed.

Lemma linked_reachable x : jreachable x -> linked x.
Proof.
  intros Hr. enough (jreachable x /\ linked x) by tauto. revert x Hr.
  apply (reachable_invariant _ _ (fun x => jreachable x /\ linked x)).
  - intros ? ->. split; [by apply reach_init|]. by split.
  - intros x y [Hx Hl] Hs. split; [by eapply reach_step|]. apply (linked_step x); [|done|done].
    apply (fine_phases_reachable zeroRest wf (wf_cluster_trim zeroRest uid_key P P_trim) (istio_write Q)).
    by apply (mesh_parts zeroRest uid_key P P_trim Q Q_trim setTransform addEventHandler), joint_parts.
Qed.

(** ** Runs of the controllers alone *)

(** Before the pipeline is built their steps only move the cache. *)
Lemma joint_runs p x y :
  live p = true -> pl p = None -> istio_on -> rtc (mstep zeroRest uid_key P Q setTransform addEventHandler) x y ->
  jreachable (mkJoint (set_rcache (j_cache x) p) x) -> jreachable (mkJoint (set_rcache (j_cache y) p) y).
Proof.
  intros Ho Hpl Hon Hr. induction Hr as [x|x y z Hs _ IH]; [done|]. intros Hj. apply IH.
  replace (set_rcache (j_cache y) p) with (see (j_cache y) (set_rcache (j_cache x) p))
    by (unfold see; cbn; by rewrite Hpl).
  eapply reach_step; [exact Hj|]. destruct Hs as [Hs|Hs]; [by apply j_controller|by apply j_istio].
Qed.

(** ** What an edge says *)

Lemma pipeline_cache x q :
  jreachable x -> pl (j_proc x) = Some q -> cache q = j_cache (j_mesh x).
Proof. intros Hx Hq. destruct (linked_reachable x Hx) as [Hrc Hrd _]. rewrite <-Hrc. by apply Hrd. Qed.

(** At every moment of every run of the processor with both controllers an edge
    says only what the cluster said. *)
Lemma edges_never_invent x q ev :
  jreachable x -> pl (j_proc x) = Some q ->
  told uid_key P Q ev (Enrich ev (cache q) (Some (cache q)) (Some (cache q))).
Proof.
  intros Hx Hq. rewrite (pipeline_cache x q Hx Hq), <-mixed_same.
  assert (sound uid_key P (istio_write Q) (j_cache (j_mesh x))).
  { apply (mesh_sound zeroRest uid_key P P_trim Q Q_trim setTransform addEventHandler). by apply joint_parts. }
  by apply mixed_told.
Qed.

(** ** What an edge says at rest *)

(** An address that tells nothing wrong of a pod's caller: its own, one of a
    node, or one nobody has; and no ServiceEntry names it. *)
Definition caller_address (x : mesh Rest Ei) (key : okey) (p : Pod Rest) (ip : Addr) : Prop :=
  no_entry Q ip /\
  (pod_HostNetwork p = false /\ Unmap ip ∈ Unmap <$> podIPs p /\ only_claim uid_key P (claims_ip ip) KPod key \/
   (exists nkey n, inf_store (f_inf (m_ctl x) KNode) !! nkey = Some (ONode n) /\
      Unmap ip ∈ Unmap <$> nodeInternalIPs n /\ only_claim uid_key P (claims_ip ip) KNode nkey) \/
   no_object uid_key P ip).

(** The edge [sc] of an event says of the informers' objects what is so.  Nothing is
    asked of a destination that several objects claim, or that is a ClusterIP. *)
Record edge_right (x : mesh Rest Ei) (ev : ConnectionEvent) (sc : ServiceCall) : Prop := {
  er_source key p :
    inf_store (f_inf (m_ctl x) KPod) !! key = Some (OPod p) -> pod_UID p <> "" -> SrcPodUID ev = pod_UID p ->
    caller_address x key p (SrcIP ev) ->
    WlNamespace (Source sc) = pod_Namespace p /\
    forall b, top_owner uid_key P (kept_in (m_ctl x)) key b -> Source sc = identity key b;
  er_dest_pod key p b :
    inf_store (f_inf (m_ctl x) KPod) !! key = Some (OPod p) -> pod_HostNetwork p = false ->
    Unmap (DstIP ev) ∈ Unmap <$> podIPs p -> only_claim uid_key P (claims_ip (DstIP ev)) KPod key ->
    no_entry Q (DstIP ev) -> top_owner uid_key P (kept_in (m_ctl x)) key b -> b.1 <> KindExternal ->
    Dest sc = identity key b;
  er_dest_node key n :
    inf_store (f_inf (m_ctl x) KNode) !! key = Some (ONode n) -> Unmap (DstIP ev) ∈ Unmap <$> nodeInternalIPs n ->
    only_claim uid_key P (claims_ip (DstIP ev)) KNode key -> no_entry Q (DstIP ev) -> Dest sc = node_workload n;
  er_dest_gone key :
    inf_store (f_inf (m_ctl x) KPod) !! key = None -> same_pod_ip uid_key P (DstIP ev) key ->
    only_claim uid_key P (claims_ip (DstIP ev)) KPod key -> no_entry Q (DstIP ev) -> Dest sc = outside ev;
  er_dest_entry key o w :
    inf_store (is_inf (m_istio x)) !! key = Some o -> exposes o (DstIP ev) = Some w ->
    only_exposed Q key (DstIP ev) -> no_object uid_key P (DstIP ev) -> Dest sc = w;
  er_protocol K key :
    K = KService \/ K = KSlice -> only_claim uid_key P (claims_port (DstIP ev) (DstPort ev)) K key ->
    DestAppProtocol sc = default "" (match inf_store (f_inf (m_ctl x) K) !! key with
      Some o => declared (entries_of K o) (DstIP ev) (DstPort ev) | None => None end)
}.

(** The workload a stored pod's UID and its caller's address lead to. *)
Lemma rest_source x key p ev us (ps : option Resolver.Cache) :
  mreach x -> mesh_agrees uid_key P Q x -> us = j_cache x ->
  inf_store (f_inf (m_ctl x) KPod) !! key = Some (OPod p) -> pod_UID p <> "" -> SrcPodUID ev = pod_UID p ->
  caller_address x key p (SrcIP ev) ->
  WlNamespace (Source (Enrich ev (j_cache x) (Some us) ps)) = pod_Namespace p /\
  forall b, top_owner uid_key P (kept_in (m_ctl x)) key b ->
    Source (Enrich ev (j_cache x) (Some us) ps) = identity key b.
Proof.
  intros Hx [[Huid Hpod Hnode _ _ _ _] _] -> Hs Hu He [Hno Hcase].
  apply (no_entry_undisturbed Q) in Hno as Hun. destruct (Huid key p Hs Hu) as (w & Hw & Hns & Hb). rewrite <-He in Hw, Hu.
  destruct Hcase as [(Hh & Hin & Hown)|[(nkey & n & Hn & Hin & Hown)|Hnobody]].
  - destruct (Hpod key p (SrcIP ev) Hs Hh Hin Hown Hun) as (w' & Hw' & Hns' & Hb').
    assert (Source (Enrich ev (j_cache x) (Some (j_cache x)) ps) = w \/
            Source (Enrich ev (j_cache x) (Some (j_cache x)) ps) = w') as Hor.
    { unfold Enrich, WorkloadForIP, j_cache. cbn [Source]. rewrite Hw', Hw. case_match; auto. }
    split; [by destruct Hor as [-> | ->]|]. intros b Ht. destruct Hor as [-> | ->]; auto.
  - assert (Source (Enrich ev (j_cache x) (Some (j_cache x)) ps) = w) as ->; [|by split].
    apply Enrich_source_pod; [done|exact Hw|right]. unfold WorkloadForIP, j_cache. intros [Hk _].
    by rewrite (Hnode nkey n _ Hn Hin Hown Hun) in Hk.
  - assert (Source (Enrich ev (j_cache x) (Some (j_cache x)) ps) = w) as ->; [|by split].
    apply Enrich_source_pod; [done|exact Hw|right]. unfold WorkloadForIP, j_cache. intros [_ Hk].
    by rewrite (nobody_unnamed zeroRest uid_key P P_trim Q Q_trim _ _ x _ Hx Hnobody Hno) in Hk.
Qed.

Lemma rest_right x ev :
  mreach x -> mesh_quiet x ->
  edge_right x ev (Enrich ev (j_cache x) (Some (j_cache x)) (Some (j_cache x))).
Proof.
  intros Hx Hq. pose proof (mesh_converges zeroRest uid_key P P_trim Q Q_trim _ _ x Hx Hq) as Hag.
  pose proof Hag as [[_ Hpod Hnode Hport _ Hgone _] Hvip]. split.
  - intros key p Hs Hu He Hc. by apply (rest_source x key p).
  - intros key p b Hs Hh Hin Hown Hno Ht Hk. apply (no_entry_undisturbed Q) in Hno.
    destruct (Hpod key p _ Hs Hh Hin Hown Hno) as (w & Hw & _ & Hb). rewrite (Hb b Ht) in Hw.
    by apply Enrich_dest_known.
  - intros key n Hs Hin Hown Hno. apply (no_entry_undisturbed Q) in Hno.
    apply Enrich_dest_known; [by apply (Hnode key n)|done].
  - intros key Hs Hsame Hown Hno. apply (no_entry_undisturbed Q) in Hno.
    by apply Enrich_dest_unknown, (Hgone key).
  - intros key o w Hs Hw Hown Hno. apply Enrich_dest_known; [by apply (Hvip key o)|].
    by rewrite (proj2 (exposes_names o _ w Hw)).
  - intros K key HK Hown. unfold Enrich, j_cache. cbn [DestAppProtocol]. by rewrite (Hport K key _ _ HK Hown).
Qed.

(** C7: what an edge says of the cluster.  In every reachable state of the
    processor with its controllers, at whatever point of each: if a Report call
    is in progress or the process says it is ready, the six Kubernetes informers,
    owners first, have been synced; for Istio's nothing waits
    ([ready_before_istio]).  The pipeline reads the controllers' cache.  At every
    moment a peer at an address that no object claims and no ServiceEntry names is
    called by its address, or by its host name as a destination.  The controllers
    can always come to rest, and at rest the edge of every event says, of all that
    has one source, what the informers hold ([edge_right]): a caller whose pod UID is a
    stored pod's is named in that pod's namespace, and exactly as the owner its
    references lead to under the premises of [index_settles], be its address its
    own, a node's or nobody's; a destination only one stored pod claims is that
    owner of it, one only a node claims that node, one every revision of a pod that
    is gone had an outside peer; a VIP of a stored ServiceEntry that no object
    claims and no other entry ever exposes is that entry's host; and the port only
    one Service or slice exposes has the protocol declared there, none when the
    object is gone.  Of a destination at a ClusterIP nothing is claimed beyond
    [edges_never_invent]: its workload can be stale ([cluster_ip_lost_update]). *)
Theorem edges_follow_cluster (x : joint) (Hx : jreachable x) :
  (calls (j_proc x) <> [] \/ rdy (j_proc x) = true -> all_synced_in (j_mesh x)) /\
  (exists y, rtc (mstep zeroRest uid_key P Q setTransform addEventHandler) (j_mesh x) y /\ mesh_quiet y) /\
  forall q, pl (j_proc x) = Some q -> cache q = j_cache (j_mesh x) /\
  forall ev, let sc := Enrich ev (cache q) (Some (cache q)) (Some (cache q)) in
   (no_object uid_key P (SrcIP ev) -> no_entry Q (SrcIP ev) -> SrcPodUID ev = "" ->
      Source sc = mkWorkload (AddrString (SrcIP ev)) "" KindExternal) /\
   (no_object uid_key P (DstIP ev) -> no_entry Q (DstIP ev) -> Dest sc = outside ev) /\
   (mesh_quiet (j_mesh x) -> edge_right (j_mesh x) ev sc).
Proof.
  destruct (joint_parts x Hx) as [Hp Hc]. destruct (linked_reachable x Hx) as [_ _ Hsy].
  destruct (lreachable_inv _ _ _ _ _ _ _ _ _ _ _ _ _ Hp) as [Ho _]. split_and!.
  - intros Hb. apply Hsy. apply (o_synced _ Ho), (o_srv _ Ho). destruct Hb as [Hb|Hb].
    + apply (o_calls _ Ho). unfold busy. by destruct (calls (j_proc x)).
    + by apply (o_rdy _ Ho).
  - by apply (mesh_settles zeroRest uid_key P P_trim Q Q_trim).
  - intros q Hq. rewrite (pipeline_cache x q Hx Hq). split; [done|]. intros ev. cbv zeta.
    pose proof (fun ip => nobody_unnamed zeroRest uid_key P P_trim Q Q_trim _ _ (j_mesh x) ip Hc) as Hnobody.
    split_and!; [|intros Hno Hne; by apply Enrich_dest_unknown, Hnobody|intros Hqu; by apply rest_right].
    intros Hno Hne. by apply Enrich_source_unknown, Hnobody.
Qed.
End joint.

(** ** Witness *)

Section run.
#[local] Instance run_times : RangeOrder string Time := canonical_order.
#[local] Instance run_objects : RangeOrder okey (object unit) := canonical_order.

(** The configuration of Lifecycle.v's runs, with Istio's controller on. *)
Definition mesh_conf : Config := mkConfig (cfg_Ignore run_conf) (mkIstioConfig true "") (cfg_Emit run_conf).
Abbreviation joint_reach :=
  (jreachable "/etc/c.yaml" (fun _ => Some []) (fun _ => Some mesh_conf) (fun _ => None)
     (fun _ => Ok tt : result unit unit) (fun _ => true) (fun _ _ => Ok [0]) (fun _ => None) (fun _ => list_sink) []
     0 tt two_uid_key blue_alone only_a (None : option string) None).
(** Configuration loaded, the controllers running. *)
Definition joint_await : @proc (list ServiceCall) unit :=
  set_main (MAwait mesh_conf run_matcher) (set_others true
    (set_main (MClients mesh_conf run_matcher) (runProcessor_init 0 NewCache))).
(** Synced, and the pipeline built on the controllers' cache. *)
Definition joint_synced (c : Resolver.Cache) : @proc (list ServiceCall) unit :=
  set_main (MSinks mesh_conf run_matcher) (set_synced (set_rcache c joint_await)).
Definition joint_built (c : Resolver.Cache) : @proc (list ServiceCall) unit :=
  set_main (MListen (Some tt))
    (build_pl (wire_pipeline (fun _ => list_sink) [] c run_matcher [SinkKafka tt]) (joint_synced c)).

Lemma joint_build x :
  f_pc (m_ctl x) = FReady -> joint_reach (mkJoint (set_rcache (j_cache x) joint_await) x) ->
  joint_reach (mkJoint (joint_built (j_cache x)) x).
Proof.
  intros Hpc Hr.
  apply (reach_step _ _ (mkJoint (joint_synced (j_cache x)) x)).
  - apply (reach_step _ _ (mkJoint (set_synced (set_rcache (j_cache x) joint_await)) x)).
    + eapply reach_step; [exact Hr|]. by apply j_synced.
    + apply j_process; [by eapply l_await_synced|done..].
  - apply j_process; [|done..]. apply (l_sinks _ _ _ _ _ _ _ _ _ _ (joint_synced (j_cache x)) mesh_conf run_matcher); [done|].
    vm_compute. reflexivity.
Qed.

(** Any run of the controllers, and then the pipeline built on what they left. *)
Lemma joint_reach_on x :
  rtc (mstep tt two_uid_key blue_alone only_a None None) NewMesh x -> f_pc (m_ctl x) = FReady ->
  joint_reach (mkJoint (joint_built (j_cache x)) x).
Proof.
  intros Hr Hpc. apply joint_build; [done|].
  apply (joint_runs _ _ _ _ _ _ _ _ _ _ _ _ _ _ _ _ _ joint_await NewMesh x); [done|done| |done|].
  { exists mesh_conf. split; vm_compute; reflexivity. }
  apply (reach_step _ _ (mkJoint (set_main (MClients mesh_conf run_matcher) (runProcessor_init 0 NewCache)) NewMesh)).
  - eapply reach_step; [by apply reach_init|]. apply j_process; [|done..].
    eapply l_load; vm_compute; reflexivity.
  - apply j_process; [by eapply l_clients|done..].
Qed.

Lemma joint_reach_built : joint_reach (mkJoint (joint_built (j_cache end_mesh)) end_mesh).
Proof. apply joint_reach_on; [exact to_end_mesh|vm_compute; reflexivity]. Qed.

(** Every goroutine started, and a call accepted. *)
Definition joint_serving (c : Resolver.Cache) : @proc (list ServiceCall) unit :=
  let x := set_main (MShutdown (Some tt)) (set_srv VSpawned (set_main (MServe (Some tt)) (joint_built c))) in
  let x := set_main MReady (set_sweeping true (set_main MSweep (set_shut (XWaiting (Some tt)) x))) in
  set_srv VServing (set_main MWait (set_rdy true x)).
Definition joint_called (c : Resolver.Cache) : @proc (list ServiceCall) unit :=
  let x := joint_serving c in
  set_calls (calls x ++ [Records (mkReportRequest "n1" [vip_record])])
    (set_pl (inc_batches (wire_pipeline (fun _ => list_sink) [] c run_matcher [SinkKafka tt])) x).

Lemma joint_reach_called x :
  joint_reach (mkJoint (joint_built (j_cache x)) x) -> joint_reach (mkJoint (joint_called (j_cache x)) x).
Proof.
  intros H. generalize (j_cache x) as c, H. clear H. intros c H.
  eapply reach_step; [|apply j_process; [apply (l_call _ _ _ _ _ _ _ _ _ _ (joint_serving c)); reflexivity|done..]].
  eapply reach_step; [|apply j_process; [by eapply l_serve|done..]].
  eapply reach_step; [|apply j_process; [by eapply l_ready|done..]].
  eapply reach_step; [|apply j_process; [by eapply l_go_sweep|done..]].
  eapply reach_step; [|apply j_process; [by eapply l_go_shutdown|done..]].
  eapply reach_step; [|apply j_process; [by eapply l_go_serve|done..]].
  eapply reach_step; [|apply j_process; [by eapply l_listen|done..]]. done.
Qed.

(** Nothing waits for Istio's informer: with Istio's controller turned on a state
    is reachable in which the process is ready and handles a record for a VIP while
    that controller has not even started, so the edge of the record names the bare
    address and not the entry's host. *)
Lemma ready_before_istio : exists x,
  joint_reach x /\ istio_Enabled (cfg_Istio mesh_conf) = true /\
  rdy (j_proc x) = true /\ calls (j_proc x) = [[vip_record]] /\
  is_pc (m_istio (j_mesh x)) = IBegin /\
  exists q ev, pl (j_proc x) = Some q /\ toEvent vip_record = Some ev /\
    Dest (Enrich ev (cache q) (Some (cache q)) (Some (cache q))) = mkWorkload (AddrString vip1) "" KindExternal.
Proof.
  exists (mkJoint (joint_called (j_cache ready_mesh)) ready_mesh). split_and!; [|reflexivity..|].
  - apply joint_reach_called, joint_reach_on; [exact to_ready_mesh|vm_compute; reflexivity].
  - eexists _, _. split_and!; [reflexivity|vm_compute; reflexivity|vm_compute; reflexivity].
Qed.

(** The first pod calls the external host behind the VIP. *)
Definition blue_event : ConnectionEvent :=
  mkEvent ip_a vip1 40000 5432 ProtocolTCP 7 "psql" true "uid-blue" "".
Abbreviation edge_of q := (Enrich blue_event (cache q) (Some (cache q)) (Some (cache q))) (only parsing).

Lemma edges_follow_cluster_witness :
  exists q, pl (joint_built (j_cache end_mesh)) = Some q /\
    Source (edge_of q) = blue_wl /\ Dest (edge_of q) = db_workload.
Proof.
  destruct (edges_follow_cluster _ _ _ _ _ _ _ _ _ _ _ _ _ _ blue_alone_trim _ only_a_trim _ _ _ joint_reach_built)
    as (_ & _ & H).
  eexists. split; [reflexivity|]. destruct (H _ eq_refl) as [_ Hq].
  destruct (Hq blue_event) as (_ & _ & He). destruct (He end_quiet) as [Hsrc _ _ _ Hdst _]. split.
  - destruct (Hsrc ("shop", "blue-0") (trimPod tt blue_pod)) as [_ Hb]; [vm_compute; reflexivity|done|reflexivity| |].
    + split; [exact blue_no_vip|]. left. split_and!; [reflexivity| |].
      * apply list_elem_of_In. vm_compute. auto.
      * intros k key o [_ [Ho _]]. apply Ho.
    + by rewrite (Hb _ (blue_top _)).
  - apply (Hdst key_a (trimServiceEntry entry_a)); [vm_compute; reflexivity|vm_compute; reflexivity| |exact vip_free].
    intros key' o [_ [Hk _]] Hne. by destruct Hne.
Defined.
End run.
