(* ===== verification/KafkaTest.v ===== *)
(** * KafkaTest: the throwaway broker of the integration tests (internal/kafkatest/kafkatest.go)

    [Start] picks the image and the options of the broker's container, [Client]
    and [CreateTopic] what is asked of the Kafka client, and [Consume] is its poll
    loop.  A failed test is a [fatal].  The container runtime, the environment
    and the Kafka client are arguments. *)

From S2P Require Import Prelude Golang Netip Model Config Emit Startup.
Open Scope string_scope.
Open Scope list_scope.
Open Scope Z_scope.

Definition DefaultImage : string := "mirror.gcr.io/redpandadata/redpanda:v23.3.3".
Definition ImageEnv : string := "KAFKATEST_IMAGE".
Definition User : string := "sniffer".
Definition Password : string := "sniffer-secret".

Record Broker := mkBroker { brk_Addr : string; brk_sasl : bool }.

Inductive container_opt :=
| WithEnableSASL
| WithNewServiceAccount (user pass : string)
| WithSuperusers (user : string).

(** Options of the consumer beside those the producer uses. *)
Inductive client_opt :=
| Producing (o : kgo_opt)
| ConsumeTopics (topic : string)
| ConsumeFromStart.

(** [t.Fatalf], and the index out of range in [CreateTopic]. *)
Inductive fatal (E : Type) :=
| StartRedpanda (e : E)
| SeedBroker (e : E)
| KafkaClient (e : E)
| CreateTopicFailed (topic : string) (e : E)
| NoTopicInResponse
| FetchFailed (topic : string) (partition : Z) (e : E).
Arguments StartRedpanda {E}.
Arguments SeedBroker {E}.
Arguments KafkaClient {E}.
Arguments CreateTopicFailed {E}.
Arguments NoTopicInResponse {E}.
Arguments FetchFailed {E}.

(** A topic to create. *)
Record new_topic := mkNewTopic { nt_name : string; nt_partitions : Z; nt_replication : Z }.

(** What [PollFetches] brought: whether the context was done, the errors and the
    records. *)
Record poll (E R : Type) := mkPoll {
  pl_done : bool;
  pl_errors : list (string * Z * E);
  pl_records : list R
}.
Arguments mkPoll {E R}.
Arguments pl_done {E R}.
Arguments pl_errors {E R}.
Arguments pl_records {E R}.

Section kafkatest.
Context {E Container C R : Type}.
Context (Getenv : string -> string) (RunRedpanda : string -> list container_opt -> result E Container)
  (KafkaSeedBroker : Container -> result E string).
Context (NewClient : list client_opt -> result E C)
  (RequestCreateTopics : C -> list new_topic -> result E (list Z)) (ErrorForCode : Z -> option E).

Definition image : string := if decide (Getenv ImageEnv <> "") then Getenv ImageEnv else DefaultImage.
Definition container_opts (withSASL : bool) : list container_opt :=
  if withSASL then [WithEnableSASL; WithNewServiceAccount User Password; WithSuperusers User] else [].
Definition Start (withSASL : bool) : result (fatal E) Broker :=
  match RunRedpanda image (container_opts withSASL) with
  | Err e => Err (StartRedpanda e)
  | Ok c =>
      match KafkaSeedBroker c with
      | Err e => Err (SeedBroker e)
      | Ok addr => Ok (mkBroker addr withSASL)
      end
  end.

Definition client_opts (b : Broker) (opts : list client_opt) : list client_opt :=
  [Producing (SeedBrokers [brk_Addr b])]
  ++ (if brk_sasl b then [Producing (SASL ScramSha256 User Password)] else []) ++ opts.
(** The client is closed at the end of the test. *)
Definition Client (b : Broker) (opts : list client_opt) : result (fatal E) C :=
  match NewClient (client_opts b opts) with Ok cl => Ok cl | Err e => Err (KafkaClient e) end.

Definition CreateTopic (b : Broker) (topic : string) : result (fatal E) unit :=
  cl ← Client b [];
  match RequestCreateTopics cl [mkNewTopic topic 1 1] with
  | Err e => Err (CreateTopicFailed topic e)
  | Ok [] => Err NoTopicInResponse
  | Ok (code :: _) =>
      match ErrorForCode code with Some e => Err (CreateTopicFailed topic e) | None => Ok tt end
  end.

(** The loop of [Consume] over what its polls bring; [None] while it polls. *)
Fixpoint consume_loop (want : nat) (polls : list (poll E R)) (got : list R) : option (result (fatal E) (list R)) :=
  if (want <=? length got)%nat then Some (Ok got)
  else
    match polls with
    | [] => None
    | p :: polls =>
        if pl_done p then Some (Ok got)
        else
          match pl_errors p with
          | (t, part, e) :: _ => Some (Err (FetchFailed t part e))
          | [] => consume_loop want polls (got ++ pl_records p)
          end
    end.
Definition Consume (b : Broker) (topic : string) (want : nat) (polls : list (poll E R))
    : option (result (fatal E) (list R)) :=
  match Client b [ConsumeTopics topic; ConsumeFromStart] with
  | Err e => Some (Err e)
  | Ok _ => consume_loop want polls []
  end.

(** ** Lemmas *)

Definition clean (p : poll E R) : Prop := pl_done p = false /\ pl_errors p = [].

(** What was read is what the polls before the end brought, in order; the loop
    ends when there is enough, and no earlier, or at the timeout. *)
Lemma consume_loop_spec want polls : forall got out,
  consume_loop want polls got = Some (Ok out) ->
  exists ps rest, polls = ps ++ rest /\ Forall clean ps /\ out = got ++ (ps ≫= pl_records) /\
    ((want <= length out)%nat \/ exists p, head rest = Some p /\ pl_done p = true) /\
    (forall ps' p, ps = ps' ++ [p] -> (length (got ++ (ps' ≫= pl_records)) < want)%nat).
Proof.
  induction polls as [|p polls IH]; intros got out; cbn [consume_loop];
    destruct (Nat.leb_spec want (length got)) as [Hle|Hlt].
  - intros [= <-]. exists [], []. cbn [mbind list_bind]. rewrite !app_nil_r. split_and!; [done..|by left|intros [] ? ?; done].
  - done.
  - intros [= <-]. exists [], (p :: polls). cbn [mbind list_bind]. rewrite !app_nil_r. split_and!; [done..|by left|intros [] ? ?; done].
  - destruct (pl_done p) eqn:Hd.
    { intros [= <-]. exists [], (p :: polls). cbn [mbind list_bind]. rewrite !app_nil_r. split_and!; [done..|right; by exists p|intros [] ? ?; done]. }
    destruct (pl_errors p) as [|[[t part] e] es] eqn:He; [|done].
    intros (ps & rest & -> & Hc & -> & Hend & Hmin)%IH. exists (p :: ps), rest. cbn [mbind list_bind].
    rewrite <-app_assoc in *. split_and!; [done|by constructor|done|done|]. intros [|p' ps'] q Hps.
    + by rewrite app_nil_r.
    + injection Hps as -> ->. rewrite bind_cons, app_assoc. rewrite <-app_assoc. specialize (Hmin ps' q eq_refl).
      by rewrite <-app_assoc in Hmin.
Qed.

(** A poll after the timeout ends the loop. *)
Lemma consume_loop_ends want polls got :
  Exists (fun p => pl_done p = true) polls -> is_Some (consume_loop want polls got).
Proof.
  intros Hex. revert got. induction Hex as [p polls Hp|p polls _ IH]; intros got; cbn [consume_loop];
    (destruct (want <=? length got)%nat; [by eexists|]).
  - rewrite Hp. by eexists.
  - destruct (pl_done p); [by eexists|]. destruct (pl_errors p) as [|[[t part] e] es]; [apply IH|by eexists].
Qed.

(** The tests' broker accepts the sniffer configured with its user and SCRAM. *)
Lemma sniffer_authenticates ReadFile AppendCerts (cfg : KafkaConfig) b opts :
  brk_sasl b = true -> kafka_SASL cfg = mkSASL SASLMechanismScramSHA256 User Password ->
  kafka_opts (E:=E) ReadFile AppendCerts cfg = Ok opts ->
  exists o, o ∈ opts /\ Producing o ∈ client_opts b [] /\ o = SASL ScramSha256 User Password.
Proof.
  intros Hb Hs Ho. exists (SASL ScramSha256 User Password). split_and!; [| |done].
  - unfold kafka_opts in Ho. rewrite Hs in Ho.
    destruct (if tls_Enabled (kafka_TLS cfg) then _ else _) as [os|]; [|done]. cbn in Ho.
    injection Ho as <-. apply elem_of_app. right. by left.
  - unfold client_opts. rewrite Hb. set_solver.
Qed.
End kafkatest.
